(* ===== verification/_CoqProject ===== *)
-Q . S2P
Prelude.v
Orders.v
TradeStore.v
LongDouble.v
Rounding.v
RelativeError.v
Windows.v
TradeAnalytics.v
TradeAnalyticsSpec.v
OrderBook.v
DepthFigures.v
MarketImpact.v
OrderFlow.v
OrderFlowSpec.v
Levels.v
OrderManager.v
ManagerSpec.v
ManagerTheorems.v
MatchingEngine.v
EngineSpec.v
BookTheorems.v
DepthSpec.v
PlaceSpec.v
Journal.v
MatchLoop.v
EngineLimit.v
EngineModify.v
EngineMarket.v
MarketRollback.v
BlockingQueue.v
ConcurrentEngine.v
ConcurrentSpec.v
Totality.v
FairExecution.v
ImpactSpec.v
OrderFlowAdapters.v
AdapterSpec.v
ConcurrentAdapterSpec.v
Positions.v
Risk.v
AnalyticsEngine.v
AnalyticsEngineSpec.v
RiskTheorems.v
FixedPoint.v
FixedPointTheorems.v
EngineTheorems.v
ConcurrentTheorems.v
OrderFlowTheorems.v
AnalyticsTheorems.v
Json.v
MarketFeed.v
FeedClient.v
FeedSpec.v
FeedEvents.v
FeedTheorems.v
Heartbeat.v
Connection.v
ConnectionTheorems.v
Stream.v
StreamTheorems.v
Session.v
SessionTheorems.v
CommandLine.v
CommandLineTheorems.v
