(* ===== verification/Prelude.v ===== *)
(** * CMarket: verification of the matching engine

    ** The program

    CMarket is a limit-order matching engine in C++20.  Its core, and the part
    verified here, is

    - the data of orders and trades ([include/execution.hpp],
      [include/limit_order.hpp]), argument checks ([include/validation.hpp]) and
      the id generator ([include/order_id_generator.hpp]);
    - [OrderBook] ([src/order_book.cpp]): two vectors of price levels, best
      first, with snapshots, updates, figures, and decimal text;
    - [OrderManager] ([src/order_manager.cpp]): the active orders in a vector,
      with an id index and one priority index per side kept in step;
    - [TradeStore] ([include/trade_store.hpp]): the history with checkpoints;
    - [MatchingEngine] ([src/matching_engine.cpp]): places, cancels, modifies and
      executes orders against the manager, mirrors them in a book it shares with
      its owner, and undoes its work from journals when a step throws;
    - [ConcurrentMatchingEngine] ([src/concurrent_matching_engine.cpp]) with
      [BlockingQueue] ([include/blocking_queue.hpp]): clients queue commands, one
      worker executes them and fulfils their promises;
    - [Position], [PositionManager] and [PositionExecutionHandler]
      ([include/position.hpp], [include/position_manager.hpp],
      [include/position_execution_handler.hpp]): quantity, average entry price and
      realised profit per symbol;
    - [RiskLimits], [RiskValidator] and [RiskManagedExecution]
      ([include/risk_limits.hpp], [include/risk_validator.hpp],
      [include/risk_managed_execution.hpp]): market orders behind a limit on the
      position, booked after the engine has executed them;
    - [RollingVWAP], [TradeStatistics] and [AnalyticsExecutionHandler]
      ([include/rolling_vwap.hpp], [include/trade_statistics.hpp],
      [include/analytics_execution_handler.hpp]): figures over the trades of a
      symbol, fed by the executions;
    - [OrderFlowImbalance] with its handler, its observable book and its two
      engine adapters ([include/order_flow_imbalance.hpp],
      [include/ofi_order_book_handler.hpp], [include/ofi_observable_order_book.hpp],
      [include/ofi_matching_engine_adapter.hpp],
      [include/ofi_concurrent_matching_adapter.hpp]): a figure over consecutive
      best levels, fed after each change of a book;
    - [DepthAnalytics], [DepthWeightedPricing], [LiquidityConcentration] and
      [MarketImpact] ([include/depth_analytics.hpp],
      [include/depth_weighted_pricing.hpp], [include/liquidity_concentration.hpp],
      [include/market_impact.hpp]): figures over the best levels of a book, and
      over the books before and after an execution;
    - [AnalyticsEngine] and the two execution adapters
      ([include/analytics_engine.hpp], [include/market_impact_execution_adapter.hpp],
      [include/analytics_engine_execution_adapter.hpp]): managed orders that record
      what they did to the book;
    - the market stream: [WebSocketClient] ([src/websocket_client.cpp]) keeps one
      book per subscribed token ([include/websocket_market_state.hpp]) from the
      messages of a server, parsed and dispatched by
      [include/websocket_message_parser.hpp] and
      [include/websocket_payload_dispatcher.hpp], with a heartbeat
      ([include/heartbeat_state.hpp]) and reconnections
      ([include/reconnect_backoff.hpp]);
    - the program ([src/main.cpp]), which streams or prints one snapshot that
      [HttpClient] ([src/http_client.cpp]) downloads.

    ** The files

    Definitions that translate the sources, one per component:
    - [Prelude] (this file): outcomes, the state monad with exceptions, its
      weakest preconditions and tactics, 64-bit arithmetic, strict orders;
    - [Orders], [TradeStore], [OrderBook], [OrderManager], [MatchingEngine],
      [BlockingQueue], [ConcurrentEngine]: the component of that name, with the
      names of its members; [FixedPoint]: the decimal text of the book;
    - [Positions]: positions, their map and the execution handler, followed by
      what a trade and an execution do to them ([traded], [executed]);
    - [Risk]: limits, validator and managed orders, followed by what a managed
      order does ([managed], [refused]) and the clients that send them;
    - [TradeAnalytics], [OrderFlow], [OrderFlowAdapters], [DepthFigures],
      [MarketImpact], [AnalyticsEngine]: the analytics and their adapters;
    - [MarketFeed], [FeedClient]: subscription, parser, dispatcher and state of the
      market channel, and the processing and printing of its events; [Json] is
      what they use of the JSON library, as a class;
    - [Heartbeat], [Connection], [Stream], [Session]: heartbeat and backoff, the
      handlers of one connection with the operations under way, the loop that
      reconnects, and one attempt from its set-up to its close, which runs those
      handlers and is what the loop is given;
    - [CommandLine]: the HTTP client and the program;
    - [LongDouble]: the [long double] arithmetic the figures use, with explicit
      rounding, for every significand of at least 53 bits (a class, since the
      width belongs to the platform).

    Specifications and the lemmas that connect them to the definitions:
    - [Levels]: a sorted vector of levels is a finite function from prices to
      quantities, and every vector operation is a point update of it;
    - [ManagerSpec]: the manager represents a pair of priority queues
      ([Queues], [om_rep]); what each member does to them;
    - [EngineSpec], [PlaceSpec]: the abstract engine.  [match_queue] is the greedy
      pass over a queue, [place_spec] a placement, [synced] says that the book
      shows the queues, [engine_inv] is the invariant between calls;
    - [Journal], [MatchLoop]: a journal entry undoes its round ([undoes]), the
      matching loop runs the greedy pass, and undoing its journal restores the
      engine;
    - [EngineLimit], [EngineModify], [EngineMarket]: weakest preconditions of the
      members of the engine; [MarketRollback]: what the handler of a market order
      leaves behind when the book showed less than the orders ([market_failed]);
    - [ConcurrentSpec]: the simulation of the interleaved system by the
      sequential one;
    - [Totality]: every command is answered while prices times market quantities
      fit the significand of [long double]; [FairExecution]: a market order trades
      at the best price or behind it;
    - [Rounding], [RelativeError]: comparisons with integers survive rounding, and
      [close] bounds a computed number by its exact rational value and the number
      of roundings;
    - [Windows], [TradeAnalyticsSpec], [OrderFlowSpec]: running totals over a
      window against the list of all events ([tracks], [analytics_tracks]);
    - [DepthSpec], [ImpactSpec]: what a summary of levels or of an execution shows
      ([depth_shown], [impact_shown]);
    - [AdapterSpec], [ConcurrentAdapterSpec], [AnalyticsEngineSpec]: calls through
      the adapters against calls of what they adapt;
    - [FeedSpec], [FeedEvents]: an event is a function from views to views
      ([spec_message]), and a market state [shows] a view.

    Theorems, each with an instance on concrete data:
    - [EngineTheorems]: placement, modification, cancellation and market orders
      refine the abstract engine; limits and price-time priority are respected;
      failed placements change nothing; bounded commands are all answered and keep
      the invariant and the book uncrossed.  Two theorems show rollbacks that
      leave the shared book with more than it had, for market orders in general;
    - [ConcurrentTheorems]: linearisation in the order of acceptance, and shutdown;
    - [ManagerTheorems]: round trips of the manager and of the history, and the
      best order;
    - [BookTheorems]: snapshots, updates, adjustments and figures;
    - [FixedPointTheorems]: accepted texts and the print-parse round trip;
    - [RiskTheorems]: trades are accounted for, executions add up, a managed order
      goes through within the limit or changes nothing, and no sequence of orders
      takes a position past its limit;
    - [OrderFlowTheorems]: the rolling imbalance is that of a reference
      definition, and the adapters feed it the books of the engine without
      changing what the engine does, whatever the callback and the shared book;
    - [AnalyticsTheorems]: the trade figures are exact while the totals fit the
      significand, the level figures are exact or within a stated relative error,
      and the execution adapters record impacts and change nothing else, over any
      shared book: slippage and mid price are never in favour of the order, and a
      book that is crossed afterwards costs the health flag.  One theorem shows a
      rolling price that lost its small trades;
    - [FeedTheorems]: which texts are taken for what, the dispatcher isolates
      failures, and the books refine the abstract feed.  One theorem shows a
      crossed snapshot that is kept and reported as ignored;
    - [Heartbeat], [ConnectionTheorems], [SessionTheorems], [StreamTheorems]: the
      timeout against the history of pings, one operation of each kind at most,
      books that follow the texts, the end of a connection, of an attempt and of
      the loop;
    - [CommandLineTheorems]: the exit code of both commands.

    ** How the code is modelled

    A member function is a computation [M S A] on the state of its object.  It
    answers [Ok], throws, is [Undefined] (signed overflow, a bad index) or
    [Diverges] (a loop out of fuel).  As in C++, what was written before a throw
    stays written; the handlers of the sources are translated and it is they that
    restore it.  A weakest precondition excludes [Undefined] and [Diverges], so
    every theorem that gives an outcome also says that the arithmetic does not
    overflow and that the loops end.

    Integers are [Z] with their width: signed overflow is undefined
    ([checked64]), unsigned arithmetic wraps ([uwrap64]).  [std::map] and
    [std::set] are their elements in iteration order, the hash index of the
    manager a [gmap], vectors are lists, pointers and iterators into them
    indices, node handles the keys they own.  [std::isdigit] is that of the C
    locale.  [__int128] results are bounded ([checked128]), and a cast from them
    to 64 bits is the modular one ([narrow64]).

    The matching loops take fuel: one round more than there are active orders
    ([match_fuel]), or levels and orders together ([market_fuel]).  Every round
    but the last uses up an order or a level, and [wp_loop] turns that measure
    into termination, so the fuel never runs out.  The loop of [Stream] runs until
    a signal; its theorem says that one attempt more than there are before the
    signal is enough.  The loop of a connection ([Session.io_run]) runs until
    nothing is under way: when a signal arrives or an operation fails at turn [N]
    at the latest, [N + 5] turns are enough, since at most three completions are
    left then.

    Threads interleave as steps of [ConcurrentEngine.cstep].  A member that holds
    a lock for its whole body is one step, and waiting on a condition is the
    guard of a step.

    Third-party code is a parameter.  The JSON library is the class [Json.Json] with
    two documented facts: [at] finds what [contains] reports, and
    [get<std::string>] reads what [is_string] reports.  Asio chooses the events of
    [Connection.connection_runs]: a completion needs an operation under way, and
    only a cancelled wait reports an abort; it owes a completion for every wait, and
    for every read and write of a socket that was cancelled ([Connection.due]).  What
    the network libraries answer to one connection attempt or one HTTP request,
    the completions they deliver and the moments at which signals arrive are the
    records [ws_session] and [http_session]; the theorems about streams assume of
    an attempt what [well_behaved] says.  [Stream.stream_market] is stated for any
    attempt and instantiated with [Session.attempt] in [Session.stream_tokens].
    Times are nanoseconds in 64 bits.

    ** What is not modelled

    Allocation failure: handlers that only [std::bad_alloc] could reach are
    translated but never entered.  The lock of [OrderBook] and owners that write
    to the shared book while a member of the engine runs; what the owner wrote
    before a call is covered, by the theorems that do not assume [synced].  Two
    threads in [shutdown] at once.  Infinities and NaNs are arguments the checks
    refuse, never results: no figure leaves the exponent range.  What goes over a
    socket and its encryption; a signal in the middle of a handler, which is taken
    to arrive before or after it; [operator<<] that fails.  Tests and benchmarks. *)
From stdpp Require Export base numbers list strings gmap sorting.
From Stdlib Require Export ZArith Lia.

Local Open Scope Z_scope.

(** ** Exceptions and outcomes

    The exceptions are the standard ones the sources throw, with their message, and
    the base class of those of the JSON library.
    [Undefined] stands for a step the C++ standard leaves undefined (a signed
    overflow, an index outside a vector); no handler catches it.  [Diverges] is
    what a loop answers when it has used up its fuel. *)

Inductive exn : Type :=
| invalid_argument (what : string)
| overflow_error (what : string)
| logic_error (what : string)
| runtime_error (what : string)
| out_of_range (what : string)
| json_exception (what : string).

(** [error.what()]. *)
Definition what (e : exn) : string :=
  match e with
  | invalid_argument w | overflow_error w | logic_error w | runtime_error w
  | out_of_range w | json_exception w => w
  end.

#[export] Instance exn_eq_dec : EqDecision exn.
Proof. solve_decision. Defined.

Inductive outcome (A : Type) : Type :=
| Ok (a : A)
| Throw (e : exn)
| Undefined
| Diverges.

Arguments Ok {A} a.
Arguments Throw {A} e.
Arguments Undefined {A}.
Arguments Diverges {A}.

(** ** The effect of a member function

    A computation reads and writes a state and may throw.  As in C++ the state
    written before a throw stays written: undoing it is the business of the
    handlers in the sources. *)

Definition M (S A : Type) : Type := S → outcome A * S.

Definition ret {S A} (a : A) : M S A := λ s, (Ok a, s).

Definition bind {S A B} (m : M S A) (f : A → M S B) : M S B := λ s,
  match m s with
  | (Ok a, s') => f a s'
  | (Throw e, s') => (Throw e, s')
  | (Undefined, s') => (Undefined, s')
  | (Diverges, s') => (Diverges, s')
  end.

Definition throw {S A} (e : exn) : M S A := λ s, (Throw e, s).
Definition undefined {S A} : M S A := λ s, (Undefined, s).
Definition diverge {S A} : M S A := λ s, (Diverges, s).

(** [try { m } catch (...) { h }], the handler being given the exception so
    that it can rethrow it. *)
Definition try_catch {S A} (m : M S A) (h : exn → M S A) : M S A := λ s,
  match m s with
  | (Throw e, s') => h e s'
  | r => r
  end.

Definition gets {S A} (f : S → A) : M S A := λ s, (Ok (f s), s).
Definition modify {S} (f : S → S) : M S unit := λ s, (Ok tt, f s).
Definition when {S} (b : bool) (m : M S unit) : M S unit :=
  if b then m else ret tt.

(** The answer of a library call, which may be an exception. *)
Definition or_throw {S A} (r : A + exn) : M S A := match r with inl a => ret a | inr e => throw e end.
Definition done_or_throw {S} (r : option exn) : M S unit := match r with None => ret tt | Some e => throw e end.

(** Running a computation of a member object inside its owner. *)
Definition zoom {S T A} (get : S → T) (set : T → S → S) (m : M T A) : M S A :=
  λ s, let '(r, t) := m (get s) in (r, set t s).

(** [m[key]] of an [unordered_map]: the entry is created when it is missing, and
    a computation changes it in place. *)
Definition at_entry {S X A} (get : S → gmap string X) (set : gmap string X → S → S)
    (fresh : X) (key : string) (m : M X A) : M S A := λ s,
  let '(r, x) := m (default fresh (get s !! key)) in (r, set (<[key := x]> (get s)) s).

(** A callback of the owner, with a state [B] of its own: it returns or throws.
    An empty [std::function] is [None]. *)
Definition call_back {B} (callback : option (B → option exn * B)) : M B unit := λ b,
  match callback with
  | None => (Ok tt, b)
  | Some f => match f b with (None, b') => (Ok tt, b') | (Some e, b') => (Throw e, b') end
  end.

(** Running a computation on a local variable that dies with it. *)
Definition run_local {S T A} (t : T) (m : M T A) : M S A := λ s, (fst (m t), s).

(** A block with local variables [f]: they live beside the state for the
    extent of the block, so that a handler sees them as they were at the throw. *)
Definition scoped {S F A} (f : F) (m : M (S * F) A) : M S A := λ s,
  let '(r, (s', _)) := m (s, f) in (r, s').

(** A computation of the state that does not touch the local variables. *)
Definition outer {S F A} (m : M S A) : M (S * F) A := zoom fst (λ s x, (s, snd x)) m.

(** A [while] loop: the body answers whether to go round again. *)
Fixpoint loop {S} (fuel : nat) (body : M S bool) : M S unit :=
  match fuel with
  | O => diverge
  | S n => bind body (λ again, if again then loop n body else ret tt)
  end.

Fixpoint for_each {S A} (l : list A) (f : A → M S unit) : M S unit :=
  match l with
  | [] => ret tt
  | x :: r => bind (f x) (λ _, for_each r f)
  end.

Declare Scope cmarket_scope.
Delimit Scope cmarket_scope with cmarket.

Notation "'let*' x ':=' m 'in' k" := (bind m (λ x, k))
  (at level 10, x binder, m at level 100, k at level 200,
   format "'let*'  x  ':='  m  'in' '//' k") : cmarket_scope.
Notation "m ';;;' k" := (bind m (λ _, k))
  (at level 199, right associativity, format "m  ';;;' '//' k") : cmarket_scope.

Open Scope cmarket_scope.

(** ** Machine integers *)

Definition INT64_MAX : Z := 9223372036854775807.
Definition INT64_MIN : Z := -9223372036854775808.
Definition UINT64_MAX : Z := 18446744073709551615.

Definition int64 (x : Z) : Prop := INT64_MIN ≤ x ≤ INT64_MAX.
Definition int64b (x : Z) : bool := (INT64_MIN <=? x) && (x <=? INT64_MAX).

(** Signed 64-bit arithmetic: overflow is undefined. *)
Definition checked64 {S} (x : Z) : M S Z := if int64b x then ret x else undefined.
Definition add64 {S} (x y : Z) : M S Z := checked64 (x + y).
Definition sub64 {S} (x y : Z) : M S Z := checked64 (x - y).
Definition neg64 {S} (x : Z) : M S Z := checked64 (- x).

(** Unsigned 64-bit arithmetic wraps around. *)
Definition uwrap64 (x : Z) : Z := x mod 18446744073709551616.

(** Reading [v[i]]: an index outside the vector is undefined. *)
Definition at_index {S A} (l : list A) (i : nat) : M S A :=
  match l !! i with Some x => ret x | None => undefined end.

(** ** Weakest preconditions

    [wp m Q E s]: run from [s], [m] either returns [a] in a state satisfying
    [Q a], or throws [e] in a state satisfying [E e]; it is never undefined and
    it never runs out of fuel. *)

Definition wp {S A} (m : M S A) (Q : A → S → Prop) (E : exn → S → Prop) (s : S)
    : Prop :=
  match m s with
  | (Ok a, s') => Q a s'
  | (Throw e, s') => E e s'
  | _ => False
  end.

(** No exception is allowed to leave the computation. *)
Definition nothrow {S} : exn → S → Prop := λ _ _, False.

Section wp.
Context {S : Type}.
Implicit Types s : S.

Lemma wp_ret {A} (a : A) Q E s : Q a s → wp (ret a) Q E s.
Proof. done. Qed.

Lemma wp_bind {A B} (m : M S A) (f : A → M S B) Q E s :
  wp m (λ a s', wp (f a) Q E s') E s → wp (bind m f) Q E s.
Proof. unfold wp, bind. by destruct (m s) as [[] ?]. Qed.

Lemma wp_bind_inv {A B} (m : M S A) (f : A → M S B) Q E s :
  wp (bind m f) Q E s → wp m (λ a s', wp (f a) Q E s') E s.
Proof. unfold wp, bind. by destruct (m s) as [[] ?]. Qed.

Lemma wp_throw {A} e (Q : A → S → Prop) E s : E e s → wp (throw e) Q E s.
Proof. done. Qed.

Lemma wp_gets {A} (f : S → A) Q E s : Q (f s) s → wp (gets f) Q E s.
Proof. done. Qed.

Lemma wp_modify (f : S → S) Q E s : Q tt (f s) → wp (modify f) Q E s.
Proof. done. Qed.

Lemma wp_try_catch {A} (m : M S A) h Q E s :
  wp m Q (λ e s', wp (h e) Q E s') s → wp (try_catch m h) Q E s.
Proof. unfold wp, try_catch. by destruct (m s) as [[] ?]. Qed.

Lemma wp_mono {A} (m : M S A) (Q Q' : A → S → Prop) (E E' : exn → S → Prop) s :
  wp m Q E s → (∀ a s', Q a s' → Q' a s') → (∀ e s', E e s' → E' e s') →
  wp m Q' E' s.
Proof. unfold wp. destruct (m s) as [[] ?]; auto. Qed.

Lemma wp_zoom {T A} (get : S → T) (set : T → S → S) (m : M T A) Q E s :
  wp m (λ a t, Q a (set t s)) (λ e t, E e (set t s)) (get s) →
  wp (zoom get set m) Q E s.
Proof. unfold wp, zoom. by destruct (m (get s)) as [[] ?]. Qed.

Lemma wp_at_entry {X A} (get : S → gmap string X) set fresh key (m : M X A) Q E s :
  wp m (λ a x, Q a (set (<[key := x]> (get s)) s)) (λ e x, E e (set (<[key := x]> (get s)) s))
    (default fresh (get s !! key)) →
  wp (at_entry get set fresh key m) Q E s.
Proof. unfold wp, at_entry. by destruct (m _) as [[] ?]. Qed.

Lemma wp_call_back (callback : option (S → option exn * S)) (Q : unit → S → Prop) E s :
  (∀ s', Q tt s') → (∀ e s', E e s') → wp (call_back callback) Q E s.
Proof. unfold wp, call_back. intros HQ HE. destruct callback as [f|]; [|done]. by destruct (f s) as [[]]. Qed.

Lemma wp_run_local {T A} (t : T) (m : M T A) Q E s :
  wp m (λ a _, Q a s) (λ e _, E e s) t → wp (run_local t m) Q E s.
Proof. unfold wp, run_local. by destruct (m t) as [[] ?]. Qed.

Lemma wp_scoped {F A} (f : F) (m : M (S * F) A) Q E s :
  wp m (λ a x, Q a (fst x)) (λ e x, E e (fst x)) (s, f) → wp (scoped f m) Q E s.
Proof. unfold wp, scoped. by destruct (m (s, f)) as [[] []]. Qed.

Lemma wp_outer {F A} (m : M S A) Q E s (f : F) :
  wp m (λ a s', Q a (s', f)) (λ e s', E e (s', f)) s → wp (outer m) Q E (s, f).
Proof. unfold wp, outer, zoom; simpl. by destruct (m s) as [[] ?]. Qed.

Lemma wp_checked64 x (Q : Z → S → Prop) E s :
  int64 x → Q x s → wp (checked64 x) Q E s.
Proof.
  unfold int64, checked64, int64b, wp, INT64_MIN, INT64_MAX. intros ??.
  destruct (_ <=? x) eqn:?, (x <=? _) eqn:?; simpl; [done|lia..].
Qed.

Lemma wp_at_index {A} (l : list A) i x (Q : A → S → Prop) E s :
  l !! i = Some x → Q x s → wp (at_index l i) Q E s.
Proof. unfold wp, at_index. by intros ->. Qed.

Lemma wp_when b (m : M S unit) Q E s :
  (b = true → wp m Q E s) → (b = false → Q tt s) → wp (when b m) Q E s.
Proof. destruct b; simpl; auto using wp_ret. Qed.

(** Reading a run off a weakest precondition, and back. *)
Lemma wp_run {A} (m : M S A) Q s :
  wp m Q nothrow s → ∃ a s', m s = (Ok a, s') ∧ Q a s'.
Proof. unfold wp. destruct (m s) as [[] ?]; [eauto|done..]. Qed.

Lemma run_wp {A} (m : M S A) (Q : A → S → Prop) E s a s' :
  m s = (Ok a, s') → Q a s' → wp m Q E s.
Proof. unfold wp. by intros ->. Qed.

Lemma wp_exact {A} (m : M S A) s a s' :
  wp m (λ x y, x = a ∧ y = s') nothrow s → m s = (Ok a, s').
Proof. intros (? & ? & -> & -> & ->)%wp_run. done. Qed.

(** A weakest precondition is about the run. *)
Lemma wp_eq {A} (m : M S A) Q E s :
  wp m Q E s → wp m (λ a s', m s = (Ok a, s') ∧ Q a s') (λ ex s', m s = (Throw ex, s') ∧ E ex s') s.
Proof. unfold wp. by destruct (m s) as [[] ?]. Qed.

(** Reading both outcomes of a run. *)
Lemma wp_outcome {A} (m : M S A) Q E s :
  wp m Q E s → ∃ r s', m s = (r, s') ∧
    match r with Ok a => Q a s' | Throw ex => E ex s' | _ => False end.
Proof. unfold wp. destruct (m s) as [r s']. intros H. exists r, s'. split; [done|]. by destruct r. Qed.

(** A loop whose body keeps an invariant and decreases a measure stops
    within as many rounds as the measure allows. *)
Lemma wp_loop (I : S → Prop) (μ : S → nat) body Q E n s :
  (∀ s, I s → wp body (λ again s',
     if again : bool then I s' ∧ (μ s' < μ s)%nat else Q tt s') E s) →
  I s → (μ s < n)%nat → wp (loop n body) Q E s.
Proof.
  intros Hbody. revert s.
  induction n as [|n IH]; intros s HI Hμ; [lia|].
  apply wp_bind. eapply wp_mono; [by apply Hbody| |done].
  intros [] s'; [|done]. intros [? ?]. apply IH; [done|lia].
Qed.
End wp.

Lemma for_each_app {S A} (f : A → M S unit) l1 l2 s :
  for_each (l1 ++ l2) f s = bind (for_each l1 f) (λ _, for_each l2 f) s.
Proof.
  revert s. induction l1 as [|x l1 IH]; intros s; [done|]. simpl. unfold bind in *.
  by destruct (f x s) as [[] ?].
Qed.

(** The state a call leaves, whether it returns or throws; [None] if it does
    neither.  A client that handles the exceptions goes on from there. *)
Definition settle {S A} (m : M S A) (s : S) : option S :=
  match m s with (Ok _, s') | (Throw _, s') => Some s' | _ => None end.

Fixpoint settle_all {S A} (ms : list (M S A)) (s : S) : option S :=
  match ms with
  | [] => Some s
  | m :: rest => match settle m s with Some s' => settle_all rest s' | None => None end
  end.

Arguments wp : simpl never.
Arguments loop : simpl never.

(** Symbolic execution of the straight-line part of a computation. *)
Ltac wp_step :=
  lazymatch goal with
  | |- wp (bind _ _) _ _ _ => apply wp_bind
  | |- wp (ret _) _ _ _ => apply wp_ret
  | |- wp (throw _) _ _ _ => apply wp_throw
  | |- wp (gets _) _ _ _ => apply wp_gets
  | |- wp (modify _) _ _ _ => apply wp_modify
  | |- wp (zoom _ _ _) _ _ _ => apply wp_zoom
  | |- wp (run_local _ _) _ _ _ => apply wp_run_local
  | |- wp (scoped _ _) _ _ _ => apply wp_scoped
  | |- wp (outer _) _ _ (_, _) => apply wp_outer
  | |- wp (try_catch _ _) _ _ _ => apply wp_try_catch
  | |- wp (checked64 _) _ _ _ => apply wp_checked64
  | |- wp (add64 _ _) _ _ _ => unfold add64; apply wp_checked64
  | |- wp (sub64 _ _) _ _ _ => unfold sub64; apply wp_checked64
  | |- wp (neg64 _) _ _ _ => unfold neg64; apply wp_checked64
  | |- wp (if ?b then _ else _) _ _ _ =>
      lazymatch type of b with bool => destruct b eqn:? end
  end.
Ltac wp_steps := repeat (wp_step; cbn beta iota).

(** ** Booleans on [Z] *)

Ltac zb :=
  repeat match goal with
  | H : (_ <=? _) = true |- _ => apply Z.leb_le in H
  | H : (_ <=? _) = false |- _ => apply Z.leb_gt in H
  | H : (_ <? _) = true |- _ => apply Z.ltb_lt in H
  | H : (_ <? _) = false |- _ => apply Z.ltb_ge in H
  | H : (_ >? _) = true |- _ => rewrite Z.gtb_ltb in H; apply Z.ltb_lt in H
  | H : (_ >? _) = false |- _ => rewrite Z.gtb_ltb in H; apply Z.ltb_ge in H
  | H : (_ >=? _) = true |- _ => rewrite Z.geb_leb in H; apply Z.leb_le in H
  | H : (_ >=? _) = false |- _ => rewrite Z.geb_leb in H; apply Z.leb_gt in H
  | H : (_ =? _) = true |- _ => apply Z.eqb_eq in H
  | H : (_ =? _) = false |- _ => apply Z.eqb_neq in H
  | H : negb _ = true |- _ => apply negb_true_iff in H
  | H : negb _ = false |- _ => apply negb_false_iff in H
  | H : andb _ _ = true |- _ => apply andb_true_iff in H as [? ?]
  | H : orb _ _ = false |- _ => apply orb_false_iff in H as [? ?]
  end.

(** [lia] after unfolding the machine constants. *)
Ltac mlia := unfold int64, INT64_MIN, INT64_MAX, UINT64_MAX in *; lia.

Lemma div_le_self a b : 0 ≤ a → 0 < b → 0 ≤ a / b ≤ a.
Proof. intros. split; [by apply Z.div_pos|]. apply Z.div_le_upper_bound; nia. Qed.

(** ** Strict total orders given by a boolean comparator

    What a comparator promises to the ordered container that uses it. *)

Class StrictTotal {K : Type} (lt : K → K → bool) : Prop := {
  st_irrefl x : lt x x = false;
  st_trans x y z : lt x y = true → lt y z = true → lt x z = true;
  st_total x y : lt x y = false → lt y x = false → x = y
}.

#[export] Instance ltb_strict_total : StrictTotal Z.ltb.
Proof. split; intros; rewrite ?Z.ltb_irrefl in *; zb; try apply Z.ltb_lt; lia. Qed.

#[export] Instance gtb_strict_total : StrictTotal Z.gtb.
Proof. split; intros; rewrite ?Z.gtb_ltb in *; zb; lia. Qed.

Lemma st_asym {K} (lt : K → K → bool) `{!StrictTotal lt} x y :
  lt x y = true → lt y x = false.
Proof.
  intros Hxy. destruct (lt y x) eqn:Hyx; [|done].
  by rewrite <- (st_irrefl (lt:=lt) x), (st_trans (lt:=lt) x y x).
Qed.

Lemma st_neq {K} (lt : K → K → bool) `{!StrictTotal lt} x y : lt x y = true → x ≠ y.
Proof. intros H ->. by rewrite st_irrefl in H. Qed.

(** ** Lists *)

Lemma insert_middle {A} (l1 l2 : list A) x y : <[length l1 := y]> (l1 ++ x :: l2) = l1 ++ y :: l2.
Proof. by rewrite insert_app_r_alt, Nat.sub_diag by lia. Qed.

(** Overwriting a position changes one element of the multiset. *)
Lemma insert_perm {A} (l : list A) i x y :
  l !! i = Some x → ∃ r, l ≡ₚ x :: r ∧ <[i := y]> l ≡ₚ y :: r.
Proof.
  intros (l1 & l2 & -> & ->)%list_elem_of_split_length. exists (l1 ++ l2).
  by rewrite insert_middle, <- !Permutation_middle.
Qed.
