(* ===== verification/Orders.v ===== *)
(** * Orders, trades and their validation

    The value types of [include/execution.hpp] and [include/limit_order.hpp],
    the argument checks of [include/validation.hpp] and the id source of
    [include/order_id_generator.hpp]. *)
From S2P Require Import Prelude.

Local Open Scope Z_scope.

(** ** execution.hpp *)

Inductive OrderSide : Type := Buy | Sell.

#[export] Instance OrderSide_eq_dec : EqDecision OrderSide.
Proof. solve_decision. Defined.

(** [side == OrderSide::Buy] and [side == OrderSide::Sell]. *)
Definition is_buy (s : OrderSide) : bool := match s with Buy => true | Sell => false end.
Definition is_sell (s : OrderSide) : bool := match s with Buy => false | Sell => true end.

Record Trade : Type := mkTrade {
  aggressor_side : OrderSide;
  trade_price_ticks : Z;
  trade_quantity : Z;
  trade_id : Z;
  buy_order_id : option Z;
  sell_order_id : option Z;
  execution_sequence : Z
}.

#[export] Instance Trade_eq_dec : EqDecision Trade.
Proof. solve_decision. Defined.

Record ExecutionResult : Type := mkExecutionResult {
  result_side : OrderSide;
  requested_quantity : Z;
  executed_quantity : Z;
  result_remaining_quantity : Z;
  average_price_ticks : option Z;
  result_trades : list Trade
}.

Definition fully_filled (r : ExecutionResult) : bool :=
  result_remaining_quantity r =? 0.

Definition partially_filled (r : ExecutionResult) : bool :=
  (executed_quantity r >? 0) && (result_remaining_quantity r >? 0).

Definition unfilled (r : ExecutionResult) : bool :=
  executed_quantity r =? 0.

(** ** limit_order.hpp *)

Record LimitOrder : Type := mkLimitOrder {
  order_id : Z;
  side : OrderSide;
  price_ticks : Z;
  original_quantity : Z;
  remaining_quantity : Z;
  sequence_number : Z
}.

#[export] Instance LimitOrder_eq_dec : EqDecision LimitOrder.
Proof. solve_decision. Defined.

(** The subtraction is unguarded in the source; it stays inside [int64_t] for
    every order that [OrderManager] accepts. *)
Definition filled_quantity {S} (o : LimitOrder) : M S Z :=
  sub64 (original_quantity o) (remaining_quantity o).

Definition is_filled (o : LimitOrder) : bool := remaining_quantity o =? 0.

Definition is_partially_filled (o : LimitOrder) : bool :=
  (remaining_quantity o >? 0) && (remaining_quantity o <? original_quantity o).

(** Assignments to one field of an order. *)
Definition set_remaining (q : Z) (o : LimitOrder) : LimitOrder :=
  mkLimitOrder (order_id o) (side o) (price_ticks o) (original_quantity o) q
    (sequence_number o).

Definition set_sequence (n : Z) (o : LimitOrder) : LimitOrder :=
  mkLimitOrder (order_id o) (side o) (price_ticks o) (original_quantity o)
    (remaining_quantity o) n.

(** The assignments of a modification: both quantities, and the price. *)
Definition set_quantities (q : Z) (o : LimitOrder) : LimitOrder :=
  mkLimitOrder (order_id o) (side o) (price_ticks o) q q (sequence_number o).

Definition set_price (p : Z) (o : LimitOrder) : LimitOrder :=
  mkLimitOrder (order_id o) (side o) p (original_quantity o)
    (remaining_quantity o) (sequence_number o).

(** ** validation.hpp *)

Definition require_positive {S} (value : Z) (field_name : string) : M S unit :=
  if value <=? 0
  then throw (invalid_argument (field_name +:+ " must be positive."))
  else ret tt.

Definition validate_market_order {S} (quantity : Z) : M S unit :=
  require_positive quantity "Market order quantity".

Definition validate_limit_order {S} (price quantity : Z) : M S unit :=
  require_positive price "Limit price" ;;;
  require_positive quantity "Limit quantity".

Definition validate_modify_order {S} (price quantity : Z) : M S unit :=
  require_positive price "Modified limit price" ;;;
  require_positive quantity "Modified limit quantity".

Definition validate_trade {S} (price quantity : Z) : M S unit :=
  require_positive price "Trade price" ;;;
  require_positive quantity "Trade quantity".

Section validation.
Context {S : Type}.
Implicit Types (s : S) (Q : unit → S → Prop).

Lemma wp_require_positive v f Q E s :
  (0 < v → Q tt s) →
  (v ≤ 0 → E (invalid_argument (f +:+ " must be positive.")) s) →
  wp (require_positive v f) Q E s.
Proof. intros. unfold require_positive. wp_steps; zb; auto with lia. Qed.

Lemma wp_require_positive_ok v f Q E s :
  0 < v → Q tt s → wp (require_positive v f) Q E s.
Proof. intros. apply wp_require_positive; auto with lia. Qed.

(** Both checks of a pair pass exactly on two positive numbers; otherwise
    the state is untouched. *)
Lemma wp_validate_trade p q Q E s :
  (0 < p → 0 < q → Q tt s) →
  (p ≤ 0 ∨ q ≤ 0 → ∀ w, E (invalid_argument w) s) →
  wp (validate_trade p q) Q E s.
Proof.
  intros. unfold validate_trade. wp_steps.
  repeat (apply wp_require_positive; intros); auto.
Qed.
End validation.

(** ** order_id_generator.hpp *)

Record OrderIdGenerator : Type := mkOrderIdGenerator { next_order_id_ : Z }.

(** The constructor; the engine uses its default argument, 1. *)
Definition make_generator (first_order_id : Z) : outcome OrderIdGenerator :=
  if first_order_id =? 0
  then Throw (invalid_argument "First order ID must be greater than zero.")
  else Ok (mkOrderIdGenerator first_order_id).

Definition next : M OrderIdGenerator Z :=
  let* n := gets next_order_id_ in
  if n =? UINT64_MAX
  then throw (overflow_error "Order ID generator exhausted.")
  else
    modify (λ _, mkOrderIdGenerator (uwrap64 (n + 1))) ;;;
    ret n.

Definition peek (g : OrderIdGenerator) : Z := next_order_id_ g.

Lemma uwrap64_small x : 0 ≤ x ≤ UINT64_MAX → uwrap64 x = x.
Proof. intros. unfold uwrap64. apply Z.mod_small. mlia. Qed.

Lemma wp_next (g : OrderIdGenerator) Q E :
  0 ≤ next_order_id_ g ≤ UINT64_MAX →
  (next_order_id_ g < UINT64_MAX →
     Q (next_order_id_ g) (mkOrderIdGenerator (next_order_id_ g + 1))) →
  (next_order_id_ g = UINT64_MAX →
     E (overflow_error "Order ID generator exhausted.") g) →
  wp next Q E g.
Proof.
  intros Hr HQ HE. unfold next. wp_steps; zb; [auto|].
  rewrite uwrap64_small by mlia. apply HQ. lia.
Qed.
