(* ===== verification/TradeStore.v ===== *)
(** * TradeStore

    The trade history of [include/trade_store.hpp]: an append-only vector with
    two counters, and the checkpoints the engine rolls it back to. *)
From S2P Require Import Prelude Orders.

Local Open Scope Z_scope.

Record TradeStore : Type := mkTradeStore {
  next_trade_id_ : Z;
  next_execution_sequence_ : Z;
  trades_ : list Trade
}.

Definition empty_trade_store : TradeStore := mkTradeStore 1 1 [].

Record Checkpoint : Type := mkCheckpoint {
  trade_count : nat;
  next_trade_id : Z;
  next_execution_sequence : Z
}.

(** [push_back] of the recorded trade, whose id and sequence number come from
    the post-incremented counters. *)
Definition record_trade (aggressor : OrderSide) (price quantity : Z)
    (buy_id sell_id : option Z) : M TradeStore Trade :=
  validate_trade price quantity ;;;
  let* ts := gets id in
  let trade := mkTrade aggressor price quantity (next_trade_id_ ts) buy_id sell_id
                 (next_execution_sequence_ ts) in
  modify (λ ts, mkTradeStore (uwrap64 (next_trade_id_ ts + 1))
                  (uwrap64 (next_execution_sequence_ ts + 1))
                  (trades_ ts ++ [trade])) ;;;
  ret trade.

Definition checkpoint (ts : TradeStore) : Checkpoint :=
  mkCheckpoint (length (trades_ ts)) (next_trade_id_ ts)
    (next_execution_sequence_ ts).

(** [resize] to a count that is at most the size drops the tail. *)
Definition rollback (c : Checkpoint) : M TradeStore unit :=
  let* ts := gets id in
  if (length (trades_ ts) <? trade_count c)%nat
  then throw (invalid_argument
                "TradeStore checkpoint is newer than the current trade state.")
  else modify (λ ts, mkTradeStore (next_trade_id c) (next_execution_sequence c)
                       (take (trade_count c) (trades_ ts))).

Definition clear (ts : TradeStore) : TradeStore :=
  mkTradeStore (next_trade_id_ ts) (next_execution_sequence_ ts) [].

(** The trade that [record_trade] appends, and the store it leaves. *)
Definition stamped (ts : TradeStore) (a : OrderSide) (p q : Z) (b s : option Z)
    : Trade :=
  mkTrade a p q (next_trade_id_ ts) b s (next_execution_sequence_ ts).

Definition recorded (ts : TradeStore) (t : Trade) : TradeStore :=
  mkTradeStore (uwrap64 (next_trade_id_ ts + 1))
    (uwrap64 (next_execution_sequence_ ts + 1)) (trades_ ts ++ [t]).

Lemma wp_record_trade a p q b s Q E ts :
  (0 < p → 0 < q →
     Q (stamped ts a p q b s) (recorded ts (stamped ts a p q b s))) →
  (p ≤ 0 ∨ q ≤ 0 → ∀ w, E (invalid_argument w) ts) →
  wp (record_trade a p q b s) Q E ts.
Proof.
  intros HQ HE. unfold record_trade. wp_step.
  apply wp_validate_trade; [|done]. intros. wp_steps. by apply HQ.
Qed.

(** [extends c ts]: the store has grown since the checkpoint was taken. *)
Definition extends (ts0 ts : TradeStore) : Prop :=
  trades_ ts0 `prefix_of` trades_ ts.

#[export] Instance extends_preorder : PreOrder extends.
Proof. unfold extends. split; [by intros ?|intros ?????; by etrans]. Qed.

Lemma extends_recorded ts t : extends ts (recorded ts t).
Proof. by exists [t]. Qed.

(** Rolling back to a checkpoint of an earlier state gives that state back,
    whatever was recorded since. *)
Lemma wp_rollback ts0 ts Q E :
  extends ts0 ts → Q tt ts0 → wp (rollback (checkpoint ts0)) Q E ts.
Proof.
  intros [l Hl] HQ. unfold rollback, checkpoint. wp_steps; simpl in *.
  - apply Nat.ltb_lt in Heqb. rewrite Hl, length_app in Heqb. lia.
  - rewrite Hl, take_app_length. by destruct ts0.
Qed.

(** The quantity of a list of trades. *)
Definition traded_total (l : list Trade) : Z := foldr (λ t acc, trade_quantity t + acc) 0 l.
