(* ===== verification/LongDouble.v ===== *)
(** * Binary floating point

    The sources accumulate prices in [long double] and convert the outcome back
    to [std::int64_t] or to [double].  The width of [long double] is a choice of
    the platform ([LDBL_MANT_DIG]: 64 on x86-64, 113 on AArch64 Linux, 53 where
    [long double] is [double]), so it is a class here, and the theorems hold for
    every instance.  Arithmetic rounds to nearest, ties to even.  Only finite
    numbers are modelled: no operation of the sources leaves the exponent range
    of the format, and none of them divides by zero. *)
From S2P Require Import Prelude.

Local Open Scope Z_scope.

Class LongDoubleFormat : Type := {
  LDBL_MANT_DIG : Z;
  LDBL_MANT_DIG_min : 53 ≤ LDBL_MANT_DIG
}.

(** The x87 extended format. *)
Definition x87_extended : LongDoubleFormat :=
  {| LDBL_MANT_DIG := 64; LDBL_MANT_DIG_min := ltac:(lia) |}.

Definition DBL_MANT_DIG : Z := 53.

(** The number [mant * 2 ^ expo]. *)
Record binary : Type := mkBinary { mant : Z; expo : Z }.

Definition binary_zero : binary := mkBinary 0 0.

(** ** Rounding a ratio *)

(** The integer nearest to [n / d], the even one of two. *)
Definition round_half_even (n d : Z) : Z :=
  let q := n / d in
  let r := n mod d in
  if 2 * r <? d then q
  else if d <? 2 * r then q + 1
  else if Z.even q then q else q + 1.

(** [d * 2 ^ k <= n]. *)
Definition scaled_le (d k n : Z) : bool :=
  if 0 <=? k then d * 2 ^ k <=? n else d <=? n * 2 ^ (- k).

(** The [k] with [2 ^ k <= |n| / d < 2 ^ (k + 1)]. *)
Definition ratio_log2 (n d : Z) : Z :=
  let k := Z.log2 (Z.abs n) - Z.log2 d in
  if scaled_le d k (Z.abs n) then k else k - 1.

(** [n / d] rounded to [prec] significant bits. *)
Definition round_ratio (prec n d : Z) : binary :=
  if n =? 0 then binary_zero
  else
    let e := ratio_log2 n d - prec + 1 in
    mkBinary
      (if 0 <=? e then round_half_even n (d * 2 ^ e)
       else round_half_even (n * 2 ^ (- e)) d) e.

(** [n * 2 ^ e] rounded to [prec] bits. *)
Definition round_scaled (prec n e : Z) : binary :=
  if 0 <=? e then round_ratio prec (n * 2 ^ e) 1 else round_ratio prec n (2 ^ (- e)).

(** ** Comparisons and truncation do not depend on the format *)

Definition binary_compare (x y : binary) : comparison :=
  let e := Z.min (expo x) (expo y) in
  Z.compare (mant x * 2 ^ (expo x - e)) (mant y * 2 ^ (expo y - e)).

Definition binary_eqb (x y : binary) : bool :=
  match binary_compare x y with Eq => true | _ => false end.

Definition binary_gtb (x y : binary) : bool :=
  match binary_compare x y with Gt => true | _ => false end.

Definition binary_leb (x y : binary) : bool :=
  match binary_compare x y with Gt => false | _ => true end.

(** Conversion to an integer discards the fraction. *)
Definition binary_trunc (x : binary) : Z :=
  if 0 <=? expo x then mant x * 2 ^ expo x else Z.quot (mant x) (2 ^ (- expo x)).

(** [static_cast<std::int64_t>]: undefined outside the range. *)
Definition to_int64 {S} (x : binary) : M S Z := checked64 (binary_trunc x).

(** ** The arithmetic of [long double] *)

Section long_double.
Context `{LongDoubleFormat}.

Definition of_int64 (z : Z) : binary := round_ratio LDBL_MANT_DIG z 1.

Definition ld_neg (x : binary) : binary := mkBinary (- mant x) (expo x).

Definition ld_add (x y : binary) : binary :=
  let e := Z.min (expo x) (expo y) in
  round_scaled LDBL_MANT_DIG
    (mant x * 2 ^ (expo x - e) + mant y * 2 ^ (expo y - e)) e.

Definition ld_sub (x y : binary) : binary := ld_add x (ld_neg y).

Definition ld_mul (x y : binary) : binary :=
  round_scaled LDBL_MANT_DIG (mant x * mant y) (expo x + expo y).

Definition ld_div (x y : binary) : binary :=
  let d := expo x - expo y in
  round_ratio LDBL_MANT_DIG
    (Z.sgn (mant y) * mant x * (if 0 <=? d then 2 ^ d else 1))
    (Z.abs (mant y) * (if 0 <=? d then 1 else 2 ^ (- d))).
End long_double.

(** [static_cast<double>] of a [long double]. *)
Definition to_double (x : binary) : binary := round_scaled DBL_MANT_DIG (mant x) (expo x).

(** ** Integers are exact

    [denotes x n]: the number [x] is the integer [n]. *)

Definition denotes (x : binary) (n : Z) : Prop :=
  if 0 <=? expo x then mant x * 2 ^ expo x = n else mant x = n * 2 ^ (- expo x).

Lemma pow2_pos k : 0 ≤ k → 0 < 2 ^ k.
Proof. intros. apply Z.pow_pos_nonneg; lia. Qed.

Lemma denotes_trunc x n : denotes x n → binary_trunc x = n.
Proof.
  unfold denotes, binary_trunc. destruct (0 <=? expo x) eqn:He; [done|].
  intros ->. zb. apply Z.quot_mul. pose proof (pow2_pos (- expo x)). lia.
Qed.

Lemma round_half_even_exact q d : 0 < d → round_half_even (q * d) d = q.
Proof.
  intros. unfold round_half_even.
  rewrite Z.div_mul, Z.mod_mul by lia.
  by destruct (2 * 0 <? d) eqn:?; zb; [|lia].
Qed.

Lemma round_half_even_lower n d q : 0 < d → q * d ≤ n → q ≤ round_half_even n d.
Proof.
  intros. assert (q ≤ n / d) by (apply Z.div_le_lower_bound; lia).
  unfold round_half_even. repeat case_match; lia.
Qed.

(** A value that is more than half a unit below an integer is rounded below
    it. *)
Lemma round_half_even_upper n d q :
  0 < d → 2 * n + d < 2 * (q * d) → round_half_even n d < q.
Proof.
  intros Hd Hn. unfold round_half_even.
  pose proof (Z.div_mod n d ltac:(lia)) as Hdm.
  pose proof (Z.mod_pos_bound n d Hd) as Hr.
  assert (n / d < q) by nia.
  destruct (2 * (n mod d) <? d) eqn:?; zb; [lia|].
  assert (n / d + 1 < q) by nia. repeat case_match; lia.
Qed.

Lemma scaled_le_spec d k n :
  0 < d → 0 ≤ n →
  scaled_le d k n = true ↔ (if 0 <=? k then d * 2 ^ k ≤ n else d ≤ n * 2 ^ (- k)).
Proof. intros. unfold scaled_le. destruct (0 <=? k); apply Z.leb_le. Qed.

(** The exponent bracket: scaled by [2 ^ s] with [s] large enough to make
    everything integral. *)
Lemma ratio_log2_spec n d s :
  n ≠ 0 → 0 < d → 0 ≤ s → 0 ≤ ratio_log2 n d + s → 0 ≤ Z.log2 (Z.abs n) - Z.log2 d + s →
  d * 2 ^ (ratio_log2 n d + s) ≤ Z.abs n * 2 ^ s < d * 2 ^ (ratio_log2 n d + s + 1).
Proof.
  intros Hn Hd Hs H1 H2. unfold ratio_log2 in *.
  pose proof (Z.log2_spec (Z.abs n) ltac:(lia)) as [Hn1 Hn2].
  pose proof (Z.log2_spec d Hd) as [Hd1 Hd2].
  pose proof (Z.log2_nonneg (Z.abs n)). pose proof (Z.log2_nonneg d).
  set (a := Z.log2 (Z.abs n)) in *. set (b := Z.log2 d) in *.
  assert (Hkey : scaled_le d (a - b) (Z.abs n) = true ↔ d * 2 ^ (a - b + s) ≤ Z.abs n * 2 ^ s).
  { rewrite scaled_le_spec by lia. destruct (0 <=? a - b) eqn:Hk; zb.
    - rewrite Z.pow_add_r by lia. pose proof (pow2_pos s Hs). nia.
    - replace s with (- (a - b) + (a - b + s)) at 2 by lia.
      rewrite (Z.pow_add_r 2 (- (a - b))) by lia.
      pose proof (pow2_pos (a - b + s) H2). nia. }
  pose proof (pow2_pos s Hs).
  destruct (scaled_le d (a - b) (Z.abs n)).
  - split; [by apply Hkey|].
    rewrite Z.pow_succ_r in Hn2 by lia.
    replace (a - b + s + 1) with (Z.succ (a - b + s)) by lia.
    rewrite Z.pow_succ_r by lia.
    assert (2 ^ a * 2 ^ s = 2 ^ b * 2 ^ (a - b + s)) by (rewrite <- !Z.pow_add_r by lia; f_equal; lia).
    pose proof (pow2_pos (a - b + s) H2). nia.
  - assert (Hlt : Z.abs n * 2 ^ s < d * 2 ^ (a - b + s)) by (apply Z.nle_gt; intros ?%Hkey; done).
    replace (a - b - 1 + s + 1) with (a - b + s) by lia. split; [|done].
    rewrite Z.pow_succ_r in Hd2 by lia.
    assert (2 ^ a * 2 ^ s = 2 ^ (Z.succ b) * 2 ^ (a - b - 1 + s))
      by (rewrite <- !Z.pow_add_r by lia; f_equal; lia).
    rewrite Z.pow_succ_r in * by lia.
    pose proof (pow2_pos (a - b - 1 + s) H1). nia.
Qed.

(** A bound on the ratio bounds its exponent. *)
Lemma ratio_log2_bound n d s :
  n ≠ 0 → 0 < d → s = Z.log2 d + 1 →
  0 ≤ s ∧ 0 ≤ ratio_log2 n d + s ∧
  d * 2 ^ (ratio_log2 n d + s) ≤ Z.abs n * 2 ^ s < d * 2 ^ (ratio_log2 n d + s + 1).
Proof.
  intros Hn Hd ->. pose proof (Z.log2_nonneg d). pose proof (Z.log2_nonneg (Z.abs n)).
  assert (0 ≤ ratio_log2 n d + (Z.log2 d + 1)) by (unfold ratio_log2; case_match; lia).
  split_and!; [lia|done| |]; apply ratio_log2_spec; lia.
Qed.

Lemma ratio_log2_lt n d m :
  n ≠ 0 → 0 < d → 0 ≤ m → Z.abs n < d * 2 ^ m → ratio_log2 n d < m.
Proof.
  intros Hn Hd Hm Hlt.
  destruct (ratio_log2_bound n d (Z.log2 d + 1)) as (Hs & Hk & Hle & _); [done..|].
  set (s := Z.log2 d + 1) in *. pose proof (pow2_pos s Hs).
  assert (2 ^ (ratio_log2 n d + s) < 2 ^ (m + s)) as ?%Z.pow_lt_mono_r_iff; [|lia..].
  rewrite (Z.pow_add_r 2 m) by lia. nia.
Qed.

(** Integers below [2 ^ prec] are represented exactly. *)
Lemma round_ratio_exact prec n d q :
  0 < prec → 0 < d → n = q * d → Z.abs q < 2 ^ prec →
  denotes (round_ratio prec n d) q.
Proof.
  intros Hp Hd -> Hq. unfold round_ratio, denotes.
  destruct (q * d =? 0) eqn:H0; zb; simpl; [nia|].
  assert (ratio_log2 (q * d) d < prec).
  { apply ratio_log2_lt; [done..|lia|]. rewrite Z.abs_mul, (Z.abs_eq d) by lia. nia. }
  set (e := ratio_log2 (q * d) d - prec + 1) in *.
  destruct (0 <=? e) eqn:He; zb.
  - assert (e = 0) as -> by lia. rewrite !Z.mul_1_r. by apply round_half_even_exact.
  - replace (q * d * 2 ^ (- e)) with (q * 2 ^ (- e) * d) by lia.
    by apply round_half_even_exact.
Qed.

(** Truncating a rounded quotient [n / d] gives the integer quotient when the
    ratio is [a / b] with a numerator that leaves one bit of the significand
    free. *)
Lemma trunc_round_ratio prec n d a b :
  0 < prec → 0 < d → n * b = a * d → 0 ≤ a < 2 ^ (prec - 1) → 0 < b →
  binary_trunc (round_ratio prec n d) = a / b.
Proof.
  intros Hp Hd Hnd Ha Hb. unfold round_ratio.
  destruct (n =? 0) eqn:H0; zb.
  { subst n. assert (a = 0) as -> by nia. by rewrite Z.div_0_l by lia. }
  assert (0 < n) by nia.
  destruct (ratio_log2_bound n d (Z.log2 d + 1)) as (Hs & Hk & Hle & _); [done..|].
  set (s := Z.log2 d + 1) in *. set (k := ratio_log2 n d) in *.
  pose proof (pow2_pos s Hs). rewrite Z.abs_eq in Hle by lia.
  assert (k < prec - 1).
  { apply ratio_log2_lt; [done..|lia|]. rewrite Z.abs_eq by lia. nia. }
  unfold binary_trunc; simpl.
  destruct (0 <=? k - prec + 1) eqn:He; zb; [lia|].
  set (t := - (k - prec + 1)). assert (0 < t) by lia.
  pose proof (pow2_pos t ltac:(lia)) as Ht.
  (* the denominator is below the scale, so the rounding error is below 1/b *)
  assert (Hbt : b < 2 ^ t).
  { assert (Hba : b * 2 ^ (k + s) ≤ a * 2 ^ s) by (apply (Z.mul_le_mono_pos_l _ _ d); nia).
    assert (b * 2 ^ (k + s) < 2 ^ (prec - 1 + s)) as Hbk.
    { rewrite (Z.pow_add_r 2 (prec - 1)) by lia. nia. }
    replace (prec - 1 + s) with (t + (k + s)) in Hbk by lia.
    rewrite (Z.pow_add_r 2 t) in Hbk by lia. pose proof (pow2_pos (k + s) Hk). nia. }
  pose proof (Z.div_mod a b ltac:(lia)) as Hdm.
  pose proof (Z.mod_pos_bound a b Hb) as Hr.
  pose proof (Z.div_pos a b ltac:(lia) Hb).
  set (q := a / b) in *. set (r := a mod b) in *. clearbody q r.
  assert (Hlo : q * 2 ^ t ≤ round_half_even (n * 2 ^ t) d).
  { apply round_half_even_lower; [done|].
    assert (q * d ≤ n) by (apply (Z.mul_le_mono_pos_r _ _ b); nia). nia. }
  assert (Hhi : round_half_even (n * 2 ^ t) d < (q + 1) * 2 ^ t).
  { apply round_half_even_upper; [done|]. apply (Z.mul_lt_mono_pos_r b); [done|].
    assert ((2 * (n * 2 ^ t) + d) * b = d * (2 * a * 2 ^ t + b)) as -> by nia.
    assert (2 * ((q + 1) * 2 ^ t * d) * b = d * (2 * a * 2 ^ t + 2 * (b - r) * 2 ^ t)) as ->
      by (rewrite Hdm; ring).
    apply Z.mul_lt_mono_pos_l; [done|]. nia. }
  rewrite Z.quot_div_nonneg by nia. symmetry.
  apply Z.div_unique_pos with (r := round_half_even (n * 2 ^ t) d - q * 2 ^ t); nia.
Qed.

Lemma round_scaled_exact prec n e q :
  0 < prec → denotes (mkBinary n e) q → Z.abs q < 2 ^ prec →
  denotes (round_scaled prec n e) q.
Proof.
  unfold round_scaled, denotes at 1; simpl. intros Hp Hn Hq.
  destruct (0 <=? e) eqn:He; zb; apply round_ratio_exact; [done|lia|lia|done|done| |lia|done].
  apply pow2_pos. lia.
Qed.

(** A denoted integer, scaled to a common exponent. *)
Lemma denotes_scaled x n e :
  denotes x n → e ≤ expo x → e ≤ 0 → mant x * 2 ^ (expo x - e) = n * 2 ^ (- e).
Proof.
  unfold denotes. intros Hn He He0. destruct (0 <=? expo x) eqn:Hx; zb.
  - subst n. replace (expo x - e) with (expo x + - e) by lia.
    rewrite Z.pow_add_r by lia. ring.
  - rewrite Hn, <- Z.mul_assoc, <- Z.pow_add_r by lia. do 2 f_equal. lia.
Qed.

Lemma denotes_scaled_pos x n e :
  denotes x n → 0 ≤ e ≤ expo x → mant x * 2 ^ (expo x - e) * 2 ^ e = n.
Proof.
  unfold denotes. intros Hn He. destruct (0 <=? expo x) eqn:Hx; zb; [|lia].
  rewrite <- Z.mul_assoc, <- Z.pow_add_r by lia.
  by replace (expo x - e + e) with (expo x) by lia.
Qed.

Section exact.
Context `{LongDoubleFormat}.
Local Abbreviation P := LDBL_MANT_DIG.

Lemma mant_dig_pos : 0 < P.
Proof. pose proof LDBL_MANT_DIG_min. lia. Qed.

Lemma denotes_of_int64 n : Z.abs n < 2 ^ P → denotes (of_int64 n) n.
Proof. intros. apply round_ratio_exact; auto using mant_dig_pos with lia. Qed.

Lemma denotes_add x y n m :
  denotes x n → denotes y m → Z.abs (n + m) < 2 ^ P → denotes (ld_add x y) (n + m).
Proof.
  intros Hx Hy Hb. apply round_scaled_exact; [apply mant_dig_pos| |done].
  set (e := Z.min (expo x) (expo y)). unfold denotes; simpl.
  destruct (0 <=? e) eqn:He; zb.
  - rewrite Z.mul_add_distr_r.
    rewrite (denotes_scaled_pos x n), (denotes_scaled_pos y m); auto; lia.
  - rewrite (denotes_scaled x n), (denotes_scaled y m); auto; lia.
Qed.

Lemma denotes_mul x y n m :
  denotes x n → denotes y m → Z.abs (n * m) < 2 ^ P → denotes (ld_mul x y) (n * m).
Proof.
  intros Hx Hy Hb. apply round_scaled_exact; [apply mant_dig_pos| |done].
  unfold denotes in *; simpl in *.
  destruct (0 <=? expo x) eqn:Hex, (0 <=? expo y) eqn:Hey,
    (0 <=? expo x + expo y) eqn:He; zb; subst; try lia.
  - rewrite Z.pow_add_r by lia. ring.
  - rewrite Hy.
    replace (expo x) with (expo x + expo y + - expo y) at 2 by lia.
    rewrite (Z.pow_add_r 2 (expo x + expo y)) by lia. ring.
  - rewrite Hy.
    replace (- expo y) with (expo x + - (expo x + expo y)) by lia.
    rewrite Z.pow_add_r by lia. ring.
  - rewrite Hx.
    replace (expo y) with (expo x + expo y + - expo x) at 2 by lia.
    rewrite (Z.pow_add_r 2 (expo x + expo y)) by lia. ring.
  - rewrite Hx.
    replace (- expo x) with (expo y + - (expo x + expo y)) by lia.
    rewrite Z.pow_add_r by lia. ring.
  - rewrite Hx, Hy. replace (- (expo x + expo y)) with (- expo x + - expo y) by lia.
    rewrite Z.pow_add_r by lia. ring.
Qed.

(** The ratio of the significands, brought to a common exponent. *)
Lemma div_ratio x y a b :
  denotes x a → denotes y b → 0 < b →
  0 < mant y ∧ mant x * b * (if 0 <=? expo x - expo y then 2 ^ (expo x - expo y) else 1) =
    a * mant y * (if 0 <=? expo x - expo y then 1 else 2 ^ (- (expo x - expo y))).
Proof.
  intros Hx Hy Hb. set (k := expo x - expo y).
  set (m := Z.max 0 (Z.max (- expo x) (- expo y))).
  pose proof (denotes_scaled x a (- m) Hx ltac:(lia) ltac:(lia)) as Hsx.
  pose proof (denotes_scaled y b (- m) Hy ltac:(lia) ltac:(lia)) as Hsy.
  rewrite Z.opp_involutive, Z.sub_opp_r in *.
  pose proof (pow2_pos (expo x + m) ltac:(lia)).
  pose proof (pow2_pos (expo y + m) ltac:(lia)).
  pose proof (pow2_pos m ltac:(lia)).
  split; [nia|]. destruct (0 <=? k) eqn:Hk; zb.
  - replace (expo x + m) with (k + (expo y + m)) in * by lia.
    rewrite Z.pow_add_r in * by lia.
    apply (Z.mul_reg_r _ _ (2 ^ (expo y + m) * 2 ^ m)); [nia|].
    transitivity (mant x * (2 ^ k * 2 ^ (expo y + m)) * (b * 2 ^ m)); [ring|].
    rewrite Hsx, <- Hsy. ring.
  - replace (expo y + m) with (- k + (expo x + m)) in * by lia.
    rewrite Z.pow_add_r in * by lia.
    apply (Z.mul_reg_r _ _ (2 ^ (expo x + m) * 2 ^ m)); [nia|].
    transitivity (mant x * 2 ^ (expo x + m) * (b * 2 ^ m)); [ring|].
    rewrite Hsx, <- Hsy. ring.
Qed.

(** The division rounds the exact quotient. *)
Lemma ld_div_ratio x y a b :
  denotes x a → denotes y b → 0 < b →
  ∃ n d, ld_div x y = round_ratio P n d ∧ 0 < d ∧ n * b = a * d.
Proof.
  intros Hx Hy Hb. destruct (div_ratio x y a b Hx Hy Hb) as [Hmy Heq].
  unfold ld_div. rewrite Z.sgn_pos, Z.abs_eq by lia. eexists _, _. split; [done|].
  split; [|nia].
  destruct (0 <=? expo x - expo y) eqn:?; zb; [lia|]. pose proof (pow2_pos (- (expo x - expo y))). nia.
Qed.

(** The quotient of two exact integers, truncated. *)
Lemma trunc_div x y a b :
  denotes x a → denotes y b → 0 ≤ a < 2 ^ (P - 1) → 0 < b →
  binary_trunc (ld_div x y) = a / b.
Proof.
  intros Hx Hy Ha Hb. pose proof mant_dig_pos.
  destruct (ld_div_ratio x y a b Hx Hy Hb) as (n & d & -> & Hd & Heq).
  by apply trunc_round_ratio.
Qed.
End exact.

(** ** Comparing *)

(** Bringing a pair of numbers to a scale at which both are integers. *)
Lemma binary_compare_scaled x y m :
  - m ≤ expo x → - m ≤ expo y →
  binary_compare x y = Z.compare (mant x * 2 ^ (expo x + m)) (mant y * 2 ^ (expo y + m)).
Proof.
  intros Hx Hy. unfold binary_compare. set (e := Z.min (expo x) (expo y)).
  replace (expo x + m) with (expo x - e + (e + m)) by lia.
  replace (expo y + m) with (expo y - e + (e + m)) by lia.
  rewrite (Z.pow_add_r 2 (expo x - e)), (Z.pow_add_r 2 (expo y - e)), !Z.mul_assoc by lia.
  pose proof (pow2_pos (e + m) ltac:(lia)) as Hp.
  apply Zmult_compare_compat_r. lia.
Qed.

Lemma denotes_at_scale x n m :
  denotes x n → 0 ≤ m → - m ≤ expo x → mant x * 2 ^ (expo x + m) = n * 2 ^ m.
Proof.
  intros Hn Hm Hx. pose proof (denotes_scaled x n (- m) Hn ltac:(lia) ltac:(lia)) as H.
  by rewrite Z.opp_involutive, Z.sub_opp_r in H.
Qed.

Lemma binary_eqb_denotes x y n k : denotes x n → denotes y k → binary_eqb x y = (n =? k).
Proof.
  intros Hx Hy. unfold binary_eqb. set (m := Z.max 0 (Z.max (- expo x) (- expo y))).
  rewrite (binary_compare_scaled x y m), (denotes_at_scale x n m Hx), (denotes_at_scale y k m Hy) by lia.
  pose proof (pow2_pos m ltac:(lia)).
  rewrite <- Zmult_compare_compat_r by lia. symmetry.
  destruct (Z.compare_spec n k); [apply Z.eqb_eq|apply Z.eqb_neq..]; lia.
Qed.

(** A number whose whole part is below an integer is below it. *)
Lemma binary_gtb_trunc x y k :
  0 ≤ mant x → binary_trunc x < k → denotes y k → binary_gtb x y = false.
Proof.
  intros H0 Ht Hy. unfold binary_gtb. set (m := Z.max 0 (Z.max (- expo x) (- expo y))).
  rewrite (binary_compare_scaled x y m), (denotes_at_scale y k m Hy) by lia.
  assert (Hle : mant x * 2 ^ (expo x + m) ≤ k * 2 ^ m); [|destruct (Z.compare_spec (mant x * 2 ^ (expo x + m)) (k * 2 ^ m)); done || lia].
  unfold binary_trunc in Ht. pose proof (pow2_pos m ltac:(lia)). destruct (0 <=? expo x) eqn:He; zb.
  - rewrite Z.pow_add_r by lia. nia.
  - pose proof (pow2_pos (- expo x) ltac:(lia)) as Hp. rewrite Z.quot_div_nonneg in Ht by lia.
    assert (mant x ≤ k * 2 ^ (- expo x)).
    { pose proof (Z.div_mod (mant x) (2 ^ (- expo x)) ltac:(lia)).
      pose proof (Z.mod_pos_bound (mant x) (2 ^ (- expo x)) Hp). nia. }
    replace m with (- expo x + (expo x + m)) at 2 by lia. rewrite (Z.pow_add_r 2 (- expo x)) by lia.
    pose proof (pow2_pos (expo x + m) ltac:(lia)). nia.
Qed.

(** ** Numbers between minus one and one *)

Definition unit_interval (x : binary) : Prop :=
  expo x ≤ 0 ∧ Z.abs (mant x) ≤ 2 ^ (- expo x).

Lemma unit_interval_leb x :
  unit_interval x → binary_leb (mkBinary (-1) 0) x = true ∧ binary_leb x (mkBinary 1 0) = true.
Proof.
  intros [He Hm]. unfold binary_leb.
  rewrite !(binary_compare_scaled _ _ (- expo x)) by (simpl; lia). simpl.
  replace (expo x + - expo x) with 0 by lia. rewrite Z.mul_1_r, !Z.add_0_l.
  split; match goal with |- context [?a ?= ?b] => destruct (Z.compare_spec a b) end; try done; lia.
Qed.

Lemma round_half_even_upper_le n d q : 0 < d → n ≤ q * d → round_half_even n d ≤ q.
Proof.
  intros Hd Hn. unfold round_half_even.
  pose proof (Z.div_mod n d ltac:(lia)) as Hdm.
  pose proof (Z.mod_pos_bound n d Hd) as Hr.
  assert (n / d ≤ q) by nia.
  destruct (decide (n / d = q)) as [Heq|Hne].
  - assert (n mod d = 0) by nia. destruct (2 * (n mod d) <? d) eqn:?; zb; lia.
  - repeat case_match; lia.
Qed.

Lemma round_ratio_unit prec n d :
  0 < prec → 0 < d → Z.abs n ≤ d → unit_interval (round_ratio prec n d).
Proof.
  intros Hp Hd Hn. unfold round_ratio. destruct (n =? 0) eqn:H0; zb; [by split|].
  assert (ratio_log2 n d < 1) by (apply ratio_log2_lt; lia).
  set (e := ratio_log2 n d - prec + 1). assert (He : e ≤ 0) by lia. split; simpl; [done|].
  destruct (0 <=? e) eqn:Hz; zb.
  - assert (e = 0) as -> by lia. rewrite Z.mul_1_r. simpl.
    pose proof (round_half_even_lower n d (-1) Hd). pose proof (round_half_even_upper_le n d 1 Hd). lia.
  - pose proof (pow2_pos (- e) ltac:(lia)).
    pose proof (round_half_even_lower (n * 2 ^ (- e)) d (- 2 ^ (- e)) Hd).
    pose proof (round_half_even_upper_le (n * 2 ^ (- e)) d (2 ^ (- e)) Hd). nia.
Qed.

Lemma to_double_unit x : unit_interval x → unit_interval (to_double x).
Proof.
  intros [He Hm]. unfold to_double, round_scaled. destruct (0 <=? expo x) eqn:Hz; zb.
  - assert (Hx : expo x = 0) by lia. rewrite Hx in *. simpl in Hm.
    apply round_ratio_unit; unfold DBL_MANT_DIG; lia.
  - apply round_ratio_unit; [done|apply pow2_pos; lia|done].
Qed.

Lemma div_unit `{LongDoubleFormat} x y a b :
  denotes x a → denotes y b → 0 < b → Z.abs a ≤ b → unit_interval (ld_div x y).
Proof.
  intros Hx Hy Hb Hab. destruct (ld_div_ratio x y a b Hx Hy Hb) as (n & d & -> & Hd & Heq).
  apply round_ratio_unit; [apply mant_dig_pos|done|]. nia.
Qed.

Lemma denotes_neg x n : denotes x n → denotes (ld_neg x) (- n).
Proof. unfold denotes, ld_neg. simpl. case_match; lia. Qed.

(** ** The sign survives rounding *)

Lemma ratio_scaled_ge prec n d :
  0 < prec → n ≠ 0 → 0 < d →
  let e := ratio_log2 n d - prec + 1 in
  if 0 <=? e then d * 2 ^ e ≤ Z.abs n else d ≤ Z.abs n * 2 ^ (- e).
Proof.
  intros Hp Hn Hd e. destruct (ratio_log2_bound n d (Z.log2 d + 1)) as (Hs & Hk & Hle & _); [done..|].
  set (s := Z.log2 d + 1) in *. set (k := ratio_log2 n d) in *. pose proof (pow2_pos s Hs).
  assert (Hes : d * 2 ^ (e + s + (prec - 1)) ≤ Z.abs n * 2 ^ s)
    by (replace (e + s + (prec - 1)) with (k + s) by lia; done).
  destruct (0 <=? e) eqn:He; zb.
  - assert (Hm : 2 ^ (e + s) ≤ 2 ^ (e + s + (prec - 1))) by (apply Z.pow_le_mono_r; lia).
    rewrite (Z.pow_add_r 2 e s) in Hm by lia.
    apply (Z.mul_le_mono_pos_r _ _ (2 ^ s)); [done|]. nia.
  - assert (Hm : 2 ^ (e + s + (prec - 1)) * 2 ^ (- e) = 2 ^ (prec - 1) * 2 ^ s).
    { rewrite <- !Z.pow_add_r by lia. f_equal. lia. }
    pose proof (pow2_pos (- e) ltac:(lia)). pose proof (pow2_pos (prec - 1) ltac:(lia)).
    apply (Z.mul_le_mono_pos_r _ _ (2 ^ s)); [done|]. nia.
Qed.

Lemma round_half_even_sgn n d : 0 < d → d ≤ Z.abs n → Z.sgn (round_half_even n d) = Z.sgn n.
Proof.
  intros Hd Hn. destruct (Z.lt_ge_cases 0 n).
  - pose proof (round_half_even_lower n d 1 Hd). rewrite !Z.sgn_pos; lia.
  - pose proof (round_half_even_upper_le n d (-1) Hd). rewrite !Z.sgn_neg; lia.
Qed.

Lemma round_ratio_sgn prec n d :
  0 < prec → 0 < d → Z.sgn (mant (round_ratio prec n d)) = Z.sgn n.
Proof.
  intros Hp Hd. unfold round_ratio. destruct (n =? 0) eqn:H0; zb; [by subst|]. simpl.
  pose proof (ratio_scaled_ge prec n d Hp H0 Hd) as Hge. simpl in Hge.
  set (e := ratio_log2 n d - prec + 1) in *. destruct (0 <=? e) eqn:He; zb.
  - pose proof (pow2_pos e He). apply round_half_even_sgn; [nia|done].
  - pose proof (pow2_pos (- e) ltac:(lia)) as Hpow. rewrite round_half_even_sgn; [|done|].
    + rewrite Z.sgn_mul, (Z.sgn_pos (2 ^ _)) by done. lia.
    + by rewrite Z.abs_mul, (Z.abs_eq (2 ^ _)) by lia.
Qed.

Lemma to_double_sgn x : Z.sgn (mant (to_double x)) = Z.sgn (mant x).
Proof.
  unfold to_double, round_scaled. destruct (0 <=? expo x) eqn:He; zb.
  - pose proof (pow2_pos (expo x) He). rewrite round_ratio_sgn, Z.sgn_mul, (Z.sgn_pos (2 ^ _)) by done. lia.
  - apply round_ratio_sgn; [done|]. apply pow2_pos. lia.
Qed.

Lemma div_sgn `{LongDoubleFormat} x y a b :
  denotes x a → denotes y b → 0 < b → Z.sgn (mant (ld_div x y)) = Z.sgn a.
Proof.
  intros Hx Hy Hb. destruct (ld_div_ratio x y a b Hx Hy Hb) as (n & d & -> & Hd & Heq).
  rewrite round_ratio_sgn by (done || apply mant_dig_pos).
  destruct (Z.sgn_spec n) as [[? ->]|[[? ->]|[? ->]]], (Z.sgn_spec a) as [[? ->]|[[? ->]|[? ->]]]; nia.
Qed.

Lemma div_nonneg `{LongDoubleFormat} x y a b :
  denotes x a → denotes y b → 0 ≤ a → 0 < b → 0 ≤ mant (ld_div x y).
Proof. intros Hx Hy Ha Hb. pose proof (div_sgn x y a b Hx Hy Hb). lia. Qed.
