(* ===== verification/Rounding.v ===== *)
(** * What rounding does to a number

    Comparisons of a floating-point number with an integer, kept by every
    rounding that can represent the integer; and the value of a number as a
    rational, with the relative error of a rounding. *)
From S2P Require Import Prelude LongDouble.
From Stdlib Require Import QArith Qpower Lqa.

Local Open Scope Z_scope.

(** [a <= x] and [x <= a] for an integer [a]. *)
Definition at_least (x : binary) (a : Z) : Prop :=
  if 0 <=? expo x then a ≤ mant x * 2 ^ expo x else a * 2 ^ (- expo x) ≤ mant x.

Definition at_most (x : binary) (a : Z) : Prop :=
  if 0 <=? expo x then mant x * 2 ^ expo x ≤ a else mant x ≤ a * 2 ^ (- expo x).

Lemma denotes_at_least x n a : denotes x n → a ≤ n → at_least x a.
Proof.
  unfold denotes, at_least. destruct (0 <=? expo x) eqn:He; [lia|]. zb. intros -> Ha.
  apply Z.mul_le_mono_nonneg_r; [|done]. pose proof (pow2_pos (- expo x)). lia.
Qed.

Lemma denotes_at_most x n a : denotes x n → n ≤ a → at_most x a.
Proof.
  unfold denotes, at_most. destruct (0 <=? expo x) eqn:He; [lia|]. zb. intros -> Ha.
  apply Z.mul_le_mono_nonneg_r; [|done]. pose proof (pow2_pos (- expo x)). lia.
Qed.

(** The exponent of a rounded ratio, when the ratio is below a representable
    integer. *)
Lemma round_ratio_at_least prec n d a :
  0 < prec → 0 < d → Z.abs a < 2 ^ prec → a * d ≤ n → at_least (round_ratio prec n d) a.
Proof.
  intros Hp Hd Ha Hn. unfold round_ratio, at_least.
  destruct (n =? 0) eqn:H0; zb; simpl; [subst; nia|].
  set (e := ratio_log2 n d - prec + 1) in *. destruct (0 <=? e) eqn:He; zb.
  - pose proof (pow2_pos e He) as Hpe.
    destruct (Z.lt_ge_cases n 0) as [Hneg|Hpos].
    + (* below zero the magnitude of [a] bounds that of the ratio *)
      assert (ratio_log2 n d < prec) by (apply ratio_log2_lt; [done..|lia|nia]).
      assert (He0 : e = 0) by lia. rewrite He0 in *. rewrite Z.mul_1_r in *. simpl. rewrite Z.mul_1_r.
      by apply round_half_even_lower.
    + (* above, the significand alone is large enough *)
      destruct (Z.le_gt_cases a 0) as [Ha0|Ha0].
      { pose proof (round_half_even_lower n (d * 2 ^ e) 0 ltac:(nia) ltac:(lia)). nia. }
      destruct (ratio_log2_bound n d (Z.log2 d + 1)) as (Hs & Hk & Hle & _); [done..|].
      assert (Hbig : 2 ^ (prec - 1) ≤ round_half_even n (d * 2 ^ e)).
      { apply round_half_even_lower; [nia|]. set (s := Z.log2 d + 1) in *.
        replace (ratio_log2 n d + s) with (prec - 1 + e + s) in Hle by lia.
        rewrite !Z.pow_add_r in Hle by lia. pose proof (pow2_pos s Hs). rewrite Z.abs_eq in Hle by lia.
        apply (Z.mul_le_mono_pos_r _ _ (2 ^ s)); [done|]. nia. }
      destruct (decide (e = 0)) as [He0|He0].
      { rewrite He0 in *. rewrite !Z.mul_1_r in *. by apply round_half_even_lower. }
      assert (2 ^ prec = 2 ^ (prec - 1) * 2 ^ 1) by (rewrite <- Z.pow_add_r by lia; f_equal; lia).
      assert (2 ^ 1 ≤ 2 ^ e) by (apply Z.pow_le_mono_r; lia). nia.
  - pose proof (pow2_pos (- e) ltac:(lia)). apply round_half_even_lower; [done|]. nia.
Qed.

Lemma round_half_even_opp n d : 0 < d → round_half_even (- n) d = - round_half_even n d.
Proof.
  intros Hd. unfold round_half_even. destruct (decide (n mod d = 0)) as [Hz|Hz].
  - rewrite Z.div_opp_l_z, Z.mod_opp_l_z, Hz by lia.
    destruct (2 * 0 <? d) eqn:?; zb; lia.
  - rewrite Z.div_opp_l_nz, Z.mod_opp_l_nz by lia.
    pose proof (Z.mod_pos_bound n d Hd).
    destruct (2 * (d - n mod d) <? d) eqn:H1, (2 * (n mod d) <? d) eqn:H2,
      (d <? 2 * (d - n mod d)) eqn:H3, (d <? 2 * (n mod d)) eqn:H4; zb; try lia.
    replace (- (n / d) - 1) with (- (n / d + 1)) by lia. rewrite Z.even_opp, Z.even_add.
    simpl. destruct (Z.even (n / d)); simpl; lia.
Qed.

Lemma round_ratio_opp prec n d :
  0 < d → round_ratio prec (- n) d = ld_neg (round_ratio prec n d).
Proof.
  intros Hd. unfold round_ratio, ld_neg, ratio_log2. rewrite Z.abs_opp.
  destruct (n =? 0) eqn:H0; zb; [by subst|]. rewrite (proj2 (Z.eqb_neq (- n) 0)) by lia. simpl.
  set (e := _ - prec + 1). f_equal. destruct (0 <=? e) eqn:He; zb.
  - pose proof (pow2_pos e He). apply round_half_even_opp. nia.
  - rewrite Z.mul_opp_l. by apply round_half_even_opp.
Qed.

Lemma at_least_neg x a : at_least (ld_neg x) (- a) ↔ at_most x a.
Proof. unfold at_least, at_most, ld_neg. simpl. destruct (0 <=? expo x); split; lia. Qed.

Lemma round_ratio_at_most prec n d a :
  0 < prec → 0 < d → Z.abs a < 2 ^ prec → n ≤ a * d → at_most (round_ratio prec n d) a.
Proof.
  intros Hp Hd Ha Hn. apply at_least_neg. rewrite <- round_ratio_opp by done.
  apply round_ratio_at_least; [done|done|lia|lia].
Qed.

(** Rounding again keeps the comparison. *)
Lemma round_scaled_at_least prec x a :
  0 < prec → Z.abs a < 2 ^ prec → at_least x a → at_least (round_scaled prec (mant x) (expo x)) a.
Proof.
  intros Hp Ha. unfold at_least at 1, round_scaled. destruct (0 <=? expo x) eqn:He; zb; intros Hx.
  - apply round_ratio_at_least; lia.
  - apply round_ratio_at_least; [done|apply pow2_pos; lia|done|done].
Qed.

Lemma round_scaled_at_most prec x a :
  0 < prec → Z.abs a < 2 ^ prec → at_most x a → at_most (round_scaled prec (mant x) (expo x)) a.
Proof.
  intros Hp Ha. unfold at_most at 1, round_scaled. destruct (0 <=? expo x) eqn:He; zb; intros Hx.
  - apply round_ratio_at_most; lia.
  - apply round_ratio_at_most; [done|apply pow2_pos; lia|done|done].
Qed.

Lemma to_double_at_least x a : Z.abs a < 2 ^ DBL_MANT_DIG → at_least x a → at_least (to_double x) a.
Proof. by apply round_scaled_at_least. Qed.

Lemma to_double_at_most x a : Z.abs a < 2 ^ DBL_MANT_DIG → at_most x a → at_most (to_double x) a.
Proof. by apply round_scaled_at_most. Qed.

(** A quotient of integers keeps the integer bounds of the exact one. *)
Lemma div_at_least `{LongDoubleFormat} x y n m a :
  denotes x n → denotes y m → 0 < m → Z.abs a < 2 ^ LDBL_MANT_DIG → a * m ≤ n → at_least (ld_div x y) a.
Proof.
  intros Hx Hy Hm Ha Hn. destruct (ld_div_ratio x y n m Hx Hy Hm) as (n' & d & -> & Hd & Heq).
  apply round_ratio_at_least; [apply mant_dig_pos|done|done|].
  apply (Z.mul_le_mono_pos_r _ _ m); nia.
Qed.

Lemma div_at_most `{LongDoubleFormat} x y n m a :
  denotes x n → denotes y m → 0 < m → Z.abs a < 2 ^ LDBL_MANT_DIG → n ≤ a * m → at_most (ld_div x y) a.
Proof.
  intros Hx Hy Hm Ha Hn. destruct (ld_div_ratio x y n m Hx Hy Hm) as (n' & d & -> & Hd & Heq).
  apply round_ratio_at_most; [apply mant_dig_pos|done|done|].
  apply (Z.mul_le_mono_pos_r _ _ m); nia.
Qed.

(** Comparing with zero. *)
Lemma binary_leb_zero x : binary_leb x binary_zero = (mant x <=? 0).
Proof.
  unfold binary_leb, binary_compare, binary_zero. simpl.
  set (e := Z.min (expo x) 0). pose proof (pow2_pos (expo x - e) ltac:(lia)).
  change (0 * 2 ^ (0 - e)) with 0. destruct (Z.compare_spec (mant x * 2 ^ (expo x - e)) 0); symmetry;
    [apply Z.leb_le|apply Z.leb_le|apply Z.leb_gt]; nia.
Qed.

(** ** Relative errors *)

Lemma round_half_even_error n d : 0 < d → 2 * Z.abs (round_half_even n d * d - n) ≤ d.
Proof.
  intros Hd. unfold round_half_even.
  pose proof (Z.div_mod n d ltac:(lia)) as Hdm. pose proof (Z.mod_pos_bound n d Hd) as Hr.
  destruct (2 * (n mod d) <? d) eqn:H1; zb; [nia|].
  destruct (d <? 2 * (n mod d)) eqn:H2; zb; [nia|]. destruct (Z.even (n / d)); nia.
Qed.

(** A rounded ratio, times the denominator, is the numerator up to one part in
    [2 ^ prec]. *)
Lemma round_ratio_error prec n d :
  0 < prec → 0 < d → 0 < n →
  let r := round_ratio prec n d in
  if 0 <=? expo r then Z.abs (mant r * 2 ^ expo r * d - n) * 2 ^ prec ≤ n
  else Z.abs (mant r * d - n * 2 ^ (- expo r)) * 2 ^ prec ≤ n * 2 ^ (- expo r).
Proof.
  intros Hp Hd Hn r. unfold r, round_ratio. rewrite (proj2 (Z.eqb_neq n 0)) by lia. simpl.
  destruct (ratio_log2_bound n d (Z.log2 d + 1)) as (Hs & Hk & Hle & _); [lia|done|done|].
  set (s := Z.log2 d + 1) in *. set (k := ratio_log2 n d) in *. set (e := k - prec + 1) in *.
  rewrite Z.abs_eq in Hle by lia. pose proof (pow2_pos s Hs) as Hps.
  pose proof (pow2_pos (prec - 1) ltac:(lia)) as Hpp.
  assert (H2 : 2 ^ prec = 2 * 2 ^ (prec - 1)) by (rewrite <- Z.pow_succ_r by lia; f_equal; lia).
  destruct (0 <=? e) eqn:He; zb.
  - pose proof (pow2_pos e He) as Hpe.
    pose proof (round_half_even_error n (d * 2 ^ e) ltac:(nia)) as Herr.
    replace (round_half_even n (d * 2 ^ e) * 2 ^ e * d) with (round_half_even n (d * 2 ^ e) * (d * 2 ^ e)) by ring.
    assert (Hbig : d * 2 ^ e * 2 ^ (prec - 1) ≤ n).
    { apply (Z.mul_le_mono_pos_r _ _ (2 ^ s)); [done|].
      replace (k + s) with (e + (prec - 1) + s) in Hle by lia. rewrite !Z.pow_add_r in Hle by lia. nia. }
    nia.
  - set (t := - e) in *. pose proof (pow2_pos t ltac:(lia)) as Hpt.
    pose proof (round_half_even_error (n * 2 ^ t) d Hd) as Herr.
    assert (Hbig : d * 2 ^ (prec - 1) ≤ n * 2 ^ t).
    { apply (Z.mul_le_mono_pos_r _ _ (2 ^ s)); [done|].
      assert (Hmul : d * 2 ^ (k + s) * 2 ^ t ≤ n * 2 ^ s * 2 ^ t) by nia.
      assert (Hexp : 2 ^ (k + s) * 2 ^ t = 2 ^ (prec - 1) * 2 ^ s)
        by (rewrite <- !Z.pow_add_r by lia; f_equal; lia).
      nia. }
    nia.
Qed.

(** The value of a number. *)
Definition val (x : binary) : Q := (inject_Z (mant x) * Qpower 2 (expo x))%Q.

Section rational.
Local Open Scope Q_scope.

Lemma Qpower2_Z k : (0 ≤ k)%Z → Qpower 2 k == inject_Z (2 ^ k).
Proof. intros Hk. symmetry. by apply Zpower_Qpower. Qed.

Lemma Qpower2_pos k : 0 < Qpower 2 k.
Proof. by apply Qpower_0_lt. Qed.

Lemma Qpower2_opp k : Qpower 2 (- k) == / Qpower 2 k.
Proof. apply Qpower_opp. Qed.

Lemma val_denotes x n : denotes x n → val x == inject_Z n.
Proof.
  unfold denotes, val. destruct (0 <=? expo x)%Z eqn:He; zb; intros Hn.
  - rewrite Qpower2_Z by done. by rewrite <- inject_Z_mult, Hn.
  - rewrite Hn, inject_Z_mult, <- Qpower2_Z by lia. rewrite <- Qmult_assoc, <- Qpower_plus by done.
    replace (- expo x + expo x)%Z with 0%Z by lia. simpl. ring.
Qed.

Lemma val_nonneg x : (0 ≤ mant x)%Z → 0 <= val x.
Proof.
  intros Hm. unfold val. pose proof (Qpower2_pos (expo x)).
  apply Qmult_le_0_compat; [|lra]. change 0 with (inject_Z 0). by rewrite <- Zle_Qle.
Qed.
End rational.
