(* ===== verification/RelativeError.v ===== *)
(** * Relative errors that accumulate

    [close k x q]: after [k] roundings the number [x] is the rational [q] up to a
    factor between [(1 - u) ^ k] and [(1 + u) ^ k], where [u] is half a unit in
    the last place.  Sums, products and quotients of nonnegative numbers keep the
    relation, each adding a rounding. *)
From S2P Require Import Prelude LongDouble Rounding.
From Stdlib Require Import QArith Qpower Lqa.

Local Open Scope Q_scope.

(** [b ^ k] for a natural [k]. *)
Fixpoint qpow (b : Q) (k : nat) : Q :=
  match k with O => 1 | Datatypes.S k => b * qpow b k end.

Lemma qpow_add b j k : qpow b (j + k) == qpow b j * qpow b k.
Proof. induction j as [|j IH]; simpl; [ring|]. rewrite IH. ring. Qed.

Lemma qpow_nonneg b k : 0 <= b → 0 <= qpow b k.
Proof. intros Hb. induction k as [|k IH]; simpl; [lra|]. by apply Qmult_le_0_compat. Qed.

Lemma qpow_small b j k : 0 <= b <= 1 → (j ≤ k)%nat → qpow b k <= qpow b j.
Proof.
  intros [H0 H1]. induction 1 as [|k _ IH]; [lra|]. simpl.
  pose proof (qpow_nonneg b k H0). nra.
Qed.

Lemma qpow_large b j k : 1 <= b → (j ≤ k)%nat → qpow b j <= qpow b k.
Proof.
  intros H1. induction 1 as [|k _ IH]; [lra|]. simpl.
  pose proof (qpow_nonneg b k ltac:(lra)). nra.
Qed.

Lemma inject_Z_nonneg n : (0 ≤ n)%Z → 0 <= inject_Z n.
Proof. change 0 with (inject_Z 0). by rewrite <- Zle_Qle. Qed.

Lemma inject_Z_pos n : (0 < n)%Z → 0 < inject_Z n.
Proof. change 0 with (inject_Z 0). by rewrite <- Zlt_Qlt. Qed.

(** A shifted significand has the same value. *)
Lemma val_shift m e e' : (e' ≤ e)%Z → val (mkBinary (m * 2 ^ (e - e')) e') == val (mkBinary m e).
Proof.
  intros He. unfold val; simpl. rewrite inject_Z_mult, <- Qpower2_Z by lia.
  rewrite <- Qmult_assoc, <- Qpower_plus by done. by replace (e - e' + e')%Z with e by lia.
Qed.

Section close.
Context `{LongDoubleFormat}.
Local Abbreviation P := LDBL_MANT_DIG.

(** Half a unit in the last place of a number between 1 and 2. *)
Definition half_ulp : Q := Qpower 2 (- P).

Definition close (k : nat) (x : binary) (q : Q) : Prop :=
  0 <= q ∧ qpow (1 - half_ulp) k * q <= val x ∧ val x <= qpow (1 + half_ulp) k * q.

Lemma scale_pos : (0 < 2 ^ P)%Z.
Proof. apply pow2_pos. pose proof mant_dig_pos. lia. Qed.

Lemma half_ulp_scaled : half_ulp * inject_Z (2 ^ P) == 1.
Proof.
  pose proof mant_dig_pos. unfold half_ulp. rewrite <- Qpower2_Z, <- Qpower_plus by (done || lia).
  by replace (- P + P)%Z with 0%Z by lia.
Qed.

Lemma half_ulp_bounds : 0 < half_ulp <= 1.
Proof.
  assert (Hu : 0 < half_ulp) by apply Qpower2_pos. split; [done|].
  pose proof half_ulp_scaled. pose proof scale_pos as HP.
  assert (HW : inject_Z 1 <= inject_Z (2 ^ P)) by (rewrite <- Zle_Qle; lia).
  change (inject_Z 1) with 1 in HW. set (W := inject_Z (2 ^ P)) in *. clearbody W. nra.
Qed.

Lemma close_mono j k x q : (j ≤ k)%nat → close j x q → close k x q.
Proof.
  intros Hjk (Hq & Hlo & Hhi). pose proof half_ulp_bounds as [Hu Hu1]. split_and!; [done| |].
  - pose proof (qpow_small (1 - half_ulp) j k ltac:(lra) Hjk). nra.
  - pose proof (qpow_large (1 + half_ulp) j k ltac:(lra) Hjk). nra.
Qed.

(** One more rounding. *)
Lemma close_round k x q v :
  0 <= q → qpow (1 - half_ulp) k * q <= v → v <= qpow (1 + half_ulp) k * q →
  (1 - half_ulp) * v <= val x → val x <= (1 + half_ulp) * v →
  close (Datatypes.S k) x q.
Proof.
  intros Hq Hlo Hhi H1 H2. pose proof half_ulp_bounds as [Hu Hu1]. split_and!; [done| |]; simpl; nra.
Qed.

(** A rounded ratio. *)
Lemma round_ratio_close n d :
  (0 ≤ n)%Z → (0 < d)%Z →
  let v := val (round_ratio P n d) in
  let r := inject_Z n / inject_Z d in
  (1 - half_ulp) * r <= v ∧ v <= (1 + half_ulp) * r.
Proof.
  intros Hn Hd v r. pose proof (inject_Z_pos d Hd) as HdQ.
  assert (Hr : r * inject_Z d == inject_Z n) by (unfold r; field; intros Hz; rewrite Hz in HdQ; lra).
  clearbody r. destruct (decide (n = 0%Z)) as [->|Hn0].
  { assert (Hv : v == 0) by (unfold v, round_ratio, val; simpl; ring).
    assert (Hr0 : r == 0) by (change (inject_Z 0) with 0 in Hr; nra). rewrite Hv, Hr0. lra. }
  pose proof (round_ratio_error P n d mant_dig_pos Hd ltac:(lia)) as Herr. simpl in Herr.
  unfold v. set (x := round_ratio P n d) in *. clearbody x. clear v.
  pose proof half_ulp_scaled as HuP. pose proof half_ulp_bounds as [Hu Hu1].
  pose proof scale_pos as HP.
  pose proof (inject_Z_pos _ HP) as HPQ.
  assert (Hval : ∃ t, (0 < t)%Z ∧ ∃ m, val x * inject_Z t == inject_Z m ∧
      (Z.abs (m * d - n * t) * 2 ^ P ≤ n * t)%Z).
  { destruct (0 <=? expo x)%Z eqn:He; zb.
    - exists 1%Z. split; [lia|]. exists (mant x * 2 ^ expo x)%Z. rewrite !Z.mul_1_r. split; [|done].
      unfold val. rewrite inject_Z_mult, <- Qpower2_Z by done. ring.
    - exists (2 ^ (- expo x))%Z. split; [apply pow2_pos; lia|]. exists (mant x). split; [|done].
      unfold val. rewrite <- Qpower2_Z by lia. rewrite <- Qmult_assoc, <- Qpower_plus by done.
      replace (expo x + - expo x)%Z with 0%Z by lia. simpl. ring. }
  destruct Hval as (t & Ht & m & Hm & Hb). pose proof (inject_Z_pos t Ht) as HtQ.
  assert (Hlo : ((n * t) * 2 ^ P - n * t ≤ m * d * 2 ^ P)%Z) by nia.
  assert (Hhi : (m * d * 2 ^ P ≤ (n * t) * 2 ^ P + n * t)%Z) by nia.
  rewrite Zle_Qle in Hlo, Hhi. rewrite ?inject_Z_plus, ?inject_Z_mult in Hhi.
  unfold Z.sub in Hlo. rewrite ?inject_Z_plus, ?inject_Z_opp, ?inject_Z_mult in Hlo.
  rewrite <- Hm, <- Hr in Hlo, Hhi.
  set (D := inject_Z d) in *. set (T := inject_Z t) in *. set (W := inject_Z (2 ^ P)) in *.
  set (V := val x) in *. clearbody D T W V.
  assert (Hpos : 0 < D * T * W) by (apply Qmult_lt_0_compat; [by apply Qmult_lt_0_compat|done]).
  split; apply (Qmult_le_l _ _ (D * T * W)); try done.
  - assert (Hl : D * T * W * ((1 - half_ulp) * r) == r * D * T * W + - (r * D * T) * (half_ulp * W)) by ring.
    assert (Hv : D * T * W * V == V * T * D * W) by ring. rewrite Hl, Hv, HuP. lra.
  - assert (Hl : D * T * W * ((1 + half_ulp) * r) == r * D * T * W + r * D * T * (half_ulp * W)) by ring.
    assert (Hv : D * T * W * V == V * T * D * W) by ring. rewrite Hl, Hv, HuP. lra.
Qed.

Lemma round_scaled_close n e :
  (0 ≤ n)%Z →
  (1 - half_ulp) * val (mkBinary n e) <= val (round_scaled P n e) ∧
  val (round_scaled P n e) <= (1 + half_ulp) * val (mkBinary n e).
Proof.
  intros Hn. unfold round_scaled. destruct (0 <=? e)%Z eqn:He; zb.
  - assert (Hv : val (mkBinary n e) == inject_Z (n * 2 ^ e) / inject_Z 1).
    { unfold val; simpl. rewrite inject_Z_mult, <- Qpower2_Z by done. field. }
    rewrite Hv. pose proof (pow2_pos e He). apply round_ratio_close; nia.
  - assert (Hv : val (mkBinary n e) == inject_Z n / inject_Z (2 ^ (- e))).
    { unfold val; simpl. rewrite <- Qpower2_Z by lia. unfold Qdiv. rewrite <- Qpower_opp.
      by replace (- - e)%Z with e by lia. }
    rewrite Hv. apply round_ratio_close; [done|]. apply pow2_pos. lia.
Qed.

Lemma val_nonneg_inv x : 0 <= val x → (0 ≤ mant x)%Z.
Proof.
  intros Hv. unfold val in Hv. pose proof (Qpower2_pos (expo x)).
  destruct (Z.lt_ge_cases (mant x) 0) as [Hneg|]; [|done].
  assert (Hm : inject_Z (mant x) <= inject_Z (-1)) by (rewrite <- Zle_Qle; lia).
  change (inject_Z (-1)) with (-1)%Q in Hm. nra.
Qed.

Lemma close_val_nonneg k x q : close k x q → 0 <= val x.
Proof.
  intros (Hq & Hlo & _). pose proof half_ulp_bounds.
  pose proof (qpow_nonneg (1 - half_ulp) k ltac:(lra)). nra.
Qed.

Lemma close_exact x n : (0 ≤ n)%Z → denotes x n → close 0 x (inject_Z n).
Proof.
  intros Hn Hx%val_denotes. pose proof (inject_Z_nonneg n Hn).
  split_and!; simpl; [done|..]; rewrite Hx; lra.
Qed.

Lemma close_of_int64 n : (0 ≤ n)%Z → close 1 (of_int64 n) (inject_Z n).
Proof.
  intros Hn. pose proof (round_ratio_close n 1 Hn ltac:(lia)) as [Hlo Hhi]. fold (of_int64 n) in *.
  pose proof (inject_Z_nonneg n Hn).
  assert (Hq : inject_Z n / inject_Z 1 == inject_Z n) by field. rewrite Hq in *.
  apply (close_round 0 _ _ (inject_Z n)); simpl; lra.
Qed.

Lemma close_add k x y p q :
  close k x p → close k y q → close (Datatypes.S k) (ld_add x y) (p + q).
Proof.
  intros Hx Hy. pose proof (close_val_nonneg _ _ _ Hx) as Hx0. pose proof (close_val_nonneg _ _ _ Hy) as Hy0.
  pose proof (val_nonneg_inv _ Hx0). pose proof (val_nonneg_inv _ Hy0).
  destruct Hx as (Hp & Hx1 & Hx2), Hy as (Hq & Hy1 & Hy2).
  set (e := Z.min (expo x) (expo y)).
  assert (Hv : val (mkBinary (mant x * 2 ^ (expo x - e) + mant y * 2 ^ (expo y - e)) e) == val x + val y).
  { rewrite <- (val_shift (mant x) (expo x) e), <- (val_shift (mant y) (expo y) e) by lia.
    unfold val; simpl. rewrite inject_Z_plus. ring. }
  pose proof (pow2_pos (expo x - e) ltac:(lia)). pose proof (pow2_pos (expo y - e) ltac:(lia)).
  destruct (round_scaled_close (mant x * 2 ^ (expo x - e) + mant y * 2 ^ (expo y - e)) e) as [Hlo Hhi]; [nia|].
  rewrite Hv in Hlo, Hhi. apply (close_round k _ _ (val x + val y)); [lra|lra|lra|done|done].
Qed.

Lemma close_mul j k x y p q :
  close j x p → close k y q → close (Datatypes.S (j + k)) (ld_mul x y) (p * q).
Proof.
  intros Hx Hy. pose proof (close_val_nonneg _ _ _ Hx) as Hx0. pose proof (close_val_nonneg _ _ _ Hy) as Hy0.
  pose proof (val_nonneg_inv _ Hx0). pose proof (val_nonneg_inv _ Hy0).
  destruct Hx as (Hp & Hx1 & Hx2), Hy as (Hq & Hy1 & Hy2).
  assert (Hv : val (mkBinary (mant x * mant y) (expo x + expo y)) == val x * val y).
  { unfold val; simpl. rewrite inject_Z_mult, Qpower_plus by done. ring. }
  destruct (round_scaled_close (mant x * mant y) (expo x + expo y)) as [Hlo Hhi]; [nia|].
  rewrite Hv in Hlo, Hhi. pose proof half_ulp_bounds as Hu.
  pose proof (qpow_nonneg (1 - half_ulp) j ltac:(lra)). pose proof (qpow_nonneg (1 - half_ulp) k ltac:(lra)).
  apply (close_round (j + k) _ _ (val x * val y)); [by apply Qmult_le_0_compat| | |done|done].
  - assert (Hm : qpow (1 - half_ulp) (j + k) * (p * q) == qpow (1 - half_ulp) j * p * (qpow (1 - half_ulp) k * q))
      by (rewrite qpow_add; ring).
    rewrite Hm. apply Qmult_le_compat_nonneg; (split; [by apply Qmult_le_0_compat|done]).
  - assert (Hm : qpow (1 + half_ulp) (j + k) * (p * q) == qpow (1 + half_ulp) j * p * (qpow (1 + half_ulp) k * q))
      by (rewrite qpow_add; ring).
    rewrite Hm. by apply Qmult_le_compat_nonneg.
Qed.

(** Dividing by an exact number. *)
Lemma close_div k x y p m :
  close k x p → denotes y m → (0 < m)%Z → close (Datatypes.S k) (ld_div x y) (p / inject_Z m).
Proof.
  intros Hx Hy Hm. pose proof (val_nonneg_inv _ (close_val_nonneg _ _ _ Hx)).
  destruct Hx as (Hp & Hx1 & Hx2). pose proof (val_denotes _ _ Hy) as Hvy.
  pose proof (inject_Z_pos m Hm) as HmQ. assert (Hm0 : ~ inject_Z m == 0) by (intros Hz; rewrite Hz in HmQ; lra).
  assert (Hy0 : (0 < mant y)%Z).
  { destruct (Z.lt_ge_cases 0 (mant y)) as [|Hneg]; [done|exfalso].
    assert (inject_Z (mant y) <= inject_Z 0) by (by rewrite <- Zle_Qle).
    change (inject_Z 0) with 0 in *. unfold val in Hvy. pose proof (Qpower2_pos (expo y)). nra. }
  unfold ld_div. rewrite Z.sgn_pos, Z.abs_eq, Z.mul_1_l by lia. set (d := (expo x - expo y)%Z).
  set (num := (if (0 <=? d)%Z then 2 ^ d else 1)%Z). set (den := (if (0 <=? d)%Z then 1 else 2 ^ (- d))%Z).
  assert (Hnd : (0 < num ∧ 0 < den)%Z).
  { unfold num, den. destruct (0 <=? d)%Z eqn:Hd; zb; split; try lia; apply pow2_pos; lia. }
  assert (Hscale : inject_Z num == inject_Z den * Qpower 2 d).
  { unfold num, den. destruct (0 <=? d)%Z eqn:Hd; zb; [rewrite <- Qpower2_Z by done; ring|].
    rewrite <- Qpower2_Z, <- Qpower_plus by (done || lia). by replace (- d + d)%Z with 0%Z by lia. }
  pose proof (inject_Z_pos _ Hy0) as HyQ. pose proof (inject_Z_pos den ltac:(lia)) as HdQ.
  assert (Hv : inject_Z (mant x * num) / inject_Z (mant y * den) == val x / inject_Z m).
  { rewrite <- Hvy, !inject_Z_mult, Hscale. unfold val, d, Z.sub. rewrite Qpower_plus, Qpower_opp by done.
    pose proof (Qpower2_pos (expo y)). field. split_and!; intros Hz; rewrite Hz in *; lra. }
  destruct (round_ratio_close (mant x * num) (mant y * den)) as [Hlo Hhi]; [nia|nia|].
  rewrite Hv in Hlo, Hhi.
  apply (close_round k _ _ (val x / inject_Z m)); [|..|done|done].
  - apply Qle_shift_div_l; [done|]. lra.
  - apply Qle_shift_div_l; [done|].
    assert (Hc : qpow (1 - half_ulp) k * (p / inject_Z m) * inject_Z m == qpow (1 - half_ulp) k * p) by (by field).
    by rewrite Hc.
  - apply Qle_shift_div_r; [done|].
    assert (Hc : qpow (1 + half_ulp) k * (p / inject_Z m) * inject_Z m == qpow (1 + half_ulp) k * p) by (by field).
    by rewrite Hc.
Qed.

#[global] Instance close_Proper k x : Proper (Qeq ==> iff) (close k x).
Proof. intros p q Hpq. unfold close. by rewrite Hpq. Qed.

(** A sum of terms with the same error: one rounding more for each. *)
Lemma close_sum {A} (f : A → binary) (g : A → Q) k l :
  Forall (λ a, close k (f a) (g a)) l →
  close (k + length l) (foldl (λ acc a, ld_add acc (f a)) binary_zero l)
    (foldr (λ a acc, g a + acc) 0 l).
Proof.
  induction l as [|a l IH] using rev_ind; intros Hl.
  { apply (close_mono 0); [lia|]. by apply (close_exact _ 0). }
  apply Forall_app in Hl as [Hl [Ha _]%Forall_cons]. rewrite foldl_snoc, length_app. simpl.
  assert (Hsum : foldr (λ a acc, g a + acc) 0 (l ++ [a]) == foldr (λ a acc, g a + acc) 0 l + g a).
  { clear IH Hl. induction l as [|b l IH]; simpl; [ring|]. rewrite IH. ring. }
  rewrite Hsum. replace (k + (length l + 1))%nat with (Datatypes.S (k + length l)) by lia.
  apply close_add; [by apply IH|]. eapply close_mono; [|done]. lia.
Qed.
End close.

(** Reading the numerator of such a sum over a common denominator. *)
Lemma sum_over_denominator {A} (g : A → Q) (n : A → Z) d l :
  Forall (λ a, g a == inject_Z (n a) / d) l →
  foldr (λ a acc, g a + acc) 0 l == inject_Z (foldr (λ a acc, n a + acc)%Z 0%Z l) / d.
Proof.
  induction 1 as [|a l Ha _ IH]; simpl; [unfold Qdiv; change (inject_Z 0) with 0; ring|].
  rewrite Ha, IH, inject_Z_plus. unfold Qdiv. ring.
Qed.
