(* ===== verification/Windows.v ===== *)
(** * Rolling windows

    The analytics keep the last events in a deque together with a running total:
    when the deque is full the oldest event is taken off the total and dropped,
    then the new one is pushed and added.  The reference is the list of all
    events so far, of which [last_n] takes the end. *)
From S2P Require Import Prelude LongDouble.

Local Open Scope Z_scope.

(** The deque after a push: [pop_front] when it holds [w] events, [push_back]. *)
Definition push_window {A} (w : nat) (x : A) (l : list A) : list A :=
  (if (length l =? w)%nat then tail l else l) ++ [x].

Definition last_n {A} (w : nat) (l : list A) : list A := drop (length l - w) l.

Lemma last_n_length {A} w (l : list A) : length (last_n w l) = Nat.min w (length l).
Proof. unfold last_n. rewrite length_drop. lia. Qed.

Lemma last_n_map {A B} (f : A → B) w l : last_n w (map f l) = map f (last_n w l).
Proof. unfold last_n. by rewrite length_fmap, fmap_drop. Qed.

Lemma tail_drop {A} (l : list A) : tail l = drop 1 l.
Proof. by destruct l. Qed.

Lemma push_window_last {A} w (x : A) l :
  (0 < w)%nat → push_window w x (last_n w l) = last_n w (l ++ [x]).
Proof.
  intros Hw. unfold push_window. rewrite last_n_length. unfold last_n. rewrite length_app. simpl.
  destruct (Nat.min w (length l) =? w)%nat eqn:He.
  - apply Nat.eqb_eq in He. rewrite tail_drop, drop_drop.
    replace (length l + 1 - w)%nat with (length l - w + 1)%nat by lia.
    by rewrite drop_app_le by lia.
  - apply Nat.eqb_neq in He. replace (length l - w)%nat with 0%nat by lia.
    by replace (length l + 1 - w)%nat with 0%nat by lia.
Qed.

Lemma push_window_Forall2 {A B} (R : A → B → Prop) w x y l k :
  Forall2 R l k → R x y → Forall2 R (push_window w x l) (push_window w y k).
Proof.
  intros Hl Hx. unfold push_window. rewrite (Forall2_length _ _ _ Hl).
  apply Forall2_app; [|by repeat constructor]. destruct (_ =? w)%nat; [|done]. by destruct Hl.
Qed.

Definition sum_Z (l : list Z) : Z := foldr Z.add 0 l.

Lemma sum_Z_app l1 l2 : sum_Z (l1 ++ l2) = sum_Z l1 + sum_Z l2.
Proof. induction l1; simpl; lia. Qed.

Lemma sum_Z_bound b l : Forall (λ z, Z.abs z ≤ b) l → Z.abs (sum_Z l) ≤ b * Z.of_nat (length l).
Proof. induction 1 as [|x l Hx _ IH]; simpl length; simpl sum_Z; lia. Qed.

Lemma Forall_last_n {A} (P : A → Prop) w l : Forall P l → Forall P (last_n w l).
Proof. apply Forall_drop. Qed.

Lemma last_n_nil {A} w (l : list A) : (0 < w)%nat → last_n w l = [] → l = [].
Proof. intros Hw Hl. apply (f_equal length) in Hl. rewrite last_n_length in Hl. destruct l; simpl in *; [done|lia]. Qed.

(** ** Totals in [long double] *)

Section totals.
Context `{LongDoubleFormat}.
Local Abbreviation P := LDBL_MANT_DIG.

Lemma denotes_sub x y n m :
  denotes x n → denotes y m → Z.abs (n - m) < 2 ^ P → denotes (ld_sub x y) (n - m).
Proof.
  intros Hx Hy Hb. unfold ld_sub. rewrite <- Z.add_opp_r in *. apply denotes_add; [done| |done].
  by apply denotes_neg.
Qed.

Lemma denotes_zero : denotes binary_zero 0.
Proof. done. Qed.

(** The running total after a push, from the window before it. *)
Definition push_total (w : nat) (x : binary) (l : list binary) (t : binary) : binary :=
  ld_add (match l with y :: _ => if (length l =? w)%nat then ld_sub t y else t | [] => t end) x.

Lemma push_total_denotes w b x z l zs t :
  (0 < w)%nat → Forall2 denotes l zs → (length l ≤ w)%nat → denotes t (sum_Z zs) → denotes x z →
  Forall (λ z, Z.abs z ≤ b) (z :: zs) → b * Z.of_nat w < 2 ^ P →
  denotes (push_total w x l t) (sum_Z (push_window w z zs)).
Proof.
  intros Hw Hl Hlen Ht Hx Hb Hfit. inversion Hb as [|? ? Hz Hzs]; subst.
  pose proof (Forall2_length _ _ _ Hl) as Hlz. unfold push_total, push_window. rewrite <- Hlz.
  assert (Hsum : ∀ ys, (length ys < w)%nat → Forall (λ z, Z.abs z ≤ b) ys →
    Z.abs (sum_Z (ys ++ [z])) < 2 ^ P ∧ Z.abs (sum_Z ys) < 2 ^ P).
  { intros ys Hys Hyb. pose proof (sum_Z_bound b ys Hyb).
    pose proof (sum_Z_bound b (ys ++ [z]) ltac:(apply Forall_app; auto)) as Hall.
    rewrite length_app in Hall. simpl in Hall. split; nia. }
  destruct Hl as [|y y' l zs Hy Hl].
  - destruct w as [|w]; [lia|]. simpl in *. replace (z + 0) with (0 + z) by lia.
    destruct (Hsum []) as [H1 _]; [simpl; lia|done|]. apply denotes_add; [done|done|simpl in H1; lia].
  - inversion Hzs as [|? ? Hy' Hzs']; subst. simpl in Hlen, Hlz.
    destruct (length (y :: l) =? w)%nat eqn:He; simpl in He |- *.
    + change (S (length l) =? w = true)%nat in He. apply Nat.eqb_eq in He. destruct (Hsum zs ltac:(lia) Hzs') as [H1 H2].
      rewrite sum_Z_app in H1 |- *. simpl in H1, Ht |- *. rewrite Z.add_0_r in H1 |- *. apply denotes_add; [|done|done].
      replace (sum_Z zs) with (y' + sum_Z zs - y') by lia. apply denotes_sub; [done|done|].
      by replace (y' + sum_Z zs - y') with (sum_Z zs) by lia.
    + change (S (length l) =? w = false)%nat in He. apply Nat.eqb_neq in He. destruct (Hsum (y' :: zs)) as [H1 H2]; [simpl; lia|done|].
      rewrite sum_Z_app in H1 |- *. simpl in H1, Ht |- *. rewrite Z.add_0_r in H1 |- *.
      replace (y' + (sum_Z zs + z)) with (y' + sum_Z zs + z) by lia.
      apply denotes_add; [done|done|lia].
Qed.
End totals.
