(* ===== verification/TradeAnalytics.v ===== *)
(** * Figures over trades

    [include/rolling_vwap.hpp], [include/trade_statistics.hpp] and
    [include/analytics_execution_handler.hpp]: the volume-weighted price over a
    rolling window, the totals and extremes of all trades, both per symbol, and
    the handler that feeds them with the trades of an execution. *)
From S2P Require Import Prelude LongDouble Orders.

Local Open Scope Z_scope.

(** ** double

    The arguments of the figures may be any [double]; those that are not finite
    are refused before they are used. *)
Inductive double : Type :=
| Finite (x : binary)
| Infinite (negative : bool)
| NotANumber.

(** [static_cast<double>] of an integer. *)
Definition int64_to_double (z : Z) : double := Finite (round_ratio DBL_MANT_DIG z 1).

(** [!std::isfinite(x) || x <= 0.0] throws; otherwise the number, which a
    [long double] holds as it is. *)
Definition require_finite_positive {S} (x : double) (what : string) : M S binary :=
  match x with
  | Finite b => if binary_leb b binary_zero then throw (invalid_argument what) else ret b
  | _ => throw (invalid_argument what)
  end.

(** ** RollingVWAP *)

Record VWAPSymbolState : Type := mkVWAPState {
  vwap_trades : list (binary * binary);
  vwap_total_notional : binary;
  vwap_total_volume : binary
}.

Definition new_vwap_state : VWAPSymbolState := mkVWAPState [] binary_zero binary_zero.

Record RollingVWAP : Type := mkVWAP {
  vwap_window_size_ : nat;
  vwap_symbols_ : gmap string VWAPSymbolState
}.

Definition make_vwap {S} (window_size : nat) : M S RollingVWAP :=
  if (window_size =? 0)%nat then throw (invalid_argument "VWAP window size must be positive")
  else ret (mkVWAP window_size ∅).

Definition set_vwap_symbols (m : gmap string VWAPSymbolState) (v : RollingVWAP) : RollingVWAP :=
  mkVWAP (vwap_window_size_ v) m.

(** ** TradeStatistics *)

Inductive TradeAggressorSide : Type := AggressorBuy | AggressorSell | AggressorUnknown.

Record StatisticsSymbolState : Type := mkStatisticsState {
  st_trade_count : Z;
  st_total_volume : binary;
  st_total_price : binary;
  st_minimum_price : binary;
  st_maximum_price : binary;
  st_buy_volume : binary;
  st_sell_volume : binary;
  st_unknown_volume : binary
}.

Definition new_statistics_state : StatisticsSymbolState :=
  mkStatisticsState 0 binary_zero binary_zero binary_zero binary_zero binary_zero binary_zero
    binary_zero.

Record TradeStatisticsSnapshot : Type := mkStatisticsSnapshot {
  snap_trade_count : Z;
  snap_total_volume : binary;
  snap_average_trade_price : binary;
  snap_minimum_trade_price : binary;
  snap_maximum_trade_price : binary;
  snap_average_trade_size : binary;
  snap_buy_volume : binary;
  snap_sell_volume : binary;
  snap_unknown_volume : binary
}.

Record TradeStatistics : Type := mkStatistics { stat_symbols_ : gmap string StatisticsSymbolState }.

Definition set_stat_symbols (m : gmap string StatisticsSymbolState) (t : TradeStatistics)
    : TradeStatistics := mkStatistics m.

Section figures.
Context `{LongDoubleFormat}.

(** [RollingVWAP::add_trade] once the state of the symbol is at hand. *)
Definition vwap_push (window_size : nat) (price quantity : binary) : M VWAPSymbolState unit :=
  let* state := gets id in
  (if (length (vwap_trades state) =? window_size)%nat then
     match vwap_trades state with
     | [] => undefined
     | (oldest_price, oldest_quantity) :: rest =>
         modify (λ state, mkVWAPState rest
           (ld_sub (vwap_total_notional state) (ld_mul oldest_price oldest_quantity))
           (ld_sub (vwap_total_volume state) oldest_quantity))
     end
   else ret tt) ;;;
  modify (λ state, mkVWAPState (vwap_trades state ++ [(price, quantity)])
    (ld_add (vwap_total_notional state) (ld_mul price quantity))
    (ld_add (vwap_total_volume state) quantity)).

Definition vwap_add_trade (symbol : string) (price quantity : double) : M RollingVWAP unit :=
  if decide (symbol = "") then throw (invalid_argument "Trade symbol cannot be empty")
  else
    let* price := require_finite_positive price "Trade price must be finite and positive" in
    let* quantity := require_finite_positive quantity "Trade quantity must be finite and positive" in
    let* v := gets id in
    at_entry vwap_symbols_ set_vwap_symbols new_vwap_state symbol
      (vwap_push (vwap_window_size_ v) price quantity).

Definition get_vwap (symbol : string) (v : RollingVWAP) : option binary :=
  match vwap_symbols_ v !! symbol with
  | None => None
  | Some state =>
      match vwap_trades state with
      | [] => None
      | _ =>
          if binary_leb (vwap_total_volume state) binary_zero then None
          else Some (to_double (ld_div (vwap_total_notional state) (vwap_total_volume state)))
      end
  end.

Definition vwap_trade_count (symbol : string) (v : RollingVWAP) : nat :=
  match vwap_symbols_ v !! symbol with None => 0%nat | Some state => length (vwap_trades state) end.

Definition vwap_clear_symbol (symbol : string) : M RollingVWAP unit :=
  modify (λ v, set_vwap_symbols (delete symbol (vwap_symbols_ v)) v).

Definition vwap_clear : M RollingVWAP unit := modify (set_vwap_symbols ∅).

(** [TradeStatistics::add_trade] once the state of the symbol is at hand. *)
Definition statistics_push (price quantity : binary) (side : TradeAggressorSide)
    : M StatisticsSymbolState unit :=
  let* state := gets id in
  if st_trade_count state =? UINT64_MAX then throw (overflow_error "Trade count overflow")
  else
    modify (λ s, mkStatisticsState (st_trade_count s + 1) (ld_add (st_total_volume s) quantity)
      (ld_add (st_total_price s) price) (st_minimum_price s) (st_maximum_price s)
      (st_buy_volume s) (st_sell_volume s) (st_unknown_volume s)) ;;;
    modify (λ s,
      let '(minimum, maximum) :=
        if st_trade_count s =? 1 then (price, price)
        else
          (if binary_gtb (st_minimum_price s) price then price else st_minimum_price s,
           if binary_gtb price (st_maximum_price s) then price else st_maximum_price s) in
      mkStatisticsState (st_trade_count s) (st_total_volume s) (st_total_price s) minimum maximum
        (st_buy_volume s) (st_sell_volume s) (st_unknown_volume s)) ;;;
    modify (λ s,
      match side with
      | AggressorBuy =>
          mkStatisticsState (st_trade_count s) (st_total_volume s) (st_total_price s)
            (st_minimum_price s) (st_maximum_price s) (ld_add (st_buy_volume s) quantity)
            (st_sell_volume s) (st_unknown_volume s)
      | AggressorSell =>
          mkStatisticsState (st_trade_count s) (st_total_volume s) (st_total_price s)
            (st_minimum_price s) (st_maximum_price s) (st_buy_volume s)
            (ld_add (st_sell_volume s) quantity) (st_unknown_volume s)
      | AggressorUnknown =>
          mkStatisticsState (st_trade_count s) (st_total_volume s) (st_total_price s)
            (st_minimum_price s) (st_maximum_price s) (st_buy_volume s) (st_sell_volume s)
            (ld_add (st_unknown_volume s) quantity)
      end).

(** The check of the aggressor side has nothing to refuse in an [Inductive]. *)
Definition statistics_add_trade (symbol : string) (price quantity : double)
    (side : TradeAggressorSide) : M TradeStatistics unit :=
  if decide (symbol = "") then throw (invalid_argument "Trade symbol cannot be empty")
  else
    let* trade_price := require_finite_positive price "Trade price must be finite and positive" in
    let* trade_quantity :=
      require_finite_positive quantity "Trade quantity must be finite and positive" in
    at_entry stat_symbols_ set_stat_symbols new_statistics_state symbol
      (statistics_push trade_price trade_quantity side).

(** [static_cast<long double>] of a [std::size_t] is that of its value. *)
Definition get_statistics (symbol : string) (t : TradeStatistics) : option TradeStatisticsSnapshot :=
  match stat_symbols_ t !! symbol with
  | None => None
  | Some s =>
      if st_trade_count s =? 0 then None
      else Some (mkStatisticsSnapshot (st_trade_count s) (st_total_volume s)
        (ld_div (st_total_price s) (of_int64 (st_trade_count s)))
        (st_minimum_price s) (st_maximum_price s)
        (ld_div (st_total_volume s) (of_int64 (st_trade_count s)))
        (st_buy_volume s) (st_sell_volume s) (st_unknown_volume s))
  end.

Definition statistics_trade_count (symbol : string) (t : TradeStatistics) : Z :=
  match stat_symbols_ t !! symbol with None => 0 | Some s => st_trade_count s end.

Definition statistics_clear_symbol (symbol : string) : M TradeStatistics unit :=
  modify (λ t, set_stat_symbols (delete symbol (stat_symbols_ t)) t).

Definition statistics_clear : M TradeStatistics unit := modify (set_stat_symbols ∅).
End figures.

(** ** AnalyticsExecutionHandler

    The two objects the handler refers to, and the state of its callback. *)
Record TradeAnalytics (B : Type) : Type := mkTradeAnalytics {
  rolling_vwap_ : RollingVWAP;
  trade_statistics_ : TradeStatistics;
  apply_state_ : B
}.
Arguments mkTradeAnalytics {B}.
Arguments rolling_vwap_ {B}.
Arguments trade_statistics_ {B}.
Arguments apply_state_ {B}.

Definition set_rolling_vwap {B} (v : RollingVWAP) (a : TradeAnalytics B) : TradeAnalytics B :=
  mkTradeAnalytics v (trade_statistics_ a) (apply_state_ a).
Definition set_trade_statistics {B} (t : TradeStatistics) (a : TradeAnalytics B) : TradeAnalytics B :=
  mkTradeAnalytics (rolling_vwap_ a) t (apply_state_ a).
Definition set_apply_state {B} (b : B) (a : TradeAnalytics B) : TradeAnalytics B :=
  mkTradeAnalytics (rolling_vwap_ a) (trade_statistics_ a) b.

Section handler.
Context `{LongDoubleFormat} {B : Type} (before_apply : option (B → option exn * B)).

Definition aggressor (s : OrderSide) : TradeAggressorSide :=
  match s with Buy => AggressorBuy | Sell => AggressorSell end.

Definition apply_one_trade (symbol : string) (trade : Trade) : M (TradeAnalytics B) unit :=
  if (trade_price_ticks trade <=? 0) || (trade_quantity trade <=? 0)
  then throw (invalid_argument "Execution trade must have positive price and quantity")
  else
    let price := int64_to_double (trade_price_ticks trade) in
    let quantity := int64_to_double (trade_quantity trade) in
    let side := aggressor (aggressor_side trade) in
    zoom rolling_vwap_ set_rolling_vwap (vwap_add_trade symbol price quantity) ;;;
    zoom trade_statistics_ set_trade_statistics (statistics_add_trade symbol price quantity side).

Definition analytics_apply_execution (symbol : string) (result : ExecutionResult)
    : M (TradeAnalytics B) unit :=
  if decide (symbol = "") then throw (invalid_argument "Execution symbol must not be empty")
  else
    zoom apply_state_ set_apply_state (call_back before_apply) ;;;
    for_each (result_trades result) (apply_one_trade symbol).
End handler.
