(* ===== verification/TradeAnalyticsSpec.v ===== *)
(** * Figures over trades, by definition

    For integer prices and quantities the states of [RollingVWAP] and
    [TradeStatistics] are functions of the trades seen so far: sums over the last
    window, and totals and extremes over all of them.  The bounds say that the
    sums fit the significand of [long double]; the totals are then exact. *)
From S2P Require Import Prelude LongDouble Rounding Windows Orders TradeAnalytics.

Local Open Scope Z_scope.

(** A trade as the figures see it. *)
Record tick : Type := mkTick { tk_price : Z; tk_quantity : Z; tk_side : TradeAggressorSide }.

Definition tick_of (t : Trade) : tick :=
  mkTick (trade_price_ticks t) (trade_quantity t) (aggressor (aggressor_side t)).

Definition tick_value (t : tick) : Z := tk_price t * tk_quantity t.

#[export] Instance aggressor_eq_dec : EqDecision TradeAggressorSide.
Proof. solve_decision. Defined.

(** The sum of a figure over some trades. *)
Definition total (f : tick → Z) (l : list tick) : Z := sum_Z (map f l).

Definition aggressor_volume (s : TradeAggressorSide) (t : tick) : Z :=
  if decide (tk_side t = s) then tk_quantity t else 0.

Lemma total_snoc f l t : total f (l ++ [t]) = total f l + f t.
Proof. unfold total. rewrite map_app, sum_Z_app. simpl. lia. Qed.

Lemma total_bound f l b :
  Forall (λ t, 0 ≤ f t ≤ b) l → 0 ≤ total f l ≤ b * Z.of_nat (length l).
Proof. unfold total. induction 1; simpl length; simpl map; simpl sum_Z; lia. Qed.

(** The three sides make up the volume. *)
Lemma aggressor_volumes l :
  total (aggressor_volume AggressorBuy) l + total (aggressor_volume AggressorSell) l +
  total (aggressor_volume AggressorUnknown) l = total tk_quantity l.
Proof.
  unfold total. induction l as [|t l IH]; simpl; [done|]. unfold aggressor_volume at 1 3 5.
  destruct (tk_side t); simpl; lia.
Qed.

(** [m] is the least, or the greatest, of some prices. *)
Definition least (m : Z) (l : list tick) : Prop :=
  (∃ t, t ∈ l ∧ tk_price t = m) ∧ ∀ t, t ∈ l → m ≤ tk_price t.
Definition greatest (m : Z) (l : list tick) : Prop :=
  (∃ t, t ∈ l ∧ tk_price t = m) ∧ ∀ t, t ∈ l → tk_price t ≤ m.

Lemma least_one t : least (tk_price t) [t] ∧ greatest (tk_price t) [t].
Proof.
  split; (split; [exists t; split; [by left|done]|]); intros x ->%list_elem_of_singleton; lia.
Qed.

Lemma least_snoc m l t : least m l → least (Z.min m (tk_price t)) (l ++ [t]).
Proof.
  intros [(x & Hx & <-) Hl]. split.
  - destruct (Z.min_spec (tk_price x) (tk_price t)) as [[_ ->]|[_ ->]]; [exists x|exists t];
      (split; [apply elem_of_app|done]); [by left|right; by left].
  - intros y [Hy| ->%list_elem_of_singleton]%elem_of_app; [specialize (Hl y Hy); lia|lia].
Qed.

Lemma greatest_snoc m l t : greatest m l → greatest (Z.max m (tk_price t)) (l ++ [t]).
Proof.
  intros [(x & Hx & <-) Hl]. split.
  - destruct (Z.max_spec (tk_price x) (tk_price t)) as [[_ ->]|[_ ->]]; [exists t|exists x];
      (split; [apply elem_of_app|done]); [right; by left|by left].
  - intros y [Hy| ->%list_elem_of_singleton]%elem_of_app; [specialize (Hl y Hy); lia|lia].
Qed.

(** Trades with positive numbers up to [pmax] and [qmax]. *)
Definition tick_within (pmax qmax : Z) (t : tick) : Prop :=
  0 < tk_price t ≤ pmax ∧ 0 < tk_quantity t ≤ qmax.

(** ** Converted integers *)

Lemma int64_to_double_spec z what {S} (Q : binary → S → Prop) E s :
  0 < z < 2 ^ DBL_MANT_DIG → (∀ b, denotes b z → 0 < mant b → Q b s) →
  wp (require_finite_positive (int64_to_double z) what) Q E s.
Proof.
  intros Hz HQ. unfold require_finite_positive, int64_to_double.
  assert (Hsgn : Z.sgn (mant (round_ratio DBL_MANT_DIG z 1)) = 1)
    by (rewrite round_ratio_sgn by done; lia).
  rewrite binary_leb_zero. destruct (_ <=? 0) eqn:Hl; zb; [lia|]. apply wp_ret, HQ; [|lia].
  apply round_ratio_exact; [done|done|lia|lia].
Qed.

Section spec.
Context `{LongDoubleFormat}.
Local Abbreviation P := LDBL_MANT_DIG.

(** ** The rolling window *)

Definition vwap_tracks (w : nat) (h : list tick) (x : VWAPSymbolState) : Prop :=
  Forall2 (λ bb t, denotes (fst bb) (tk_price t) ∧ denotes (snd bb) (tk_quantity t))
    (vwap_trades x) (last_n w h) ∧
  denotes (vwap_total_notional x) (total tick_value (last_n w h)) ∧
  denotes (vwap_total_volume x) (total tk_quantity (last_n w h)).

(** One of the two running totals after a push. *)
Lemma window_total (w : nat) (b : Z) (f : tick → Z) (g : binary * binary → binary)
    (l : list (binary * binary)) h t x tot :
  (0 < w)%nat → Forall2 (λ y u, denotes (g y) (f u)) l (last_n w h) → denotes (g x) (f t) →
  denotes tot (total f (last_n w h)) → Forall (λ u, Z.abs (f u) ≤ b) (h ++ [t]) → b * Z.of_nat w < 2 ^ P →
  denotes (ld_add (match l with y :: _ => if (length l =? w)%nat then ld_sub tot (g y) else tot | [] => tot end)
    (g x)) (total f (last_n w (h ++ [t]))).
Proof.
  intros Hw Hl Hx Htot Hb Hfit. apply Forall_app in Hb as [Hb Ht]. inversion Ht as [|? ? Ht1 _]; subst.
  assert (Hl' : Forall2 denotes (map g l) (last_n w (map f h))).
  { rewrite last_n_map. clear -Hl. induction Hl; simpl; constructor; auto. }
  pose proof (push_total_denotes w b (g x) (f t) _ _ tot Hw Hl'
    ltac:(rewrite (Forall2_length _ _ _ Hl'), last_n_length; lia)
    ltac:(rewrite last_n_map; exact Htot) Hx
    ltac:(constructor; [done|apply Forall_last_n; by rewrite Forall_map]) Hfit) as Hp.
  rewrite push_window_last in Hp by done. unfold push_total in Hp. rewrite length_map in Hp.
  unfold total. rewrite <- last_n_map, map_app. by destruct l.
Qed.

Lemma wp_vwap_push w pmax qmax h t bp bq x :
  (0 < w)%nat → pmax * qmax * Z.of_nat w < 2 ^ P → qmax * Z.of_nat w < 2 ^ P →
  Forall (tick_within pmax qmax) (h ++ [t]) → vwap_tracks w h x →
  denotes bp (tk_price t) → denotes bq (tk_quantity t) →
  wp (vwap_push w bp bq) (λ _ x', vwap_tracks w (h ++ [t]) x') nothrow x.
Proof.
  intros Hw Hn Hv Hwi (Htr & Hnot & Hvol) Hp Hq. unfold vwap_push, id. do 2 wp_step.
  assert (Hpq : pmax * qmax < 2 ^ P).
  { apply Forall_app in Hwi as [_ Hwi]. inversion Hwi as [|? ? [? ?] _]; subst. nia. }
  assert (Hprod : ∀ bb u, tick_within pmax qmax u → denotes (fst bb) (tk_price u) → denotes (snd bb) (tk_quantity u) →
    denotes (ld_mul (fst bb) (snd bb)) (tick_value u)).
  { intros bb u [? ?] ? ?. apply denotes_mul; [done..|]. nia. }
  pose proof Hwi as Hwi'. apply Forall_app in Hwi' as [Hwh Hwt]. inversion Hwt as [|? ? Hwt1 _]; subst.
  assert (Hprods : Forall2 (λ y u, denotes (ld_mul (fst y) (snd y)) (tick_value u)) (vwap_trades x) (last_n w h)).
  { pose proof (Forall_last_n _ w _ Hwh) as Hw'. clear -Htr Hprod Hw'.
    induction Htr as [|bb u l l' [? ?] _ IH]; [constructor|]. inversion Hw'; subst. constructor; auto. }
  assert (Hvols : Forall2 (λ y u, denotes (snd y) (tk_quantity u)) (vwap_trades x) (last_n w h))
    by (eapply Forall2_impl; [exact Htr|]; by intros ? ? []).
  pose proof (window_total w (pmax * qmax) tick_value (λ y, ld_mul (fst y) (snd y)) _ h t (bp, bq) _ Hw Hprods
    (Hprod (bp, bq) t Hwt1 Hp Hq) Hnot
    ltac:(eapply Forall_impl; [exact Hwi|]; intros u [? ?]; unfold tick_value; nia) Hn) as H1.
  pose proof (window_total w qmax tk_quantity snd _ h t (bp, bq) _ Hw Hvols Hq Hvol
    ltac:(eapply Forall_impl; [exact Hwi|]; intros u [? ?]; lia) Hv) as H2.
  assert (H3 : Forall2 (λ bb u, denotes (fst bb) (tk_price u) ∧ denotes (snd bb) (tk_quantity u))
    (push_window w (bp, bq) (vwap_trades x)) (last_n w (h ++ [t]))).
  { rewrite <- push_window_last by done. by apply push_window_Forall2. }
  unfold push_window in H3. simpl in H1, H2. do 2 wp_step.
  - apply Nat.eqb_eq in Heqb.
    destruct (vwap_trades x) as [|[p0 q0] l]; [simpl in *; lia|]. apply wp_modify, wp_modify. by split_and!.
  - apply wp_ret, wp_modify. split_and!; [done| |]; by destruct (vwap_trades x).
Qed.

(** ** All trades *)

Record statistics_tracks (h : list tick) (x : StatisticsSymbolState) : Prop := mk_statistics_tracks {
  tr_count : st_trade_count x = Z.of_nat (length h);
  tr_volume : denotes (st_total_volume x) (total tk_quantity h);
  tr_prices : denotes (st_total_price x) (total tk_price h);
  tr_minimum : h ≠ [] → ∃ m, least m h ∧ denotes (st_minimum_price x) m;
  tr_maximum : h ≠ [] → ∃ m, greatest m h ∧ denotes (st_maximum_price x) m;
  tr_buy : denotes (st_buy_volume x) (total (aggressor_volume AggressorBuy) h);
  tr_sell : denotes (st_sell_volume x) (total (aggressor_volume AggressorSell) h);
  tr_unknown : denotes (st_unknown_volume x) (total (aggressor_volume AggressorUnknown) h)
}.

Lemma statistics_tracks_start : statistics_tracks [] new_statistics_state.
Proof. by split. Qed.

(** The totals of a figure after one more trade. *)
Lemma denotes_total (f : tick → Z) h t b tot x :
  Forall (λ u, 0 ≤ f u ≤ b) (h ++ [t]) → b * Z.of_nat (length (h ++ [t])) < 2 ^ P →
  denotes tot (total f h) → denotes x (f t) → denotes (ld_add tot x) (total f (h ++ [t])).
Proof.
  intros Hb Hfit Ht Hx. pose proof (total_bound f _ b Hb). rewrite total_snoc in *.
  apply denotes_add; [done|done|]. lia.
Qed.

Lemma binary_gtb_denotes x y n m : denotes x n → denotes y m → binary_gtb x y = (m <? n).
Proof.
  intros Hx Hy. unfold binary_gtb. set (k := Z.max 0 (Z.max (- expo x) (- expo y))).
  rewrite (binary_compare_scaled x y k), (denotes_at_scale x n k Hx), (denotes_at_scale y m k Hy) by lia.
  pose proof (pow2_pos k ltac:(lia)). rewrite <- Zmult_compare_compat_r by lia. symmetry.
  destruct (Z.compare_spec n m); [apply Z.ltb_ge|apply Z.ltb_ge|apply Z.ltb_lt]; lia.
Qed.

(** What the three assignments of the sources make of the state. *)
Lemma wp_statistics_push n pmax qmax h t bp bq x (E : exn → StatisticsSymbolState → Prop) :
  Z.of_nat (length h) < n → n ≤ UINT64_MAX → pmax * n < 2 ^ P → qmax * n < 2 ^ P →
  Forall (tick_within pmax qmax) (h ++ [t]) → statistics_tracks h x →
  denotes bp (tk_price t) → denotes bq (tk_quantity t) →
  wp (statistics_push bp bq (tk_side t)) (λ _ x', statistics_tracks (h ++ [t]) x') E x.
Proof.
  intros Hn HnU Hpn Hqn Hwi [Hc Hv Hp Hmin Hmax Hb Hs Hu] Hbp Hbq.
  unfold statistics_push, id. do 2 wp_step. rewrite Hc.
  destruct (Z.of_nat (length h) =? UINT64_MAX) eqn:Hov; zb; [lia|].
  assert (Hlen : Z.of_nat (length (h ++ [t])) ≤ n) by (rewrite length_app; simpl; lia).
  pose proof Hwi as Hwi'. apply Forall_app in Hwi' as [Hwh Hwt]. inversion Hwt as [|? ? [Htp Htq] _]; subst.
  assert (Hq : ∀ f b tot y, denotes tot (total f h) → denotes y (f t) →
    (∀ u, tick_within pmax qmax u → 0 ≤ f u ≤ b) → b * n < 2 ^ P →
    denotes (ld_add tot y) (total f (h ++ [t]))).
  { intros f b tot y Ht Hy Hf Hfit. pose proof (Hf t ltac:(by split)). apply (denotes_total f h t b); [|nia|done|done].
    eapply Forall_impl; [exact Hwi|]. auto. }
  assert (Hside : ∀ s tot, denotes tot (total (aggressor_volume s) h) →
    denotes (if decide (tk_side t = s) then ld_add tot bq else tot) (total (aggressor_volume s) (h ++ [t]))).
  { intros s tot Ht. destruct (decide (tk_side t = s)) as [He|He].
    - apply (Hq _ qmax); [done| | |done]; unfold aggressor_volume.
      + by rewrite decide_True by done.
      + intros u [? ?]. destruct (decide _); lia.
    - rewrite total_snoc. unfold aggressor_volume at 2. rewrite decide_False by done. by rewrite Z.add_0_r. }
  assert (Hcnt : Z.of_nat (length h) + 1 = Z.of_nat (length (h ++ [t]))) by (rewrite length_app; simpl; lia).
  assert (Hvol : denotes (ld_add (st_total_volume x) bq) (total tk_quantity (h ++ [t])))
    by (apply (Hq _ qmax); [done|done|intros u [? ?]; lia|done]).
  assert (Hpr : denotes (ld_add (st_total_price x) bp) (total tk_price (h ++ [t])))
    by (apply (Hq _ pmax); [done|done|intros u [? ?]; lia|done]).
  assert (Hext : ∃ lo hi, (if Z.of_nat (length h) + 1 =? 1 then (bp, bp) else
      (if binary_gtb (st_minimum_price x) bp then bp else st_minimum_price x,
       if binary_gtb bp (st_maximum_price x) then bp else st_maximum_price x)) = (lo, hi) ∧
    (∃ m, least m (h ++ [t]) ∧ denotes lo m) ∧ (∃ m, greatest m (h ++ [t]) ∧ denotes hi m)).
  { destruct (Z.of_nat (length h) + 1 =? 1) eqn:H1; zb.
    - destruct h; [|simpl in *; lia]. destruct (least_one t). exists bp, bp. split_and!; [done|by exists (tk_price t)..].
    - assert (Hne : h ≠ []) by (intros ->; done).
      destruct (Hmin Hne) as (lo & Hlo & Hdlo), (Hmax Hne) as (hi & Hhi & Hdhi).
      eexists _, _. split; [done|]. split.
      + exists (Z.min lo (tk_price t)). split; [by apply least_snoc|].
        rewrite (binary_gtb_denotes _ _ _ _ Hdlo Hbp).
        destruct (tk_price t <? lo) eqn:?; zb; [by rewrite Z.min_r by lia|by rewrite Z.min_l by lia].
      + exists (Z.max hi (tk_price t)). split; [by apply greatest_snoc|].
        rewrite (binary_gtb_denotes _ _ _ _ Hbp Hdhi).
        destruct (hi <? tk_price t) eqn:?; zb; [by rewrite Z.max_r by lia|by rewrite Z.max_l by lia]. }
  destruct Hext as (lo & hi & Hext & Hlo & Hhi).
  wp_step. apply wp_modify. wp_step. apply wp_modify. apply wp_modify. simpl. rewrite Hc, Hext.
  pose proof (Hside AggressorBuy _ Hb) as Hb'. pose proof (Hside AggressorSell _ Hs) as Hs'.
  pose proof (Hside AggressorUnknown _ Hu) as Hu'.
  destruct (tk_side t); simpl in *; split; simpl; done || lia || (intros _; done).
Qed.
End spec.

(** ** The handler *)

Section handler.
Context `{LongDoubleFormat} {B : Type} (before_apply : option (B → option exn * B)).
Local Abbreviation P := LDBL_MANT_DIG.

(** The window size is all that keeps the handler from undefined behaviour. *)
Definition has_window (a : TradeAnalytics B) : Prop := (0 < vwap_window_size_ (rolling_vwap_ a))%nat.

Lemma wp_require_finite {S} x what (Q : binary → S → Prop) (E : exn → S → Prop) s :
  (∀ b, Q b s) → (∀ e, E e s) → wp (require_finite_positive x what) Q E s.
Proof. intros HQ HE. unfold require_finite_positive. destruct x; [case_match|..]; (by apply wp_throw) || by apply wp_ret. Qed.

Lemma wp_apply_one_total symbol trade a :
  has_window a → wp (apply_one_trade symbol trade) (λ _, has_window) (λ _, has_window) a.
Proof.
  intros Ha. unfold apply_one_trade. wp_step; [by apply wp_throw|]. do 2 wp_step.
  unfold vwap_add_trade, id. destruct (decide (symbol = "")); [by apply wp_throw|].
  wp_step. apply wp_require_finite; [intros bp|done]. wp_step. apply wp_require_finite; [intros bq|done].
  do 2 wp_step. apply wp_at_entry. unfold vwap_push, id. do 4 wp_step.
  all: try (apply Nat.eqb_eq in Heqb0; destruct (vwap_trades _) as [|[]]; [simpl in Heqb0; unfold has_window in Ha; lia|];
    apply wp_modify).
  2: apply wp_ret.
  all: apply wp_modify; wp_step; unfold statistics_add_trade; destruct (decide (symbol = "")); [done|];
    wp_step; (apply wp_require_finite; [intros bp'|done]); wp_step; (apply wp_require_finite; [intros bq'|done]);
    apply wp_at_entry; unfold statistics_push, id; do 2 wp_step; wp_step; [by apply wp_throw|];
    wp_step; apply wp_modify; wp_step; apply wp_modify; apply wp_modify; done.
Qed.

(** Whatever the trades are, the handler returns or throws. *)
Lemma wp_analytics_total symbol r a :
  has_window a → wp (analytics_apply_execution before_apply symbol r) (λ _, has_window) (λ _, has_window) a.
Proof.
  intros Ha. unfold analytics_apply_execution. destruct (decide (symbol = "")); [by apply wp_throw|].
  do 2 wp_step. apply wp_call_back; [intros b|done].
  assert (Hb : has_window (set_apply_state b a)) by done. generalize (set_apply_state b a) as a', Hb.
  generalize (result_trades r) as ts. clear r Ha Hb. intros ts.
  induction ts as [|t ts IH]; intros a' Ha; simpl; [by apply wp_ret|].
  apply wp_bind. eapply wp_mono; [by apply wp_apply_one_total| |done]. auto.
Qed.

(** The figures of all symbols, from the trades of each. *)
Record analytics_tracks (w : nat) (hist : string → list tick) (a : TradeAnalytics B) : Prop :=
    mk_analytics_tracks {
  at_window : vwap_window_size_ (rolling_vwap_ a) = w;
  at_vwap symbol :
    vwap_tracks w (hist symbol) (default new_vwap_state (vwap_symbols_ (rolling_vwap_ a) !! symbol));
  at_statistics symbol :
    statistics_tracks (hist symbol)
      (default new_statistics_state (stat_symbols_ (trade_statistics_ a) !! symbol))
}.

Definition extend_ticks (symbol : string) (ts : list tick) (hist : string → list tick) : string → list tick :=
  λ y, if decide (y = symbol) then hist y ++ ts else hist y.

(** Bounds under which the figures are exact: prices and quantities up to [pmax]
    and [qmax], windows of [w] and no more than [n] trades of a symbol. *)
Record exact_bounds (w : nat) (pmax qmax n : Z) : Prop := mk_exact_bounds {
  eb_window : (0 < w)%nat;
  eb_price : pmax < 2 ^ DBL_MANT_DIG;
  eb_quantity : qmax < 2 ^ DBL_MANT_DIG;
  eb_notional : pmax * qmax * Z.of_nat w < 2 ^ P;
  eb_volume : qmax * Z.of_nat w < 2 ^ P;
  eb_prices : pmax * n < 2 ^ P;
  eb_volumes : qmax * n < 2 ^ P;
  eb_count : n ≤ UINT64_MAX
}.

Context (w : nat) (pmax qmax n : Z).
Hypothesis Hbounds : exact_bounds w pmax qmax n.

Definition ticks_within (hist : string → list tick) : Prop :=
  ∀ symbol, Forall (tick_within pmax qmax) (hist symbol).

Lemma wp_apply_one_exact symbol trade hist a (E : exn → TradeAnalytics B → Prop) :
  symbol ≠ "" → analytics_tracks w hist a → ticks_within hist → tick_within pmax qmax (tick_of trade) →
  Z.of_nat (length (hist symbol)) < n →
  wp (apply_one_trade symbol trade)
    (λ _, analytics_tracks w (extend_ticks symbol [tick_of trade] hist)) E a.
Proof.
  intros Hsym [Hwin Hv Hs] Hh Ht Hn. destruct Hbounds as [B1 B2 B3 B4 B5 B6 B7 B8].
  destruct Ht as [Htp Htq]. simpl in Htp, Htq. unfold apply_one_trade.
  rewrite (proj2 (Z.leb_gt (trade_price_ticks trade) 0)), (proj2 (Z.leb_gt (trade_quantity trade) 0)) by lia.
  simpl orb. cbn iota. unfold vwap_add_trade, statistics_add_trade, id. rewrite decide_False by done.
  do 3 wp_step. apply int64_to_double_spec; [lia|]. intros bp Hbp _. wp_step.
  apply int64_to_double_spec; [lia|]. intros bq Hbq _. do 2 wp_step. rewrite Hwin.
  assert (Hall : Forall (tick_within pmax qmax) (hist symbol ++ [tick_of trade]))
    by (apply Forall_app; split; [done|constructor; [by split|constructor]]).
  apply wp_at_entry. eapply wp_mono; [eapply (wp_vwap_push w pmax qmax _ (tick_of trade)); [done..|exact Hall|apply Hv|done|done]| |done].
  intros [] x' Hx'. wp_step. rewrite decide_False by done. wp_step. apply int64_to_double_spec; [lia|]. intros bp' Hbp' _. wp_step.
  apply int64_to_double_spec; [lia|]. intros bq' Hbq' _. apply wp_at_entry.
  eapply wp_mono; [eapply (wp_statistics_push n pmax qmax _ (tick_of trade) _ _ _ nothrow); [done..|exact Hall|apply Hs|done|done]| |done].
  intros [] y' Hy'. unfold extend_ticks. split; simpl; [done| |]; intros symbol';
    (destruct (decide (symbol' = symbol)) as [->|Hne]; [by rewrite lookup_insert_eq|by rewrite lookup_insert_ne]).
Qed.

(** The trades of an execution enter the figures one after the other; only the
    callback can stop them, and then none has. *)
Lemma wp_analytics_exact symbol r hist a (E : exn → TradeAnalytics B → Prop) :
  symbol ≠ "" → analytics_tracks w hist a → ticks_within hist →
  Forall (tick_within pmax qmax) (map tick_of (result_trades r)) →
  Z.of_nat (length (hist symbol) + length (result_trades r)) ≤ n →
  (∀ ex a', before_apply ≠ None → analytics_tracks w hist a' → E ex a') →
  wp (analytics_apply_execution before_apply symbol r)
    (λ _, analytics_tracks w (extend_ticks symbol (map tick_of (result_trades r)) hist)) E a.
Proof.
  intros Hsym Ha Hh Hts Hn HE. unfold analytics_apply_execution. rewrite decide_False by done. do 2 wp_step.
  assert (Hst : ∀ b, analytics_tracks w hist (set_apply_state b a)) by (intros b; by destruct Ha).
  assert (Hloop : ∀ a', analytics_tracks w hist a' → wp (for_each (result_trades r) (apply_one_trade symbol))
    (λ _, analytics_tracks w (extend_ticks symbol (map tick_of (result_trades r)) hist)) E a').
  { clear HE Hst Ha a. revert Hts Hn. generalize (result_trades r) as ts. clear r.
    intros ts. revert hist Hh. induction ts as [|t ts IH]; intros hist Hh Hts Hn a' Ha; simpl.
    - apply wp_ret. destruct Ha as [? Hv Hs]. unfold extend_ticks. split; [done| |]; intros y;
        (destruct (decide (y = symbol)); [rewrite app_nil_r|]); auto.
    - simpl in Hts, Hn. inversion Hts as [|? ? Ht Hts']; subst. apply wp_bind.
      eapply wp_mono; [apply wp_apply_one_exact; [done..|lia]| |by intros].
      intros [] a1 Ha1. set (hist1 := extend_ticks symbol [tick_of t] hist).
      assert (Heq : ∀ y, extend_ticks symbol (map tick_of ts) hist1 y =
        extend_ticks symbol (tick_of t :: map tick_of ts) hist y).
      { intros y. unfold hist1, extend_ticks. destruct (decide (y = symbol)); [|done]. by rewrite <- app_assoc. }
      assert (Hh1 : ticks_within hist1).
      { intros y. unfold hist1, extend_ticks. destruct (decide (y = symbol)); [|done].
        apply Forall_app; split; [done|constructor; [done|constructor]]. }
      eapply wp_mono; [apply (IH hist1); [done|done| |done]| |done].
      + unfold hist1, extend_ticks. rewrite decide_True by done. rewrite length_app. simpl. lia.
      + intros [] a2 [? Hv Hs]. split; [done| |]; intros y; rewrite <- Heq; auto. }
  unfold call_back. destruct before_apply as [f|]; [|by apply Hloop, Hst].
  unfold wp at 1. destruct (f (apply_state_ a)) as [[ex|] b]; [by apply HE|by apply Hloop].
Qed.
End handler.

(** ** What the figures show *)

Section shown.
Context `{LongDoubleFormat} {B : Type}.
Local Abbreviation P := LDBL_MANT_DIG.

Lemma total_weighted l lo hi :
  Forall (λ t, lo ≤ tk_price t ≤ hi ∧ 0 < tk_quantity t) l →
  lo * total tk_quantity l ≤ total tick_value l ≤ hi * total tk_quantity l.
Proof.
  unfold total, tick_value. induction 1 as [|t l [? ?] _ IH]; simpl; [lia|]. nia.
Qed.

Lemma total_quantity_pos l : Forall (λ t, 0 < tk_quantity t) l → l ≠ [] → 0 < total tk_quantity l.
Proof.
  unfold total. intros Hl. induction Hl as [|t l Ht Hl IH]; [done|]. intros _. simpl.
  destruct l; [simpl; lia|]. specialize (IH ltac:(done)). lia.
Qed.

(** The window price: the quotient of the exact sums, between the lowest and the
    highest price of the window. *)
Record vwap_shown (l : list tick) (v : binary) : Prop := mk_vwap_shown {
  vs_quotient : ∃ notional volume, denotes notional (total tick_value l) ∧
    denotes volume (total tk_quantity l) ∧ v = to_double (ld_div notional volume);
  vs_lower lo : least lo l → at_least v lo;
  vs_upper hi : greatest hi l → at_most v hi
}.

Lemma vwap_figure w pmax qmax h x :
  (0 < w)%nat → pmax < 2 ^ DBL_MANT_DIG → Forall (tick_within pmax qmax) h → h ≠ [] → vwap_tracks w h x →
  ∃ v, vwap_shown (last_n w h) v ∧
    match vwap_trades x with
    | [] => None
    | _ => if binary_leb (vwap_total_volume x) binary_zero then None
           else Some (to_double (ld_div (vwap_total_notional x) (vwap_total_volume x)))
    end = Some v.
Proof.
  intros Hw Hp Hh Hne (Htr & Hn & Hv).
  assert (Hl : last_n w h ≠ []) by (intros Hl; apply Hne; by eapply last_n_nil).
  pose proof (Forall_last_n _ w _ Hh) as Hwin.
  pose proof (total_quantity_pos (last_n w h) ltac:(eapply Forall_impl; [exact Hwin|]; intros ? [? ?]; lia) Hl) as Hpos.
  assert (Hden : 2 ^ DBL_MANT_DIG ≤ 2 ^ P) by (apply Z.pow_le_mono_r; [done|]; apply LDBL_MANT_DIG_min).
  exists (to_double (ld_div (vwap_total_notional x) (vwap_total_volume x))). split.
  - assert (Hone : ∀ m, (∃ t, t ∈ last_n w h ∧ tk_price t = m) → 0 < m ≤ pmax).
    { intros m (t & Ht & <-). rewrite Forall_forall in Hwin. by destruct (Hwin t Ht). }
    split; [by eexists _, _| |]; intros m [Hex Hm]; pose proof (Hone m Hex).
    + apply to_double_at_least; [lia|]. eapply div_at_least; [done|done|done|lia|].
      apply (total_weighted _ m pmax). apply Forall_forall. intros t Ht. rewrite Forall_forall in Hwin.
      destruct (Hwin t Ht). specialize (Hm t Ht). lia.
    + apply to_double_at_most; [lia|]. eapply div_at_most; [done|done|done|lia|].
      apply (total_weighted _ 0 m). apply Forall_forall. intros t Ht. rewrite Forall_forall in Hwin.
      destruct (Hwin t Ht). specialize (Hm t Ht). lia.
  - destruct (vwap_trades x); [inversion Htr; congruence|].
    rewrite binary_leb_zero. destruct (_ <=? 0) eqn:Hz; zb; [|done]. exfalso.
    unfold denotes in Hv. destruct (0 <=? expo (vwap_total_volume x)) eqn:He; zb.
    + pose proof (pow2_pos _ He). nia.
    + pose proof (pow2_pos (- expo (vwap_total_volume x)) ltac:(lia)). nia.
Qed.

(** The totals of a symbol. *)
Record statistics_shown (l : list tick) (s : TradeStatisticsSnapshot) : Prop := mk_statistics_shown {
  ss_count : snap_trade_count s = Z.of_nat (length l);
  ss_volume : denotes (snap_total_volume s) (total tk_quantity l);
  ss_buy : denotes (snap_buy_volume s) (total (aggressor_volume AggressorBuy) l);
  ss_sell : denotes (snap_sell_volume s) (total (aggressor_volume AggressorSell) l);
  ss_unknown : denotes (snap_unknown_volume s) (total (aggressor_volume AggressorUnknown) l);
  ss_minimum : ∃ m, least m l ∧ denotes (snap_minimum_trade_price s) m ∧
    at_least (snap_average_trade_price s) m;
  ss_maximum : ∃ m, greatest m l ∧ denotes (snap_maximum_trade_price s) m ∧
    at_most (snap_average_trade_price s) m;
  ss_average : ∃ prices count, denotes prices (total tk_price l) ∧
    denotes count (Z.of_nat (length l)) ∧ snap_average_trade_price s = ld_div prices count;
  ss_size : ∃ volume count, denotes volume (total tk_quantity l) ∧
    denotes count (Z.of_nat (length l)) ∧ snap_average_trade_size s = ld_div volume count
}.

Lemma total_price_bounds l lo hi :
  (∀ t, t ∈ l → lo ≤ tk_price t ≤ hi) →
  lo * Z.of_nat (length l) ≤ total tk_price l ≤ hi * Z.of_nat (length l).
Proof.
  unfold total. induction l as [|t l IH]; intros Hl; simpl length; simpl map; simpl sum_Z; [lia|].
  specialize (IH ltac:(intros; apply Hl; by right)). specialize (Hl t ltac:(by left)). lia.
Qed.

Lemma statistics_figure n pmax qmax h x :
  Forall (tick_within pmax qmax) h → pmax * n < 2 ^ P → Z.of_nat (length h) ≤ n → h ≠ [] →
  statistics_tracks h x →
  statistics_shown h (mkStatisticsSnapshot (st_trade_count x) (st_total_volume x)
    (ld_div (st_total_price x) (of_int64 (st_trade_count x))) (st_minimum_price x) (st_maximum_price x)
    (ld_div (st_total_volume x) (of_int64 (st_trade_count x)))
    (st_buy_volume x) (st_sell_volume x) (st_unknown_volume x)).
Proof.
  intros Hh Hpn Hn Hne [Hc Hv Hp Hmin Hmax Hb Hs Hu].
  destruct (Hmin Hne) as (lo & Hlo & Hdlo), (Hmax Hne) as (hi & Hhi & Hdhi).
  assert (Hlen : 0 < Z.of_nat (length h)) by (destruct h; simpl; [done|lia]).
  assert (Hone : ∀ m, (∃ t, t ∈ h ∧ tk_price t = m) → 0 < m ≤ pmax).
  { intros m (t & Ht & <-). rewrite Forall_forall in Hh. by destruct (Hh t Ht). }
  pose proof (Hone lo (proj1 Hlo)). pose proof (Hone hi (proj1 Hhi)).
  assert (Hd : denotes (of_int64 (st_trade_count x)) (Z.of_nat (length h)))
    by (rewrite Hc; apply denotes_of_int64; nia).
  pose proof (total_price_bounds h lo hi) as Hb'.
  specialize (Hb' ltac:(intros t Ht; split; [by apply Hlo|by apply Hhi])).
  split; simpl; try done; try (by eexists _, _).
  - exists lo. split_and!; [done..|]. eapply div_at_least; [done..| |lia]. nia.
  - exists hi. split_and!; [done..|]. eapply div_at_most; [done..| |lia]. nia.
Qed.

(** Both figures of a symbol with trades. *)
Lemma analytics_figures w pmax qmax n hist (a : TradeAnalytics B) symbol :
  exact_bounds w pmax qmax n → ticks_within pmax qmax hist → analytics_tracks w hist a →
  hist symbol ≠ [] → Z.of_nat (length (hist symbol)) ≤ n →
  (∃ v, get_vwap symbol (rolling_vwap_ a) = Some v ∧ vwap_shown (last_n w (hist symbol)) v) ∧
  (∃ s, get_statistics symbol (trade_statistics_ a) = Some s ∧ statistics_shown (hist symbol) s).
Proof.
  intros Hb Hh [_ Hv Hs] Hne Hn. destruct Hb as [B1 B2 _ _ _ B6 _ _]. split.
  - destruct (vwap_figure w pmax qmax _ _ B1 B2 (Hh symbol) Hne (Hv symbol)) as (v & Hshown & Hv').
    exists v. split; [|done]. unfold get_vwap. by destruct (vwap_symbols_ _ !! symbol).
  - pose proof (statistics_figure n pmax qmax _ _ (Hh symbol) B6 Hn Hne (Hs symbol)) as Hshown.
    unfold get_statistics. pose proof (tr_count _ _ (Hs symbol)) as Hc.
    destruct (stat_symbols_ _ !! symbol) as [x|]; simpl in *.
    + eexists. split; [|exact Hshown]. rewrite (proj2 (Z.eqb_neq (st_trade_count x) 0)); [done|].
      destruct (hist symbol); [done|]. rewrite Hc. simpl. lia.
    + destruct (hist symbol); [done|]. simpl in Hc. lia.
Qed.
End shown.
