(* ===== verification/OrderBook.v ===== *)
(** * OrderBook

    The aggregated book of [include/order_book.hpp] and [src/order_book.cpp]:
    two vectors of price levels, best price first.  The member functions hold
    the book's own lock for their whole body, so each of them is one step here;
    the lock itself is not part of the state.  Iterators into a vector are
    indices. *)
From S2P Require Import Prelude LongDouble.

Local Open Scope Z_scope.

Record PriceLevel : Type := mkLevel { level_price : Z; level_quantity : Z }.

#[export] Instance PriceLevel_eq_dec : EqDecision PriceLevel.
Proof. solve_decision. Defined.

Record OrderBook : Type := mkBook { bids_ : list PriceLevel; asks_ : list PriceLevel }.

Definition empty_book : OrderBook := mkBook [] [].

Definition set_bids (l : list PriceLevel) (b : OrderBook) : OrderBook := mkBook l (asks_ b).
Definition set_asks (l : list PriceLevel) (b : OrderBook) : OrderBook := mkBook (bids_ b) l.

(** ** Validation *)

Definition validate_level {S} (price quantity : Z) (side_name : string) : M S unit :=
  if price <? 0
  then throw (invalid_argument (side_name +:+ " price cannot be negative."))
  else if quantity <? 0
  then throw (invalid_argument (side_name +:+ " quantity cannot be negative."))
  else ret tt.

Definition validate_adjustment_price {S} (price : Z) (side_name : string) : M S unit :=
  if price <? 0
  then throw (invalid_argument (side_name +:+ " price cannot be negative."))
  else ret tt.

(** ** Normalising a snapshot

    The [std::map] keyed by price is the list of its pairs in iteration order;
    [before] is its comparator ([std::greater<>] for bids, [std::less<>] for
    asks).  [map_slot] is [operator[]], which creates a zero entry. *)

Fixpoint map_slot (before : Z → Z → bool) (p : Z) (m : list PriceLevel) : list PriceLevel :=
  match m with
  | [] => [mkLevel p 0]
  | l :: r =>
      if before (level_price l) p then l :: map_slot before p r
      else if before p (level_price l) then mkLevel p 0 :: l :: r
      else l :: r
  end.

(** The value at a key, and the assignment through the reference. *)
Fixpoint map_value (p : Z) (m : list PriceLevel) : Z :=
  match m with
  | [] => 0
  | l :: r => if level_price l =? p then level_quantity l else map_value p r
  end.

Fixpoint map_assign (p q : Z) (m : list PriceLevel) : list PriceLevel :=
  match m with
  | [] => []
  | l :: r => if level_price l =? p then mkLevel p q :: r else l :: map_assign p q r
  end.

(** One round of the loop over the levels. *)
Definition aggregate_level (before : Z → Z → bool) (side_name duplicate : string)
    (level : PriceLevel) : M (list PriceLevel) unit :=
  validate_level (level_price level) (level_quantity level) side_name ;;;
  if level_quantity level =? 0 then ret tt
  else
    modify (map_slot before (level_price level)) ;;;
    let* quantity := gets (map_value (level_price level)) in
    let* room := sub64 INT64_MAX quantity in
    if level_quantity level >? room then throw (overflow_error duplicate)
    else
      let* sum := add64 quantity (level_quantity level) in
      modify (map_assign (level_price level) sum).

Definition normalize_levels {S} (before : Z → Z → bool) (side_name duplicate : string)
    (levels : list PriceLevel) : M S (list PriceLevel) :=
  run_local [] (
    for_each levels (aggregate_level before side_name duplicate) ;;;
    gets id).

Definition normalize_bids {S} (levels : list PriceLevel) : M S (list PriceLevel) :=
  normalize_levels Z.gtb "Bid" "Duplicate bid quantity overflow." levels.

Definition normalize_asks {S} (levels : list PriceLevel) : M S (list PriceLevel) :=
  normalize_levels Z.ltb "Ask" "Duplicate ask quantity overflow." levels.

(** ** Vectors of levels *)

(** [std::lower_bound] with [level.price_ticks `before` target]: the partition
    point of the range, which its precondition (the range is partitioned)
    makes unique. *)
Fixpoint lower_bound (before : Z → Z → bool) (levels : list PriceLevel) (target : Z) : nat :=
  match levels with
  | [] => O
  | l :: r => if before (level_price l) target then S (lower_bound before r target) else O
  end.

(** [vector::insert] before an iterator; [vector::erase] is [delete]. *)
Definition vector_insert {A} (i : nat) (x : A) (l : list A) : list A :=
  take i l ++ x :: drop i l.

(** [iterator != levels.end() && iterator->price_ticks == price_ticks]. *)
Definition level_at (levels : list PriceLevel) (i : nat) (price : Z) : option PriceLevel :=
  match levels !! i with
  | Some l => if level_price l =? price then Some l else None
  | None => None
  end.

(** [update_bid_levels] and [update_ask_levels] differ in the comparator and
    the name in the messages. *)
Definition update_levels (before : Z → Z → bool) (side_name : string) (price quantity : Z)
    : M (list PriceLevel) unit :=
  validate_level price quantity side_name ;;;
  let* levels := gets id in
  let iterator := lower_bound before levels price in
  match level_at levels iterator price with
  | Some level =>
      if quantity =? 0 then modify (delete iterator)
      else modify <[iterator := mkLevel (level_price level) quantity]>
  | None =>
      if quantity =? 0 then ret tt
      else modify (vector_insert iterator (mkLevel price quantity))
  end.

Definition update_bid_levels (price quantity : Z) : M (list PriceLevel) unit :=
  update_levels Z.gtb "Bid" price quantity.

Definition update_ask_levels (price quantity : Z) : M (list PriceLevel) unit :=
  update_levels Z.ltb "Ask" price quantity.

Definition negative_quantity (side_name : string) : exn :=
  invalid_argument (side_name +:+ " quantity adjustment would make quantity negative.").

Definition adjust_levels (price quantity_delta : Z) (side_name : string)
    (comparator : Z → Z → bool) : M (list PriceLevel) unit :=
  validate_adjustment_price price side_name ;;;
  let* levels := gets id in
  let iterator := lower_bound comparator levels price in
  match level_at levels iterator price with
  | None =>
      if quantity_delta <? 0 then throw (negative_quantity side_name)
      else if quantity_delta =? 0 then ret tt
      else modify (vector_insert iterator (mkLevel price quantity_delta))
  | Some level =>
      if quantity_delta =? 0 then ret tt
      else if quantity_delta >? 0 then
        let* room := sub64 INT64_MAX quantity_delta in
        if level_quantity level >? room
        then throw (overflow_error (side_name +:+ " quantity adjustment overflow."))
        else
          let* sum := add64 (level_quantity level) quantity_delta in
          modify <[iterator := mkLevel (level_price level) sum]>
      else if quantity_delta =? INT64_MIN then throw (negative_quantity side_name)
      else
        let* quantity_to_remove := neg64 quantity_delta in
        if quantity_to_remove >? level_quantity level
        then throw (negative_quantity side_name)
        else if quantity_to_remove =? level_quantity level
        then modify (delete iterator)
        else
          let* rest := sub64 (level_quantity level) quantity_to_remove in
          modify <[iterator := mkLevel (level_price level) rest]>
  end.

(** ** Figures over a vector of levels *)

Fixpoint calculate_depth_from {S} (depth : Z) (levels : list PriceLevel) : M S Z :=
  match levels with
  | [] => ret depth
  | level :: r =>
      let* room := sub64 INT64_MAX depth in
      if level_quantity level >? room
      then throw (overflow_error "Order-book depth overflow.")
      else
        let* depth' := add64 depth (level_quantity level) in
        calculate_depth_from depth' r
  end.

Definition calculate_depth {S} (levels : list PriceLevel) : M S Z :=
  calculate_depth_from 0 levels.

Section floating.
Context `{LongDoubleFormat}.

Definition sum_quantities (levels : list PriceLevel) : binary :=
  foldl (λ acc l, ld_add acc (of_int64 (level_quantity l))) binary_zero levels.

Definition calculate_imbalance (bids asks : list PriceLevel) : option binary :=
  let bid_depth := sum_quantities bids in
  let ask_depth := sum_quantities asks in
  let total_depth := ld_add bid_depth ask_depth in
  if binary_eqb total_depth binary_zero then None
  else Some (to_double (ld_div (ld_sub bid_depth ask_depth) total_depth)).

Definition sum_weighted (levels : list PriceLevel) : binary :=
  foldl (λ acc l, ld_add acc
           (ld_mul (of_int64 (level_price l)) (of_int64 (level_quantity l))))
    binary_zero levels.

Definition calculate_vwap_ticks {S} (levels : list PriceLevel) : M S (option Z) :=
  match levels with
  | [] => ret None
  | _ =>
      let weighted_price_total := sum_weighted levels in
      let quantity_total := sum_quantities levels in
      if binary_eqb quantity_total binary_zero then ret None
      else
        let vwap := ld_div weighted_price_total quantity_total in
        if binary_gtb vwap (of_int64 INT64_MAX) then ret None
        else let* v := to_int64 vwap in ret (Some v)
  end.
End floating.

(** ** Member functions *)

Definition in_bids {A} (m : M (list PriceLevel) A) : M OrderBook A := zoom bids_ set_bids m.
Definition in_asks {A} (m : M (list PriceLevel) A) : M OrderBook A := zoom asks_ set_asks m.

(** The copy constructor and the assignment of another book. *)
Definition copy_book (other : OrderBook) : OrderBook := mkBook (bids_ other) (asks_ other).
Definition assign_book (other : OrderBook) : M OrderBook unit :=
  modify (λ _, mkBook (bids_ other) (asks_ other)).

Definition replace_snapshot (bids asks : list PriceLevel) : M OrderBook unit :=
  let* normalized_bids := normalize_bids bids in
  let* normalized_asks := normalize_asks asks in
  modify (λ _, mkBook normalized_bids normalized_asks).

Definition replace_normalized_snapshot (bids asks : list PriceLevel) : M OrderBook unit :=
  modify (λ _, mkBook bids asks).

Definition update_bid (price quantity : Z) : M OrderBook unit :=
  in_bids (update_bid_levels price quantity).

Definition update_ask (price quantity : Z) : M OrderBook unit :=
  in_asks (update_ask_levels price quantity).

Definition adjust_bid (price quantity_delta : Z) : M OrderBook unit :=
  in_bids (adjust_levels price quantity_delta "Bid" Z.gtb).

Definition adjust_ask (price quantity_delta : Z) : M OrderBook unit :=
  in_asks (adjust_levels price quantity_delta "Ask" Z.ltb).

Definition bids (b : OrderBook) : list PriceLevel := bids_ b.
Definition asks (b : OrderBook) : list PriceLevel := asks_ b.

Definition best_bid (b : OrderBook) : option PriceLevel := head (bids_ b).
Definition best_ask (b : OrderBook) : option PriceLevel := head (asks_ b).

Definition spread_ticks : M OrderBook (option Z) :=
  let* b := gets id in
  match bids_ b, asks_ b with
  | bid :: _, ask :: _ =>
      let* d := sub64 (level_price ask) (level_price bid) in ret (Some d)
  | _, _ => ret None
  end.

Definition mid_price_ticks : M OrderBook (option Z) :=
  let* b := gets id in
  match bids_ b, asks_ b with
  | bid :: _, ask :: _ =>
      let* d := sub64 (level_price ask) (level_price bid) in
      let* mid := add64 (level_price bid) (Z.quot d 2) in
      ret (Some mid)
  | _, _ => ret None
  end.

(** [catch (const std::overflow_error&)] around a depth. *)
Definition depth_or_max {S} (m : M S Z) : M S Z :=
  try_catch m (λ e,
    match e with overflow_error _ => ret INT64_MAX | _ => throw e end).

Definition bid_depth : M OrderBook Z :=
  let* b := gets id in depth_or_max (calculate_depth (bids_ b)).

Definition ask_depth : M OrderBook Z :=
  let* b := gets id in depth_or_max (calculate_depth (asks_ b)).

Definition total_depth : M OrderBook Z :=
  let* b := gets id in
  depth_or_max (
    let* bid_total := calculate_depth (bids_ b) in
    let* ask_total := calculate_depth (asks_ b) in
    let* room := sub64 INT64_MAX ask_total in
    if bid_total >? room then ret INT64_MAX else add64 bid_total ask_total).

Section figures.
Context `{LongDoubleFormat}.

Definition order_book_imbalance (b : OrderBook) : option binary :=
  calculate_imbalance (bids_ b) (asks_ b).

Definition bid_vwap_ticks : M OrderBook (option Z) :=
  let* b := gets id in calculate_vwap_ticks (bids_ b).

Definition ask_vwap_ticks : M OrderBook (option Z) :=
  let* b := gets id in calculate_vwap_ticks (asks_ b).

Definition microprice_ticks : M OrderBook (option Z) :=
  let* b := gets id in
  match bids_ b, asks_ b with
  | bid :: _, ask :: _ =>
      let bid_quantity := of_int64 (level_quantity bid) in
      let ask_quantity := of_int64 (level_quantity ask) in
      let total_quantity := ld_add bid_quantity ask_quantity in
      if binary_eqb total_quantity binary_zero then ret None
      else
        let weighted_price :=
          ld_add (ld_mul (of_int64 (level_price bid)) ask_quantity)
                 (ld_mul (of_int64 (level_price ask)) bid_quantity) in
        let* v := to_int64 (ld_div weighted_price total_quantity) in
        ret (Some v)
  | _, _ => ret None
  end.
End figures.

Definition empty (b : OrderBook) : bool :=
  match bids_ b, asks_ b with [], [] => true | _, _ => false end.
