(* ===== verification/DepthFigures.v ===== *)
(** * Figures over the levels of a book

    [include/depth_analytics.hpp], [include/depth_weighted_pricing.hpp] and
    [include/liquidity_concentration.hpp]: cumulative quantities of the best
    levels, quantity-weighted prices, and how concentrated the quantity is. *)
From S2P Require Import Prelude LongDouble OrderBook.

Local Open Scope Z_scope.

(** ** DepthAnalytics *)

Record DepthLevel : Type := mkDepthLevel {
  depth_price_ticks : Z;
  depth_quantity : Z;
  cumulative_quantity : binary
}.

Record DepthSummary : Type := mkDepthSummary {
  ds_requested_levels : nat;
  ds_bid_levels : nat;
  ds_ask_levels : nat;
  ds_bid_depth : binary;
  ds_ask_depth : binary;
  ds_total_depth : binary;
  ds_imbalance : option binary;
  ds_bids : list DepthLevel;
  ds_asks : list DepthLevel
}.

(** ** DepthWeightedPricing *)

Record DepthWeightedPriceSummary : Type := mkWeightedSummary {
  dw_requested_levels : nat;
  dw_bid_levels : nat;
  dw_ask_levels : nat;
  dw_bid_depth : binary;
  dw_ask_depth : binary;
  weighted_bid_price_ticks : option binary;
  weighted_ask_price_ticks : option binary;
  weighted_mid_price_ticks : option binary
}.

(** ** LiquidityConcentration *)

Record LiquidityConcentrationSummary : Type := mkConcentrationSummary {
  lc_requested_levels : nat;
  lc_bid_levels : nat;
  lc_ask_levels : nat;
  bid_best_level_share : option binary;
  ask_best_level_share : option binary;
  bid_hhi : option binary;
  ask_hhi : option binary
}.

Section figures.
Context `{LongDoubleFormat} {S : Type}.

(** The loop of [build_levels] over the levels it visits. *)
Fixpoint accumulate_levels (cumulative : binary) (levels : list PriceLevel) : list DepthLevel :=
  match levels with
  | [] => []
  | level :: rest =>
      let cumulative := ld_add cumulative (of_int64 (level_quantity level)) in
      mkDepthLevel (level_price level) (level_quantity level) cumulative ::
      accumulate_levels cumulative rest
  end.

Definition build_levels (levels : list PriceLevel) (max_levels : nat) : list DepthLevel :=
  let count := Nat.min (length levels) max_levels in
  accumulate_levels binary_zero (take count levels).

(** [levels.empty() ? 0 : levels.back().cumulative_quantity]. *)
Definition last_cumulative (levels : list DepthLevel) : binary :=
  match last levels with None => binary_zero | Some l => cumulative_quantity l end.

Definition depth_analyze (order_book : OrderBook) (max_levels : nat) : M S DepthSummary :=
  if (max_levels =? 0)%nat then throw (invalid_argument "Depth level count must be positive")
  else
    let snapshot := copy_book order_book in
    let bids := build_levels (bids_ snapshot) max_levels in
    let asks := build_levels (asks_ snapshot) max_levels in
    let bid_depth := last_cumulative bids in
    let ask_depth := last_cumulative asks in
    let total_depth := ld_add bid_depth ask_depth in
    ret (mkDepthSummary max_levels (length bids) (length asks) bid_depth ask_depth total_depth
      (if binary_gtb total_depth binary_zero
       then Some (ld_div (ld_sub bid_depth ask_depth) total_depth) else None)
      bids asks).

(** [levels.empty() || total_depth <= 0.0L]. *)
Definition no_depth (levels : list DepthLevel) (total_depth : binary) : bool :=
  match levels with [] => true | _ => binary_leb total_depth binary_zero end.

Definition quantity_share (total_depth : binary) (level : DepthLevel) : binary :=
  ld_div (of_int64 (depth_quantity level)) total_depth.

Definition calculate_weighted_price (levels : list DepthLevel) (total_depth : binary) : option binary :=
  if no_depth levels total_depth then None
  else Some (foldl (λ weighted_price level,
    ld_add weighted_price (ld_mul (of_int64 (depth_price_ticks level)) (quantity_share total_depth level)))
    binary_zero levels).

Definition weighted_analyze (order_book : OrderBook) (max_levels : nat) : M S DepthWeightedPriceSummary :=
  let* depth := depth_analyze order_book max_levels in
  let weighted_bid := calculate_weighted_price (ds_bids depth) (ds_bid_depth depth) in
  let weighted_ask := calculate_weighted_price (ds_asks depth) (ds_ask_depth depth) in
  let weighted_mid :=
    match weighted_bid, weighted_ask with
    | Some b, Some a => Some (ld_div (ld_add b a) (of_int64 2))
    | _, _ => None
    end in
  ret (mkWeightedSummary (ds_requested_levels depth) (ds_bid_levels depth) (ds_ask_levels depth)
    (ds_bid_depth depth) (ds_ask_depth depth) weighted_bid weighted_ask weighted_mid).

Definition best_level_share (levels : list DepthLevel) (total_depth : binary) : option binary :=
  if no_depth levels total_depth then None
  else match levels with [] => None | front :: _ => Some (quantity_share total_depth front) end.

Definition calculate_hhi (levels : list DepthLevel) (total_depth : binary) : option binary :=
  if no_depth levels total_depth then None
  else Some (foldl (λ hhi level,
    let share := quantity_share total_depth level in ld_add hhi (ld_mul share share))
    binary_zero levels).

Definition concentration_analyze (order_book : OrderBook) (max_levels : nat)
    : M S LiquidityConcentrationSummary :=
  let* depth := depth_analyze order_book max_levels in
  ret (mkConcentrationSummary (ds_requested_levels depth) (ds_bid_levels depth) (ds_ask_levels depth)
    (best_level_share (ds_bids depth) (ds_bid_depth depth))
    (best_level_share (ds_asks depth) (ds_ask_depth depth))
    (calculate_hhi (ds_bids depth) (ds_bid_depth depth))
    (calculate_hhi (ds_asks depth) (ds_ask_depth depth))).
End figures.
