(* ===== verification/MarketImpact.v ===== *)
(** * MarketImpact

    [include/market_impact.hpp]: quotes taken before and after an execution, and
    the slippage, spread and price change they show it had. *)
From S2P Require Import Prelude LongDouble Orders OrderBook.

Local Open Scope Z_scope.

Record MarketQuote : Type := mkQuote {
  best_bid_ticks : option Z;
  best_ask_ticks : option Z;
  quote_bid_depth : Z;
  quote_ask_depth : Z
}.

Record MarketImpactSummary : Type := mkImpact {
  mi_side : OrderSide;
  mi_requested_quantity : Z;
  mi_executed_quantity : Z;
  mi_remaining_quantity : Z;
  liquidity_consumed : Z;
  fill_count : nat;
  average_execution_price_ticks : option binary;
  reference_price_ticks : option binary;
  slippage_ticks : option binary;
  effective_spread_ticks : option binary;
  pre_trade_mid_ticks : option binary;
  post_trade_mid_ticks : option binary;
  mid_price_change_ticks : option binary;
  signed_mid_impact_ticks : option binary;
  liquidity_consumed_ratio : option binary
}.

Section impact.
Context `{LongDoubleFormat}.

Definition quote_mid_price_ticks (q : MarketQuote) : option binary :=
  match best_bid_ticks q, best_ask_ticks q with
  | Some b, Some a => Some (ld_div (ld_add (of_int64 b) (of_int64 a)) (of_int64 2))
  | _, _ => None
  end.

(** The depths of the copy cannot throw, but they compute in its state. *)
Definition capture_quote {S} (book : OrderBook) : M S MarketQuote :=
  let snapshot := copy_book book in
  let* bid_depth := run_local snapshot bid_depth in
  let* ask_depth := run_local snapshot ask_depth in
  ret (mkQuote (level_price <$> best_bid snapshot) (level_price <$> best_ask snapshot) bid_depth ask_depth).

Definition quantities_invalid {S} (execution : ExecutionResult) : M S bool :=
  if (requested_quantity execution <? 0) || (executed_quantity execution <? 0) ||
     (result_remaining_quantity execution <? 0) ||
     (executed_quantity execution >? requested_quantity execution)
  then ret true
  else
    let* difference := sub64 (requested_quantity execution) (executed_quantity execution) in
    ret (negb (result_remaining_quantity execution =? difference)).

(** The loop over the trades: the notional and the filled quantity. *)
Fixpoint impact_trades {S} (executed : Z) (notional : binary) (filled : Z) (trades : list Trade)
    : M S (binary * Z) :=
  match trades with
  | [] => ret (notional, filled)
  | trade :: rest =>
      let* invalid :=
        if (trade_price_ticks trade <=? 0) || (trade_quantity trade <=? 0) then ret true
        else
          let* room := sub64 executed filled in
          ret (trade_quantity trade >? room) in
      if invalid then throw (invalid_argument "Invalid execution trade")
      else
        let* filled := add64 filled (trade_quantity trade) in
        impact_trades executed
          (ld_add notional
            (ld_mul (of_int64 (trade_price_ticks trade)) (of_int64 (trade_quantity trade))))
          filled rest
  end.

(** The summary once the trades were added up. *)
Definition impact_summary (execution : ExecutionResult) (before after : MarketQuote)
    (notional : binary) (filled_quantity : Z) : MarketImpactSummary :=
  let pre := quote_mid_price_ticks before in
  let post := quote_mid_price_ticks after in
  let base average reference slippage spread change impact ratio :=
    mkImpact (result_side execution) (requested_quantity execution) (executed_quantity execution)
      (result_remaining_quantity execution) filled_quantity (length (result_trades execution))
      average reference slippage spread pre post change impact ratio in
  if filled_quantity =? 0 then base None None None None None None None
  else
    let average_price := ld_div notional (of_int64 filled_quantity) in
    let direction := of_int64 (if is_buy (result_side execution) then 1 else -1) in
    let reference := if is_buy (result_side execution) then best_ask_ticks before else best_bid_ticks before in
    let change :=
      match pre, post with Some p, Some q => Some (ld_sub q p) | _, _ => None end in
    let available_liquidity :=
      if is_buy (result_side execution) then quote_ask_depth before else quote_bid_depth before in
    base (Some average_price)
      (of_int64 <$> reference)
      ((λ r, ld_mul direction (ld_sub average_price (of_int64 r))) <$> reference)
      ((λ p, ld_mul (ld_mul (of_int64 2) direction) (ld_sub average_price p)) <$> pre)
      change
      ((λ c, ld_mul direction c) <$> change)
      (if available_liquidity >? 0
       then Some (ld_div (of_int64 filled_quantity) (of_int64 available_liquidity)) else None).

Definition impact_analyze {S} (execution : ExecutionResult) (before after : MarketQuote)
    : M S MarketImpactSummary :=
  let* invalid := quantities_invalid execution in
  if invalid then throw (invalid_argument "Invalid execution quantities")
  else
    let* sums := impact_trades (executed_quantity execution) binary_zero 0 (result_trades execution) in
    let '(notional, filled_quantity) := sums in
    if negb (filled_quantity =? executed_quantity execution)
    then throw (invalid_argument "Executed quantity does not match trades")
    else ret (impact_summary execution before after notional filled_quantity).
End impact.
