(* ===== verification/OrderFlow.v ===== *)
(** * Order-flow imbalance

    [include/order_flow_imbalance.hpp], [include/ofi_order_book_handler.hpp] and
    [include/ofi_observable_order_book.hpp]: the flow between consecutive
    snapshots of the best levels, kept per symbol over a rolling window; the
    handler that takes the snapshots; and the book that calls it after each of
    its updates. *)
From S2P Require Import Prelude LongDouble Windows OrderBook.

Local Open Scope Z_scope.

(** ** Snapshots *)

Record OFILevel : Type := mkOFILevel { ofi_price_ticks : Z; ofi_quantity : Z }.

Record OFISnapshot : Type := mkOFISnapshot {
  ofi_best_bid : option OFILevel;
  ofi_best_ask : option OFILevel
}.

Definition ofi_validate_level {S} (level : option OFILevel) : M S unit :=
  match level with
  | None => ret tt
  | Some l =>
      if (ofi_price_ticks l <=? 0) || (ofi_quantity l <=? 0)
      then throw (invalid_argument "OFI price and quantity must be positive")
      else ret tt
  end.

Definition crossed_or_locked (s : OFISnapshot) : bool :=
  match ofi_best_bid s, ofi_best_ask s with
  | Some b, Some a => ofi_price_ticks b >=? ofi_price_ticks a
  | _, _ => false
  end.

(** ** The state of a symbol *)

Record OFISymbolState : Type := mkOFISymbolState {
  ofi_initialized : bool;
  ofi_previous : OFISnapshot;
  ofi_events : list binary;
  ofi_rolling_total : binary;
  ofi_latest_event : binary
}.

Definition new_ofi_state : OFISymbolState :=
  mkOFISymbolState false (mkOFISnapshot None None) [] binary_zero binary_zero.

(** [OrderFlowImbalance]. *)
Record OrderFlowImbalance : Type := mkOFI {
  ofi_window_size_ : nat;
  ofi_symbols_ : gmap string OFISymbolState
}.

Definition make_ofi {S} (window_size : nat) : M S OrderFlowImbalance :=
  if (window_size =? 0)%nat then throw (invalid_argument "OFI window size must be positive")
  else ret (mkOFI window_size ∅).

Definition set_ofi_symbols (m : gmap string OFISymbolState) (o : OrderFlowImbalance)
    : OrderFlowImbalance := mkOFI (ofi_window_size_ o) m.

Section ofi.
Context `{LongDoubleFormat}.

Definition bid_contribution (previous current : option OFILevel) : binary :=
  match previous, current with
  | None, None => binary_zero
  | None, Some c => of_int64 (ofi_quantity c)
  | Some p, None => ld_neg (of_int64 (ofi_quantity p))
  | Some p, Some c =>
      if ofi_price_ticks c >? ofi_price_ticks p then of_int64 (ofi_quantity c)
      else if ofi_price_ticks c <? ofi_price_ticks p then ld_neg (of_int64 (ofi_quantity p))
      else ld_sub (of_int64 (ofi_quantity c)) (of_int64 (ofi_quantity p))
  end.

Definition ask_contribution (previous current : option OFILevel) : binary :=
  match previous, current with
  | None, None => binary_zero
  | None, Some c => of_int64 (ofi_quantity c)
  | Some p, None => ld_neg (of_int64 (ofi_quantity p))
  | Some p, Some c =>
      if ofi_price_ticks c <? ofi_price_ticks p then of_int64 (ofi_quantity c)
      else if ofi_price_ticks c >? ofi_price_ticks p then ld_neg (of_int64 (ofi_quantity p))
      else ld_sub (of_int64 (ofi_quantity c)) (of_int64 (ofi_quantity p))
  end.

(** The part of [update] that works on the state of the symbol. *)
Definition update_symbol (window_size : nat) (snapshot : OFISnapshot) : M OFISymbolState unit :=
  let* state := gets id in
  if negb (ofi_initialized state) then
    modify (λ state, mkOFISymbolState true snapshot (ofi_events state)
      (ofi_rolling_total state) (ofi_latest_event state))
  else
    let bid_change := bid_contribution (ofi_best_bid (ofi_previous state)) (ofi_best_bid snapshot) in
    let ask_change := ask_contribution (ofi_best_ask (ofi_previous state)) (ofi_best_ask snapshot) in
    let event_ofi := ld_sub bid_change ask_change in
    (if (length (ofi_events state) =? window_size)%nat then
       match ofi_events state with
       | [] => undefined
       | front :: rest =>
           modify (λ state, mkOFISymbolState (ofi_initialized state) (ofi_previous state) rest
             (ld_sub (ofi_rolling_total state) front) (ofi_latest_event state))
       end
     else ret tt) ;;;
    modify (λ state, mkOFISymbolState (ofi_initialized state) snapshot
      (ofi_events state ++ [event_ofi]) (ld_add (ofi_rolling_total state) event_ofi) event_ofi).

Definition ofi_update (symbol : string) (snapshot : OFISnapshot) : M OrderFlowImbalance unit :=
  if decide (symbol = "") then throw (invalid_argument "OFI symbol cannot be empty")
  else
    ofi_validate_level (ofi_best_bid snapshot) ;;;
    ofi_validate_level (ofi_best_ask snapshot) ;;;
    if crossed_or_locked snapshot
    then throw (invalid_argument "OFI snapshot has a crossed or locked book")
    else
      let* o := gets id in
      at_entry ofi_symbols_ set_ofi_symbols new_ofi_state symbol
        (update_symbol (ofi_window_size_ o) snapshot).

Definition latest_ofi (symbol : string) (o : OrderFlowImbalance) : option binary :=
  match ofi_symbols_ o !! symbol with
  | None => None
  | Some x => match ofi_events x with [] => None | _ => Some (ofi_latest_event x) end
  end.

Definition rolling_ofi (symbol : string) (o : OrderFlowImbalance) : option binary :=
  match ofi_symbols_ o !! symbol with
  | None => None
  | Some x => match ofi_events x with [] => None | _ => Some (ofi_rolling_total x) end
  end.

Definition ofi_event_count (symbol : string) (o : OrderFlowImbalance) : nat :=
  match ofi_symbols_ o !! symbol with None => 0%nat | Some x => length (ofi_events x) end.

Definition ofi_clear_symbol (symbol : string) : M OrderFlowImbalance unit :=
  modify (λ o, set_ofi_symbols (delete symbol (ofi_symbols_ o)) o).

Definition ofi_clear : M OrderFlowImbalance unit := modify (set_ofi_symbols ∅).

(** ** OFIOrderBookHandler

    The callback [before_capture_] belongs to the owner: it has a state of its
    own and may throw; an empty [std::function] is [None]. *)

Record OFIOrderBookHandler (B : Type) : Type := mkOFIHandler {
  handler_ofi_ : OrderFlowImbalance;
  capture_state_ : B
}.
Arguments mkOFIHandler {B}.
Arguments handler_ofi_ {B}.
Arguments capture_state_ {B}.

Definition set_handler_ofi {B} (o : OrderFlowImbalance) (h : OFIOrderBookHandler B) :=
  mkOFIHandler o (capture_state_ h).
Definition set_capture_state {B} (b : B) (h : OFIOrderBookHandler B) :=
  mkOFIHandler (handler_ofi_ h) b.

(** The best levels of a book. *)
Definition ofi_level (l : PriceLevel) : OFILevel := mkOFILevel (level_price l) (level_quantity l).
Definition snapshot_of (book : OrderBook) : OFISnapshot :=
  let snapshot_book := copy_book book in
  mkOFISnapshot (ofi_level <$> best_bid snapshot_book) (ofi_level <$> best_ask snapshot_book).

Section handler.
Context {B : Type} (before_capture : option (B → option exn * B)).

Definition capture (symbol : string) (order_book : OrderBook) : M (OFIOrderBookHandler B) unit :=
  if decide (symbol = "") then throw (invalid_argument "OFI symbol must not be empty")
  else
    zoom capture_state_ set_capture_state (call_back before_capture) ;;;
    let snapshot := snapshot_of order_book in
    zoom handler_ofi_ set_handler_ofi (ofi_update symbol snapshot).

(** ** OFIObservableOrderBook *)

Record OFIObservableOrderBook : Type := mkObservable {
  observed_book_ : OrderBook;
  observed_handler_ : OFIOrderBookHandler B;
  observed_symbol_ : string
}.

Definition make_observable {S} (order_book : OrderBook) (handler : OFIOrderBookHandler B)
    (symbol : string) : M S OFIObservableOrderBook :=
  if decide (symbol = "") then throw (invalid_argument "OFI symbol must not be empty")
  else ret (mkObservable order_book handler symbol).

Definition set_observed_book (b : OrderBook) (o : OFIObservableOrderBook) : OFIObservableOrderBook :=
  mkObservable b (observed_handler_ o) (observed_symbol_ o).
Definition set_observed_handler (h : OFIOrderBookHandler B) (o : OFIObservableOrderBook)
    : OFIObservableOrderBook := mkObservable (observed_book_ o) h (observed_symbol_ o).

Definition observe : M OFIObservableOrderBook unit :=
  let* o := gets id in
  zoom observed_handler_ set_observed_handler (capture (observed_symbol_ o) (observed_book_ o)).

Definition observed_initialize : M OFIObservableOrderBook unit := observe.

Definition on_book (m : M OrderBook unit) : M OFIObservableOrderBook unit :=
  zoom observed_book_ set_observed_book m ;;; observe.

Definition observed_update_bid (price_ticks quantity : Z) := on_book (update_bid price_ticks quantity).
Definition observed_update_ask (price_ticks quantity : Z) := on_book (update_ask price_ticks quantity).
Definition observed_adjust_bid (price_ticks delta : Z) := on_book (adjust_bid price_ticks delta).
Definition observed_adjust_ask (price_ticks delta : Z) := on_book (adjust_ask price_ticks delta).
Definition observed_replace_snapshot (bids asks : list PriceLevel) :=
  on_book (replace_snapshot bids asks).
End handler.
End ofi.

Arguments mkOFIHandler {B}.
Arguments handler_ofi_ {B}.
Arguments capture_state_ {B}.
Arguments OFIObservableOrderBook : clear implicits.
