(* ===== verification/OrderFlowSpec.v ===== *)
(** * Order flow, by definition

    The order flow between two snapshots is defined here on integers and without
    the case analysis of the sources: a side contributes what it shows now if its
    price has not got worse, less what it showed before if its price has not got
    better; a missing level is an empty one at the worst price.  The state of a
    symbol is that of the last [w] flows of its history. *)
From S2P Require Import Prelude LongDouble Windows OrderBook OrderFlow.

Local Open Scope Z_scope.

Definition bid_view (l : option OFILevel) : Z * Z :=
  match l with Some x => (ofi_price_ticks x, ofi_quantity x) | None => (0, 0) end.

Definition ask_view (l : option OFILevel) : Z * Z :=
  match l with Some x => (ofi_price_ticks x, ofi_quantity x) | None => (INT64_MAX + 1, 0) end.

Definition bid_flow (previous current : option OFILevel) : Z :=
  let '(p0, q0) := bid_view previous in
  let '(p1, q1) := bid_view current in
  (if p0 <=? p1 then q1 else 0) - (if p1 <=? p0 then q0 else 0).

Definition ask_flow (previous current : option OFILevel) : Z :=
  let '(p0, q0) := ask_view previous in
  let '(p1, q1) := ask_view current in
  (if p1 <=? p0 then q1 else 0) - (if p0 <=? p1 then q0 else 0).

Definition flow (previous current : OFISnapshot) : Z :=
  bid_flow (ofi_best_bid previous) (ofi_best_bid current) -
  ask_flow (ofi_best_ask previous) (ofi_best_ask current).

(** The flows along a history that starts at [previous]. *)
Fixpoint flows (previous : OFISnapshot) (l : list OFISnapshot) : list Z :=
  match l with
  | [] => []
  | s :: r => flow previous s :: flows s r
  end.

Definition history_flows (h : list OFISnapshot) : list Z :=
  match h with [] => [] | s :: r => flows s r end.

(** Snapshots [update] accepts. *)
Definition level_valid (l : option OFILevel) : bool :=
  match l with None => true | Some x => (0 <? ofi_price_ticks x) && (0 <? ofi_quantity x) end.

Definition snapshot_valid (s : OFISnapshot) : bool :=
  level_valid (ofi_best_bid s) && level_valid (ofi_best_ask s) && negb (crossed_or_locked s).

(** Snapshots whose numbers fit, with quantities up to [qmax]. *)
Definition level_within (qmax : Z) (l : option OFILevel) : Prop :=
  match l with None => True | Some x => ofi_price_ticks x ≤ INT64_MAX ∧ ofi_quantity x ≤ qmax end.

Definition snapshot_within (qmax : Z) (s : OFISnapshot) : Prop :=
  level_within qmax (ofi_best_bid s) ∧ level_within qmax (ofi_best_ask s).

Lemma flows_snoc p l s : flows p (l ++ [s]) = flows p l ++ [flow (default p (last l)) s].
Proof.
  revert p. induction l as [|x l IH]; intros p; simpl; [done|]. rewrite IH. do 3 f_equal.
  destruct l as [|y l]; [done|]. change (last (x :: y :: l)) with (last (y :: l)).
  destruct (last (y :: l)) eqn:Hl; [done|]. by apply last_None in Hl.
Qed.

Lemma flows_length p l : length (flows p l) = length l.
Proof. revert p. induction l; intros; simpl; auto. Qed.

(** A flow is at most what two sides can show. *)
Lemma flow_bound qmax s0 s1 :
  0 ≤ qmax → snapshot_valid s0 = true → snapshot_valid s1 = true →
  snapshot_within qmax s0 → snapshot_within qmax s1 → Z.abs (flow s0 s1) ≤ 2 * qmax.
Proof.
  intros Hq H0 H1 [W1 W2] [W3 W4]. unfold snapshot_valid in *. zb.
  unfold flow, bid_flow, ask_flow, bid_view, ask_view.
  destruct s0 as [[[b0 bq0]|] [[a0 aq0]|]], s1 as [[[b1 bq1]|] [[a1 aq1]|]]; simpl in *; zb;
    repeat case_match; zb; lia.
Qed.

Section tracks.
Context `{LongDoubleFormat}.
Local Abbreviation P := LDBL_MANT_DIG.

(** The case analysis of the sources computes the flow, exactly. *)
Lemma bid_contribution_flow qmax l0 l1 :
  level_valid l0 = true → level_valid l1 = true → level_within qmax l0 → level_within qmax l1 →
  qmax < 2 ^ P → denotes (bid_contribution l0 l1) (bid_flow l0 l1) ∧ Z.abs (bid_flow l0 l1) ≤ Z.max 0 qmax.
Proof.
  intros V0 V1 W0 W1 Hq. unfold bid_contribution, bid_flow, bid_view.
  assert (Hi : ∀ q, 0 < q ≤ qmax → denotes (of_int64 q) q) by (intros; apply denotes_of_int64; lia).
  destruct l0 as [[p0 q0]|], l1 as [[p1 q1]|]; simpl in *; zb.
  - destruct (p1 >? p0) eqn:?; zb.
    { rewrite (proj2 (Z.leb_le p0 p1)), (proj2 (Z.leb_gt p1 p0)) by lia.
      split; [|lia]. rewrite Z.sub_0_r. apply Hi. lia. }
    destruct (p1 <? p0) eqn:?; zb.
    { rewrite (proj2 (Z.leb_gt p0 p1)), (proj2 (Z.leb_le p1 p0)) by lia.
      split; [|lia]. rewrite Z.sub_0_l. apply denotes_neg, Hi. lia. }
    rewrite (proj2 (Z.leb_le p0 p1)), (proj2 (Z.leb_le p1 p0)) by lia.
    split; [|lia]. apply denotes_sub; [apply Hi; lia..|lia].
  - rewrite (proj2 (Z.leb_gt p0 0)), (proj2 (Z.leb_le 0 p0)) by lia.
    split; [|lia]. rewrite Z.sub_0_l. apply denotes_neg, Hi. lia.
  - rewrite (proj2 (Z.leb_gt p1 0)), (proj2 (Z.leb_le 0 p1)) by lia.
    split; [|lia]. rewrite Z.sub_0_r. apply Hi. lia.
  - rewrite ?Z.leb_refl. simpl. split; [done|lia].
Qed.

Lemma ask_contribution_flow qmax l0 l1 :
  level_valid l0 = true → level_valid l1 = true → level_within qmax l0 → level_within qmax l1 →
  qmax < 2 ^ P → denotes (ask_contribution l0 l1) (ask_flow l0 l1) ∧ Z.abs (ask_flow l0 l1) ≤ Z.max 0 qmax.
Proof.
  intros V0 V1 W0 W1 Hq. unfold ask_contribution, ask_flow, ask_view.
  assert (Hi : ∀ q, 0 < q ≤ qmax → denotes (of_int64 q) q) by (intros; apply denotes_of_int64; lia).
  destruct l0 as [[p0 q0]|], l1 as [[p1 q1]|]; simpl in *; zb.
  - destruct (p1 <? p0) eqn:?; zb.
    { rewrite (proj2 (Z.leb_gt p0 p1)), (proj2 (Z.leb_le p1 p0)) by lia.
      split; [|lia]. rewrite Z.sub_0_r. apply Hi. lia. }
    destruct (p1 >? p0) eqn:?; zb.
    { rewrite (proj2 (Z.leb_le p0 p1)), (proj2 (Z.leb_gt p1 p0)) by lia.
      split; [|lia]. rewrite Z.sub_0_l. apply denotes_neg, Hi. lia. }
    rewrite (proj2 (Z.leb_le p0 p1)), (proj2 (Z.leb_le p1 p0)) by lia.
    split; [|lia]. apply denotes_sub; [apply Hi; lia..|lia].
  - rewrite (proj2 (Z.leb_gt (INT64_MAX + 1) p0)), (proj2 (Z.leb_le p0 (INT64_MAX + 1))) by lia.
    split; [|lia]. rewrite Z.sub_0_l. apply denotes_neg, Hi. lia.
  - rewrite (proj2 (Z.leb_gt (INT64_MAX + 1) p1)), (proj2 (Z.leb_le p1 (INT64_MAX + 1))) by lia.
    split; [|lia]. rewrite Z.sub_0_r. apply Hi. lia.
  - rewrite ?Z.leb_refl. simpl. split; [done|lia].
Qed.

(** The state of a symbol after the history [h]. *)
Definition tracks (w : nat) (h : list OFISnapshot) (x : OFISymbolState) : Prop :=
  match h with
  | [] => x = new_ofi_state
  | s :: r =>
      ofi_initialized x = true ∧ ofi_previous x = default s (last r) ∧
      Forall2 denotes (ofi_events x) (last_n w (flows s r)) ∧
      denotes (ofi_rolling_total x) (sum_Z (last_n w (flows s r))) ∧
      ∀ z, last (flows s r) = Some z → denotes (ofi_latest_event x) z
  end.

Definition history_ok (qmax : Z) (h : list OFISnapshot) : Prop :=
  Forall (λ s, snapshot_valid s = true ∧ snapshot_within qmax s) h.

Lemma history_flows_bound qmax s r :
  0 ≤ qmax → history_ok qmax (s :: r) → Forall (λ z, Z.abs z ≤ 2 * qmax) (flows s r).
Proof.
  intros Hq. revert s. induction r as [|s' r IH]; intros s Hh; simpl; [constructor|].
  inversion Hh as [|? ? [V0 W0] Hh']; subst. inversion Hh' as [|? ? [V1 W1] _]; subst.
  constructor; [by apply flow_bound|by apply IH].
Qed.

Lemma wp_update_symbol qmax w h s x :
  (0 < w)%nat → 0 ≤ qmax → 2 * qmax * Z.of_nat w < 2 ^ P →
  tracks w h x → history_ok qmax (h ++ [s]) →
  wp (update_symbol w s) (λ _ x', tracks w (h ++ [s]) x') nothrow x.
Proof.
  intros Hw Hq Hfit Ht Hh. unfold update_symbol, id. do 2 wp_step. destruct h as [|s0 r].
  { simpl in Ht. subst x. simpl. apply wp_modify. simpl. unfold last_n. simpl.
    split_and!; [done|done|constructor|done|done]. }
  destruct Ht as (Hi & Hp & He & Htot & _). rewrite Hi. simpl negb. cbn iota.
  pose proof (history_flows_bound qmax s0 (r ++ [s]) Hq Hh) as Hb. rewrite flows_snoc in Hb.
  apply Forall_app in Hb as [Hb Hz]. inversion Hz as [|? ? Hz1 _]; subst. rewrite <- Hp in Hz1.
  assert (Hprev : snapshot_valid (ofi_previous x) = true ∧ snapshot_within qmax (ofi_previous x)).
  { rewrite Hp. unfold history_ok in Hh. rewrite Forall_forall in Hh. apply Hh. apply elem_of_app. left.
    destruct (last r) as [y|] eqn:Hl; simpl; [right; by apply last_Some_elem_of|by left]. }
  assert (Hs : snapshot_valid s = true ∧ snapshot_within qmax s)
    by (unfold history_ok in Hh; rewrite Forall_app in Hh; destruct Hh as [_ Hs]; by inversion Hs).
  set (ev := ld_sub _ _). assert (Hev : denotes ev (flow (ofi_previous x) s)).
  { destruct Hprev as [V0 [W0 W1]], Hs as [V1 [W2 W3]]. unfold snapshot_valid in V0, V1. zb.
    assert (Hq2 : qmax < 2 ^ P) by nia.
    destruct (bid_contribution_flow qmax (ofi_best_bid (ofi_previous x)) (ofi_best_bid s)) as [Hb1 Hb2]; [done..|].
    destruct (ask_contribution_flow qmax (ofi_best_ask (ofi_previous x)) (ofi_best_ask s)) as [Ha1 Ha2]; [done..|].
    apply denotes_sub; [done|done|]. nia. }
  assert (Hlen : (length (ofi_events x) ≤ w)%nat)
    by (rewrite (Forall2_length _ _ _ He), last_n_length; lia).
  pose proof (push_window_Forall2 denotes w ev _ _ _ He Hev) as Hwin.
  pose proof (push_total_denotes w (2 * qmax) ev _ _ _ _ Hw He Hlen Htot Hev
    ltac:(constructor; [done|by apply Forall_last_n]) Hfit) as Hsum.
  rewrite push_window_last in Hwin, Hsum by done. rewrite Hp, <- flows_snoc in Hwin, Hsum.
  assert (Hend : ∀ x', ofi_initialized x' = true → ofi_previous x' = s →
    ofi_events x' = push_window w ev (ofi_events x) →
    ofi_rolling_total x' = push_total w ev (ofi_events x) (ofi_rolling_total x) →
    ofi_latest_event x' = ev → tracks w ((s0 :: r) ++ [s]) x').
  { intros x' E1 E2 E3 E4 E5. simpl. rewrite E1, E2, E3, E4, E5, last_snoc. split_and!; [done..|].
    intros z. rewrite flows_snoc, last_snoc, <- Hp. by intros [= <-]. }
  do 2 wp_step.
  - apply Nat.eqb_eq in Heqb. destruct (ofi_events x) as [|y l]; [simpl in *; lia|].
    apply wp_modify. apply wp_modify.
    apply Hend; [done|done| | |done]; unfold push_window, push_total; by rewrite (proj2 (Nat.eqb_eq _ _) Heqb).
  - apply wp_ret. apply wp_modify. apply Hend; [done|done| | |done]; unfold push_window, push_total;
      rewrite Heqb; by destruct (ofi_events x).
Qed.

(** ** All symbols *)

(** Histories by symbol, and one snapshot more. *)
Definition extend (symbol : string) (s : OFISnapshot) (hist : string → list OFISnapshot)
    : string → list OFISnapshot :=
  λ y, if decide (y = symbol) then hist y ++ [s] else hist y.

Definition ofi_tracks (w : nat) (qmax : Z) (hist : string → list OFISnapshot)
    (o : OrderFlowImbalance) : Prop :=
  ofi_window_size_ o = w ∧
  ∀ symbol, tracks w (hist symbol) (default new_ofi_state (ofi_symbols_ o !! symbol)) ∧
    history_ok qmax (hist symbol).

Lemma ofi_tracks_start w qmax : ofi_tracks w qmax (λ _, []) (mkOFI w ∅).
Proof. split; [done|]. intros symbol. simpl. rewrite lookup_empty. split; [done|constructor]. Qed.

Lemma wp_validate_level {S} l Q E (st : S) :
  (level_valid l = true → Q tt st) → (level_valid l = false → ∀ what, E (invalid_argument what) st) →
  wp (ofi_validate_level l) Q E st.
Proof.
  intros HQ HE. unfold ofi_validate_level. destruct l as [[p q]|]; simpl in *; [|apply wp_ret; auto].
  destruct ((p <=? 0) || (q <=? 0)) eqn:Hb.
  - apply wp_throw, HE. apply orb_true_iff in Hb as [Hb|Hb]; zb; apply andb_false_iff;
      [left|right]; apply Z.ltb_ge; lia.
  - apply wp_ret, HQ. zb. apply andb_true_iff. split; apply Z.ltb_lt; lia.
Qed.

(** A valid snapshot extends the history of its symbol; any other is refused. *)
Lemma wp_ofi_update w qmax hist o symbol s :
  (0 < w)%nat → 0 ≤ qmax → 2 * qmax * Z.of_nat w < 2 ^ P →
  ofi_tracks w qmax hist o → snapshot_within qmax s →
  wp (ofi_update symbol s)
    (λ _ o', symbol ≠ "" ∧ snapshot_valid s = true ∧ ofi_tracks w qmax (extend symbol s hist) o')
    (λ _ o', (symbol = "" ∨ snapshot_valid s = false) ∧ o' = o) o.
Proof.
  intros Hw Hq Hfit [Hwin Hall] Hs. unfold ofi_update, id. destruct (decide (symbol = "")) as [He|He].
  { apply wp_throw. auto. }
  unfold snapshot_valid in *. wp_step.
  apply wp_validate_level; [intros V1|intros V1 what; split; [right; by rewrite V1|done]]. wp_step.
  apply wp_validate_level; [intros V2|intros V2 what; split; [right; by rewrite V1, V2|done]].
  destruct (crossed_or_locked s) eqn:Hc; [apply wp_throw; split; [right; by rewrite V1, V2|done]|].
  do 2 wp_step. destruct (Hall symbol) as [Ht Hh]. rewrite Hwin.
  assert (Hh' : history_ok qmax (hist symbol ++ [s])).
  { apply Forall_app. split; [done|]. constructor; [|constructor]. split; [|done].
    unfold snapshot_valid. by rewrite V1, V2, Hc. }
  pose proof (wp_update_symbol qmax w _ s _ Hw Hq Hfit Ht Hh') as Hwp.
  apply wp_at_entry. eapply wp_mono; [exact Hwp| |done]. intros [] x' Ht'. simpl.
  split_and!; [done|by rewrite V1, V2|]. split; [done|]. intros y. unfold extend. simpl.
  destruct (decide (y = symbol)) as [->|Hne]; [by rewrite lookup_insert_eq|].
  by rewrite lookup_insert_ne.
Qed.

(** ** What the figures show *)

Definition shows (x : option binary) (z : option Z) : Prop :=
  match x, z with None, None => True | Some b, Some z => denotes b z | _, _ => False end.

Definition rolling (w : nat) (l : list Z) : option Z :=
  match l with [] => None | _ => Some (sum_Z (last_n w l)) end.

Lemma tracks_figures w h x :
  (0 < w)%nat → tracks w h x →
  length (ofi_events x) = Nat.min w (length (history_flows h)) ∧
  shows (match ofi_events x with [] => None | _ => Some (ofi_rolling_total x) end)
    (rolling w (history_flows h)) ∧
  shows (match ofi_events x with [] => None | _ => Some (ofi_latest_event x) end)
    (last (history_flows h)).
Proof.
  intros Hw Ht. destruct h as [|s r]; [by rewrite Ht; simpl; rewrite Nat.min_0_r|].
  destruct Ht as (_ & _ & He & Htot & Hlast). simpl.
  pose proof (Forall2_length _ _ _ He) as Hlen. rewrite last_n_length in Hlen. split; [done|].
  destruct (flows s r) as [|z zs] eqn:Hf.
  { rewrite Nat.min_0_r in Hlen. apply nil_length_inv in Hlen. by rewrite Hlen. }
  destruct (ofi_events x) as [|y ys]; [simpl in Hlen; lia|]. split; [done|].
  destruct (last (z :: zs)) as [z'|] eqn:Hl; [by apply Hlast|]. by apply last_None in Hl.
Qed.

(** The figures of a symbol, from its history. *)
Lemma ofi_figures w qmax hist o symbol :
  (0 < w)%nat → ofi_tracks w qmax hist o →
  ofi_event_count symbol o = Nat.min w (length (history_flows (hist symbol))) ∧
  shows (rolling_ofi symbol o) (rolling w (history_flows (hist symbol))) ∧
  shows (latest_ofi symbol o) (last (history_flows (hist symbol))).
Proof.
  intros Hw [_ Hall]. destruct (Hall symbol) as [Ht _].
  destruct (tracks_figures w _ _ Hw Ht) as (H1 & H2 & H3).
  unfold ofi_event_count, rolling_ofi, latest_ofi. by destruct (ofi_symbols_ o !! symbol).
Qed.
End tracks.
