(* ===== verification/Levels.v ===== *)
(** * Sorted vectors of price levels

    What the operations of [OrderBook.v] do to a well-formed vector of levels,
    stated against a finite function from prices to quantities: [map_value]
    reads it, [set_level] updates one point of it, and two well-formed vectors
    with the same function are equal. *)
From S2P Require Import Prelude LongDouble OrderBook.

Local Open Scope Z_scope.

(** A level as the book may hold it. *)
Definition level_ok (l : PriceLevel) : Prop :=
  0 ≤ level_price l ≤ INT64_MAX ∧ 0 < level_quantity l ≤ INT64_MAX.

Section levels.
Context (before : Z → Z → bool) `{!StrictTotal before}.
Implicit Types l : list PriceLevel.

Definition level_before (x y : PriceLevel) : Prop :=
  before (level_price x) (level_price y) = true.

(** Strictly sorted by price, hence one level per price, with positive
    quantities. *)
Definition levels_wf l : Prop := StronglySorted level_before l ∧ Forall level_ok l.

(** The reference for every update of a vector of levels. *)
Fixpoint set_level (p q : Z) l : list PriceLevel :=
  match l with
  | [] => if q =? 0 then [] else [mkLevel p q]
  | x :: r =>
      if before (level_price x) p then x :: set_level p q r
      else if before p (level_price x) then if q =? 0 then x :: r else mkLevel p q :: x :: r
      else if q =? 0 then r else mkLevel p q :: r
  end.

(** Where a price is, or would be, in a sorted vector. *)
Inductive split_at (p : Z) : list PriceLevel → Prop :=
| split_hit l1 q l2 :
    Forall (λ x, before (level_price x) p = true) l1 →
    Forall (λ x, before p (level_price x) = true) l2 →
    split_at p (l1 ++ mkLevel p q :: l2)
| split_miss l1 l2 :
    Forall (λ x, before (level_price x) p = true) l1 →
    Forall (λ x, before p (level_price x) = true) l2 →
    split_at p (l1 ++ l2).

Lemma sorted_split p l : StronglySorted level_before l → split_at p l.
Proof.
  induction 1 as [|x l Hs IH Hx].
  { by apply (split_miss p [] []). }
  destruct (before (level_price x) p) eqn:Hxp.
  { destruct IH as [l1 q l2 H1 H2|l1 l2 H1 H2];
      [apply (split_hit p (x :: l1)) | apply (split_miss p (x :: l1))]; auto. }
  destruct (before p (level_price x)) eqn:Hpx.
  - apply (split_miss p [] (x :: l)); [done|]. constructor; [done|].
    eapply Forall_impl; [done|]. intros y ?. by eapply st_trans.
  - assert (level_price x = p) as <- by by apply st_total.
    destruct x as [p q]. by apply (split_hit p []).
Qed.

Lemma lower_bound_app p l1 l2 :
  Forall (λ x, before (level_price x) p = true) l1 →
  (∀ x, head l2 = Some x → before (level_price x) p = false) →
  lower_bound before (l1 ++ l2) p = length l1.
Proof.
  intros H1 H2. induction H1 as [|x l1 Hx _ IH]; simpl.
  - destruct l2 as [|x l2]; [done|]. simpl. by rewrite H2.
  - by rewrite Hx, IH.
Qed.


Lemma lower_bound_hit p l1 q l2 :
  Forall (λ x, before (level_price x) p = true) l1 →
  lower_bound before (l1 ++ mkLevel p q :: l2) p = length l1 ∧
  level_at (l1 ++ mkLevel p q :: l2) (length l1) p = Some (mkLevel p q).
Proof.
  intros H1. split.
  - apply lower_bound_app; [done|]. intros x [= <-]; simpl. apply st_irrefl.
  - unfold level_at. rewrite list_lookup_middle by done. simpl. by rewrite Z.eqb_refl.
Qed.

Lemma lower_bound_miss p l1 l2 :
  Forall (λ x, before (level_price x) p = true) l1 →
  Forall (λ x, before p (level_price x) = true) l2 →
  lower_bound before (l1 ++ l2) p = length l1 ∧
  level_at (l1 ++ l2) (length l1) p = None.
Proof.
  intros H1 H2. split.
  - apply lower_bound_app; [done|].
    destruct H2; [done|]. intros ? [= <-]. by apply st_asym.
  - unfold level_at. rewrite lookup_app_r, Nat.sub_diag by lia.
    destruct H2 as [|x l2 Hx]; simpl; [done|].
    by rewrite (proj2 (Z.eqb_neq _ _) (not_eq_sym (st_neq _ _ _ Hx))).
Qed.

Lemma set_level_app p q l1 l2 :
  Forall (λ x, before (level_price x) p = true) l1 →
  set_level p q (l1 ++ l2) = l1 ++ set_level p q l2.
Proof. induction 1 as [|x l1 Hx _ IH]; simpl; [done|]. by rewrite Hx, IH. Qed.

Lemma set_level_hit p q q0 l2 :
  set_level p q (mkLevel p q0 :: l2) = if q =? 0 then l2 else mkLevel p q :: l2.
Proof. simpl. by rewrite st_irrefl. Qed.

Lemma set_level_miss p q l2 :
  Forall (λ x, before p (level_price x) = true) l2 →
  set_level p q l2 = if q =? 0 then l2 else mkLevel p q :: l2.
Proof. destruct 1 as [|x l2 Hx]; simpl; [done|]. by rewrite Hx, (st_asym before) by done. Qed.

(** ** Reading the function *)

Lemma map_value_absent p l : Forall (λ x, level_price x ≠ p) l → map_value p l = 0.
Proof. induction 1 as [|x l Hx _ IH]; simpl; [done|]. by rewrite (proj2 (Z.eqb_neq _ _) Hx). Qed.

Lemma map_value_app p l1 l2 :
  Forall (λ x, level_price x ≠ p) l1 → map_value p (l1 ++ l2) = map_value p l2.
Proof. induction 1 as [|x l Hx _ IH]; simpl; [done|]. by rewrite (proj2 (Z.eqb_neq _ _) Hx). Qed.

Lemma before_ne p l :
  Forall (λ x, before (level_price x) p = true) l → Forall (λ x, level_price x ≠ p) l.
Proof. intros H. eapply Forall_impl; [done|]. intros x Hx. by eapply st_neq. Qed.

Lemma after_ne p l :
  Forall (λ x, before p (level_price x) = true) l → Forall (λ x, level_price x ≠ p) l.
Proof. intros H. eapply Forall_impl; [done|]. intros x Hx. by eapply not_eq_sym, st_neq. Qed.

Lemma map_value_hit p l1 q l2 :
  Forall (λ x, before (level_price x) p = true) l1 →
  map_value p (l1 ++ mkLevel p q :: l2) = q.
Proof. intros H. rewrite map_value_app by by apply before_ne. simpl. by rewrite Z.eqb_refl. Qed.

Lemma map_value_miss p l1 l2 :
  Forall (λ x, before (level_price x) p = true) l1 →
  Forall (λ x, before p (level_price x) = true) l2 →
  map_value p (l1 ++ l2) = 0.
Proof.
  intros ??. rewrite map_value_app by by apply before_ne.
  by apply map_value_absent, after_ne.
Qed.

Lemma map_value_nonneg p l : Forall level_ok l → 0 ≤ map_value p l ≤ INT64_MAX.
Proof. induction 1 as [|x l [] _ IH]; simpl; [mlia|]. case_match; mlia. Qed.

Lemma map_value_cons p x l :
  map_value p (x :: l) = if level_price x =? p then level_quantity x else map_value p l.
Proof. done. Qed.

Lemma map_value_set_level p q p' l :
  StronglySorted level_before l →
  map_value p' (set_level p q l) = if p =? p' then q else map_value p' l.
Proof.
  intros Hs. destruct (sorted_split p l Hs) as [l1 q0 l2 H1 H2|l1 l2 H1 H2];
    rewrite set_level_app by done;
    [rewrite set_level_hit|rewrite set_level_miss by done];
    destruct (p =? p') eqn:Hp; zb; subst.
  1,3: rewrite map_value_app by (by apply before_ne);
    destruct (q =? 0) eqn:Hq; zb; simpl; rewrite ?Z.eqb_refl; auto;
    subst; by apply map_value_absent, after_ne.
  - induction l1 as [|x l1 IH]; simpl.
    + rewrite (proj2 (Z.eqb_neq _ _) Hp). destruct (q =? 0); [done|]. simpl.
      by rewrite (proj2 (Z.eqb_neq _ _) Hp).
    + inversion_clear H1. rewrite IH; [done| |done].
      inversion Hs; by subst.
  - induction l1 as [|x l1 IH]; simpl.
    + destruct (q =? 0); [done|]. simpl. by rewrite (proj2 (Z.eqb_neq _ _) Hp).
    + inversion_clear H1. rewrite IH; [done| |done]. inversion Hs; by subst.
Qed.

(** ** Well-formedness *)

Lemma levels_wf_nil : levels_wf [].
Proof. split; constructor. Qed.

Lemma sorted_join l1 l2 x :
  StronglySorted level_before l1 → StronglySorted level_before l2 →
  Forall (λ y, level_before y x) l1 → Forall (level_before x) l2 →
  StronglySorted level_before (l1 ++ x :: l2).
Proof.
  intros Hs1 Hs2 H1 H2. apply StronglySorted_app_2; [|done|by constructor].
  intros y z Hy Hz. rewrite Forall_forall in H1, H2.
  apply elem_of_cons in Hz as [->|Hz]; [by apply H1|].
  eapply st_trans; [by apply H1|by apply H2].
Qed.

Lemma sorted_drop l1 x l2 :
  StronglySorted level_before (l1 ++ x :: l2) → StronglySorted level_before (l1 ++ l2).
Proof.
  rewrite !StronglySorted_app, StronglySorted_cons.
  intros (H1 & H2 & H3 & H4). split_and!; [|done..]. set_solver.
Qed.

Lemma levels_wf_set_level p q l :
  levels_wf l → 0 ≤ p ≤ INT64_MAX → 0 ≤ q ≤ INT64_MAX → levels_wf (set_level p q l).
Proof.
  intros [Hs Hok] Hp Hq. unfold levels_wf.
  destruct (sorted_split p l Hs) as [l1 q0 l2 H1 H2|l1 l2 H1 H2];
    rewrite set_level_app by done;
    [rewrite set_level_hit|rewrite set_level_miss by done];
    apply Forall_app in Hok as [Hok1 Hok2];
    pose proof (StronglySorted_app_1_l _ _ _ Hs) as Hs1;
    pose proof (StronglySorted_app_1_r _ _ _ Hs) as Hs2.
  - apply StronglySorted_cons in Hs2 as [? Hs2]. apply Forall_cons in Hok2 as [? Hok2].
    destruct (q =? 0) eqn:Hq0; zb; split.
    + by eapply sorted_drop. + by apply Forall_app.
    + by apply sorted_join.
    + apply Forall_app; split; [done|]. constructor; [|done]. split; simpl; mlia.
  - destruct (q =? 0) eqn:Hq0; zb; split.
    + done. + by apply Forall_app.
    + by apply sorted_join.
    + apply Forall_app; split; [done|]. constructor; [|done]. split; simpl; mlia.
Qed.

Lemma map_value_below p l :
  Forall (λ x, before p (level_price x) = true) l → map_value p l = 0.
Proof. intros. by apply map_value_absent, after_ne. Qed.

Lemma levels_wf_cons x l :
  levels_wf (x :: l) ↔ Forall (level_before x) l ∧ level_ok x ∧ levels_wf l.
Proof. unfold levels_wf. rewrite StronglySorted_cons, Forall_cons. tauto. Qed.

(** The head of a well-formed vector is read by its own price, and a price
    before it reads as zero. *)
Lemma map_value_before_head p y l :
  levels_wf (y :: l) → before p (level_price y) = true → map_value p (y :: l) = 0.
Proof.
  intros [Hl _]%levels_wf_cons Hp. apply map_value_below. constructor; [done|].
  eapply Forall_impl; [done|]. intros z Hz. by eapply st_trans.
Qed.

Lemma levels_ext l l' :
  levels_wf l → levels_wf l' → (∀ p, map_value p l = map_value p l') → l = l'.
Proof.
  revert l'. induction l as [|x l IH]; intros [|y l'] Hl Hl' Heq; [done| | |].
  - apply levels_wf_cons in Hl' as (_ & [_ ?] & _).
    specialize (Heq (level_price y)). simpl in Heq. rewrite Z.eqb_refl in Heq. lia.
  - apply levels_wf_cons in Hl as (_ & [_ ?] & _).
    specialize (Heq (level_price x)). simpl in Heq. rewrite Z.eqb_refl in Heq. lia.
  - assert (Hxy : level_price x = level_price y).
    { pose proof Hl as (_ & [_ Hx] & _)%levels_wf_cons.
      pose proof Hl' as (_ & [_ Hy] & _)%levels_wf_cons.
      apply st_total.
      - destruct (before _ _) eqn:Hb; [|done].
        pose proof (map_value_before_head _ _ _ Hl' Hb) as H0.
        rewrite <- Heq in H0. simpl in H0. rewrite Z.eqb_refl in H0. lia.
      - destruct (before _ _) eqn:Hb; [|done].
        pose proof (map_value_before_head _ _ _ Hl Hb) as H0.
        rewrite Heq in H0. simpl in H0. rewrite Z.eqb_refl in H0. lia. }
    pose proof Hl as (Hxl & _ & Hwf)%levels_wf_cons.
    pose proof Hl' as (Hyl & _ & Hwf')%levels_wf_cons.
    f_equal.
    + specialize (Heq (level_price x)). simpl in Heq.
      rewrite Hxy, Z.eqb_refl in Heq. destruct x, y; simpl in *; congruence.
    + apply IH; [done..|]. intros p. specialize (Heq p). simpl in Heq. rewrite Hxy in Heq.
      destruct (level_price y =? p) eqn:Hp; zb; [|done]. subst p.
      rewrite !map_value_below; [done|done|]. rewrite <- Hxy. done.
Qed.

(** Writing back what is read changes nothing; the last write wins. *)
Lemma set_level_id p l : levels_wf l → 0 ≤ p ≤ INT64_MAX → set_level p (map_value p l) l = l.
Proof.
  intros Hl Hp. pose proof (map_value_nonneg p l (proj2 Hl)).
  apply levels_ext; [by apply levels_wf_set_level|done|].
  intros p'. rewrite map_value_set_level by apply Hl.
  destruct (p =? p') eqn:?; zb; by subst.
Qed.

Lemma set_level_set_level p q q' l :
  levels_wf l → 0 ≤ p ≤ INT64_MAX → 0 ≤ q ≤ INT64_MAX → 0 ≤ q' ≤ INT64_MAX →
  set_level p q (set_level p q' l) = set_level p q l.
Proof.
  intros Hl Hp Hq Hq'. pose proof (levels_wf_set_level p q' l Hl Hp Hq').
  apply levels_ext; [by apply levels_wf_set_level..|].
  intros p'. rewrite !map_value_set_level by (apply H || apply Hl).
  by destruct (p =? p').
Qed.

(** ** The vector operations implement point updates *)

Lemma wp_update_levels name p q l Q E :
  StronglySorted level_before l →
  (0 ≤ p → 0 ≤ q → Q tt (set_level p q l)) →
  (p < 0 ∨ q < 0 → ∀ w, E (invalid_argument w) l) →
  wp (update_levels before name p q) Q E l.
Proof.
  intros Hs HQ HE. unfold update_levels, validate_level.
  wp_step. repeat (wp_step; cbn beta); zb; [auto with lia..|].
  specialize (HQ ltac:(lia) ltac:(lia)). unfold id.
  destruct (sorted_split p l Hs) as [l1 q0 l2 H1 H2|l1 l2 H1 H2].
  - destruct (lower_bound_hit p l1 q0 l2 H1) as [-> ->].
    rewrite set_level_app, set_level_hit in HQ by done.
    wp_step; wp_step; cbn beta.
    + by rewrite delete_middle.
    + by rewrite insert_app_r_alt, Nat.sub_diag by lia.
  - destruct (lower_bound_miss p l1 l2 H1 H2) as [-> ->].
    rewrite set_level_app, set_level_miss in HQ by done.
    wp_step; wp_step; cbn beta; [done|].
    unfold vector_insert. by rewrite take_app_length, drop_app_length.
Qed.

(** [adjust_levels] moves the quantity at one price by a delta.  It throws,
    leaving the vector as it was, exactly when the price is negative or the
    new quantity is outside [0, INT64_MAX]. *)
Lemma wp_adjust_levels name p d l Q E :
  levels_wf l → int64 d →
  (0 ≤ p → 0 ≤ map_value p l + d ≤ INT64_MAX → Q tt (set_level p (map_value p l + d) l)) →
  (p < 0 ∨ map_value p l + d < 0 → ∀ w, E (invalid_argument w) l) →
  (INT64_MAX < map_value p l + d → ∀ w, E (overflow_error w) l) →
  wp (adjust_levels p d name before) Q E l.
Proof.
  intros [Hs Hok] Hd HQ HE HO. unfold adjust_levels, validate_adjustment_price, negative_quantity.
  wp_steps; zb; [auto with lia|]. specialize (HQ ltac:(lia)). unfold id.
  destruct (sorted_split p l Hs) as [l1 q l2 H1 H2|l1 l2 H1 H2].
  - assert (Hq : 0 < q ≤ INT64_MAX).
    { apply Forall_app in Hok as [_ Hok]. by inversion_clear Hok as [|?? []]. }
    destruct (lower_bound_hit p l1 q l2 H1) as [-> ->].
    rewrite map_value_hit in * by done.
    rewrite set_level_app, set_level_hit in HQ by done. simpl.
    wp_steps; zb; try mlia; try (apply HE; mlia); try (apply HO; mlia).
    + assert (d = 0) as -> by lia. rewrite Z.add_0_r in *.
      rewrite (proj2 (Z.eqb_neq q 0)) in HQ by lia. apply HQ. lia.
    + rewrite insert_app_r_alt, Nat.sub_diag by lia. simpl.
      rewrite (proj2 (Z.eqb_neq (q + d) 0)) in HQ by lia. apply HQ. lia.
    + rewrite delete_middle. replace (q + d) with 0 in HQ by lia. apply HQ. mlia.
    + rewrite insert_app_r_alt, Nat.sub_diag by lia. simpl.
      rewrite (proj2 (Z.eqb_neq (q + d) 0)) in HQ by lia.
      replace (q - - d) with (q + d) by lia. apply HQ. mlia.
  - destruct (lower_bound_miss p l1 l2 H1 H2) as [-> ->].
    rewrite map_value_miss in * by done. rewrite Z.add_0_l in *.
    rewrite set_level_app, set_level_miss in HQ by done.
    wp_steps; zb; [apply HE; lia| |].
    + subst d. apply HQ. mlia.
    + unfold vector_insert. rewrite take_app_length, drop_app_length.
      apply HQ. mlia.
Qed.

(** ** Normalising a snapshot *)

(** The total quantity a list of levels carries at a price. *)
Definition total_at (p : Z) (levels : list PriceLevel) : Z :=
  foldr (λ x acc, (if level_price x =? p then level_quantity x else 0) + acc) 0 levels.

Lemma total_at_nonneg p levels :
  Forall (λ x, 0 ≤ level_quantity x) levels → 0 ≤ total_at p levels.
Proof. induction 1; simpl; [lia|]. case_match; lia. Qed.

Lemma map_slot_hit p l1 q l2 :
  Forall (λ x, before (level_price x) p = true) l1 →
  map_slot before p (l1 ++ mkLevel p q :: l2) = l1 ++ mkLevel p q :: l2.
Proof.
  induction 1 as [|x l1 Hx _ IH]; simpl; [by rewrite st_irrefl|]. by rewrite Hx, IH.
Qed.

Lemma map_slot_miss p l1 l2 :
  Forall (λ x, before (level_price x) p = true) l1 →
  Forall (λ x, before p (level_price x) = true) l2 →
  map_slot before p (l1 ++ l2) = l1 ++ mkLevel p 0 :: l2.
Proof.
  intros H1 H2. induction H1 as [|x l1 Hx _ IH]; simpl; [|by rewrite Hx, IH].
  destruct H2 as [|x l2 Hx]; simpl; [done|]. by rewrite Hx, (st_asym before) by done.
Qed.

Lemma map_assign_hit p q' l1 q l2 :
  Forall (λ x, before (level_price x) p = true) l1 →
  map_assign p q' (l1 ++ mkLevel p q :: l2) = l1 ++ mkLevel p q' :: l2.
Proof.
  induction 1 as [|x l1 Hx _ IH]; simpl; [by rewrite Z.eqb_refl|].
  by rewrite (proj2 (Z.eqb_neq _ _) (st_neq _ _ _ Hx)), IH.
Qed.

(** One round adds the quantity at the level's price, or throws. *)
Lemma wp_aggregate_level name dup x m Q E :
  levels_wf m → level_price x ≤ INT64_MAX → level_quantity x ≤ INT64_MAX →
  (0 ≤ level_price x → 0 ≤ level_quantity x →
   map_value (level_price x) m + level_quantity x ≤ INT64_MAX →
   Q tt (set_level (level_price x)
           (map_value (level_price x) m + level_quantity x) m)) →
  (level_price x < 0 ∨ level_quantity x < 0 → ∀ w s, E (invalid_argument w) s) →
  (0 ≤ level_price x → 0 ≤ level_quantity x →
   INT64_MAX < map_value (level_price x) m + level_quantity x →
   ∀ s, E (overflow_error dup) s) →
  wp (aggregate_level before name dup x) Q E m.
Proof.
  intros Hwf Hp Hx HQ HE HO. unfold aggregate_level, validate_level.
  destruct x as [p q]; simpl in *.
  pose proof (map_value_nonneg p m (proj2 Hwf)) as Hmv.
  wp_step. repeat (wp_step; cbn beta); zb; try (apply HE; lia).
  { subst q. rewrite Z.add_0_r in HQ. rewrite set_level_id in HQ by (done || lia).
    apply HQ; lia. }
  all: destruct Hwf as [Hs Hok];
    destruct (sorted_split p m Hs) as [l1 q0 l2 H1 H2|l1 l2 H1 H2].
  all: rewrite ?map_slot_hit, ?map_slot_miss, ?map_value_hit, ?map_value_miss in * by done.
  all: try mlia.
  all: try (apply HO; lia).
  all: rewrite map_assign_hit by done.
  all: rewrite set_level_app, ?set_level_hit, ?set_level_miss in HQ by done.
  all: rewrite (proj2 (Z.eqb_neq _ 0)) in HQ by lia.
  all: apply HQ; mlia.
Qed.

(** A snapshot is accepted exactly when every level is non-negative and no
    price adds up to more than [INT64_MAX]; the result carries at each price
    the sum of the quantities listed for it. *)
Lemma wp_aggregate name dup levels m Q E :
  levels_wf m →
  Forall (λ x, level_price x ≤ INT64_MAX ∧ level_quantity x ≤ INT64_MAX) levels →
  (∀ m', levels_wf m' → (∀ p, map_value p m' = map_value p m + total_at p levels) →
     Forall (λ x, 0 ≤ level_price x ∧ 0 ≤ level_quantity x) levels → Q tt m') →
  (∀ e s, Exists (λ x, level_price x < 0 ∨ level_quantity x < 0) levels ∨
      (∃ p l1 l2, levels = l1 ++ l2 ∧ Forall (λ x, 0 ≤ level_quantity x) l1 ∧
         INT64_MAX < map_value p m + total_at p l1) → E e s) →
  wp (for_each levels (aggregate_level before name dup)) Q E m.
Proof.
  intros Hwf Hty. revert m Hwf. induction Hty as [|x levels [Hxp Hxq] Hty IH];
    intros m Hwf HQ HE; simpl.
  { apply wp_ret, HQ; [done| |done]. intros p. simpl. lia. }
  apply wp_bind. apply wp_aggregate_level; [done..| | |].
  - intros Hp Hq Hsum. pose proof (map_value_nonneg (level_price x) m (proj2 Hwf)) as Hmv.
    assert (Hwf' : levels_wf (set_level (level_price x)
      (map_value (level_price x) m + level_quantity x) m))
      by (apply levels_wf_set_level; [done|lia..]).
    assert (Hval : ∀ p, map_value p (set_level (level_price x)
        (map_value (level_price x) m + level_quantity x) m) =
      map_value p m + (if level_price x =? p then level_quantity x else 0)).
    { intros p. rewrite map_value_set_level by apply Hwf.
      destruct (level_price x =? p) eqn:Hxp'; zb; subst; lia. }
    apply IH; [done| |].
    + intros m' Hm' Hsums Hall. apply HQ; [done| |by constructor].
      intros p. rewrite Hsums, Hval. simpl. lia.
    + intros e s [Hex|(p & l1 & l2 & -> & Hl1 & Hov)]; apply HE.
      * left. by constructor 2.
      * right. exists p, (x :: l1), l2. split_and!; [done|by constructor|].
        rewrite Hval in Hov. simpl. lia.
  - intros Hneg w s. apply HE. left. by constructor.
  - intros Hp Hq Hov s. apply HE. right. exists (level_price x), [x], levels.
    split_and!; [done|by constructor|]. simpl. rewrite Z.eqb_refl. lia.
Qed.
End levels.
