(* ===== verification/OrderManager.v ===== *)
(** * OrderManager

    The active orders of [include/order_manager.hpp] and [src/order_manager.cpp]:
    a vector of orders, an index from order id to position, and one ordered set
    of priority keys per side.  A pointer or reference to an order is its
    position in the vector.  [std::unordered_map] is a [gmap]; a [std::set] is
    the list of its keys in iteration order. *)
From S2P Require Import Prelude Orders.

Local Open Scope Z_scope.

Record PriorityKey : Type := mkKey {
  key_price_ticks : Z;
  key_sequence_number : Z;
  key_order_id : Z
}.

#[export] Instance PriorityKey_eq_dec : EqDecision PriorityKey.
Proof. solve_decision. Defined.

Definition BuyPriorityCompare (lhs rhs : PriorityKey) : bool :=
  if negb (key_price_ticks lhs =? key_price_ticks rhs)
  then key_price_ticks lhs >? key_price_ticks rhs
  else if negb (key_sequence_number lhs =? key_sequence_number rhs)
  then key_sequence_number lhs <? key_sequence_number rhs
  else key_order_id lhs <? key_order_id rhs.

Definition SellPriorityCompare (lhs rhs : PriorityKey) : bool :=
  if negb (key_price_ticks lhs =? key_price_ticks rhs)
  then key_price_ticks lhs <? key_price_ticks rhs
  else if negb (key_sequence_number lhs =? key_sequence_number rhs)
  then key_sequence_number lhs <? key_sequence_number rhs
  else key_order_id lhs <? key_order_id rhs.

(** ** Ordered sets *)

Section ordered_set.
Context {K : Type} (lt : K → K → bool).

(** [insert]: the set afterwards and whether the key was new. *)
Fixpoint set_insert (k : K) (l : list K) : list K * bool :=
  match l with
  | [] => ([k], true)
  | x :: r =>
      if lt x k then let '(r', b) := set_insert k r in (x :: r', b)
      else if lt k x then (k :: x :: r, true)
      else (x :: r, false)
  end.

(** [erase] by key, with the number of elements erased; [extract] is the
    same with the node handle, empty when the key was absent. *)
Fixpoint set_erase (k : K) (l : list K) : list K * option K :=
  match l with
  | [] => ([], None)
  | x :: r =>
      if lt x k then let '(r', b) := set_erase k r in (x :: r', b)
      else if lt k x then (x :: r, None)
      else (r, Some x)
  end.
End ordered_set.

(** ** State *)

Record OrderManager : Type := mkOrderManager {
  orders_ : list LimitOrder;
  order_indices_ : gmap Z nat;
  buy_priority_index_ : list PriorityKey;
  sell_priority_index_ : list PriorityKey
}.

Definition empty_manager : OrderManager := mkOrderManager [] ∅ [] [].

Definition set_orders (l : list LimitOrder) (om : OrderManager) : OrderManager :=
  mkOrderManager l (order_indices_ om) (buy_priority_index_ om) (sell_priority_index_ om).
Definition set_indices (m : gmap Z nat) (om : OrderManager) : OrderManager :=
  mkOrderManager (orders_ om) m (buy_priority_index_ om) (sell_priority_index_ om).

(** The priority index of a side. *)
Definition side_compare (s : OrderSide) : PriorityKey → PriorityKey → bool :=
  match s with Buy => BuyPriorityCompare | Sell => SellPriorityCompare end.
Definition side_index (s : OrderSide) (om : OrderManager) : list PriorityKey :=
  match s with Buy => buy_priority_index_ om | Sell => sell_priority_index_ om end.
Definition set_side_index (s : OrderSide) (l : list PriorityKey) (om : OrderManager)
    : OrderManager :=
  match s with
  | Buy => mkOrderManager (orders_ om) (order_indices_ om) l (sell_priority_index_ om)
  | Sell => mkOrderManager (orders_ om) (order_indices_ om) (buy_priority_index_ om) l
  end.

(** The name of a side in the messages. *)
Definition side_name (s : OrderSide) : string := match s with Buy => "Buy" | Sell => "Sell" end.
Definition side_name_lower (s : OrderSide) : string :=
  match s with Buy => "buy" | Sell => "sell" end.

Definition index_insert (s : OrderSide) (k : PriorityKey) : M OrderManager bool :=
  let* om := gets id in
  let '(l, inserted) := set_insert (side_compare s) k (side_index s om) in
  modify (set_side_index s l) ;;; ret inserted.

Definition index_extract (s : OrderSide) (k : PriorityKey) : M OrderManager (option PriorityKey) :=
  let* om := gets id in
  let '(l, node) := set_erase (side_compare s) k (side_index s om) in
  modify (set_side_index s l) ;;; ret node.

Definition pop_back : M OrderManager unit :=
  modify (λ om, set_orders (take (length (orders_ om) - 1) (orders_ om)) om).

(** The record a removal leaves behind.  An absent node handle is [None]. *)
Record Removal : Type := mkRemoval {
  removed_order : LimitOrder;
  original_index : nat;
  swapped : bool;
  swapped_order_id : Z;
  removed_index_node : option (Z * nat);
  removed_buy_priority_node : option PriorityKey;
  removed_sell_priority_node : option PriorityKey
}.

(** [removal.removed_order = o]. *)
Definition set_removed_order (o : LimitOrder) (r : Removal) : Removal :=
  mkRemoval o (original_index r) (swapped r) (swapped_order_id r) (removed_index_node r)
    (removed_buy_priority_node r) (removed_sell_priority_node r).

(** ** Operations *)

Definition validate_order {S} (o : LimitOrder) : M S unit :=
  (if order_id o =? 0 then throw (invalid_argument "Order ID must be non-zero.") else ret tt) ;;;
  require_positive (price_ticks o) "Order price" ;;;
  require_positive (original_quantity o) "Order original quantity" ;;;
  require_positive (remaining_quantity o) "Active order remaining quantity" ;;;
  (if remaining_quantity o >? original_quantity o
   then throw (invalid_argument
                 "Order remaining quantity cannot exceed original quantity.")
   else ret tt) ;;;
  (if sequence_number o =? 0
   then throw (invalid_argument "Order sequence number must be non-zero.")
   else ret tt).

Definition make_priority_key (o : LimitOrder) : PriorityKey :=
  mkKey (price_ticks o) (sequence_number o) (order_id o).

(** The handler of [add_order] reads the flags at the point of the throw: only
    the insertion into the priority index can throw, after the id was indexed
    and before [priority_index_added] is set. *)
Definition add_order (order : LimitOrder) : M OrderManager unit :=
  validate_order order ;;;
  let* om := gets id in
  match order_indices_ om !! order_id order with
  | Some _ => throw (invalid_argument "Order ID already exists.")
  | None =>
      modify (λ om, set_orders (orders_ om ++ [order]) om) ;;;
      try_catch (
        modify (λ om, set_indices
          (<[order_id order := (length (orders_ om) - 1)%nat]> (order_indices_ om)) om) ;;;
        let key := make_priority_key order in
        let* inserted := index_insert (side order) key in
        if inserted then ret tt
        else throw (logic_error (side_name (side order) +:+ " priority key already exists.")))
      (λ e,
        modify (λ om, set_indices (delete (order_id order) (order_indices_ om)) om) ;;;
        pop_back ;;;
        throw e)
  end.

(** Moving the last order into position [index], shared by both overloads of
    [cancel_order]. *)
Definition move_last_into (index last_index : nat) : M OrderManager unit :=
  let* om := gets id in
  let* moved := at_index (orders_ om) last_index in
  modify (λ om, set_orders (<[index := moved]> (orders_ om)) om) ;;;
  let* om := gets id in
  match order_indices_ om !! order_id moved with
  | None => throw (logic_error "Moved order is missing from index.")
  | Some _ => modify (λ om, set_indices (<[order_id moved := index]> (order_indices_ om)) om)
  end.

Definition cancel_order (id_ : Z) : M OrderManager bool :=
  let* om := gets id in
  match order_indices_ om !! id_ with
  | None => ret false
  | Some index =>
      let* order_to_remove := at_index (orders_ om) index in
      let priority_key := make_priority_key order_to_remove in
      let* erased := index_extract (side order_to_remove) priority_key in
      match erased with
      | None => throw (logic_error
          (side_name (side order_to_remove) +:+ " order is missing from priority index."))
      | Some _ =>
          let last_index := (length (orders_ om) - 1)%nat in
          when (negb (index =? last_index)%nat) (move_last_into index last_index) ;;;
          pop_back ;;;
          modify (λ om, set_indices (delete id_ (order_indices_ om)) om) ;;;
          ret true
      end
  end.

(** The overload with a [Removal&]; the record is the result, [None] for the
    [false] of an unknown id. *)
Definition cancel_order_removal (id_ : Z) : M OrderManager (option Removal) :=
  let* om := gets id in
  match order_indices_ om !! id_ with
  | None => ret None
  | Some index =>
      let last_index := (length (orders_ om) - 1)%nat in
      let* removed := at_index (orders_ om) index in
      let swapped_ := negb (index =? last_index)%nat in
      let* last := at_index (orders_ om) last_index in
      let swapped_id := if swapped_ then order_id last else 0 in
      let* node := index_extract (side removed) (make_priority_key removed) in
      match node with
      | None => throw (logic_error
          ("Removed " +:+ side_name_lower (side removed) +:+ " priority node is missing."))
      | Some key =>
          when swapped_ (move_last_into index last_index) ;;;
          pop_back ;;;
          let* om := gets id in
          match order_indices_ om !! id_ with
          | None => throw (logic_error "Removed order index node is missing.")
          | Some i =>
              modify (λ om, set_indices (delete id_ (order_indices_ om)) om) ;;;
              ret (Some (mkRemoval removed index swapped_ swapped_id (Some (id_, i))
                (if is_buy (side removed) then Some key else None)
                (if is_buy (side removed) then None else Some key)))
          end
      end
  end.

(** The priority node of the removed order's side. *)
Definition removal_node (r : Removal) : option PriorityKey :=
  if is_buy (side (removed_order r)) then removed_buy_priority_node r
  else removed_sell_priority_node r.

(** First part of [restore_removal]: the guards. *)
Definition restore_guards (r : Removal) : M OrderManager (Z * PriorityKey) :=
  match removed_index_node r with
  | None => throw (logic_error "Removal has already been restored.")
  | Some (node_id, _) =>
      let* om := gets id in
      match order_indices_ om !! order_id (removed_order r) with
      | Some _ => throw (logic_error "Removed order already exists.")
      | None =>
          match removal_node r with
          | None => throw (logic_error
              ("Removed " +:+ side_name_lower (side (removed_order r))
                 +:+ " priority node is missing."))
          | Some key => ret (node_id, key)
          end
      end
  end.

(** Second part: the vector. *)
Definition restore_orders (r : Removal) (restored_last_index : nat) : M OrderManager unit :=
  modify (λ om, set_orders (orders_ om ++ [removed_order r]) om) ;;;
  when (swapped r) (
    if (restored_last_index <=? original_index r)%nat
    then pop_back ;;; throw (logic_error "Invalid removal restoration index.")
    else
      let* om := gets id in
      let* at_original := at_index (orders_ om) (original_index r) in
      if negb (order_id at_original =? swapped_order_id r)
      then pop_back ;;;
           throw (logic_error "Swapped order does not match removal record.")
      else
        let* at_last := at_index (orders_ om) restored_last_index in
        modify (λ om, set_orders
          (<[restored_last_index := at_original]>
             (<[original_index r := at_last]> (orders_ om))) om)).

(** Third part: the three indices. *)
Definition restore_indices (r : Removal) (node_id : Z) (key : PriorityKey)
    (restored_last_index : nat) : M OrderManager unit :=
  let* om := gets id in
  match order_indices_ om !! node_id with
  | Some _ => throw (logic_error "Removed order index could not be restored.")
  | None =>
      modify (λ om, set_indices (<[node_id := original_index r]> (order_indices_ om)) om) ;;;
      let* inserted := index_insert (side (removed_order r)) key in
      if negb inserted
      then throw (logic_error ("Removed " +:+ side_name_lower (side (removed_order r))
                                 +:+ " priority could not be restored."))
      else
        when (swapped r) (
          let* om := gets id in
          match order_indices_ om !! swapped_order_id r with
          | None => throw (logic_error "Swapped order is missing from index.")
          | Some _ =>
              modify (λ om, set_indices
                (<[swapped_order_id r := restored_last_index]> (order_indices_ om)) om)
          end)
  end.

(** The node handles are moved out of the record, which comes back empty. *)
Definition restore_removal (r : Removal) : M OrderManager Removal :=
  let* nk := restore_guards r in
  let* restored_last_index := gets (λ om, length (orders_ om)) in
  restore_orders r restored_last_index ;;;
  restore_indices r (fst nk) (snd nk) restored_last_index ;;;
  ret (mkRemoval (removed_order r) (original_index r) (swapped r) (swapped_order_id r) None
    (if is_buy (side (removed_order r)) then None else removed_buy_priority_node r)
    (if is_buy (side (removed_order r)) then removed_sell_priority_node r else None)).

(** ** Lookups *)

(** [find_order]: the position of the order, [None] for [nullptr]. *)
Definition find_order (id_ : Z) (om : OrderManager) : option nat := order_indices_ om !! id_.

Definition best_order (s : OrderSide) (om : OrderManager) : option nat :=
  match side_index s om with
  | [] => None
  | key :: _ => find_order (key_order_id key) om
  end.

Definition best_buy_order (om : OrderManager) : option nat := best_order Buy om.
Definition best_sell_order (om : OrderManager) : option nat := best_order Sell om.

Definition orders (om : OrderManager) : list LimitOrder := orders_ om.

(** Assigning through a pointer to an order. *)
Definition write_order (i : nat) (f : LimitOrder → LimitOrder) : M OrderManager unit :=
  let* om := gets id in
  let* o := at_index (orders_ om) i in
  modify (λ om, set_orders (<[i := f o]> (orders_ om)) om).

Definition update_sequence_number (id_ new_sequence_number : Z) : M OrderManager bool :=
  if new_sequence_number =? 0
  then throw (invalid_argument "Order sequence number must be non-zero.")
  else
    let* om := gets id in
    match find_order id_ om with
    | None => ret false
    | Some i =>
        let* order := at_index (orders_ om) i in
        if sequence_number order =? new_sequence_number then ret true
        else
          let old_key := make_priority_key order in
          let new_key := mkKey (key_price_ticks old_key) new_sequence_number
                           (key_order_id old_key) in
          let* inserted := index_insert (side order) new_key in
          if negb inserted
          then throw (logic_error ("Updated " +:+ side_name_lower (side order)
                                     +:+ " priority key already exists."))
          else
            let* erased := index_extract (side order) old_key in
            match erased with
            | None =>
                let* _ := index_extract (side order) new_key in
                throw (logic_error ("Existing " +:+ side_name_lower (side order)
                                      +:+ " priority key is missing."))
            | Some _ =>
                write_order i (set_sequence new_sequence_number) ;;;
                ret true
            end
    end.
