(* ===== verification/ManagerSpec.v ===== *)
(** * What OrderManager promises

    The abstract view of an [OrderManager] is a pair of queues: the active
    orders of each side, best priority first.  [om_rep] relates a manager to
    its queues; every operation is specified by what it does to the queues. *)
From S2P Require Import Prelude Orders OrderManager.

Local Open Scope Z_scope.

(** ** The comparators are strict total orders *)

Ltac key_cases :=
  repeat match goal with
  | k : PriorityKey |- _ => destruct k
  end; simpl in *;
  repeat match goal with
  | H : context [negb (?a =? ?b)] |- _ => destruct (a =? b) eqn:?; simpl in *
  | |- context [negb (?a =? ?b)] => destruct (a =? b) eqn:?; simpl in *
  end.

#[export] Instance BuyPriorityCompare_total : StrictTotal BuyPriorityCompare.
Proof.
  split; unfold BuyPriorityCompare.
  - intros x. rewrite !Z.eqb_refl; simpl. apply Z.ltb_irrefl.
  - intros x y z. key_cases; intros; zb;
      first [rewrite Z.gtb_ltb; apply Z.ltb_lt; lia | apply Z.ltb_lt; lia].
  - intros x y. key_cases; intros; zb; try lia. f_equal; lia.
Qed.

#[export] Instance SellPriorityCompare_total : StrictTotal SellPriorityCompare.
Proof.
  split; unfold SellPriorityCompare.
  - intros x. rewrite !Z.eqb_refl; simpl. apply Z.ltb_irrefl.
  - intros x y z. key_cases; intros; zb; apply Z.ltb_lt; lia.
  - intros x y. key_cases; intros; zb; try lia. f_equal; lia.
Qed.

#[export] Instance side_compare_total s : StrictTotal (side_compare s).
Proof. destruct s; apply _. Qed.

(** ** Priority

    Price first, then time, then id: the order in which the orders of a side
    are to be served, stated on the orders themselves. *)
Definition better_price (s : OrderSide) (a b : LimitOrder) : Prop :=
  match s with
  | Buy => price_ticks b < price_ticks a
  | Sell => price_ticks a < price_ticks b
  end.

Definition earlier (a b : LimitOrder) : Prop :=
  sequence_number a < sequence_number b ∨
  sequence_number a = sequence_number b ∧ order_id a < order_id b.

Definition served_before (s : OrderSide) (a b : LimitOrder) : Prop :=
  better_price s a b ∨ price_ticks a = price_ticks b ∧ earlier a b.

(** The comparators of the two indices implement it. *)
Lemma side_compare_served s a b :
  side_compare s (make_priority_key a) (make_priority_key b) = true ↔ served_before s a b.
Proof.
  unfold served_before, better_price, earlier.
  destruct s; simpl; unfold BuyPriorityCompare, SellPriorityCompare; simpl;
    destruct (price_ticks a =? price_ticks b) eqn:?; simpl; zb;
    rewrite ?Z.gtb_ltb, ?Z.ltb_lt; try lia;
    destruct (sequence_number a =? sequence_number b) eqn:?; simpl; zb; rewrite Z.ltb_lt; lia.
Qed.

#[export] Instance served_before_dec s a b : Decision (served_before s a b).
Proof.
  destruct (side_compare s (make_priority_key a) (make_priority_key b)) eqn:Hc.
  - left. by apply side_compare_served.
  - right. intros H%side_compare_served. congruence.
Defined.

(** ** Ordered sets *)

Section ordered_set.
Context {K : Type} (lt : K → K → bool) `{!StrictTotal lt}.

Definition set_sorted (l : list K) : Prop := StronglySorted (λ x y, lt x y = true) l.

Lemma set_sorted_split l1 k l2 :
  set_sorted (l1 ++ k :: l2) →
  Forall (λ x, lt x k = true) l1 ∧ Forall (λ x, lt k x = true) l2 ∧ set_sorted (l1 ++ l2).
Proof.
  unfold set_sorted. rewrite !StronglySorted_app, StronglySorted_cons.
  intros (H1 & H2 & H3 & H4). split_and!; [|done| |done|done].
  - apply Forall_forall. intros x Hx. apply H1; [done|]. by left.
  - intros x y Hx Hy. apply H1; [done|]. by right.
Qed.

Lemma set_erase_middle l1 k l2 :
  Forall (λ x, lt x k = true) l1 → set_erase lt k (l1 ++ k :: l2) = (l1 ++ l2, Some k).
Proof.
  induction 1 as [|x l1 Hx _ IH]; simpl; [by rewrite !st_irrefl|]. by rewrite Hx, IH.
Qed.

Lemma set_insert_middle l1 k l2 :
  Forall (λ x, lt x k = true) l1 → Forall (λ x, lt k x = true) l2 →
  set_insert lt k (l1 ++ l2) = (l1 ++ k :: l2, true).
Proof.
  intros H1 H2. induction H1 as [|x l1 Hx _ IH]; simpl; [|by rewrite Hx, IH].
  destruct H2 as [|x l2 Hx]; simpl; [done|]. by rewrite Hx, (st_asym lt) by done.
Qed.

Lemma set_sorted_nodup l : set_sorted l → NoDup l.
Proof.
  induction 1 as [|k l Hl IH Hk]; [constructor|]. constructor; [|done].
  rewrite Forall_forall in Hk. intros Hin%Hk. by rewrite st_irrefl in Hin.
Qed.

(** The place of a new key. *)
Lemma set_position k l :
  set_sorted l → k ∉ l →
  ∃ l1 l2, l = l1 ++ l2 ∧ Forall (λ x, lt x k = true) l1 ∧ Forall (λ x, lt k x = true) l2.
Proof.
  intros Hs. induction Hs as [|x l Hs IH Hx]; intros Hk.
  { by exists [], []. }
  destruct (lt x k) eqn:Hxk.
  - destruct IH as (l1 & l2 & -> & ? & ?); [set_solver|]. by exists (x :: l1), l2; auto.
  - destruct (lt k x) eqn:Hkx.
    + exists [], (x :: l). split_and!; [done..|]. constructor; [done|].
      eapply Forall_impl; [done|]. intros y ?. by eapply st_trans.
    + destruct Hk. rewrite (st_total (lt:=lt) k x) by done. by left.
Qed.

Lemma set_sorted_middle l1 k l2 :
  set_sorted (l1 ++ l2) → Forall (λ x, lt x k = true) l1 → Forall (λ x, lt k x = true) l2 →
  set_sorted (l1 ++ k :: l2).
Proof.
  unfold set_sorted. rewrite !StronglySorted_app, StronglySorted_cons, !Forall_forall.
  intros (H1 & H2 & H3) H4 H5. split_and!; [|done..|done].
  intros x y Hx [->|Hy]%elem_of_cons; auto.
Qed.
End ordered_set.

(** ** Queues *)

Record Queues : Type := mkQueues { buy_queue : list LimitOrder; sell_queue : list LimitOrder }.

Definition queue (s : OrderSide) (q : Queues) : list LimitOrder :=
  match s with Buy => buy_queue q | Sell => sell_queue q end.

Definition set_queue (s : OrderSide) (l : list LimitOrder) (q : Queues) : Queues :=
  match s with Buy => mkQueues l (sell_queue q) | Sell => mkQueues (buy_queue q) l end.

Definition all_orders (q : Queues) : list LimitOrder := buy_queue q ++ sell_queue q.

Definition other_side (s : OrderSide) : OrderSide := match s with Buy => Sell | Sell => Buy end.

Lemma queue_set_queue s l q : queue s (set_queue s l q) = l.
Proof. by destruct s. Qed.

Lemma queue_set_queue_other s l q : queue (other_side s) (set_queue s l q) = queue (other_side s) q.
Proof. by destruct s. Qed.

Lemma set_queue_id s q : set_queue s (queue s q) q = q.
Proof. by destruct s, q. Qed.

Lemma set_queue_set_queue s l l' q : set_queue s l (set_queue s l' q) = set_queue s l q.
Proof. by destruct s. Qed.

Lemma all_orders_queue s q : all_orders q ≡ₚ queue s q ++ queue (other_side s) q.
Proof. destruct s; [done|]. apply Permutation_app_comm. Qed.

Lemma elem_of_all_orders o q : o ∈ all_orders q ↔ o ∈ buy_queue q ∨ o ∈ sell_queue q.
Proof. apply elem_of_app. Qed.

(** ** Representation *)

(** The id index is the inverse of the vector. *)
Definition indices_ok (l : list LimitOrder) (m : gmap Z nat) : Prop :=
  ∀ id i, m !! id = Some i ↔ ∃ o, l !! i = Some o ∧ order_id o = id.

(** A queue holds the orders of its side in priority order. *)
Definition queue_ok (s : OrderSide) (l : list LimitOrder) : Prop :=
  Forall (λ o, side o = s) l ∧ set_sorted (side_compare s) (map make_priority_key l).

Record om_rep (om : OrderManager) (q : Queues) : Prop := mk_om_rep {
  rep_indices : indices_ok (orders_ om) (order_indices_ om);
  rep_perm : orders_ om ≡ₚ all_orders q;
  rep_index s : side_index s om = map make_priority_key (queue s q);
  rep_queue s : queue_ok s (queue s q)
}.

Lemma om_rep_empty : om_rep empty_manager (mkQueues [] []).
Proof.
  split; [|done|by intros []|intros []; by split; constructor].
  intros id i. simpl. rewrite lookup_empty. split; [done|].
  intros (o & Ho & _). by rewrite lookup_nil in Ho.
Qed.

(** *** The id index *)

Lemma indices_ok_lookup l m i o :
  indices_ok l m → l !! i = Some o → m !! order_id o = Some i.
Proof. intros H Hi. apply H. eauto. Qed.

Lemma indices_ok_inj l m i j o o' :
  indices_ok l m → l !! i = Some o → l !! j = Some o' → order_id o = order_id o' → i = j.
Proof.
  intros H Hi Hj Heq. pose proof (indices_ok_lookup _ _ _ _ H Hi) as H1.
  pose proof (indices_ok_lookup _ _ _ _ H Hj) as H2. rewrite Heq in H1. congruence.
Qed.

Lemma indices_ok_fresh l m id :
  indices_ok l m → m !! id = None ↔ ∀ o, o ∈ l → order_id o ≠ id.
Proof.
  intros H. split.
  - intros Hn o [i Hi]%list_elem_of_lookup Ho. pose proof (indices_ok_lookup _ _ _ _ H Hi).
    congruence.
  - intros Hf. destruct (m !! id) as [i|] eqn:Hm; [|done].
    apply H in Hm as (o & Hi & <-). destruct (Hf o); [|done]. by eapply list_elem_of_lookup_2.
Qed.

Lemma indices_ok_push l m o :
  indices_ok l m → m !! order_id o = None →
  indices_ok (l ++ [o]) (<[order_id o := length l]> m).
Proof.
  intros H Hn id i. destruct (decide (id = order_id o)) as [->|Hne].
  - rewrite lookup_insert_eq. split.
    + intros [= <-]. exists o. by rewrite list_lookup_middle.
    + intros (o' & Hi & Hid). apply lookup_app_Some in Hi as [Hi|[Hle Hi]].
      * destruct (proj1 (indices_ok_fresh _ _ _ H) Hn o'); [|done].
        by eapply list_elem_of_lookup_2.
      * apply list_lookup_singleton_Some in Hi as [? _]. f_equal. lia.
  - rewrite lookup_insert_ne, (H id i) by done. split; intros (o' & Hi & Hid); exists o'.
    + split; [|done]. by apply lookup_app_l_Some.
    + split; [|done]. apply lookup_app_Some in Hi as [Hi|[_ Hi]]; [done|].
      apply list_lookup_singleton_Some in Hi as [_ ->]. by destruct Hne.
Qed.

(** Overwriting an order by one with the same id. *)
Lemma indices_ok_write l m i o o' :
  indices_ok l m → l !! i = Some o → order_id o' = order_id o →
  indices_ok (<[i := o']> l) m.
Proof.
  intros H Hi Hid id j. rewrite (H id j).
  destruct (decide (i = j)) as [<-|Hne].
  - rewrite list_lookup_insert_eq by by eapply lookup_lt_Some.
    split; intros (o2 & Ho2 & <-); simplify_eq; eauto.
  - by rewrite list_lookup_insert_ne.
Qed.

(** Dropping the last order, and the swap before it. *)
Lemma indices_ok_pop l m o :
  indices_ok (l ++ [o]) m → indices_ok l (delete (order_id o) m).
Proof.
  intros H id i.
  assert (Hlast : m !! order_id o = Some (length l))
    by (apply H; exists o; by rewrite list_lookup_middle).
  destruct (decide (id = order_id o)) as [->|Hne].
  - rewrite lookup_delete_eq. split; [done|]. intros (o' & Hi & Hid).
    pose proof (lookup_lt_Some _ _ _ Hi).
    assert (m !! order_id o = Some i); [|simplify_eq; lia].
    apply H. exists o'. by rewrite lookup_app_l.
  - rewrite lookup_delete_ne, (H id i) by done. split; intros (o' & Hi & Hid); exists o'.
    + split; [|done]. apply lookup_app_Some in Hi as [Hi|[_ Hi]]; [done|].
      apply list_lookup_singleton_Some in Hi as [_ ->]. by destruct Hne.
    + split; [|done]. by apply lookup_app_l_Some.
Qed.

(** The last order [z] takes the place [i] of a removed order [o]; when [o] is
    the last order itself the write falls outside [l]. *)
Lemma indices_ok_swap_remove l z m i o :
  indices_ok (l ++ [z]) m → (l ++ [z]) !! i = Some o →
  indices_ok (<[i := z]> l) (delete (order_id o) (<[order_id z := i]> m)).
Proof.
  intros H Hi.
  assert (Hz : (l ++ [z]) !! length l = Some z) by by rewrite list_lookup_middle.
  assert (Hin : ∀ j o', <[i:=z]> l !! j = Some o' →
    (j = i ∧ o' = z ∧ i < length l)%nat ∨ (j ≠ i ∧ (l ++ [z]) !! j = Some o' ∧ j < length l)%nat).
  { intros j o' Hj. pose proof (lookup_lt_Some _ _ _ Hj) as Hlt. rewrite length_insert in Hlt.
    destruct (decide (i = j)) as [<-|].
    - rewrite list_lookup_insert_eq in Hj by done. left. naive_solver.
    - rewrite list_lookup_insert_ne in Hj by done. right. split_and!; [done| |done].
      by apply lookup_app_l_Some. }
  assert (Hinj := λ j o' H1 H2, indices_ok_inj _ _ _ _ o' o H H1 H2 : _ → j = i).
  assert (Hinjz := λ j o' H1, indices_ok_inj _ _ j _ o' z H H1 Hz).
  intros id j. destruct (decide (id = order_id o)) as [->|Hne].
  { rewrite lookup_delete_eq. split; [done|].
    intros (o' & [(-> & -> & ?)|(? & Hj & ?)]%Hin & Hid).
    - pose proof (Hinjz i o Hi). naive_solver lia.
    - by destruct (Hinj j o' Hj Hi Hid). }
  rewrite lookup_delete_ne by done.
  destruct (decide (id = order_id z)) as [->|Hnz].
  - rewrite lookup_insert_eq. split.
    + intros [= <-]. exists z. split; [|done]. apply list_lookup_insert_eq.
      pose proof (lookup_lt_Some _ _ _ Hi) as Hlt. rewrite length_app in Hlt. simpl in Hlt.
      destruct (decide (i = length l)) as [->|]; [|lia]. congruence.
    + intros (o' & [(-> & -> & ?)|(? & Hj & ?)]%Hin & Hid); [done|].
      pose proof (Hinjz j o' Hj Hid). lia.
  - rewrite lookup_insert_ne, (H id j) by done. split.
    + intros (o' & Hj & Hid). exists o'. split; [|done].
      rewrite list_lookup_insert_ne by (intros ->; naive_solver).
      apply lookup_app_Some in Hj as [|[_ Hj]]; [done|].
      apply list_lookup_singleton_Some in Hj as [_ ->]. by destruct Hnz.
    + intros (o' & [(-> & -> & ?)|(? & Hj & ?)]%Hin & Hid); [done|eauto].
Qed.

Lemma swap_remove_perm (l : list LimitOrder) z i o :
  (l ++ [z]) !! i = Some o → l ++ [z] ≡ₚ o :: <[i := z]> l.
Proof.
  intros Hi. apply lookup_app_Some in Hi as [Hi|[Hle Hi]].
  - destruct (insert_perm l i o z Hi) as (r & Hr & ->).
    rewrite (Permutation_app_comm _ [z]). simpl. rewrite Hr. constructor.
  - apply list_lookup_singleton_Some in Hi as [? ->].
    rewrite list_insert_ge by done. by rewrite Permutation_app_comm.
Qed.

(** *** Projections of updated managers *)

Lemma orders_set_side_index s k om : orders_ (set_side_index s k om) = orders_ om.
Proof. by destruct s. Qed.
Lemma indices_set_side_index s k om : order_indices_ (set_side_index s k om) = order_indices_ om.
Proof. by destruct s. Qed.
Lemma side_index_set s k om : side_index s (set_side_index s k om) = k.
Proof. by destruct s. Qed.
Lemma side_index_set_ne s s' k om : s ≠ s' → side_index s' (set_side_index s k om) = side_index s' om.
Proof. by destruct s, s'. Qed.
Lemma side_index_set_orders s l om : side_index s (set_orders l om) = side_index s om.
Proof. by destruct s. Qed.
Lemma side_index_set_indices s m om : side_index s (set_indices m om) = side_index s om.
Proof. by destruct s. Qed.
Lemma set_side_index_twice s k k' om : set_side_index s k (set_side_index s k' om) = set_side_index s k om.
Proof. by destruct s. Qed.
Lemma set_side_index_id s om : set_side_index s (side_index s om) om = om.
Proof. by destruct s, om. Qed.
Lemma set_orders_side_index s k l om :
  set_orders l (set_side_index s k om) = set_side_index s k (set_orders l om).
Proof. by destruct s. Qed.
Lemma set_indices_side_index s k m om :
  set_indices m (set_side_index s k om) = set_side_index s k (set_indices m om).
Proof. by destruct s. Qed.
Lemma set_indices_orders l m om : set_indices m (set_orders l om) = set_orders l (set_indices m om).
Proof. done. Qed.

Create HintDb manager.
#[export] Hint Rewrite orders_set_side_index indices_set_side_index side_index_set
  side_index_set_orders side_index_set_indices set_side_index_twice set_side_index_id
  set_orders_side_index set_indices_side_index : manager.

Lemma wp_index_extract s k1 k k2 om Q E :
  side_index s om = k1 ++ k :: k2 → Forall (λ x, side_compare s x k = true) k1 →
  Q (Some k) (set_side_index s (k1 ++ k2) om) → wp (index_extract s k) Q E om.
Proof.
  intros Hi H1 HQ. unfold index_extract. wp_steps. unfold id.
  rewrite Hi, set_erase_middle by (apply _ || done). by wp_steps.
Qed.

Lemma wp_index_insert s k1 k k2 om Q E :
  side_index s om = k1 ++ k2 → Forall (λ x, side_compare s x k = true) k1 →
  Forall (λ x, side_compare s k x = true) k2 →
  Q true (set_side_index s (k1 ++ k :: k2) om) → wp (index_insert s k) Q E om.
Proof.
  intros Hi H1 H2 HQ. unfold index_insert. wp_steps. unfold id.
  rewrite Hi, set_insert_middle by (apply _ || done). by wp_steps.
Qed.

(** ** Removal *)

(** The manager once [o] is removed from position [i] of [l ++ [z]] and its
    side's index is [k]. *)
Definition without (i : nat) (o z : LimitOrder) (l : list LimitOrder) (k : list PriorityKey)
    (om : OrderManager) : OrderManager :=
  set_side_index (side o) k
    (set_indices (delete (order_id o) (<[order_id z := i]> (order_indices_ om)))
       (set_orders (<[i := z]> l) om)).

(** The record of that removal, with [o'] as the removed order. *)
Definition removal_of (i : nat) (o' o z : LimitOrder) (l : list LimitOrder) : Removal :=
  let sw := negb (i =? length l)%nat in
  mkRemoval o' i sw (if sw then order_id z else 0) (Some (order_id o, i))
    (if is_buy (side o) then Some (make_priority_key o) else None)
    (if is_buy (side o) then None else Some (make_priority_key o)).

Section removal.
Context (om : OrderManager) (l : list LimitOrder) (i : nat) (o z : LimitOrder)
  (k1 k2 : list PriorityKey).
Hypothesis (Hix : indices_ok (orders_ om) (order_indices_ om))
  (Hl : orders_ om = l ++ [z]) (Hi : orders_ om !! i = Some o)
  (Hk : side_index (side o) om = k1 ++ make_priority_key o :: k2)
  (Hs : set_sorted (side_compare (side o)) (side_index (side o) om)).

Local Lemma last_position : (length (orders_ om) - 1)%nat = length l.
Proof. rewrite Hl, length_app. simpl. lia. Qed.

Local Lemma position_bound : (i ≤ length l)%nat.
Proof. pose proof (lookup_lt_Some _ _ _ Hi) as H. rewrite Hl, length_app in H. simpl in H. lia. Qed.

Local Lemma position_last : i = length l → o = z.
Proof. intros ->. rewrite Hl, list_lookup_middle in Hi by done. congruence. Qed.

Local Lemma position_inner : i ≠ length l → l !! i = Some o ∧ order_id z ≠ order_id o.
Proof.
  intros Hne. pose proof position_bound. rewrite Hl in Hi, Hix. split.
  - rewrite lookup_app_l in Hi by lia. done.
  - intros Heq. apply Hne. symmetry. eapply indices_ok_inj; [done| |done|done].
    by rewrite list_lookup_middle.
Qed.

Local Lemma before_key :
  Forall (λ x, side_compare (side o) x (make_priority_key o) = true) k1.
Proof. rewrite Hk in Hs. by apply set_sorted_split in Hs as (? & _). Qed.

Lemma id_lookup : order_indices_ om !! order_id o = Some i.
Proof. by eapply indices_ok_lookup. Qed.

(** The swap and the [pop_back]. *)
Lemma wp_vacate {A} (rest : M OrderManager A) k Q E :
  wp rest Q E (set_side_index (side o) k
    (set_indices (<[order_id z := i]> (order_indices_ om)) (set_orders (<[i := z]> l) om))) →
  wp (when (negb (i =? length l)%nat) (move_last_into i (length l)) ;;; pop_back ;;; rest)
    Q E (set_side_index (side o) k om).
Proof.
  intros Hf.
  assert (Hzi : order_indices_ om !! order_id z = Some (length l))
    by (apply (indices_ok_lookup _ _ _ _ Hix); rewrite Hl; by rewrite list_lookup_middle).
  apply wp_bind, wp_when; intros Hsw; zb.
  - apply Nat.eqb_neq in Hsw. destruct (position_inner Hsw) as [Hli Hne].
    unfold move_last_into, pop_back. wp_steps. unfold id.
    apply wp_at_index with z.
    { rewrite orders_set_side_index, Hl. by rewrite list_lookup_middle. }
    wp_steps. unfold id. autorewrite with manager; simpl. rewrite Hzi.
    wp_steps. autorewrite with manager; simpl.
    rewrite Hl, length_insert, length_app, Nat.add_sub, insert_app_l
      by (by eapply lookup_lt_Some).
    rewrite take_app_length' by by rewrite length_insert. exact Hf.
  - apply Nat.eqb_eq in Hsw.
    unfold pop_back. wp_steps. autorewrite with manager; simpl.
    rewrite last_position, Hl, take_app_length.
    rewrite list_insert_ge, insert_id in Hf by (lia || congruence).
    destruct om; exact Hf.
Qed.

Lemma wp_cancel_order_at Q E :
  Q true (without i o z l (k1 ++ k2) om) → wp (cancel_order (order_id o)) Q E om.
Proof.
  intros HQ. unfold cancel_order. wp_steps. unfold id. rewrite id_lookup.
  wp_step. apply wp_at_index with o; [done|]. wp_steps.
  eapply wp_index_extract; [done|apply before_key|]. rewrite last_position.
  apply wp_vacate. wp_steps. by autorewrite with manager.
Qed.

Lemma wp_cancel_order_removal_at Q E :
  Q (Some (removal_of i o o z l)) (without i o z l (k1 ++ k2) om) →
  wp (cancel_order_removal (order_id o)) Q E om.
Proof.
  intros HQ. unfold cancel_order_removal. wp_steps. unfold id. rewrite id_lookup.
  wp_step. apply wp_at_index with o; [done|]. wp_step.
  rewrite last_position. apply wp_at_index with z.
  { rewrite Hl. by rewrite list_lookup_middle. }
  wp_steps. eapply wp_index_extract; [done|apply before_key|].
  apply wp_vacate. wp_steps. unfold id. autorewrite with manager; simpl.
  assert (<[order_id z:=i]> (order_indices_ om) !! order_id o = Some i) as ->.
  { destruct (decide (i = length l)) as [Hlast|Hinner].
    - rewrite (position_last Hlast). apply lookup_insert_eq.
    - rewrite lookup_insert_ne by by apply position_inner. apply id_lookup. }
  wp_steps. autorewrite with manager; simpl. exact HQ.
Qed.

(** Restoring puts the order back where it was, with whatever quantities the
    record now says. *)
Local Lemma wp_restore_guards o' Q E :
  order_id o' = order_id o → side o' = side o →
  Q (order_id o, make_priority_key o) (without i o z l (k1 ++ k2) om) →
  wp (restore_guards (removal_of i o' o z l)) Q E (without i o z l (k1 ++ k2) om).
Proof.
  intros Hid Hside HQ. unfold restore_guards; simpl. wp_steps. unfold id, without; simpl.
  autorewrite with manager; simpl. rewrite Hid, lookup_delete_eq.
  assert (removal_node (removal_of i o' o z l) = Some (make_priority_key o)) as ->
    by (unfold removal_node; simpl; rewrite Hside; by destruct (side o)).
  wp_steps. exact HQ.
Qed.

Local Lemma wp_restore_orders o' Q E :
  Q tt (set_orders (<[i := o']> (orders_ om)) (without i o z l (k1 ++ k2) om)) →
  wp (restore_orders (removal_of i o' o z l) (length l)) Q E
    (without i o z l (k1 ++ k2) om).
Proof.
  intros HQ. pose proof position_bound as Hle. rewrite Hl in HQ.
  unfold restore_orders. wp_steps. unfold without in *. autorewrite with manager; simpl.
  apply wp_when; simpl; intros Hsw; pose proof Hsw as Hsw0; zb.
  - apply Nat.eqb_neq in Hsw. destruct (position_inner Hsw) as [Hli _].
    pose proof (lookup_lt_Some _ _ _ Hli) as Hlt.
    wp_step; [apply Nat.leb_le in Heqb; lia|]. wp_steps. unfold id.
    autorewrite with manager; simpl.
    apply wp_at_index with z.
    { rewrite lookup_app_l by by rewrite length_insert. by apply list_lookup_insert_eq. }
    rewrite Hsw0; simpl. rewrite Z.eqb_refl; simpl. wp_steps. apply wp_at_index with o'.
    { rewrite lookup_app_r by (rewrite length_insert; lia).
      by rewrite length_insert, Nat.sub_diag. }
    wp_steps. autorewrite with manager in *; simpl in *.
    rewrite insert_app_l in * by (rewrite ?length_insert; lia).
    rewrite list_insert_insert_eq.
    replace (length l) with (length (<[i:=o']> l)) by by rewrite length_insert.
    by rewrite insert_middle.
  - apply Nat.eqb_eq in Hsw. autorewrite with manager in *; simpl in *.
    rewrite Hsw in HQ |- *. rewrite insert_middle in HQ.
    rewrite list_insert_ge by lia. exact HQ.
Qed.

Lemma wp_restore_removal_at o' Q E :
  order_id o' = order_id o → side o' = side o →
  (∀ r, removed_index_node r = None → Q r (set_orders (<[i := o']> (orders_ om)) om)) →
  wp (restore_removal (removal_of i o' o z l)) Q E (without i o z l (k1 ++ k2) om).
Proof.
  intros Hid Hside HQ. unfold restore_removal. wp_step.
  apply wp_restore_guards; [done..|]. wp_steps.
  replace (length (orders_ (without i o z l (k1 ++ k2) om))) with (length l)
    by (unfold without; autorewrite with manager; simpl; by rewrite length_insert).
  apply wp_restore_orders. unfold restore_indices. wp_steps. unfold id, without.
  autorewrite with manager; simpl. autorewrite with manager; simpl.
  rewrite lookup_delete_eq. wp_steps. autorewrite with manager; simpl.
  rewrite Hside. pose proof Hs as Hs'. rewrite Hk in Hs'.
  apply set_sorted_split in Hs' as (Hk1 & Hk2 & _).
  eapply wp_index_insert; [by autorewrite with manager|done..|].
  simpl. wp_steps. autorewrite with manager.
  assert (Hdone : ∀ r k m, k = side_index (side o) om → m = order_indices_ om →
    removed_index_node r = None →
    Q r (set_side_index (side o) k (set_indices m (set_orders (<[i := o']> (orders_ om)) om)))).
  { intros r k m -> -> Hr. specialize (HQ r Hr). by destruct (side o), om. }
  apply wp_when; simpl; intros Hsw; pose proof Hsw as Hsw0; zb.
  - apply Nat.eqb_neq in Hsw. destruct (position_inner Hsw) as [_ Hne].
    wp_steps. unfold id. autorewrite with manager; simpl. rewrite Hsw0; simpl.
    rewrite insert_delete_eq, lookup_insert_ne, lookup_insert_eq by done.
    wp_steps. autorewrite with manager; simpl. apply Hdone; [done| |done].
    rewrite (insert_insert_ne _ (order_id z)), insert_insert_eq by done.
    rewrite (insert_id _ (order_id z)) by (apply (indices_ok_lookup _ _ _ _ Hix);
      rewrite Hl; by rewrite list_lookup_middle).
    apply insert_id, id_lookup.
  - apply Nat.eqb_eq in Hsw. wp_steps. apply Hdone; [done| |done].
    rewrite (position_last Hsw), insert_delete_eq, insert_insert_eq.
    rewrite <- (position_last Hsw). apply insert_id, id_lookup.
Qed.
End removal.

(** ** The operations on queues *)

Section rep.
Context (om : OrderManager) (q : Queues) (Hrep : om_rep om q).

Lemma rep_orders o : o ∈ orders_ om ↔ o ∈ all_orders q.
Proof. by rewrite (rep_perm _ _ Hrep). Qed.

Lemma rep_side s o : o ∈ queue s q → side o = s.
Proof. pose proof (rep_queue _ _ Hrep s) as [H _]. rewrite Forall_forall in H. apply H. Qed.

Lemma rep_in_queue s o : o ∈ queue s q → o ∈ orders_ om.
Proof. rewrite rep_orders, elem_of_all_orders. destruct s; auto. Qed.

Lemma rep_queue_split o : o ∈ orders_ om → ∃ l1 l2, queue (side o) q = l1 ++ o :: l2.
Proof.
  rewrite rep_orders, elem_of_all_orders. intros Ho.
  apply list_elem_of_split. destruct Ho as [Ho|Ho].
  - by rewrite (rep_side Buy o Ho).
  - by rewrite (rep_side Sell o Ho).
Qed.

Lemma rep_unique_id o o' : o ∈ orders_ om → o' ∈ orders_ om → order_id o = order_id o' → o = o'.
Proof.
  intros [i Hi]%list_elem_of_lookup [j Hj]%list_elem_of_lookup Hid.
  pose proof (indices_ok_inj _ _ _ _ _ _ (rep_indices _ _ Hrep) Hi Hj Hid). congruence.
Qed.

Lemma rep_find o : o ∈ orders_ om → ∃ i, find_order (order_id o) om = Some i ∧ orders_ om !! i = Some o.
Proof.
  intros [i Hi]%list_elem_of_lookup. exists i. split; [|done].
  by eapply indices_ok_lookup; [apply Hrep|].
Qed.

Lemma rep_find_inv id i :
  find_order id om = Some i → ∃ o, orders_ om !! i = Some o ∧ order_id o = id ∧ o ∈ orders_ om.
Proof.
  intros (o & Hi & Hid)%(rep_indices _ _ Hrep). exists o. split_and!; [done..|].
  by eapply list_elem_of_lookup_2.
Qed.

Lemma rep_find_none id :
  find_order id om = None ↔ ∀ o, o ∈ all_orders q → order_id o ≠ id.
Proof.
  unfold find_order. rewrite (indices_ok_fresh _ _ _ (rep_indices _ _ Hrep)).
  by setoid_rewrite rep_orders.
Qed.

(** The best order of a side is the head of its queue. *)
Lemma rep_best_order s :
  match queue s q with
  | [] => best_order s om = None
  | o :: _ => ∃ i, best_order s om = Some i ∧ orders_ om !! i = Some o ∧
                   find_order (order_id o) om = Some i
  end.
Proof.
  unfold best_order. rewrite (rep_index _ _ Hrep s).
  destruct (queue s q) as [|o r] eqn:Hq; simpl; [done|].
  destruct (rep_find o) as (i & Hf & Hi); [|by eauto].
  apply (rep_in_queue s). rewrite Hq. by left.
Qed.

Lemma rep_last o : o ∈ orders_ om → ∃ l z, orders_ om = l ++ [z].
Proof.
  destruct (orders_ om) as [|x l] eqn:Hl using rev_ind; [by intros ?%elem_of_nil|eauto].
Qed.

Lemma rep_sorted_index s : set_sorted (side_compare s) (side_index s om).
Proof. rewrite (rep_index _ _ Hrep s). apply Hrep. Qed.

Lemma rep_orders_empty : orders_ om = [] ↔ q = mkQueues [] [].
Proof.
  pose proof (rep_perm _ _ Hrep) as Hp. destruct q as [b s]; unfold all_orders in *; simpl in *.
  split.
  - intros Ho. rewrite Ho in Hp. apply Permutation_nil_l, eq_sym, app_eq_nil in Hp.
    by destruct Hp as [-> ->].
  - intros [= -> ->]. by apply Permutation_nil_r in Hp.
Qed.

(** *** Removal *)

(** No other order has the id of an order in a queue. *)
Lemma rep_ids_distinct s l1 o l2 :
  queue s q = l1 ++ o :: l2 → Forall (λ x, order_id x ≠ order_id o) (l1 ++ l2).
Proof.
  intros Hq. apply Forall_forall. intros x Hx Heq.
  assert (x = o) as ->.
  { apply rep_unique_id; [| |done]; apply (rep_in_queue s);
      rewrite Hq, ?elem_of_app, ?elem_of_cons in *; tauto. }
  pose proof (rep_queue _ _ Hrep s) as [_ Hs]. rewrite Hq, map_app in Hs. simpl in Hs.
  apply set_sorted_split in Hs as (H1 & H2 & _). rewrite Forall_map, Forall_forall in H1, H2.
  apply elem_of_app in Hx as [Hx|Hx]; [specialize (H1 o Hx)|specialize (H2 o Hx)];
    simpl in *; by rewrite st_irrefl in *.
Qed.

Lemma rep_removed_fresh s l1 o l2 om' :
  queue s q = l1 ++ o :: l2 → om_rep om' (set_queue s (l1 ++ l2) q) →
  find_order (order_id o) om' = None.
Proof.
  intros Hq Hrep'. assert (Hs : side o = s) by (apply rep_side; rewrite Hq; set_solver).
  apply indices_ok_fresh with (orders_ om'); [apply Hrep'|].
  intros x Hx Heq. rewrite (rep_perm _ _ Hrep'), (all_orders_queue s), queue_set_queue,
    queue_set_queue_other, elem_of_app in Hx. destruct Hx as [Hx|Hx].
  - pose proof (rep_ids_distinct _ _ _ _ Hq) as H. rewrite Forall_forall in H. by apply (H x).
  - assert (x = o) as ->.
    { apply rep_unique_id; [by apply (rep_in_queue (other_side s))| |done].
      apply (rep_in_queue s). rewrite Hq. set_solver. }
    apply rep_side in Hx. by destruct s; rewrite Hx in Hs.
Qed.

Lemma om_rep_without i o l z l1 l2 :
  orders_ om = l ++ [z] → orders_ om !! i = Some o → queue (side o) q = l1 ++ o :: l2 →
  om_rep (without i o z l (map make_priority_key l1 ++ map make_priority_key l2) om)
    (set_queue (side o) (l1 ++ l2) q).
Proof.
  intros Hl Hi Hq. unfold without. split.
  - autorewrite with manager; simpl. rewrite Hl in Hi.
    apply indices_ok_swap_remove; [|done]. rewrite <- Hl. apply Hrep.
  - autorewrite with manager; simpl. apply (Permutation_cons_inv (a:=o)).
    rewrite Hl in Hi. rewrite <- (swap_remove_perm l z i o Hi), <- Hl, (rep_perm _ _ Hrep).
    rewrite !(all_orders_queue (side o)), queue_set_queue, queue_set_queue_other, Hq.
    by rewrite <- Permutation_middle.
  - intros s. destruct (decide (side o = s)) as [<-|Hne].
    + by rewrite side_index_set, queue_set_queue, map_app.
    + rewrite side_index_set_ne, side_index_set_indices, side_index_set_orders by done.
      rewrite (rep_index _ _ Hrep s). by destruct (side o), s.
  - intros s. destruct (decide (side o = s)) as [<-|Hne].
    + rewrite queue_set_queue. pose proof (rep_queue _ _ Hrep (side o)) as [Hf Hsrt].
      rewrite Hq in Hf, Hsrt. split.
      * apply Forall_app in Hf as [? Hf]. apply Forall_app. split; [done|]. by inversion Hf.
      * rewrite map_app in *; simpl in *. by apply set_sorted_split in Hsrt as (_ & _ & ?).
    + assert (queue s (set_queue (side o) (l1 ++ l2) q) = queue s q) as ->
        by by destruct (side o), s. apply Hrep.
Qed.

Lemma wp_cancel_order s l1 o l2 Q E :
  queue s q = l1 ++ o :: l2 →
  (∀ om', om_rep om' (set_queue s (l1 ++ l2) q) → Q true om') →
  wp (cancel_order (order_id o)) Q E om.
Proof.
  intros Hq HQ.
  assert (Ho : o ∈ queue s q) by (rewrite Hq; set_solver).
  pose proof (rep_side s o Ho) as Hs. apply rep_in_queue in Ho.
  destruct (rep_last o Ho) as (l & z & Hl). destruct (rep_find o Ho) as (i & _ & Hi).
  subst s.
  eapply (wp_cancel_order_at om l i o z); [apply Hrep|done..| |apply rep_sorted_index|].
  { by rewrite (rep_index _ _ Hrep), Hq, map_app. }
  by apply HQ, om_rep_without.
Qed.

Lemma wp_cancel_order_unknown oid Q E :
  find_order oid om = None → Q false om → wp (cancel_order oid) Q E om.
Proof. unfold cancel_order, find_order. intros Hn HQ. wp_steps. unfold id. by rewrite Hn. Qed.

(** [restores r om' i om]: run in [om'], restoring [r] with an order [o'] in
    place of the removed one gives [om] with [o'] at position [i]. *)
Definition restores (r : Removal) (om' : OrderManager) (i : nat) (om0 : OrderManager) : Prop :=
  ∀ o' Q E, order_id o' = order_id (removed_order r) → side o' = side (removed_order r) →
    (∀ r', removed_index_node r' = None → Q r' (set_orders (<[i := o']> (orders_ om0)) om0)) →
    wp (restore_removal (set_removed_order o' r)) Q E om'.

Lemma wp_cancel_order_removal s l1 o l2 i Q E :
  queue s q = l1 ++ o :: l2 → orders_ om !! i = Some o →
  (∀ r om', om_rep om' (set_queue s (l1 ++ l2) q) → removed_order r = o →
     restores r om' i om → length (orders_ om) = S (length (orders_ om')) → Q (Some r) om') →
  wp (cancel_order_removal (order_id o)) Q E om.
Proof.
  intros Hq Hi HQ.
  assert (Ho : o ∈ queue s q) by (rewrite Hq; set_solver).
  pose proof (rep_side s o Ho) as Hs. apply rep_in_queue in Ho.
  destruct (rep_last o Ho) as (l & z & Hl). subst s.
  assert (Hk : side_index (side o) om =
    map make_priority_key l1 ++ make_priority_key o :: map make_priority_key l2)
    by by rewrite (rep_index _ _ Hrep), Hq, map_app.
  eapply (wp_cancel_order_removal_at om l i o z);
    [apply Hrep|done..|apply rep_sorted_index|].
  apply HQ; [by apply om_rep_without|done| |].
  - intros o' Q' E' Hid Hside HQ'. simpl in *.
    by eapply (wp_restore_removal_at om l i o z _ _ (rep_indices _ _ Hrep) Hl Hi Hk
      (rep_sorted_index _) o').
  - unfold without. autorewrite with manager; simpl.
    rewrite length_insert, Hl, length_app. simpl. lia.
Qed.
End rep.

(** ** Insertion *)

(** What [validate_order] demands of an order, with the widths of its fields. *)
Definition order_ok (o : LimitOrder) : Prop :=
  0 < order_id o ≤ UINT64_MAX ∧ 0 < price_ticks o ≤ INT64_MAX ∧
  0 < remaining_quantity o ≤ original_quantity o ∧ original_quantity o ≤ INT64_MAX ∧
  0 < sequence_number o ≤ UINT64_MAX.

Lemma wp_validate_order {S} o Q E (s : S) :
  (order_id o ≠ 0 → 0 < price_ticks o → 0 < original_quantity o →
   0 < remaining_quantity o ≤ original_quantity o → sequence_number o ≠ 0 → Q tt s) →
  (order_id o = 0 ∨ price_ticks o ≤ 0 ∨ original_quantity o ≤ 0 ∨ remaining_quantity o ≤ 0 ∨
   original_quantity o < remaining_quantity o ∨ sequence_number o = 0 →
   ∀ w, E (invalid_argument w) s) →
  wp (validate_order o) Q E s.
Proof.
  intros HQ HE. unfold validate_order.
  repeat first [wp_step | apply wp_require_positive; intros]; cbn beta; zb;
    first [apply HE; lia | apply HQ; lia].
Qed.

(** The manager with [o] appended and its side's index [k]. *)
Definition with_order (o : LimitOrder) (k : list PriorityKey) (om : OrderManager) : OrderManager :=
  set_side_index (side o) k
    (set_indices (<[order_id o := length (orders_ om)]> (order_indices_ om))
       (set_orders (orders_ om ++ [o]) om)).

(** A queue with a new order at its place: behind every order that has
    priority over it. *)
Definition queue_insert (s : OrderSide) (o : LimitOrder) (l : list LimitOrder) : list LimitOrder :=
  let n := length (filter (λ x, served_before s x o) l) in
  take n l ++ o :: drop n l.

Lemma queue_insert_app s o l1 l2 :
  Forall (λ x, side_compare s (make_priority_key x) (make_priority_key o) = true) l1 →
  Forall (λ x, side_compare s (make_priority_key o) (make_priority_key x) = true) l2 →
  queue_insert s o (l1 ++ l2) = l1 ++ o :: l2.
Proof.
  intros H1 H2. unfold queue_insert.
  assert (filter (λ x, served_before s x o) (l1 ++ l2) = l1) as ->;
    [|by rewrite take_app_length, drop_app_length].
  rewrite filter_app.
  assert (filter (λ x, served_before s x o) l1 = l1) as ->.
  { clear -H1. induction H1 as [|x l Hx _ IH]; [done|]. rewrite filter_cons_True, IH; [done|].
    by apply side_compare_served. }
  assert (filter (λ x, served_before s x o) l2 = []) as ->; [|by rewrite app_nil_r].
  clear -H2. induction H2 as [|x l Hx _ IH]; [done|].
  rewrite filter_cons_False; [done|]. intros H%side_compare_served.
  by rewrite (st_asym (side_compare s)) in H.
Qed.

Lemma queue_insert_split s o l :
  set_sorted (side_compare s) (map make_priority_key l) →
  Forall (λ x, order_id x ≠ order_id o) l →
  ∃ l1 l2, l = l1 ++ l2 ∧ queue_insert s o l = l1 ++ o :: l2 ∧
    Forall (λ x, side_compare s (make_priority_key x) (make_priority_key o) = true) l1 ∧
    Forall (λ x, side_compare s (make_priority_key o) (make_priority_key x) = true) l2.
Proof.
  intros Hs Hid.
  destruct (set_position (side_compare s) (make_priority_key o) _ Hs)
    as (k1 & k2 & Hk & H1 & H2).
  { intros (x & Hx & Hin)%list_elem_of_fmap. rewrite Forall_forall in Hid.
    apply (Hid x Hin). unfold make_priority_key in Hx. congruence. }
  apply map_eq_app in Hk as (l1 & l2 & -> & <- & <-).
  rewrite Forall_map in H1, H2.
  exists l1, l2. split_and!; [done|by apply queue_insert_app|done..].
Qed.

(** Putting a removed order back where its key belongs is putting it back. *)
Lemma queue_insert_back s o l1 l2 :
  set_sorted (side_compare s) (map make_priority_key (l1 ++ o :: l2)) →
  queue_insert s o (l1 ++ l2) = l1 ++ o :: l2.
Proof.
  rewrite map_app. simpl. intros (H1 & H2 & _)%set_sorted_split.
  rewrite Forall_map in H1, H2. by apply queue_insert_app.
Qed.

Section add.
Context (om : OrderManager) (q : Queues) (Hrep : om_rep om q) (o : LimitOrder).
Hypothesis Hfresh : find_order (order_id o) om = None.

Lemma om_rep_with_order l1 l2 :
  queue (side o) q = l1 ++ l2 →
  Forall (λ x, side_compare (side o) (make_priority_key x) (make_priority_key o) = true) l1 →
  Forall (λ x, side_compare (side o) (make_priority_key o) (make_priority_key x) = true) l2 →
  om_rep (with_order o (map make_priority_key (l1 ++ o :: l2)) om)
    (set_queue (side o) (l1 ++ o :: l2) q).
Proof.
  intros Hq H1 H2. unfold with_order. split.
  - autorewrite with manager; simpl. apply indices_ok_push; [apply Hrep|done].
  - autorewrite with manager; simpl. rewrite (rep_perm _ _ Hrep).
    rewrite !(all_orders_queue (side o)), queue_set_queue, queue_set_queue_other, Hq.
    rewrite (Permutation_app_comm _ [o]), <- Permutation_middle. done.
  - intros s. destruct (decide (side o = s)) as [<-|Hne].
    + by rewrite side_index_set, queue_set_queue.
    + rewrite side_index_set_ne, side_index_set_indices, side_index_set_orders by done.
      rewrite (rep_index _ _ Hrep s). by destruct (side o), s.
  - intros s. destruct (decide (side o = s)) as [<-|Hne].
    + rewrite queue_set_queue. pose proof (rep_queue _ _ Hrep (side o)) as [Hf Hsrt].
      rewrite Hq in Hf, Hsrt. split.
      * apply Forall_app in Hf as [? Hf]. apply Forall_app. auto.
      * rewrite !map_app in *; simpl.
        apply set_sorted_middle; [done|by rewrite Forall_map..].
    + assert (queue s (set_queue (side o) (l1 ++ o :: l2) q) = queue s q) as ->
        by by destruct (side o), s. apply Hrep.
Qed.

(** A valid order with a fresh id goes to its place in the queue. *)
Lemma wp_add_order Q E :
  (order_id o ≠ 0 → 0 < price_ticks o → 0 < original_quantity o →
   0 < remaining_quantity o ≤ original_quantity o → sequence_number o ≠ 0 →
   om_rep (with_order o (map make_priority_key (queue_insert (side o) o (queue (side o) q))) om)
     (set_queue (side o) (queue_insert (side o) o (queue (side o) q)) q) →
   Q tt (with_order o (map make_priority_key (queue_insert (side o) o (queue (side o) q))) om)) →
  (order_id o = 0 ∨ price_ticks o ≤ 0 ∨ original_quantity o ≤ 0 ∨ remaining_quantity o ≤ 0 ∨
   original_quantity o < remaining_quantity o ∨ sequence_number o = 0 →
   ∀ w, E (invalid_argument w) om) →
  wp (add_order o) Q E om.
Proof.
  intros HQ HE. unfold add_order. wp_step. apply wp_validate_order; [|done].
  intros Hid Hp Ho Hr Hs. specialize (HQ Hid Hp Ho Hr Hs). wp_steps. unfold id.
  unfold find_order in Hfresh. rewrite Hfresh. wp_steps.
  pose proof (rep_queue _ _ Hrep (side o)) as [_ Hsrt].
  destruct (queue_insert_split (side o) o _ Hsrt) as (l1 & l2 & Hq & Hins & H1 & H2).
  { apply Forall_forall. intros x Hx. apply (proj1 (rep_find_none _ _ Hrep _) Hfresh).
    rewrite (all_orders_queue (side o)), elem_of_app. by left. }
  rewrite Hins in HQ.
  apply wp_index_insert with (map make_priority_key l1) (map make_priority_key l2).
  - autorewrite with manager. rewrite (rep_index _ _ Hrep (side o)), Hq. apply map_app.
  - by rewrite Forall_map.
  - by rewrite Forall_map.
  - autorewrite with manager; simpl. rewrite length_app, Nat.add_sub. wp_steps.
    specialize (HQ (om_rep_with_order l1 l2 Hq H1 H2)). by rewrite map_app in HQ.
Qed.

(** Cancelling the order just added gives the manager back. *)
Lemma wp_cancel_added k1 k2 Q E :
  side_index (side o) om = k1 ++ k2 →
  set_sorted (side_compare (side o)) (k1 ++ make_priority_key o :: k2) →
  Q true om →
  wp (cancel_order (order_id o)) Q E (with_order o (k1 ++ make_priority_key o :: k2) om).
Proof.
  intros Hk Hs HQ.
  eapply (wp_cancel_order_at _ (orders_ om) (length (orders_ om)) o o k1 k2);
    unfold with_order; autorewrite with manager; simpl; [|done| |done|done|].
  - apply indices_ok_push; [apply Hrep|done].
  - by rewrite list_lookup_middle.
  - unfold without. autorewrite with manager; simpl.
    rewrite insert_insert_eq, delete_insert_id by done.
    rewrite list_insert_ge, <- Hk by lia. by destruct (side o), om.
Qed.
End add.

Lemma wp_add_order_duplicate om o Q E :
  find_order (order_id o) om ≠ None →
  (∀ w, E (invalid_argument w) om) → wp (add_order o) Q E om.
Proof.
  intros Hf HE. unfold add_order. wp_step. apply wp_validate_order; [|by auto]. intros.
  wp_steps. unfold id. unfold find_order in Hf.
  destruct (order_indices_ om !! order_id o); [wp_steps; auto|done].
Qed.

(** ** Writing through a pointer *)

Lemma om_rep_write om q i o o' l1 l2 :
  om_rep om q → orders_ om !! i = Some o → queue (side o) q = l1 ++ o :: l2 →
  make_priority_key o' = make_priority_key o → side o' = side o →
  om_rep (set_orders (<[i := o']> (orders_ om)) om) (set_queue (side o) (l1 ++ o' :: l2) q).
Proof.
  intros Hrep Hi Hq Hkey Hside.
  assert (Hid : order_id o' = order_id o) by (unfold make_priority_key in *; congruence).
  split.
  - simpl. eapply indices_ok_write; [apply Hrep|done..].
  - simpl. destruct (insert_perm _ i o o' Hi) as (r & Hr & ->).
    pose proof (rep_perm _ _ Hrep) as Hp. rewrite Hr in Hp.
    rewrite (all_orders_queue (side o)) in Hp |- *.
    rewrite queue_set_queue, queue_set_queue_other. rewrite Hq in Hp.
    rewrite <- Permutation_middle in Hp |- *. simpl in *.
    apply Permutation_cons_inv in Hp. by rewrite Hp.
  - intros s. rewrite side_index_set_orders, (rep_index _ _ Hrep s).
    destruct (decide (side o = s)) as [<-|Hne].
    + rewrite queue_set_queue, Hq, !map_app. simpl. by rewrite Hkey.
    + by destruct (side o), s.
  - intros s. destruct (decide (side o = s)) as [<-|Hne].
    + rewrite queue_set_queue. pose proof (rep_queue _ _ Hrep (side o)) as [Hf Hsrt].
      rewrite Hq in Hf, Hsrt. split.
      * apply Forall_app in Hf as [? Hf]. apply Forall_app. split; [done|].
        inversion_clear Hf. by constructor.
      * rewrite map_app in *; simpl in *. by rewrite Hkey.
    + assert (queue s (set_queue (side o) (l1 ++ o' :: l2) q) = queue s q) as ->
        by by destruct (side o), s. apply Hrep.
Qed.

Lemma wp_write_order om i o f Q E :
  orders_ om !! i = Some o → Q tt (set_orders (<[i := f o]> (orders_ om)) om) →
  wp (write_order i f) Q E om.
Proof.
  intros Hi HQ. unfold write_order. wp_steps. unfold id. by apply wp_at_index with o.
Qed.

(** ** Renewing a sequence number *)

Lemma set_sorted_perm_eq {K} (lt : K → K → bool) `{!StrictTotal lt} (l l' : list K) :
  set_sorted lt l → set_sorted lt l' → l ≡ₚ l' → l = l'.
Proof.
  intros. eapply StronglySorted_unique_strong; [|done..]. simpl.
  intros x y _ _ Hxy Hyx. by rewrite (st_asym lt) in Hyx.
Qed.

(** The queue after [o] took the sequence number [n]. *)
Lemma om_rep_resequence om q o l1 l2 n i :
  om_rep om q → queue (side o) q = l1 ++ o :: l2 → orders_ om !! i = Some o →
  om_rep
    (set_side_index (side o)
       (map make_priority_key (queue_insert (side o) (set_sequence n o) (l1 ++ l2)))
       (set_orders (<[i := set_sequence n o]> (orders_ om)) om))
    (set_queue (side o) (queue_insert (side o) (set_sequence n o) (l1 ++ l2)) q).
Proof.
  intros Hrep Hq Hi.
  pose proof (rep_queue _ _ Hrep (side o)) as [Hf Hsrt]. rewrite Hq in Hf, Hsrt.
  pose proof Hsrt as Hsrt'. rewrite map_app in Hsrt'.
  apply set_sorted_split in Hsrt' as (_ & _ & Hsrt'). rewrite <- map_app in Hsrt'.
  pose proof (rep_ids_distinct om q Hrep _ _ _ _ Hq) as Hids.
  destruct (queue_insert_split (side o) (set_sequence n o) _ Hsrt' Hids)
    as (m1 & m2 & Hm & Hins & H1 & H2). rewrite Hins. split.
  - autorewrite with manager; simpl. eapply indices_ok_write; [apply Hrep|done..].
  - autorewrite with manager; simpl.
    destruct (insert_perm _ i o (set_sequence n o) Hi) as (r & Hr & ->).
    pose proof (rep_perm _ _ Hrep) as Hp. rewrite Hr in Hp.
    rewrite (all_orders_queue (side o)) in Hp |- *.
    rewrite queue_set_queue, queue_set_queue_other. rewrite Hq in Hp.
    rewrite <- !Permutation_middle in Hp |- *. simpl in *.
    apply Permutation_cons_inv in Hp. rewrite Hm in Hp. by rewrite Hp.
  - intros s. destruct (decide (side o = s)) as [<-|Hne].
    + by rewrite side_index_set, queue_set_queue.
    + rewrite side_index_set_ne, side_index_set_orders, (rep_index _ _ Hrep s) by done.
      by destruct (side o), s.
  - intros s. destruct (decide (side o = s)) as [<-|Hne].
    + rewrite queue_set_queue. rewrite Hm in Hsrt'. split.
      * apply Forall_app in Hf as [Hf1 Hf2]. inversion_clear Hf2.
        assert (Forall (λ x, side x = side o) (m1 ++ m2)) as [? ?]%Forall_app
          by (rewrite <- Hm; by apply Forall_app).
        apply Forall_app; auto.
      * rewrite !map_app in *; simpl.
        apply set_sorted_middle; [done|by rewrite Forall_map..].
    + assert (queue s (set_queue (side o) (m1 ++ set_sequence n o :: m2) q) = queue s q) as ->
        by by destruct (side o), s. apply Hrep.
Qed.

Lemma wp_update_sequence_number om q o l1 l2 n i Q E :
  om_rep om q → queue (side o) q = l1 ++ o :: l2 → n ≠ 0 → sequence_number o ≠ n →
  orders_ om !! i = Some o →
  (∀ om', om_rep om' (set_queue (side o) (queue_insert (side o) (set_sequence n o) (l1 ++ l2)) q) →
     orders_ om' = <[i := set_sequence n o]> (orders_ om) →
     order_indices_ om' = order_indices_ om → Q true om') →
  wp (update_sequence_number (order_id o) n) Q E om.
Proof.
  intros Hrep Hq Hn Hne Hi HQ. unfold update_sequence_number.
  rewrite (proj2 (Z.eqb_neq n 0)) by done. wp_steps. unfold id, find_order.
  rewrite (indices_ok_lookup _ _ _ _ (rep_indices _ _ Hrep) Hi). wp_step.
  apply wp_at_index with o; [done|].
  rewrite (proj2 (Z.eqb_neq _ _)) by done. simpl. wp_step.
  set (kn := make_priority_key (set_sequence n o)). set (ko := make_priority_key o).
  pose proof (om_rep_resequence om q o l1 l2 n i Hrep Hq Hi) as Hrep'.
  set (Q' := queue_insert (side o) (set_sequence n o) (l1 ++ l2)) in *.
  pose proof (rep_sorted_index _ _ Hrep (side o)) as Hs.
  pose proof (rep_index _ _ Hrep (side o)) as Hidx. rewrite Hq in Hidx.
  (* the new key is not in the index yet *)
  destruct (set_position (side_compare (side o)) kn _ Hs) as (k1 & k2 & Hk & H1 & H2).
  { rewrite Hidx. intros (x & Hx & Hin)%list_elem_of_fmap.
    assert (x = o) as ->; [|apply Hne; unfold kn, make_priority_key in Hx; simpl in Hx; congruence].
    apply (rep_unique_id om q Hrep); [| |unfold kn, make_priority_key in Hx; simpl in Hx; congruence];
      apply (rep_in_queue _ _ Hrep (side o)); rewrite Hq; [done|].
    rewrite elem_of_app, elem_of_cons. tauto. }
  apply (wp_index_insert (side o) k1 kn k2); [done..|]. cbn beta iota delta [negb]. wp_step.
  pose proof (set_sorted_middle _ _ _ _ ltac:(by rewrite Hk in Hs) H1 H2) as Hs'.
  (* and the old one is *)
  assert (ko ∈ k1 ++ kn :: k2) as (j1 & j2 & Hj)%list_elem_of_split.
  { assert (Hko : ko ∈ k1 ++ k2).
    { rewrite <- Hk, Hidx, map_app, elem_of_app; simpl. rewrite elem_of_cons. tauto. }
    rewrite elem_of_app, elem_of_cons in *. tauto. }
  rewrite Hj in Hs' |- *. pose proof (set_sorted_split _ _ _ _ Hs') as (J1 & J2 & Hs'').
  apply (wp_index_extract (side o) j1 ko j2); [by rewrite side_index_set|done|].
  rewrite set_side_index_twice.
  assert (Hfinal : j1 ++ j2 = map make_priority_key Q').
  { apply (set_sorted_perm_eq (side_compare (side o))); [done| |].
    - pose proof (rep_sorted_index _ _ Hrep' (side o)) as H. by rewrite side_index_set in H.
    - apply (Permutation_cons_inv (a:=ko)). rewrite Permutation_middle, <- Hj.
      rewrite <- Permutation_middle, <- Hk, Hidx, map_app; simpl.
      rewrite <- Permutation_middle. fold ko. rewrite Permutation_swap. f_equiv.
      pose proof (rep_perm _ _ Hrep') as Hp. autorewrite with manager in Hp; simpl in Hp.
      unfold Q'. rewrite <- map_app. unfold queue_insert.
      rewrite map_app; simpl. rewrite <- Permutation_middle, <- map_app, take_drop. done. }
  wp_step. apply wp_write_order with o; [by autorewrite with manager|].
  wp_steps. apply HQ; autorewrite with manager; simpl; [|done..].
  rewrite Hfinal. exact Hrep'.
Qed.
