(* ===== verification/ManagerTheorems.v ===== *)
(** * Theorems about the order manager and the trade history

    [order_manager.cpp] keeps four containers in step; these theorems say what
    each operation does to all of them at once. *)
From S2P Require Import Prelude Orders TradeStore OrderManager ManagerSpec.

Local Open Scope Z_scope.

(** ** A concrete manager *)

Definition sample_buy : LimitOrder := mkLimitOrder 1 Buy 100 5 5 1.
Definition sample_sell : LimitOrder := mkLimitOrder 2 Sell 103 4 4 2.
Definition sample_late : LimitOrder := mkLimitOrder 3 Buy 101 2 2 3.

Definition sample_manager : OrderManager :=
  snd ((add_order sample_buy ;;; add_order sample_sell ;;; add_order sample_late) empty_manager).

Definition sample_queues : Queues := mkQueues [sample_late; sample_buy] [sample_sell].

Lemma sample_rep : om_rep sample_manager sample_queues.
Proof.
  assert (Hwp : wp (add_order sample_buy ;;; add_order sample_sell ;;; add_order sample_late)
    (λ _ om, om_rep om sample_queues) nothrow empty_manager).
  { wp_step. apply (wp_add_order _ _ om_rep_empty); [done| |simpl; lia]. intros _ _ _ _ _ H1.
    wp_step. apply (wp_add_order _ _ H1); [done| |simpl; lia]. intros _ _ _ _ _ H2.
    apply (wp_add_order _ _ H2); [done| |simpl; lia]. by intros _ _ _ _ _ H3. }
  apply wp_run in Hwp as ([] & om & Hrun & Hrep). unfold sample_manager. by rewrite Hrun.
Qed.

(** Restoring a removal right after it gives the manager back, position in
    the vector, id index and priority index included. *)
Theorem removal_round_trip om q i k :
  om_rep om q → find_order i om = Some k →
  ∃ r om' r', cancel_order_removal i om = (Ok (Some r), om') ∧ find_order i om' = None ∧
    restore_removal r om' = (Ok r', om) ∧ removed_index_node r' = None.
Proof.
  intros Hrep Hf. destruct (rep_find_inv _ _ Hrep _ _ Hf) as (o & Hk & <- & Ho).
  destruct (rep_queue_split _ _ Hrep o Ho) as (l1 & l2 & Hq).
  destruct (wp_run (cancel_order_removal (order_id o)) (λ res om', ∃ r, res = Some r ∧
    removed_order r = o ∧ find_order (order_id o) om' = None ∧ restores r om' k om) om)
    as (res & om' & Hrun & r & -> & Hro & Hn & Hrest).
  { apply (wp_cancel_order_removal _ _ Hrep (side o) l1 o l2 k); [done..|].
    intros r om' Hrep' Hro Hrest _. exists r.
    split; [done|]. split; [done|]. split; [|done].
    exact (rep_removed_fresh _ _ Hrep _ _ _ _ _ Hq Hrep'). }
  destruct (wp_run (restore_removal (set_removed_order o r)) (λ r' om2, removed_index_node r' = None ∧
    om2 = om) om') as (r' & om2 & Hrun' & Hr' & ->).
  { apply Hrest; [by rewrite Hro..|]. intros r' Hr'. split; [done|].
    rewrite list_insert_id by done. by destruct om. }
  exists r, om', r'. split_and!; [done..| |done].
  replace (set_removed_order o r) with r in Hrun' by (destruct r; simpl in *; by subst). done.
Qed.

Lemma removal_round_trip_witness :
  ∃ r om' r', cancel_order_removal 1 sample_manager = (Ok (Some r), om') ∧
    find_order 1 om' = None ∧ restore_removal r om' = (Ok r', sample_manager) ∧
    removed_index_node r' = None.
Proof.
  apply (removal_round_trip sample_manager sample_queues 1 0 sample_rep). vm_compute. reflexivity.
Defined.

(** Adding a valid order with a new id and cancelling it again gives the
    manager back. *)
Theorem add_cancel_round_trip om q o :
  om_rep om q → order_ok o → find_order (order_id o) om = None →
  ∃ om', add_order o om = (Ok tt, om') ∧
    om_rep om' (set_queue (side o) (queue_insert (side o) o (queue (side o) q)) q) ∧
    cancel_order (order_id o) om' = (Ok true, om).
Proof.
  intros Hrep (Hi & Hp & Hr & Ho & Hs) Hfresh.
  destruct (wp_run (add_order o) (λ _ om', om_rep om' (set_queue (side o) (queue_insert (side o) o
    (queue (side o) q)) q) ∧ cancel_order (order_id o) om' = (Ok true, om)) om)
    as ([] & om' & Hrun & ? & ?); [|by exists om'].
  apply (wp_add_order _ _ Hrep o Hfresh); [|lia]. intros _ _ _ _ _ Hrep'. split; [done|].
  pose proof (rep_queue _ _ Hrep (side o)) as [_ Hsrt].
  destruct (queue_insert_split (side o) o _ Hsrt) as (l1 & l2 & Hq & Hins & H1 & H2).
  { apply Forall_forall. intros x Hx. apply (proj1 (rep_find_none _ _ Hrep _) Hfresh).
    rewrite (all_orders_queue (side o)), elem_of_app. by left. }
  rewrite Hins, map_app. simpl.
  destruct (wp_run (cancel_order (order_id o)) (λ b om2, b = true ∧ om2 = om)
    (with_order o (map make_priority_key l1 ++ make_priority_key o :: map make_priority_key l2) om))
    as (b & om2 & -> & -> & ->); [|done].
  apply (wp_cancel_added om q Hrep o Hfresh); [| |done].
  - by rewrite (rep_index _ _ Hrep), Hq, map_app.
  - rewrite Hq, map_app in Hsrt. apply set_sorted_middle; [done|by rewrite Forall_map..].
Qed.

Definition sample_new : LimitOrder := mkLimitOrder 9 Sell 102 7 7 4.

Lemma add_cancel_round_trip_witness :
  ∃ om', add_order sample_new sample_manager = (Ok tt, om') ∧
    om_rep om' (mkQueues [sample_late; sample_buy] [sample_new; sample_sell]) ∧
    cancel_order 9 om' = (Ok true, sample_manager).
Proof.
  apply (add_cancel_round_trip sample_manager sample_queues sample_new sample_rep).
  - unfold order_ok; simpl; unfold UINT64_MAX, INT64_MAX; lia.
  - vm_compute. reflexivity.
Defined.

(** Adding an order never leaves the manager half changed: it is accepted,
    or the call throws and the manager is what it was. *)
Theorem add_order_all_or_nothing om q o :
  om_rep om q →
  ∃ r om', add_order o om = (r, om') ∧
    ((r = Ok tt ∧ om_rep om' (set_queue (side o) (queue_insert (side o) o (queue (side o) q)) q)) ∨
     (∃ w, r = Throw (invalid_argument w) ∧ om' = om)).
Proof.
  intros Hrep.
  assert (Hwp : wp (add_order o) (λ _ om', om_rep om' (set_queue (side o) (queue_insert (side o) o
    (queue (side o) q)) q)) (λ ex om', ∃ w, ex = invalid_argument w ∧ om' = om) om).
  { destruct (find_order (order_id o) om) eqn:Hf.
    - apply wp_add_order_duplicate; [congruence|]. eauto.
    - apply (wp_add_order _ _ Hrep o Hf); eauto. }
  unfold wp in Hwp. destruct (add_order o om) as [[[]|ex| |] om']; [| |done..].
  - eexists _, _. split; [done|]. by left.
  - destruct Hwp as (w & -> & ->). eexists _, _. split; [done|]. right. eauto.
Qed.

Lemma add_order_all_or_nothing_witness :
  ∃ r om', add_order sample_buy sample_manager = (r, om') ∧
    ((r = Ok tt ∧ om_rep om' (set_queue Buy (queue_insert Buy sample_buy
        [sample_late; sample_buy]) sample_queues)) ∨
     (∃ w, r = Throw (invalid_argument w) ∧ om' = sample_manager)).
Proof. apply (add_order_all_or_nothing sample_manager sample_queues sample_buy sample_rep). Defined.

(** The best order of a side has priority over every other order of that
    side; there is none exactly when the side has no order. *)
Theorem best_order_has_priority om q s :
  om_rep om q →
  match best_order s om with
  | Some i => ∃ o, orders om !! i = Some o ∧ side o = s ∧
      ∀ o', o' ∈ orders om → side o' = s → o' ≠ o → served_before s o o'
  | None => ∀ o, o ∈ orders om → side o ≠ s
  end.
Proof.
  intros Hrep. pose proof (rep_best_order _ _ Hrep s) as Hb.
  assert (Hin : ∀ o, o ∈ orders om → side o = s → o ∈ queue s q).
  { intros o Ho <-. destruct (rep_queue_split _ _ Hrep o Ho) as (l1 & l2 & ->).
    apply elem_of_app. right. by left. }
  destruct (queue s q) as [|o r] eqn:Hq.
  - rewrite Hb. intros o Ho Hs. by apply (elem_of_nil o), Hin.
  - destruct Hb as (i & -> & Hi & _). exists o. split_and!; [done| |].
    + apply (rep_side _ _ Hrep). rewrite Hq. by left.
    + intros o' Ho' Hs Hne. pose proof (rep_queue _ _ Hrep s) as [_ Hsrt]. rewrite Hq in Hsrt.
      simpl in Hsrt. apply StronglySorted_inv in Hsrt as [_ Hall].
      rewrite Forall_map, Forall_forall in Hall. apply side_compare_served, Hall.
      by destruct (proj1 (elem_of_cons _ _ _) (Hin o' Ho' Hs)).
Qed.

Lemma best_order_has_priority_witness :
  best_buy_order sample_manager = Some 2%nat ∧
  ∃ o, orders sample_manager !! 2%nat = Some o ∧ side o = Buy.
Proof.
  split; [vm_compute; reflexivity|].
  pose proof (best_order_has_priority sample_manager sample_queues Buy sample_rep) as Hbest.
  change (best_order Buy sample_manager) with (best_buy_order sample_manager) in Hbest.
  replace (best_buy_order sample_manager) with (Some 2%nat) in Hbest by (vm_compute; reflexivity).
  destruct Hbest as (o & H1 & H2 & _). exists o. split; [exact H1|exact H2].
Defined.

(** Renewing the sequence number of an order moves it to its new place in
    its queue and touches nothing else. *)
Theorem update_sequence_number_requeues om q o l1 l2 n :
  om_rep om q → queue (side o) q = l1 ++ o :: l2 → n ≠ 0 → sequence_number o ≠ n →
  ∃ om' i, update_sequence_number (order_id o) n om = (Ok true, om') ∧
    om_rep om' (set_queue (side o) (queue_insert (side o) (set_sequence n o) (l1 ++ l2)) q) ∧
    find_order (order_id o) om = Some i ∧ orders om' = <[i := set_sequence n o]> (orders om).
Proof.
  intros Hrep Hq Hn Hne.
  assert (Ho : o ∈ orders_ om).
  { apply (rep_in_queue _ _ Hrep (side o)). rewrite Hq, elem_of_app. right. by left. }
  destruct (rep_find _ _ Hrep o Ho) as (i & Hf & Hi).
  destruct (wp_run (update_sequence_number (order_id o) n) (λ b om', b = true ∧
    om_rep om' (set_queue (side o) (queue_insert (side o) (set_sequence n o) (l1 ++ l2)) q) ∧
    orders om' = <[i := set_sequence n o]> (orders om)) om) as (b & om' & Hrun & -> & H1 & H2).
  { apply (wp_update_sequence_number om q o l1 l2 n i); [done..|]. by intros om' H1 H2 _. }
  by exists om', i.
Qed.

Lemma update_sequence_number_requeues_witness :
  ∃ om' i, update_sequence_number 3 9 sample_manager = (Ok true, om') ∧
    om_rep om' (mkQueues [set_sequence 9 sample_late; sample_buy] [sample_sell]) ∧
    find_order 3 sample_manager = Some i ∧
    orders om' = <[i := set_sequence 9 sample_late]> (orders sample_manager).
Proof.
  apply (update_sequence_number_requeues sample_manager sample_queues sample_late [] [sample_buy] 9
    sample_rep); [reflexivity|lia|simpl; lia].
Defined.

(** ** The trade history *)

(** The arguments of one call of [record_trade]. *)
Record TradeRequest : Type := mkRequest {
  request_side : OrderSide; request_price : Z; request_quantity : Z;
  request_buy : option Z; request_sell : option Z
}.

Definition record_request (x : TradeRequest) : M TradeStore unit :=
  let* _ := record_trade (request_side x) (request_price x) (request_quantity x)
              (request_buy x) (request_sell x) in ret tt.

Lemma record_requests_extend xs ts0 ts r ts' :
  extends ts0 ts → for_each xs record_request ts = (r, ts') → extends ts0 ts'.
Proof.
  intros Hext Hrun.
  assert (Hwp : wp (for_each xs record_request) (λ _, extends ts0) (λ _, extends ts0) ts).
  { clear Hrun. revert ts Hext. induction xs as [|x xs IH]; intros ts Hext; simpl; [by apply wp_ret|].
    wp_step. unfold record_request. wp_step. apply wp_record_trade; [|done].
    intros _ _. wp_steps. apply IH. etrans; [done|]. apply extends_recorded. }
  unfold wp in Hwp. rewrite Hrun in Hwp. by destruct r.
Qed.

(** C16: whatever is recorded after a checkpoint, and wherever a recording
    throws, rolling back to the checkpoint gives the history and both counters
    back. *)
Theorem rollback_restores_checkpoint ts xs r ts' :
  for_each xs record_request ts = (r, ts') → rollback (checkpoint ts) ts' = (Ok tt, ts).
Proof.
  intros Hrun. pose proof (record_requests_extend xs ts ts r ts' ltac:(done) Hrun) as Hext.
  destruct (wp_run (rollback (checkpoint ts)) (λ _ s, s = ts) ts') as ([] & s & Hr & ->); [|done].
  by apply wp_rollback.
Qed.

Lemma rollback_restores_checkpoint_witness :
  let ts := snd (record_trade Buy 10 1 None None empty_trade_store) in
  let run := for_each [mkRequest Sell 11 2 None (Some 4); mkRequest Buy 0 1 None None] record_request ts in
  fst run = Throw (invalid_argument "Trade price must be positive.") ∧
  rollback (checkpoint ts) (snd run) = (Ok tt, ts).
Proof.
  intros ts run. split; [vm_compute; reflexivity|].
  apply (rollback_restores_checkpoint ts [mkRequest Sell 11 2 None (Some 4); mkRequest Buy 0 1 None None]
    (fst run) (snd run)). vm_compute. reflexivity.
Defined.
