(* ===== verification/MatchingEngine.v ===== *)
(** * MatchingEngine

    [include/matching_engine.hpp] and [src/matching_engine.cpp].  The engine
    keeps a reference to a book it shares with its creator; the book is a
    component of the state here, and a caller that writes to it directly is a
    step outside this file.  Local variables that a handler reads live in a
    frame beside the engine. *)
From S2P Require Import Prelude LongDouble Orders TradeStore OrderBook OrderManager.

Local Open Scope Z_scope.

Record MatchingEngine : Type := mkEngine {
  order_book_ : OrderBook;
  order_id_generator_ : OrderIdGenerator;
  next_sequence_number_ : Z;
  order_manager_ : OrderManager;
  trade_store_ : TradeStore
}.

(** The constructor. *)
Definition make_engine (order_book : OrderBook) : MatchingEngine :=
  mkEngine order_book (mkOrderIdGenerator 1) 1 empty_manager empty_trade_store.

Definition set_book (b : OrderBook) (e : MatchingEngine) : MatchingEngine :=
  mkEngine b (order_id_generator_ e) (next_sequence_number_ e) (order_manager_ e) (trade_store_ e).
Definition set_generator (g : OrderIdGenerator) (e : MatchingEngine) : MatchingEngine :=
  mkEngine (order_book_ e) g (next_sequence_number_ e) (order_manager_ e) (trade_store_ e).
Definition set_next_sequence (n : Z) (e : MatchingEngine) : MatchingEngine :=
  mkEngine (order_book_ e) (order_id_generator_ e) n (order_manager_ e) (trade_store_ e).
Definition set_manager (om : OrderManager) (e : MatchingEngine) : MatchingEngine :=
  mkEngine (order_book_ e) (order_id_generator_ e) (next_sequence_number_ e) om (trade_store_ e).
Definition set_trades (ts : TradeStore) (e : MatchingEngine) : MatchingEngine :=
  mkEngine (order_book_ e) (order_id_generator_ e) (next_sequence_number_ e) (order_manager_ e) ts.

Definition in_book {A} (m : M OrderBook A) : M MatchingEngine A := zoom order_book_ set_book m.
Definition in_generator {A} (m : M OrderIdGenerator A) : M MatchingEngine A :=
  zoom order_id_generator_ set_generator m.
Definition in_manager {A} (m : M OrderManager A) : M MatchingEngine A :=
  zoom order_manager_ set_manager m.
Definition in_trades {A} (m : M TradeStore A) : M MatchingEngine A :=
  zoom trade_store_ set_trades m.

Definition adjust_order_book (side : OrderSide) (price quantity_delta : Z)
    : M MatchingEngine unit :=
  if is_buy side then in_book (adjust_bid price quantity_delta)
  else in_book (adjust_ask price quantity_delta).

Definition crosses_order_book (side : OrderSide) (price : Z) (e : MatchingEngine) : bool :=
  if is_buy side then
    match best_ask (order_book_ e) with
    | Some l => level_price l <=? price
    | None => false
    end
  else
    match best_bid (order_book_ e) with
    | Some l => level_price l >=? price
    | None => false
    end.

(** ** Mutation journals

    The [struct OrderMutation] that [execute_market_order] and [modify_order]
    declare.  The one of [place_limit_order] has neither side, price nor
    executed quantity, which only the restoration of the book reads.  The empty
    [Removal] of a fresh entry is [None]. *)
Record OrderMutation : Type := mkMutation {
  mut_order_id : Z;
  mut_side : OrderSide;
  mut_price_ticks : Z;
  mut_executed_quantity : Z;
  mut_original_remaining_quantity : Z;
  mut_removed : bool;
  mut_removal : option Removal
}.

(** [mutations.back()] after [mutation.removed = true]. *)
Definition mark_removed (r : Removal) (l : list OrderMutation) : list OrderMutation :=
  match last l with
  | None => l
  | Some m =>
      take (length l - 1) l ++
        [mkMutation (mut_order_id m) (mut_side m) (mut_price_ticks m) (mut_executed_quantity m)
           (mut_original_remaining_quantity m) true (Some r)]
  end.

(** Undoing the order side of one entry. *)
Definition undo_order (m : OrderMutation) : M MatchingEngine unit :=
  if mut_removed m then
    match mut_removal m with
    | None => throw (logic_error "Removal has already been restored.")
    | Some r =>
        let* _ := in_manager (restore_removal (set_removed_order
          (set_remaining (mut_original_remaining_quantity m) (removed_order r)) r)) in
        ret tt
    end
  else
    let* e := gets id in
    match find_order (mut_order_id m) (order_manager_ e) with
    | None => throw (logic_error "Partially filled order disappeared during rollback.")
    | Some i => in_manager (write_order i (set_remaining (mut_original_remaining_quantity m)))
    end.

(** Undoing an entry together with its effect on the book. *)
Definition undo_mutation (m : OrderMutation) : M MatchingEngine unit :=
  undo_order m ;;;
  adjust_order_book (mut_side m) (mut_price_ticks m) (mut_executed_quantity m).

(** ** Market orders *)

Section market.
Context `{LongDoubleFormat}.

Record MarketFrame : Type := mkMarketFrame {
  market_result : ExecutionResult;
  weighted_price_total : binary;
  market_mutations : list OrderMutation
}.

Definition market_frame (s : OrderSide) (quantity : Z) : MarketFrame :=
  mkMarketFrame (mkExecutionResult s quantity 0 quantity None []) binary_zero [].

Definition set_mutations (l : list OrderMutation) (f : MarketFrame) : MarketFrame :=
  mkMarketFrame (market_result f) (weighted_price_total f) l.

(** The four statements after a trade was recorded: [push_back] to the
    result, both quantities, and the weighted total. *)
Definition account_trade (t : Trade) : M (MatchingEngine * MarketFrame) unit :=
  let* f := gets snd in
  let r := market_result f in
  let* executed := add64 (executed_quantity r) (trade_quantity t) in
  let* remaining := sub64 (result_remaining_quantity r) (trade_quantity t) in
  modify (λ x, (fst x, mkMarketFrame
    (mkExecutionResult (result_side r) (requested_quantity r) executed remaining
       (average_price_ticks r) (result_trades r ++ [t]))
    (ld_add (weighted_price_total f)
       (ld_mul (of_int64 (trade_price_ticks t)) (of_int64 (trade_quantity t))))
    (market_mutations f))).

(** One round against the aggregated levels, used while the engine has no
    order of its own. *)
Definition market_level_round (s : OrderSide) : M (MatchingEngine * MarketFrame) bool :=
  let* x := gets id in
  let remaining := result_remaining_quantity (market_result (snd x)) in
  if remaining >? 0 then
    match (if is_buy s then asks (order_book_ (fst x)) else bids (order_book_ (fst x))) with
    | [] => ret false
    | best_level :: _ =>
        let executed_at_level := Z.min remaining (level_quantity best_level) in
        let* recorded_trade := outer (in_trades
          (record_trade s (level_price best_level) executed_at_level None None)) in
        account_trade recorded_trade ;;;
        let* remaining_at_level := sub64 (level_quantity best_level) executed_at_level in
        (if is_buy s
         then outer (in_book (update_ask (level_price best_level) remaining_at_level))
         else outer (in_book (update_bid (level_price best_level) remaining_at_level))) ;;;
        ret true
    end
  else ret false.

Definition market_levels (s : OrderSide) (fuel : nat) (order_book_backup : OrderBook)
    (cp : Checkpoint) : M (MatchingEngine * MarketFrame) unit :=
  try_catch (loop fuel (market_level_round s)) (λ e,
    outer (in_book (assign_book order_book_backup)) ;;;
    outer (in_trades (rollback cp)) ;;;
    throw e).

(** One round against the best resting order of the other side. *)
Definition market_order_round (s : OrderSide) : M (MatchingEngine * MarketFrame) bool :=
  let* x := gets id in
  let remaining := result_remaining_quantity (market_result (snd x)) in
  if remaining >? 0 then
    match (if is_buy s then best_sell_order (order_manager_ (fst x))
           else best_buy_order (order_manager_ (fst x))) with
    | None => ret false
    | Some best_match =>
        let* best := at_index (orders_ (order_manager_ (fst x))) best_match in
        let resting_order_id := order_id best in
        match find_order resting_order_id (order_manager_ (fst x)) with
        | None => throw (logic_error "Selected resting order disappeared.")
        | Some resting =>
            let* resting_order := at_index (orders_ (order_manager_ (fst x))) resting in
            let executed := Z.min remaining (remaining_quantity resting_order) in
            let buy_id := if is_buy s then None else Some (order_id resting_order) in
            let sell_id := if is_sell s then None else Some (order_id resting_order) in
            modify (λ y, (fst y, set_mutations (market_mutations (snd y) ++
              [mkMutation (order_id resting_order) (side resting_order)
                 (price_ticks resting_order) executed (remaining_quantity resting_order)
                 false None]) (snd y))) ;;;
            let* recorded_trade := outer (in_trades
              (record_trade s (price_ticks resting_order) executed buy_id sell_id)) in
            account_trade recorded_trade ;;;
            let* delta := neg64 executed in
            outer (adjust_order_book (side resting_order) (price_ticks resting_order) delta) ;;;
            let* rest := sub64 (remaining_quantity resting_order) executed in
            outer (in_manager (write_order resting (set_remaining rest))) ;;;
            if is_filled (set_remaining rest resting_order) then
              let* removed := outer (in_manager (cancel_order_removal resting_order_id)) in
              match removed with
              | None => throw (logic_error "Filled resting order could not be removed.")
              | Some r =>
                  modify (λ y, (fst y,
                    set_mutations (mark_removed r (market_mutations (snd y))) (snd y))) ;;;
                  ret true
              end
            else ret true
        end
    end
  else ret false.

(** The handler of the branch with active orders. *)
Definition market_orders_undo (cp : Checkpoint) (e : exn) : M (MatchingEngine * MarketFrame) unit :=
  let* f := gets snd in
  outer (for_each (rev (market_mutations f)) undo_mutation) ;;;
  outer (in_trades (rollback cp)) ;;;
  throw e.

Definition market_orders (s : OrderSide) (fuel : nat) (cp : Checkpoint)
    : M (MatchingEngine * MarketFrame) unit :=
  try_catch (loop fuel (market_order_round s)) (market_orders_undo cp).

(** The average price of what was executed. *)
Definition market_average (f : MarketFrame) : M (MatchingEngine * MarketFrame) ExecutionResult :=
  let r := market_result f in
  if executed_quantity r >? 0 then
    let average_price := ld_div (weighted_price_total f) (of_int64 (executed_quantity r)) in
    let* a := to_int64 average_price in
    ret (mkExecutionResult (result_side r) (requested_quantity r) (executed_quantity r)
           (result_remaining_quantity r) (Some a) (result_trades r))
  else ret r.

(** A round consumes a level or an order or is the last, so one round more
    than there are levels and orders is enough. *)
Definition market_fuel (e : MatchingEngine) : nat :=
  S (length (bids_ (order_book_ e)) + length (asks_ (order_book_ e))
     + length (orders_ (order_manager_ e))).

Definition execute_market_order (s : OrderSide) (quantity : Z)
    : M MatchingEngine ExecutionResult :=
  validate_market_order quantity ;;;
  let* e := gets id in
  let cp := checkpoint (trade_store_ e) in
  let uses_active_orders := match orders (order_manager_ e) with [] => false | _ => true end in
  scoped (market_frame s quantity) (
    (if negb uses_active_orders
     then market_levels s (market_fuel e) (copy_book (order_book_ e)) cp
     else market_orders s (market_fuel e) cp) ;;;
    let* f := gets snd in
    market_average f).

Definition execute_market_buy (quantity : Z) : M MatchingEngine ExecutionResult :=
  execute_market_order Buy quantity.

Definition execute_market_sell (quantity : Z) : M MatchingEngine ExecutionResult :=
  execute_market_order Sell quantity.
End market.

(** ** Limit orders *)

Definition find_best_match (incoming_order : LimitOrder) (e : MatchingEngine)
    : M MatchingEngine (option Z) :=
  match (if is_buy (side incoming_order) then best_sell_order (order_manager_ e)
         else best_buy_order (order_manager_ e)) with
  | None => ret None
  | Some i =>
      let* best_match := at_index (orders_ (order_manager_ e)) i in
      let prices_cross :=
        if is_buy (side incoming_order)
        then price_ticks best_match <=? price_ticks incoming_order
        else price_ticks best_match >=? price_ticks incoming_order in
      if negb prices_cross then ret None else ret (Some (order_id best_match))
  end.

(** The incoming order is a reference to a local of the caller, the resting one
    a position in the vector of active orders. *)
Definition execute_limit_trade (resting : nat) : M (MatchingEngine * LimitOrder) unit :=
  let* x := gets id in
  let incoming_order := snd x in
  let* resting_order := at_index (orders_ (order_manager_ (fst x))) resting in
  let executed :=
    Z.min (remaining_quantity incoming_order) (remaining_quantity resting_order) in
  let buy_id := if is_buy (side incoming_order) then order_id incoming_order
                else order_id resting_order in
  let sell_id := if is_sell (side incoming_order) then order_id incoming_order
                 else order_id resting_order in
  let* _ := outer (in_trades (record_trade (side incoming_order)
    (price_ticks resting_order) executed (Some buy_id) (Some sell_id))) in
  let* delta := neg64 executed in
  outer (adjust_order_book (side resting_order) (price_ticks resting_order) delta) ;;;
  let* incoming_rest := sub64 (remaining_quantity incoming_order) executed in
  modify (λ x, (fst x, set_remaining incoming_rest (snd x))) ;;;
  let* resting_rest := sub64 (remaining_quantity resting_order) executed in
  outer (in_manager (write_order resting (set_remaining resting_rest))).

Definition process_limit_match (resting_order_id : Z) : M (MatchingEngine * LimitOrder) unit :=
  let* x := gets id in
  match find_order resting_order_id (order_manager_ (fst x)) with
  | None => ret tt
  | Some resting =>
      execute_limit_trade resting ;;;
      let* x := gets id in
      let* resting_order := at_index (orders_ (order_manager_ (fst x))) resting in
      if is_filled resting_order then
        let* _ := outer (in_manager (cancel_order resting_order_id)) in ret tt
      else ret tt
  end.

Definition match_limit_round : M (MatchingEngine * LimitOrder) bool :=
  let* x := gets id in
  if remaining_quantity (snd x) >? 0 then
    let* best_match_id := outer (find_best_match (snd x) (fst x)) in
    match best_match_id with
    | None => ret false
    | Some id_ => process_limit_match id_ ;;; ret true
    end
  else ret false.

Definition match_limit_order (fuel : nat) : M (MatchingEngine * LimitOrder) unit :=
  loop fuel match_limit_round.

(** The local variables of the matching loops of [place_limit_order] and
    [modify_order]. *)
Record MatchFrame : Type := mkMatchFrame {
  incoming : LimitOrder;
  mutations : list OrderMutation
}.

Definition set_incoming (o : LimitOrder) (f : MatchFrame) : MatchFrame :=
  mkMatchFrame o (mutations f).

Definition journal (l : list OrderMutation) (f : MatchFrame) : MatchFrame :=
  mkMatchFrame (incoming f) l.

(** [execute_limit_trade (incoming_order, *resting_order)] on the frame's
    order. *)
Definition trade_incoming (resting : nat) : M (MatchingEngine * MatchFrame) unit :=
  zoom (λ x, (fst x, incoming (snd x))) (λ y x, (fst y, set_incoming (snd y) (snd x)))
    (execute_limit_trade resting).

(** One round of the journalled matching loop. *)
Definition journalled_match_round : M (MatchingEngine * MatchFrame) bool :=
  let* x := gets id in
  if remaining_quantity (incoming (snd x)) >? 0 then
    let* best_match_id := outer (find_best_match (incoming (snd x)) (fst x)) in
    match best_match_id with
    | None => ret false
    | Some best_id =>
        match find_order best_id (order_manager_ (fst x)) with
        | None => throw (logic_error "Selected resting order disappeared.")
        | Some resting =>
            let* resting_order := at_index (orders_ (order_manager_ (fst x))) resting in
            modify (λ y, (fst y, journal (mutations (snd y) ++
              [mkMutation (order_id resting_order) (side resting_order)
                 (price_ticks resting_order)
                 (Z.min (remaining_quantity (incoming (snd y)))
                    (remaining_quantity resting_order))
                 (remaining_quantity resting_order) false None]) (snd y))) ;;;
            let resting_order_id := order_id resting_order in
            trade_incoming resting ;;;
            let* y := gets id in
            let* resting_order' := at_index (orders_ (order_manager_ (fst y))) resting in
            if is_filled resting_order' then
              let* removed := outer (in_manager (cancel_order_removal resting_order_id)) in
              match removed with
              | None => throw (logic_error "Filled resting order could not be removed.")
              | Some r =>
                  modify (λ y, (fst y, journal (mark_removed r (mutations (snd y))) (snd y))) ;;;
                  ret true
              end
            else ret true
        end
    end
  else ret false.

Definition match_fuel (e : MatchingEngine) : nat := S (length (orders_ (order_manager_ e))).

(** *** [place_limit_order] *)

(** Locals of the outer block. *)
Record PlaceFrame : Type := mkPlaceFrame {
  order_book_backup : option OrderBook;
  non_crossing_book_adjusted : bool
}.

Definition in_match {A} (m : M (MatchingEngine * MatchFrame) A)
    : M (MatchingEngine * PlaceFrame * (MatchFrame * bool)) A :=
  zoom (λ x, (fst (fst x), fst (snd x)))
    (λ y x, ((fst y, snd (fst x)), (snd y, snd (snd x)))) m.

(** The inner block: match, then rest what is left. *)
Definition place_match (fuel : nat) (new_id : Z)
    : M (MatchingEngine * PlaceFrame * (MatchFrame * bool)) Z :=
  in_match (loop fuel journalled_match_round) ;;;
  let* x := gets id in
  let incoming_order := incoming (fst (snd x)) in
  if negb (is_filled incoming_order) then
    outer (outer (in_manager (add_order incoming_order))) ;;;
    modify (λ x, (fst x, (fst (snd x), true))) ;;;
    outer (outer (adjust_order_book (side incoming_order) (price_ticks incoming_order)
      (remaining_quantity incoming_order))) ;;;
    ret new_id
  else ret new_id.

Definition place_match_undo (cp : Checkpoint) (e : exn)
    : M (MatchingEngine * PlaceFrame * (MatchFrame * bool)) Z :=
  let* f := gets (λ x, fst (snd x)) in
  let* incoming_order_added := gets (λ x, snd (snd x)) in
  when incoming_order_added (
    let* removed := outer (outer (in_manager (cancel_order (order_id (incoming f))))) in
    if negb removed
    then throw (logic_error "Incoming order disappeared during rollback.")
    else ret tt) ;;;
  outer (outer (for_each (rev (mutations f)) undo_order)) ;;;
  outer (outer (in_trades (rollback cp))) ;;;
  throw e.

(** The body of the outer block. *)
Definition place_body (s : OrderSide) (price quantity : Z) (first_local_order : bool)
    : M (MatchingEngine * PlaceFrame) Z :=
  when first_local_order (outer (in_book (replace_normalized_snapshot [] []))) ;;;
  let* new_id := outer (in_generator next) in
  let* sequence := outer (gets next_sequence_number_) in
  outer (modify (set_next_sequence (uwrap64 (sequence + 1)))) ;;;
  let incoming_order := mkLimitOrder new_id s price quantity quantity sequence in
  let* crosses_existing_order := outer (gets (crosses_order_book s price)) in
  if negb crosses_existing_order then
    outer (adjust_order_book s price quantity) ;;;
    modify (λ x, (fst x, mkPlaceFrame (order_book_backup (snd x)) true)) ;;;
    outer (in_manager (add_order incoming_order)) ;;;
    ret new_id
  else
    modify (λ x, (fst x, mkPlaceFrame
      (match order_book_backup (snd x) with
       | Some b => Some b
       | None => Some (copy_book (order_book_ (fst x)))
       end) (non_crossing_book_adjusted (snd x)))) ;;;
    let* cp := outer (gets (λ e, checkpoint (trade_store_ e))) in
    let* fuel := outer (gets match_fuel) in
    scoped (mkMatchFrame incoming_order [], false)
      (try_catch (place_match fuel new_id) (place_match_undo cp)).

(** The handler of the outer block. *)
Definition place_undo (s : OrderSide) (price quantity : Z) (generator_backup : OrderIdGenerator)
    (sequence_backup : Z) (e : exn) : M (MatchingEngine * PlaceFrame) Z :=
  outer (modify (set_generator generator_backup)) ;;;
  outer (modify (set_next_sequence sequence_backup)) ;;;
  let* f := gets snd in
  match order_book_backup f with
  | Some b => outer (in_book (assign_book b)) ;;; throw e
  | None =>
      when (non_crossing_book_adjusted f) (
        let* delta := neg64 quantity in
        outer (adjust_order_book s price delta)) ;;;
      throw e
  end.

Definition place_limit_order (s : OrderSide) (price quantity : Z) : M MatchingEngine Z :=
  validate_limit_order price quantity ;;;
  let* e := gets id in
  let first_local_order := match orders (order_manager_ e) with [] => true | _ => false end in
  let backup := if first_local_order then Some (copy_book (order_book_ e)) else None in
  scoped (mkPlaceFrame backup false)
    (try_catch (place_body s price quantity first_local_order)
       (place_undo s price quantity (order_id_generator_ e) (next_sequence_number_ e))).

Definition place_limit_buy (price quantity : Z) : M MatchingEngine Z :=
  place_limit_order Buy price quantity.

Definition place_limit_sell (price quantity : Z) : M MatchingEngine Z :=
  place_limit_order Sell price quantity.

(** ** Cancellation *)

Definition cancel_order (id_ : Z) : M MatchingEngine bool :=
  let* e := gets id in
  match find_order id_ (order_manager_ e) with
  | None => ret false
  | Some i =>
      let* order_to_cancel := at_index (orders_ (order_manager_ e)) i in
      let* cancelled := in_manager (OrderManager.cancel_order id_) in
      if negb cancelled then ret false
      else
        try_catch (
          let* delta := neg64 (remaining_quantity order_to_cancel) in
          adjust_order_book (side order_to_cancel) (price_ticks order_to_cancel) delta)
        (λ e, in_manager (add_order order_to_cancel) ;;; throw e) ;;;
        ret true
  end.

(** ** Modification *)

(** The branch that keeps the price. *)
Definition modify_same_price (id_ : Z) (original_order : LimitOrder) (new_quantity : Z)
    (loses_priority : bool) : M MatchingEngine bool :=
  let* quantity_delta := sub64 new_quantity (remaining_quantity original_order) in
  when (negb (quantity_delta =? 0))
    (adjust_order_book (side original_order) (price_ticks original_order) quantity_delta) ;;;
  when loses_priority (
    try_catch (
      let* n := gets next_sequence_number_ in
      let* updated := in_manager (update_sequence_number id_ n) in
      if negb updated then throw (logic_error "Modified order disappeared.") else ret tt)
    (λ e,
      when (negb (quantity_delta =? 0)) (
        let* back := neg64 quantity_delta in
        adjust_order_book (side original_order) (price_ticks original_order) back) ;;;
      throw e) ;;;
    modify (λ e, set_next_sequence (uwrap64 (next_sequence_number_ e + 1)) e)) ;;;
  let* e := gets id in
  match find_order id_ (order_manager_ e) with
  | None => throw (logic_error "Modified order disappeared.")
  | Some i => in_manager (write_order i (set_quantities new_quantity)) ;;; ret true
  end.

(** Locals of the branch that changes the price. *)
Record ModifyFrame : Type := mkModifyFrame {
  modify_match : MatchFrame;
  original_removal : option Removal;
  original_book_adjusted : bool;
  modified_order_added : bool;
  modified_book_adjusted : bool
}.

(** [original_removed] is set right after the removal succeeded, so it is the
    presence of the record. *)
Definition original_removed (f : ModifyFrame) : bool :=
  match original_removal f with Some _ => true | None => false end.

Definition set_modify_match (m : MatchFrame) (f : ModifyFrame) : ModifyFrame :=
  mkModifyFrame m (original_removal f) (original_book_adjusted f) (modified_order_added f)
    (modified_book_adjusted f).

Definition modify_body (fuel : nat) (id_ : Z) (original_order : LimitOrder)
    : M (MatchingEngine * ModifyFrame) bool :=
  let* removed := outer (in_manager (cancel_order_removal id_)) in
  match removed with
  | None => ret false
  | Some r =>
      modify (λ x, (fst x, mkModifyFrame (modify_match (snd x)) (Some r) false false false)) ;;;
      let* delta := neg64 (remaining_quantity original_order) in
      outer (adjust_order_book (side original_order) (price_ticks original_order) delta) ;;;
      modify (λ x, (fst x, mkModifyFrame (modify_match (snd x)) (original_removal (snd x))
        true false false)) ;;;
      outer (modify (λ e, set_next_sequence (uwrap64 (next_sequence_number_ e + 1)) e)) ;;;
      zoom (λ x, (fst x, modify_match (snd x))) (λ y x, (fst y, set_modify_match (snd y) (snd x)))
        (loop fuel journalled_match_round) ;;;
      let* x := gets id in
      let modified_order := incoming (modify_match (snd x)) in
      if negb (is_filled modified_order) then
        outer (in_manager (add_order modified_order)) ;;;
        modify (λ x, (fst x, mkModifyFrame (modify_match (snd x)) (original_removal (snd x))
          (original_book_adjusted (snd x)) true false)) ;;;
        outer (adjust_order_book (side modified_order) (price_ticks modified_order)
          (remaining_quantity modified_order)) ;;;
        modify (λ x, (fst x, mkModifyFrame (modify_match (snd x)) (original_removal (snd x))
          (original_book_adjusted (snd x)) (modified_order_added (snd x)) true)) ;;;
        ret true
      else ret true
  end.

Definition modify_undo (original_order : LimitOrder) (sequence_number_backup : Z)
    (cp : Checkpoint) (e : exn) : M (MatchingEngine * ModifyFrame) bool :=
  let* f := gets snd in
  let modified_order := incoming (modify_match f) in
  when (modified_book_adjusted f) (
    let* delta := neg64 (remaining_quantity modified_order) in
    outer (adjust_order_book (side modified_order) (price_ticks modified_order) delta)) ;;;
  when (modified_order_added f) (
    let* removed := outer (in_manager (OrderManager.cancel_order (order_id modified_order))) in
    if negb removed
    then throw (logic_error "Modified order disappeared during rollback.")
    else ret tt) ;;;
  outer (for_each (rev (mutations (modify_match f))) undo_mutation) ;;;
  when (original_book_adjusted f)
    (outer (adjust_order_book (side original_order) (price_ticks original_order)
       (remaining_quantity original_order))) ;;;
  (match original_removal f with
   | None => ret tt
   | Some r =>
       let* _ := outer (in_manager (restore_removal (set_removed_order original_order r))) in
       ret tt
   end) ;;;
  outer (modify (set_next_sequence sequence_number_backup)) ;;;
  outer (in_trades (rollback cp)) ;;;
  throw e.

(** The branch that changes the price: remove, match at the new price, rest. *)
Definition modify_new_price (id_ : Z) (original_order : LimitOrder)
    (new_price new_quantity : Z) : M MatchingEngine bool :=
  let* e := gets id in
  let modified_order :=
    set_sequence (next_sequence_number_ e)
      (set_quantities new_quantity (set_price new_price original_order)) in
  scoped (mkModifyFrame (mkMatchFrame modified_order []) None false false false)
    (try_catch (modify_body (match_fuel e) id_ original_order)
       (modify_undo original_order (next_sequence_number_ e) (checkpoint (trade_store_ e)))).

Definition modify_order (id_ new_price new_quantity : Z) : M MatchingEngine bool :=
  validate_modify_order new_price new_quantity ;;;
  let* e := gets id in
  match find_order id_ (order_manager_ e) with
  | None => ret false
  | Some i =>
      let* original_order := at_index (orders_ (order_manager_ e)) i in
      let price_changed := negb (new_price =? price_ticks original_order) in
      let quantity_increased := new_quantity >? remaining_quantity original_order in
      let loses_priority := price_changed || quantity_increased in
      if negb price_changed
      then modify_same_price id_ original_order new_quantity loses_priority
      else modify_new_price id_ original_order new_price new_quantity
  end.

(** ** Observers *)

Definition active_limit_orders (e : MatchingEngine) : list LimitOrder :=
  orders (order_manager_ e).

Definition trade_history (e : MatchingEngine) : list Trade := trades_ (trade_store_ e).

Definition clear_trade_history : M MatchingEngine unit :=
  modify (λ e, set_trades (clear (trade_store_ e)) e).
