(* ===== verification/EngineSpec.v ===== *)
(** * Specification of the matching engine

    The abstract state of the engine is a pair of priority queues
    ([ManagerSpec.Queues]).  This file defines what matching means there
    ([match_queue], [place_spec]), how the engine's concrete state represents
    it ([engine_ok], [engine_inv]) and what an entry of a mutation journal
    undoes ([undoes]). *)
From S2P Require Import Prelude LongDouble Orders TradeStore OrderBook Levels OrderManager.
From S2P Require Import ManagerSpec MatchingEngine.

Local Open Scope Z_scope.

(** ** The book by side *)

Definition price_before (s : OrderSide) : Z → Z → bool :=
  match s with Buy => Z.gtb | Sell => Z.ltb end.

#[export] Instance price_before_total s : StrictTotal (price_before s).
Proof. destruct s; apply _. Qed.

Definition side_levels (s : OrderSide) (b : OrderBook) : list PriceLevel :=
  match s with Buy => bids_ b | Sell => asks_ b end.

Definition set_side_levels (s : OrderSide) (l : list PriceLevel) (b : OrderBook) : OrderBook :=
  match s with Buy => mkBook l (asks_ b) | Sell => mkBook (bids_ b) l end.

Definition book_wf (b : OrderBook) : Prop :=
  ∀ s, levels_wf (price_before s) (side_levels s b).

Definition book_depth (s : OrderSide) (p : Z) (b : OrderBook) : Z :=
  map_value p (side_levels s b).

Definition set_depth (s : OrderSide) (p q : Z) (b : OrderBook) : OrderBook :=
  set_side_levels s (set_level (price_before s) p q (side_levels s b)) b.

Lemma side_levels_set s l b : side_levels s (set_side_levels s l b) = l.
Proof. by destruct s. Qed.

Lemma side_levels_set_ne s s' l b : s ≠ s' → side_levels s' (set_side_levels s l b) = side_levels s' b.
Proof. by destruct s, s'. Qed.

Lemma book_wf_empty : book_wf empty_book.
Proof. intros []; apply levels_wf_nil. Qed.

Lemma book_depth_bounds s p b : book_wf b → 0 ≤ book_depth s p b ≤ INT64_MAX.
Proof. intros Hb. apply map_value_nonneg, (Hb s). Qed.

Lemma book_wf_set_depth s p q b :
  book_wf b → 0 ≤ p ≤ INT64_MAX → 0 ≤ q ≤ INT64_MAX → book_wf (set_depth s p q b).
Proof.
  intros Hb Hp Hq s'. unfold set_depth. destruct (decide (s = s')) as [<-|Hne].
  - rewrite side_levels_set. apply levels_wf_set_level; auto; apply _.
  - rewrite side_levels_set_ne by done. apply Hb.
Qed.

Lemma book_depth_set_depth s p q b p' :
  book_wf b → book_depth s p' (set_depth s p q b) = if p =? p' then q else book_depth s p' b.
Proof.
  intros Hb. unfold book_depth, set_depth. rewrite side_levels_set.
  apply map_value_set_level; [apply _|apply (Hb s)].
Qed.

Lemma book_depth_set_depth_ne s p q b s' p' :
  s ≠ s' → book_depth s' p' (set_depth s p q b) = book_depth s' p' b.
Proof. intros Hne. unfold book_depth, set_depth. by rewrite side_levels_set_ne. Qed.

Lemma book_depth_set_depth_at s p q b s' p' :
  book_wf b →
  book_depth s' p' (set_depth s p q b) = if decide (s = s' ∧ p = p') then q else book_depth s' p' b.
Proof.
  intros Hb. destruct (decide (s = s')) as [<-|Hne].
  - rewrite book_depth_set_depth by done. destruct (p =? p') eqn:Hp; zb; case_decide; intuition congruence.
  - rewrite book_depth_set_depth_ne by done. case_decide; intuition congruence.
Qed.

Lemma book_ext b b' :
  book_wf b → book_wf b' → (∀ s p, book_depth s p b = book_depth s p b') → b = b'.
Proof.
  intros Hb Hb' H.
  assert (Hs : ∀ s, side_levels s b = side_levels s b').
  { intros s. apply (levels_ext (price_before s)); [apply Hb|apply Hb'|apply H]. }
  pose proof (Hs Buy). pose proof (Hs Sell). destruct b, b'; simpl in *; congruence.
Qed.

Lemma set_depth_id s p b :
  book_wf b → 0 ≤ p ≤ INT64_MAX → set_depth s p (book_depth s p b) b = b.
Proof.
  intros Hwf Hp. unfold set_depth, book_depth.
  rewrite set_level_id by (apply _ || apply Hwf || done). by destruct s, b.
Qed.

(** Writing the old quantity back restores the book. *)
Lemma set_depth_back s p d b :
  book_wf b → 0 ≤ p ≤ INT64_MAX → 0 ≤ d ≤ INT64_MAX →
  set_depth s p (book_depth s p b) (set_depth s p d b) = b.
Proof.
  intros Hwf Hp Hd. pose proof (book_depth_bounds s p _ Hwf) as Hb.
  unfold set_depth. rewrite side_levels_set.
  rewrite set_level_set_level by (apply _ || apply Hwf || done).
  unfold book_depth. rewrite set_level_id by (apply _ || apply Hwf || done).
  by destruct s, b.
Qed.

(** The quantity a queue shows at a price, and the book that shows a pair of
    queues. *)
Definition queue_depth (p : Z) (l : list LimitOrder) : Z :=
  foldr (λ o acc, (if price_ticks o =? p then remaining_quantity o else 0) + acc) 0 l.

Definition synced (b : OrderBook) (q : Queues) : Prop :=
  book_wf b ∧ ∀ s p, book_depth s p b = queue_depth p (queue s q).

(** Queues determine the book that shows them. *)
Lemma synced_unique b b' q : synced b q → synced b' q → b = b'.
Proof.
  intros [Hb Hs] [Hb' Hs']. apply book_ext; [done..|]. intros s p. by rewrite Hs, Hs'.
Qed.

Lemma queue_depth_app p l1 l2 : queue_depth p (l1 ++ l2) = queue_depth p l1 + queue_depth p l2.
Proof. induction l1 as [|o l1 IH]; simpl; [done|]. rewrite IH. lia. Qed.

Lemma queue_depth_cons p o l :
  queue_depth p (o :: l) = (if price_ticks o =? p then remaining_quantity o else 0) + queue_depth p l.
Proof. done. Qed.

Lemma queue_depth_nonneg p l : Forall order_ok l → 0 ≤ queue_depth p l.
Proof.
  induction 1 as [|o l (_ & _ & ? & _) _ IH]; [done|].
  rewrite queue_depth_cons. case_match; lia.
Qed.

Lemma queue_depth_elem o l : Forall order_ok l → o ∈ l →
  remaining_quantity o ≤ queue_depth (price_ticks o) l.
Proof.
  intros Hl (l1 & l2 & ->)%list_elem_of_split.
  apply Forall_app in Hl as [H1 [_ H2]%Forall_cons].
  rewrite queue_depth_app, queue_depth_cons, Z.eqb_refl.
  pose proof (queue_depth_nonneg (price_ticks o) l1 H1).
  pose proof (queue_depth_nonneg (price_ticks o) l2 H2). lia.
Qed.

(** Replacing part of a queue moves the quantity at one price only. *)
Lemma synced_replace b q s p l d :
  synced b q → 0 ≤ p ≤ INT64_MAX → 0 ≤ book_depth s p b + d ≤ INT64_MAX →
  (∀ p', queue_depth p' l = queue_depth p' (queue s q) + if p =? p' then d else 0) →
  synced (set_depth s p (book_depth s p b + d) b) (set_queue s l q).
Proof.
  intros [Hb Hs] Hp Hd Hl. split; [by apply book_wf_set_depth|].
  intros s' p'. destruct (decide (s = s')) as [<-|Hne].
  - rewrite book_depth_set_depth, queue_set_queue, Hl by done.
    destruct (p =? p') eqn:Hpp; zb; subst; rewrite Hs; lia.
  - rewrite book_depth_set_depth_ne, Hs by done. by destruct s, s'.
Qed.

(** ** Adjusting the book *)

Lemma wp_adjust_order_book s p d e Q E :
  book_wf (order_book_ e) → int64 d →
  (0 ≤ p → 0 ≤ book_depth s p (order_book_ e) + d ≤ INT64_MAX →
   Q tt (set_book (set_depth s p (book_depth s p (order_book_ e) + d) (order_book_ e)) e)) →
  (p < 0 ∨ book_depth s p (order_book_ e) + d < 0 → ∀ w, E (invalid_argument w) e) →
  (INT64_MAX < book_depth s p (order_book_ e) + d → ∀ w, E (overflow_error w) e) →
  wp (adjust_order_book s p d) Q E e.
Proof.
  intros Hb Hd HQ HE HO. unfold adjust_order_book, adjust_bid, adjust_ask, in_book, in_bids, in_asks.
  assert (He : set_book (order_book_ e) e = e) by by destruct e.
  assert (Hbk : ∀ b, mkBook (bids_ b) (asks_ b) = b) by by intros [].
  destruct s; simpl; wp_steps.
  - apply (wp_adjust_levels Z.gtb); [apply (Hb Buy)|done| | |]; intros;
      unfold set_bids; rewrite ?Hbk, ?He; auto.
  - apply (wp_adjust_levels Z.ltb); [apply (Hb Sell)|done| | |]; intros;
      unfold set_asks; rewrite ?Hbk, ?He; auto.
Qed.

(** When the new quantity is representable nothing can go wrong. *)
Lemma wp_adjust_order_book_ok s p d e Q E :
  book_wf (order_book_ e) → int64 d → 0 ≤ p →
  0 ≤ book_depth s p (order_book_ e) + d ≤ INT64_MAX →
  Q tt (set_book (set_depth s p (book_depth s p (order_book_ e) + d) (order_book_ e)) e) →
  wp (adjust_order_book s p d) Q E e.
Proof. intros. apply wp_adjust_order_book; auto; intros; lia. Qed.

(** ** Matching against a queue *)

Record Matched : Type := mkMatched {
  fills : list (LimitOrder * Z);
  resting : list LimitOrder;
  unmatched : Z
}.

(** Serve the queue from its head as long as quantity is left and the head is
    acceptable; only the last order served may keep a remainder. *)
Fixpoint match_queue (acceptable : LimitOrder → bool) (quantity : Z) (l : list LimitOrder)
    : Matched :=
  match l with
  | [] => mkMatched [] [] quantity
  | o :: r =>
      if (quantity >? 0) && acceptable o then
        if remaining_quantity o <=? quantity then
          let m := match_queue acceptable (quantity - remaining_quantity o) r in
          mkMatched ((o, remaining_quantity o) :: fills m) (resting m) (unmatched m)
        else mkMatched [(o, quantity)] (set_remaining (remaining_quantity o - quantity) o :: r) 0
      else mkMatched [] (o :: r) quantity
  end.

(** What a limit order accepts. *)
Definition limit_accepts (s : OrderSide) (limit : Z) (o : LimitOrder) : bool :=
  if is_buy s then price_ticks o <=? limit else price_ticks o >=? limit.

(** The trade of a fill; [taker] is the id of the incoming order, if it has one. *)
Definition fill_trade (s : OrderSide) (taker : option Z) (f : LimitOrder * Z) (ts : TradeStore)
    : Trade :=
  stamped ts s (price_ticks (fst f)) (snd f)
    (if is_buy s then taker else Some (order_id (fst f)))
    (if is_buy s then Some (order_id (fst f)) else taker).

Definition record_fills (s : OrderSide) (taker : option Z) (fs : list (LimitOrder * Z))
    (ts : TradeStore) : TradeStore :=
  foldl (λ ts f, recorded ts (fill_trade s taker f ts)) ts fs.

(** The queues after an incoming order was matched and its rest was queued. *)
Definition place_spec (o : LimitOrder) (q : Queues) : Queues :=
  let m := match_queue (limit_accepts (side o) (price_ticks o)) (remaining_quantity o)
             (queue (other_side (side o)) q) in
  let q' := set_queue (other_side (side o)) (resting m) q in
  if unmatched m =? 0 then q'
  else set_queue (side o) (queue_insert (side o) (set_remaining (unmatched m) o) (queue (side o) q)) q'.

Definition place_fills (o : LimitOrder) (q : Queues) : list (LimitOrder * Z) :=
  fills (match_queue (limit_accepts (side o) (price_ticks o)) (remaining_quantity o)
           (queue (other_side (side o)) q)).

(** *** Properties of matching *)

Definition filled_total (fs : list (LimitOrder * Z)) : Z := foldr (λ f acc, snd f + acc) 0 fs.

Lemma match_queue_none acceptable l : match_queue acceptable 0 l = mkMatched [] l 0.
Proof. by destruct l. Qed.

(** The three ways a pass over the queue ends. *)
Inductive greedy (acceptable : LimitOrder → bool) (l : list LimitOrder) (m : Matched) : Prop :=
| greedy_whole l1 l2 :
    l = l1 ++ l2 → Forall (λ o, acceptable o = true) l1 →
    fills m = map (λ o, (o, remaining_quantity o)) l1 → resting m = l2 →
    (0 < unmatched m → ∀ o, head l2 = Some o → acceptable o = false) → greedy acceptable l m
| greedy_partial l1 o r x :
    l = l1 ++ o :: r → Forall (λ o, acceptable o = true) l1 → acceptable o = true →
    0 < x < remaining_quantity o →
    fills m = map (λ o, (o, remaining_quantity o)) l1 ++ [(o, x)] →
    resting m = set_remaining (remaining_quantity o - x) o :: r →
    unmatched m = 0 → greedy acceptable l m.

Lemma match_queue_greedy acceptable quantity l :
  0 ≤ quantity → Forall order_ok l → greedy acceptable l (match_queue acceptable quantity l).
Proof.
  intros Hq Hl. revert quantity Hq.
  induction Hl as [|o r (_ & _ & Ho & _) Hr IH]; intros quantity Hq; simpl.
  { by apply (greedy_whole _ _ _ [] []). }
  destruct (quantity >? 0) eqn:Hpos; simpl; zb.
  2: { apply (greedy_whole _ _ _ [] (o :: r)); simpl; [done..|lia]. }
  destruct (acceptable o) eqn:Ha.
  2: { apply (greedy_whole _ _ _ [] (o :: r)); simpl; [done..|]. by intros _ ? [= <-]. }
  destruct (remaining_quantity o <=? quantity) eqn:Hle; zb.
  - destruct (IH (quantity - remaining_quantity o)) as [l1 l2 -> H1 Hf Hrest Hstop
      |l1 o' r' x -> H1 Ha' Hx Hf Hrest Hun]; [lia| |].
    + apply (greedy_whole _ _ _ (o :: l1) l2); simpl; [done|by constructor| |done..].
      by rewrite Hf.
    + apply (greedy_partial _ _ _ (o :: l1) o' r' x); simpl;
        [done|by constructor|done|done| |done|done].
      by rewrite Hf.
  - apply (greedy_partial _ _ _ [] o r quantity); simpl; [done|done|done|lia|done..].
Qed.

Lemma match_queue_total acceptable quantity l :
  0 ≤ quantity → Forall order_ok l →
  let m := match_queue acceptable quantity l in
  filled_total (fills m) + unmatched m = quantity ∧ 0 ≤ unmatched m ≤ quantity.
Proof.
  intros Hq Hl. revert quantity Hq.
  induction Hl as [|o r (_ & _ & Ho & _) Hr IH]; intros quantity Hq; simpl; [lia|].
  destruct (quantity >? 0) eqn:Hpos, (acceptable o); simpl; zb; try lia.
  destruct (remaining_quantity o <=? quantity) eqn:Hle; simpl; zb; [|lia].
  destruct (IH (quantity - remaining_quantity o)); lia.
Qed.

Lemma order_ok_set_remaining x o :
  order_ok o → 0 < x ≤ remaining_quantity o → order_ok (set_remaining x o).
Proof. unfold order_ok; simpl. lia. Qed.

(** What is left in the queue is a suffix of it, up to the quantity of its
    head. *)
Lemma resting_suffix acceptable quantity l :
  0 ≤ quantity → Forall order_ok l →
  let m := match_queue acceptable quantity l in
  Forall order_ok (resting m) ∧
  ∃ l1, map make_priority_key l = l1 ++ map make_priority_key (resting m) ∧
        map side l = map side (take (length l1) l) ++ map side (resting m).
Proof.
  intros Hq Hl m. destruct (match_queue_greedy acceptable quantity l Hq Hl)
    as [l1 l2 -> H1 Hf Hr _|l1 o r x -> H1 Ha Hx Hf Hr _]; fold m in Hf, Hr; rewrite Hr.
  - apply Forall_app in Hl as [_ ?]. split; [done|].
    exists (map make_priority_key l1).
    by rewrite length_fmap, take_app_length, !map_app.
  - apply Forall_app in Hl as [_ [Ho Hrest]%Forall_cons]. split.
    + constructor; [|done]. apply order_ok_set_remaining; [done|lia].
    + exists (map make_priority_key l1).
      by rewrite length_fmap, take_app_length, !map_app.
Qed.

Lemma resting_key acceptable quantity l x :
  0 ≤ quantity → Forall order_ok l → x ∈ resting (match_queue acceptable quantity l) →
  ∃ y, y ∈ l ∧ make_priority_key x = make_priority_key y.
Proof.
  intros Hq Hl Hx. destruct (resting_suffix acceptable quantity l Hq Hl) as (_ & l1 & Hk & _).
  assert (make_priority_key x ∈ map make_priority_key l) as (y & ? & ?)%list_elem_of_fmap; [|eauto].
  rewrite Hk, elem_of_app. right. by apply list_elem_of_fmap_2.
Qed.

Lemma resting_depth acceptable quantity l p :
  0 ≤ quantity → Forall order_ok l →
  0 ≤ queue_depth p (resting (match_queue acceptable quantity l)) ≤ queue_depth p l.
Proof.
  intros Hq Hl. destruct (resting_suffix acceptable quantity l Hq Hl) as [Hok _].
  split; [by apply queue_depth_nonneg|].
  destruct (match_queue_greedy acceptable quantity l Hq Hl)
    as [l1 l2 -> H1 Hf Hr _|l1 o r x -> H1 Ha Hx Hf Hr _]; rewrite Hr;
    apply Forall_app in Hl as [Hl1 _];
    pose proof (queue_depth_nonneg p l1 Hl1); rewrite queue_depth_app; [lia|].
  rewrite !queue_depth_cons; simpl. case_match; lia.
Qed.

(** ** Invariants *)

(** What holds of the engine whatever its owner wrote to the shared book. *)
Record engine_ok (e : MatchingEngine) (q : Queues) : Prop := mk_engine_ok {
  ok_rep : om_rep (order_manager_ e) q;
  ok_orders : Forall order_ok (all_orders q);
  ok_book : book_wf (order_book_ e);
  ok_ids : 0 < next_order_id_ (order_id_generator_ e) ≤ UINT64_MAX;
  ok_sequence : 0 ≤ next_sequence_number_ e ≤ UINT64_MAX
}.

(** What holds while only the engine writes to the book once it has orders of
    its own: the book shows the queues, no buy meets a sell, and the counters
    are ahead of every order. *)
Record engine_inv (e : MatchingEngine) (q : Queues) : Prop := mk_engine_inv {
  inv_ok : engine_ok e q;
  inv_synced : orders_ (order_manager_ e) ≠ [] → synced (order_book_ e) q;
  inv_uncrossed b a :
    b ∈ buy_queue q → a ∈ sell_queue q → price_ticks b < price_ticks a;
  inv_fresh_ids : Forall (λ o, order_id o < next_order_id_ (order_id_generator_ e)) (all_orders q);
  inv_fresh_sequence : Forall (λ o, sequence_number o < next_sequence_number_ e) (all_orders q);
  inv_counters : next_order_id_ (order_id_generator_ e) ≤ next_sequence_number_ e
}.

Lemma ok_queue e q s : engine_ok e q → Forall order_ok (queue s q).
Proof.
  intros H. pose proof (ok_orders _ _ H) as Ho. unfold all_orders in Ho.
  apply Forall_app in Ho as [? ?]. by destruct s.
Qed.

Lemma all_orders_set_queue (P : LimitOrder → Prop) s l q :
  Forall P (all_orders q) → Forall P l → Forall P (all_orders (set_queue s l q)).
Proof. unfold all_orders. rewrite !Forall_app. by destruct s; simpl; intros []. Qed.

(** ** Best prices

    While the book shows the queues, its best level of a side is at the price of
    the first order of that side's queue. *)

Lemma queue_depth_elem_inv p l : queue_depth p l ≠ 0 → ∃ o, o ∈ l ∧ price_ticks o = p.
Proof.
  induction l as [|o l IH]; [done|]. rewrite queue_depth_cons.
  destruct (price_ticks o =? p) eqn:Hp; zb.
  - intros _. exists o. split; [by left|done].
  - intros (o' & ? & ?)%IH. exists o'. split; [by right|done].
Qed.

Lemma side_compare_price s x y :
  side_compare s (make_priority_key x) (make_priority_key y) = true →
  price_before s (price_ticks y) (price_ticks x) = false.
Proof.
  destruct s; simpl; unfold BuyPriorityCompare, SellPriorityCompare; simpl;
    destruct (_ =? _) eqn:Hp; simpl; intros H; zb; rewrite ?Z.gtb_ltb; apply Z.ltb_ge; lia.
Qed.

Lemma synced_best b q s :
  synced b q → queue_ok s (queue s q) → Forall order_ok (queue s q) →
  option_map level_price (head (side_levels s b)) = option_map price_ticks (head (queue s q)).
Proof.
  intros [Hwf Hs] [_ Hsort] Hok. specialize (Hwf s). specialize (Hs s).
  unfold book_depth in Hs.
  destruct (queue s q) as [|o r], (side_levels s b) as [|l ls]; simpl; [done| | |f_equal].
  - apply levels_wf_cons in Hwf as (_ & [_ ?] & _).
    specialize (Hs (level_price l)). simpl in Hs. rewrite Z.eqb_refl in Hs. lia.
  - pose proof (queue_depth_elem o (o :: r) Hok ltac:(by left)) as H.
    rewrite <- Hs in H. apply Forall_cons in Hok as [(_ & _ & ? & _) _]. simpl in H. lia.
  - apply (st_total (lt:=price_before s)).
    + destruct (price_before s (level_price l) (price_ticks o)) eqn:Hb; [|done].
      destruct (queue_depth_elem_inv (level_price l) (o :: r)) as (o' & Ho' & Hp').
      { rewrite <- Hs. simpl. rewrite Z.eqb_refl.
        apply levels_wf_cons in Hwf as (_ & [_ ?] & _). lia. }
      apply elem_of_cons in Ho' as [->|Ho'].
      { by rewrite Hp', st_irrefl in Hb. }
      simpl in Hsort. apply StronglySorted_inv in Hsort as [_ Hsort].
      rewrite Forall_map, Forall_forall in Hsort.
      specialize (Hsort o' Ho'). apply side_compare_price in Hsort. congruence.
    + destruct (price_before s (price_ticks o) (level_price l)) eqn:Hb; [|done].
      pose proof (map_value_before_head (price_before s) _ _ _ Hwf Hb) as H0.
      pose proof (queue_depth_elem o (o :: r) Hok ltac:(by left)) as H.
      rewrite <- Hs, H0 in H. apply Forall_cons in Hok as [(_ & _ & ? & _) _]. lia.
Qed.

(** The crossing test on the book is the test on the head of the queue. *)
Lemma crosses_synced e q s p :
  engine_ok e q → synced (order_book_ e) q →
  crosses_order_book s p e =
    match head (queue (other_side s) q) with
    | Some o => limit_accepts s p o
    | None => false
    end.
Proof.
  intros Hok Hs.
  pose proof (synced_best _ _ (other_side s) Hs (rep_queue _ _ (ok_rep _ _ Hok) _)
    (ok_queue _ _ _ Hok)) as Hb.
  unfold crosses_order_book, best_ask, best_bid, limit_accepts.
  destruct s; simpl in *.
  - destruct (head (asks_ _)), (head (sell_queue q)); simpl in *; congruence.
  - destruct (head (bids_ _)), (head (buy_queue q)); simpl in *; congruence.
Qed.
