(* ===== verification/BookTheorems.v ===== *)
(** * Theorems about the order book

    What the members of [order_book.cpp] promise to the rest of the program:
    snapshots are summed by price, updates change one price, a refused call
    changes nothing, and the figures are the exact ones whenever they fit the
    arithmetic. *)
From S2P Require Import Prelude LongDouble Orders OrderBook Levels OrderManager ManagerSpec.
From S2P Require Import MatchingEngine EngineSpec.

Local Open Scope Z_scope.

(** ** Both sides at once *)

Definition update_side (s : OrderSide) : Z → Z → M OrderBook unit :=
  match s with Buy => update_bid | Sell => update_ask end.

Definition adjust_side (s : OrderSide) : Z → Z → M OrderBook unit :=
  match s with Buy => adjust_bid | Sell => adjust_ask end.

(** What the type of a level guarantees. *)
Definition level_typed (x : PriceLevel) : Prop :=
  level_price x ≤ INT64_MAX ∧ level_quantity x ≤ INT64_MAX.

Definition level_nonneg (x : PriceLevel) : Prop := 0 ≤ level_price x ∧ 0 ≤ level_quantity x.

(** Why a list of levels is refused. *)
Definition snapshot_bad (l : list PriceLevel) : Prop :=
  ¬ Forall level_nonneg l ∨ ∃ p, INT64_MAX < total_at p l.

Lemma total_at_app p l1 l2 : total_at p (l1 ++ l2) = total_at p l1 + total_at p l2.
Proof. induction l1 as [|x l1 IH]; simpl; [done|]. rewrite IH. lia. Qed.

Lemma wp_normalize {S} s (b : S) name dup l Q E :
  Forall level_typed l →
  (∀ m, levels_wf (price_before s) m → (∀ p, map_value p m = total_at p l) →
     Forall level_nonneg l → Q m b) →
  (∀ ex, snapshot_bad l → E ex b) →
  wp (normalize_levels (price_before s) name dup l) Q E b.
Proof.
  intros Hty HQ HE. unfold normalize_levels. wp_steps.
  apply (wp_aggregate (price_before s)); [apply levels_wf_nil|done| |].
  - intros m Hm Hv Hn. wp_steps. apply HQ; [done|exact Hv|done].
  - intros ex _ [Hneg|(p & l1 & l2 & -> & Hl1 & Hov)]; apply HE.
    + left. rewrite <- Exists_Forall_neg by (intros []; unfold level_nonneg; simpl; lia).
      eapply Exists_impl; [done|]. unfold level_nonneg. lia.
    + destruct (decide (Forall (λ x, 0 ≤ level_quantity x) l2)) as [Hl2|Hl2].
      * right. exists p. rewrite total_at_app. pose proof (total_at_nonneg p l2 Hl2). simpl in Hov. lia.
      * left. intros [_ Hall]%Forall_app. apply Hl2. eapply Forall_impl; [done|]. by intros x [].
Qed.

Lemma wp_replace_snapshot bs ys b Q E :
  Forall level_typed bs → Forall level_typed ys →
  (∀ b', book_wf b' → (∀ p, book_depth Buy p b' = total_at p bs) →
     (∀ p, book_depth Sell p b' = total_at p ys) →
     Forall level_nonneg bs → Forall level_nonneg ys → Q tt b') →
  (∀ ex, snapshot_bad bs ∨ snapshot_bad ys → E ex b) →
  wp (replace_snapshot bs ys) Q E b.
Proof.
  intros Hb Hy HQ HE. unfold replace_snapshot, normalize_bids, normalize_asks. wp_step.
  apply (wp_normalize Buy); [done| |auto]. intros mb Hmb Hvb Hnb. wp_step.
  apply (wp_normalize Sell); [done| |auto]. intros my Hmy Hvy Hny. wp_steps.
  apply HQ; [by intros []|done..].
Qed.

Lemma wp_update_side s p q b Q E :
  book_wf b →
  (0 ≤ p → 0 ≤ q → Q tt (set_depth s p q b)) →
  (p < 0 ∨ q < 0 → ∀ w, E (invalid_argument w) b) →
  wp (update_side s p q) Q E b.
Proof.
  intros Hb HQ HE. assert (Hbk : mkBook (bids_ b) (asks_ b) = b) by by destruct b.
  destruct s; simpl; unfold update_bid, update_ask, in_bids, in_asks; wp_steps.
  - apply (wp_update_levels Z.gtb); [apply (Hb Buy)|done|]. unfold set_bids. rewrite Hbk. done.
  - apply (wp_update_levels Z.ltb); [apply (Hb Sell)|done|]. unfold set_asks. rewrite Hbk. done.
Qed.

Lemma wp_adjust_side s p d b Q E :
  book_wf b → int64 d →
  (0 ≤ p → 0 ≤ book_depth s p b + d ≤ INT64_MAX → Q tt (set_depth s p (book_depth s p b + d) b)) →
  (p < 0 ∨ book_depth s p b + d < 0 → ∀ w, E (invalid_argument w) b) →
  (INT64_MAX < book_depth s p b + d → ∀ w, E (overflow_error w) b) →
  wp (adjust_side s p d) Q E b.
Proof.
  intros Hb Hd HQ HE HO. assert (Hbk : mkBook (bids_ b) (asks_ b) = b) by by destruct b.
  destruct s; simpl; unfold adjust_bid, adjust_ask, in_bids, in_asks; wp_steps.
  - apply (wp_adjust_levels Z.gtb); [apply (Hb Buy)|done|done|unfold set_bids; rewrite Hbk; done..].
  - apply (wp_adjust_levels Z.ltb); [apply (Hb Sell)|done|done|unfold set_asks; rewrite Hbk; done..].
Qed.

(** ** A concrete book *)

Definition sample_book : OrderBook :=
  mkBook [mkLevel 101 4; mkLevel 100 5] [mkLevel 103 6; mkLevel 110 2].

Lemma sample_book_wf : book_wf sample_book.
Proof.
  intros []; split; simpl; repeat constructor; unfold INT64_MAX; simpl; lia.
Qed.

(** C17: a snapshot of levels in any order, repeated prices included, is
    accepted exactly when no figure is negative and no price sums to more than
    [INT64_MAX]; then the book is well formed and shows at each price the sum of
    the quantities listed for it.  A refused snapshot leaves the book alone. *)
Theorem replace_snapshot_sums bs ys b :
  Forall level_typed bs → Forall level_typed ys →
  ∃ r b', replace_snapshot bs ys b = (r, b') ∧
    match r with
    | Ok _ => book_wf b' ∧ Forall level_nonneg (bs ++ ys) ∧
        (∀ p, book_depth Buy p b' = total_at p bs) ∧ (∀ p, book_depth Sell p b' = total_at p ys)
    | Throw _ => b' = b ∧ (snapshot_bad bs ∨ snapshot_bad ys)
    | _ => False
    end.
Proof.
  intros Hb Hy. apply (wp_outcome _ (λ _ b', book_wf b' ∧ Forall level_nonneg (bs ++ ys) ∧
    (∀ p, book_depth Buy p b' = total_at p bs) ∧ (∀ p, book_depth Sell p b' = total_at p ys))
    (λ _ b', b' = b ∧ (snapshot_bad bs ∨ snapshot_bad ys))).
  apply wp_replace_snapshot; [done..| |auto]. intros b' Hwf H1 H2 Hn1 Hn2.
  split_and!; [done|by apply Forall_app|done|done].
Qed.

Lemma replace_snapshot_sums_witness :
  let bs := [mkLevel 100 2; mkLevel 101 4; mkLevel 100 3] in
  let ys := [mkLevel 110 2; mkLevel 103 6; mkLevel 104 0] in
  ∃ r b', replace_snapshot bs ys empty_book = (r, b') ∧
    match r with
    | Ok _ => book_wf b' ∧ Forall level_nonneg (bs ++ ys) ∧
        (∀ p, book_depth Buy p b' = total_at p bs) ∧ (∀ p, book_depth Sell p b' = total_at p ys)
    | Throw _ => b' = empty_book ∧ (snapshot_bad bs ∨ snapshot_bad ys)
    | _ => False
    end.
Proof.
  intros bs ys. apply (replace_snapshot_sums bs ys empty_book);
    repeat constructor; unfold INT64_MAX; simpl; lia.
Defined.

(** [update_bid] and [update_ask] set the quantity at one price, zero
    removing the level, and refuse a negative price or quantity without
    changing the book. *)
Theorem update_sets_one_price s p q b :
  book_wf b → p ≤ INT64_MAX → q ≤ INT64_MAX →
  ∃ r b', update_side s p q b = (r, b') ∧
    match r with
    | Ok _ => book_wf b' ∧ 0 ≤ p ∧ 0 ≤ q ∧ ∀ s' p',
        book_depth s' p' b' = if decide (s = s' ∧ p = p') then q else book_depth s' p' b
    | Throw _ => b' = b ∧ (p < 0 ∨ q < 0)
    | _ => False
    end.
Proof.
  intros Hwf Hp Hq. apply (wp_outcome _ (λ _ b', book_wf b' ∧ 0 ≤ p ∧ 0 ≤ q ∧ ∀ s' p',
    book_depth s' p' b' = if decide (s = s' ∧ p = p') then q else book_depth s' p' b)
    (λ _ b', b' = b ∧ (p < 0 ∨ q < 0))).
  apply wp_update_side; [done| |auto]. intros Hp0 Hq0.
  split_and!; [by apply book_wf_set_depth|done|done|]. intros s' p'.
  by apply book_depth_set_depth_at.
Qed.

Lemma update_sets_one_price_witness :
  ∃ r b', update_bid 100 7 sample_book = (r, b') ∧
    match r with
    | Ok _ => book_wf b' ∧ 0 ≤ 100 ∧ 0 ≤ 7 ∧ ∀ s' p',
        book_depth s' p' b' =
          if decide (Buy = s' ∧ 100 = p') then 7 else book_depth s' p' sample_book
    | Throw _ => b' = sample_book ∧ (100 < 0 ∨ 7 < 0)
    | _ => False
    end.
Proof.
  apply (update_sets_one_price Buy 100 7 sample_book sample_book_wf); unfold INT64_MAX; lia.
Defined.

(** C18: [adjust_bid] and [adjust_ask] move the quantity at one price by a
    delta.  They succeed exactly when the price is not negative and the new
    quantity is in [0, INT64_MAX], for every 64-bit delta, [INT64_MIN] included;
    otherwise they throw the exception of the case and change nothing. *)
Theorem adjust_moves_one_price s p d b :
  book_wf b → p ≤ INT64_MAX → int64 d →
  ∃ r b', adjust_side s p d b = (r, b') ∧
    match r with
    | Ok _ => book_wf b' ∧ 0 ≤ p ∧ 0 ≤ book_depth s p b + d ≤ INT64_MAX ∧ ∀ s' p',
        book_depth s' p' b' =
          if decide (s = s' ∧ p = p') then book_depth s p b + d else book_depth s' p' b
    | Throw (invalid_argument _) => b' = b ∧ (p < 0 ∨ book_depth s p b + d < 0)
    | Throw (overflow_error _) => b' = b ∧ INT64_MAX < book_depth s p b + d
    | _ => False
    end.
Proof.
  intros Hwf Hp Hd. destruct (wp_outcome (adjust_side s p d)
    (λ _ b', book_wf b' ∧ 0 ≤ p ∧ 0 ≤ book_depth s p b + d ≤ INT64_MAX ∧ ∀ s' p',
       book_depth s' p' b' =
         if decide (s = s' ∧ p = p') then book_depth s p b + d else book_depth s' p' b)
    (λ ex b', match ex with
       | invalid_argument _ => b' = b ∧ (p < 0 ∨ book_depth s p b + d < 0)
       | overflow_error _ => b' = b ∧ INT64_MAX < book_depth s p b + d
       | _ => False end) b) as (r & b' & Hrun & Hr).
  - apply wp_adjust_side; [done|done| |by auto|by auto]. intros Hp0 Hq0.
    split_and!; [by apply book_wf_set_depth|done|lia|lia|]. intros s' p'.
    by apply book_depth_set_depth_at.
  - exists r, b'. split; [done|]. by destruct r as [[]|[]| |].
Qed.

Lemma adjust_moves_one_price_witness :
  ∃ r b', adjust_ask 103 INT64_MIN sample_book = (r, b') ∧
    match r with
    | Ok _ => book_wf b' ∧ 0 ≤ 103 ∧ 0 ≤ book_depth Sell 103 sample_book + INT64_MIN ≤ INT64_MAX ∧
        ∀ s' p', book_depth s' p' b' =
          if decide (Sell = s' ∧ 103 = p') then book_depth Sell 103 sample_book + INT64_MIN
          else book_depth s' p' sample_book
    | Throw (invalid_argument _) =>
        b' = sample_book ∧ (103 < 0 ∨ book_depth Sell 103 sample_book + INT64_MIN < 0)
    | Throw (overflow_error _) =>
        b' = sample_book ∧ INT64_MAX < book_depth Sell 103 sample_book + INT64_MIN
    | _ => False
    end.
Proof.
  apply (adjust_moves_one_price Sell 103 INT64_MIN sample_book sample_book_wf);
    unfold int64, INT64_MIN, INT64_MAX; lia.
Defined.

(** ** Depth *)

(** The quantity of a side over all its prices. *)
Definition side_volume (l : list PriceLevel) : Z := foldr (λ x acc, level_quantity x + acc) 0 l.

Lemma side_volume_nonneg l : Forall level_ok l → 0 ≤ side_volume l.
Proof. induction 1 as [|x l [_ ?] _ IH]; simpl; lia. Qed.

Lemma side_volume_app l1 l2 : side_volume (l1 ++ l2) = side_volume l1 + side_volume l2.
Proof. induction l1 as [|x l1 IH]; simpl; [done|]. rewrite IH. lia. Qed.

Lemma wp_calculate_depth {S} l d Q E (b : S) :
  Forall level_ok l → 0 ≤ d ≤ INT64_MAX →
  (d + side_volume l ≤ INT64_MAX → Q (d + side_volume l) b) →
  (INT64_MAX < d + side_volume l → ∀ w, E (overflow_error w) b) →
  wp (calculate_depth_from d l) Q E b.
Proof.
  intros Hl. revert d. induction Hl as [|x l [_ Hx] Hl IH]; intros d Hd HQ HE; simpl in *.
  { apply wp_ret. rewrite Z.add_0_r in HQ. apply HQ. lia. }
  pose proof (side_volume_nonneg l Hl).
  wp_steps; zb; [mlia| |mlia|].
  - apply HE. lia.
  - apply IH; [lia| |]; intros; rewrite <- Z.add_assoc in *; auto with lia.
Qed.

Lemma wp_depth_or_max l b Q E :
  Forall level_ok l → Q (Z.min INT64_MAX (side_volume l)) b →
  wp (depth_or_max (S:=OrderBook) (calculate_depth l)) Q E b.
Proof.
  intros Hl HQ. unfold depth_or_max, calculate_depth. wp_steps.
  apply wp_calculate_depth; [done|mlia| |]; intros; wp_steps.
  - rewrite Z.min_r in HQ by lia. done.
  - rewrite Z.min_l in HQ by lia. done.
Qed.

(** The depth of a side and of the whole book is the sum of the
    quantities, and [INT64_MAX] when the sum is larger; the calls never fail
    and leave the book alone. *)
Theorem depth_saturates b :
  book_wf b →
  bid_depth b = (Ok (Z.min INT64_MAX (side_volume (bids b))), b) ∧
  ask_depth b = (Ok (Z.min INT64_MAX (side_volume (asks b))), b) ∧
  total_depth b = (Ok (Z.min INT64_MAX (side_volume (bids b) + side_volume (asks b))), b).
Proof.
  intros Hwf. destruct (Hwf Buy) as [_ Hb], (Hwf Sell) as [_ Ha]. simpl in Hb, Ha.
  pose proof (side_volume_nonneg _ Hb). pose proof (side_volume_nonneg _ Ha).
  split_and!; [apply wp_exact; unfold bid_depth; do 2 wp_step; by apply wp_depth_or_max
              |apply wp_exact; unfold ask_depth; do 2 wp_step; by apply wp_depth_or_max|].
  apply wp_exact. unfold total_depth, depth_or_max, calculate_depth, bids, asks, id. wp_steps.
  apply wp_calculate_depth; [done|mlia| |]; intros H1; wp_steps; [|by rewrite Z.min_l by lia].
  apply wp_calculate_depth; [done|mlia| |]; intros H2; wp_steps; zb; try mlia;
    first [by rewrite Z.min_l by lia | by rewrite Z.min_r by lia].
Qed.

Lemma depth_saturates_witness :
  let b := mkBook [mkLevel 101 INT64_MAX; mkLevel 100 5] [mkLevel 103 6; mkLevel 110 2] in
  bid_depth b = (Ok (Z.min INT64_MAX (side_volume (bids b))), b) ∧
  ask_depth b = (Ok (Z.min INT64_MAX (side_volume (asks b))), b) ∧
  total_depth b = (Ok (Z.min INT64_MAX (side_volume (bids b) + side_volume (asks b))), b).
Proof.
  intros b. apply (depth_saturates b).
  intros []; split; simpl; repeat constructor; unfold INT64_MAX; simpl; lia.
Defined.

(** ** Spread and mid price *)

(** With both sides present the spread is the difference of the best
    prices and the mid price lies between them, within half a tick of their
    mean; neither computation can overflow, and without a side there is no
    figure. *)
Theorem mid_price_between b :
  book_wf b →
  match best_bid b, best_ask b with
  | Some x, Some y =>
      let bid := level_price x in let ask := level_price y in
      spread_ticks b = (Ok (Some (ask - bid)), b) ∧
      ∃ mid, mid_price_ticks b = (Ok (Some mid), b) ∧
        Z.min bid ask ≤ mid ≤ Z.max bid ask ∧ Z.abs (2 * mid - (bid + ask)) ≤ 1
  | _, _ => spread_ticks b = (Ok None, b) ∧ mid_price_ticks b = (Ok None, b)
  end.
Proof.
  intros Hwf. destruct (Hwf Buy) as [_ Hb], (Hwf Sell) as [_ Ha].
  destruct b as [[|x bs] [|y ys]]; simpl; try done.
  simpl in Hb, Ha. apply Forall_cons in Hb as [[Hx _] _], Ha as [[Hy _] _].
  set (bid := level_price x) in *. set (ask := level_price y) in *.
  pose proof (Z.quot_rem (ask - bid) 2 ltac:(lia)) as Hq.
  pose proof (Z.rem_bound_abs (ask - bid) 2 ltac:(lia)) as Hr.
  pose proof (Z.rem_sign_mul (ask - bid) 2 ltac:(lia)) as Hs.
  split; [|exists (bid + (ask - bid) ÷ 2); split; [|lia]].
  - apply wp_exact. unfold spread_ticks. wp_steps. simpl. wp_steps; [fold bid ask; mlia|done].
  - apply wp_exact. unfold mid_price_ticks. wp_steps. simpl. wp_steps; fold bid ask; [mlia|mlia|done].
Qed.

Lemma mid_price_between_witness :
  spread_ticks sample_book = (Ok (Some 2), sample_book) ∧
  ∃ mid, mid_price_ticks sample_book = (Ok (Some mid), sample_book) ∧
    101 ≤ mid ≤ 103 ∧ Z.abs (2 * mid - 204) ≤ 1.
Proof. exact (mid_price_between sample_book sample_book_wf). Defined.

(** ** Figures in floating point *)

Definition side_notional (l : list PriceLevel) : Z :=
  foldr (λ x acc, level_price x * level_quantity x + acc) 0 l.

Lemma side_notional_nonneg l : Forall level_ok l → 0 ≤ side_notional l.
Proof. induction 1 as [|x l [??] _ IH]; simpl; nia. Qed.

Lemma side_notional_app l1 l2 : side_notional (l1 ++ l2) = side_notional l1 + side_notional l2.
Proof. induction l1 as [|x l1 IH]; simpl; [done|]. rewrite IH. lia. Qed.

Section figures.
Context `{LongDoubleFormat}.
Notation P := LDBL_MANT_DIG.

Lemma denotes_sum_quantities l :
  Forall level_ok l → side_volume l < 2 ^ P → denotes (sum_quantities l) (side_volume l).
Proof.
  induction l as [|x l IH] using rev_ind; intros Hok Hv; [by unfold denotes|].
  apply Forall_app in Hok as [Hok [[_ Hx] _]%Forall_cons].
  pose proof (side_volume_nonneg l Hok).
  rewrite side_volume_app in *. simpl in *. rewrite Z.add_0_r in *.
  unfold sum_quantities in *. rewrite foldl_snoc.
  apply denotes_add; [apply IH; [done|lia]|apply denotes_of_int64; lia|lia].
Qed.

Lemma denotes_sum_weighted l :
  Forall level_ok l → side_volume l < 2 ^ P → side_notional l < 2 ^ P →
  denotes (sum_weighted l) (side_notional l).
Proof.
  induction l as [|x l IH] using rev_ind; intros Hok Hv Hn; [by unfold denotes|].
  apply Forall_app in Hok as [Hok [[Hx0 Hx] _]%Forall_cons].
  pose proof (side_volume_nonneg l Hok). pose proof (side_notional_nonneg l Hok).
  rewrite side_volume_app, side_notional_app in *. simpl in *. rewrite Z.add_0_r in *.
  unfold sum_weighted in *. rewrite foldl_snoc.
  assert (level_price x < 2 ^ P) by nia.
  assert (0 ≤ level_price x * level_quantity x) by nia.
  apply denotes_add; [apply IH; [done|lia|lia]| |lia].
  apply denotes_mul; [apply denotes_of_int64; lia..|nia].
Qed.

(** The largest 64-bit integer, rounded to the format, is not below it. *)
Lemma denotes_max : ∃ k, denotes (of_int64 INT64_MAX) k ∧ INT64_MAX ≤ k.
Proof.
  destruct (Z.le_gt_cases 63 P) as [HP|HP].
  - exists INT64_MAX. split; [|done]. apply denotes_of_int64.
    pose proof (Z.pow_le_mono_r 2 63 P ltac:(lia) HP) as Hp. unfold INT64_MAX. simpl in *. lia.
  - exists (2 ^ 63). split; [|done]. unfold of_int64. pose proof LDBL_MANT_DIG_min as Hmin.
    generalize dependent P. intros prec HP Hmin.
    assert (Hc : prec ∈ (seqZ 53 10)) by (apply elem_of_seqZ; lia).
    rewrite list_elem_of_In in Hc. simpl in Hc.
    repeat (destruct Hc as [<-|Hc]; [vm_compute; reflexivity|]). done.
Qed.

Lemma wp_vwap b l Q E :
  Forall level_ok l → l ≠ [] →
  side_volume l < 2 ^ P → side_notional l < 2 ^ (P - 1) → side_notional l < INT64_MAX →
  Q (Some (side_notional l / side_volume l)) b →
  wp (calculate_vwap_ticks (S:=OrderBook) l) Q E b.
Proof.
  intros Hok Hne Hv Hn Hn64 HQ. pose proof (side_notional_nonneg l Hok) as H0.
  assert (HP : 2 ^ P = 2 * 2 ^ (P - 1)).
  { rewrite <- Z.pow_succ_r; [f_equal; lia|]. pose proof LDBL_MANT_DIG_min. lia. }
  assert (Hpos : 0 < side_volume l).
  { destruct Hok as [|x l [_ Hx] Hok]; [done|]. simpl. pose proof (side_volume_nonneg l Hok). lia. }
  pose proof (denotes_sum_quantities l Hok Hv) as Hdv.
  pose proof (denotes_sum_weighted l Hok Hv ltac:(lia)) as Hdn.
  unfold calculate_vwap_ticks. destruct l as [|x r]; [done|]. revert HQ Hpos H0 Hn Hn64 Hdv Hdn.
  generalize (side_volume (x :: r)) (side_notional (x :: r)) (sum_quantities (x :: r))
    (sum_weighted (x :: r)). intros v n sq sw HQ Hpos H0 Hn Hn64 Hdv Hdn.
  rewrite (binary_eqb_denotes sq binary_zero v 0 Hdv) by done.
  rewrite (proj2 (Z.eqb_neq v 0)) by lia.
  pose proof (trunc_div sw sq n v Hdn Hdv (conj H0 Hn) Hpos) as Ht.
  pose proof (div_le_self n v H0 Hpos) as Hle. destruct denotes_max as (k & Hk & HkM).
  rewrite (binary_gtb_trunc _ _ k); [|apply (div_nonneg sw sq n v Hdn Hdv H0 Hpos)|lia|done].
  unfold to_int64. rewrite Ht. wp_steps; [mlia|done].
Qed.

Definition side_vwap (s : OrderSide) : M OrderBook (option Z) :=
  match s with Buy => bid_vwap_ticks | Sell => ask_vwap_ticks end.

Lemma vwap_bounds l lo hi :
  Forall level_ok l → Forall (λ x, lo ≤ level_price x ≤ hi) l →
  lo * side_volume l ≤ side_notional l ≤ hi * side_volume l.
Proof.
  induction 1 as [|x l [_ ?] _ IH]; intros Hl; simpl; [lia|].
  apply Forall_cons in Hl as [? Hl]. specialize (IH Hl). nia.
Qed.

(** The volume-weighted price of a side is the exact quotient of its
    notional by its volume, rounded down, for every width of [long double]
    whose significand has one bit more than the notional; it lies between
    the prices of the side. *)
Theorem vwap_exact s b lo hi :
  book_wf b → side_levels s b ≠ [] →
  side_volume (side_levels s b) < 2 ^ P → side_notional (side_levels s b) < 2 ^ (P - 1) →
  side_notional (side_levels s b) < INT64_MAX →
  Forall (λ x, lo ≤ level_price x ≤ hi) (side_levels s b) →
  ∃ v, side_vwap s b = (Ok (Some v), b) ∧
    v = side_notional (side_levels s b) / side_volume (side_levels s b) ∧ lo ≤ v ≤ hi.
Proof.
  intros Hwf Hne Hv Hn Hn64 Hb. destruct (Hwf s) as [_ Hok].
  pose proof (vwap_bounds _ lo hi Hok Hb) as Hlh.
  eexists. split; [|split; [done|]].
  - apply wp_exact. destruct s; simpl in *; unfold bid_vwap_ticks, ask_vwap_ticks; do 2 wp_step;
      by apply wp_vwap.
  - assert (0 < side_volume (side_levels s b)).
    { destruct Hok as [|x l [_ Hx] Hok]; [done|]. simpl. pose proof (side_volume_nonneg l Hok). lia. }
    split; [apply Z.div_le_lower_bound|apply Z.div_le_upper_bound]; lia.
Qed.

(** The microprice weighs each best price with the quantity of the other
    side and lies between the two best prices. *)
Theorem microprice_between b x y :
  book_wf b → best_bid b = Some x → best_ask b = Some y →
  let bp := level_price x in let ap := level_price y in
  let bq := level_quantity x in let aq := level_quantity y in
  bq + aq < 2 ^ P → bp * aq + ap * bq < 2 ^ (P - 1) →
  bp * aq + ap * bq ≤ INT64_MAX →
  ∃ m, microprice_ticks b = (Ok (Some m), b) ∧ m = (bp * aq + ap * bq) / (bq + aq) ∧
    Z.min bp ap ≤ m ≤ Z.max bp ap.
Proof.
  intros Hwf Hx Hy bp ap bq aq Hq Hn Hn64. destruct (Hwf Buy) as [_ Hb], (Hwf Sell) as [_ Ha].
  destruct b as [[|x' bs] [|y' ys]]; try done. unfold best_bid, best_ask in Hx, Hy.
  simpl in Hb, Ha, Hx, Hy. injection Hx as ->. injection Hy as ->.
  apply Forall_cons in Hb as [[Hxp Hxq] _], Ha as [[Hyp Hyq] _].
  fold bp in Hxp. fold bq in Hxq. fold ap in Hyp. fold aq in Hyq.
  assert (HP : 2 ^ P = 2 * 2 ^ (P - 1)).
  { rewrite <- Z.pow_succ_r; [f_equal; lia|]. pose proof LDBL_MANT_DIG_min. lia. }
  assert (0 ≤ bp ≤ bp * aq) by nia. assert (0 ≤ ap ≤ ap * bq) by nia.
  assert (Hdt : denotes (ld_add (of_int64 bq) (of_int64 aq)) (bq + aq))
    by (apply denotes_add; [apply denotes_of_int64; lia..|lia]).
  assert (Hdw : denotes (ld_add (ld_mul (of_int64 bp) (of_int64 aq))
    (ld_mul (of_int64 ap) (of_int64 bq))) (bp * aq + ap * bq)).
  { apply denotes_add; [apply denotes_mul; [apply denotes_of_int64; lia..|lia]..|lia]. }
  exists ((bp * aq + ap * bq) / (bq + aq)). split_and!; [|done| |].
  - apply wp_exact. unfold microprice_ticks. wp_step. wp_step. simpl. fold bp bq ap aq.
    rewrite (binary_eqb_denotes _ binary_zero (bq + aq) 0 Hdt) by done.
    rewrite (proj2 (Z.eqb_neq (bq + aq) 0)) by lia. unfold to_int64.
    rewrite (trunc_div _ _ (bp * aq + ap * bq) (bq + aq) Hdw Hdt) by nia.
    pose proof (div_le_self (bp * aq + ap * bq) (bq + aq) ltac:(nia) ltac:(lia)).
    wp_steps; [mlia|done].
  - apply Z.div_le_lower_bound; nia.
  - apply Z.div_le_upper_bound; nia.
Qed.

(** The imbalance is missing exactly for an empty book; otherwise it is
    between minus one and one, and it is positive, zero or negative as the
    bids outweigh, equal or fall short of the asks. *)
Theorem imbalance_signed_unit b :
  book_wf b → side_volume (bids b) + side_volume (asks b) < 2 ^ P →
  match order_book_imbalance b with
  | None => empty b = true
  | Some x => empty b = false ∧
      binary_leb (mkBinary (-1) 0) x = true ∧ binary_leb x (mkBinary 1 0) = true ∧
      Z.sgn (mant x) = Z.sgn (side_volume (bids b) - side_volume (asks b))
  end.
Proof.
  intros Hwf Hv. destruct (Hwf Buy) as [_ Hb], (Hwf Sell) as [_ Ha]. simpl in Hb, Ha.
  unfold bids, asks in *.
  pose proof (side_volume_nonneg _ Hb) as Hb0. pose proof (side_volume_nonneg _ Ha) as Ha0.
  assert (Hemp : empty b = (side_volume (bids_ b) + side_volume (asks_ b) =? 0)).
  { unfold empty. symmetry. destruct Hb as [|x bs [_ ?] Hb], Ha as [|y ys [_ ?] Ha]; simpl in *;
      [done|apply Z.eqb_neq; pose proof (side_volume_nonneg _ Ha); lia
      |apply Z.eqb_neq; pose proof (side_volume_nonneg _ Hb); lia
      |apply Z.eqb_neq; pose proof (side_volume_nonneg _ Ha); pose proof (side_volume_nonneg _ Hb); lia]. }
  pose proof (denotes_sum_quantities _ Hb ltac:(lia)) as Hdb.
  pose proof (denotes_sum_quantities _ Ha ltac:(lia)) as Hda.
  unfold order_book_imbalance, calculate_imbalance. rewrite Hemp.
  set (B := side_volume (bids_ b)) in *. set (A := side_volume (asks_ b)) in *.
  assert (Hdt : denotes (ld_add (sum_quantities (bids_ b)) (sum_quantities (asks_ b))) (B + A))
    by (apply denotes_add; [done|done|lia]).
  assert (Hds : denotes (ld_sub (sum_quantities (bids_ b)) (sum_quantities (asks_ b))) (B - A)).
  { apply (denotes_add _ _ B (- A)); [done|by apply denotes_neg|lia]. }
  rewrite (binary_eqb_denotes _ binary_zero (B + A) 0 Hdt) by done.
  destruct (B + A =? 0) eqn:Hz; zb; [done|]. split; [done|].
  rewrite to_double_sgn, (div_sgn _ _ _ _ Hds Hdt) by lia.
  pose proof (unit_interval_leb _ (to_double_unit _ (div_unit _ _ _ _ Hds Hdt ltac:(lia) ltac:(lia)))).
  tauto.
Qed.
End figures.

Lemma vwap_exact_witness :
  ∃ v, side_vwap (H:=x87_extended) Buy sample_book = (Ok (Some v), sample_book) ∧
    v = side_notional (bids sample_book) / side_volume (bids sample_book) ∧ 100 ≤ v ≤ 101.
Proof.
  apply (vwap_exact (H:=x87_extended) Buy sample_book 100 101 sample_book_wf);
    [discriminate|vm_compute; reflexivity..|repeat constructor; simpl; lia].
Defined.

Lemma microprice_between_witness :
  ∃ m, microprice_ticks (H:=x87_extended) sample_book = (Ok (Some m), sample_book) ∧
    m = (101 * 6 + 103 * 4) / (4 + 6) ∧ Z.min 101 103 ≤ m ≤ Z.max 101 103.
Proof.
  apply (microprice_between (H:=x87_extended) sample_book (mkLevel 101 4) (mkLevel 103 6) sample_book_wf
    eq_refl eq_refl); vm_compute; [reflexivity..|discriminate].
Defined.

Lemma imbalance_signed_unit_witness :
  match order_book_imbalance (H:=x87_extended) sample_book with
  | None => empty sample_book = true
  | Some x => empty sample_book = false ∧
      binary_leb (mkBinary (-1) 0) x = true ∧ binary_leb x (mkBinary 1 0) = true ∧
      Z.sgn (mant x) = Z.sgn (side_volume (bids sample_book) - side_volume (asks sample_book))
  end.
Proof.
  apply (imbalance_signed_unit (H:=x87_extended) sample_book sample_book_wf). vm_compute. reflexivity.
Defined.
