(* ===== verification/DepthSpec.v ===== *)
(** * What the figures over the best levels are

    The quantities of the best [n] levels of a side are summed exactly while
    they fit the significand, and the weighted price and the concentration are
    off the exact rational by one rounding per operation. *)
From S2P Require Import Prelude LongDouble Rounding RelativeError Orders OrderBook Levels.
From S2P Require Import EngineSpec BookTheorems DepthFigures.
From Stdlib Require Import QArith Qpower Lqa.

Local Open Scope Z_scope.

(** The levels of a summary are the levels [l] with their running totals. *)
Definition cumulates (l : list PriceLevel) (ds : list DepthLevel) : Prop :=
  length ds = length l ∧ ∀ i x d, l !! i = Some x → ds !! i = Some d →
    depth_price_ticks d = level_price x ∧ depth_quantity d = level_quantity x ∧
    denotes (cumulative_quantity d) (side_volume (take (Datatypes.S i) l)).

(** The sum of the squared quantities. *)
Definition side_squares (l : list PriceLevel) : Z :=
  foldr (λ x acc, level_quantity x * level_quantity x + acc) 0 l.

Lemma side_volume_pos l : Forall level_ok l → l ≠ [] → 0 < side_volume l.
Proof.
  destruct 1 as [|x l [_ ?] Hl]; [done|]. simpl. pose proof (side_volume_nonneg l Hl). lia.
Qed.

Lemma level_quantity_bound l : Forall level_ok l → Forall (λ x, 0 < level_quantity x ≤ side_volume l) l.
Proof.
  induction 1 as [|x l [Hx0 Hx] Hl IH]; constructor; simpl; pose proof (side_volume_nonneg l Hl); [lia|].
  eapply Forall_impl; [done|]. simpl. lia.
Qed.

Section depth.
Context `{LongDoubleFormat}.
Local Abbreviation P := LDBL_MANT_DIG.

Lemma accumulate_cumulates c v l :
  denotes c v → 0 ≤ v → Forall level_ok l → v + side_volume l < 2 ^ P →
  length (accumulate_levels c l) = length l ∧
  (∀ i x d, l !! i = Some x → accumulate_levels c l !! i = Some d →
    depth_price_ticks d = level_price x ∧ depth_quantity d = level_quantity x ∧
    denotes (cumulative_quantity d) (v + side_volume (take (Datatypes.S i) l))) ∧
  denotes (default c (cumulative_quantity <$> last (accumulate_levels c l))) (v + side_volume l).
Proof.
  intros Hc Hv Hl. revert c v Hc Hv. induction Hl as [|x l [_ Hx] Hl IH]; intros c v Hc Hv Hb; simpl in *.
  { split_and!; [done|done|]. by rewrite Z.add_0_r. }
  pose proof (side_volume_nonneg l Hl) as H0.
  set (c' := ld_add c (of_int64 (level_quantity x))).
  assert (Hc' : denotes c' (v + level_quantity x))
    by (apply denotes_add; [done|apply denotes_of_int64; lia|lia]).
  destruct (IH c' (v + level_quantity x)) as (Hlen & Hat & Hlast); [done|lia|lia|].
  split_and!; [lia| |].
  - intros [|i] y d Hy Hd; simpl in *.
    + injection Hy as ->. injection Hd as <-. simpl. by rewrite Z.add_0_r.
    + destruct (Hat i y d Hy Hd) as (Hp & Hq & Hden). split_and!; [done|done|]. by rewrite <- Z.add_assoc in Hden.
  - rewrite <- Z.add_assoc in Hlast. clear -Hlast.
    destruct (accumulate_levels c' l) as [|d ds] eqn:Hacc; [by simpl in *|].
    rewrite last_cons. destruct (last (d :: ds)) eqn:E; [by simpl in *|].
    by apply last_None in E.
Qed.

(** [build_levels] and the depth read off its last level. *)
Lemma build_levels_cumulates l n :
  Forall level_ok l → side_volume (take n l) < 2 ^ P →
  cumulates (take n l) (build_levels l n) ∧
  denotes (last_cumulative (build_levels l n)) (side_volume (take n l)).
Proof.
  intros Hl Hb. unfold build_levels. rewrite Nat.min_comm.
  assert (Ht : take (n `min` length l) l = take n l).
  { rewrite <- take_take. by rewrite (take_ge l) by lia. }
  rewrite Ht.
  destruct (accumulate_cumulates binary_zero 0 (take n l)) as (Hlen & Hat & Hlast);
    [done|done|by apply Forall_take|lia|].
  split; [by split|]. revert Hlast. unfold last_cumulative. by destruct (last _).
Qed.

Lemma cumulates_map l ds {B} (f : DepthLevel → B) (g : PriceLevel → B) :
  cumulates l ds →
  (∀ d x, depth_price_ticks d = level_price x → depth_quantity d = level_quantity x → f d = g x) →
  f <$> ds = g <$> l.
Proof.
  intros [Hlen Hat] Hfg. apply list_eq. intros i. rewrite !list_lookup_fmap.
  destruct (ds !! i) as [d|] eqn:Hd, (l !! i) as [x|] eqn:Hx; simpl; [|exfalso|exfalso|done].
  - destruct (Hat i x d Hx Hd) as (? & ? & _). f_equal. auto.
  - apply lookup_lt_Some in Hd. apply lookup_ge_None in Hx. lia.
  - apply lookup_lt_Some in Hx. apply lookup_ge_None in Hd. lia.
Qed.

Lemma foldl_fmap_step {A B C} (f : C → B → C) (g : A → B) c l :
  foldl (λ acc a, f acc (g a)) c l = foldl f c (g <$> l).
Proof. revert c. induction l as [|a l IH]; intros c; simpl; [done|apply IH]. Qed.

(** The figures of a side work on the levels of the book. *)
Lemma foldl_cumulates l ds (f : Z → Z → binary) :
  cumulates l ds →
  foldl (λ acc d, ld_add acc (f (depth_price_ticks d) (depth_quantity d))) binary_zero ds =
  foldl (λ acc x, ld_add acc (f (level_price x) (level_quantity x))) binary_zero l.
Proof.
  intros Hc. rewrite (foldl_fmap_step ld_add (λ d, f (depth_price_ticks d) (depth_quantity d))).
  rewrite (foldl_fmap_step ld_add (λ x, f (level_price x) (level_quantity x))).
  f_equal. apply cumulates_map; [done|]. by intros d x -> ->.
Qed.

Lemma share_close D d q :
  denotes D d → 0 < q ≤ d → d < 2 ^ P →
  close 1 (ld_div (of_int64 q) D) (inject_Z q / inject_Z d).
Proof.
  intros HD Hq Hd. apply close_div; [|done|lia]. apply close_exact; [lia|]. apply denotes_of_int64. lia.
Qed.

Lemma no_depth_cumulates l ds D :
  cumulates l ds → Forall level_ok l → denotes D (side_volume l) →
  no_depth ds D = bool_decide (l = []).
Proof.
  intros [Hlen _] Hl HD. destruct l as [|x l], ds as [|y ds]; try done. simpl.
  rewrite binary_leb_zero. apply Z.leb_gt. pose proof (side_volume_pos _ Hl ltac:(done)) as Hpos.
  unfold denotes in HD. destruct (0 <=? expo D) eqn:He; zb; pose proof (pow2_pos (Z.abs (expo D)) ltac:(lia)).
  - rewrite Z.abs_eq in * by done. nia.
  - rewrite Z.abs_neq in * by lia. nia.
Qed.

(** The weighted price of a side. *)
Lemma weighted_price_close l ds D :
  cumulates l ds → Forall level_ok l → denotes D (side_volume l) → side_volume l < 2 ^ P → l ≠ [] →
  ∃ x, calculate_weighted_price ds D = Some x ∧
    close (length l + 3) x (inject_Z (side_notional l) / inject_Z (side_volume l)).
Proof.
  intros Hc Hl HD Hb Hne. unfold calculate_weighted_price.
  rewrite (no_depth_cumulates l) by done. rewrite bool_decide_false by done. eexists. split; [done|].
  unfold quantity_share. rewrite (foldl_cumulates l ds (λ p q, ld_mul (of_int64 p) (ld_div (of_int64 q) D))) by done.
  pose proof (side_volume_pos l Hl Hne) as Hpos.
  eapply (close_Proper _ _); [symmetry; apply (sum_over_denominator
    (λ x, inject_Z (level_price x) * (inject_Z (level_quantity x) / inject_Z (side_volume l)))%Q)|].
  - apply Forall_forall. intros x _. rewrite inject_Z_mult. unfold Qdiv. ring.
  - rewrite Nat.add_comm. apply close_sum. pose proof (level_quantity_bound l Hl) as Hq.
    apply Forall_forall. intros x Hx. rewrite Forall_forall in Hq, Hl.
    apply (close_mul 1 1); [apply close_of_int64; apply Hl; done|]. apply share_close; [done|by apply Hq|done].
Qed.

(** The concentration of a side. *)
Lemma hhi_close l ds D :
  cumulates l ds → Forall level_ok l → denotes D (side_volume l) → side_volume l < 2 ^ P → l ≠ [] →
  ∃ x, calculate_hhi ds D = Some x ∧
    close (length l + 3) x (inject_Z (side_squares l) / inject_Z (side_volume l * side_volume l)).
Proof.
  intros Hc Hl HD Hb Hne. unfold calculate_hhi.
  rewrite (no_depth_cumulates l) by done. rewrite bool_decide_false by done. eexists. split; [done|].
  unfold quantity_share.
  rewrite (foldl_cumulates l ds (λ _ q, ld_mul (ld_div (of_int64 q) D) (ld_div (of_int64 q) D))) by done.
  pose proof (side_volume_pos l Hl Hne) as Hpos.
  eapply (close_Proper _ _); [symmetry; apply (sum_over_denominator
    (λ x, (inject_Z (level_quantity x) / inject_Z (side_volume l)) *
          (inject_Z (level_quantity x) / inject_Z (side_volume l)))%Q)|].
  - apply Forall_forall. intros x _. rewrite !inject_Z_mult. pose proof (inject_Z_pos _ Hpos) as HQ.
    field. intros Hz. rewrite Hz in HQ. lra.
  - rewrite Nat.add_comm. apply close_sum. pose proof (level_quantity_bound l Hl) as Hq.
    apply Forall_forall. intros x Hx. rewrite Forall_forall in Hq.
    apply (close_mul 1 1); (apply share_close; [done|by apply Hq|done]).
Qed.

Lemma best_share_close l ds D :
  cumulates l ds → Forall level_ok l → denotes D (side_volume l) → side_volume l < 2 ^ P →
  match l with
  | [] => best_level_share ds D = None
  | x :: _ => ∃ y, best_level_share ds D = Some y ∧ unit_interval y ∧
      close 1 y (inject_Z (level_quantity x) / inject_Z (side_volume l))
  end.
Proof.
  intros Hc Hl HD Hb. unfold best_level_share. rewrite (no_depth_cumulates l) by done.
  destruct l as [|x l]; [done|]. rewrite bool_decide_false by done.
  destruct Hc as [Hlen Hat], ds as [|d ds]; [done|].
  destruct (Hat 0%nat x d eq_refl eq_refl) as (_ & Hq & _). unfold quantity_share. rewrite Hq.
  pose proof (level_quantity_bound _ Hl) as [Hqb _]%Forall_cons.
  eexists. split; [done|]. split; [|by apply share_close].
  apply (div_unit _ _ (level_quantity x) (side_volume (x :: l))); [apply denotes_of_int64; lia|done|lia|lia].
Qed.
(** ** The summary of a book *)

(** The summary [d] of the best [n] levels of each side of [b]. *)
Record depth_shown (b : OrderBook) (n : nat) (d : DepthSummary) : Prop := {
  shown_requested : ds_requested_levels d = n;
  shown_bid_levels : ds_bid_levels d = Nat.min n (length (bids b));
  shown_ask_levels : ds_ask_levels d = Nat.min n (length (asks b));
  shown_bids : cumulates (take n (bids b)) (ds_bids d);
  shown_asks : cumulates (take n (asks b)) (ds_asks d);
  shown_bid_depth : denotes (ds_bid_depth d) (side_volume (take n (bids b)));
  shown_ask_depth : denotes (ds_ask_depth d) (side_volume (take n (asks b)));
  shown_total_depth :
    denotes (ds_total_depth d) (side_volume (take n (bids b)) + side_volume (take n (asks b)));
  shown_imbalance :
    match ds_imbalance d with
    | None => empty b = true
    | Some x => empty b = false ∧ unit_interval x ∧
        Z.sgn (mant x) = Z.sgn (side_volume (take n (bids b)) - side_volume (take n (asks b)))
    end
}.

(** The best levels of both sides fit the significand. *)
Definition depth_fits (b : OrderBook) (n : nat) : Prop :=
  side_volume (take n (bids b)) + side_volume (take n (asks b)) < 2 ^ P.

Lemma binary_gtb_zero x n : denotes x n → binary_gtb x binary_zero = (0 <? n).
Proof.
  intros Hx. assert (Hgt : binary_gtb x binary_zero = negb (binary_leb x binary_zero))
    by (unfold binary_gtb, binary_leb; by destruct (binary_compare _ _)).
  rewrite Hgt, binary_leb_zero, <- Z.ltb_antisym. unfold denotes in Hx.
  apply Bool.eq_iff_eq_true. rewrite !Z.ltb_lt.
  destruct (0 <=? expo x) eqn:He; zb; pose proof (pow2_pos (Z.abs (expo x)) ltac:(lia)).
  - rewrite Z.abs_eq in * by done. nia.
  - rewrite Z.abs_neq in * by lia. nia.
Qed.

Lemma take_volume l n : Forall level_ok l → (0 < n)%nat →
  0 ≤ side_volume (take n l) ∧ (side_volume (take n l) = 0 ↔ l = []).
Proof.
  intros Hl Hn. pose proof (Forall_take _ n _ Hl) as Ht. split; [by apply side_volume_nonneg|].
  split; [|by intros ->; rewrite take_nil].
  intros Hz. destruct l as [|x l]; [done|]. destruct n as [|n]; [lia|].
  pose proof (side_volume_pos _ Ht ltac:(done)). lia.
Qed.

Lemma wp_depth_analyze {S} b n Q E (s : S) :
  book_wf b → (0 < n)%nat → depth_fits b n →
  (∀ d, depth_shown b n d → Q d s) → wp (depth_analyze b n) Q E s.
Proof.
  intros Hwf Hn Hfit HQ. destruct (Hwf Buy) as [_ Hb], (Hwf Sell) as [_ Ha]. simpl in Hb, Ha.
  unfold depth_fits, bids, asks in *.
  destruct (take_volume _ n Hb Hn) as [Hb0 HbZ], (take_volume _ n Ha Hn) as [Ha0 HaZ].
  destruct (build_levels_cumulates (bids_ b) n Hb ltac:(lia)) as [Hcb Hdb].
  destruct (build_levels_cumulates (asks_ b) n Ha ltac:(lia)) as [Hca Hda].
  unfold depth_analyze. rewrite (proj2 (Nat.eqb_neq n 0)) by lia. apply wp_ret, HQ.
  set (B := side_volume (take n (bids_ b))) in *. set (A := side_volume (take n (asks_ b))) in *.
  change (bids_ (copy_book b)) with (bids_ b). change (asks_ (copy_book b)) with (asks_ b).
  assert (Hdt : denotes (ld_add (last_cumulative (build_levels (bids_ b) n))
    (last_cumulative (build_levels (asks_ b) n))) (B + A)) by (apply denotes_add; [done|done|lia]).
  assert (Hds : denotes (ld_sub (last_cumulative (build_levels (bids_ b) n))
    (last_cumulative (build_levels (asks_ b) n))) (B - A)).
  { apply (denotes_add _ _ B (- A)); [done|by apply denotes_neg|lia]. }
  constructor; simpl; try done.
  - rewrite (proj1 Hcb), length_take. done.
  - rewrite (proj1 Hca), length_take. done.
  - rewrite (binary_gtb_zero _ _ Hdt). destruct (0 <? B + A) eqn:Hz; zb.
    + split_and!; [|apply (div_unit _ _ _ _ Hds Hdt); lia|by apply (div_sgn _ _ _ _ Hds Hdt)].
      unfold empty. destruct (bids_ b), (asks_ b); try done.
      exfalso. unfold B, A in Hz. rewrite !take_nil in Hz. simpl in Hz. lia.
    + unfold empty. rewrite (proj1 HbZ), (proj1 HaZ) by lia. done.
Qed.
End depth.
