(* ===== verification/PlaceSpec.v ===== *)
(** * The queues after a placement

    Facts about [EngineSpec.place_spec] that do not mention the program: it
    keeps orders well-formed, introduces no key but that of the incoming order,
    and leaves an uncrossed pair of queues uncrossed. *)
From S2P Require Import Prelude Orders OrderManager ManagerSpec EngineSpec.

Local Open Scope Z_scope.

Definition uncrossed (q : Queues) : Prop :=
  ∀ b a, b ∈ buy_queue q → a ∈ sell_queue q → price_ticks b < price_ticks a.

Lemma elem_of_queue_insert s o l x : x ∈ queue_insert s o l ↔ x = o ∨ x ∈ l.
Proof.
  unfold queue_insert. set (n := length _). rewrite <- (take_drop n l) at 3.
  rewrite !elem_of_app, elem_of_cons. tauto.
Qed.

(** An order an incoming order of side [s] accepts has only acceptable orders
    ahead of it. *)
Lemma accepts_ahead s limit x y :
  side_compare (other_side s) (make_priority_key x) (make_priority_key y) = true →
  limit_accepts s limit y = true → limit_accepts s limit x = true.
Proof.
  intros H%side_compare_price. unfold limit_accepts. destruct s; simpl in *;
    rewrite ?Z.gtb_ltb, ?Z.geb_leb in *; intros; zb; apply Z.leb_le; lia.
Qed.

(** The order with the incoming order's price is not acceptable exactly when
    the two do not cross. *)
Lemma not_accepted_uncrossed s limit o :
  limit_accepts s limit o = false →
  match s with Buy => limit < price_ticks o | Sell => price_ticks o < limit end.
Proof. unfold limit_accepts. destruct s; simpl; rewrite ?Z.geb_leb; intros; zb; lia. Qed.

Section place_spec.
Context (o : LimitOrder) (q : Queues).
Notation s := (side o).
Notation goal := (match_queue (limit_accepts s (price_ticks o)) (remaining_quantity o)
                    (queue (other_side s) q)).
Hypothesis (Hq : Forall order_ok (all_orders q)) (Ho : order_ok o)
  (Hsorted : ∀ s', queue_ok s' (queue s' q)).

Lemma remaining_nonneg : 0 ≤ remaining_quantity o.
Proof. destruct Ho as (_ & _ & ? & _). lia. Qed.

Lemma queue_orders_ok s' : Forall order_ok (queue s' q).
Proof. unfold all_orders in Hq. apply Forall_app in Hq as [? ?]. by destruct s'. Qed.

Notation suffix := (resting_suffix (limit_accepts s (price_ticks o)) (remaining_quantity o)
  (queue (other_side s) q) remaining_nonneg (queue_orders_ok _)).

(** Every order afterwards stems from one before or is the incoming one. *)
Lemma place_spec_origin s' x :
  x ∈ queue s' (place_spec o q) →
  (∃ y, y ∈ queue s' q ∧ make_priority_key x = make_priority_key y) ∨
  (s' = s ∧ make_priority_key x = make_priority_key o ∧ 0 < unmatched goal).
Proof.
  destruct (match_queue_total (limit_accepts s (price_ticks o)) (remaining_quantity o)
    (queue (other_side s) q) remaining_nonneg (queue_orders_ok _)) as [_ Hu].
  unfold place_spec. destruct (unmatched goal =? 0) eqn:Hz; zb; intros Hx;
    destruct (decide (s' = s)) as [->|Hne].
  - left. exists x. by destruct s.
  - assert (s' = other_side s) as -> by (destruct s, s'; done).
    rewrite queue_set_queue in Hx. left.
    by eapply resting_key; [apply remaining_nonneg|apply queue_orders_ok|].
  - rewrite queue_set_queue in Hx. apply elem_of_queue_insert in Hx as [->|Hx]; [|eauto].
    right. split_and!; [done..|lia].
  - assert (s' = other_side s) as -> by (destruct s, s'; done).
    rewrite queue_set_queue_other, queue_set_queue in Hx. left.
    by eapply resting_key; [apply remaining_nonneg|apply queue_orders_ok|].
Qed.

Lemma place_spec_orders_ok : Forall order_ok (all_orders (place_spec o q)).
Proof.
  destruct (match_queue_total (limit_accepts s (price_ticks o)) (remaining_quantity o)
    (queue (other_side s) q) remaining_nonneg (queue_orders_ok _)) as [Ht Hu].
  assert (H1 : Forall order_ok (all_orders (set_queue (other_side s) (resting goal) q)))
    by (apply all_orders_set_queue; [done|apply suffix]).
  unfold place_spec. destruct (unmatched goal =? 0) eqn:Hz; zb; [done|].
  apply all_orders_set_queue; [done|]. apply Forall_forall. intros x.
  rewrite elem_of_queue_insert. intros [->|Hx].
  - apply order_ok_set_remaining; [done|lia].
  - pose proof (queue_orders_ok s) as H. rewrite Forall_forall in H. auto.
Qed.

(** When something is left of the incoming order, nothing it accepts is left
    in the queue. *)
Lemma resting_not_accepted x :
  0 < unmatched goal → x ∈ resting goal → limit_accepts s (price_ticks o) x = false.
Proof.
  intros Hu Hx. destruct suffix as (_ & k1 & Hk & _).
  assert (Hs : set_sorted (side_compare (other_side s)) (map make_priority_key (resting goal))).
  { destruct (Hsorted (other_side s)) as [_ H]. rewrite Hk in H.
    by apply StronglySorted_app_1_r in H. }
  assert (Hhead : ∀ y, head (resting goal) = Some y → limit_accepts s (price_ticks o) y = false).
  { destruct (match_queue_greedy (limit_accepts s (price_ticks o)) (remaining_quantity o)
      _ remaining_nonneg (queue_orders_ok (other_side s)))
      as [l1 l2 _ _ _ Hr Hstop|l1 y r z _ _ _ _ _ _ Hz]; [|lia].
    intros y Hy. rewrite Hr in Hy. by apply Hstop. }
  destruct (resting goal) as [|y r]; [by apply elem_of_nil in Hx|].
  specialize (Hhead y eq_refl). apply elem_of_cons in Hx as [->|Hx]; [done|].
  destruct (limit_accepts s (price_ticks o) x) eqn:Hacc; [|done].
  simpl in Hs. apply StronglySorted_inv in Hs as [_ Hs].
  rewrite Forall_map, Forall_forall in Hs. specialize (Hs x Hx).
  by rewrite (accepts_ahead _ _ _ _ Hs Hacc) in Hhead.
Qed.

Lemma place_spec_other x :
  x ∈ queue (other_side s) (place_spec o q) → x ∈ resting goal.
Proof. unfold place_spec. destruct (_ =? 0); by destruct s. Qed.

Lemma place_spec_uncrossed : uncrossed q → uncrossed (place_spec o q).
Proof.
  intros Hun b a Hb Ha.
  assert (Hkp : ∀ x y, make_priority_key x = make_priority_key y → price_ticks x = price_ticks y)
    by (intros [] [] [=]; done).
  pose proof (place_spec_origin Buy b Hb) as Hb'. pose proof (place_spec_origin Sell a Ha) as Ha'.
  destruct Hb' as [(b' & Hb' & Hkb%Hkp)|(Hs & Hkb%Hkp & Hu)].
  - destruct Ha' as [(a' & Ha' & Hka%Hkp)|(Hs & Hka%Hkp & Hu)].
    + rewrite Hkb, Hka. by apply Hun.
    + assert (Hr : b ∈ resting goal) by (apply place_spec_other; by rewrite <- Hs).
      pose proof (not_accepted_uncrossed _ _ _ (resting_not_accepted b Hu Hr)) as H.
      rewrite <- Hs in H. lia.
  - assert (Hr : a ∈ resting goal) by (apply place_spec_other; by rewrite <- Hs).
    pose proof (not_accepted_uncrossed _ _ _ (resting_not_accepted a Hu Hr)) as H.
    rewrite <- Hs in H. lia.
Qed.
End place_spec.
