(* ===== verification/Journal.v ===== *)
(** * Mutation journals and the matching rounds

    What one entry of a journal undoes, and what one round of the matching
    loops of [matching_engine.cpp] does to the engine and to its journal.  The
    rounds are described without assuming that the book agrees with the orders;
    that assumption only rules out the throwing case. *)
From S2P Require Import Prelude LongDouble Orders TradeStore OrderBook Levels OrderManager.
From S2P Require Import ManagerSpec MatchingEngine EngineSpec.

Local Open Scope Z_scope.

(** ** Undoing *)

Definition undo_entry (m : OrderMutation) (om om0 : OrderManager) : Prop :=
  ∀ e Q E, order_manager_ e = om → Q tt (set_manager om0 e) → wp (undo_order m) Q E e.

(** Replaying the journal backwards from [om] gives [om0]. *)
Definition undoes (js : list OrderMutation) (om om0 : OrderManager) : Prop :=
  ∀ e Q E, order_manager_ e = om → Q tt (set_manager om0 e) →
    wp (for_each (rev js) undo_order) Q E e.

Lemma set_manager_id e : set_manager (order_manager_ e) e = e.
Proof. by destruct e. Qed.

Lemma undoes_nil om : undoes [] om om.
Proof. intros e Q E <- HQ. rewrite set_manager_id in HQ. by apply wp_ret. Qed.

Lemma undoes_snoc js m om om1 om0 :
  undo_entry m om om1 → undoes js om1 om0 → undoes (js ++ [m]) om om0.
Proof.
  intros Hm Hjs e Q E He HQ. rewrite rev_unit. simpl. wp_step.
  apply Hm; [done|]. by apply Hjs.
Qed.

Lemma set_remaining_id o : set_remaining (remaining_quantity o) o = o.
Proof. by destruct o. Qed.

Lemma write_back om i o x :
  orders_ om !! i = Some o →
  set_orders (<[i := set_remaining (remaining_quantity o) (set_remaining x o)]>
    (<[i := set_remaining x o]> (orders_ om)))
    (set_orders (<[i := set_remaining x o]> (orders_ om)) om) = om.
Proof.
  intros Hi. rewrite list_insert_insert_eq.
  replace (set_remaining (remaining_quantity o) (set_remaining x o)) with o by by destruct o.
  rewrite list_insert_id by done. by destruct om.
Qed.

(** An entry of an order that was reduced but not removed. *)
Lemma undo_entry_written om q i o x m :
  om_rep om q → orders_ om !! i = Some o →
  mut_removed m = false → mut_order_id m = order_id o →
  mut_original_remaining_quantity m = remaining_quantity o →
  undo_entry m (set_orders (<[i := set_remaining x o]> (orders_ om)) om) om.
Proof.
  intros Hrep Hi Hr Hid Hq e Q E He HQ. unfold undo_order. rewrite Hr, Hid, Hq.
  wp_steps. unfold id, find_order. rewrite He. simpl.
  rewrite (indices_ok_lookup _ _ _ _ (rep_indices _ _ Hrep) Hi). unfold in_manager. wp_step.
  apply wp_write_order with (set_remaining x o).
  { rewrite He. simpl. apply list_lookup_insert_eq. by eapply lookup_lt_Some. }
  rewrite He. simpl. by rewrite write_back.
Qed.

(** An entry written before anything else happened. *)
Lemma undo_entry_untouched om q i o m :
  om_rep om q → orders_ om !! i = Some o →
  mut_removed m = false → mut_order_id m = order_id o →
  mut_original_remaining_quantity m = remaining_quantity o → undo_entry m om om.
Proof.
  intros Hrep Hi Hr Hid Hq.
  pose proof (undo_entry_written om q i o (remaining_quantity o) m Hrep Hi Hr Hid Hq) as H.
  rewrite set_remaining_id, list_insert_id in H by done. by destruct om.
Qed.

(** An entry of an order that was reduced and then removed. *)
Lemma undo_entry_removed om om2 i o x r m :
  orders_ om !! i = Some o → removed_order r = set_remaining x o →
  restores r om2 i (set_orders (<[i := set_remaining x o]> (orders_ om)) om) →
  mut_removed m = true → mut_removal m = Some r →
  mut_original_remaining_quantity m = remaining_quantity o → undo_entry m om2 om.
Proof.
  intros Hi Hro Hrest Hr Hm Hq e Q E He HQ. unfold undo_order. rewrite Hr, Hm, Hq, Hro.
  wp_step. unfold in_manager. wp_step. rewrite He. apply Hrest; [by rewrite Hro..|].
  intros r' _. wp_step. simpl. by rewrite write_back.
Qed.

Lemma mark_removed_snoc r js m :
  mark_removed r (js ++ [m]) = js ++ [mkMutation (mut_order_id m) (mut_side m)
    (mut_price_ticks m) (mut_executed_quantity m) (mut_original_remaining_quantity m) true (Some r)].
Proof.
  unfold mark_removed. rewrite last_snoc, length_app. simpl.
  by rewrite Nat.add_sub, take_app_length.
Qed.

(** ** One fill *)

(** The entry for a fill of [x] units of [o], with the record of its removal if
    it was removed. *)
Definition entry (o : LimitOrder) (x : Z) (r : option Removal) : OrderMutation :=
  mkMutation (order_id o) (side o) (price_ticks o) x (remaining_quantity o)
    (match r with Some _ => true | None => false end) r.

(** The queue whose head [o] gave up [x] units. *)
Definition after_fill (o : LimitOrder) (x : Z) (r : list LimitOrder) : list LimitOrder :=
  if remaining_quantity o - x =? 0 then r else set_remaining (remaining_quantity o - x) o :: r.

(** The engine after a fill, the manager being [om']. *)
Definition filled_engine (s : OrderSide) (taker : option Z) (o : LimitOrder) (x : Z)
    (om' : OrderManager) (e : MatchingEngine) : MatchingEngine :=
  set_manager om'
    (set_trades (recorded (trade_store_ e) (fill_trade s taker (o, x) (trade_store_ e)))
      (set_book (set_depth (side o) (price_ticks o)
         (book_depth (side o) (price_ticks o) (order_book_ e) - x) (order_book_ e)) e)).

Section fill.
Context (om : OrderManager) (q : Queues) (s : OrderSide) (o : LimitOrder)
  (r : list LimitOrder) (i : nat).
Hypothesis (Hrep : om_rep om q) (Hq : queue s q = o :: r) (Hi : orders_ om !! i = Some o).

Lemma fill_side : side o = s.
Proof. apply (rep_side _ _ Hrep). rewrite Hq. by left. Qed.

Lemma rep_reduce y :
  om_rep (set_orders (<[i := set_remaining y o]> (orders_ om)) om)
    (set_queue s (set_remaining y o :: r) q).
Proof.
  rewrite <- fill_side. apply (om_rep_write om q i o (set_remaining y o) [] r); [done..| |done|done].
  by rewrite fill_side.
Qed.

(** Removing the order that was just used up. *)
Lemma wp_settle x Q E :
  remaining_quantity o - x = 0 →
  (∀ rm om', om_rep om' (set_queue s (after_fill o x r) q) →
     undo_entry (entry o x (Some rm)) om' om → Q (Some rm) om') →
  wp (cancel_order_removal (order_id o)) Q E
    (set_orders (<[i := set_remaining (remaining_quantity o - x) o]> (orders_ om)) om).
Proof.
  intros Hx HQ. set (y := remaining_quantity o - x) in *.
  apply (wp_cancel_order_removal _ _ (rep_reduce y) s [] (set_remaining y o) r i).
  - by rewrite queue_set_queue.
  - simpl. apply list_lookup_insert_eq. by eapply lookup_lt_Some.
  - intros rm om' Hrep' Hro Hrest _. rewrite set_queue_set_queue in Hrep'. apply HQ.
    + unfold after_fill. fold y. by rewrite Hx.
    + by apply (undo_entry_removed om om' i o y rm).
Qed.

(** The order that kept a remainder stays where it is. *)
Lemma rep_partial x :
  remaining_quantity o - x ≠ 0 →
  om_rep (set_orders (<[i := set_remaining (remaining_quantity o - x) o]> (orders_ om)) om)
    (set_queue s (after_fill o x r) q).
Proof.
  intros Hx. unfold after_fill. rewrite (proj2 (Z.eqb_neq _ _) Hx). apply rep_reduce.
Qed.

Lemma undo_partial x :
  undo_entry (entry o x None)
    (set_orders (<[i := set_remaining (remaining_quantity o - x) o]> (orders_ om)) om) om.
Proof. by apply (undo_entry_written om q i o _ (entry o x None) Hrep). Qed.

Lemma undo_untouched x : undo_entry (entry o x None) om om.
Proof. by apply (undo_entry_untouched om q i o (entry o x None) Hrep). Qed.
End fill.

(** ** The round of [place_limit_order] and [modify_order] *)

Lemma best_of_side s om :
  (if is_buy s then best_sell_order om else best_buy_order om) = best_order (other_side s) om.
Proof. by destruct s. Qed.

(** [find_best_match] answers the head of the opposite queue if its price is
    acceptable. *)
Lemma wp_find_best_match o e q Q E e' :
  om_rep (order_manager_ e) q →
  match queue (other_side (side o)) q with
  | [] => Q None e'
  | x :: _ => if limit_accepts (side o) (price_ticks o) x then Q (Some (order_id x)) e' else Q None e'
  end →
  wp (find_best_match o e) Q E e'.
Proof.
  intros Hrep HQ. unfold find_best_match. rewrite best_of_side.
  pose proof (rep_best_order _ _ Hrep (other_side (side o))) as Hb.
  destruct (queue _ q) as [|x r] eqn:Hq.
  - rewrite Hb. by apply wp_ret.
  - destruct Hb as (i & -> & Hi & _). wp_step. apply wp_at_index with x; [done|].
    unfold limit_accepts in HQ.
    destruct (if is_buy (side o) then _ else _) eqn:Hc; simpl; by apply wp_ret.
Qed.

Lemma ok_head e q s o r : engine_ok e q → queue s q = o :: r → order_ok o.
Proof.
  intros Hok Hq. pose proof (ok_queue e q s Hok) as H. rewrite Hq in H.
  by apply Forall_cons in H as [? _].
Qed.

Lemma wp_execute_limit_trade e inc o i Q E :
  book_wf (order_book_ e) → orders_ (order_manager_ e) !! i = Some o → order_ok o →
  0 < remaining_quantity inc ≤ INT64_MAX →
  let x := Z.min (remaining_quantity inc) (remaining_quantity o) in
  (x ≤ book_depth (side o) (price_ticks o) (order_book_ e) →
   Q tt (filled_engine (side inc) (Some (order_id inc)) o x
           (set_orders (<[i := set_remaining (remaining_quantity o - x) o]>
              (orders_ (order_manager_ e))) (order_manager_ e)) e,
         set_remaining (remaining_quantity inc - x) inc)) →
  (book_depth (side o) (price_ticks o) (order_book_ e) < x →
   ∀ w ts, extends (trade_store_ e) ts → E (invalid_argument w) (set_trades ts e, inc)) →
  wp (execute_limit_trade i) Q E (e, inc).
Proof.
  intros Hb Hi (_ & Hop & Hor & Hoo & _) Hrem x HQ HE.
  unfold execute_limit_trade. wp_steps. unfold id; simpl.
  apply wp_at_index with o; [done|]. fold x. wp_steps. unfold in_trades. wp_step.
  apply wp_record_trade; [intros _ _|lia]. wp_steps; [mlia|].
  apply wp_adjust_order_book; simpl; [done|mlia| | |].
  - intros _ [Hd _]. wp_steps; [mlia|mlia|]. simpl. unfold in_manager. wp_steps.
    apply wp_write_order with o; [done|].
    unfold filled_engine, fill_trade in HQ. simpl in *. rewrite Z.add_opp_r.
    by destruct (side inc); apply HQ; lia.
  - intros Hd w. apply HE; [lia|]. apply extends_recorded.
  - intros Hd. pose proof (book_depth_bounds (side o) (price_ticks o) _ Hb). lia.
Qed.

(** *** One round

    The round stops when nothing is left or the head of the queue is not
    acceptable; otherwise it fills against that head.  It throws only when the
    book shows less than it fills, and then only the journal and the trade
    history have grown. *)
Lemma wp_match_round e f q Q E :
  engine_ok e q → 0 ≤ remaining_quantity (incoming f) ≤ INT64_MAX →
  let inc := incoming f in
  let s := side inc in
  ((remaining_quantity inc = 0 ∨
    ∀ o, head (queue (other_side s) q) = Some o → limit_accepts s (price_ticks inc) o = false) →
   Q false (e, f)) →
  (∀ o r x om' rm,
     queue (other_side s) q = o :: r → limit_accepts s (price_ticks inc) o = true →
     0 < remaining_quantity inc → x = Z.min (remaining_quantity inc) (remaining_quantity o) →
     x ≤ book_depth (side o) (price_ticks o) (order_book_ e) →
     om_rep om' (set_queue (other_side s) (after_fill o x r) q) →
     undo_entry (entry o x rm) om' (order_manager_ e) →
     Q true (filled_engine s (Some (order_id inc)) o x om' e,
       mkMatchFrame (set_remaining (remaining_quantity inc - x) inc) (mutations f ++ [entry o x rm]))) →
  (∀ o r x ts w,
     queue (other_side s) q = o :: r →
     x = Z.min (remaining_quantity inc) (remaining_quantity o) →
     book_depth (side o) (price_ticks o) (order_book_ e) < x →
     extends (trade_store_ e) ts →
     undo_entry (entry o x None) (order_manager_ e) (order_manager_ e) →
     E (invalid_argument w) (set_trades ts e, mkMatchFrame inc (mutations f ++ [entry o x None]))) →
  wp journalled_match_round Q E (e, f).
Proof.
  intros Hok Hrem inc s Hstop Hfill Hthrow. pose proof (ok_rep _ _ Hok) as Hrep.
  unfold journalled_match_round. wp_steps; unfold id in *; simpl in *; zb.
  2: { apply Hstop. left. unfold inc. lia. }
  apply (wp_find_best_match _ _ q); [done|]. fold inc. fold s.
  destruct (queue (other_side s) q) as [|o r] eqn:Hq.
  { apply wp_ret, Hstop. right. done. }
  destruct (limit_accepts s (price_ticks inc) o) eqn:Hacc.
  2: { apply wp_ret, Hstop. right. by intros ? [= <-]. }
  pose proof (rep_best_order _ _ Hrep (other_side s)) as Hb. rewrite Hq in Hb.
  destruct Hb as (i & _ & Hi & ->). wp_step. apply wp_at_index with o; [done|].
  wp_steps. fold inc. change (mkMutation _ _ _ ?x _ _ _) with (entry o x None).
  set (x := Z.min (remaining_quantity inc) (remaining_quantity o)).
  pose proof (ok_head _ _ _ _ _ Hok Hq) as Hoo.
  unfold trade_incoming. wp_steps. simpl.
  apply wp_execute_limit_trade with o; fold inc x;
    [apply Hok|done|done|unfold inc; lia| |].
  2: { intros Hd w ts Hts. apply (Hthrow o r x); try done. by eapply undo_untouched. }
  intros Hd. wp_steps. unfold id; simpl.
  apply wp_at_index with (set_remaining (remaining_quantity o - x) o).
  { apply list_lookup_insert_eq. by eapply lookup_lt_Some. }
  unfold in_manager, is_filled. wp_steps; simpl in *; zb.
  - eapply wp_settle; [done..|]. intros rm om' Hrep' Hundo. wp_steps. simpl.
    rewrite mark_removed_snoc. by apply (Hfill o r x om' (Some rm)).
  - apply (Hfill o r x _ None); try done; [by apply rep_partial|by eapply undo_partial].
Qed.

(** ** The round of [execute_market_order] *)

Section market.
Context `{LongDoubleFormat}.

(** The frame after a trade was accounted for. *)
Definition accounted (t : Trade) (f : MarketFrame) : MarketFrame :=
  let r := market_result f in
  mkMarketFrame
    (mkExecutionResult (result_side r) (requested_quantity r)
       (executed_quantity r + trade_quantity t) (result_remaining_quantity r - trade_quantity t)
       (average_price_ticks r) (result_trades r ++ [t]))
    (ld_add (weighted_price_total f)
       (ld_mul (of_int64 (trade_price_ticks t)) (of_int64 (trade_quantity t))))
    (market_mutations f).

(** The quantities of a result in the making. *)
Definition frame_ok (f : MarketFrame) : Prop :=
  0 ≤ result_remaining_quantity (market_result f) ∧
  0 ≤ executed_quantity (market_result f) ∧
  executed_quantity (market_result f) + result_remaining_quantity (market_result f) =
    requested_quantity (market_result f) ∧
  requested_quantity (market_result f) ≤ INT64_MAX.

Lemma wp_account_trade t e f Q E :
  frame_ok f → 0 ≤ trade_quantity t ≤ result_remaining_quantity (market_result f) →
  Q tt (e, accounted t f) → wp (account_trade t) Q E (e, f).
Proof.
  intros (H1 & H2 & H3 & H4) Ht HQ. unfold account_trade. wp_steps; simpl; [mlia|mlia|done].
Qed.

Lemma frame_ok_accounted t f :
  frame_ok f → 0 ≤ trade_quantity t ≤ result_remaining_quantity (market_result f) →
  frame_ok (accounted t f).
Proof. unfold frame_ok. simpl. lia. Qed.

(** One round against the orders fills the head of the queue of the other
    side.  It throws only when the book shows less than it fills, and then the
    journal has an entry for a fill that did not happen. *)
Lemma wp_market_round s e f q Q E :
  engine_ok e q → frame_ok f →
  let rem := result_remaining_quantity (market_result f) in
  (rem = 0 ∨ queue (other_side s) q = [] → Q false (e, f)) →
  (∀ o r x om' rm,
     queue (other_side s) q = o :: r → 0 < rem → x = Z.min rem (remaining_quantity o) →
     x ≤ book_depth (side o) (price_ticks o) (order_book_ e) →
     om_rep om' (set_queue (other_side s) (after_fill o x r) q) →
     undo_entry (entry o x rm) om' (order_manager_ e) →
     Q true (filled_engine s None o x om' e,
       set_mutations (market_mutations f ++ [entry o x rm])
         (accounted (fill_trade s None (o, x) (trade_store_ e)) f))) →
  (∀ o r x, queue (other_side s) q = o :: r → x = Z.min rem (remaining_quantity o) →
     book_depth (side o) (price_ticks o) (order_book_ e) < x → 0 < rem →
     undo_entry (entry o x None) (order_manager_ e) (order_manager_ e) →
     ∀ w ts f', extends (trade_store_ e) ts → market_mutations f' = market_mutations f ++ [entry o x None] →
       E (invalid_argument w) (set_trades ts e, f')) →
  wp (market_order_round s) Q E (e, f).
Proof.
  intros Hok Hf rem Hstop Hfill Hthrow. pose proof (ok_rep _ _ Hok) as Hrep.
  unfold market_order_round. wp_steps; unfold id in *; simpl in *; zb.
  2: { apply Hstop. left. destruct Hf. unfold rem. lia. }
  rewrite best_of_side. pose proof (rep_best_order _ _ Hrep (other_side s)) as Hb.
  destruct (queue (other_side s) q) as [|o r] eqn:Hq.
  { rewrite Hb. apply wp_ret, Hstop. by right. }
  destruct Hb as (i & -> & Hi & Hfind). wp_step. apply wp_at_index with o; [done|].
  rewrite Hfind. wp_step. apply wp_at_index with o; [done|].
  fold rem. change (mkMutation _ _ _ ?x _ _ _) with (entry o x None).
  set (x := Z.min rem (remaining_quantity o)).
  destruct (ok_head _ _ _ _ _ Hok Hq) as (Hoid & Hop & Hor & Hoo & _).
  wp_steps. unfold in_trades. wp_step.
  apply wp_record_trade; [intros _ _|fold rem in Heqb; lia].
  simpl. set (ts := trade_store_ e).
  assert (Ht : stamped ts s (price_ticks o) x (if is_buy s then None else Some (order_id o))
    (if is_sell s then None else Some (order_id o)) = fill_trade s None (o, x) ts) by by destruct s.
  rewrite Ht. wp_step. apply wp_account_trade; [done|simpl; lia|].
  wp_steps; [mlia|]. apply wp_adjust_order_book; simpl; [apply Hok|mlia| | |].
  - intros _ [Hd _]. wp_steps; [mlia|]. unfold in_manager, is_filled. wp_steps. simpl.
    rewrite Z.add_opp_r. apply wp_write_order with o; [done|]. wp_steps; simpl in *; zb.
    + eapply wp_settle; [done..|]. intros rm om' Hrep' Hundo. wp_steps. simpl.
      rewrite mark_removed_snoc. by apply (Hfill o r x om' (Some rm)); try done; lia.
    + apply (Hfill o r x _ None); try done; [lia|by apply rep_partial|by eapply undo_partial].
  - intros Hd w. apply (Hthrow o r x); [done|done|lia|lia|by eapply undo_untouched|apply extends_recorded|done].
  - intros Hd. pose proof (book_depth_bounds (side o) (price_ticks o) _ (ok_book _ _ Hok)). lia.
Qed.
End market.
