(* ===== verification/MatchLoop.v ===== *)
(** * The journalled matching loop

    The loop that [place_limit_order] and [modify_order] share runs the greedy
    pass of [EngineSpec.match_queue] over the opposite queue; its journal undoes
    the orders at every point, and the book as well as long as no adjustment of
    the book threw. *)
From S2P Require Import Prelude LongDouble Orders TradeStore OrderBook Levels OrderManager.
From S2P Require Import ManagerSpec MatchingEngine EngineSpec Journal.

Local Open Scope Z_scope.

(** ** Steps of the greedy pass *)

Definition prepend (fs : list (LimitOrder * Z)) (m : Matched) : Matched :=
  mkMatched (fs ++ fills m) (resting m) (unmatched m).

Lemma prepend_nil m : prepend [] m = m.
Proof. by destruct m. Qed.

Lemma prepend_prepend fs fs' m : prepend fs (prepend fs' m) = prepend (fs ++ fs') m.
Proof. unfold prepend. simpl. by rewrite app_assoc. Qed.

Lemma match_queue_step acceptable y o r x :
  0 < y → acceptable o = true → x = Z.min y (remaining_quantity o) →
  match_queue acceptable y (o :: r) =
    prepend [(o, x)] (match_queue acceptable (y - x) (after_fill o x r)).
Proof.
  intros Hy Ha Hx. simpl. rewrite Ha, (proj2 (Z.gtb_lt y 0)) by lia. simpl. unfold after_fill.
  destruct (remaining_quantity o <=? y) eqn:Hle; zb.
  - assert (x = remaining_quantity o) as -> by lia. by rewrite Z.sub_diag, Z.eqb_refl.
  - assert (x = y) as -> by lia. rewrite Z.sub_diag, match_queue_none.
    by rewrite (proj2 (Z.eqb_neq _ 0)) by lia.
Qed.

Lemma match_queue_stop acceptable y l :
  0 ≤ y → (y = 0 ∨ ∀ o, head l = Some o → acceptable o = false) →
  match_queue acceptable y l = mkMatched [] l y.
Proof.
  intros Hy [->|Ha]; [apply match_queue_none|]. destruct l as [|o r]; [done|]. simpl.
  by rewrite (Ha o), andb_false_r.
Qed.

Lemma record_fills_snoc s taker fs f ts :
  record_fills s taker (fs ++ [f]) ts =
    recorded (record_fills s taker fs ts) (fill_trade s taker f (record_fills s taker fs ts)).
Proof. unfold record_fills. by rewrite foldl_snoc. Qed.

Lemma record_fills_extends s taker fs ts : extends ts (record_fills s taker fs ts).
Proof.
  induction fs as [|f fs IH] using rev_ind; [done|].
  rewrite record_fills_snoc. etrans; [done|]. apply extends_recorded.
Qed.

(** ** A fill keeps the engine well-formed *)

Section filled.
Context (e : MatchingEngine) (q : Queues) (s : OrderSide) (taker : option Z) (o : LimitOrder)
  (r : list LimitOrder) (x : Z) (om' : OrderManager).
Hypothesis (Hok : engine_ok e q) (Hq : queue (other_side s) q = o :: r)
  (Hx : 0 < x ≤ remaining_quantity o)
  (Hd : x ≤ book_depth (side o) (price_ticks o) (order_book_ e))
  (Hrep' : om_rep om' (set_queue (other_side s) (after_fill o x r) q)).

Lemma after_fill_ok : Forall order_ok (after_fill o x r).
Proof.
  pose proof (ok_queue e q (other_side s) Hok) as Hl. rewrite Hq in Hl.
  apply Forall_cons in Hl as [Ho Hr]. unfold after_fill.
  destruct (_ =? 0) eqn:Hz; zb; [done|]. constructor; [|done].
  apply order_ok_set_remaining; [done|lia].
Qed.

Lemma filled_depth_bounds :
  0 ≤ book_depth (side o) (price_ticks o) (order_book_ e) - x ≤ INT64_MAX ∧
  0 ≤ price_ticks o ≤ INT64_MAX.
Proof.
  pose proof (book_depth_bounds (side o) (price_ticks o) _ (ok_book _ _ Hok)).
  destruct (ok_head _ _ _ _ _ Hok Hq) as (_ & ? & _). lia.
Qed.

Lemma engine_ok_filled :
  engine_ok (filled_engine s taker o x om' e) (set_queue (other_side s) (after_fill o x r) q).
Proof.
  split; simpl; [done| | |apply Hok|apply Hok].
  - apply all_orders_set_queue; [apply Hok|apply after_fill_ok].
  - apply book_wf_set_depth; [apply Hok|apply filled_depth_bounds..].
Qed.

Lemma synced_filled :
  synced (order_book_ e) q →
  synced (order_book_ (filled_engine s taker o x om' e))
    (set_queue (other_side s) (after_fill o x r) q).
Proof.
  intros Hs. simpl. pose proof filled_depth_bounds as [Hb Hp].
  pose proof (fill_side _ _ _ _ _ (ok_rep _ _ Hok) Hq) as Hside.
  rewrite Hside in Hb |- *. rewrite <- Z.add_opp_r. apply synced_replace; [done..|lia|]. intros p'. rewrite Hq.
  unfold after_fill. destruct (_ =? 0) eqn:Hz; zb; simpl; destruct (price_ticks o =? p'); lia.
Qed.

(** Undoing the fill: first the order, then the book. *)
Lemma undo_filled rm e1 Q E :
  undo_entry (entry o x rm) om' (order_manager_ e) →
  order_manager_ e1 = om' →
  order_book_ e1 = order_book_ (filled_engine s taker o x om' e) →
  Q tt (set_book (order_book_ e) (set_manager (order_manager_ e) e1)) →
  wp (undo_mutation (entry o x rm)) Q E e1.
Proof.
  intros Hundo Hom Hbk HQ. unfold undo_mutation. wp_step. apply Hundo; [done|].
  pose proof filled_depth_bounds as [Hb Hp]. simpl in Hbk.
  set (d := book_depth (side o) (price_ticks o) (order_book_ e)) in *.
  assert (Hback : set_depth (side o) (price_ticks o) d
    (set_depth (side o) (price_ticks o) (d - x) (order_book_ e)) = order_book_ e).
  { apply set_depth_back; [apply Hok|done..]. }
  assert (Hwf' : book_wf (set_depth (side o) (price_ticks o) (d - x) (order_book_ e)))
    by (apply book_wf_set_depth; [apply Hok|done..]).
  assert (Hnow : book_depth (side o) (price_ticks o) (order_book_ e1) = d - x)
    by (rewrite Hbk, book_depth_set_depth, Z.eqb_refl by apply Hok; done).
  destruct (ok_head _ _ _ _ _ Hok Hq) as (_ & _ & ? & ? & _).
  pose proof (book_depth_bounds (side o) (price_ticks o) _ (ok_book _ _ Hok)).
  apply wp_adjust_order_book_ok; simpl; [by rewrite Hbk|mlia|lia|rewrite Hnow; lia|].
  rewrite Hnow, Hbk. replace (d - x + x) with d by lia. rewrite Hback. by destruct e1.
Qed.
End filled.

(** Replaying the journal backwards restores the orders and the book. *)
Definition undoes_all (js : list OrderMutation) (e e0 : MatchingEngine) : Prop :=
  ∀ e1 Q E, order_manager_ e1 = order_manager_ e → order_book_ e1 = order_book_ e →
    Q tt (set_book (order_book_ e0) (set_manager (order_manager_ e0) e1)) →
    wp (for_each (rev js) undo_mutation) Q E e1.

Lemma undoes_all_nil e : undoes_all [] e e.
Proof. intros e1 Q E Hom Hbk HQ. apply wp_ret. rewrite <- Hom, <- Hbk in HQ. by destruct e1. Qed.

Lemma undoes_all_snoc js m e e1 e0 :
  (∀ e2 Q E, order_manager_ e2 = order_manager_ e → order_book_ e2 = order_book_ e →
     Q tt (set_book (order_book_ e1) (set_manager (order_manager_ e1) e2)) →
     wp (undo_mutation m) Q E e2) →
  undoes_all js e1 e0 → undoes_all (js ++ [m]) e e0.
Proof.
  intros Hm Hjs e2 Q E Hom Hbk HQ. rewrite rev_unit. simpl. wp_step.
  apply Hm; [done..|]. by apply Hjs.
Qed.

(** ** The loop *)

Section loop.
Context (e0 : MatchingEngine) (q0 : Queues) (inc0 : LimitOrder).
Notation s := (side inc0).
Notation accepts := (limit_accepts s (price_ticks inc0)).
Notation taker := (Some (order_id inc0)).
Notation goal := (match_queue accepts (remaining_quantity inc0) (queue (other_side s) q0)).

(** The state of the loop after the fills [fs]. *)
Record matching (fs : list (LimitOrder * Z)) (e : MatchingEngine) (f : MatchFrame) (q : Queues)
    : Prop := mk_matching {
  mt_ok : engine_ok e q;
  mt_incoming : incoming f = set_remaining (remaining_quantity (incoming f)) inc0;
  mt_remaining : 0 ≤ remaining_quantity (incoming f) ≤ INT64_MAX;
  mt_queue : q = set_queue (other_side s) (queue (other_side s) q) q0;
  mt_progress :
    goal = prepend fs (match_queue accepts (remaining_quantity (incoming f))
                         (queue (other_side s) q));
  mt_engine :
    e = set_manager (order_manager_ e) (set_book (order_book_ e)
          (set_trades (record_fills s taker fs (trade_store_ e0)) e0));
  mt_undoes : undoes (mutations f) (order_manager_ e) (order_manager_ e0);
  mt_undoes_all : undoes_all (mutations f) e e0;
  mt_synced : synced (order_book_ e0) q0 → synced (order_book_ e) q
}.

Lemma matching_start :
  engine_ok e0 q0 → 0 ≤ remaining_quantity inc0 ≤ INT64_MAX →
  matching [] e0 (mkMatchFrame inc0 []) q0.
Proof.
  intros Hok Hr. split; simpl; try done; [by rewrite set_remaining_id| | | | |].
  - by rewrite set_queue_id.
  - by rewrite prepend_nil.
  - by destruct e0.
  - apply undoes_nil.
  - apply undoes_all_nil.
Qed.

Lemma matching_fill fs e f q o r x om' rm :
  matching fs e f q → queue (other_side s) q = o :: r → accepts o = true →
  0 < remaining_quantity (incoming f) →
  x = Z.min (remaining_quantity (incoming f)) (remaining_quantity o) →
  x ≤ book_depth (side o) (price_ticks o) (order_book_ e) →
  om_rep om' (set_queue (other_side s) (after_fill o x r) q) →
  undo_entry (entry o x rm) om' (order_manager_ e) →
  matching (fs ++ [(o, x)]) (filled_engine s taker o x om' e)
    (mkMatchFrame (set_remaining (remaining_quantity (incoming f) - x) (incoming f))
       (mutations f ++ [entry o x rm]))
    (set_queue (other_side s) (after_fill o x r) q).
Proof.
  intros [Hok Hinc Hrem Hqq Hprog Heng Hun Hall Hsync] Hq Hacc Hpos Hx Hd Hrep Hundo.
  destruct (ok_head _ _ _ _ _ Hok Hq) as (_ & _ & Ho & _). split; simpl.
  - apply engine_ok_filled; try done; lia.
  - rewrite Hinc. done.
  - lia.
  - rewrite queue_set_queue, Hqq. by rewrite set_queue_set_queue.
  - rewrite Hprog, queue_set_queue, Hq, <- prepend_prepend. f_equal.
    by apply match_queue_step.
  - rewrite Heng at 1. rewrite record_fills_snoc. unfold filled_engine.
    rewrite Heng. done.
  - eapply undoes_snoc; done.
  - eapply undoes_all_snoc; [|done]. intros e2 Q E Hom Hbk HQ. simpl in Hom.
    eapply (undo_filled e q s taker o r x om'); try done; lia.
  - intros Hs. apply (synced_filled e q s taker o r x om'); try done; [lia|by apply Hsync].
Qed.

(** Enough fuel is one round more than there are orders on the other side.
    The loop ends with the greedy pass complete, or throws because the book
    disagrees with the orders. *)
Lemma wp_match_loop fuel Q E :
  engine_ok e0 q0 → 0 ≤ remaining_quantity inc0 ≤ INT64_MAX →
  (length (queue (other_side s) q0) < fuel)%nat →
  (∀ e f, matching (fills goal) e f (set_queue (other_side s) (resting goal) q0) →
     incoming f = set_remaining (unmatched goal) inc0 → Q tt (e, f)) →
  (¬ synced (order_book_ e0) q0 → ∀ w e f,
     incoming f = set_remaining (remaining_quantity (incoming f)) inc0 →
     undoes (mutations f) (order_manager_ e) (order_manager_ e0) →
     extends (trade_store_ e0) (trade_store_ e) → E (invalid_argument w) (e, f)) →
  wp (loop fuel journalled_match_round) Q E (e0, mkMatchFrame inc0 []).
Proof.
  intros Hok Hr Hfuel HQ HE.
  apply (wp_loop (λ y, ∃ fs q, matching fs (fst y) (snd y) q)
    (λ y, if remaining_quantity (incoming (snd y)) =? 0 then O
          else length (side_index (other_side s) (order_manager_ (fst y))))).
  - intros [e f] (fs & q & Hm). simpl in Hm. pose proof Hm as [].
    assert (Hids : order_id (incoming f) = order_id inc0) by (rewrite mt_incoming0; done).
    assert (Hsd : side (incoming f) = s) by (rewrite mt_incoming0; done).
    assert (Hpr : price_ticks (incoming f) = price_ticks inc0) by (rewrite mt_incoming0; done).
    apply (wp_match_round e f q); rewrite ?Hsd, ?Hpr, ?Hids; [done..| | |].
    + intros Hstop. rewrite (match_queue_stop _ _ _ (proj1 mt_remaining0) Hstop) in mt_progress0.
      apply HQ; rewrite mt_progress0; simpl; rewrite ?app_nil_r, <- ?mt_queue0; done.
    + intros o r x om' rm Hq Hacc Hpos Hx Hd Hrep Hundo. split.
      * exists (fs ++ [(o, x)]), (set_queue (other_side s) (after_fill o x r) q). simpl.
        by apply matching_fill.
      * simpl. rewrite (rep_index _ _ Hrep), queue_set_queue, (rep_index _ _ (ok_rep _ _ mt_ok0)), Hq.
        rewrite !length_fmap. rewrite (proj2 (Z.eqb_neq (remaining_quantity (incoming f)) 0)) by lia.
        unfold after_fill. destruct (_ =? 0) eqn:H1; simpl; [lia|].
        destruct (remaining_quantity o - x =? 0) eqn:H2; simpl; zb; lia.
    + intros o r x ts w Hq Hx Hd Hts Hundo. apply HE; simpl.
      * intros Hs. destruct (mt_synced0 Hs) as [_ Hsq]. rewrite Hsq in Hd.
        pose proof (queue_depth_elem o (queue (side o) q) (ok_queue _ _ _ mt_ok0)) as Hel.
        rewrite (fill_side _ _ _ _ _ (ok_rep _ _ mt_ok0) Hq) in Hel, Hd.
        rewrite Hq in Hel, Hd. specialize (Hel ltac:(by left)). lia.
      * done.
      * by eapply undoes_snoc.
      * etrans; [|done]. rewrite mt_engine0. simpl. apply record_fills_extends.
  - exists [], q0. by apply matching_start.
  - simpl. case_match; [lia|]. by rewrite (rep_index _ _ (ok_rep _ _ Hok)), length_fmap.
Qed.
End loop.
