(* ===== verification/EngineLimit.v ===== *)
(** * Limit orders

    [place_limit_order]: whatever the shared book holds, a placement that throws
    leaves the engine exactly as it was; and while the book shows the queues a
    placement implements [EngineSpec.place_spec]. *)
From S2P Require Import Prelude LongDouble Orders TradeStore OrderBook Levels OrderManager.
From S2P Require Import ManagerSpec MatchingEngine EngineSpec PlaceSpec Journal MatchLoop.

Local Open Scope Z_scope.

(** Cancelling the order that was just added. *)
Lemma wp_cancel_placed om q o Q E :
  om_rep om q → find_order (order_id o) om = None → Q true om →
  wp (OrderManager.cancel_order (order_id o)) Q E
    (with_order o (map make_priority_key (queue_insert (side o) o (queue (side o) q))) om).
Proof.
  intros Hrep Hfresh HQ. pose proof (rep_queue _ _ Hrep (side o)) as [_ Hs].
  destruct (queue_insert_split (side o) o _ Hs) as (l1 & l2 & Hq & -> & H1 & H2).
  { apply Forall_forall. intros x Hx. apply (proj1 (rep_find_none _ _ Hrep _) Hfresh).
    rewrite (all_orders_queue (side o)), elem_of_app. by left. }
  rewrite map_app. simpl. apply (wp_cancel_added om q Hrep o Hfresh); [| |done].
  - by rewrite (rep_index _ _ Hrep), Hq, map_app.
  - rewrite Hq, map_app in Hs. apply set_sorted_middle; [done|by rewrite Forall_map..].
Qed.

(** An id that no order has before matching, none has afterwards. *)
Lemma match_fresh om om' q s acceptable y i :
  om_rep om q → 0 ≤ y → Forall order_ok (queue s q) →
  om_rep om' (set_queue s (resting (match_queue acceptable y (queue s q))) q) →
  find_order i om = None → find_order i om' = None.
Proof.
  intros Hrep Hy Hl Hrep' Hn. rewrite (rep_find_none _ _ Hrep) in Hn.
  apply (rep_find_none _ _ Hrep'). intros o Ho.
  rewrite (all_orders_queue s), queue_set_queue, queue_set_queue_other, elem_of_app in Ho.
  destruct Ho as [Ho|Ho].
  - destruct (resting_key _ _ _ _ Hy Hl Ho) as (o' & Hin & Heq).
    replace (order_id o) with (order_id o') by (unfold make_priority_key in Heq; congruence).
    apply Hn. rewrite (all_orders_queue s), elem_of_app. by left.
  - apply Hn. rewrite (all_orders_queue s), elem_of_app. by right.
Qed.

Lemma queue_depth_insert p s o l :
  queue_depth p (queue_insert s o l) =
    queue_depth p l + if price_ticks o =? p then remaining_quantity o else 0.
Proof.
  unfold queue_insert. set (n := length _). rewrite queue_depth_app, queue_depth_cons.
  pose proof (queue_depth_app p (take n l) (drop n l)) as Happ. rewrite take_drop in Happ. lia.
Qed.

(** Queueing an order and showing its quantity keeps the book in step. *)
Lemma synced_add b q o :
  synced b q → 0 ≤ price_ticks o ≤ INT64_MAX →
  0 ≤ book_depth (side o) (price_ticks o) b + remaining_quantity o ≤ INT64_MAX →
  synced (set_depth (side o) (price_ticks o)
            (book_depth (side o) (price_ticks o) b + remaining_quantity o) b)
    (set_queue (side o) (queue_insert (side o) o (queue (side o) q)) q).
Proof.
  intros Hs Hp Hd. apply synced_replace; [done..|]. intros p'. apply queue_depth_insert.
Qed.

(** ** The crossing branch *)

Section crossing.
Context (e0 : MatchingEngine) (q0 : Queues) (inc0 : LimitOrder) (pf : PlaceFrame).
Notation s := (side inc0).
Notation goal := (match_queue (limit_accepts s (price_ticks inc0)) (remaining_quantity inc0)
                    (queue (other_side s) q0)).

(** The engine after a successful placement. *)
Record placed (e : MatchingEngine) : Prop := mk_placed {
  placed_rep : om_rep (order_manager_ e) (place_spec inc0 q0);
  placed_trades :
    trade_store_ e = record_fills s (Some (order_id inc0)) (place_fills inc0 q0) (trade_store_ e0);
  placed_generator : order_id_generator_ e = order_id_generator_ e0;
  placed_sequence : next_sequence_number_ e = next_sequence_number_ e0;
  placed_synced : synced (order_book_ e) (place_spec inc0 q0)
}.

(** Why a placement may fail once its arguments were accepted. *)
Definition place_fails : Prop :=
  synced (order_book_ e0) q0 →
  find_order (order_id inc0) (order_manager_ e0) ≠ None ∨ sequence_number inc0 = 0 ∨
  INT64_MAX < queue_depth (price_ticks inc0) (queue s q0) + unmatched goal.

Hypothesis (Hok : engine_ok e0 q0) (Hid : 0 < order_id inc0)
  (Hp : 0 < price_ticks inc0 ≤ INT64_MAX)
  (Hr : 0 < remaining_quantity inc0 ≤ INT64_MAX)
  (Horig : original_quantity inc0 = remaining_quantity inc0).

Lemma goal_bounds : 0 ≤ unmatched goal ≤ remaining_quantity inc0.
Proof. apply match_queue_total; [lia|by eapply ok_queue]. Qed.

Lemma wp_place_match_undo ex cp e2 f added Q E :
  (if added : bool then ∃ om2 q2, om_rep om2 q2 ∧ undoes (mutations f) om2 (order_manager_ e0) ∧
     find_order (order_id (incoming f)) om2 = None ∧
     order_manager_ e2 = with_order (incoming f) (map make_priority_key
       (queue_insert (side (incoming f)) (incoming f) (queue (side (incoming f)) q2))) om2
   else undoes (mutations f) (order_manager_ e2) (order_manager_ e0)) →
  extends (trade_store_ e0) (trade_store_ e2) → cp = checkpoint (trade_store_ e0) →
  (∀ e3 y, order_manager_ e3 = order_manager_ e0 → trade_store_ e3 = trade_store_ e0 →
     E ex ((e3, pf), y)) →
  wp (place_match_undo cp ex) Q E ((e2, pf), (f, added)).
Proof.
  intros Hadd Hts -> HE. unfold place_match_undo. wp_steps. simpl.
  apply wp_when; intros ->; wp_steps; unfold in_manager.
  - destruct Hadd as (om2 & q2 & Hrep & Hun & Hfresh & Hom). wp_steps. rewrite Hom. simpl.
    eapply wp_cancel_placed; [done..|]. simpl. wp_steps. apply Hun; [done|].
    unfold in_trades. wp_steps. apply wp_rollback; [done|by apply HE].
  - apply Hadd; [done|]. unfold in_trades. wp_steps.
    apply wp_rollback; [done|by apply HE].
Qed.

Lemma place_spec_filled :
  unmatched goal = 0 → place_spec inc0 q0 = set_queue (other_side s) (resting goal) q0.
Proof. intros Hu. unfold place_spec. by rewrite Hu. Qed.

Lemma place_spec_rest :
  unmatched goal ≠ 0 →
  place_spec inc0 q0 = set_queue s (queue_insert s (set_remaining (unmatched goal) inc0)
    (queue s (set_queue (other_side s) (resting goal) q0)))
    (set_queue (other_side s) (resting goal) q0).
Proof.
  intros Hu. unfold place_spec. rewrite (proj2 (Z.eqb_neq _ _) Hu). by destruct s.
Qed.

(** The inner block either completes the placement or, on a throw, gives the
    orders and the trade history back. *)
Lemma wp_place_crossing fuel new_id Q E :
  (length (queue (other_side s) q0) < fuel)%nat →
  (∀ e f, (synced (order_book_ e0) q0 → placed e) → Q new_id ((e, pf), f)) →
  (∀ ex e y, place_fails → order_manager_ e = order_manager_ e0 →
     trade_store_ e = trade_store_ e0 → E ex ((e, pf), y)) →
  wp (try_catch (place_match fuel new_id)
        (place_match_undo (checkpoint (trade_store_ e0)))) Q E
    ((e0, pf), (mkMatchFrame inc0 [], false)).
Proof.
  intros Hfuel HQ HE. apply wp_try_catch. unfold place_match, in_match. wp_steps. simpl.
  apply (wp_match_loop e0 q0 inc0); [done|lia|done| |].
  2: { intros Hns w e f _ Hun Hts. simpl. apply wp_place_match_undo; [done..|].
    intros. apply HE; [|done..]. by intros ?. }
  intros e f Hm Hinc. do 2 wp_step. unfold id. simpl. rewrite Hinc. unfold is_filled. simpl.
  pose proof goal_bounds as Hg. pose proof (mt_engine _ _ _ _ _ _ _ Hm) as Heng.
  pose proof (mt_ok _ _ _ _ _ _ _ Hm) as Hok'. pose proof (ok_rep _ _ Hok') as Hrep'.
  wp_steps; zb.
  2: { apply HQ. intros Hs. pose proof (place_spec_filled ltac:(done)) as Hspec.
    split; rewrite ?Hspec; [done|by rewrite Heng..|]. by apply (mt_synced _ _ _ _ _ _ _ Hm). }
  set (o' := set_remaining (unmatched goal) inc0). unfold in_manager. wp_steps. simpl.
  assert (Hts : extends (trade_store_ e0) (trade_store_ e))
    by (rewrite Heng; apply record_fills_extends).
  destruct (find_order (order_id o') (order_manager_ e)) eqn:Hfind.
  { apply wp_add_order_duplicate; [congruence|]. intros w. rewrite set_manager_id.
    apply wp_place_match_undo; [apply Hm|done..|]. intros. apply HE; [|done..].
    intros _. left. intros Hn. 
    pose proof (match_fresh _ _ q0 (other_side s) _ (remaining_quantity inc0) (order_id inc0)
      (ok_rep _ _ Hok) ltac:(lia) (ok_queue _ _ _ Hok) Hrep' Hn). simpl in Hfind. congruence. }
  apply (wp_add_order _ _ Hrep' o' Hfind); simpl; rewrite ?Horig.
  2: { intros Hbad w. rewrite set_manager_id.
    apply wp_place_match_undo; [apply Hm|done..|]. intros. apply HE; [|done..].
    intros _. right. left. lia. }
  intros _ _ _ _ Hseq Hrep''. wp_steps. simpl. wp_steps.
  apply wp_adjust_order_book; simpl; [apply Hok'|mlia| | |].
  - intros _ Hd. wp_steps. apply HQ. intros Hs.
    pose proof (place_spec_rest ltac:(done)) as Hspec.
    split; rewrite ?Hspec; [done|by rewrite Heng..|]. simpl.
    apply (synced_add _ _ o'); [by apply (mt_synced _ _ _ _ _ _ _ Hm)|simpl; lia|done].
  - pose proof (book_depth_bounds s (price_ticks inc0) _ (ok_book _ _ Hok')). lia.
  - intros Hover w. simpl. apply wp_place_match_undo; [|done..|].
    + simpl. rewrite Hinc. exists (order_manager_ e), (set_queue (other_side s) (resting goal) q0).
      split_and!; [done|apply Hm|done|done].
    + intros. apply HE; [|done..]. intros Hs. right. right.
      destruct (mt_synced _ _ _ _ _ _ _ Hm Hs) as [_ Hq]. rewrite Hq in Hover.
      by destruct s.
Qed.
End crossing.

(** ** The whole operation *)

(** The engine when matching starts: the first order of the engine's own
    discards the book it was given, and both counters advance. *)
Definition started (e : MatchingEngine) : MatchingEngine :=
  let e1 := match orders_ (order_manager_ e) with [] => set_book empty_book e | _ => e end in
  set_next_sequence (uwrap64 (next_sequence_number_ e + 1))
    (set_generator (mkOrderIdGenerator (next_order_id_ (order_id_generator_ e) + 1)) e1).

Definition incoming_order (s : OrderSide) (p quantity : Z) (e : MatchingEngine) : LimitOrder :=
  mkLimitOrder (next_order_id_ (order_id_generator_ e)) s p quantity quantity
    (next_sequence_number_ e).

Lemma uwrap64_bounds x : 0 ≤ uwrap64 x ≤ UINT64_MAX.
Proof. unfold uwrap64. pose proof (Z.mod_pos_bound x 18446744073709551616). mlia. Qed.

Lemma started_ok e q :
  engine_ok e q → next_order_id_ (order_id_generator_ e) < UINT64_MAX → engine_ok (started e) q.
Proof.
  intros [Hrep Ho Hb Hi Hs] Hlt. unfold started.
  split; simpl; [|done| |lia|apply uwrap64_bounds]; destruct (orders_ _); simpl; try done.
  apply book_wf_empty.
Qed.

(** The handler of the outer block. *)
Lemma wp_place_undo e s p quantity ex x f Q E :
  order_manager_ x = order_manager_ e → trade_store_ x = trade_store_ e →
  book_wf (order_book_ e) → 0 ≤ p ≤ INT64_MAX → 0 < quantity ≤ INT64_MAX →
  match order_book_backup f with
  | Some b => b = order_book_ e
  | None =>
      if non_crossing_book_adjusted f
      then book_depth s p (order_book_ e) + quantity ≤ INT64_MAX ∧
           order_book_ x = set_depth s p (book_depth s p (order_book_ e) + quantity) (order_book_ e)
      else order_book_ x = order_book_ e
  end →
  (∀ y, E ex (e, y)) →
  wp (place_undo s p quantity (order_id_generator_ e) (next_sequence_number_ e) ex) Q E (x, f).
Proof.
  intros Hom Hts Hwf Hp Hq Hbk HE. unfold place_undo, in_book, assign_book. wp_steps. simpl.
  destruct (order_book_backup f) as [b|].
  - subst b. wp_steps. unfold set_book, set_next_sequence, set_generator. simpl.
    rewrite Hom, Hts. destruct e as [[] ? ? ? ?]. apply HE.
  - wp_step. apply wp_when; intros Hadj; rewrite Hadj in Hbk.
    + destruct Hbk as [Hd Hbk]. pose proof (book_depth_bounds s p _ Hwf).
      wp_steps; [mlia|]. apply wp_adjust_order_book_ok; simpl; rewrite ?Hbk.
      * apply book_wf_set_depth; [done..|lia].
      * mlia.
      * lia.
      * rewrite book_depth_set_depth, Z.eqb_refl by done. lia.
      * rewrite book_depth_set_depth, Z.eqb_refl by done. wp_steps.
        rewrite Z.add_opp_r, Z.add_simpl_r, set_depth_back by (done || lia).
        unfold set_book, set_next_sequence, set_generator. simpl. rewrite Hom, Hts.
        destruct e. apply HE.
    + wp_steps. unfold set_next_sequence, set_generator. simpl. rewrite Hom, Hts, Hbk.
      destruct e. apply HE.
Qed.

Section place.
Context (e : MatchingEngine) (q : Queues) (s : OrderSide) (p quantity : Z).
Hypothesis (Hok : engine_ok e q).
Notation inc := (incoming_order s p quantity e).

(** Why a placement may throw. *)
Definition place_rejected : Prop :=
  p ≤ 0 ∨ quantity ≤ 0 ∨ next_order_id_ (order_id_generator_ e) = UINT64_MAX ∨
  place_fails (started e) q inc.

Lemma started_manager : order_manager_ (started e) = order_manager_ e.
Proof. unfold started. simpl. by destruct (orders_ _). Qed.
Lemma started_trades : trade_store_ (started e) = trade_store_ e.
Proof. unfold started. simpl. by destruct (orders_ _). Qed.

Notation first := (match orders_ (order_manager_ e) with [] => true | _ => false end).
Notation backup := (if first then Some (copy_book (order_book_ e)) else None).

Lemma started_book : first = false → order_book_ (started e) = order_book_ e.
Proof. unfold started. simpl. by destruct (orders_ _). Qed.

Lemma copy_book_id b : copy_book b = b.
Proof. by destruct b. Qed.

Hypothesis (Hp : 0 < p ≤ INT64_MAX) (Hqty : 0 < quantity ≤ INT64_MAX).

(** Nothing on the other side is acceptable: matching does nothing. *)
Lemma resting_goal :
  engine_ok (started e) q → synced (order_book_ (started e)) q →
  crosses_order_book s p (started e) = false →
  match_queue (limit_accepts s p) quantity (queue (other_side s) q) =
    mkMatched [] (queue (other_side s) q) quantity.
Proof.
  intros Hok' Hs Hc. rewrite (crosses_synced _ q) in Hc by done.
  apply match_queue_stop; [lia|]. right. intros o Ho. by rewrite Ho in Hc.
Qed.

(** The branch that does not cross. *)
Lemma wp_place_resting Q E :
  engine_ok (started e) q → crosses_order_book s p (started e) = false →
  (∀ e' f, (synced (order_book_ (started e)) q → placed (started e) q inc e') →
     Q (order_id inc) (e', f)) →
  (∀ ex y, place_rejected → E ex (e, y)) →
  wp (outer (adjust_order_book s p quantity) ;;;
      modify (λ x, (fst x, mkPlaceFrame (order_book_backup (snd x)) true)) ;;;
      outer (in_manager (add_order inc)) ;;;
      ret (order_id inc)) Q
    (λ ex s', wp (place_undo s p quantity (order_id_generator_ e) (next_sequence_number_ e) ex) Q E s')
    (started e, mkPlaceFrame backup false).
Proof.
  pose proof started_manager as Hom. pose proof started_trades as Hts.
  pose proof started_book as Hb. pose proof resting_goal as Hgoal0. unfold place_rejected.
  revert Hom Hts Hb Hgoal0. generalize (started e) as e1.
  intros e1 Hom Hts Hb Hgoal0 Hok' Hc HQ HE. pose proof (ok_rep _ _ Hok') as Hrep.
  assert (Hreject : place_fails e1 q inc → p ≤ 0 ∨ quantity ≤ 0 ∨
    next_order_id_ (order_id_generator_ e) = UINT64_MAX ∨ place_fails e1 q inc) by tauto.
  assert (Hgoal := λ Hs, Hgoal0 Hok' Hs Hc).
  assert (Hundo : ∀ ex, place_fails e1 q inc →
    book_depth s p (order_book_ e1) + quantity ≤ INT64_MAX →
    wp (place_undo s p quantity (order_id_generator_ e) (next_sequence_number_ e) ex) Q E
      (set_book (set_depth s p (book_depth s p (order_book_ e1) + quantity)
         (order_book_ e1)) e1, mkPlaceFrame backup true)).
  { intros ex Hrej Hd. apply (wp_place_undo e); simpl; rewrite ?copy_book_id;
      [done|done|apply Hok|lia|done| |auto].
    destruct first; [done|]. by rewrite Hb in Hd |- * by done. }
  wp_steps. apply wp_adjust_order_book; [apply Hok'|mlia| | |].
  - intros _ [Hd0 Hd]. wp_steps. simpl. unfold in_manager. wp_steps. simpl.
    destruct (find_order (order_id inc) (order_manager_ e1)) eqn:Hfind.
    { apply wp_add_order_duplicate; [congruence|]. intros w. apply Hundo; [|done].
      intros _. left. congruence. }
    apply (wp_add_order _ _ Hrep inc Hfind); simpl.
    2: { intros Hbad w. apply Hundo; [|done]. intros _. right. left. simpl.
    pose proof (ok_ids _ _ Hok). lia. }
    intros _ _ _ _ Hseq Hrep'. wp_steps. simpl. apply HQ. intros Hs. specialize (Hgoal Hs).
    assert (place_spec inc q = set_queue s (queue_insert s inc (queue s q)) q) as Hspec.
    { unfold place_spec; simpl. rewrite Hgoal. simpl.
      rewrite set_queue_id, (proj2 (Z.eqb_neq quantity 0)) by lia. done. }
    assert (place_fills inc q = []) as Hfills by (unfold place_fills; simpl; by rewrite Hgoal).
    split; rewrite ?Hspec, ?Hfills; simpl; [done..|].
    by apply (synced_add _ q inc); simpl; [|lia|].
  - pose proof (book_depth_bounds s p _ (ok_book _ _ Hok')). lia.
  - intros Hover w. apply (wp_place_undo e); simpl; rewrite ?copy_book_id;
      [done|done|apply Hok|lia|done| |].
    { destruct first; auto. }
    intros y. apply HE, Hreject. intros Hs. right. right. simpl. rewrite (Hgoal Hs). simpl.
    destruct Hs as [_ Hs]. by rewrite <- Hs.
Qed.

Lemma wp_place_body Q E :
  (∀ e' f, (synced (order_book_ (started e)) q → placed (started e) q inc e') →
     Q (order_id inc) (e', f)) →
  (∀ ex y, place_rejected → E ex (e, y)) →
  wp (try_catch (place_body s p quantity first)
        (place_undo s p quantity (order_id_generator_ e) (next_sequence_number_ e))) Q E
    (e, mkPlaceFrame backup false).
Proof.
  intros HQ HE. pose proof (ok_ids _ _ Hok) as Hids.
  apply wp_try_catch. unfold place_body. wp_step.
  set (e1 := if first then set_book empty_book e else e).
  assert (Hpre : ∀ (k : unit → M (MatchingEngine * PlaceFrame) Z) Q E f,
    wp (k tt) Q E (e1, f) → wp (when first (outer (in_book (replace_normalized_snapshot [] []))))
      (λ a s', wp (k a) Q E s') E (e, f)).
  { intros k Q' E' f' Hk. unfold e1 in Hk. apply wp_when; intros Hf; rewrite Hf in Hk; [|done].
    unfold in_book, replace_normalized_snapshot. by wp_steps. }
  apply Hpre. clear Hpre. unfold in_generator. wp_steps.
  assert (Hgen : order_id_generator_ e1 = order_id_generator_ e) by (unfold e1; by destruct first).
  assert (Hseq : next_sequence_number_ e1 = next_sequence_number_ e) by (unfold e1; by destruct first).
  assert (Hom : order_manager_ e1 = order_manager_ e) by (unfold e1; by destruct first).
  assert (Hts : trade_store_ e1 = trade_store_ e) by (unfold e1; by destruct first).
  assert (Hbk : first = false → order_book_ e1 = order_book_ e) by (unfold e1; by intros ->).
  rewrite Hgen. apply wp_next; [lia| |].
  2: { intros Hmax. apply (wp_place_undo e); simpl; rewrite ?copy_book_id; try done; [apply Hok|lia| |].
    - destruct first; auto.
    - intros y. apply HE. unfold place_rejected. tauto. }
  intros Hlt. do 9 (wp_step; cbn beta). simpl. rewrite ?Hseq.
  pose proof (started_ok e q Hok Hlt) as Hok'.
  assert (Hst : set_next_sequence (uwrap64 (next_sequence_number_ e + 1))
    (set_generator (mkOrderIdGenerator (next_order_id_ (order_id_generator_ e) + 1)) e1) = started e).
  { unfold started, e1. by destruct (orders_ _). }
  rewrite Hst. destruct (crosses_order_book s p (started e)) eqn:Hc; simpl.
  2: { by apply wp_place_resting. }
  pose proof started_manager as Hom1. pose proof started_trades as Hts1.
  pose proof started_book as Hb1. unfold place_rejected in HE. clear Hst.
  revert Hok' Hc HQ HE Hom1 Hts1 Hb1. generalize (started e) as e2.
  intros e2 Hok' Hc HQ HE Hom1 Hts1 Hb1. do 9 (wp_step; cbn beta). simpl.
  apply (wp_place_crossing e2 q inc); simpl; try done; [lia| | |].
  - unfold match_fuel. rewrite (rep_perm _ _ (ok_rep _ _ Hok')).
    rewrite (all_orders_queue (other_side s)), length_app. lia.
  - intros e' f Hpl. by apply HQ.
  - intros ex e' y Hf Hom' Hts'.
    apply (wp_place_undo e); simpl; rewrite ?copy_book_id;
      [by rewrite Hom', Hom1|by rewrite Hts', Hts1|apply Hok|lia|done| |].
    + destruct first; [done|]. by apply Hb1.
    + intros. apply HE. tauto.
Qed.

Lemma wp_place_limit_order_valid Q E :
  (∀ e', (synced (order_book_ (started e)) q → placed (started e) q inc e') →
     Q (order_id inc) e') →
  (∀ ex, place_rejected → E ex e) →
  wp (place_limit_order s p quantity) Q E e.
Proof.
  intros HQ HE. unfold place_limit_order, validate_limit_order. wp_steps.
  apply wp_require_positive_ok; [lia|]. apply wp_require_positive_ok; [lia|].
  do 2 wp_step. unfold orders, id. wp_step. apply wp_place_body; [|by auto].
  intros e' f Hpl. by apply HQ.
Qed.
End place.

(** Any arguments of their C++ type. *)
Lemma wp_place_limit_order e q s p quantity Q E :
  engine_ok e q → int64 p → int64 quantity →
  (∀ e', 0 < p → 0 < quantity →
     (synced (order_book_ (started e)) q →
      placed (started e) q (incoming_order s p quantity e) e') →
     Q (next_order_id_ (order_id_generator_ e)) e') →
  (∀ ex, place_rejected e q s p quantity → E ex e) →
  wp (place_limit_order s p quantity) Q E e.
Proof.
  intros Hok Hp Hq HQ HE.
  destruct (decide (0 < p ∧ 0 < quantity)) as [[Hp' Hq']|Hbad].
  - apply wp_place_limit_order_valid with q; [done|mlia..|by auto|done].
  - unfold place_limit_order, validate_limit_order. wp_steps.
    assert (place_rejected e q s p quantity) by (unfold place_rejected; lia).
    apply wp_require_positive; [intros|by auto]. apply wp_require_positive; [lia|by auto].
Qed.

(** ** Under the invariant *)

(** The invariant after the queues became [place_spec o q]. *)
Lemma inv_after_place e o q :
  om_rep (order_manager_ e) (place_spec o q) → synced (order_book_ e) (place_spec o q) →
  Forall order_ok (all_orders q) → order_ok o → (∀ s, queue_ok s (queue s q)) → uncrossed q →
  (∀ x, x = o ∨ x ∈ all_orders q →
     order_id x < next_order_id_ (order_id_generator_ e) ∧
     sequence_number x < next_sequence_number_ e) →
  0 < next_order_id_ (order_id_generator_ e) ≤ next_sequence_number_ e →
  next_sequence_number_ e ≤ UINT64_MAX →
  engine_inv e (place_spec o q).
Proof.
  intros Hrep Hs Hok Ho Hq Hun Hfresh Hc1 Hc2.
  assert (Hkeys : ∀ x, x ∈ all_orders (place_spec o q) →
    order_id x < next_order_id_ (order_id_generator_ e) ∧
    sequence_number x < next_sequence_number_ e).
  { intros x Hx.
    assert (∃ y, (y = o ∨ y ∈ all_orders q) ∧ make_priority_key x = make_priority_key y)
      as (y & Hy & Hk).
    { apply elem_of_all_orders in Hx.
      assert (∃ s', x ∈ queue s' (place_spec o q)) as (s' & Hx')
        by (destruct Hx; [by exists Buy|by exists Sell]).
      destruct (place_spec_origin o q Hok Ho s' x Hx') as [(y & Hy & ?)|(_ & ? & _)]; [|eauto].
      exists y. split; [|done]. right. apply elem_of_all_orders. destruct s'; auto. }
    destruct (Hfresh y Hy). unfold make_priority_key in Hk. by simplify_eq; split; congruence. }
  split; [|done| | | |lia].
  - split; [done|by apply place_spec_orders_ok|apply Hs|lia..].
  - by apply place_spec_uncrossed.
  - apply Forall_forall. intros x Hx. by apply Hkeys.
  - apply Forall_forall. intros x Hx. by apply Hkeys.
Qed.

Lemma started_synced e q : engine_inv e q → synced (order_book_ (started e)) q.
Proof.
  intros Hinv. pose proof (inv_synced _ _ Hinv) as Hs. unfold started. simpl.
  destruct (orders_ (order_manager_ e)) eqn:Ho; [|by apply Hs].
  apply (rep_orders_empty _ _ (ok_rep _ _ (inv_ok _ _ Hinv))) in Ho as ->.
  split; [apply book_wf_empty|]. by intros [] p.
Qed.

Lemma inv_bounds e q o :
  engine_inv e q → o ∈ all_orders q →
  order_id o < next_order_id_ (order_id_generator_ e) ∧ sequence_number o < next_sequence_number_ e.
Proof.
  intros Hinv Ho. pose proof (inv_fresh_ids _ _ Hinv) as H1. pose proof (inv_fresh_sequence _ _ Hinv) as H2.
  rewrite Forall_forall in H1, H2. auto.
Qed.

Lemma placed_inv e q s p quantity e' :
  engine_inv e q → 0 < p ≤ INT64_MAX → 0 < quantity ≤ INT64_MAX →
  next_sequence_number_ e < UINT64_MAX →
  placed (started e) q (incoming_order s p quantity e) e' →
  engine_inv e' (place_spec (incoming_order s p quantity e) q).
Proof.
  intros Hinv Hp Hq Hlt [Hrep _ Hgen Hseq Hsync].
  pose proof (inv_counters _ _ Hinv) as Hc. pose proof (ok_ids _ _ (inv_ok _ _ Hinv)) as Hi.
  assert (Hgen' : next_order_id_ (order_id_generator_ e') =
    next_order_id_ (order_id_generator_ e) + 1) by by rewrite Hgen.
  assert (Hseq' : next_sequence_number_ e' = next_sequence_number_ e + 1).
  { rewrite Hseq. unfold started. simpl. apply uwrap64_small. lia. }
  pose proof (inv_ok _ _ Hinv) as Hok.
  apply inv_after_place;
    [done|done|apply Hok| |apply (ok_rep _ _ Hok)|exact (inv_uncrossed _ _ Hinv)| |lia..].
  - unfold order_ok; simpl. mlia.
  - intros x [->|Hx]; simpl; [lia|]. destruct (inv_bounds _ _ x Hinv Hx). lia.
Qed.

(** Under the invariant, a valid order can only be refused because the book
    cannot show its rest. *)
Lemma place_rejected_inv e q s p quantity :
  engine_inv e q → 0 < p → 0 < quantity → next_sequence_number_ e < UINT64_MAX →
  place_rejected e q s p quantity →
  INT64_MAX < queue_depth p (queue s q) +
    unmatched (match_queue (limit_accepts s p) quantity (queue (other_side s) q)).
Proof.
  intros Hinv Hp Hq Hlt Hrej. pose proof (inv_counters _ _ Hinv).
  pose proof (ok_ids _ _ (inv_ok _ _ Hinv)).
  destruct Hrej as [?|[?|[?|Hf]]]; [lia..|].
  destruct (Hf (started_synced _ _ Hinv)) as [Hdup|[Hseq|Hover]]; [|simpl in Hseq; lia|done].
  destruct Hdup. rewrite started_manager.
  apply (rep_find_none _ _ (ok_rep _ _ (inv_ok _ _ Hinv))). intros x Hx.
  destruct (inv_bounds _ _ x Hinv Hx). simpl. lia.
Qed.
