(* ===== verification/EngineModify.v ===== *)
(** * Cancellation and modification

    [cancel_order] removes an order from its queue and its quantity from the
    book.  [modify_order] at the same price rewrites the quantity, moving the
    order behind its price level when the quantity grows; at a new price it
    takes the order out and places it again under the same id. *)
From S2P Require Import Prelude LongDouble Orders TradeStore OrderBook Levels OrderManager.
From S2P Require Import ManagerSpec MatchingEngine EngineSpec PlaceSpec Journal MatchLoop.
From S2P Require Import EngineLimit.

Local Open Scope Z_scope.

Lemma set_manager_twice om om' e : set_manager om (set_manager om' e) = set_manager om e.
Proof. done. Qed.

(** ** Taking an order out of the queues *)

Section remove.
Context (e : MatchingEngine) (q : Queues) (o : LimitOrder) (l1 l2 : list LimitOrder).
Hypothesis (Hok : engine_ok e q) (Hq : queue (side o) q = l1 ++ o :: l2).

Lemma member_in : o ∈ all_orders q.
Proof.
  rewrite (all_orders_queue (side o)), Hq, !elem_of_app, elem_of_cons. tauto.
Qed.

Lemma member_ok : order_ok o.
Proof. pose proof (ok_orders _ _ Hok) as H. rewrite Forall_forall in H. apply H, member_in. Qed.

Lemma without_orders_ok : Forall order_ok (all_orders (set_queue (side o) (l1 ++ l2) q)).
Proof.
  apply all_orders_set_queue; [apply Hok|]. pose proof (ok_queue _ _ (side o) Hok) as H.
  rewrite Hq in H. apply Forall_app in H as [? [_ ?]%Forall_cons]. by apply Forall_app.
Qed.

Lemma without_queue_ok s : queue_ok s (queue s (set_queue (side o) (l1 ++ l2) q)).
Proof.
  pose proof (rep_queue _ _ (ok_rep _ _ Hok) s) as Hs.
  destruct (decide (s = side o)) as [->|Hne].
  - rewrite queue_set_queue. rewrite Hq in Hs. destruct Hs as [Hf Hs]. split.
    + apply Forall_app in Hf as [? [_ ?]%Forall_cons]. by apply Forall_app.
    + rewrite map_app in Hs |- *. simpl in Hs. by apply set_sorted_split in Hs as (_ & _ & ?).
  - by destruct s, (side o).
Qed.

Lemma without_subset x : x ∈ all_orders (set_queue (side o) (l1 ++ l2) q) → x ∈ all_orders q.
Proof.
  rewrite !(all_orders_queue (side o)), queue_set_queue, queue_set_queue_other, Hq.
  rewrite !elem_of_app, elem_of_cons. tauto.
Qed.

Lemma without_uncrossed : uncrossed q → uncrossed (set_queue (side o) (l1 ++ l2) q).
Proof.
  intros Hun b a Hb Ha. pose proof Hq as Hq'.
  apply Hun; destruct (side o); simpl in *; rewrite ?Hq';
    rewrite ?elem_of_app, ?elem_of_cons in *; tauto.
Qed.

Lemma synced_member :
  synced (order_book_ e) q →
  remaining_quantity o ≤ book_depth (side o) (price_ticks o) (order_book_ e).
Proof.
  intros [_ Hs]. rewrite Hs. apply queue_depth_elem; [by eapply ok_queue|].
  rewrite Hq. set_solver.
Qed.

Lemma synced_without :
  synced (order_book_ e) q →
  synced (set_depth (side o) (price_ticks o)
    (book_depth (side o) (price_ticks o) (order_book_ e) - remaining_quantity o) (order_book_ e))
    (set_queue (side o) (l1 ++ l2) q).
Proof.
  intros Hs. pose proof (synced_member Hs). destruct member_ok as (_ & ? & ? & _).
  pose proof (book_depth_bounds (side o) (price_ticks o) _ (ok_book _ _ Hok)).
  rewrite <- Z.add_opp_r. apply synced_replace; [done|lia|lia|]. intros p'.
  rewrite Hq, !queue_depth_app, queue_depth_cons. case_match; lia.
Qed.
End remove.

(** ** [cancel_order] *)

(** Whatever the book holds, a cancellation either removes the order from its
    queue and its quantity from the book, or throws with the queues and the
    book as they were. *)
Lemma wp_cancel e q i Q E :
  engine_ok e q →
  (find_order i (order_manager_ e) = None → Q false e) →
  (∀ o l1 l2 om', order_id o = i → queue (side o) q = l1 ++ o :: l2 →
     om_rep om' (set_queue (side o) (l1 ++ l2) q) →
     remaining_quantity o ≤ book_depth (side o) (price_ticks o) (order_book_ e) →
     Q true (set_manager om' (set_book (set_depth (side o) (price_ticks o)
       (book_depth (side o) (price_ticks o) (order_book_ e) - remaining_quantity o)
       (order_book_ e)) e))) →
  (∀ o w om', order_id o = i → o ∈ all_orders q → om_rep om' q →
     book_depth (side o) (price_ticks o) (order_book_ e) < remaining_quantity o →
     E (invalid_argument w) (set_manager om' e)) →
  wp (cancel_order i) Q E e.
Proof.
  intros Hok Hnone Hsome Hthrow. pose proof (ok_rep _ _ Hok) as Hrep.
  unfold cancel_order. do 2 wp_step. unfold id.
  destruct (find_order i (order_manager_ e)) as [n|] eqn:Hfind; [|by apply wp_ret, Hnone].
  destruct (rep_find_inv _ _ Hrep _ _ Hfind) as (o & Hn & Hid & Hin).
  destruct (rep_queue_split _ _ Hrep o Hin) as (l1 & l2 & Hq).
  wp_step. apply wp_at_index with o; [done|]. wp_step. unfold in_manager. wp_step.
  rewrite <- Hid. apply (wp_cancel_order _ _ Hrep (side o) l1 o l2); [done|].
  intros om' Hrep'. simpl. destruct (member_ok e q o l1 l2 Hok Hq) as (? & ? & ? & ? & ?).
  wp_steps; [mlia|]. apply wp_adjust_order_book; simpl; [apply Hok|mlia| | |].
  - intros _ Hd. wp_steps. rewrite Z.add_opp_r. apply (Hsome o l1 l2); [done..|lia].
  - intros Hd w. wp_steps.
    pose proof (rep_removed_fresh _ _ Hrep _ _ _ _ _ Hq Hrep') as Hfresh.
    assert (Hback : set_queue (side o) (queue_insert (side o) o
      (queue (side o) (set_queue (side o) (l1 ++ l2) q))) (set_queue (side o) (l1 ++ l2) q) = q).
    { rewrite queue_set_queue, queue_insert_back by (rewrite <- Hq; apply Hrep).
      by rewrite set_queue_set_queue, <- Hq, set_queue_id. }
    apply (wp_add_order _ _ Hrep' o Hfresh); [|lia].
    intros _ _ _ _ _ Hrep''. rewrite Hback in Hrep''. wp_steps.
    apply (Hthrow o w _ Hid); [by apply (rep_orders _ _ Hrep)|done|lia].
  - pose proof (book_depth_bounds (side o) (price_ticks o) _ (ok_book _ _ Hok)). lia.
Qed.

(** The invariant after an order left the queues. *)
Lemma inv_without e q o l1 l2 om' :
  engine_inv e q → queue (side o) q = l1 ++ o :: l2 →
  om_rep om' (set_queue (side o) (l1 ++ l2) q) →
  engine_inv (set_manager om' (set_book (set_depth (side o) (price_ticks o)
    (book_depth (side o) (price_ticks o) (order_book_ e) - remaining_quantity o)
    (order_book_ e)) e)) (set_queue (side o) (l1 ++ l2) q).
Proof.
  intros Hinv Hq Hrep'. pose proof (inv_ok _ _ Hinv) as Hok.
  assert (Hs : synced (order_book_ e) q).
  { apply (inv_synced _ _ Hinv). intros Hnil. apply (rep_orders_empty _ _ (ok_rep _ _ Hok)) in Hnil.
    subst q. destruct (side o); simpl in Hq; by destruct l1. }
  pose proof (synced_without e q o l1 l2 Hok Hq Hs) as Hs'.
  split; simpl; [|done| | | |apply Hinv].
  - split; simpl; [done|by eapply without_orders_ok|apply Hs'|apply Hok|apply Hok].
  - apply without_uncrossed; [done|]. exact (inv_uncrossed _ _ Hinv).
  - apply Forall_forall. intros x Hx%(without_subset q o l1 l2 Hq). by eapply inv_bounds.
  - apply Forall_forall. intros x Hx%(without_subset q o l1 l2 Hq). by eapply inv_bounds.
Qed.

(** ** [modify_order] at the same price *)

(** The queue after the order between [l1] and [l2] was given the quantity
    [quantity] at its old price, [n] being the next sequence number. *)
Definition requantified (o : LimitOrder) (quantity n : Z) (l1 l2 : list LimitOrder)
    : list LimitOrder :=
  if quantity >? remaining_quantity o
  then queue_insert (side o) (set_quantities quantity (set_sequence n o)) (l1 ++ l2)
  else l1 ++ set_quantities quantity o :: l2.

Lemma requantified_depth o quantity n l1 l2 p :
  queue_depth p (requantified o quantity n l1 l2) = queue_depth p (l1 ++ o :: l2) +
    if price_ticks o =? p then quantity - remaining_quantity o else 0.
Proof.
  unfold requantified. destruct (_ >? _).
  - rewrite queue_depth_insert, !queue_depth_app, queue_depth_cons. simpl. case_match; lia.
  - rewrite !queue_depth_app, !queue_depth_cons. simpl. case_match; lia.
Qed.

Section same_price.
Context (e : MatchingEngine) (q : Queues) (o : LimitOrder) (l1 l2 : list LimitOrder)
  (quantity : Z).
Hypothesis (Hinv : engine_inv e q) (Hq : queue (side o) q = l1 ++ o :: l2)
  (Hqty : 0 < quantity ≤ INT64_MAX) (Hseq : next_sequence_number_ e < UINT64_MAX).
Notation n := (next_sequence_number_ e).
Notation delta := (quantity - remaining_quantity o).
Notation q' := (set_queue (side o) (requantified o quantity n l1 l2) q).

Lemma member_synced : synced (order_book_ e) q.
Proof.
  apply (inv_synced _ _ Hinv). intros Hnil.
  apply (rep_orders_empty _ _ (ok_rep _ _ (inv_ok _ _ Hinv))) in Hnil.
  rewrite Hnil in Hq. destruct (side o); simpl in Hq; by destruct l1.
Qed.

(** Writing the quantities through the pointer, once the order may have a new
    sequence number. *)
Lemma wp_write_quantities om1 i o1 Q E :
  om_rep om1 (set_queue (side o) (if quantity >? remaining_quantity o
    then queue_insert (side o) o1 (l1 ++ l2) else l1 ++ o1 :: l2) q) →
  orders_ om1 !! i = Some o1 →
  o1 = (if quantity >? remaining_quantity o then set_sequence n o else o) →
  (∀ om2, om_rep om2 q' → Q tt om2) →
  wp (write_order i (set_quantities quantity)) Q E om1.
Proof.
  intros Hrep1 Hi Ho1 HQ. apply wp_write_order with o1; [done|]. apply HQ.
  assert (Hside : side o1 = side o) by (rewrite Ho1; by case_match).
  assert (∃ m1 m2, queue (side o1) (set_queue (side o) (if quantity >? remaining_quantity o
    then queue_insert (side o) o1 (l1 ++ l2) else l1 ++ o1 :: l2) q) = m1 ++ o1 :: m2 ∧
    requantified o quantity n l1 l2 = m1 ++ set_quantities quantity o1 :: m2)
    as (m1 & m2 & Hm & Hm').
  { rewrite Hside, queue_set_queue. unfold requantified.
    destruct (quantity >? remaining_quantity o); [|rewrite Ho1; eauto].
    pose proof (inv_ok _ _ Hinv) as Hok. pose proof (ok_rep _ _ Hok) as Hrep.
    pose proof (rep_ids_distinct _ _ Hrep _ _ _ _ Hq) as Hids.
    pose proof (rep_queue _ _ Hrep (side o)) as [_ Hs]. rewrite Hq, map_app in Hs. simpl in Hs.
    apply set_sorted_split in Hs as (_ & _ & Hs). rewrite <- map_app in Hs.
    rewrite Ho1. destruct (queue_insert_split (side o) (set_sequence n o) _ Hs Hids)
      as (m1 & m2 & Hm & -> & H1 & H2).
    exists m1, m2. split; [done|]. rewrite Hm. by apply queue_insert_app. }
  rewrite Hm'. rewrite <- Hside in *.
  pose proof (om_rep_write om1 _ i o1 (set_quantities quantity o1) m1 m2 Hrep1 Hi Hm) as H.
  rewrite set_queue_set_queue in H. by apply H.
Qed.

Lemma wp_modify_same_price i Q E :
  orders_ (order_manager_ e) !! i = Some o →
  (∀ om', om_rep om' q' →
     book_depth (side o) (price_ticks o) (order_book_ e) + delta ≤ INT64_MAX →
     Q true (set_next_sequence (if quantity >? remaining_quantity o then n + 1 else n)
       (set_manager om' (set_book (set_depth (side o) (price_ticks o)
         (book_depth (side o) (price_ticks o) (order_book_ e) + delta) (order_book_ e)) e)))) →
  (∀ w, INT64_MAX < book_depth (side o) (price_ticks o) (order_book_ e) + delta →
     E (overflow_error w) e) →
  wp (modify_same_price (order_id o) o quantity (quantity >? remaining_quantity o)) Q E e.
Proof.
  intros Hi HQ HE. pose proof (inv_ok _ _ Hinv) as Hok. pose proof (ok_rep _ _ Hok) as Hrep.
  destruct (member_ok e q o l1 l2 Hok Hq) as (Hid & Hp & Hr & Ho & Hsq).
  pose proof (synced_member e q o l1 l2 Hok Hq member_synced) as Hge.
  pose proof (book_depth_bounds (side o) (price_ticks o) _ (ok_book _ _ Hok)) as Hbd.
  unfold modify_same_price. wp_steps; [mlia|].
  set (e1 := set_book (set_depth (side o) (price_ticks o)
    (book_depth (side o) (price_ticks o) (order_book_ e) + delta) (order_book_ e)) e) in *.
  assert (Hadj : ∀ K : unit → MatchingEngine → Prop,
    (book_depth (side o) (price_ticks o) (order_book_ e) + delta ≤ INT64_MAX → K tt e1) →
    wp (when (negb (delta =? 0)) (adjust_order_book (side o) (price_ticks o) delta)) K E e).
  { intros K HK. apply wp_when; intros Hz; zb.
    - apply wp_adjust_order_book; [apply Hok|mlia| |lia|auto]. intros _ [_ ?]. by apply HK.
    - assert (Heq : e1 = e); [|rewrite Heq in HK; apply HK; lia]. unfold e1. rewrite Hz, Z.add_0_r.
      rewrite set_depth_id by (apply Hok || lia). by destruct e. }
  apply Hadj. intros Hmax. clear Hadj. specialize (λ om' H, HQ om' H Hmax).
  pose proof (rep_find _ _ Hrep o ltac:(by eapply list_elem_of_lookup_2)) as (i' & Hf & Hi').
  assert (i' = i) as -> by (eapply indices_ok_inj; [apply Hrep|done..]).
  wp_step. unfold in_manager. apply wp_when; intros Hgt; rewrite Hgt in HQ.
  - destruct (inv_bounds _ _ o Hinv (member_in q o l1 l2 Hq)) as [_ Hlt].
    wp_steps. apply (wp_update_sequence_number _ q o l1 l2 n i); [done..|lia|lia|done|].
    intros om1 Hrep1 Ho1 Hix1. simpl.
    change (order_manager_ e1) with (order_manager_ e) in *. wp_steps. unfold id. simpl.
    unfold find_order in *. rewrite Hix1, Hf. wp_steps. simpl.
    apply (wp_write_quantities om1 i (set_sequence n o)); rewrite ?Hgt; [done| |done|].
    + rewrite Ho1. apply list_lookup_insert_eq. by eapply lookup_lt_Some.
    + intros om2 Hrep2. wp_steps. rewrite uwrap64_small by lia. exact (HQ om2 Hrep2).
  - wp_steps. unfold id. simpl. rewrite Hf. wp_steps. simpl.
    apply (wp_write_quantities _ i o); rewrite ?Hgt; [|done|done|].
    + by rewrite <- Hq, set_queue_id.
    + intros om2 Hrep2. wp_steps. exact (HQ om2 Hrep2).
Qed.
End same_price.

(** ** [modify_order] at a new price *)

(** The order as it is placed again. *)
Definition repriced (o : LimitOrder) (p quantity n : Z) : LimitOrder :=
  set_sequence n (set_quantities quantity (set_price p o)).

(** The engine once the original order is out and a sequence number is taken. *)
Definition vacated (o : LimitOrder) (om' : OrderManager) (e : MatchingEngine) : MatchingEngine :=
  set_next_sequence (next_sequence_number_ e + 1)
    (set_manager om' (set_book (set_depth (side o) (price_ticks o)
      (book_depth (side o) (price_ticks o) (order_book_ e) - remaining_quantity o)
      (order_book_ e)) e)).

Section new_price.
Context (e : MatchingEngine) (q : Queues) (o : LimitOrder) (l1 l2 : list LimitOrder)
  (p quantity : Z) (i : nat).
Hypothesis (Hinv : engine_inv e q) (Hq : queue (side o) q = l1 ++ o :: l2)
  (Hp : 0 < p ≤ INT64_MAX) (Hqty : 0 < quantity ≤ INT64_MAX)
  (Hseq : next_sequence_number_ e < UINT64_MAX)
  (Hi : orders_ (order_manager_ e) !! i = Some o).
Notation n := (next_sequence_number_ e).
Notation q1 := (set_queue (side o) (l1 ++ l2) q).
Notation o1 := (repriced o p quantity n).
Notation goal := (match_queue (limit_accepts (side o) p) quantity (queue (other_side (side o)) q1)).

(** The handler, entered when the rest of the repriced order did not fit into
    the book: every step so far is undone. *)
Lemma wp_modify_undo om1 r e2 f om3 q3 ex Q E :
  restores r om1 i (order_manager_ e) → removed_order r = o →
  om_rep om3 q3 → find_order (order_id o) om3 = None →
  incoming f = set_remaining (remaining_quantity (incoming f)) o1 →
  undoes_all (mutations f) (set_manager om3 e2) (vacated o om1 e) →
  extends (trade_store_ e) (trade_store_ e2) →
  order_id_generator_ e2 = order_id_generator_ e →
  order_manager_ e2 = with_order (incoming f) (map make_priority_key
    (queue_insert (side o) (incoming f) (queue (side o) q3))) om3 →
  (∀ y, E ex (e, y)) →
  wp (modify_undo o n (checkpoint (trade_store_ e)) ex) Q E
    (e2, mkModifyFrame f (Some r) true true false).
Proof.
  intros Hrest Hro Hrep3 Hfresh Hinc Hun Hts Hgen Hom HE.
  pose proof (inv_ok _ _ Hinv) as Hok.
  destruct (member_ok e q o l1 l2 Hok Hq) as (_ & Hop & Hor & Hoo & _).
  pose proof (synced_member e q o l1 l2 Hok Hq (member_synced e q o l1 l2 Hinv Hq)) as Hge.
  pose proof (book_depth_bounds (side o) (price_ticks o) _ (ok_book _ _ Hok)) as Hbd.
  assert (Hwf : book_wf (order_book_ (vacated o om1 e)))
    by (apply book_wf_set_depth; [apply Hok|lia..]).
  assert (Hd : book_depth (side o) (price_ticks o) (order_book_ (vacated o om1 e)) =
    book_depth (side o) (price_ticks o) (order_book_ e) - remaining_quantity o).
  { simpl. by rewrite book_depth_set_depth, Z.eqb_refl by apply Hok. }
  simpl in Hwf, Hd. unfold modify_undo. wp_steps. simpl. wp_steps. unfold in_manager. wp_steps.
  assert (Hids : order_id (incoming f) = order_id o) by (rewrite Hinc; done).
  assert (Hsd : side (incoming f) = side o) by (rewrite Hinc; done).
  rewrite <- Hsd in Hom. rewrite Hom. apply (wp_cancel_placed om3 q3); [done|by rewrite Hids|].
  simpl. wp_steps. simpl. wp_steps. apply Hun; [done..|]. wp_steps.
  apply wp_adjust_order_book_ok; simpl; [done|mlia|lia|rewrite Hd; lia|].
  rewrite Hd, Z.sub_add. wp_steps. simpl. rewrite set_depth_back by (apply Hok || lia).
  apply Hrest; [by rewrite Hro..|]. intros r' _. wp_steps. unfold in_trades. wp_steps. simpl.
  apply wp_rollback; [done|].
  rewrite list_insert_id by done. unfold set_trades, set_next_sequence, set_manager, set_book. simpl.
  rewrite Hgen. destruct e as [? ? ? [] ?]. apply HE.
Qed.
Lemma vacated_ok om1 : om_rep om1 q1 → engine_ok (vacated o om1 e) q1 ∧
  synced (order_book_ (vacated o om1 e)) q1.
Proof.
  intros Hrep1. pose proof (inv_without e q o l1 l2 om1 Hinv Hq Hrep1) as [[? ? ? ? ?] _ _ _ _ _].
  pose proof (inv_counters _ _ Hinv). split.
  - split; simpl in *; [done|done|done|done|lia].
  - apply synced_without; [apply Hinv|done|]. by eapply member_synced.
Qed.

(** The end of the body: what the matching left of the order is queued. *)
Lemma wp_modify_rest om1 r e2 f Q E :
  om_rep om1 q1 → removed_order r = o → restores r om1 i (order_manager_ e) →
  matching (vacated o om1 e) q1 o1 (fills goal) e2 f
    (set_queue (other_side (side o)) (resting goal) q1) →
  incoming f = set_remaining (unmatched goal) o1 →
  (∀ e' om1, placed (vacated o om1 e) q1 o1 e' → Q true e') →
  (∀ w, INT64_MAX < queue_depth p (queue (side o) q1) + unmatched goal →
     E (overflow_error w) e) →
  wp (if negb (unmatched goal =? 0) then
        outer (zoom order_manager_ set_manager (add_order (set_remaining (unmatched goal) o1))) ;;;
        modify (λ x, (fst x, mkModifyFrame (modify_match (snd x)) (original_removal (snd x))
          (original_book_adjusted (snd x)) true false)) ;;;
        outer (adjust_order_book (side o) p (unmatched goal)) ;;;
        modify (λ x, (fst x, mkModifyFrame (modify_match (snd x)) (original_removal (snd x))
          (original_book_adjusted (snd x)) (modified_order_added (snd x)) true)) ;;;
        ret true
      else ret true)
    (λ a x, Q a (fst x))
    (λ ex s', wp (modify_undo o n (checkpoint (trade_store_ e)) ex)
       (λ a x, Q a (fst x)) (λ ex x, E ex (fst x)) s')
    (e2, mkModifyFrame f (Some r) true false false).
Proof.
  intros Hrep1 Hro Hrest Hm Hinc HQ HE. destruct (vacated_ok om1 Hrep1) as [Hok1 Hs1].
  pose proof (inv_ok _ _ Hinv) as Hok. pose proof (ok_rep _ _ Hok) as Hrep.
  pose proof (mt_ok _ _ _ _ _ _ _ Hm) as Hok2. pose proof (ok_rep _ _ Hok2) as Hrep2.
  pose proof (mt_engine _ _ _ _ _ _ _ Hm) as Heng. pose proof (mt_synced _ _ _ _ _ _ _ Hm Hs1) as Hs2.
  destruct (member_ok e q o l1 l2 Hok Hq) as (Hoid & _).
  assert (Hg : 0 ≤ unmatched goal ≤ quantity)
    by (apply match_queue_total; [lia|by eapply ok_queue]).
  pose proof (inv_counters _ _ Hinv) as Hc. pose proof (ok_ids _ _ Hok) as Hids.
  destruct (unmatched goal =? 0) eqn:Hz; simpl; zb.
  { wp_steps. apply (HQ _ om1). pose proof (place_spec_filled q1 o1 Hz) as Hspec.
    split; rewrite ?Hspec; [done|by rewrite Heng..|done]. }
  set (o2 := set_remaining (unmatched goal) o1).
  assert (Hfresh : find_order (order_id o2) (order_manager_ e2) = None).
  { apply (match_fresh om1 _ q1 (other_side (side o)) _ quantity _ Hrep1 ltac:(lia)
      (ok_queue _ _ _ Hok1) Hrep2). by apply (rep_removed_fresh _ _ Hrep _ _ _ _ _ Hq). }
  wp_steps. simpl. apply (wp_add_order _ _ Hrep2 o2 Hfresh); simpl; [|lia].
  intros _ _ _ _ _ Hrep3. wp_steps. simpl. wp_steps.
  apply wp_adjust_order_book; simpl; [apply Hok2|mlia| | |].
  - intros _ Hd. wp_steps. simpl. apply (HQ _ om1).
    pose proof (place_spec_rest q1 o1 Hz) as Hspec.
    split; rewrite ?Hspec; [done|by rewrite Heng..|]. simpl.
    apply (synced_add _ _ o2); [done|simpl; lia|done].
  - pose proof (book_depth_bounds (side o) p _ (ok_book _ _ Hok2)). lia.
  - intros Hover w. apply (wp_modify_undo om1 r _ f (order_manager_ e2)
      (set_queue (other_side (side o)) (resting goal) q1)); simpl; try done.
    + apply (mt_incoming _ _ _ _ _ _ _ Hm).
    + rewrite set_manager_twice. apply (mt_undoes_all _ _ _ _ _ _ _ Hm).
    + rewrite Heng. apply record_fills_extends.
    + by rewrite Heng.
    + by rewrite Hinc.
    + intros _. apply HE. destruct Hs2 as [_ Hs2]. rewrite Hs2 in Hover. by destruct (side o).
Qed.

Lemma wp_modify_new_price Q E :
  (∀ e' om1, placed (vacated o om1 e) q1 o1 e' → Q true e') →
  (∀ w, INT64_MAX < queue_depth p (queue (side o) q1) + unmatched goal →
     E (overflow_error w) e) →
  wp (modify_new_price (order_id o) o p quantity) Q E e.
Proof.
  intros HQ HE. pose proof (inv_ok _ _ Hinv) as Hok. pose proof (ok_rep _ _ Hok) as Hrep.
  destruct (member_ok e q o l1 l2 Hok Hq) as (Hoid & Hop & Hor & Hoo & Hos).
  pose proof (synced_member e q o l1 l2 Hok Hq (member_synced e q o l1 l2 Hinv Hq)) as Hge.
  pose proof (book_depth_bounds (side o) (price_ticks o) _ (ok_book _ _ Hok)) as Hbd.
  pose proof (inv_counters _ _ Hinv) as Hc. pose proof (ok_ids _ _ Hok) as Hids.
  unfold modify_new_price, modify_body. do 6 wp_step. unfold id, in_manager. wp_step. simpl.
  apply (wp_cancel_order_removal _ _ Hrep (side o) l1 o l2 i); [done..|].
  intros r om1 Hrep1 Hro Hrest Hlen. simpl. wp_steps; [mlia|]. simpl. wp_steps.
  apply wp_adjust_order_book_ok; simpl; [apply Hok|mlia|lia|lia|]. wp_steps. simpl. wp_steps. simpl.
  rewrite uwrap64_small, Z.add_opp_r by lia.
  destruct (vacated_ok om1 Hrep1) as [Hok1 Hs1].
  change (set_next_sequence _ _) with (vacated o om1 e). fold o1.
  apply (wp_match_loop (vacated o om1 e) q1 o1); [done|simpl; lia| | |by intros []].
  { unfold match_fuel. rewrite Hlen, (rep_perm _ _ Hrep1), (all_orders_queue (other_side (side o))).
    rewrite length_app. simpl. lia. }
  intros e2 f Hm Hinc. do 2 wp_step. simpl. rewrite Hinc. unfold is_filled. simpl.
  by eapply wp_modify_rest.
Qed.
End new_price.

(** ** The whole operation *)

(** Every order of the rewritten queue is one of the old ones or the rewritten
    order. *)
Lemma elem_of_requantified o quantity n l1 l2 x :
  x ∈ requantified o quantity n l1 l2 →
  x ∈ l1 ++ l2 ∨
  x = set_quantities quantity (if quantity >? remaining_quantity o then set_sequence n o else o).
Proof.
  unfold requantified. destruct (_ >? _).
  - rewrite elem_of_queue_insert. tauto.
  - rewrite !elem_of_app, elem_of_cons. tauto.
Qed.

Lemma synced_requantified e q o l1 l2 quantity :
  engine_inv e q → queue (side o) q = l1 ++ o :: l2 → 0 < quantity →
  let d := book_depth (side o) (price_ticks o) (order_book_ e) in
  d + (quantity - remaining_quantity o) ≤ INT64_MAX →
  synced (set_depth (side o) (price_ticks o) (d + (quantity - remaining_quantity o)) (order_book_ e))
    (set_queue (side o) (requantified o quantity (next_sequence_number_ e) l1 l2) q).
Proof.
  intros Hinv Hq Hqty d Hmax. pose proof (inv_ok _ _ Hinv) as Hok.
  destruct (member_ok e q o l1 l2 Hok Hq) as (_ & Hop & _).
  pose proof (member_synced e q o l1 l2 Hinv Hq) as Hs.
  pose proof (synced_member e q o l1 l2 Hok Hq Hs) as Hge. fold d in Hge.
  apply synced_replace; [done|lia|fold d; lia|]. intros p'. rewrite Hq. apply requantified_depth.
Qed.

Lemma inv_requantified e q o l1 l2 quantity om' :
  engine_inv e q → queue (side o) q = l1 ++ o :: l2 → 0 < quantity ≤ INT64_MAX →
  next_sequence_number_ e < UINT64_MAX →
  let n := next_sequence_number_ e in
  let d := book_depth (side o) (price_ticks o) (order_book_ e) in
  om_rep om' (set_queue (side o) (requantified o quantity n l1 l2) q) →
  d + (quantity - remaining_quantity o) ≤ INT64_MAX →
  engine_inv (set_next_sequence (if quantity >? remaining_quantity o then n + 1 else n)
      (set_manager om' (set_book (set_depth (side o) (price_ticks o)
         (d + (quantity - remaining_quantity o)) (order_book_ e)) e)))
    (set_queue (side o) (requantified o quantity n l1 l2) q).
Proof.
  intros Hinv Hq Hqty Hlt n d Hrep' Hmax. pose proof (inv_ok _ _ Hinv) as Hok.
  pose proof (member_ok e q o l1 l2 Hok Hq) as Ho. pose proof Ho as (Hoid & Hop & Hor & Hoo & Hos).
  pose proof (member_synced e q o l1 l2 Hinv Hq) as Hs.
  pose proof (synced_member e q o l1 l2 Hok Hq Hs) as Hge. fold d in Hge.
  pose proof (inv_counters _ _ Hinv) as Hc. pose proof (ok_ids _ _ Hok) as Hids.
  assert (Hs' : synced (set_depth (side o) (price_ticks o) (d + (quantity - remaining_quantity o))
    (order_book_ e)) (set_queue (side o) (requantified o quantity n l1 l2) q)).
  { by apply synced_requantified; [| |lia|]. }
  assert (Horig : ∀ x, x ∈ all_orders (set_queue (side o) (requantified o quantity n l1 l2) q) →
    x ∈ all_orders q ∨ x = set_quantities quantity
      (if quantity >? remaining_quantity o then set_sequence n o else o)).
  { intros x. rewrite !(all_orders_queue (side o)), queue_set_queue, queue_set_queue_other, Hq.
    rewrite !elem_of_app, elem_of_cons. intros [Hx|Hx]; [|tauto].
    apply elem_of_requantified in Hx as [Hx|Hx]; [|tauto]. rewrite elem_of_app in Hx. tauto. }
  destruct (inv_bounds _ _ o Hinv (member_in q o l1 l2 Hq)) as [Hoi Hon].
  split; simpl; [|done| | | |].
  - split; simpl; [done| |apply Hs'|done|case_match; lia].
    apply Forall_forall. intros x [Hx| ->]%Horig.
    + pose proof (ok_orders _ _ Hok) as H. rewrite Forall_forall in H. auto.
    + destruct (quantity >? remaining_quantity o); unfold order_ok; simpl; lia.
  - pose proof (inv_uncrossed _ _ Hinv) as Hun.
    assert (Hp : ∀ x, x ∈ requantified o quantity n l1 l2 →
      ∃ y, y ∈ queue (side o) q ∧ price_ticks x = price_ticks y).
    { intros x [Hx| ->]%elem_of_requantified.
      - exists x. rewrite Hq. split; [|done]. rewrite elem_of_app in Hx.
        rewrite elem_of_app, elem_of_cons. tauto.
      - exists o. rewrite Hq, elem_of_app, elem_of_cons. split; [tauto|by case_match]. }
    intros b a Hb Ha. destruct (side o); simpl in *.
    + apply Hp in Hb as (y & Hy & ->). auto.
    + apply Hp in Ha as (y & Hy & ->). auto.
  - apply Forall_forall. intros x [Hx| ->]%Horig.
    + by eapply inv_bounds.
    + by destruct (quantity >? remaining_quantity o).
  - apply Forall_forall. intros x [Hx| ->]%Horig.
    + destruct (inv_bounds _ _ x Hinv Hx). unfold n. case_match; lia.
    + destruct (quantity >? remaining_quantity o); simpl; unfold n; lia.
  - unfold n. case_match; lia.
Qed.

(** The queues and the fills of a modification of the order between [l1] and
    [l2]. *)
Definition modify_spec (o : LimitOrder) (p quantity n : Z) (l1 l2 : list LimitOrder) (q : Queues)
    : Queues :=
  if p =? price_ticks o
  then set_queue (side o) (requantified o quantity n l1 l2) q
  else place_spec (repriced o p quantity n) (set_queue (side o) (l1 ++ l2) q).

Definition modify_fills (o : LimitOrder) (p quantity n : Z) (l1 l2 : list LimitOrder) (q : Queues)
    : list (LimitOrder * Z) :=
  if p =? price_ticks o then []
  else place_fills (repriced o p quantity n) (set_queue (side o) (l1 ++ l2) q).

(** The level of the order's new price would exceed [INT64_MAX]. *)
Definition modify_overflows (o : LimitOrder) (p quantity : Z) (l1 l2 : list LimitOrder) (q : Queues)
    : Prop :=
  if p =? price_ticks o
  then INT64_MAX < queue_depth p (l1 ++ o :: l2) + (quantity - remaining_quantity o)
  else INT64_MAX < queue_depth p (l1 ++ l2) +
    unmatched (match_queue (limit_accepts (side o) p) quantity (queue (other_side (side o)) q)).

Lemma wp_modify_order e q i p quantity Q E :
  engine_inv e q → int64 p → int64 quantity → next_sequence_number_ e < UINT64_MAX →
  (find_order i (order_manager_ e) = None → Q false e) →
  (∀ o l1 l2 e', 0 < p → 0 < quantity → order_id o = i → queue (side o) q = l1 ++ o :: l2 →
     engine_inv e' (modify_spec o p quantity (next_sequence_number_ e) l1 l2 q) →
     synced (order_book_ e') (modify_spec o p quantity (next_sequence_number_ e) l1 l2 q) →
     trade_store_ e' = record_fills (side o) (Some i)
       (modify_fills o p quantity (next_sequence_number_ e) l1 l2 q) (trade_store_ e) →
     next_sequence_number_ e' ≤ next_sequence_number_ e + 1 →
     Q true e') →
  (∀ ex, p ≤ 0 ∨ quantity ≤ 0 ∨ (∃ o l1 l2, order_id o = i ∧ queue (side o) q = l1 ++ o :: l2 ∧
     modify_overflows o p quantity l1 l2 q) → E ex e) →
  wp (modify_order i p quantity) Q E e.
Proof.
  intros Hinv Hp64 Hq64 Hlt Hnone Hsome Hthrow. pose proof (inv_ok _ _ Hinv) as Hok.
  pose proof (ok_rep _ _ Hok) as Hrep. unfold modify_order, validate_modify_order. wp_steps.
  apply wp_require_positive; [intros Hp|by auto]. apply wp_require_positive; [intros Hqty|by auto].
  do 2 wp_step. unfold id.
  destruct (find_order i (order_manager_ e)) as [k|] eqn:Hfind; [|by apply wp_ret, Hnone].
  destruct (rep_find_inv _ _ Hrep _ _ Hfind) as (o & Hk & Hid & Hin).
  destruct (rep_queue_split _ _ Hrep o Hin) as (l1 & l2 & Hq).
  wp_step. apply wp_at_index with o; [done|]. specialize (Hsome o l1 l2).
  unfold modify_spec, modify_fills in Hsome.
  assert (Hover : ∀ ex, modify_overflows o p quantity l1 l2 q → E ex e)
    by (intros; apply Hthrow; right; right; by exists o, l1, l2).
  unfold modify_overflows in Hover. rewrite negb_involutive. subst i. destruct (p =? price_ticks o) eqn:Hpe; zb; simpl.
  - apply (wp_modify_same_price e q o l1 l2 quantity Hinv Hq ltac:(mlia) Hlt k); [done| |].
    2: { intros w Hw. apply Hover. destruct (member_synced e q o l1 l2 Hinv Hq) as [_ Hs].
      rewrite Hs, Hq in Hw. by rewrite Hpe. }
    intros om' Hrep' Hmax. apply Hsome; [done..| | |done|].
    + apply inv_requantified; [done..|mlia|done|done|done].
    + by apply synced_requantified; [| |lia|].
    + simpl. case_match; lia.
  - apply (wp_modify_new_price e q o l1 l2 p quantity k Hinv Hq ltac:(mlia) ltac:(mlia) Hlt Hk).
    2: { intros w Hw. apply Hover. by rewrite queue_set_queue, queue_set_queue_other in Hw. }
    intros e' om1 [Hrep' Hts Hgen Hseq Hs]. destruct (member_ok e q o l1 l2 Hok Hq) as (? & ? & ? & ? & ?).
    pose proof (inv_counters _ _ Hinv). pose proof (ok_ids _ _ Hok).
    apply Hsome; [done..| |done|done|by rewrite Hseq].
    apply inv_after_place; [done|done|by eapply without_orders_ok| |by eapply without_queue_ok| | | |].
    + unfold order_ok; simpl. mlia.
    + apply without_uncrossed; [done|]. exact (inv_uncrossed _ _ Hinv).
    + rewrite Hgen, Hseq. simpl. intros x [->|Hx]; simpl.
      * destruct (inv_bounds _ _ o Hinv (member_in q o l1 l2 Hq)). lia.
      * destruct (inv_bounds _ _ x Hinv (without_subset q o l1 l2 Hq x Hx)). lia.
    + rewrite Hgen, Hseq. simpl. lia.
    + rewrite Hseq. simpl. lia.
Qed.
