(* ===== verification/EngineMarket.v ===== *)
(** * Market orders

    [execute_market_order] against the engine's own orders runs the greedy pass
    over the opposite queue with every price acceptable; without own orders it
    runs the same pass over the levels of the book.  The average price is the
    quotient of the traded notional by the traded quantity as long as the
    notional fits the mantissa of [long double]. *)
From S2P Require Import Prelude LongDouble Orders TradeStore OrderBook Levels OrderManager.
From S2P Require Import ManagerSpec MatchingEngine EngineSpec PlaceSpec Journal MatchLoop.
From S2P Require Import EngineLimit EngineModify.

Local Open Scope Z_scope.

Definition any_price (o : LimitOrder) : bool := true.

(** Executions as pairs of price and quantity, with their notional. *)
Definition fill_prices (fs : list (LimitOrder * Z)) : list (Z * Z) :=
  map (λ f, (price_ticks (fst f), snd f)) fs.

Definition notional (xs : list (Z * Z)) : Z := foldr (λ x acc, fst x * snd x + acc) 0 xs.

Definition volume (xs : list (Z * Z)) : Z := foldr (λ x acc, snd x + acc) 0 xs.

Lemma notional_snoc xs p x : notional (xs ++ [(p, x)]) = notional xs + p * x.
Proof. induction xs as [|f xs IH]; simpl; [lia|]. rewrite IH. lia. Qed.

Lemma volume_snoc xs p x : volume (xs ++ [(p, x)]) = volume xs + x.
Proof. induction xs as [|f xs IH]; simpl; [lia|]. rewrite IH. lia. Qed.

Lemma fill_prices_snoc fs o x : fill_prices (fs ++ [(o, x)]) = fill_prices fs ++ [(price_ticks o, x)].
Proof. apply map_app. Qed.

(** ** Trades and fills *)

(** A trade that records a fill. *)
Definition trade_of (s : OrderSide) (taker : option Z) (f : LimitOrder * Z) (t : Trade) : Prop :=
  aggressor_side t = s ∧ trade_price_ticks t = price_ticks (fst f) ∧ trade_quantity t = snd f ∧
  buy_order_id t = (if is_buy s then taker else Some (order_id (fst f))) ∧
  sell_order_id t = (if is_buy s then Some (order_id (fst f)) else taker).

Lemma record_fills_trades s taker fs ts :
  ∃ new, trades_ (record_fills s taker fs ts) = trades_ ts ++ new ∧ Forall2 (trade_of s taker) fs new.
Proof.
  induction fs as [|f fs IH] using rev_ind.
  { exists []. by rewrite app_nil_r. }
  destruct IH as (new & Hnew & Hf2). rewrite record_fills_snoc.
  exists (new ++ [fill_trade s taker f (record_fills s taker fs ts)]). simpl. split.
  - by rewrite Hnew, app_assoc.
  - by apply Forall2_app; [done|repeat constructor].
Qed.

Lemma traded_total_fills s taker fs new :
  Forall2 (trade_of s taker) fs new → traded_total new = filled_total fs.
Proof. induction 1 as [|f t fs new (_ & _ & Hq & _) _ IH]; simpl; lia. Qed.

(** A trade against a level. *)
Definition level_trade (s : OrderSide) (x : Z * Z) (t : Trade) : Prop :=
  aggressor_side t = s ∧ trade_price_ticks t = fst x ∧ trade_quantity t = snd x.

Section market.
Context `{LongDoubleFormat}.
Notation P := LDBL_MANT_DIG.

(** The sum as the program forms it. *)
Definition weighted (xs : list (Z * Z)) : binary :=
  foldl (λ acc x, ld_add acc (ld_mul (of_int64 (fst x)) (of_int64 (snd x)))) binary_zero xs.

Lemma denotes_product p x :
  0 < p → 0 < x → p * x < 2 ^ P → denotes (ld_mul (of_int64 p) (of_int64 x)) (p * x).
Proof.
  intros Hp Hx Hpx. apply denotes_mul; [apply denotes_of_int64; nia..|]. nia.
Qed.

(** The floating sum is exact while the notional fits the mantissa. *)
Lemma denotes_weighted xs :
  Forall (λ x, 0 < fst x ∧ 0 < snd x) xs → notional xs < 2 ^ P →
  denotes (weighted xs) (notional xs) ∧ 0 ≤ notional xs.
Proof.
  induction xs as [|[p x] xs IH] using rev_ind; intros Hf Hn.
  { split; [|done]. by unfold denotes. }
  rewrite notional_snoc in *. apply Forall_app in Hf as [Hf [[Ho Hx] _]%Forall_cons].
  simpl in Ho, Hx. destruct IH as [Hd H0]; [done|nia|]. split; [|nia].
  unfold weighted in *. rewrite foldl_snoc. simpl.
  apply denotes_add; [done|apply denotes_product; nia|nia].
Qed.

Lemma volume_pos xs : Forall (λ x, 0 < fst x ∧ 0 < snd x) xs → 0 ≤ volume xs ∧ volume xs ≤ notional xs.
Proof. induction 1 as [|[p x] xs [Hp Hx] _ IH]; simpl in *; [lia|]. nia. Qed.

(** The average is the whole part of notional over volume. *)
Lemma wp_market_average e f xs Q E :
  weighted_price_total f = weighted xs → executed_quantity (market_result f) = volume xs →
  Forall (λ x, 0 < fst x ∧ 0 < snd x) xs → notional xs < 2 ^ (P - 1) → notional xs ≤ INT64_MAX →
  (let r := market_result f in
   Q (mkExecutionResult (result_side r) (requested_quantity r) (executed_quantity r)
        (result_remaining_quantity r)
        (if volume xs >? 0 then Some (notional xs / volume xs) else average_price_ticks r)
        (result_trades r)) (e, f)) →
  wp (market_average f) Q E (e, f).
Proof.
  intros Hw Hv Hpos Hn Hn64 HQ. destruct (volume_pos xs Hpos) as [Hv0 Hvn].
  assert (HP : 2 ^ P = 2 * 2 ^ (P - 1)).
  { rewrite <- Z.pow_succ_r; [f_equal; lia|]. pose proof LDBL_MANT_DIG_min. lia. }
  unfold market_average. rewrite Hv. destruct (volume xs >? 0) eqn:Hz; zb.
  - destruct (denotes_weighted xs Hpos) as [Hd H0]; [lia|].
    assert (Hb : denotes (of_int64 (volume xs)) (volume xs)) by (apply denotes_of_int64; lia).
    rewrite Hw. unfold to_int64.
    rewrite (trunc_div _ _ (notional xs) (volume xs) Hd Hb) by lia.
    pose proof (div_le_self (notional xs) (volume xs) H0 Hz).
    wp_steps; [mlia|]. rewrite <- Hv in HQ |- *. exact HQ.
  - wp_steps. simpl in HQ. rewrite Hv in HQ. destruct (market_result f). simpl in *. by subst.
Qed.

(** ** Against orders *)

Section orders.
Context (e0 : MatchingEngine) (q0 : Queues) (s : OrderSide) (quantity : Z).
Notation goal := (match_queue any_price quantity (queue (other_side s) q0)).

Record serving (fs : list (LimitOrder * Z)) (e : MatchingEngine) (f : MarketFrame) (q : Queues)
    : Prop := mk_serving {
  sv_ok : engine_ok e q;
  sv_frame : frame_ok f;
  sv_queue : q = set_queue (other_side s) (queue (other_side s) q) q0;
  sv_progress :
    goal = prepend fs (match_queue any_price (result_remaining_quantity (market_result f))
                         (queue (other_side s) q));
  sv_engine :
    e = set_manager (order_manager_ e) (set_book (order_book_ e)
          (set_trades (record_fills s None fs (trade_store_ e0)) e0));
  sv_synced : synced (order_book_ e) q;
  sv_fixed : result_side (market_result f) = s ∧
             requested_quantity (market_result f) = quantity ∧
             average_price_ticks (market_result f) = None;
  sv_executed : executed_quantity (market_result f) = volume (fill_prices fs);
  sv_trades : trades_ (trade_store_ e) = trades_ (trade_store_ e0) ++ result_trades (market_result f);
  sv_weighted : weighted_price_total f = weighted (fill_prices fs);
  sv_positive : Forall (λ x, 0 < fst x ∧ 0 < snd x) (fill_prices fs)
}.

Lemma serving_fill fs e f q o r x om' rm :
  serving fs e f q → queue (other_side s) q = o :: r →
  let rem := result_remaining_quantity (market_result f) in
  0 < rem → x = Z.min rem (remaining_quantity o) →
  x ≤ book_depth (side o) (price_ticks o) (order_book_ e) →
  om_rep om' (set_queue (other_side s) (after_fill o x r) q) →
  serving (fs ++ [(o, x)]) (filled_engine s None o x om' e)
    (set_mutations (market_mutations f ++ [entry o x rm])
       (accounted (fill_trade s None (o, x) (trade_store_ e)) f))
    (set_queue (other_side s) (after_fill o x r) q).
Proof.
  intros [Hok Hf Hqq Hprog Heng Hsync (Hfs & Hfr & Hfa) Hex Htr Hw Hpos] Hq rem Hrem Hx Hd Hrep.
  destruct (ok_head _ _ _ _ _ Hok Hq) as (_ & Hop & Hor & _). split; simpl.
  - apply engine_ok_filled; try done; lia.
  - apply (frame_ok_accounted (fill_trade s None (o, x) (trade_store_ e))); [done|].
    simpl. fold rem. lia.
  - rewrite queue_set_queue, Hqq. by rewrite set_queue_set_queue.
  - rewrite Hprog, queue_set_queue, Hq, <- prepend_prepend. f_equal.
    by apply match_queue_step.
  - rewrite Heng at 1. rewrite record_fills_snoc. unfold filled_engine. by rewrite Heng.
  - apply (synced_filled e q s None o r x om'); try done; lia.
  - done.
  - rewrite fill_prices_snoc, volume_snoc. lia.
  - by rewrite Htr, <- app_assoc.
  - rewrite Hw, fill_prices_snoc. unfold weighted. by rewrite foldl_snoc.
  - rewrite fill_prices_snoc. apply Forall_app. split; [done|]. constructor; [simpl; lia|done].
Qed.

Lemma wp_market_orders fuel cp Q E :
  engine_ok e0 q0 → synced (order_book_ e0) q0 → 0 < quantity ≤ INT64_MAX →
  (length (queue (other_side s) q0) < fuel)%nat →
  (∀ e f, serving (fills goal) e f (set_queue (other_side s) (resting goal) q0) →
     result_remaining_quantity (market_result f) = unmatched goal → Q tt (e, f)) →
  wp (market_orders s fuel cp) Q E (e0, market_frame s quantity).
Proof.
  intros Hok Hs Hr Hfuel HQ. unfold market_orders. apply wp_try_catch.
  apply (wp_loop (λ y, ∃ fs q, serving fs (fst y) (snd y) q)
    (λ y, if result_remaining_quantity (market_result (snd y)) =? 0 then O
          else length (side_index (other_side s) (order_manager_ (fst y))))).
  - intros [e f] (fs & q & Hm). simpl in Hm. pose proof Hm as [].
    apply (wp_market_round s e f q); [done..| | |].
    + intros Hstop. rewrite (match_queue_stop _ (result_remaining_quantity (market_result f)))
        in sv_progress0; [|apply sv_frame0|].
      2: { destruct Hstop as [?|Hnil]; [by left|]. right. by rewrite Hnil. }
      apply HQ; rewrite sv_progress0; simpl; rewrite ?app_nil_r, <- ?sv_queue0; done.
    + intros o r x om' rm Hq Hpos Hx Hd Hrep Hundo. split.
      * exists (fs ++ [(o, x)]), (set_queue (other_side s) (after_fill o x r) q). simpl.
        by apply serving_fill.
      * simpl. rewrite (rep_index _ _ Hrep), queue_set_queue, (rep_index _ _ (ok_rep _ _ sv_ok0)), Hq.
        rewrite !length_fmap.
        rewrite (proj2 (Z.eqb_neq (result_remaining_quantity (market_result f)) 0)) by lia.
        unfold after_fill. destruct (_ =? 0) eqn:H1; simpl; [lia|].
        destruct (remaining_quantity o - x =? 0) eqn:H2; simpl; zb; lia.
    + intros o r x Hq Hx Hd. exfalso. destruct sv_synced0 as [_ Hsq]. rewrite Hsq in Hd.
      pose proof (queue_depth_elem o (queue (side o) q) (ok_queue _ _ _ sv_ok0)) as Hel.
      rewrite (fill_side _ _ _ _ _ (ok_rep _ _ sv_ok0) Hq) in Hel, Hd.
      rewrite Hq in Hel, Hd. specialize (Hel ltac:(by left)). lia.
  - exists [], q0. split; simpl; try done.
    + unfold frame_ok; simpl. lia.
    + by rewrite set_queue_id.
    + by rewrite prepend_nil.
    + by destruct e0.
    + by rewrite app_nil_r.
  - simpl. case_match; [lia|]. by rewrite (rep_index _ _ (ok_rep _ _ Hok)), length_fmap.
Qed.
End orders.

(** ** Against the levels of a book without own orders *)

Record LevelMatch : Type := mkLevelMatch {
  level_fills : list (Z * Z);
  levels_left : list PriceLevel;
  level_unmatched : Z
}.

Fixpoint match_levels (quantity : Z) (l : list PriceLevel) : LevelMatch :=
  match l with
  | [] => mkLevelMatch [] [] quantity
  | x :: r =>
      if quantity >? 0 then
        if level_quantity x <=? quantity then
          let m := match_levels (quantity - level_quantity x) r in
          mkLevelMatch ((level_price x, level_quantity x) :: level_fills m) (levels_left m)
            (level_unmatched m)
        else mkLevelMatch [(level_price x, quantity)]
               (mkLevel (level_price x) (level_quantity x - quantity) :: r) 0
      else mkLevelMatch [] (x :: r) quantity
  end.

Definition record_level_fills (s : OrderSide) (xs : list (Z * Z)) (ts : TradeStore) : TradeStore :=
  foldl (λ ts x, recorded ts (stamped ts s (fst x) (snd x) None None)) ts xs.

Lemma record_level_fills_trades s xs ts :
  ∃ new, trades_ (record_level_fills s xs ts) = trades_ ts ++ new ∧ Forall2 (level_trade s) xs new.
Proof.
  unfold record_level_fills. induction xs as [|x xs IH] using rev_ind.
  { exists []. by rewrite app_nil_r. }
  destruct IH as (new & Hnew & Hf2). rewrite foldl_snoc. eexists. simpl. split.
  - by rewrite Hnew, <- app_assoc.
  - by apply Forall2_app; [done|repeat constructor].
Qed.

Definition after_level (x : PriceLevel) (y : Z) (r : list PriceLevel) : list PriceLevel :=
  if level_quantity x - y =? 0 then r else mkLevel (level_price x) (level_quantity x - y) :: r.

Lemma match_levels_step quantity x r y :
  0 < quantity → 0 < level_quantity x → y = Z.min quantity (level_quantity x) →
  match_levels quantity (x :: r) =
    let m := match_levels (quantity - y) (after_level x y r) in
    mkLevelMatch ((level_price x, y) :: level_fills m) (levels_left m) (level_unmatched m).
Proof.
  intros Hq Hx Hy. simpl. rewrite (proj2 (Z.gtb_lt quantity 0)) by lia. unfold after_level.
  destruct (level_quantity x <=? quantity) eqn:Hle; zb.
  - assert (y = level_quantity x) as -> by lia. by rewrite Z.sub_diag, Z.eqb_refl.
  - assert (y = quantity) as -> by lia. rewrite Z.sub_diag.
    by rewrite (proj2 (Z.eqb_neq _ 0)) by lia.
Qed.

Section levels.
Context (e0 : MatchingEngine) (s : OrderSide) (quantity : Z).
Notation os := (other_side s).
Notation goal := (match_levels quantity (side_levels os (order_book_ e0))).

Record sweeping (xs : list (Z * Z)) (e : MatchingEngine) (f : MarketFrame) : Prop := mk_sweeping {
  sw_wf : levels_wf (price_before os) (side_levels os (order_book_ e));
  sw_frame : frame_ok f;
  sw_progress :
    let m := match_levels (result_remaining_quantity (market_result f))
               (side_levels os (order_book_ e)) in
    goal = mkLevelMatch (xs ++ level_fills m) (levels_left m) (level_unmatched m);
  sw_engine :
    e = set_book (set_side_levels os (side_levels os (order_book_ e)) (order_book_ e0))
          (set_trades (record_level_fills s xs (trade_store_ e0)) e0);
  sw_fixed : result_side (market_result f) = s ∧
             requested_quantity (market_result f) = quantity ∧
             average_price_ticks (market_result f) = None;
  sw_executed : executed_quantity (market_result f) = volume xs;
  sw_trades : trades_ (trade_store_ e) = trades_ (trade_store_ e0) ++ result_trades (market_result f);
  sw_weighted : weighted_price_total f = weighted xs;
  sw_positive : Forall (λ x, 0 < fst x ∧ 0 < snd x) xs
}.

Lemma record_level_fills_extends xs ts : extends ts (record_level_fills s xs ts).
Proof.
  unfold record_level_fills. induction xs as [|x xs IH] using rev_ind; [done|].
  rewrite foldl_snoc. etrans; [done|]. apply extends_recorded.
Qed.

(** Reducing the best level. *)
Lemma wp_update_best e x r y Q E :
  levels_wf (price_before os) (x :: r) → side_levels os (order_book_ e) = x :: r →
  0 ≤ y ≤ level_quantity x →
  Q tt (set_book (set_side_levels os (after_level x y r) (order_book_ e)) e) →
  wp (if is_buy s
      then in_book (update_ask (level_price x) (level_quantity x - y))
      else in_book (update_bid (level_price x) (level_quantity x - y))) Q E e.
Proof.
  intros Hwf Hl Hy HQ. pose proof Hwf as (_ & [Hp Hq] & _)%levels_wf_cons.
  assert (Hset : set_level (price_before os) (level_price x) (level_quantity x - y) (x :: r) =
    after_level x y r).
  { destruct x as [p q]. simpl level_price. by rewrite set_level_hit by apply _. }
  destruct s; cbn [is_buy]; cbn in Hl;
    unfold in_book, update_ask, update_bid, in_asks, in_bids; wp_steps; rewrite Hl.
  - apply (wp_update_levels Z.ltb); [apply Hwf| |lia]. intros _ _.
    change (set_level Z.ltb) with (set_level (price_before (other_side Buy))). by rewrite Hset.
  - apply (wp_update_levels Z.gtb); [apply Hwf| |lia]. intros _ _.
    change (set_level Z.gtb) with (set_level (price_before (other_side Sell))). by rewrite Hset.
Qed.

Lemma sweeping_fill xs e f x r y :
  sweeping xs e f → side_levels os (order_book_ e) = x :: r →
  0 < result_remaining_quantity (market_result f) → 0 < level_price x →
  y = Z.min (result_remaining_quantity (market_result f)) (level_quantity x) →
  let t := stamped (trade_store_ e) s (level_price x) y None None in
  sweeping (xs ++ [(level_price x, y)])
    (set_book (set_side_levels os (after_level x y r) (order_book_ e))
       (set_trades (recorded (trade_store_ e) t) e))
    (accounted t f).
Proof.
  intros [Hwf Hf Hprog Heng (Hfs & Hfr & Hfa) Hex Htr Hw Hpos] Hl Hrem Hp Hy t.
  rewrite Hl in Hwf. pose proof Hwf as (Hx & [_ Hq] & Hr)%levels_wf_cons.
  split; simpl; rewrite ?side_levels_set.
  - unfold after_level. destruct (_ =? 0) eqn:Hz; zb; [done|].
    apply levels_wf_cons. split_and!; [done| |done]. destruct Hwf as [_ Hok].
    apply Forall_cons in Hok as [[? ?] _]. split; simpl; lia.
  - apply (frame_ok_accounted t); [done|]. simpl. lia.
  - rewrite Hprog, Hl. rewrite (match_levels_step _ x r y) by (done || lia). simpl.
    by rewrite <- app_assoc.
  - rewrite Heng. unfold record_level_fills. rewrite foldl_snoc. simpl. unfold t. rewrite Heng.
    by destruct s.
  - done.
  - rewrite volume_snoc. lia.
  - by rewrite Htr, <- app_assoc.
  - rewrite Hw. unfold weighted. by rewrite foldl_snoc.
  - apply Forall_app. split; [done|]. constructor; [simpl; lia|done].
Qed.

(** One round sweeps the best level, or throws because its price is zero,
    which the book accepts and the trade history does not. *)
Lemma wp_level_round xs e f Q E :
  sweeping xs e f →
  let rem := result_remaining_quantity (market_result f) in
  (rem = 0 ∨ side_levels os (order_book_ e) = [] → Q false (e, f)) →
  (∀ x r y, side_levels os (order_book_ e) = x :: r → 0 < rem → 0 < level_price x →
     y = Z.min rem (level_quantity x) →
     let t := stamped (trade_store_ e) s (level_price x) y None None in
     Q true (set_book (set_side_levels os (after_level x y r) (order_book_ e))
               (set_trades (recorded (trade_store_ e) t) e), accounted t f)) →
  (∀ x w, x ∈ side_levels os (order_book_ e) → level_price x = 0 →
     E (invalid_argument w) (e, f)) →
  wp (market_level_round s) Q E (e, f).
Proof.
  intros Hs rem Hstop Hfill Hthrow. pose proof Hs as [Hwf Hf _ _ _ _ _ _ _].
  unfold market_level_round. do 2 wp_step. unfold id. simpl. fold rem.
  destruct (rem >? 0) eqn:Hrem; zb; [|apply wp_ret, Hstop; left; destruct Hf; unfold rem; lia].
  assert (Hside : (if is_buy s then asks (order_book_ e) else bids (order_book_ e)) =
    side_levels os (order_book_ e)) by by destruct s.
  rewrite Hside. destruct (side_levels os (order_book_ e)) as [|x r] eqn:Hl.
  { apply wp_ret, Hstop. by right. }
  pose proof Hwf as (_ & [Hp Hq] & _)%levels_wf_cons.
  set (y := Z.min rem (level_quantity x)). wp_step. unfold in_trades. do 2 wp_step. simpl.
  apply wp_record_trade.
  - intros Hp' _. wp_step. apply wp_account_trade; [done|simpl; lia|].
    do 2 wp_step; [mlia|]. wp_step.
    replace (if is_buy s
       then outer (in_book (update_ask (level_price x) (level_quantity x - y)))
       else outer (in_book (update_bid (level_price x) (level_quantity x - y))))
      with (outer (F:=MarketFrame) (if is_buy s
         then in_book (update_ask (level_price x) (level_quantity x - y))
         else in_book (update_bid (level_price x) (level_quantity x - y)))) by by destruct s.
    wp_step. apply (wp_update_best _ x r y); [done|done|lia|]. wp_steps. by apply Hfill.
  - intros Hbad w. simpl. assert (He : set_trades (trade_store_ e) e = e) by by destruct e.
    rewrite He. apply (Hthrow x); [by left|lia].
Qed.

(** The sweep ends with the greedy pass over the levels, or leaves the
    engine untouched. *)
Lemma wp_market_levels fuel Q E :
  book_wf (order_book_ e0) → 0 < quantity ≤ INT64_MAX →
  (length (side_levels os (order_book_ e0)) < fuel)%nat →
  (∀ e f, sweeping (level_fills goal) e f → side_levels os (order_book_ e) = levels_left goal →
     result_remaining_quantity (market_result f) = level_unmatched goal → Q tt (e, f)) →
  (∀ x w y, x ∈ side_levels os (order_book_ e0) → level_price x = 0 →
     E (invalid_argument w) (e0, y)) →
  wp (market_levels s fuel (copy_book (order_book_ e0)) (checkpoint (trade_store_ e0)))
    Q E (e0, market_frame s quantity).
Proof.
  intros Hwf0 Hr Hfuel HQ HE. unfold market_levels. apply wp_try_catch.
  apply (wp_loop (λ y, (∃ xs, sweeping xs (fst y) (snd y)) ∧
      ∀ x, x ∈ side_levels os (order_book_ (fst y)) → level_price x = 0 →
        ∃ x', x' ∈ side_levels os (order_book_ e0) ∧ level_price x' = 0)
    (λ y, if result_remaining_quantity (market_result (snd y)) =? 0 then O
          else length (side_levels os (order_book_ (fst y))))).
  - intros [e f] [[xs Hm] Hzero]. simpl in Hm, Hzero. pose proof Hm as [].
    apply (wp_level_round xs e f); [done|..].
    + intros Hstop.
      assert (Hend : match_levels (result_remaining_quantity (market_result f))
        (side_levels os (order_book_ e)) = mkLevelMatch [] (side_levels os (order_book_ e))
          (result_remaining_quantity (market_result f))).
      { destruct Hstop as [->| ->]; [|done]. by destruct (side_levels os (order_book_ e)). }
      rewrite Hend in sw_progress0. simpl in sw_progress0. rewrite app_nil_r in sw_progress0.
      apply HQ; rewrite sw_progress0; done.
    + intros x r y Hl Hpos Hp Hy t. split.
      * split; [exists (xs ++ [(level_price x, y)]); by apply sweeping_fill|]. simpl.
        rewrite side_levels_set. intros x' Hx'. rewrite Hl in Hzero. revert Hx'. unfold after_level.
        destruct (_ =? 0); [intros; apply (Hzero x'); [by right|done]|].
        intros [->|Hx']%elem_of_cons; simpl; [lia|]. apply (Hzero x'). by right.
      * simpl. rewrite side_levels_set, Hl. rewrite Hl in sw_wf0.
        apply levels_wf_cons in sw_wf0 as (_ & [_ ?] & _).
        rewrite (proj2 (Z.eqb_neq (result_remaining_quantity (market_result f)) 0)) by lia.
        unfold after_level. destruct (_ =? 0) eqn:H1; simpl; [lia|].
        destruct (level_quantity x - y =? 0) eqn:H2; simpl; zb; lia.
    + intros x w Hx Hz. destruct (Hzero x Hx Hz) as (x' & Hx' & Hz').
      unfold in_book, in_trades, assign_book. wp_steps. simpl.
      apply wp_rollback.
      { rewrite sw_engine0. simpl. apply record_level_fills_extends. }
      wp_steps. rewrite sw_engine0. unfold set_book, set_trades. simpl.
      specialize (HE x' w f Hx' Hz'). destruct (order_book_ e0) eqn:Hb.
      destruct e0. simpl in *. by subst.
  - simpl. split; [|by eauto]. exists []. split; simpl; try done.
    + unfold frame_ok; simpl. lia.
    + by destruct (match_levels _ _).
    + assert (Hid : set_side_levels os (side_levels os (order_book_ e0)) (order_book_ e0) =
        order_book_ e0) by by destruct s, (order_book_ e0).
      rewrite Hid. by destruct e0.
    + by rewrite app_nil_r.
  - simpl. case_match; [lia|done].
Qed.
End levels.

(** ** The whole operation *)

(** The result of a market order: what was executed and at which average. *)
Record reports (r : ExecutionResult) (s : OrderSide) (quantity rest : Z) (xs : list (Z * Z))
    (new_trades : list Trade) : Prop := mk_reports {
  rp_side : result_side r = s;
  rp_requested : requested_quantity r = quantity;
  rp_executed : executed_quantity r = volume xs;
  rp_remaining : result_remaining_quantity r = rest;
  rp_average :
    average_price_ticks r = if volume xs >? 0 then Some (notional xs / volume xs) else None;
  rp_trades : result_trades r = new_trades
}.

(** The engine keeps its invariant when orders were served from the front of a
    queue. *)
Lemma serving_inv e0 q0 s quantity fs e f :
  engine_inv e0 q0 → 0 < quantity →
  let q := set_queue (other_side s)
    (resting (match_queue any_price quantity (queue (other_side s) q0))) q0 in
  serving e0 q0 s quantity fs e f q → engine_inv e q.
Proof.
  intros Hinv Hpos q [Hok _ _ _ Heng Hs _ _ _ _ _].
  assert (Hkey : ∀ s' x, x ∈ queue s' q → ∃ y, y ∈ queue s' q0 ∧
    make_priority_key x = make_priority_key y).
  { intros s' x Hx. unfold q in Hx. destruct (decide (s' = other_side s)) as [->|Hne].
    - rewrite queue_set_queue in Hx. eapply resting_key; [|by eapply ok_queue, Hinv|done]. lia.
    - exists x. split; [|done]. by destruct s, s'. }
  assert (Hall : ∀ x, x ∈ all_orders q → ∃ y, y ∈ all_orders q0 ∧
    make_priority_key x = make_priority_key y).
  { intros x [Hx|Hx]%elem_of_all_orders.
    - apply (Hkey Buy) in Hx as (y & ? & ?). exists y. rewrite elem_of_all_orders. auto.
    - apply (Hkey Sell) in Hx as (y & ? & ?). exists y. rewrite elem_of_all_orders. auto. }
  assert (Hgen : order_id_generator_ e = order_id_generator_ e0) by by rewrite Heng.
  assert (Hseq : next_sequence_number_ e = next_sequence_number_ e0) by by rewrite Heng.
  split; [done|done| | | |].
  - intros b a Hb Ha. apply (Hkey Buy) in Hb as (b' & Hb & Hkb).
    apply (Hkey Sell) in Ha as (a' & Ha & Hka). unfold make_priority_key in *. simplify_eq.
    pose proof (inv_uncrossed _ _ Hinv b' a' Hb Ha). congruence.
  - rewrite Hgen. apply Forall_forall. intros x (y & Hy & Hk)%Hall.
    unfold make_priority_key in Hk. simplify_eq. destruct (inv_bounds _ _ y Hinv Hy). congruence.
  - rewrite Hseq. apply Forall_forall. intros x (y & Hy & Hk)%Hall.
    unfold make_priority_key in Hk. simplify_eq. destruct (inv_bounds _ _ y Hinv Hy). congruence.
  - rewrite Hgen, Hseq. apply Hinv.
Qed.

Lemma side_levels_fuel e s :
  (length (side_levels s (order_book_ e)) < market_fuel e)%nat.
Proof. unfold market_fuel. destruct s; simpl; lia. Qed.

Lemma wp_execute_market_orders e q s quantity Q E :
  engine_inv e q → orders_ (order_manager_ e) ≠ [] → 0 < quantity ≤ INT64_MAX →
  let m := match_queue any_price quantity (queue (other_side s) q) in
  notional (fill_prices (fills m)) < 2 ^ (P - 1) → notional (fill_prices (fills m)) ≤ INT64_MAX →
  (∀ e' r new_trades, engine_inv e' (set_queue (other_side s) (resting m) q) →
     synced (order_book_ e') (set_queue (other_side s) (resting m) q) →
     trade_store_ e' = record_fills s None (fills m) (trade_store_ e) →
     trades_ (trade_store_ e') = trades_ (trade_store_ e) ++ new_trades →
     order_id_generator_ e' = order_id_generator_ e →
     next_sequence_number_ e' = next_sequence_number_ e →
     reports r s quantity (unmatched m) (fill_prices (fills m)) new_trades → Q r e') →
  wp (execute_market_order s quantity) Q E e.
Proof.
  intros Hinv Hne Hpos m Hn Hn64 HQ. pose proof (inv_ok _ _ Hinv) as Hok.
  unfold execute_market_order, validate_market_order. wp_step.
  apply wp_require_positive_ok; [lia|]. do 4 wp_step. unfold orders, id.
  destruct (orders_ (order_manager_ e)) as [|o0 os] eqn:Ho; [done|]. simpl.
  apply (wp_market_orders e q s quantity).
  - done.
  - apply (inv_synced _ _ Hinv). by rewrite Ho.
  - done.
  - unfold market_fuel. rewrite (rep_perm _ _ (ok_rep _ _ Hok)).
    rewrite (all_orders_queue (other_side s)), length_app. lia.
  - fold m. intros e' f Hsv Hrem. do 2 wp_step. simpl.
    pose proof Hsv as [_ _ _ _ Heng Hs (Hfs & Hfr & Hfa) Hex Htr Hw Hp].
    eapply (wp_market_average e' f); [done..|]. simpl.
    eapply HQ; [by eapply serving_inv; [done|lia|]|done|by rewrite Heng|done|by rewrite Heng..|].
    split; simpl; [done..|by rewrite Hfa|done].
Qed.

(** Without own orders: a sweep of the book. *)
Lemma wp_execute_market_levels e q s quantity Q E :
  engine_ok e q → orders_ (order_manager_ e) = [] → 0 < quantity ≤ INT64_MAX →
  let m := match_levels quantity (side_levels (other_side s) (order_book_ e)) in
  notional (level_fills m) < 2 ^ (P - 1) → notional (level_fills m) ≤ INT64_MAX →
  (∀ r ts new_trades, ts = record_level_fills s (level_fills m) (trade_store_ e) →
     trades_ ts = trades_ (trade_store_ e) ++ new_trades →
     levels_wf (price_before (other_side s)) (levels_left m) →
     Forall (λ x, 0 < fst x ∧ 0 < snd x) (level_fills m) →
     reports r s quantity (level_unmatched m) (level_fills m) new_trades →
     Q r (set_book (set_side_levels (other_side s) (levels_left m) (order_book_ e))
            (set_trades ts e))) →
  (∀ x w, x ∈ side_levels (other_side s) (order_book_ e) → level_price x = 0 →
     E (invalid_argument w) e) →
  wp (execute_market_order s quantity) Q E e.
Proof.
  intros Hok Ho Hpos m Hn Hn64 HQ HE.
  unfold execute_market_order, validate_market_order. wp_step.
  apply wp_require_positive_ok; [lia|]. do 4 wp_step. unfold orders, id. rewrite Ho. simpl.
  apply wp_market_levels; [apply Hok|done|apply side_levels_fuel| |].
  - fold m. intros e' f Hsw Hleft Hrem. do 2 wp_step. simpl.
    pose proof Hsw as [Hwf _ _ Heng (Hfs & Hfr & Hfa) Hex Htr Hw Hp].
    eapply (wp_market_average e' f); [done..|]. simpl. rewrite Hleft in *. rewrite Heng.
    eapply HQ; [done| |done|done|].
    + rewrite Heng in Htr. exact Htr.
    + split; simpl; [done..|by rewrite Hfa|done].
  - intros x w y Hx Hz. by apply (HE x).
Qed.

(** *** The state alone

  Whatever becomes of the average, the engine afterwards satisfies the
  invariant again. *)

Lemma market_average_state f x : snd (market_average f x) = x.
Proof.
  unfold market_average, to_int64, checked64.
  destruct (_ >? 0); [|done]. unfold bind. by destruct (int64b _).
Qed.

Lemma execute_market_order_run (s : OrderSide) quantity e r (e' : MatchingEngine) f :
  0 < quantity →
  (if negb (match orders (order_manager_ e) with [] => false | _ => true end)
   then market_levels s (market_fuel e) (copy_book (order_book_ e)) (checkpoint (trade_store_ e))
   else market_orders s (market_fuel e) (checkpoint (trade_store_ e)))
    (e, market_frame s quantity) = (r, (e', f)) →
  snd (execute_market_order s quantity e) = e'.
Proof.
  intros Hq Hrun. unfold execute_market_order, validate_market_order, require_positive.
  rewrite (proj2 (Z.leb_gt quantity 0)) by lia.
  unfold bind, scoped, ret, gets, id. rewrite Hrun.
  destruct r; simpl; [|done..].
  pose proof (market_average_state f (e', f)) as Hs.
  destruct (market_average f (e', f)) as [? [? ?]]. simpl in *. congruence.
Qed.

Lemma execute_market_order_inv e q s quantity :
  engine_inv e q → int64 quantity →
  let e' := snd (execute_market_order s quantity e) in
  next_sequence_number_ e' = next_sequence_number_ e ∧ ∃ q', engine_inv e' q'.
Proof.
  intros Hinv Hq64 e'. pose proof (inv_ok _ _ Hinv) as Hok.
  destruct (decide (0 < quantity)) as [Hq|Hq].
  2: { assert (e' = e) as ->; [|eauto]. unfold e', execute_market_order, validate_market_order,
      require_positive. by rewrite (proj2 (Z.leb_le quantity 0)) by lia. }
  destruct (orders_ (order_manager_ e)) as [|o l] eqn:Ho.
  - assert (Hwp : wp (market_levels s (market_fuel e) (copy_book (order_book_ e))
      (checkpoint (trade_store_ e))) (λ _ x, next_sequence_number_ (fst x) = next_sequence_number_ e ∧
        engine_inv (fst x) q) (λ _ x, fst x = e) (e, market_frame s quantity)).
    { apply wp_market_levels; [apply Hok|mlia|apply side_levels_fuel| |done].
      intros e1 f [Hwf _ _ Heng _ _ _ _ _] Hleft _. simpl.
      assert (Hbw : book_wf (order_book_ e1)).
      { intros s'. destruct (decide (s' = other_side s)) as [->|Hne]; [done|].
        rewrite Heng. simpl. rewrite side_levels_set_ne by done. apply Hok. }
      rewrite Heng in Hbw |- *. split; [done|].
      destruct Hinv as [[? ? ? ? ?] ? ? ? ? ?]. split; [|by simpl; rewrite Ho|done..].
      split; [done|done|exact Hbw|done..]. }
    unfold wp in Hwp.
    destruct (market_levels s (market_fuel e) _ _ _) as [r [e1 f]] eqn:Hrun.
    unfold e'. rewrite (execute_market_order_run s quantity e r e1 f); [|done|].
    2: { unfold orders. by rewrite Ho. }
    destruct r; simpl in Hwp; [destruct Hwp; eauto|subst; eauto|done..].
  - destruct (wp_run _ _ _ (wp_market_orders e q s quantity (market_fuel e)
      (checkpoint (trade_store_ e)) (λ _ x, next_sequence_number_ (fst x) = next_sequence_number_ e ∧
        ∃ q', engine_inv (fst x) q') nothrow Hok ltac:(apply (inv_synced _ _ Hinv); by rewrite Ho)
      ltac:(mlia) ltac:(unfold market_fuel; rewrite (rep_perm _ _ (ok_rep _ _ Hok)),
        (all_orders_queue (other_side s)), length_app; lia)
      ltac:(intros e1 f Hsv _; split;
        [by rewrite (sv_engine _ _ _ _ _ _ _ _ Hsv)|eexists; by eapply serving_inv])))
      as ([] & [e1 f] & Hrun & HQ).
    unfold e'. rewrite (execute_market_order_run s quantity e (Ok tt) e1 f); [done|done|].
    unfold orders. by rewrite Ho.
Qed.
End market.
