(* ===== verification/MarketRollback.v ===== *)
(** * The rollback of a market order

    The journal entry of a fill is written before the book is adjusted, and the
    handler of [execute_market_order] adds the quantity of every entry back to the
    book.  When it was the adjustment that threw, because the owner of the shared
    book had lowered the level, the last entry is of a fill that never happened:
    everything is restored except that level, which ends up higher than it was. *)
From S2P Require Import Prelude LongDouble Orders TradeStore OrderBook Levels OrderManager.
From S2P Require Import ManagerSpec MatchingEngine EngineSpec PlaceSpec Journal MatchLoop EngineMarket.

Local Open Scope Z_scope.

(** [b'] is [b] with [x] units more at one price. *)
Definition raised (s : OrderSide) (p x : Z) (b b' : OrderBook) : Prop :=
  book_wf b' ∧ ∀ s' p', book_depth s' p' b' = book_depth s' p' b + (if decide (s = s' ∧ p = p') then x else 0).

Lemma raised_set_depth s p x b :
  book_wf b → 0 ≤ p ≤ INT64_MAX → 0 ≤ book_depth s p b + x ≤ INT64_MAX →
  raised s p x b (set_depth s p (book_depth s p b + x) b).
Proof.
  intros Hb Hp Hx. split; [by apply book_wf_set_depth|]. intros s' p'.
  rewrite book_depth_set_depth_at by done. case_decide as Hd; [destruct Hd as [-> ->]|]; lia.
Qed.

(** Replaying the journal backwards over a raised book gives the book of the
    start, raised. *)
Definition undoes_raised (js : list OrderMutation) (e e0 : MatchingEngine) : Prop :=
  ∀ e1 s p x Q E, order_manager_ e1 = order_manager_ e → raised s p x (order_book_ e) (order_book_ e1) →
    0 ≤ x → book_depth s p (order_book_ e0) + x ≤ INT64_MAX →
    (∀ b', raised s p x (order_book_ e0) b' → Q tt (set_book b' (set_manager (order_manager_ e0) e1))) →
    wp (for_each (rev js) undo_mutation) Q E e1.

Lemma undoes_raised_nil e : undoes_raised [] e e.
Proof.
  intros e1 s p x Q E Hom Hr _ _ HQ. apply wp_ret. specialize (HQ _ Hr). rewrite <- Hom in HQ. by destruct e1.
Qed.

Section filled.
Context (e e0 : MatchingEngine) (q : Queues) (s : OrderSide) (o : LimitOrder) (r : list LimitOrder) (x : Z)
  (om' : OrderManager).
Hypothesis (Hok : engine_ok e q) (Hq : queue (other_side s) q = o :: r)
  (Hx : 0 < x ≤ remaining_quantity o)
  (Hd : x ≤ book_depth (side o) (price_ticks o) (order_book_ e))
  (Hless : ∀ s' p, book_depth s' p (order_book_ e) ≤ book_depth s' p (order_book_ e0)).

Lemma undoes_raised_snoc js rm :
  undo_entry (entry o x rm) om' (order_manager_ e) → undoes_raised js e e0 →
  undoes_raised (js ++ [entry o x rm]) (filled_engine s None o x om' e) e0.
Proof.
  intros Hundo Hjs e1 s' p' z Q E Hom [Hwf Hr] Hz Hb HQ. rewrite rev_unit. simpl. wp_step.
  unfold undo_mutation. wp_step. apply Hundo; [done|].
  destruct (filled_depth_bounds e q s o r x Hok Hq ltac:(lia) Hd) as [Hbd Hp]. simpl in Hr.
  destruct (ok_head _ _ _ _ _ Hok Hq) as (_ & _ & Hor & Hoo & _).
  pose proof (Hless s' p') as Hl. pose proof (book_depth_bounds s' p' _ (ok_book _ _ Hok)) as Hb1.
  pose proof (book_depth_bounds (side o) (price_ticks o) _ (ok_book _ _ Hok)) as Hb2.
  assert (Hnow : book_depth (side o) (price_ticks o) (order_book_ e1) =
    book_depth (side o) (price_ticks o) (order_book_ e) - x +
    (if decide (s' = side o ∧ p' = price_ticks o) then z else 0)).
  { rewrite Hr, book_depth_set_depth_at, decide_True by (apply Hok || done). done. }
  apply wp_adjust_order_book_ok; simpl; [done|mlia|lia| |].
  { rewrite Hnow. case_decide as Hsame; [destruct Hsame as [-> ->]|]; lia. }
  eapply (Hjs _ s' p' z); [done| |done|done|].
  - split; simpl; [apply book_wf_set_depth; [done|lia|]|].
    + rewrite Hnow. case_decide as Hsame; [destruct Hsame as [-> ->]|]; lia.
    + intros s2 p2. rewrite book_depth_set_depth_at by done. rewrite Hnow, Hr, book_depth_set_depth_at by apply Hok.
      destruct (decide (side o = s2 ∧ price_ticks o = p2)) as [[<- <-]|]; lia.
  - intros b' Hb'. specialize (HQ b' Hb'). by destruct e1.
Qed.
End filled.

Section orders.
Context `{LongDoubleFormat} (e0 : MatchingEngine) (q0 : Queues) (s : OrderSide) (quantity : Z).
Notation opp := (other_side s).

(** Between two rounds, whatever the owner of the book has done to it. *)
Record rolling (e : MatchingEngine) (f : MarketFrame) (q : Queues) : Prop := mk_rolling {
  ro_ok : engine_ok e q;
  ro_frame : frame_ok f;
  ro_requested : requested_quantity (market_result f) = quantity;
  ro_rest : e = set_manager (order_manager_ e) (set_book (order_book_ e) (set_trades (trade_store_ e) e0));
  ro_trades : extends (trade_store_ e0) (trade_store_ e);
  ro_undo : undoes_raised (market_mutations f) e e0;
  ro_less : ∀ s' p, book_depth s' p (order_book_ e) ≤ book_depth s' p (order_book_ e0);
  ro_gap : ∀ p, book_depth opp p (order_book_ e) - queue_depth p (queue opp q) =
                book_depth opp p (order_book_ e0) - queue_depth p (queue opp q0)
}.

Lemma rolling_fill e f q o r x om' rm :
  rolling e f q → queue opp q = o :: r →
  let rem := result_remaining_quantity (market_result f) in
  0 < rem → x = Z.min rem (remaining_quantity o) →
  x ≤ book_depth (side o) (price_ticks o) (order_book_ e) →
  om_rep om' (set_queue opp (after_fill o x r) q) →
  undo_entry (entry o x rm) om' (order_manager_ e) →
  rolling (filled_engine s None o x om' e)
    (set_mutations (market_mutations f ++ [entry o x rm])
       (accounted (fill_trade s None (o, x) (trade_store_ e)) f))
    (set_queue opp (after_fill o x r) q).
Proof.
  intros [Hok Hf Hrq Hrest Hts Hun Hless Hgap] Hq rem Hrem Hx Hd Hrep Hundo.
  destruct (ok_head _ _ _ _ _ Hok Hq) as (_ & Hop & Hor & _).
  pose proof (fill_side _ _ _ _ _ (ok_rep _ _ Hok) Hq) as Hside. split; simpl.
  - apply engine_ok_filled; try done; lia.
  - apply (frame_ok_accounted (fill_trade s None (o, x) (trade_store_ e))); [done|]. simpl. fold rem. lia.
  - done.
  - rewrite Hrest at 1. unfold filled_engine. by rewrite Hrest.
  - etrans; [done|]. apply extends_recorded.
  - apply (undoes_raised_snoc e e0 q s o r x om'); try done; lia.
  - intros s' p. rewrite book_depth_set_depth_at by apply Hok. specialize (Hless s' p).
    case_decide as Hsame; [destruct Hsame as [<- <-]|]; lia.
  - intros p. rewrite book_depth_set_depth_at by apply Hok. rewrite queue_set_queue. specialize (Hgap p).
    rewrite Hq, queue_depth_cons in Hgap. unfold after_fill.
    destruct (price_ticks o =? p) eqn:Hpp; zb; subst.
    + rewrite decide_True by done. rewrite Hside in *. destruct (_ =? 0) eqn:Hz; zb;
        rewrite ?queue_depth_cons; simpl; rewrite ?Z.eqb_refl; lia.
    + rewrite decide_False by (by intros []). destruct (_ =? 0) eqn:Hz; zb; rewrite ?queue_depth_cons; simpl;
        rewrite ?(proj2 (Z.eqb_neq _ _)) by done; lia.
Qed.

(** What a market order that throws leaves behind. *)
Definition market_failed (e' : MatchingEngine) : Prop :=
  ∃ o x, order_ok o ∧ 0 < x ≤ remaining_quantity o ∧ x ≤ quantity ∧
    book_depth opp (price_ticks o) (order_book_ e0) < queue_depth (price_ticks o) (queue opp q0) ∧
    e' = set_book (order_book_ e') e0 ∧ raised opp (price_ticks o) x (order_book_ e0) (order_book_ e').

Lemma wp_market_undo e f q o r x w ts f' Q :
  rolling e f q → (∀ p, book_depth opp p (order_book_ e0) + quantity ≤ INT64_MAX) →
  queue opp q = o :: r → x = Z.min (result_remaining_quantity (market_result f)) (remaining_quantity o) →
  book_depth (side o) (price_ticks o) (order_book_ e) < x → 0 < result_remaining_quantity (market_result f) →
  undo_entry (entry o x None) (order_manager_ e) (order_manager_ e) →
  extends (trade_store_ e) ts → market_mutations f' = market_mutations f ++ [entry o x None] →
  wp (market_orders_undo (checkpoint (trade_store_ e0)) (invalid_argument w)) Q
    (λ _ y, market_failed (fst y)) (set_trades ts e, f').
Proof.
  intros [Hok (Hf1 & Hf2 & Hf3 & Hf4) Hrq Hrest Hts Hun Hless Hgap] Hbound Hq Hx Hd Hrem Hundo Hext Hmut.
  destruct (ok_head _ _ _ _ _ Hok Hq) as (Hid & Hop & Hor & Hoo & Hrest').
  pose proof (fill_side _ _ _ _ _ (ok_rep _ _ Hok) Hq) as Hside. rewrite Hside in Hd.
  pose proof (Hless opp (price_ticks o)) as Hl. pose proof (Hbound (price_ticks o)) as Hb.
  pose proof (book_depth_bounds opp (price_ticks o) _ (ok_book _ _ Hok)) as Hb1.
  unfold market_orders_undo. do 3 wp_step. simpl. wp_step. rewrite Hmut, rev_unit. simpl. wp_step.
  unfold undo_mutation at 1. wp_step. apply Hundo; [done|].
  apply wp_adjust_order_book_ok; simpl; [apply Hok|mlia|lia|rewrite Hside; lia|].
  eapply (Hun _ opp (price_ticks o) x); [done| |lia|lia|].
  { simpl. rewrite Hside. apply raised_set_depth; [apply Hok|lia|lia]. }
  intros b' Hb'. unfold in_trades. wp_step. wp_step. wp_step. simpl.
  apply wp_rollback; [by etrans|]. wp_step. exists o, x. split_and!; try done; try lia.
  - pose proof (queue_depth_elem o (queue opp q) (ok_queue _ _ _ Hok) ltac:(rewrite Hq; by left)) as Hel.
    specialize (Hgap (price_ticks o)). lia.
  - simpl. rewrite Hrest. by destruct e0.
Qed.

Lemma wp_market_orders_any fuel :
  engine_ok e0 q0 → 0 < quantity ≤ INT64_MAX →
  (∀ p, book_depth opp p (order_book_ e0) + quantity ≤ INT64_MAX) →
  (length (queue opp q0) < fuel)%nat →
  wp (market_orders s fuel (checkpoint (trade_store_ e0))) (λ _ _, True)
    (λ _ y, market_failed (fst y)) (e0, market_frame s quantity).
Proof.
  intros Hok Hr Hbound Hfuel. unfold market_orders. apply wp_try_catch.
  apply (wp_loop (λ y, ∃ q, rolling (fst y) (snd y) q)
    (λ y, if result_remaining_quantity (market_result (snd y)) =? 0 then O
          else length (side_index opp (order_manager_ (fst y))))).
  - intros [e f] (q & Hm). simpl in Hm. pose proof Hm as [].
    apply (wp_market_round s e f q); [done..| | |].
    + done.
    + intros o r x om' rm Hq Hpos Hx Hd Hrep Hundo. split.
      * exists (set_queue opp (after_fill o x r) q). simpl. by apply rolling_fill.
      * simpl. rewrite (rep_index _ _ Hrep), queue_set_queue, (rep_index _ _ (ok_rep _ _ ro_ok0)), Hq.
        rewrite !length_fmap.
        rewrite (proj2 (Z.eqb_neq (result_remaining_quantity (market_result f)) 0)) by lia.
        unfold after_fill. destruct (_ =? 0) eqn:H1; simpl; [lia|].
        destruct (remaining_quantity o - x =? 0) eqn:H2; simpl; zb; lia.
    + intros o r x Hq Hx Hd Hrem Hundo w ts f' Hext Hmut. by eapply wp_market_undo.
  - exists q0. split; simpl; try done.
    + unfold frame_ok; simpl. lia.
    + by destruct e0.
    + apply undoes_raised_nil.
  - simpl. case_match; [lia|]. by rewrite (rep_index _ _ (ok_rep _ _ Hok)), length_fmap.
Qed.

Lemma market_average_no_throw f x ex : fst (market_average f x) ≠ Throw ex.
Proof.
  unfold market_average, to_int64, checked64. destruct (_ >? 0); [|done]. unfold bind. by destruct (int64b _).
Qed.

Lemma market_order_throws ex e' :
  engine_ok e0 q0 → orders_ (order_manager_ e0) ≠ [] → 0 < quantity ≤ INT64_MAX →
  (∀ p, book_depth opp p (order_book_ e0) + quantity ≤ INT64_MAX) →
  execute_market_order s quantity e0 = (Throw ex, e') → market_failed e'.
Proof.
  intros Hok Hne Hq Hbound.
  assert (Hfuel : (length (queue opp q0) < market_fuel e0)%nat).
  { unfold market_fuel. rewrite (rep_perm _ _ (ok_rep _ _ Hok)), (all_orders_queue opp), length_app. lia. }
  pose proof (wp_market_orders_any _ Hok Hq Hbound Hfuel) as Hwp. unfold wp in Hwp.
  unfold execute_market_order, validate_market_order, require_positive.
  rewrite (proj2 (Z.leb_gt quantity 0)) by lia. unfold bind, scoped, ret, gets, id, orders.
  destruct (orders_ (order_manager_ e0)) as [|o os]; [done|]. simpl.
  destruct (market_orders s (market_fuel e0) _ _) as [[[]|ex'| |] [e1 f]]; [|by intros [= _ <-]|done..].
  simpl. destruct (market_average f (e1, f)) as [r [e2 f2]] eqn:Ha. intros [= -> <-].
  by destruct (market_average_no_throw f (e1, f) ex); rewrite Ha.
Qed.
End orders.
