(* ===== verification/BlockingQueue.v ===== *)
(** * BlockingQueue

    [include/blocking_queue.hpp].  Every member function holds the mutex for its
    whole body, so each is one step; waiting on the condition variable is the
    guard [can_pop] of the step that continues. *)
From S2P Require Import Prelude.

Section blocking_queue.
Context {T : Type}.

Record BlockingQueue : Type := mkBlockingQueue { queue_ : list T; closed_ : bool }.

Definition empty_queue : BlockingQueue := mkBlockingQueue [] false.

(** Both overloads of [push]. *)
Definition push (value : T) : M BlockingQueue bool :=
  let* q := gets id in
  if closed_ q then ret false
  else modify (λ q, mkBlockingQueue (queue_ q ++ [value]) (closed_ q)) ;;; ret true.

(** The predicate [pop] waits for. *)
Definition can_pop (q : BlockingQueue) : bool :=
  closed_ q || negb (match queue_ q with [] => true | _ => false end).

(** The body of [pop] after the wait, which is also the body of [try_pop]. *)
Definition take_front : M BlockingQueue (option T) :=
  let* q := gets id in
  match queue_ q with
  | [] => ret None
  | value :: rest => modify (λ q, mkBlockingQueue rest (closed_ q)) ;;; ret (Some value)
  end.

Definition try_pop : M BlockingQueue (option T) := take_front.

Definition close : M BlockingQueue unit :=
  let* q := gets id in
  if closed_ q then ret tt else modify (λ q, mkBlockingQueue (queue_ q) true).

Definition is_closed (q : BlockingQueue) : bool := closed_ q.
Definition is_empty (q : BlockingQueue) : bool :=
  match queue_ q with [] => true | _ => false end.
Definition size (q : BlockingQueue) : nat := length (queue_ q).

(** [pop] blocks ([None]) or answers. *)
Definition pop (q : BlockingQueue) : option (outcome (option T) * BlockingQueue) :=
  if can_pop q then Some (take_front q) else None.

Lemma push_open q v : closed_ q = false → push v q = (Ok true, mkBlockingQueue (queue_ q ++ [v]) false).
Proof. destruct q as [l []]; [done|]. by intros _. Qed.

Lemma push_closed q v : closed_ q = true → push v q = (Ok false, q).
Proof. intros Hc. unfold push, bind, gets, id. by rewrite Hc. Qed.

Lemma close_closes q : close q = (Ok tt, mkBlockingQueue (queue_ q) true).
Proof. unfold close, bind, gets, id. destruct q as [l []]; done. Qed.
End blocking_queue.

Arguments BlockingQueue : clear implicits.
