(* ===== verification/ConcurrentEngine.v ===== *)
(** * ConcurrentMatchingEngine

    [include/engine_command.hpp], [include/concurrent_matching_engine.hpp] and
    [src/concurrent_matching_engine.cpp]: clients push commands into a blocking
    queue, one worker thread pops and executes them and fulfils their promises.
    The threads interleave as the steps of a transition system. *)
From S2P Require Import Prelude LongDouble Orders TradeStore OrderBook OrderManager MatchingEngine.
From S2P Require Import BlockingQueue.

Local Open Scope Z_scope.

(** ** Commands *)

Inductive EngineCommand : Type :=
| PlaceLimitBuyCommand (price quantity : Z)
| PlaceLimitSellCommand (price quantity : Z)
| ExecuteMarketBuyCommand (quantity : Z)
| ExecuteMarketSellCommand (quantity : Z)
| CancelOrderCommand (order : Z)
| ModifyOrderCommand (order new_price new_quantity : Z)
| ActiveOrdersCommand
| TradeHistoryCommand
| ClearTradeHistoryCommand.

(** What the promise of a command can hold. *)
Inductive CommandValue : Type :=
| OrderIdValue (id_ : Z)
| ExecutionValue (r : ExecutionResult)
| BoolValue (b : bool)
| OrdersValue (l : list LimitOrder)
| TradesValue (l : list Trade)
| VoidValue.

Inductive PromiseState : Type :=
| HasValue (v : CommandValue)
| HasException (e : exn).

(** [execute_command] and [execute_void_command]: the exception of the function
    ends in the promise, and the engine keeps what the function wrote. *)
Definition execute_command {S A} (set_value : A → CommandValue) (function : M S A)
    : M S PromiseState :=
  try_catch (let* v := function in ret (HasValue (set_value v)))
    (λ e, ret (HasException e)).

Section engine.
Context `{LongDoubleFormat}.

(** The chain of [dynamic_cast]s ends in [throw std::logic_error("Unknown
    engine command.")], which no command of the type reaches. *)
Definition process_command (command : EngineCommand) : M MatchingEngine PromiseState :=
  match command with
  | PlaceLimitBuyCommand price quantity =>
      execute_command OrderIdValue (place_limit_buy price quantity)
  | PlaceLimitSellCommand price quantity =>
      execute_command OrderIdValue (place_limit_sell price quantity)
  | ExecuteMarketBuyCommand quantity =>
      execute_command ExecutionValue (execute_market_buy quantity)
  | ExecuteMarketSellCommand quantity =>
      execute_command ExecutionValue (execute_market_sell quantity)
  | CancelOrderCommand order =>
      execute_command BoolValue (MatchingEngine.cancel_order order)
  | ModifyOrderCommand order new_price new_quantity =>
      execute_command BoolValue (modify_order order new_price new_quantity)
  | ActiveOrdersCommand => execute_command OrdersValue (gets active_limit_orders)
  | TradeHistoryCommand => execute_command TradesValue (gets trade_history)
  | ClearTradeHistoryCommand => execute_command (λ _, VoidValue) clear_trade_history
  end.

(** ** State

    A promise is a number; [promises] holds those already fulfilled.  The
    worker waits in [pop], executes a command, or has left its loop; [joined]
    is [!worker_.joinable()]. *)
Inductive Worker : Type :=
| Popping
| Executing (promise : nat) (command : EngineCommand)
| Finished.

Record ConcurrentMatchingEngine : Type := mkConcurrent {
  engine_ : MatchingEngine;
  command_queue_ : BlockingQueue (nat * EngineCommand);
  worker_ : Worker;
  joined : bool;
  next_promise : nat;
  promises : gmap nat PromiseState
}.

Definition make_concurrent (order_book : OrderBook) : ConcurrentMatchingEngine :=
  mkConcurrent (make_engine order_book) empty_queue Popping false 0 ∅.

Definition set_command_queue (q : BlockingQueue (nat * EngineCommand))
    (c : ConcurrentMatchingEngine) : ConcurrentMatchingEngine :=
  mkConcurrent (engine_ c) q (worker_ c) (joined c) (next_promise c) (promises c).

Definition in_queue {A} (m : M (BlockingQueue (nat * EngineCommand)) A)
    : M ConcurrentMatchingEngine A :=
  zoom command_queue_ set_command_queue m.

Definition set_worker (w : Worker) (c : ConcurrentMatchingEngine) : ConcurrentMatchingEngine :=
  mkConcurrent (engine_ c) (command_queue_ c) w (joined c) (next_promise c) (promises c).

(** ** Client side *)

(** The shape of the nine submitting members: allocate the command with its
    promise, take the future, push, and throw when the queue is closed. *)
Definition submit (command : EngineCommand) : M ConcurrentMatchingEngine nat :=
  let* future := gets next_promise in
  modify (λ c, mkConcurrent (engine_ c) (command_queue_ c) (worker_ c) (joined c)
    (S (next_promise c)) (promises c)) ;;;
  let* pushed := in_queue (push (future, command)) in
  if negb pushed then throw (runtime_error "ConcurrentMatchingEngine is shut down.")
  else ret future.

Definition async_place_limit_buy (price quantity : Z) := submit (PlaceLimitBuyCommand price quantity).
Definition async_place_limit_sell (price quantity : Z) := submit (PlaceLimitSellCommand price quantity).
Definition async_execute_market_buy (quantity : Z) := submit (ExecuteMarketBuyCommand quantity).
Definition async_execute_market_sell (quantity : Z) := submit (ExecuteMarketSellCommand quantity).
Definition async_cancel_order (order : Z) := submit (CancelOrderCommand order).
Definition async_modify_order (order new_price new_quantity : Z) :=
  submit (ModifyOrderCommand order new_price new_quantity).
Definition async_active_limit_orders := submit ActiveOrdersCommand.
Definition async_trade_history := submit TradeHistoryCommand.
Definition async_clear_trade_history := submit ClearTradeHistoryCommand.

Definition is_shutdown (c : ConcurrentMatchingEngine) : bool := is_closed (command_queue_ c).

(** ** Worker side *)

(** [worker_loop]: one pop, or one command. *)
Definition worker_pop (c : ConcurrentMatchingEngine) : option ConcurrentMatchingEngine :=
  match worker_ c with
  | Popping =>
      match pop (command_queue_ c) with
      | None => None
      | Some (Ok (Some (n, cmd)), q) => Some (set_worker (Executing n cmd) (set_command_queue q c))
      | Some (_, q) => Some (set_worker Finished (set_command_queue q c))
      end
  | _ => None
  end.

Definition worker_execute (c : ConcurrentMatchingEngine) : option ConcurrentMatchingEngine :=
  match worker_ c with
  | Executing n cmd =>
      match process_command cmd (engine_ c) with
      | (Ok r, e) => Some (mkConcurrent e (command_queue_ c) Popping (joined c)
                             (next_promise c) (<[n := r]> (promises c)))
      | _ => None
      end
  | _ => None
  end.

(** ** Interleaving *)

Inductive label : Type :=
| Submitted (n : nat) (command : EngineCommand)
| Refused (command : EngineCommand)
| Closed
| WorkerPop
| WorkerExecute
| Joined.

(** [shutdown] is [close] followed, once the worker has left its loop, by
    [join]. *)
Inductive cstep : ConcurrentMatchingEngine → label → ConcurrentMatchingEngine → Prop :=
| step_submit c cmd n c' : submit cmd c = (Ok n, c') → cstep c (Submitted n cmd) c'
| step_refuse c cmd e c' : submit cmd c = (Throw e, c') → cstep c (Refused cmd) c'
| step_close c c' : in_queue close c = (Ok tt, c') → cstep c Closed c'
| step_pop c c' : worker_pop c = Some c' → cstep c WorkerPop c'
| step_execute c c' : worker_execute c = Some c' → cstep c WorkerExecute c'
| step_join c :
    is_shutdown c = true → worker_ c = Finished → joined c = false →
    cstep c Joined (mkConcurrent (engine_ c) (command_queue_ c) (worker_ c) true
                      (next_promise c) (promises c)).

Inductive csteps : ConcurrentMatchingEngine → list label → ConcurrentMatchingEngine → Prop :=
| csteps_nil c : csteps c [] c
| csteps_snoc c tr c1 l c2 : csteps c tr c1 → cstep c1 l c2 → csteps c (tr ++ [l]) c2.

(** The commands a trace accepted, in the order of their acceptance. *)
Definition accepted (tr : list label) : list (nat * EngineCommand) :=
  omap (λ l, match l with Submitted n cmd => Some (n, cmd) | _ => None end) tr.

(** The sequential reference: execute commands one after the other. *)
Fixpoint run_commands (cmds : list EngineCommand) (e : MatchingEngine)
    : option (list PromiseState * MatchingEngine) :=
  match cmds with
  | [] => Some ([], e)
  | cmd :: rest =>
      match process_command cmd e with
      | (Ok r, e1) =>
          match run_commands rest e1 with
          | Some (rs, e2) => Some (r :: rs, e2)
          | None => None
          end
      | _ => None
      end
  end.
End engine.
