(* ===== verification/ConcurrentSpec.v ===== *)
(** * The concurrent engine is sequential

    Every interleaving of clients and worker fulfils the promises with what the
    commands answer when they are executed one after the other in the order of
    their acceptance; shutting down loses none of them. *)
From S2P Require Import Prelude LongDouble Orders TradeStore OrderBook Levels OrderManager.
From S2P Require Import ManagerSpec MatchingEngine EngineSpec PlaceSpec EngineLimit EngineModify.
From S2P Require Import EngineMarket BlockingQueue ConcurrentEngine.

Local Open Scope Z_scope.

Section concurrent.
Context `{LongDoubleFormat}.

Lemma run_commands_snoc cmds cmd e rs e1 r e2 :
  run_commands cmds e = Some (rs, e1) → process_command cmd e1 = (Ok r, e2) →
  run_commands (cmds ++ [cmd]) e = Some (rs ++ [r], e2).
Proof.
  revert e rs. induction cmds as [|c cmds IH]; intros e rs Hrun Hp; simpl in *.
  - simplify_eq. by rewrite Hp.
  - destruct (process_command c e) as [[r'| | |] e']; try done.
    destruct (run_commands cmds e') as [[rs' e'']|] eqn:Hr; simplify_eq.
    by rewrite (IH _ _ Hr Hp).
Qed.

Lemma run_commands_length cmds e rs e1 :
  run_commands cmds e = Some (rs, e1) → length rs = length cmds.
Proof.
  revert e rs. induction cmds as [|c cmds IH]; intros e rs Hrun; simpl in *; [by simplify_eq|].
  destruct (process_command c e) as [[r'| | |] e']; try done.
  destruct (run_commands cmds e') as [[rs' e'']|] eqn:Hr; simplify_eq.
  simpl. f_equal. eauto.
Qed.

Definition in_execution (w : Worker) : list (nat * EngineCommand) :=
  match w with Executing n cmd => [(n, cmd)] | _ => [] end.

(** What is known of a state after a trace: [finished] are the commands already
    executed and [rs] their results. *)
Record linear (e0 : MatchingEngine) (tr : list label) (c : ConcurrentMatchingEngine)
    (finished : list (nat * EngineCommand)) (rs : list PromiseState) : Prop := mk_linear {
  lin_accepted : accepted tr = finished ++ in_execution (worker_ c) ++ queue_ (command_queue_ c);
  lin_run : run_commands (map snd finished) e0 = Some (rs, engine_ c);
  lin_promises i n cmd : finished !! i = Some (n, cmd) → promises c !! n = rs !! i;
  lin_pending n : n ∉ map fst finished → promises c !! n = None;
  lin_ids : NoDup (map fst (accepted tr)) ∧ Forall (λ x, (fst x < next_promise c)%nat) (accepted tr);
  lin_finished : worker_ c = Finished → closed_ (command_queue_ c) = true ∧ queue_ (command_queue_ c) = [];
  lin_joined : joined c = true → worker_ c = Finished
}.

Lemma linear_start b : linear (make_engine b) [] (make_concurrent b) [] [].
Proof. split; simpl; try done; split; constructor. Qed.

Lemma accepted_snoc tr l :
  accepted (tr ++ [l]) = accepted tr ++ match l with Submitted n cmd => [(n, cmd)] | _ => [] end.
Proof. unfold accepted. rewrite omap_app. by destruct l. Qed.

(** Pushing under the lock. *)
Lemma submit_cases cmd c :
  (closed_ (command_queue_ c) = false ∧
   submit cmd c = (Ok (next_promise c), mkConcurrent (engine_ c)
     (mkBlockingQueue (queue_ (command_queue_ c) ++ [(next_promise c, cmd)]) false)
     (worker_ c) (joined c) (S (next_promise c)) (promises c))) ∨
  (closed_ (command_queue_ c) = true ∧
   submit cmd c = (Throw (runtime_error "ConcurrentMatchingEngine is shut down."),
     mkConcurrent (engine_ c) (command_queue_ c) (worker_ c) (joined c)
       (S (next_promise c)) (promises c))).
Proof. destruct c as [e [l []] w j n p]; [right|left]; done. Qed.

Lemma linear_submit e0 tr c finished rs n cmd c' :
  linear e0 tr c finished rs → submit cmd c = (Ok n, c') →
  linear e0 (tr ++ [Submitted n cmd]) c' finished rs.
Proof.
  intros [Ha Hr Hp Hn [Hnd Hlt] Hf Hj] Hs.
  destruct (submit_cases cmd c) as [[Hc Hs']|[_ Hs']]; rewrite Hs in Hs'; [|done].
  injection Hs' as -> ->. split; rewrite ?accepted_snoc; simpl; try done.
  - by rewrite Ha, <- !app_assoc.
  - rewrite map_app. split.
    + apply NoDup_app. split_and!; [done| |apply NoDup_singleton].
      intros x (y & -> & Hy)%list_elem_of_fmap Hx. apply list_elem_of_singleton in Hx.
      rewrite Forall_forall in Hlt. specialize (Hlt y Hy). simpl in Hx. lia.
    + apply Forall_app. split; [|repeat constructor; simpl; lia].
      eapply Forall_impl; [done|]. simpl. lia.
  - intros Hw. destruct (Hf Hw). congruence.
Qed.

Lemma linear_refuse e0 tr c finished rs cmd ex c' :
  linear e0 tr c finished rs → submit cmd c = (Throw ex, c') →
  linear e0 (tr ++ [Refused cmd]) c' finished rs.
Proof.
  intros [Ha Hr Hp Hn [Hnd Hlt] Hf Hj] Hs.
  destruct (submit_cases cmd c) as [[Hc Hs']|[_ Hs']]; rewrite Hs in Hs'; [done|].
  injection Hs' as -> ->. split; rewrite ?accepted_snoc, ?app_nil_r; simpl; try done.
  split; [done|]. eapply Forall_impl; [done|]. simpl. lia.
Qed.

Lemma linear_close e0 tr c finished rs c' :
  linear e0 tr c finished rs → in_queue close c = (Ok tt, c') →
  linear e0 (tr ++ [Closed]) c' finished rs.
Proof.
  intros [Ha Hr Hp Hn Hi Hf Hj] Hs. unfold in_queue, zoom in Hs.
  rewrite close_closes in Hs. injection Hs as <-.
  split; rewrite ?accepted_snoc, ?app_nil_r; simpl; try done.
  intros Hw. by destruct (Hf Hw).
Qed.

Lemma linear_pop e0 tr c finished rs c' :
  linear e0 tr c finished rs → worker_pop c = Some c' →
  linear e0 (tr ++ [WorkerPop]) c' finished rs.
Proof.
  intros [Ha Hr Hp Hn Hi Hf Hj] Hs. unfold worker_pop, pop, can_pop in Hs.
  destruct (worker_ c) eqn:Hw; [|done..]. simpl in Ha.
  destruct (queue_ (command_queue_ c)) as [|[n cmd] l] eqn:Hq.
  - destruct (closed_ (command_queue_ c)) eqn:Hc; [|done]. simpl in Hs.
    unfold take_front, bind, gets, id in Hs. rewrite Hq in Hs. injection Hs as <-.
    split; rewrite ?accepted_snoc, ?app_nil_r; simpl; try done; by rewrite Hq.
  - rewrite orb_true_r in Hs. unfold take_front, bind, gets, modify, id in Hs.
    rewrite Hq in Hs. injection Hs as <-.
    split; rewrite ?accepted_snoc, ?app_nil_r; simpl; try done.
    intros Hj'. by specialize (Hj Hj').
Qed.

Lemma linear_execute e0 tr c finished rs c' :
  linear e0 tr c finished rs → worker_execute c = Some c' →
  ∃ x r, linear e0 (tr ++ [WorkerExecute]) c' (finished ++ [x]) (rs ++ [r]).
Proof.
  intros [Ha Hr Hp Hn [Hnd Hlt] Hf Hj] Hs. unfold worker_execute in Hs.
  destruct (worker_ c) as [|n cmd|] eqn:Hw; [done| |done].
  destruct (process_command cmd (engine_ c)) as [[r| | |] e] eqn:Hpc; simplify_eq.
  pose proof (run_commands_length _ _ _ _ Hr) as Hlen. rewrite length_fmap in Hlen.
  simpl in Ha. exists (n, cmd), r.
  assert (Hfresh : n ∉ map fst finished).
  { rewrite Ha, map_app in Hnd. simpl in Hnd. apply NoDup_app in Hnd as (_ & Hd & _).
    intros Hin. apply (Hd n Hin). by left. }
  split; rewrite ?accepted_snoc, ?app_nil_r; simpl; try done.
  - by rewrite Ha, <- app_assoc.
  - rewrite map_app. simpl. by eapply run_commands_snoc.
  - intros i m cmd' Hi. apply lookup_app_Some in Hi as [Hi|[Hge Hi]].
    + rewrite lookup_insert_ne.
      * rewrite lookup_app_l by (rewrite Hlen; by eapply lookup_lt_Some). eauto.
      * intros <-. apply Hfresh. apply list_elem_of_fmap. exists (n, cmd').
        split; [done|]. by eapply list_elem_of_lookup_2.
    + apply list_lookup_singleton_Some in Hi as [Hi ?]. simplify_eq.
      rewrite lookup_insert_eq, lookup_app_r by lia.
      replace (i - length rs)%nat with 0%nat by lia. done.
  - intros m Hm. rewrite map_app, elem_of_app in Hm.
    rewrite lookup_insert_ne; [apply Hn; tauto|]. intros ->. apply Hm. right. by left.
  - intros Hj'. by specialize (Hj Hj').
Qed.

Lemma csteps_linear b tr c :
  csteps (make_concurrent b) tr c → ∃ finished rs, linear (make_engine b) tr c finished rs.
Proof.
  remember (make_concurrent b) as c0 eqn:Hc0.
  induction 1 as [c|c tr c1 l c2 _ IH Hstep].
  { subst. eexists _, _. apply linear_start. }
  destruct (IH Hc0) as (finished & rs & Hl). destruct Hstep as [? ? ? ? Hs|? ? ? ? Hs|? ? Hs|? ? Hs|? ? Hs|].
  - eexists _, _. by eapply linear_submit.
  - eexists _, _. by eapply linear_refuse.
  - eexists _, _. by eapply linear_close.
  - eexists _, _. by eapply linear_pop.
  - destruct (linear_execute _ _ _ _ _ _ Hl Hs) as (x & r & ?). eauto.
  - exists finished, rs. destruct Hl as [Ha Hr Hp Hn Hi Hf Hj].
    split; rewrite ?accepted_snoc, ?app_nil_r; simpl; done.
Qed.

(** ** The invariant along commands *)

(** Arguments that fit their C++ types. *)
Definition command_fits (cmd : EngineCommand) : Prop :=
  match cmd with
  | PlaceLimitBuyCommand p q | PlaceLimitSellCommand p q => int64 p ∧ int64 q
  | ExecuteMarketBuyCommand q | ExecuteMarketSellCommand q => int64 q
  | ModifyOrderCommand _ p q => int64 p ∧ int64 q
  | _ => True
  end.

Lemma execute_command_state {A} (g : A → CommandValue) (m : M MatchingEngine A) e r e' :
  execute_command g m e = (Ok r, e') → e' = snd (m e).
Proof.
  unfold execute_command, try_catch, bind, ret. destruct (m e) as [[] ?]; naive_solver.
Qed.

(** A postcondition on both exits is one on the state. *)
Lemma wp_state {A} (m : M MatchingEngine A) (Φ : MatchingEngine → Prop) e :
  wp m (λ _, Φ) (λ _, Φ) e → Φ (snd (m e)).
Proof. unfold wp. destruct (m e) as [[] ?]; naive_solver. Qed.

Definition inv_step (e e' : MatchingEngine) : Prop :=
  next_sequence_number_ e' ≤ next_sequence_number_ e + 1 ∧ ∃ q', engine_inv e' q'.

Lemma place_inv_step e q s p quantity :
  engine_inv e q → next_sequence_number_ e < UINT64_MAX → int64 p → int64 quantity →
  inv_step e (snd (place_limit_order s p quantity e)).
Proof.
  intros Hinv Hlt Hp Hq. apply wp_state.
  apply (wp_place_limit_order e q); [apply Hinv|done..| |].
  - intros e' Hp' Hq' Hpl. specialize (Hpl (started_synced _ _ Hinv)). split.
    + rewrite (placed_sequence _ _ _ _ Hpl). unfold started. simpl.
      pose proof (ok_sequence _ _ (inv_ok _ _ Hinv)). rewrite uwrap64_small by lia. lia.
    + eexists. eapply placed_inv; [done| | |done|done]; mlia.
  - intros _ _. split; [lia|eauto].
Qed.

Lemma process_command_inv e q cmd r e' :
  engine_inv e q → next_sequence_number_ e < UINT64_MAX → command_fits cmd →
  process_command cmd e = (Ok r, e') → inv_step e e'.
Proof.
  intros Hinv Hlt Hfit Hrun. assert (Hself : inv_step e e) by (split; [lia|eauto]).
  destruct cmd; simpl in Hrun; apply execute_command_state in Hrun; subst e'; simpl in Hfit.
  - destruct Hfit. by apply (place_inv_step e q Buy).
  - destruct Hfit. by apply (place_inv_step e q Sell).
  - destruct (execute_market_order_inv e q Buy quantity Hinv Hfit) as [Hs Hq].
    split; [unfold execute_market_buy; lia|done].
  - destruct (execute_market_order_inv e q Sell quantity Hinv Hfit) as [Hs Hq].
    split; [unfold execute_market_sell; lia|done].
  - apply wp_state. apply (wp_cancel e q); [apply Hinv|done| |].
    + intros o l1 l2 om' _ Hq Hrep _. split; [simpl; lia|].
      eexists. by apply (inv_without e q o l1 l2 om').
    + intros o w om' _ Ho _ Hd. exfalso.
      pose proof (ok_rep _ _ (inv_ok _ _ Hinv)) as Hrep. apply (rep_orders _ _ Hrep) in Ho.
      destruct (rep_queue_split _ _ Hrep o Ho) as (l1 & l2 & Hq).
      pose proof (synced_member e q o l1 l2 (inv_ok _ _ Hinv) Hq
        (member_synced e q o l1 l2 Hinv Hq)). lia.
  - apply wp_state. destruct Hfit. apply (wp_modify_order e q); try done.
    intros o l1 l2 e' _ _ _ _ Hinv' _ _ Hseq. split; [done|eauto].
  - done.
  - done.
  - split; [simpl; lia|]. exists q. destruct Hinv as [[] ? ? ? ? ?]. by split; [split|..].
Qed.

Lemma run_commands_inv cmds e q rs e' :
  engine_inv e q → next_sequence_number_ e + Z.of_nat (length cmds) ≤ UINT64_MAX →
  Forall command_fits cmds → run_commands cmds e = Some (rs, e') →
  next_sequence_number_ e' ≤ next_sequence_number_ e + Z.of_nat (length cmds) ∧
  ∃ q', engine_inv e' q'.
Proof.
  revert e q rs. induction cmds as [|c cmds IH]; intros e q rs Hinv Hlen Hfit Hrun; simpl in *.
  { simplify_eq. split; [lia|eauto]. }
  apply Forall_cons in Hfit as [Hc Hfit].
  destruct (process_command c e) as [[r'| | |] e1] eqn:Hp; try done.
  destruct (run_commands cmds e1) as [[rs' e2]|] eqn:Hr; simplify_eq.
  destruct (process_command_inv e q c r' e1 Hinv ltac:(lia) Hc Hp) as [Hs [q1 Hinv1]].
  destruct (IH e1 q1 rs' Hinv1 ltac:(lia) Hfit Hr) as [? ?]. split; [lia|done].
Qed.

Lemma engine_inv_start b : book_wf b → engine_inv (make_engine b) (mkQueues [] []).
Proof.
  intros Hb. split; simpl; [|done|by intros ? ? ?%elem_of_nil|constructor|constructor|lia].
  split; simpl; [apply om_rep_empty|constructor|done|unfold UINT64_MAX; lia..].
Qed.

(** ** Runs *)

Lemma csteps_app c tr1 c1 tr2 c2 : csteps c tr1 c1 → csteps c1 tr2 c2 → csteps c (tr1 ++ tr2) c2.
Proof.
  intros H1 H2. induction H2 as [|? tr ? l ? _ IH Hstep]; [by rewrite app_nil_r|].
  rewrite app_assoc. econstructor; [by apply IH|done].
Qed.

Lemma csteps_one c l c' : cstep c l c' → csteps c [l] c'.
Proof. intros. apply (csteps_snoc c [] c l c'); [constructor|done]. Qed.

(** The transition system as a function of the label. *)
Definition apply_label (l : label) (c : ConcurrentMatchingEngine) : option ConcurrentMatchingEngine :=
  match l with
  | Submitted n cmd =>
      match submit cmd c with
      | (Ok m, c') => if decide (m = n) then Some c' else None
      | _ => None
      end
  | Refused cmd => match submit cmd c with (Throw _, c') => Some c' | _ => None end
  | Closed => match in_queue close c with (Ok _, c') => Some c' | _ => None end
  | WorkerPop => worker_pop c
  | WorkerExecute => worker_execute c
  | Joined =>
      match is_shutdown c, worker_ c, joined c with
      | true, Finished, false =>
          Some (mkConcurrent (engine_ c) (command_queue_ c) (worker_ c) true
                  (next_promise c) (promises c))
      | _, _, _ => None
      end
  end.

Lemma apply_label_step l c c' : apply_label l c = Some c' → cstep c l c'.
Proof.
  destruct l; simpl; intros Hl.
  - destruct (submit command c) as [[m| | |] c1] eqn:Hs; try done.
    destruct (decide (m = n)); simplify_eq. by constructor.
  - destruct (submit command c) as [[m| | |] c1] eqn:Hs; simplify_eq. by econstructor.
  - destruct (in_queue close c) as [[[]| | |] c1] eqn:Hs; simplify_eq. by constructor.
  - by constructor.
  - by constructor.
  - destruct (is_shutdown c) eqn:H1, (worker_ c) eqn:H2, (joined c) eqn:H3; simplify_eq.
    rewrite <- H2. by constructor.
Qed.

Fixpoint apply_labels (tr : list label) (c : ConcurrentMatchingEngine) : option ConcurrentMatchingEngine :=
  match tr with
  | [] => Some c
  | l :: r => match apply_label l c with Some c1 => apply_labels r c1 | None => None end
  end.

Lemma apply_labels_csteps tr c c' : apply_labels tr c = Some c' → csteps c tr c'.
Proof.
  revert c. induction tr as [|l tr IH]; intros c Hl; simpl in Hl; [simplify_eq; constructor|].
  destruct (apply_label l c) as [c1|] eqn:Hs; [|done].
  eapply (csteps_app c [l] c1 tr c'); [by apply csteps_one, apply_label_step|by apply IH].
Qed.
End concurrent.
