(* ===== verification/Totality.v ===== *)
(** * Every command is answered

    With prices and market quantities whose product fits the significand of
    [long double], no command is undefined or runs out of fuel: the average of a
    market order is the only place where the engine's arithmetic could leave the
    64-bit range.  The bound on the prices is kept along a run, so a sequential
    run of commands always returns. *)
From S2P Require Import Prelude LongDouble Orders TradeStore OrderBook Levels OrderManager.
From S2P Require Import ManagerSpec MatchingEngine EngineSpec PlaceSpec Journal MatchLoop.
From S2P Require Import EngineLimit EngineModify EngineMarket BlockingQueue ConcurrentEngine.
From S2P Require Import ConcurrentSpec.

Local Open Scope Z_scope.

(** ** Bounds on what a market order trades *)

Lemma match_queue_fills acceptable quantity l :
  0 ≤ quantity → Forall order_ok l →
  Forall (λ f, fst f ∈ l ∧ 0 < snd f) (fills (match_queue acceptable quantity l)).
Proof.
  intros Hq Hl. destruct (match_queue_greedy acceptable quantity l Hq Hl)
    as [l1 l2 -> Ha -> _ _|l1 o r x -> Ha Ho Hx -> _ _];
    rewrite Forall_forall in Hl.
  - apply Forall_forall. intros [y z] (w & [= -> ->] & Hw)%list_elem_of_fmap. simpl.
    destruct (Hl w) as (_ & _ & ? & _); [|split; [|lia]]; apply elem_of_app; by left.
  - apply Forall_app. split.
    + apply Forall_forall. intros [y z] (w & [= -> ->] & Hw)%list_elem_of_fmap. simpl.
      destruct (Hl w) as (_ & _ & ? & _); [|split; [|lia]]; apply elem_of_app; by left.
    + repeat constructor; simpl; [|lia]. apply elem_of_app. right. by left.
Qed.

Lemma volume_fill_prices fs : volume (fill_prices fs) = filled_total fs.
Proof. induction fs as [|f fs IH]; simpl; [done|]. by rewrite IH. Qed.

Lemma notional_le pmax xs :
  Forall (λ x, fst x ≤ pmax ∧ 0 < snd x) xs → notional xs ≤ pmax * volume xs.
Proof. induction 1 as [|[p x] xs [??] _ IH]; simpl in *; nia. Qed.

Lemma match_levels_total quantity l :
  volume (level_fills (match_levels quantity l)) + level_unmatched (match_levels quantity l) = quantity.
Proof.
  revert quantity. induction l as [|x l IH]; intros quantity; simpl; [lia|].
  destruct (quantity >? 0); [|simpl; lia]. destruct (level_quantity x <=? quantity); simpl; [|lia].
  specialize (IH (quantity - level_quantity x)). lia.
Qed.

Lemma match_levels_fills quantity l :
  0 ≤ quantity → Forall level_ok l →
  Forall (λ x, (∃ y, y ∈ l ∧ level_price y = fst x) ∧ 0 < snd x) (level_fills (match_levels quantity l)) ∧
  volume (level_fills (match_levels quantity l)) ≤ quantity ∧
  ∀ x, x ∈ levels_left (match_levels quantity l) → ∃ y, y ∈ l ∧ level_price y = level_price x.
Proof.
  intros Hq Hl. revert quantity Hq. induction Hl as [|x l [_ Hx] _ IH]; intros quantity Hq; simpl.
  { split_and!; [constructor|lia|]. by intros ? ?%elem_of_nil. }
  destruct (quantity >? 0) eqn:Hz; zb.
  2: { simpl. split_and!; [constructor|lia|]. intros y Hy. by exists y. }
  destruct (level_quantity x <=? quantity) eqn:Hle; zb; simpl.
  - destruct (IH (quantity - level_quantity x) ltac:(lia)) as (H1 & H2 & H3). split_and!; [|lia|].
    + constructor; [simpl; split; [exists x; split; [by left|done]|lia]|].
      eapply Forall_impl; [done|]. intros z [(y & Hy & ?) ?]. split; [|done]. exists y. split; [by right|done].
    + intros z (y & Hy & ?)%H3. exists y. split; [by right|done].
  - split_and!; [|lia|].
    + constructor; [simpl; split; [exists x; split; [by left|done]|lia]|constructor].
    + intros z [->|Hz']%elem_of_cons; [exists x; split; [by left|done]|].
      exists z. split; [by right|done].
Qed.

(** ** Bounded prices *)

Lemma map_value_elem before `{!StrictTotal before} l x :
  levels_wf before l → x ∈ l → map_value (level_price x) l = level_quantity x.
Proof.
  intros Hl Hx. induction l as [|y l IH]; [by apply elem_of_nil in Hx|].
  apply levels_wf_cons in Hl as (Hy & _ & Hl). rewrite map_value_cons.
  apply elem_of_cons in Hx as [->|Hx]; [by rewrite Z.eqb_refl|].
  rewrite Forall_forall in Hy. specialize (Hy x Hx).
  rewrite (proj2 (Z.eqb_neq _ _) (st_neq _ _ _ Hy)). by apply IH.
Qed.

Lemma key_price x y : make_priority_key x = make_priority_key y → price_ticks x = price_ticks y.
Proof. unfold make_priority_key. congruence. Qed.

Section total.
Context `{LongDoubleFormat} (pmax qmax : Z).
Hypothesis Hpmax : 0 ≤ pmax.
Hypothesis Hmantissa : pmax * qmax < 2 ^ (LDBL_MANT_DIG - 1).
Hypothesis Hint64 : pmax * qmax ≤ INT64_MAX.

Definition queues_within (q : Queues) : Prop := Forall (λ o, price_ticks o ≤ pmax) (all_orders q).

Definition book_within (b : OrderBook) : Prop :=
  ∀ s x, x ∈ side_levels s b → level_price x ≤ pmax.

Definition command_within (cmd : EngineCommand) : Prop :=
  command_fits cmd ∧
  match cmd with
  | PlaceLimitBuyCommand p _ | PlaceLimitSellCommand p _ => p ≤ pmax
  | ModifyOrderCommand _ p _ => p ≤ pmax
  | ExecuteMarketBuyCommand q | ExecuteMarketSellCommand q => q ≤ qmax
  | _ => True
  end.

(** What the book shows: the queues, when only the engine writes to it, or any
    bounded levels. *)
Definition book_shown (owned : bool) (b : OrderBook) (q : Queues) : Prop :=
  if owned then synced b q else book_within b.

(** The engines a run of bounded commands goes through; [n] bounds the sequence
    counter. *)
Definition bounded_state (owned : bool) (n : Z) (e : MatchingEngine) : Prop :=
  next_sequence_number_ e ≤ n ∧
  ∃ q, engine_inv e q ∧ queues_within q ∧ book_shown owned (order_book_ e) q.

Definition bounded_engine : Z → MatchingEngine → Prop := bounded_state false.
Definition owned_engine : Z → MatchingEngine → Prop := bounded_state true.

Context {owned : bool}.

Lemma queue_within q s o : queues_within q → o ∈ queue s q → price_ticks o ≤ pmax.
Proof.
  unfold queues_within. rewrite Forall_forall. intros Hq Ho. apply Hq.
  rewrite (all_orders_queue s), elem_of_app. by left.
Qed.

Lemma queues_within_keys q q' :
  queues_within q →
  (∀ s x, x ∈ queue s q' → price_ticks x ≤ pmax ∨
     ∃ y, y ∈ queue s q ∧ make_priority_key x = make_priority_key y) →
  queues_within q'.
Proof.
  intros Hq Hk. apply Forall_forall. intros x Hx.
  assert (∃ s, x ∈ queue s q') as [s Hs]
    by (apply elem_of_all_orders in Hx as [?|?]; [by exists Buy|by exists Sell]).
  destruct (Hk s x Hs) as [?|(y & Hy & ->%key_price)]; [done|by eapply queue_within].
Qed.

Lemma synced_within b q : synced b q → queues_within q → book_within b.
Proof.
  intros [Hb Hs] Hq s x Hx. pose proof (map_value_elem (price_before s) _ _ (Hb s) Hx) as Hv.
  destruct (Hb s) as [_ Hok]. rewrite Forall_forall in Hok. destruct (Hok x Hx) as [_ Hpos].
  fold (book_depth s (level_price x) b) in Hv. rewrite Hs in Hv.
  destruct (queue_depth_elem_inv (level_price x) (queue s q)) as (o & Ho & <-); [lia|].
  by eapply queue_within.
Qed.

Lemma synced_shown b q : synced b q → queues_within q → book_shown owned b q.
Proof. unfold book_shown. intros. destruct owned; [done|by eapply synced_within]. Qed.

Lemma shown_within b q : book_shown owned b q → queues_within q → book_within b.
Proof. unfold book_shown. intros. destruct owned; [by eapply synced_within|done]. Qed.

Lemma place_spec_within o q :
  Forall order_ok (all_orders q) → order_ok o → price_ticks o ≤ pmax → queues_within q →
  queues_within (place_spec o q).
Proof.
  intros Hok Ho Hp Hq. apply (queues_within_keys q); [done|]. intros s x Hx.
  destruct (place_spec_origin o q Hok Ho s x Hx) as [?|(_ & Hk & _)]; [by right|].
  left. by rewrite (key_price _ _ Hk).
Qed.

(** ** The members *)

Lemma bounded_self n e : bounded_state owned n e → bounded_state owned (n + 1) e.
Proof. intros [Hn Hq]. split; [lia|done]. Qed.

Lemma bounded_place n e s p quantity :
  bounded_state owned n e → n < UINT64_MAX → int64 p → int64 quantity → p ≤ pmax →
  wp (place_limit_order s p quantity) (λ _, bounded_state owned (n + 1)) (λ _, bounded_state owned (n + 1)) e.
Proof.
  intros (Hn & q & Hinv & Hqw & Hbw) Hlt Hp Hq Hle. pose proof (inv_ok _ _ Hinv) as Hok.
  apply (wp_place_limit_order e q); [done..| |].
  - intros e' Hp' Hq' Hpl. specialize (Hpl (started_synced _ _ Hinv)).
    assert (Hw : queues_within (place_spec (incoming_order s p quantity e) q)).
    { apply place_spec_within; [apply Hok| |done|done].
      pose proof (ok_ids _ _ Hok). pose proof (inv_counters _ _ Hinv). unfold order_ok; simpl. mlia. }
    split.
    + rewrite (placed_sequence _ _ _ _ Hpl). unfold started. simpl.
      pose proof (ok_sequence _ _ Hok). rewrite uwrap64_small by lia. lia.
    + eexists. split_and!; [by apply (placed_inv e q s p quantity); [done|mlia|mlia|lia|]|done|].
      by apply (synced_shown _ _ (placed_synced _ _ _ _ Hpl)).
  - intros ex _. apply bounded_self. split; [done|eauto].
Qed.

Lemma bounded_cancel n e i :
  bounded_state owned n e →
  wp (MatchingEngine.cancel_order i) (λ _, bounded_state owned (n + 1)) (λ _, bounded_state owned (n + 1)) e.
Proof.
  intros (Hn & q & Hinv & Hqw & Hbw). pose proof (inv_ok _ _ Hinv) as Hok.
  apply (wp_cancel e q); [done| | |].
  - intros _. apply bounded_self. split; [done|eauto].
  - intros o l1 l2 om' _ Hq Hrep _. split; [simpl; lia|].
    assert (Hw : queues_within (set_queue (side o) (l1 ++ l2) q)).
    { apply Forall_forall. intros x Hx%(without_subset q o l1 l2 Hq).
      unfold queues_within in Hqw. rewrite Forall_forall in Hqw. auto. }
    eexists. split_and!; [by apply (inv_without e q o l1 l2 om')|done|].
    eapply synced_shown; [|done]. simpl.
    by apply (synced_without e q o l1 l2 Hok Hq), (member_synced e q o l1 l2 Hinv Hq).
  - intros o w om' _ Ho _ Hd. exfalso.
    pose proof (ok_rep _ _ Hok) as Hrep. apply (rep_orders _ _ Hrep) in Ho.
    destruct (rep_queue_split _ _ Hrep o Ho) as (l1 & l2 & Hq).
    pose proof (synced_member e q o l1 l2 Hok Hq (member_synced e q o l1 l2 Hinv Hq)). lia.
Qed.

Lemma requantified_within e q o l1 l2 quantity :
  queues_within q → queue (side o) q = l1 ++ o :: l2 →
  queues_within (set_queue (side o) (requantified o quantity (next_sequence_number_ e) l1 l2) q).
Proof.
  intros Hqw Hq. apply Forall_forall. intros x Hx.
  rewrite (all_orders_queue (side o)), queue_set_queue, queue_set_queue_other, elem_of_app in Hx.
  assert (Hmem : ∀ y, y ∈ l1 ++ o :: l2 → price_ticks y ≤ pmax)
    by (intros y Hy; rewrite <- Hq in Hy; by eapply queue_within).
  destruct Hx as [[Hx| ->]%elem_of_requantified|Hx].
  - apply Hmem. rewrite elem_of_app in Hx. rewrite elem_of_app, elem_of_cons. tauto.
  - assert (price_ticks o ≤ pmax) by (apply Hmem, elem_of_app; right; by left). by case_match.
  - by eapply queue_within.
Qed.

Lemma bounded_modify n e i p quantity :
  bounded_state owned n e → n < UINT64_MAX → int64 p → int64 quantity → p ≤ pmax →
  wp (modify_order i p quantity) (λ _, bounded_state owned (n + 1)) (λ _, bounded_state owned (n + 1)) e.
Proof.
  intros (Hn & q & Hinv & Hqw & Hbw) Hlt Hp Hq Hle. pose proof (inv_ok _ _ Hinv) as Hok.
  assert (Hself : bounded_state owned (n + 1) e) by (apply bounded_self; split; [done|eauto]).
  apply (wp_modify_order e q); [done|done|done|lia|done| |done].
  intros o l1 l2 e' Hp0 Hq0 Hid Hs Hinv' Hsync _ Hseq. split; [lia|]. eexists.
  assert (Hw : queues_within (modify_spec o p quantity (next_sequence_number_ e) l1 l2 q));
    [|split_and!; [done|done|by eapply synced_shown]].
  unfold modify_spec in *. destruct (p =? price_ticks o) eqn:Hpe; [by apply requantified_within|].
  destruct (member_ok e q o l1 l2 Hok Hs) as (? & ? & ? & ? & ?).
  pose proof (ok_ids _ _ Hok). pose proof (inv_counters _ _ Hinv).
  apply place_spec_within; [by eapply without_orders_ok| |done|].
  - unfold order_ok; simpl. mlia.
  - apply Forall_forall. intros x Hx%(without_subset q o l1 l2 Hs).
    unfold queues_within in Hqw. rewrite Forall_forall in Hqw. auto.
Qed.

(** What a market order reports. *)
Record market_report (s : OrderSide) (quantity : Z) (r : ExecutionResult) : Prop := mk_market_report {
  mr_side : result_side r = s;
  mr_trades : Forall (λ t, 0 < trade_quantity t ∧ 0 < trade_price_ticks t ≤ pmax) (result_trades r);
  mr_total : traded_total (result_trades r) = executed_quantity r;
  mr_executed : 0 ≤ executed_quantity r ≤ quantity;
  mr_requested : requested_quantity r = quantity;
  mr_remaining : result_remaining_quantity r = quantity - executed_quantity r
}.

(** A book that shows no orders is empty. *)
Lemma synced_empty b s : synced b (mkQueues [] []) → side_levels s b = [].
Proof.
  intros Hs. pose proof (synced_best b (mkQueues [] []) s Hs) as Hb.
  assert (Hq : queue s (mkQueues [] []) = []) by by destruct s. rewrite Hq in Hb.
  specialize (Hb ltac:(split; constructor) ltac:(constructor)). by destruct (side_levels s b).
Qed.

Lemma sweep_shown e q s quantity :
  engine_inv e q → book_shown owned (order_book_ e) q → queues_within q → orders_ (order_manager_ e) = [] →
  (∀ x, x ∈ levels_left (match_levels quantity (side_levels (other_side s) (order_book_ e))) →
     ∃ y, y ∈ side_levels (other_side s) (order_book_ e) ∧ level_price y = level_price x) →
  book_shown owned (set_side_levels (other_side s)
    (levels_left (match_levels quantity (side_levels (other_side s) (order_book_ e)))) (order_book_ e)) q.
Proof.
  intros Hinv Hb Hqw Ho Hleft. pose proof (shown_within _ _ Hb Hqw) as Hbw. unfold book_shown in *.
  destruct owned.
  - pose proof (proj1 (rep_orders_empty _ _ (ok_rep _ _ (inv_ok _ _ Hinv))) Ho) as ->.
    rewrite (synced_empty _ (other_side s) Hb). simpl.
    pose proof (synced_empty _ (other_side s) Hb) as He. by destruct (order_book_ e), s; simpl in *; subst.
  - intros s' x Hx. destruct (decide (s' = other_side s)) as [->|Hne].
    + rewrite side_levels_set in Hx. destruct (Hleft x Hx) as (y & Hy & <-). by eapply Hbw.
    + rewrite side_levels_set_ne in Hx by done. by eapply Hbw.
Qed.

(** A market order: what it trades is bounded, so its average fits. *)
Lemma bounded_market_levels n e q s quantity :
  bounded_state owned n e → engine_inv e q → queues_within q → book_shown owned (order_book_ e) q →
  orders_ (order_manager_ e) = [] → 0 < quantity ≤ INT64_MAX → quantity ≤ qmax →
  wp (execute_market_order s quantity)
    (λ r e', bounded_state owned n e' ∧ market_report s quantity r) (λ _ e', e' = e) e.
Proof.
  intros [Hn _] Hinv Hqw Hshown Ho Hq Hle. pose proof (inv_ok _ _ Hinv) as Hok.
  pose proof (shown_within _ _ Hshown Hqw) as Hbw.
  destruct (ok_book _ _ Hok (other_side s)) as [_ Hlv].
  destruct (match_levels_fills quantity _ ltac:(lia) Hlv) as (Hf & Hv & Hleft).
  set (m := match_levels quantity (side_levels (other_side s) (order_book_ e))) in *.
  assert (Hpr : Forall (λ x, fst x ≤ pmax ∧ 0 < snd x) (level_fills m)).
  { eapply Forall_impl; [exact Hf|]. intros x [(y & Hy & <-) ?]. split; [by eapply Hbw|done]. }
  assert (Hnot : notional (level_fills m) ≤ pmax * qmax) by (etrans; [by apply notional_le|nia]).
  apply (wp_execute_market_levels e q); [done|done|done|fold m; lia|fold m; lia| |done].
  fold m. intros r ts new Hts Hnew Hwf Hpos [Hs Hrq He Hrm _ Ht]. split.
  - split; [done|]. exists q. split_and!; [|done|].
    + assert (Hbw' : book_wf (set_side_levels (other_side s) (levels_left m) (order_book_ e))).
      { intros s'. destruct (decide (s' = other_side s)) as [->|Hne]; [by rewrite side_levels_set|].
        rewrite side_levels_set_ne by done. apply Hok. }
      destruct Hinv as [[? ? ? ? ?] ? ? ? ? ?]. split; [|by simpl; rewrite Ho|done..].
      split; [done|done|exact Hbw'|done..].
    + by apply sweep_shown.
  - destruct (record_level_fills_trades s (level_fills m) (trade_store_ e)) as (new' & Hnew' & Hf2).
    rewrite <- Hts, Hnew in Hnew'. apply app_inv_head in Hnew' as <-. rewrite <- Ht in Hf2.
    assert (Htot : traded_total (result_trades r) = volume (level_fills m)).
    { clear -Hf2. induction Hf2 as [|x t xs ts (_ & _ & Hx) _ IH]; simpl; [done|]. by rewrite IH, Hx. }
    pose proof (match_levels_total quantity (side_levels (other_side s) (order_book_ e))) as Hsum. fold m in Hsum.
    split; [done| |lia| |done|lia].
    + apply Forall_forall. intros t Hin. apply list_elem_of_lookup in Hin as [i Hi].
      destruct (Forall2_lookup_r _ _ _ _ _ Hf2 Hi) as (x & Hx & _ & -> & ->).
      apply list_elem_of_lookup_2 in Hx. rewrite Forall_forall in Hpr. rewrite Forall_forall in Hpos.
      destruct (Hpr x Hx), (Hpos x Hx). lia.
    + rewrite He. split; [|done]. clear -Hpos.
      induction Hpos as [|x xs [_ Hx] _ IH]; simpl; lia.
Qed.

Lemma bounded_market_orders n e q s quantity :
  bounded_state owned n e → engine_inv e q → queues_within q →
  orders_ (order_manager_ e) ≠ [] → 0 < quantity ≤ INT64_MAX → quantity ≤ qmax →
  wp (execute_market_order s quantity)
    (λ r e', bounded_state owned n e' ∧ market_report s quantity r) (λ _ e', e' = e) e.
Proof.
  intros [Hn _] Hinv Hqw Ho Hq Hle. pose proof (inv_ok _ _ Hinv) as Hok.
  set (m := match_queue any_price quantity (queue (other_side s) q)).
  pose proof (ok_queue _ _ (other_side s) Hok) as Hqok.
  destruct (match_queue_total any_price quantity _ ltac:(lia) Hqok) as [Hsum Hun]. fold m in Hsum, Hun.
  assert (Hfl : Forall (λ f, fst f ∈ queue (other_side s) q ∧ 0 < snd f) (fills m))
    by (apply match_queue_fills; [lia|done]).
  assert (Hnot : notional (fill_prices (fills m)) ≤ pmax * qmax).
  { etrans; [apply (notional_le pmax)|rewrite volume_fill_prices; nia].
    unfold fill_prices. rewrite Forall_map. eapply Forall_impl; [exact Hfl|].
    intros f [Hf ?]. simpl. split; [by eapply queue_within|done]. }
  apply (wp_execute_market_orders e q); [done|done|done|fold m; lia|fold m; lia|].
  fold m. intros e' r new Hinv' Hsync Hts Hnew _ Hseq [Hs Hrq He Hrm _ Ht]. split.
  - split; [lia|]. eexists.
    assert (Hw : queues_within (set_queue (other_side s) (resting m) q));
      [|split_and!; [done|done|by eapply synced_shown]].
    apply (queues_within_keys q); [done|]. intros s' x Hx. right.
    destruct (decide (s' = other_side s)) as [->|Hne].
    + rewrite queue_set_queue in Hx. by apply resting_key in Hx; [|lia|].
    + exists x. split; [|done]. by destruct s, s'.
  - destruct (record_fills_trades s None (fills m) (trade_store_ e)) as (new' & Hnew' & Hf2).
    rewrite <- Hts, Hnew in Hnew'. apply app_inv_head in Hnew' as <-. rewrite <- Ht in Hf2.
    rewrite volume_fill_prices in He. pose proof (traded_total_fills _ _ _ _ Hf2) as Htot.
    split; [done| |lia|lia|done|lia].
    apply Forall_forall. intros t Hin. apply list_elem_of_lookup in Hin as [i Hi].
    destruct (Forall2_lookup_r _ _ _ _ _ Hf2 Hi) as (f & Hf & _ & -> & -> & _).
    apply list_elem_of_lookup_2 in Hf. rewrite Forall_forall in Hfl. rewrite Forall_forall in Hqok.
    destruct (Hfl f Hf) as [Hin ?]. destruct (Hqok _ Hin) as (_ & ? & _).
    split; [done|]. split; [lia|by eapply queue_within].
Qed.

Lemma bounded_market n e s quantity :
  bounded_state owned n e → int64 quantity → quantity ≤ qmax →
  wp (execute_market_order s quantity)
    (λ r e', bounded_state owned n e' ∧ 0 < quantity ∧ market_report s quantity r) (λ _ e', e' = e) e.
Proof.
  intros Hb Hq Hle. destruct (decide (0 < quantity)) as [Hpos|Hneg].
  2: { unfold execute_market_order, validate_market_order. wp_step.
    apply wp_require_positive; [lia|done]. }
  pose proof Hb as (_ & q & Hinv & Hqw & Hbw).
  assert (Hwp : wp (execute_market_order s quantity)
    (λ r e', bounded_state owned n e' ∧ market_report s quantity r) (λ _ e', e' = e) e).
  { destruct (orders_ (order_manager_ e)) as [|o os] eqn:Ho.
    - apply (bounded_market_levels n e q); [done..|mlia|done].
    - apply (bounded_market_orders n e q); [done..|by rewrite Ho|mlia|done]. }
  eapply wp_mono; [exact Hwp| |done]. intros r e' []. by split_and!.
Qed.

Lemma bounded_market_state n e s quantity :
  bounded_state owned n e → int64 quantity → quantity ≤ qmax →
  wp (execute_market_order s quantity) (λ _, bounded_state owned (n + 1)) (λ _, bounded_state owned (n + 1)) e.
Proof.
  intros Hb Hq Hle. eapply wp_mono; [by apply (bounded_market n)| |].
  - intros r e' (Hb' & _). by apply bounded_self.
  - intros ex e' ->. by apply bounded_self.
Qed.

(** ** Commands *)

Lemma execute_command_total {A} (g : A → CommandValue) (m : M MatchingEngine A) (Φ : MatchingEngine → Prop) e :
  wp m (λ _, Φ) (λ _, Φ) e → ∃ r e', execute_command g m e = (Ok r, e') ∧ Φ e'.
Proof.
  unfold wp, execute_command, try_catch, bind, ret. destruct (m e) as [[] ?]; [eauto|eauto|done..].
Qed.

Lemma process_command_total n e cmd :
  bounded_state owned n e → n < UINT64_MAX → command_within cmd →
  ∃ r e', process_command cmd e = (Ok r, e') ∧ bounded_state owned (n + 1) e'.
Proof.
  intros Hb Hlt [Hfit Hw]. destruct cmd; simpl in *; apply execute_command_total.
  - destruct Hfit. by apply (bounded_place n e Buy).
  - destruct Hfit. by apply (bounded_place n e Sell).
  - by apply bounded_market_state.
  - by apply bounded_market_state.
  - by apply bounded_cancel.
  - destruct Hfit. by apply bounded_modify.
  - by apply wp_gets, bounded_self.
  - by apply wp_gets, bounded_self.
  - apply wp_modify. destruct Hb as (Hn & q & Hinv & Hqw & Hbw). split; [simpl; lia|].
    exists q. split_and!; [|done|done]. destruct Hinv as [[] ? ? ? ? ?]. by split; [split|..].
Qed.

Lemma run_commands_app cmds1 cmds2 e rs e' :
  run_commands (cmds1 ++ cmds2) e = Some (rs, e') →
  ∃ rs1 rs2 e1, run_commands cmds1 e = Some (rs1, e1) ∧
    run_commands cmds2 e1 = Some (rs2, e') ∧ rs = rs1 ++ rs2.
Proof.
  revert e rs. induction cmds1 as [|cmd cmds1 IH]; intros e rs Hr; simpl in *; [by exists [], rs, e|].
  destruct (process_command cmd e) as [[r| | |] e1]; try done.
  destruct (run_commands (cmds1 ++ cmds2) e1) as [[rs' e2]|] eqn:Hrest; simplify_eq.
  destruct (IH e1 rs' Hrest) as (rs1 & rs2 & e3 & -> & ? & ->). by exists (r :: rs1), rs2, e3.
Qed.

(** A run of bounded commands returns an answer for each of them. *)
Lemma run_commands_total n e cmds :
  bounded_state owned n e → n + Z.of_nat (length cmds) ≤ UINT64_MAX → Forall command_within cmds →
  ∃ rs e', run_commands cmds e = Some (rs, e') ∧ length rs = length cmds ∧
    bounded_state owned (n + Z.of_nat (length cmds)) e'.
Proof.
  intros Hb Hlen Hw. revert n e Hb Hlen. induction Hw as [|cmd cmds Hc Hw IH]; intros n e Hb Hlen.
  { exists [], e. split_and!; [done|done|]. simpl. by rewrite Z.add_0_r. }
  simpl length in *. destruct (process_command_total n e cmd Hb ltac:(lia) Hc) as (r & e1 & Hr & Hb1).
  destruct (IH (n + 1) e1 Hb1 ltac:(lia)) as (rs & e2 & Hrs & Hl & Hb2).
  exists (r :: rs), e2. simpl. rewrite Hr, Hrs. split_and!; [done|by rewrite Hl|].
  by replace (n + Z.of_nat (S (length cmds))) with (n + 1 + Z.of_nat (length cmds)) by lia.
Qed.

End total.

Lemma bounded_start `{LongDoubleFormat} pmax b :
  book_wf b → book_within pmax b → bounded_engine pmax 1 (make_engine b).
Proof.
  intros Hb Hw. split; [simpl; lia|]. exists (mkQueues [] []).
  split_and!; [by apply engine_inv_start|constructor|done].
Qed.

Lemma owned_start `{LongDoubleFormat} pmax : owned_engine pmax 1 (make_engine empty_book).
Proof.
  split; [simpl; lia|]. exists (mkQueues [] []).
  split_and!; [by apply engine_inv_start, book_wf_empty|constructor|].
  split; [apply book_wf_empty|]. by intros [].
Qed.
