(* ===== verification/FairExecution.v ===== *)
(** * Market orders and the quote they meet

    Whatever the shared book shows, a market order trades
    at the best price of the other side or behind it, takes no more than that
    side shows, and leaves a best price that is no better, while its own side
    does not move. *)
From S2P Require Import Prelude LongDouble Orders TradeStore OrderBook Levels OrderManager ManagerSpec.
From S2P Require Import MatchingEngine EngineSpec EngineMarket Totality BookTheorems.

Local Open Scope Z_scope.

(** The orders of a queue, summed. *)
Definition queue_volume (l : list LimitOrder) : Z := foldr (λ o acc, remaining_quantity o + acc) 0 l.

Lemma queue_volume_nonneg l : Forall order_ok l → 0 ≤ queue_volume l.
Proof. induction 1 as [|o l (_ & _ & ? & _) _ IH]; simpl; lia. Qed.

Lemma filled_total_le acceptable quantity l :
  0 ≤ quantity → Forall order_ok l → filled_total (fills (match_queue acceptable quantity l)) ≤ queue_volume l.
Proof.
  intros Hq Hl. revert quantity Hq. induction Hl as [|o l (_ & _ & Ho & _) Hl IH]; intros quantity Hq; simpl; [lia|].
  pose proof (queue_volume_nonneg l Hl). repeat case_match; zb; simpl; try lia.
  specialize (IH (quantity - remaining_quantity o) ltac:(lia)). lia.
Qed.

Lemma resting_volume_le acceptable quantity l :
  0 ≤ quantity → Forall order_ok l → queue_volume (resting (match_queue acceptable quantity l)) ≤ queue_volume l.
Proof.
  intros Hq Hl. revert quantity Hq. induction Hl as [|o l (_ & _ & Ho & _) Hl IH]; intros quantity Hq; simpl; [lia|].
  repeat case_match; zb; simpl; try lia.
  specialize (IH (quantity - remaining_quantity o) ltac:(lia)). lia.
Qed.

(** Taking the orders at one price out of a queue. *)
Lemma queue_volume_split p l :
  queue_volume l = queue_depth p l + queue_volume (filter (λ o, price_ticks o ≠ p) l).
Proof.
  induction l as [|o l IH]; simpl; [done|].
  destruct (price_ticks o =? p) eqn:He; zb.
  - rewrite filter_cons_False by auto. lia.
  - rewrite filter_cons_True by auto. simpl. lia.
Qed.

Lemma queue_depth_filter p p' l :
  queue_depth p' (filter (λ o, price_ticks o ≠ p) l) = if decide (p' = p) then 0 else queue_depth p' l.
Proof.
  induction l as [|o l IH]; simpl; [by case_match|].
  destruct (decide (price_ticks o = p)) as [Hp|Hp].
  - rewrite filter_cons_False by auto. rewrite IH. case_match; [done|]. rewrite (proj2 (Z.eqb_neq _ _)) by lia. lia.
  - rewrite filter_cons_True by auto. simpl. rewrite IH.
    case_match; [rewrite (proj2 (Z.eqb_neq _ _)) by lia; lia|done].
Qed.

(** Levels that show a queue show all of it. *)
Lemma shown_volume before `{!StrictTotal before} levels l :
  levels_wf before levels → Forall order_ok l → (∀ p, map_value p levels = queue_depth p l) →
  side_volume levels = queue_volume l.
Proof.
  revert l. induction levels as [|x levels IH]; intros l Hwf Hl Hs; simpl.
  { destruct l as [|o l]; [done|]. pose proof (queue_depth_elem o (o :: l) Hl ltac:(by left)) as Ho.
    rewrite <- Hs in Ho. apply Forall_cons in Hl as [(_ & _ & ? & _) _]. simpl in Ho. lia. }
  rewrite (queue_volume_split (level_price x)). f_equal.
  - specialize (Hs (level_price x)). simpl in Hs. by rewrite Z.eqb_refl in Hs.
  - apply (levels_wf_cons before) in Hwf as (Hhead & _ & Hwf').
    apply IH; [done| |].
    { apply Forall_forall. intros o [_ Ho]%list_elem_of_filter. rewrite Forall_forall in Hl. by apply Hl. }
    intros p. rewrite queue_depth_filter.
    specialize (Hs p). simpl in Hs. destruct (decide (p = level_price x)) as [->|Hne].
    + apply map_value_absent. eapply Forall_impl; [exact Hhead|]. intros y Hy Heq. simpl in Hy.
      unfold level_before in Hy. rewrite Heq in Hy. by rewrite st_irrefl in Hy.
    + by rewrite (proj2 (Z.eqb_neq _ _)) in Hs by lia.
Qed.

(** No order of a queue has a better price than its head. *)
Lemma queue_head_best s o l x :
  queue_ok s (o :: l) → x ∈ o :: l → price_before s (price_ticks x) (price_ticks o) = false.
Proof.
  intros [_ Hsort] Hx. apply elem_of_cons in Hx as [->|Hx]; [by rewrite st_irrefl|].
  simpl in Hsort. apply StronglySorted_inv in Hsort as [_ Hsort].
  rewrite Forall_map, Forall_forall in Hsort. by apply side_compare_price, Hsort.
Qed.

(** No level of a side has a better price than its head. *)
Lemma level_head_best s levels y l :
  levels_wf (price_before s) levels → y ∈ levels → head levels = Some l →
  price_before s (level_price y) (level_price l) = false.
Proof.
  intros Hwf Hy Hl. destruct levels as [|x r]; simplify_eq/=.
  apply (levels_wf_cons (price_before s)) in Hwf as (Hhead & _ & _).
  apply elem_of_cons in Hy as [->|Hy]; [by rewrite st_irrefl|].
  rewrite Forall_forall in Hhead. specialize (Hhead y Hy). unfold level_before in Hhead.
  destruct (price_before s (level_price y) (level_price l)) eqn:Hb; [|done].
  pose proof (st_trans _ _ _ Hhead Hb) as Hxx. by rewrite st_irrefl in Hxx.
Qed.

(** A sweep takes no more than there is, and leaves no more. *)
Lemma match_levels_volume quantity l :
  0 ≤ quantity → Forall level_ok l →
  volume (level_fills (match_levels quantity l)) ≤ side_volume l ∧
  side_volume (levels_left (match_levels quantity l)) ≤ side_volume l.
Proof.
  intros Hq Hl. revert quantity Hq. induction Hl as [|x l [_ Hx] Hl IH]; intros quantity Hq; simpl; [lia|].
  pose proof (side_volume_nonneg _ Hl). repeat case_match; zb; simpl; try lia.
  destruct (IH (quantity - level_quantity x) ltac:(lia)). lia.
Qed.

(** What an order of side [s] did, between the books [b] and [b']. *)
Record fair (s : OrderSide) (b b' : OrderBook) (r : ExecutionResult) : Prop := mk_fair {
  fr_price t : t ∈ result_trades r → ∃ l, head (side_levels (other_side s) b) = Some l ∧
    price_before (other_side s) (trade_price_ticks t) (level_price l) = false;
  fr_depth : executed_quantity r ≤ side_volume (side_levels (other_side s) b);
  fr_own : level_price <$> head (side_levels s b') = level_price <$> head (side_levels s b);
  fr_other l l' : head (side_levels (other_side s) b) = Some l → head (side_levels (other_side s) b') = Some l' →
    price_before (other_side s) (level_price l') (level_price l) = false;
  fr_volume s' : side_volume (side_levels s' b') ≤ side_volume (side_levels s' b)
}.

Section fair.
Context `{LongDoubleFormat} (pmax qmax : Z).
Hypothesis Hpmax : 0 ≤ pmax.
Hypothesis Hmantissa : pmax * qmax < 2 ^ (LDBL_MANT_DIG - 1).
Hypothesis Hint64 : pmax * qmax ≤ INT64_MAX.

Lemma fair_orders e q s quantity :
  engine_inv e q → queues_within pmax q → synced (order_book_ e) q →
  orders_ (order_manager_ e) ≠ [] → 0 < quantity ≤ INT64_MAX → quantity ≤ qmax →
  wp (execute_market_order s quantity) (λ r e', fair s (order_book_ e) (order_book_ e') r) (λ _ _, True) e.
Proof.
  intros Hinv Hqw Hsync Ho Hq Hle. pose proof (inv_ok _ _ Hinv) as Hok.
  pose proof (ok_rep _ _ Hok) as Hrep. set (os := other_side s).
  set (m := match_queue any_price quantity (queue os q)).
  pose proof (ok_queue _ _ os Hok) as Hqok. pose proof (rep_queue _ _ Hrep os) as Hqs.
  destruct (match_queue_total any_price quantity _ ltac:(lia) Hqok) as [Hsum Hun]. fold m in Hsum, Hun.
  assert (Hfl : Forall (λ f, fst f ∈ queue os q ∧ 0 < snd f) (fills m))
    by (apply match_queue_fills; [lia|done]).
  assert (Hnot : notional (fill_prices (fills m)) ≤ pmax * qmax).
  { etrans; [apply (notional_le pmax)|rewrite volume_fill_prices; nia].
    unfold fill_prices. rewrite Forall_map. eapply Forall_impl; [exact Hfl|].
    intros f [Hf ?]. simpl. split; [by eapply queue_within|done]. }
  assert (Hbest : ∀ x l, x ∈ queue os q → head (side_levels os (order_book_ e)) = Some l →
    price_before os (price_ticks x) (level_price l) = false).
  { intros x l Hx Hl. pose proof (synced_best _ _ os Hsync Hqs Hqok) as Hb. rewrite Hl in Hb.
    destruct (queue os q) as [|o r] eqn:Heq; simplify_eq/=. rewrite Hb. by eapply queue_head_best. }
  apply (wp_execute_market_orders e q); [done|done|done|fold os m; lia|fold os m; lia|].
  fold os m. intros e' r new Hinv' Hsync' Hts Hnew _ Hseq [Hs _ He _ _ Ht].
  pose proof (inv_ok _ _ Hinv') as Hok'. split.
  - intros t Hin. destruct (record_fills_trades s None (fills m) (trade_store_ e)) as (new' & Hnew' & Hf2).
    rewrite <- Hts, Hnew in Hnew'. apply app_inv_head in Hnew' as <-. rewrite <- Ht in Hf2.
    apply list_elem_of_lookup in Hin as [i Hi].
    destruct (Forall2_lookup_r _ _ _ _ _ Hf2 Hi) as (f & Hf & _ & -> & _).
    apply list_elem_of_lookup_2 in Hf. rewrite Forall_forall in Hfl. destruct (Hfl f Hf) as [Hin _].
    pose proof (synced_best _ _ os Hsync Hqs Hqok) as Hb.
    destruct (head (side_levels os (order_book_ e))) as [l|] eqn:Hl.
    + exists l. split; [done|]. by apply Hbest.
    + destruct (queue os q); [by apply elem_of_nil in Hin|done].
  - destruct Hsync as [Hbw Hd]. rewrite (shown_volume (price_before os) _ (queue os q)); [|apply Hbw|done|apply Hd].
    rewrite He, volume_fill_prices. apply filled_total_le; [lia|done].
  - assert (Hown : queue s (set_queue os (resting m) q) = queue s q) by (unfold os; by destruct s).
    pose proof (synced_best _ _ s Hsync (rep_queue _ _ Hrep s) (ok_queue _ _ s Hok)) as H1.
    pose proof (synced_best _ _ s Hsync' (rep_queue _ _ (ok_rep _ _ Hok') s) (ok_queue _ _ s Hok')) as H2.
    rewrite Hown in H2. by transitivity (price_ticks <$> head (queue s q)).
  - intros l l' Hl Hl'.
    pose proof (synced_best _ _ os Hsync' (rep_queue _ _ (ok_rep _ _ Hok') os) (ok_queue _ _ os Hok')) as H2.
    fold os in Hl'. rewrite queue_set_queue, Hl' in H2. destruct (resting m) as [|x rest] eqn:Hrest; simplify_eq/=.
    destruct (resting_key any_price quantity (queue os q) x) as (y & Hy & Hkey); [lia|done|fold m; rewrite Hrest; by left|].
    assert (Hp : price_ticks x = price_ticks y) by (unfold make_priority_key in Hkey; congruence).
    rewrite H2, Hp. by apply Hbest.
  - intros s'. destruct Hsync as [Hbw Hd], Hsync' as [Hbw' Hd'].
    rewrite (shown_volume (price_before s') (side_levels s' (order_book_ e)) (queue s' q));
      [|apply Hbw|by apply (ok_queue _ _ s' Hok)|apply Hd].
    rewrite (shown_volume (price_before s') _ (queue s' (set_queue os (resting m) q)));
      [|apply Hbw'|by apply (ok_queue _ _ s' Hok')|apply Hd'].
    destruct (decide (s' = os)) as [->|Hne]; [|by destruct s, s'].
    rewrite queue_set_queue. apply resting_volume_le; [lia|done].
Qed.

(** Without orders the levels of the book are swept, whoever put them there. *)
Lemma fair_levels e q s quantity :
  engine_ok e q → book_within pmax (order_book_ e) →
  orders_ (order_manager_ e) = [] → 0 < quantity ≤ INT64_MAX → quantity ≤ qmax →
  wp (execute_market_order s quantity) (λ r e', fair s (order_book_ e) (order_book_ e') r) (λ _ _, True) e.
Proof.
  intros Hok Hbw Ho Hq Hle. set (os := other_side s). pose proof (ok_book _ _ Hok os) as Hwf0.
  pose proof (proj2 Hwf0) as Hlv.
  destruct (match_levels_fills quantity _ ltac:(lia) Hlv) as (Hf & Hv & Hleft).
  destruct (match_levels_volume quantity _ ltac:(lia) Hlv) as [Hvol Hvol'].
  set (m := match_levels quantity (side_levels os (order_book_ e))) in *.
  assert (Hpr : Forall (λ x, fst x ≤ pmax ∧ 0 < snd x) (level_fills m)).
  { eapply Forall_impl; [exact Hf|]. intros x [(y & Hy & <-) ?]. split; [by eapply Hbw|done]. }
  assert (Hnot : notional (level_fills m) ≤ pmax * qmax) by (etrans; [by apply notional_le|nia]).
  assert (Hbest : ∀ y l, y ∈ side_levels os (order_book_ e) → head (side_levels os (order_book_ e)) = Some l →
    price_before os (level_price y) (level_price l) = false) by (intros y l; by apply (level_head_best os)).
  apply (wp_execute_market_levels e q); [done|done|done|fold os m; lia|fold os m; lia| |done].
  fold os m. intros r ts new Hts Hnew Hwf Hpos [Hs _ He _ _ Ht]. split; simpl.
  - intros t Hin. destruct (record_level_fills_trades s (level_fills m) (trade_store_ e)) as (new' & Hnew' & Hf2).
    rewrite <- Hts, Hnew in Hnew'. apply app_inv_head in Hnew' as <-. rewrite <- Ht in Hf2.
    apply list_elem_of_lookup in Hin as [i Hi].
    destruct (Forall2_lookup_r _ _ _ _ _ Hf2 Hi) as (x & Hx & _ & -> & _).
    apply list_elem_of_lookup_2 in Hx. rewrite Forall_forall in Hf. destruct (Hf x Hx) as [(y & Hy & <-) _].
    fold os. destruct (head (side_levels os (order_book_ e))) as [l|] eqn:Hl.
    + exists l. split; [done|]. by apply Hbest.
    + destruct (side_levels os (order_book_ e)); [by apply elem_of_nil in Hy|done].
  - by rewrite He.
  - rewrite side_levels_set_ne by (unfold os; by destruct s). done.
  - fold os. rewrite side_levels_set. intros l l' Hl Hl'.
    destruct (Hleft l') as (y & Hy & <-); [destruct (levels_left m); simplify_eq/=; by left|]. by apply Hbest.
  - intros s'. destruct (decide (s' = os)) as [->|Hne]; [by rewrite side_levels_set|]. by rewrite side_levels_set_ne.
Qed.

(** A market order is fair whatever the shared book shows: with active orders it
    shows them alone. *)
Lemma market_fair n e s quantity r e' :
  bounded_engine pmax n e → int64 quantity → quantity ≤ qmax →
  execute_market_order s quantity e = (Ok r, e') → fair s (order_book_ e) (order_book_ e') r.
Proof.
  intros Hb Hq Hle Hrun. pose proof Hb as (_ & q & Hinv & Hqw & Hshown). simpl in Hshown.
  assert (Hpos : 0 < quantity).
  { destruct (decide (0 < quantity)) as [|Hn]; [done|]. unfold execute_market_order, validate_market_order,
      require_positive in Hrun. by rewrite (proj2 (Z.leb_le quantity 0)) in Hrun by lia. }
  destruct (decide (orders_ (order_manager_ e) = [])) as [Ho|Ho].
  - pose proof (fair_levels e q s quantity (inv_ok _ _ Hinv) Hshown Ho ltac:(mlia) Hle) as Hf.
    unfold wp in Hf. by rewrite Hrun in Hf.
  - pose proof (fair_orders e q s quantity Hinv Hqw (inv_synced _ _ Hinv Ho) Ho ltac:(mlia) Hle) as Hf.
    unfold wp in Hf. by rewrite Hrun in Hf.
Qed.
End fair.
