(* ===== verification/ImpactSpec.v ===== *)
(** * What the impact of an execution is

    The signs of differences and products of numbers are those of the exact
    ones, and halves of integers are exact; with them the figures of
    [MarketImpactCalculator] for an execution that treats the quote fairly. *)
From S2P Require Import Prelude LongDouble Rounding RelativeError Orders TradeStore OrderBook Levels.
From S2P Require Import ManagerSpec MatchingEngine EngineSpec Totality BookTheorems FairExecution MarketImpact.
From Stdlib Require Import QArith Qpower Lqa.

Local Open Scope Z_scope.

(** ** Signs *)

Lemma at_least_val x a : at_least x a → (inject_Z a <= val x)%Q.
Proof.
  unfold at_least, val. pose proof (Qpower2_pos (expo x)) as Hp. destruct (0 <=? expo x) eqn:He; zb; intros Ha.
  - rewrite Qpower2_Z, <- inject_Z_mult by done. by rewrite <- Zle_Qle.
  - rewrite Zle_Qle, inject_Z_mult, <- Qpower2_Z, Qpower_opp in Ha by lia.
    set (p := Qpower 2 (expo x)) in *. assert (Hi : (p * / p == 1)%Q) by (field; intros Hz; rewrite Hz in Hp; lra).
    assert (Hm : (inject_Z a * / p * p <= inject_Z (mant x) * p)%Q) by (apply Qmult_le_compat_r; lra).
    assert (Hq : (inject_Z a * / p * p == inject_Z a * (p * / p))%Q) by ring. rewrite Hq, Hi in Hm. lra.
Qed.

Lemma val_neg x : (val (ld_neg x) == - val x)%Q.
Proof. unfold val, ld_neg. simpl. rewrite inject_Z_opp. ring. Qed.

Lemma at_most_val x a : at_most x a → (val x <= inject_Z a)%Q.
Proof.
  intros Hx%at_least_neg%at_least_val. rewrite val_neg, inject_Z_opp in Hx. lra.
Qed.

Section signs.
Context `{LongDoubleFormat}.
Local Abbreviation P := LDBL_MANT_DIG.

Lemma round_scaled_sgn n e : Z.sgn (mant (round_scaled P n e)) = Z.sgn n.
Proof.
  unfold round_scaled. destruct (0 <=? e) eqn:He; zb; rewrite round_ratio_sgn; auto using mant_dig_pos with lia.
Qed.

Lemma ld_mul_nonneg x y : 0 ≤ mant x * mant y → 0 ≤ mant (ld_mul x y).
Proof. intros Hm. pose proof (round_scaled_sgn (mant x * mant y) (expo x + expo y)). unfold ld_mul. lia. Qed.

Lemma ld_sub_sign x y :
  ((val y <= val x)%Q → 0 ≤ mant (ld_sub x y)) ∧ ((val x <= val y)%Q → mant (ld_sub x y) ≤ 0).
Proof.
  unfold ld_sub, ld_add, ld_neg. simpl. set (e := Z.min (expo x) (expo y)).
  set (n := mant x * 2 ^ (expo x - e) + - mant y * 2 ^ (expo y - e)).
  assert (Hv : (val (mkBinary n e) == val x - val y)%Q).
  { rewrite <- (val_shift (mant x) (expo x) e), <- (val_shift (mant y) (expo y) e) by lia.
    unfold val, n; simpl. rewrite inject_Z_plus, !inject_Z_mult, inject_Z_opp. ring. }
  pose proof (round_scaled_sgn n e) as Hs. pose proof (Qpower2_pos e) as Hp. unfold val at 1 in Hv. simpl in Hv.
  split; intros Hle.
  - assert (0 ≤ n); [|lia]. apply (val_nonneg_inv (mkBinary n e)). unfold val. simpl. rewrite Hv. lra.
  - assert (0 ≤ - n); [|lia]. apply (val_nonneg_inv (mkBinary (- n) e)). unfold val. simpl.
    rewrite inject_Z_opp. lra.
Qed.

Lemma denotes_two : denotes (of_int64 2) 2.
Proof.
  apply denotes_of_int64. pose proof (Z.pow_le_mono_r 2 53 P ltac:(lia) LDBL_MANT_DIG_min). simpl in *. lia.
Qed.

(** Halving an integer is exact. *)
Lemma half_exact x n :
  denotes x n → Z.abs n < 2 ^ P → (val (ld_div x (of_int64 2)) == inject_Z n / 2)%Q.
Proof.
  intros Hx Hn. pose proof LDBL_MANT_DIG_min as HP.
  destruct (ld_div_ratio x (of_int64 2) n 2 Hx denotes_two ltac:(lia)) as (n' & d & -> & Hd & Heq).
  unfold round_ratio. destruct (n' =? 0) eqn:H0; zb.
  { assert (n = 0) as -> by nia. unfold val. simpl. field. }
  assert (Hlog : ratio_log2 n' d < P - 1).
  { apply ratio_log2_lt; [done|done|lia|].
    assert (2 ^ P = 2 * 2 ^ (P - 1)) by (rewrite <- Z.pow_succ_r by lia; f_equal; lia). nia. }
  set (e := ratio_log2 n' d - P + 1) in *. rewrite (proj2 (Z.leb_gt 0 e)) by lia.
  assert (Hsplit : 2 ^ (- e) = 2 * 2 ^ (- e - 1)) by (rewrite <- Z.pow_succ_r by lia; f_equal; lia).
  replace (n' * 2 ^ (- e)) with (n * 2 ^ (- e - 1) * d) by (rewrite Hsplit; nia).
  rewrite round_half_even_exact by done. unfold val. simpl. rewrite inject_Z_mult, <- Qpower2_Z by lia.
  rewrite <- Qmult_assoc, <- Qpower_plus by done. replace (- e - 1 + e) with (-1) by lia. simpl. field.
Qed.
End signs.

(** ** Quotes *)

Definition quote_of (b : OrderBook) : MarketQuote :=
  mkQuote (level_price <$> best_bid b) (level_price <$> best_ask b)
    (Z.min INT64_MAX (side_volume (bids b))) (Z.min INT64_MAX (side_volume (asks b))).

Lemma wp_capture_quote {S} b (Q : MarketQuote → S → Prop) E s :
  book_wf b → Q (quote_of b) s → wp (capture_quote b) Q E s.
Proof.
  intros Hwf HQ. destruct (Hwf Buy) as [_ Hb], (Hwf Sell) as [_ Ha]. simpl in Hb, Ha.
  unfold capture_quote. do 2 wp_step. unfold bid_depth. do 2 wp_step. apply wp_depth_or_max; [done|].
  do 2 wp_step. unfold ask_depth. do 2 wp_step. apply wp_depth_or_max; [done|]. by apply wp_ret.
Qed.

(** The best price a quote shows on a side. *)
Definition quote_best (s : OrderSide) (q : MarketQuote) : option Z :=
  if is_buy s then best_bid_ticks q else best_ask_ticks q.

Definition quote_depth (s : OrderSide) (q : MarketQuote) : Z :=
  if is_buy s then quote_bid_depth q else quote_ask_depth q.

Lemma quote_best_of s b : quote_best s (quote_of b) = level_price <$> head (side_levels s b).
Proof. by destruct s. Qed.

Definition traded_notional (l : list Trade) : Z :=
  foldr (λ t acc, trade_price_ticks t * trade_quantity t + acc) 0 l.

Section impact.
Context `{LongDoubleFormat}.
Local Abbreviation P := LDBL_MANT_DIG.

Lemma traded_notional_bounds lo hi l :
  Forall (λ t, 0 < trade_quantity t ∧ lo ≤ trade_price_ticks t ≤ hi) l →
  lo * traded_total l ≤ traded_notional l ≤ hi * traded_total l ∧ 0 ≤ traded_total l.
Proof. induction 1 as [|t l [? ?] _ IH]; simpl; nia. Qed.

(** The loop over the trades adds up their notional and their quantities. *)
Lemma wp_impact_trades {S} pmax executed notional nz filled ts (Q : binary * Z → S → Prop) E s :
  Forall (λ t, 0 < trade_quantity t ∧ 0 < trade_price_ticks t ≤ pmax) ts →
  denotes notional nz → 0 ≤ nz → 0 ≤ filled → filled + traded_total ts = executed → executed ≤ INT64_MAX →
  nz + pmax * traded_total ts < 2 ^ P → traded_total ts < 2 ^ P → pmax < 2 ^ P →
  (∀ n, denotes n (nz + traded_notional ts) → Q (n, executed) s) →
  wp (impact_trades executed notional filled ts) Q E s.
Proof.
  intros Hts. revert notional nz filled. induction Hts as [|t ts [Hq Hp] Hts IH];
    intros notional nz filled Hn Hnz Hf Hsum Hmax Hfit Htot Hpm HQ; simpl in *.
  { apply wp_ret. assert (filled = executed) as -> by lia. apply HQ. by rewrite Z.add_0_r. }
  destruct (traded_notional_bounds 0 pmax ts) as [Hb Hb0].
  { eapply Forall_impl; [exact Hts|]. simpl. lia. }
  wp_step. rewrite (proj2 (Z.leb_gt (trade_price_ticks t) 0)), (proj2 (Z.leb_gt (trade_quantity t) 0)) by lia.
  simpl orb. cbn iota. wp_step. unfold sub64. apply wp_checked64; [mlia|]. apply wp_ret.
  destruct (trade_quantity t >? executed - filled) eqn:Hgt; zb; [lia|].
  wp_step. unfold add64. apply wp_checked64; [mlia|].
  apply (IH _ (nz + trade_price_ticks t * trade_quantity t)); [|nia|lia|lia|lia|nia|lia|lia|].
  - apply denotes_add; [done|apply denotes_mul; [apply denotes_of_int64; lia..|nia]|nia].
  - intros n Hden. apply HQ. by rewrite Z.add_assoc.
Qed.

(** The analysis of what a market order reports. *)
Lemma wp_impact_analyze {S} pmax s quantity r before after (Q : MarketImpactSummary → S → Prop) E st :
  market_report pmax s quantity r → 0 < quantity ≤ INT64_MAX →
  0 ≤ pmax → pmax * quantity < 2 ^ P → pmax < 2 ^ P → quantity < 2 ^ P →
  (∀ n, denotes n (traded_notional (result_trades r)) →
     Q (impact_summary r before after n (executed_quantity r)) st) →
  wp (impact_analyze r before after) Q E st.
Proof.
  intros [Hs Hts Htot Hex Hrq Hrm] Hq Hp Hfit Hpm Hqm HQ. unfold impact_analyze, quantities_invalid.
  rewrite Hrq, Hrm. wp_step.
  assert (Hchk : (quantity <? 0) || (executed_quantity r <? 0) || (quantity - executed_quantity r <? 0) ||
    (executed_quantity r >? quantity) = false).
  { rewrite !orb_false_iff, Z.gtb_ltb, !Z.ltb_ge. lia. }
  rewrite Hchk. wp_step. unfold sub64. apply wp_checked64; [mlia|]. apply wp_ret.
  rewrite Z.eqb_refl. simpl negb. cbn iota. wp_step.
  apply (wp_impact_trades pmax _ _ 0 0); [done|done|done|done|lia|lia|nia|lia|lia|].
  intros n Hn. rewrite Z.eqb_refl. simpl negb. cbn iota. apply wp_ret, HQ, Hn.
Qed.
(** ** The figures *)

(** [u] is no better than [v] for an order of side [s]. *)
Definition no_better (s : OrderSide) (u v : Q) : Prop :=
  if is_buy s then (v <= u)%Q else (u <= v)%Q.

Lemma directed_sub s c u v :
  Z.sgn (mant c) = (if is_buy s then 1 else -1) → no_better s (val u) (val v) →
  0 ≤ mant (ld_mul c (ld_sub u v)).
Proof.
  intros Hc Hb. apply ld_mul_nonneg. destruct (ld_sub_sign u v) as [H1 H2].
  unfold no_better in Hb. destruct (is_buy s); [specialize (H1 Hb)|specialize (H2 Hb)]; nia.
Qed.

Lemma of_int64_sgn n : Z.sgn (mant (of_int64 n)) = Z.sgn n.
Proof. apply round_ratio_sgn; [apply mant_dig_pos|done]. Qed.

Lemma double_direction c : Z.sgn (mant (ld_mul (of_int64 2) c)) = Z.sgn (mant c).
Proof. unfold ld_mul. rewrite round_scaled_sgn, Z.sgn_mul, of_int64_sgn. lia. Qed.

(** A rounded integer is an integer, and not below the representable ones. *)
Lemma of_int64_above n f :
  0 < n → f ≤ n → Z.abs f < 2 ^ P → ∃ m, denotes (of_int64 n) m ∧ f ≤ m.
Proof.
  intros Hn Hf Hb. pose proof mant_dig_pos as HP.
  pose proof (round_ratio_at_least P n 1 f HP ltac:(lia) Hb ltac:(lia)) as Hlo. fold (of_int64 n) in Hlo.
  destruct (0 <=? expo (of_int64 n)) eqn:He.
  - exists (mant (of_int64 n) * 2 ^ expo (of_int64 n)). unfold denotes, at_least in *. by rewrite He in *.
  - exists n. split; [|done]. apply denotes_of_int64.
    unfold of_int64, round_ratio in He. rewrite (proj2 (Z.eqb_neq n 0)) in He by lia. simpl in He. zb.
    destruct (ratio_log2_bound n 1 1) as (_ & Hk & _ & Hlt); [lia|done|done|].
    assert (2 ^ (ratio_log2 n 1 + 1 + 1) ≤ 2 ^ P) by (apply Z.pow_le_mono_r; lia). lia.
Qed.

(** The best price of the side the order trades with, and of its own. *)
Definition uncrossed (b : OrderBook) : Prop :=
  ∀ x y, best_bid b = Some x → best_ask b = Some y → level_price x < level_price y.

(** What the summary [m] of the execution [r] says of the books before and after
    it: the average price is the exact quotient up to one rounding, the slippage
    and the move of the mid price are not in favour of the order, nor is the
    effective spread unless the book was crossed or locked before, and the share
    of the liquidity it took is at most one. *)
Record impact_shown (s : OrderSide) (b : OrderBook) (r : ExecutionResult) (m : MarketImpactSummary)
    : Prop := mk_impact_shown {
  is_side : mi_side m = s;
  is_requested : mi_requested_quantity m = requested_quantity r;
  is_executed : mi_executed_quantity m = executed_quantity r;
  is_remaining : mi_remaining_quantity m = result_remaining_quantity r;
  is_consumed : liquidity_consumed m = executed_quantity r;
  is_fills : fill_count m = length (result_trades r);
  is_average : ∃ a, average_execution_price_ticks m = Some a ∧
    close 1 a (inject_Z (traded_notional (result_trades r)) / inject_Z (executed_quantity r));
  is_slippage : ∃ best x, head (side_levels (other_side s) b) = Some best ∧
    reference_price_ticks m = Some (of_int64 (level_price best)) ∧
    slippage_ticks m = Some x ∧ 0 ≤ mant x;
  is_spread x : uncrossed b → effective_spread_ticks m = Some x → 0 ≤ mant x;
  is_impact x : signed_mid_impact_ticks m = Some x → 0 ≤ mant x;
  is_ratio : ∃ x, liquidity_consumed_ratio m = Some x ∧ 0 ≤ mant x ∧ unit_interval x
}.

(** The average price is no better than the best price. *)
Lemma average_no_better pmax s b b' r quantity n best :
  market_report pmax s quantity r → fair s b b' r → 0 < executed_quantity r →
  head (side_levels (other_side s) b) = Some best → 0 ≤ level_price best < 2 ^ P →
  executed_quantity r < 2 ^ P → denotes n (traded_notional (result_trades r)) →
  no_better s (val (ld_div n (of_int64 (executed_quantity r)))) (inject_Z (level_price best)).
Proof.
  intros [_ Hts Htot _ _ _] Hfair Hpos Hbest Hp Hx Hn.
  assert (Hd : denotes (of_int64 (executed_quantity r)) (executed_quantity r)) by (apply denotes_of_int64; lia).
  assert (Hpr : ∀ t, t ∈ result_trades r →
    price_before (other_side s) (trade_price_ticks t) (level_price best) = false).
  { intros t Ht. destruct (fr_price _ _ _ _ Hfair t Ht) as (l & Hl & ?). congruence. }
  rewrite Forall_forall in Hts. unfold no_better. destruct s; simpl in *.
  - apply at_least_val. eapply div_at_least; [done|done|done|lia|]. rewrite <- Htot.
    apply (traded_notional_bounds _ pmax). apply Forall_forall. intros t Ht. specialize (Hpr t Ht). zb.
    destruct (Hts t Ht). lia.
  - apply at_most_val. eapply div_at_most; [done|done|done|lia|]. rewrite <- Htot.
    apply (traded_notional_bounds 0). apply Forall_forall. intros t Ht. specialize (Hpr t Ht). zb.
    destruct (Hts t Ht). lia.
Qed.

(** Halves keep an order. *)
Lemma half_le a b : a ≤ b → (inject_Z a / 2 <= inject_Z b / 2)%Q.
Proof. intros Hab. rewrite Zle_Qle in Hab. unfold Qdiv. apply Qmult_le_compat_r; done. Qed.

Lemma best_within pmax b s l :
  book_wf b → book_within pmax b → head (side_levels s b) = Some l → 0 ≤ level_price l ≤ pmax.
Proof.
  intros Hwf Hw Hl. assert (Hin : l ∈ side_levels s b) by (destruct (side_levels s b); simplify_eq/=; by left).
  destruct (Hwf s) as [_ Hlv]. rewrite Forall_forall in Hlv. destruct (Hlv l Hin). specialize (Hw s l Hin). lia.
Qed.

(** The mid price of a quote, and on which side of the best prices it lies. *)
Lemma quote_mid pmax b m :
  book_wf b → book_within pmax b → 2 * pmax < 2 ^ P → quote_mid_price_ticks (quote_of b) = Some m →
  ∃ x y, best_bid b = Some x ∧ best_ask b = Some y ∧
    (val m == inject_Z (level_price x + level_price y) / 2)%Q.
Proof.
  intros Hwf Hw Hp Hm. unfold quote_mid_price_ticks in Hm. simpl in Hm.
  destruct (best_bid b) as [x|] eqn:Hx, (best_ask b) as [y|] eqn:Hy; simplify_eq/=.
  exists x, y. split_and!; [done..|].
  pose proof (best_within pmax b Buy x Hwf Hw Hx). pose proof (best_within pmax b Sell y Hwf Hw Hy).
  apply half_exact; [|lia]. apply denotes_add; [apply denotes_of_int64; lia..|lia].
Qed.

Lemma mid_no_better s b x y best m :
  uncrossed b → best_bid b = Some x → best_ask b = Some y → head (side_levels (other_side s) b) = Some best →
  (val m == inject_Z (level_price x + level_price y) / 2)%Q → no_better s (inject_Z (level_price best)) (val m).
Proof.
  intros Hu Hx Hy Hb Hm. pose proof (Hu x y Hx Hy). unfold no_better, best_bid, best_ask in *.
  assert (Hd : (inject_Z (level_price best) == inject_Z (2 * level_price best) / 2)%Q)
    by (rewrite inject_Z_mult; change (inject_Z 2) with 2%Q; field).
  destruct s; simpl in *; rewrite Hd, Hm; apply half_le; simplify_eq; lia.
Qed.

(** The mid price does not move in favour of the order. *)
Lemma mid_moves s b b' r x y x' y' m m' :
  fair s b b' r → best_bid b = Some x → best_ask b = Some y → best_bid b' = Some x' → best_ask b' = Some y' →
  (val m == inject_Z (level_price x + level_price y) / 2)%Q →
  (val m' == inject_Z (level_price x' + level_price y') / 2)%Q → no_better s (val m') (val m).
Proof.
  intros [_ _ Hown Hother _] Hx Hy Hx' Hy' Hm Hm'. unfold no_better, best_bid, best_ask in *.
  destruct s; simpl in *; rewrite Hm, Hm'.
  - rewrite Hx, Hx' in Hown. specialize (Hother y y' Hy Hy'). zb. simplify_eq/=. apply half_le. lia.
  - rewrite Hy, Hy' in Hown. specialize (Hother x x' Hx Hx'). zb. simplify_eq/=. apply half_le. lia.
Qed.

Lemma impact_figures pmax s b b' r quantity n :
  market_report pmax s quantity r → fair s b b' r → 0 < executed_quantity r →
  book_wf b → book_wf b' → book_within pmax b → book_within pmax b' →
  2 * pmax < 2 ^ P → quantity < 2 ^ P → quantity ≤ INT64_MAX →
  denotes n (traded_notional (result_trades r)) →
  impact_shown s b r (impact_summary r (quote_of b) (quote_of b') n (executed_quantity r)).
Proof.
  intros Hrep Hfair Hpos Hwf Hwf' Hw Hw' Hp Hq Hq64 Hn. pose proof Hrep as [Hs Hts Htot Hex Hrq Hrm].
  assert (Hd : denotes (of_int64 (executed_quantity r)) (executed_quantity r)) by (apply denotes_of_int64; lia).
  assert (Hbest : ∃ best, head (side_levels (other_side s) b) = Some best).
  { destruct (result_trades r) as [|t ts] eqn:Ht; [simpl in Htot; lia|].
    destruct (fr_price _ _ _ _ Hfair t) as (l & Hl & _); [rewrite Ht; by left|]. by exists l. }
  destruct Hbest as [best Hbest]. pose proof (best_within pmax b _ best Hwf Hw Hbest) as Hbp.
  set (avg := ld_div n (of_int64 (executed_quantity r))).
  assert (Havg : no_better s (val avg) (inject_Z (level_price best)))
    by (eapply average_no_better; eauto with lia).
  assert (Href : (if is_buy s then best_ask_ticks (quote_of b) else best_bid_ticks (quote_of b)) = Some (level_price best)).
  { destruct s; simpl in *; unfold best_bid, best_ask; by rewrite Hbest. }
  assert (Hdir : Z.sgn (mant (of_int64 (if is_buy s then 1 else -1))) = (if is_buy s then 1 else -1))
    by (rewrite of_int64_sgn; by destruct (is_buy s)).
  unfold impact_summary. rewrite (proj2 (Z.eqb_neq (executed_quantity r) 0)) by lia.
  rewrite Hs, Href. fold avg. clear Hs Hrq Hrm. split; cbn -[INT64_MAX]; try done.
  - exists avg. split; [done|]. apply close_div; [|done|lia]. apply close_exact; [|done].
    apply (traded_notional_bounds 0 pmax). eapply Forall_impl; [exact Hts|]. simpl. lia.
  - exists best. eexists. split_and!; [done..|]. apply (directed_sub s); [done|].
    assert (Hv : (val (of_int64 (level_price best)) == inject_Z (level_price best))%Q)
      by (apply val_denotes, denotes_of_int64; lia).
    unfold no_better in *. destruct (is_buy s); by rewrite Hv.
  - intros x Hunc Hx. destruct (quote_mid_price_ticks (quote_of b)) as [m|] eqn:Hm; simplify_eq/=.
    destruct (quote_mid pmax b m Hwf Hw Hp Hm) as (xb & ya & Hxb & Hya & Hv).
    apply (directed_sub s); [by rewrite double_direction|].
    pose proof (mid_no_better s b xb ya best m Hunc Hxb Hya Hbest Hv). unfold no_better in *.
    destruct (is_buy s); by eapply Qle_trans.
  - intros x Hx. destruct (quote_mid_price_ticks (quote_of b)) as [m|] eqn:Hm; simplify_eq/=.
    destruct (quote_mid_price_ticks (quote_of b')) as [m'|] eqn:Hm'; simplify_eq/=.
    destruct (quote_mid pmax b m Hwf Hw Hp Hm) as (xb & ya & Hxb & Hya & Hv).
    destruct (quote_mid pmax b' m' Hwf' Hw' Hp Hm') as (xb' & ya' & Hxb' & Hya' & Hv').
    apply (directed_sub s); [done|]. by eapply mid_moves.
  - set (A := if is_buy s then Z.min INT64_MAX (side_volume (asks b)) else Z.min INT64_MAX (side_volume (bids b))).
    assert (HA : executed_quantity r ≤ A).
    { pose proof (fr_depth _ _ _ _ Hfair) as Hdep. unfold A, bids, asks. destruct s; simpl in *; lia. }
    assert (Hgt : (A >? 0) = true) by (rewrite Z.gtb_ltb; apply Z.ltb_lt; lia). rewrite Hgt.
    destruct (of_int64_above A (executed_quantity r)) as (m & Hm & Hle); [lia|lia|lia|].
    eexists. split; [done|]. split.
    + pose proof (div_sgn _ _ _ _ Hd Hm ltac:(lia)). lia.
    + apply (div_unit _ _ _ _ Hd Hm); lia.
Qed.
End impact.
