(* ===== verification/OrderFlowAdapters.v ===== *)
(** * The order-flow adapters of the engines

    [include/ofi_matching_engine_adapter.hpp] and
    [include/ofi_concurrent_matching_adapter.hpp]: members of the engine followed
    by a snapshot of the book it shares with the adapter, which is the
    [order_book_] of the engine.  Those of the concurrent adapter hold a mutex
    from the submission of the command to the end of the snapshot. *)
From S2P Require Import Prelude LongDouble Orders OrderBook OrderManager MatchingEngine.
From S2P Require Import BlockingQueue ConcurrentEngine OrderFlow.

Local Open Scope Z_scope.

Section adapters.
Context `{LongDoubleFormat} {B : Type} (before_capture : option (B → option exn * B)).

(** ** OFIMatchingEngineAdapter *)

Record OFIMatchingEngineAdapter : Type := mkOFIAdapter {
  ofi_engine_ : MatchingEngine;
  ofi_handler_ : OFIOrderBookHandler B;
  ofi_symbol_ : string;
  ofi_analytics_healthy_ : bool
}.

Definition make_ofi_adapter {S} (engine : MatchingEngine) (handler : OFIOrderBookHandler B)
    (symbol : string) : M S OFIMatchingEngineAdapter :=
  if decide (symbol = "") then throw (invalid_argument "OFI symbol must not be empty")
  else ret (mkOFIAdapter engine handler symbol true).

Definition set_ofi_engine (e : MatchingEngine) (a : OFIMatchingEngineAdapter) :=
  mkOFIAdapter e (ofi_handler_ a) (ofi_symbol_ a) (ofi_analytics_healthy_ a).
Definition set_ofi_handler (h : OFIOrderBookHandler B) (a : OFIMatchingEngineAdapter) :=
  mkOFIAdapter (ofi_engine_ a) h (ofi_symbol_ a) (ofi_analytics_healthy_ a).
Definition set_ofi_healthy (h : bool) (a : OFIMatchingEngineAdapter) :=
  mkOFIAdapter (ofi_engine_ a) (ofi_handler_ a) (ofi_symbol_ a) h.

Definition ofi_capture : M OFIMatchingEngineAdapter unit :=
  let* a := gets id in
  zoom ofi_handler_ set_ofi_handler
    (capture before_capture (ofi_symbol_ a) (order_book_ (ofi_engine_ a))).

Definition capture_after_commit : M OFIMatchingEngineAdapter unit :=
  try_catch ofi_capture (λ _, modify (set_ofi_healthy false)).

Definition ofi_initialize : M OFIMatchingEngineAdapter unit := ofi_capture.

Definition on_engine {A} (m : M MatchingEngine A) : M OFIMatchingEngineAdapter A :=
  zoom ofi_engine_ set_ofi_engine m.

Definition ofi_place_limit_buy (price_ticks quantity : Z) : M OFIMatchingEngineAdapter Z :=
  let* id := on_engine (place_limit_buy price_ticks quantity) in
  capture_after_commit ;;;
  ret id.

Definition ofi_place_limit_sell (price_ticks quantity : Z) : M OFIMatchingEngineAdapter Z :=
  let* id := on_engine (place_limit_sell price_ticks quantity) in
  capture_after_commit ;;;
  ret id.

Definition ofi_cancel_order (order_id : Z) : M OFIMatchingEngineAdapter bool :=
  let* cancelled := on_engine (MatchingEngine.cancel_order order_id) in
  when cancelled capture_after_commit ;;;
  ret cancelled.

Definition ofi_modify_order (order_id new_price_ticks new_quantity : Z)
    : M OFIMatchingEngineAdapter bool :=
  let* modified := on_engine (modify_order order_id new_price_ticks new_quantity) in
  when modified capture_after_commit ;;;
  ret modified.

Definition ofi_execute_market_buy (quantity : Z) : M OFIMatchingEngineAdapter ExecutionResult :=
  let* result := on_engine (execute_market_buy quantity) in
  when (executed_quantity result >? 0) capture_after_commit ;;;
  ret result.

Definition ofi_execute_market_sell (quantity : Z) : M OFIMatchingEngineAdapter ExecutionResult :=
  let* result := on_engine (execute_market_sell quantity) in
  when (executed_quantity result >? 0) capture_after_commit ;;;
  ret result.

(** ** OFIConcurrentMatchingAdapter

    The adapter and the concurrent engine behind it.  [waiting_] is the command
    whose future the holder of the mutex waits for, with its promise; while it is
    set every other member waits for the mutex. *)
Record OFIConcurrentMatchingAdapter : Type := mkConcurrentAdapter {
  oc_engine_ : ConcurrentMatchingEngine;
  oc_handler_ : OFIOrderBookHandler B;
  oc_symbol_ : string;
  oc_analytics_healthy_ : bool;
  waiting_ : option (nat * EngineCommand)
}.

Definition make_concurrent_adapter {S} (engine : ConcurrentMatchingEngine)
    (handler : OFIOrderBookHandler B) (symbol : string) : M S OFIConcurrentMatchingAdapter :=
  if decide (symbol = "") then throw (invalid_argument "OFI symbol must not be empty")
  else ret (mkConcurrentAdapter engine handler symbol true None).

Definition set_oc_engine (c : ConcurrentMatchingEngine) (a : OFIConcurrentMatchingAdapter) :=
  mkConcurrentAdapter c (oc_handler_ a) (oc_symbol_ a) (oc_analytics_healthy_ a) (waiting_ a).
Definition set_oc_handler (h : OFIOrderBookHandler B) (a : OFIConcurrentMatchingAdapter) :=
  mkConcurrentAdapter (oc_engine_ a) h (oc_symbol_ a) (oc_analytics_healthy_ a) (waiting_ a).
Definition set_oc_healthy (h : bool) (a : OFIConcurrentMatchingAdapter) :=
  mkConcurrentAdapter (oc_engine_ a) (oc_handler_ a) (oc_symbol_ a) h (waiting_ a).
Definition set_waiting (w : option (nat * EngineCommand)) (a : OFIConcurrentMatchingAdapter) :=
  mkConcurrentAdapter (oc_engine_ a) (oc_handler_ a) (oc_symbol_ a) (oc_analytics_healthy_ a) w.

Definition oc_capture : M OFIConcurrentMatchingAdapter unit :=
  let* a := gets id in
  zoom oc_handler_ set_oc_handler
    (capture before_capture (oc_symbol_ a) (order_book_ (engine_ (oc_engine_ a)))).

Definition oc_capture_after_commit : M OFIConcurrentMatchingAdapter unit :=
  try_catch oc_capture (λ _, modify (set_oc_healthy false)).

Definition oc_initialize : M OFIConcurrentMatchingAdapter unit := oc_capture.

(** The six members that go through the adapter. *)
Definition adapted (command : EngineCommand) : bool :=
  match command with
  | ActiveOrdersCommand | TradeHistoryCommand | ClearTradeHistoryCommand => false
  | _ => true
  end.

(** What the member does with the value it got: [if (cancelled)], [if (modified)]
    and [if (result.executed_quantity > 0)]; a placement always captures. *)
Definition commits (value : CommandValue) : bool :=
  match value with
  | OrderIdValue _ => true
  | BoolValue b => b
  | ExecutionValue r => executed_quantity r >? 0
  | _ => false
  end.

(** The first half of a member: lock and submit.  When the engine is shut down
    the submission throws and the lock is released. *)
Definition oc_submit (command : EngineCommand) : M OFIConcurrentMatchingAdapter nat :=
  let* future := zoom oc_engine_ set_oc_engine (submit command) in
  modify (set_waiting (Some (future, command))) ;;;
  ret future.

(** The second half, once the promise is fulfilled: [get()], which rethrows the
    exception of the command, capture, return and unlock. *)
Definition oc_finish (promise : PromiseState) : M OFIConcurrentMatchingAdapter CommandValue :=
  modify (set_waiting None) ;;;
  match promise with
  | HasException e => throw e
  | HasValue v => when (commits v) oc_capture_after_commit ;;; ret v
  end.

Inductive oc_label : Type :=
| EngineStep (l : label)
| MemberStarts (n : nat) (command : EngineCommand)
| MemberRefused (command : EngineCommand)
| MemberReturns (command : EngineCommand) (r : outcome CommandValue).

(** Members of the adapter, interleaved with the steps of the engine: its worker,
    [shutdown], and clients that bypass the adapter. *)
Inductive oc_step : OFIConcurrentMatchingAdapter → oc_label → OFIConcurrentMatchingAdapter → Prop :=
| oc_engine_step a l c' : cstep (oc_engine_ a) l c' → oc_step a (EngineStep l) (set_oc_engine c' a)
| oc_start a cmd n a' :
    waiting_ a = None → adapted cmd = true → oc_submit cmd a = (Ok n, a') →
    oc_step a (MemberStarts n cmd) a'
| oc_refuse a cmd e a' :
    waiting_ a = None → adapted cmd = true → oc_submit cmd a = (Throw e, a') →
    oc_step a (MemberRefused cmd) a'
| oc_return a n cmd p r a' :
    waiting_ a = Some (n, cmd) → promises (oc_engine_ a) !! n = Some p →
    oc_finish p a = (r, a') → oc_step a (MemberReturns cmd r) a'.

Inductive oc_steps : OFIConcurrentMatchingAdapter → list oc_label → OFIConcurrentMatchingAdapter → Prop :=
| oc_steps_nil a : oc_steps a [] a
| oc_steps_snoc a tr a1 l a2 : oc_steps a tr a1 → oc_step a1 l a2 → oc_steps a (tr ++ [l]) a2.
End adapters.

Arguments OFIMatchingEngineAdapter : clear implicits.
Arguments OFIConcurrentMatchingAdapter : clear implicits.
