(* ===== verification/AdapterSpec.v ===== *)
(** * The order-flow adapters add nothing to the engines

    Through an adapter every command has the answer and the effect it has on the
    engine alone, whatever the handler does; the concurrent adapter behaves like
    the sequential one on the commands in the order of their members; and over a
    book that only the engine writes, no snapshot is ever refused, so the figures
    are those of the books after each committed command; over any book they are
    those of the snapshots that were taken ([captures]). *)
From S2P Require Import Prelude LongDouble Windows Orders TradeStore OrderBook Levels OrderManager.
From S2P Require Import ManagerSpec MatchingEngine EngineSpec BlockingQueue ConcurrentEngine.
From S2P Require Import ConcurrentSpec Totality OrderFlow OrderFlowSpec OrderFlowAdapters.

Local Open Scope Z_scope.

Section spec.
Context `{LongDoubleFormat}.

(** A command as a call that returns its value or throws. *)
Definition map_value {S A} (f : A → CommandValue) (m : M S A) : M S CommandValue :=
  let* v := m in ret (f v).

Definition engine_call (cmd : EngineCommand) : M MatchingEngine CommandValue :=
  match cmd with
  | PlaceLimitBuyCommand p q => map_value OrderIdValue (place_limit_buy p q)
  | PlaceLimitSellCommand p q => map_value OrderIdValue (place_limit_sell p q)
  | ExecuteMarketBuyCommand q => map_value ExecutionValue (execute_market_buy q)
  | ExecuteMarketSellCommand q => map_value ExecutionValue (execute_market_sell q)
  | CancelOrderCommand i => map_value BoolValue (MatchingEngine.cancel_order i)
  | ModifyOrderCommand i p q => map_value BoolValue (modify_order i p q)
  | ActiveOrdersCommand => map_value OrdersValue (gets active_limit_orders)
  | TradeHistoryCommand => map_value TradesValue (gets trade_history)
  | ClearTradeHistoryCommand => map_value (λ _, VoidValue) clear_trade_history
  end.

(** The worker keeps the outcome of the call in the promise. *)
Definition promise_of {A} (r : outcome A * MatchingEngine) (f : A → CommandValue)
    : outcome PromiseState * MatchingEngine :=
  match r with
  | (Ok v, e) => (Ok (HasValue (f v)), e)
  | (Throw ex, e) => (Ok (HasException ex), e)
  | (Undefined, e) => (Undefined, e)
  | (Diverges, e) => (Diverges, e)
  end.

Lemma execute_command_promise {A} (f : A → CommandValue) m e :
  execute_command f m e = promise_of (m e) f.
Proof. unfold execute_command, try_catch, bind, ret, promise_of. by destruct (m e) as [[] ?]. Qed.

Lemma process_command_call cmd e : process_command cmd e = promise_of (engine_call cmd e) id.
Proof.
  assert (Hmap : ∀ A (f : A → CommandValue) (m : M MatchingEngine A),
    promise_of (map_value f m e) id = promise_of (m e) f).
  { intros A f m. unfold map_value, bind, ret, promise_of. by destruct (m e) as [[] ?]. }
  destruct cmd; simpl; rewrite execute_command_promise; symmetry; first [apply Hmap|done].
Qed.

(** ** The sequential adapter *)

Section adapter.
Context {B : Type} (before_capture : option (B → option exn * B)).
Implicit Types a : OFIMatchingEngineAdapter B.

Definition adapter_call (cmd : EngineCommand) : M (OFIMatchingEngineAdapter B) CommandValue :=
  match cmd with
  | PlaceLimitBuyCommand p q => map_value OrderIdValue (ofi_place_limit_buy before_capture p q)
  | PlaceLimitSellCommand p q => map_value OrderIdValue (ofi_place_limit_sell before_capture p q)
  | ExecuteMarketBuyCommand q => map_value ExecutionValue (ofi_execute_market_buy before_capture q)
  | ExecuteMarketSellCommand q => map_value ExecutionValue (ofi_execute_market_sell before_capture q)
  | CancelOrderCommand i => map_value BoolValue (ofi_cancel_order before_capture i)
  | ModifyOrderCommand i p q => map_value BoolValue (ofi_modify_order before_capture i p q)
  | query => on_engine (engine_call query)
  end.

Lemma adapter_call_form cmd a :
  adapter_call cmd a =
  (let* v := on_engine (engine_call cmd) in
   when (adapted cmd && commits v) (capture_after_commit before_capture) ;;; ret v) a.
Proof.
  assert (Hmap : ∀ A (f : A → CommandValue) (m : M MatchingEngine A) (k : A → M (OFIMatchingEngineAdapter B) unit),
    (let* v := (let* v := on_engine m in k v ;;; ret v) in ret (f v)) a =
    (let* v := on_engine m in k v ;;; ret (f v)) a).
  { intros A f m k. unfold bind, ret. destruct (on_engine m a) as [[v| | |] a1]; [|done..].
    by destruct (k v a1) as [[] ?]. }
  assert (Hinner : ∀ A (f : A → CommandValue) (m : M MatchingEngine A) (k : CommandValue → M (OFIMatchingEngineAdapter B) unit),
    (let* v := on_engine (map_value f m) in k v ;;; ret v) a =
    (let* v := on_engine m in k (f v) ;;; ret (f v)) a).
  { intros A f m k. unfold bind, ret, on_engine, zoom, map_value, bind, ret.
    by destruct (m (ofi_engine_ a)) as [[] ?]. }
  destruct cmd; cbn [adapter_call engine_call]; rewrite Hinner; [unfold map_value at 1..|done|done|done].
  - unfold ofi_place_limit_buy. apply (Hmap _ _ _ (λ _, capture_after_commit before_capture)).
  - unfold ofi_place_limit_sell. apply (Hmap _ _ _ (λ _, capture_after_commit before_capture)).
  - unfold ofi_execute_market_buy. apply (Hmap _ _ _ (λ r, when (executed_quantity r >? 0) (capture_after_commit before_capture))).
  - unfold ofi_execute_market_sell. apply (Hmap _ _ _ (λ r, when (executed_quantity r >? 0) (capture_after_commit before_capture))).
  - unfold ofi_cancel_order. apply (Hmap _ _ _ (λ b, when b (capture_after_commit before_capture))).
  - unfold ofi_modify_order. apply (Hmap _ _ _ (λ b, when b (capture_after_commit before_capture))).
Qed.

(** ** Snapshots never get in the way *)

Definition ofi_has_window (h : OFIOrderBookHandler B) : Prop :=
  (0 < ofi_window_size_ (handler_ofi_ h))%nat.

Lemma wp_ofi_update_total symbol s o :
  (0 < ofi_window_size_ o)%nat →
  wp (ofi_update symbol s) (λ _ o', ofi_window_size_ o' = ofi_window_size_ o) (λ _ o', o' = o) o.
Proof.
  intros Hw. unfold ofi_update, id. destruct (decide (symbol = "")); [by apply wp_throw|].
  wp_step. apply wp_validate_level; [intros _|done]. wp_step. apply wp_validate_level; [intros _|done].
  wp_step; [by apply wp_throw|]. do 2 wp_step. apply wp_at_entry. unfold update_symbol, id.
  do 2 wp_step. wp_step; [by apply wp_modify|]. do 2 wp_step.
  - apply Nat.eqb_eq in Heqb1. destruct (ofi_events _) as [|y l]; [simpl in Heqb1; lia|].
    apply wp_modify. by apply wp_modify.
  - apply wp_ret. by apply wp_modify.
Qed.

Lemma wp_capture_total symbol book h :
  ofi_has_window h →
  wp (capture before_capture symbol book) (λ _, ofi_has_window) (λ _, ofi_has_window) h.
Proof.
  intros Hw. unfold capture. destruct (decide (symbol = "")); [by apply wp_throw|].
  do 2 wp_step. apply wp_call_back; [intros b|done]. wp_step.
  eapply wp_mono; [by apply wp_ofi_update_total| |].
  - intros [] o' Ho. unfold ofi_has_window. simpl in *. by rewrite Ho.
  - by intros ex o' ->.
Qed.

(** What a snapshot may change. *)
Definition same_but_handler a a' : Prop :=
  ofi_engine_ a' = ofi_engine_ a ∧ ofi_symbol_ a' = ofi_symbol_ a ∧ ofi_has_window (ofi_handler_ a').

Lemma wp_capture_after_commit a :
  ofi_has_window (ofi_handler_ a) →
  wp (capture_after_commit before_capture) (λ _, same_but_handler a) nothrow a.
Proof.
  intros Hw. unfold capture_after_commit, ofi_capture, id. do 4 wp_step.
  eapply wp_mono; [by apply wp_capture_total| |].
  - by intros [] h Hh.
  - intros ex h Hh. by apply wp_modify.
Qed.

(** A call through the adapter is the call of the engine. *)
Lemma adapter_call_run cmd a :
  ofi_has_window (ofi_handler_ a) →
  match engine_call cmd (ofi_engine_ a) with
  | (Ok v, e') => ∃ a', adapter_call cmd a = (Ok v, a') ∧ same_but_handler (set_ofi_engine e' a) a' ∧
      if adapted cmd && commits v
      then capture_after_commit before_capture (set_ofi_engine e' a) = (Ok tt, a')
      else a' = set_ofi_engine e' a
  | (Throw ex, e') => adapter_call cmd a = (Throw ex, set_ofi_engine e' a)
  | (Undefined, e') => adapter_call cmd a = (Undefined, set_ofi_engine e' a)
  | (Diverges, e') => adapter_call cmd a = (Diverges, set_ofi_engine e' a)
  end.
Proof.
  intros Hw. rewrite adapter_call_form. unfold bind, on_engine, zoom.
  destruct (engine_call cmd (ofi_engine_ a)) as [[v| | |] e']; [|done..].
  destruct (adapted cmd && commits v); simpl.
  - destruct (wp_run _ _ _ (wp_capture_after_commit (set_ofi_engine e' a) Hw)) as ([] & a' & Hrun & Hs).
    rewrite Hrun. by exists a'.
  - by eexists.
Qed.

(** ** Runs *)

Fixpoint adapter_run (cmds : list EngineCommand) a : option (list PromiseState * OFIMatchingEngineAdapter B) :=
  match cmds with
  | [] => Some ([], a)
  | cmd :: rest =>
      let answer r a1 :=
        match adapter_run rest a1 with Some (rs, a2) => Some (r :: rs, a2) | None => None end in
      match adapter_call cmd a with
      | (Ok v, a1) => answer (HasValue v) a1
      | (Throw ex, a1) => answer (HasException ex) a1
      | _ => None
      end
  end.

(** One step of the run of the adapter and of the engine. *)
Lemma adapter_call_step cmd a r e1 :
  ofi_has_window (ofi_handler_ a) → process_command cmd (ofi_engine_ a) = (Ok r, e1) →
  ∃ a1, same_but_handler (set_ofi_engine e1 a) a1 ∧
    adapter_call cmd a = (match r with HasValue v => Ok v | HasException ex => Throw ex end, a1) ∧
    if (match r with HasValue v => adapted cmd && commits v | HasException _ => false end)
    then capture_after_commit before_capture (set_ofi_engine e1 a) = (Ok tt, a1)
    else a1 = set_ofi_engine e1 a.
Proof.
  intros Hw Hp. pose proof (adapter_call_run cmd a Hw) as Hrun. rewrite process_command_call in Hp.
  destruct (engine_call cmd (ofi_engine_ a)) as [[v|ex| |] e'] eqn:He; simplify_eq/=.
  - destruct Hrun as (a' & ? & ? & ?). by exists a'.
  - eexists. split_and!; [|done|done]. by split_and!.
Qed.

(** The whole run answers what the engine answers. *)
Lemma adapter_run_transparent cmds a rs e' :
  ofi_has_window (ofi_handler_ a) → run_commands cmds (ofi_engine_ a) = Some (rs, e') →
  ∃ a', adapter_run cmds a = Some (rs, a') ∧ same_but_handler (set_ofi_engine e' a) a'.
Proof.
  revert a rs. induction cmds as [|cmd cmds IH]; intros a rs Hw Hrun; simpl in *.
  { simplify_eq. exists a. split; [done|]. by destruct a. }
  destruct (process_command cmd (ofi_engine_ a)) as [[r| | |] e1] eqn:Hp; try done.
  destruct (run_commands cmds e1) as [[rs' e2]|] eqn:Hrest; simplify_eq.
  destruct (adapter_call_step cmd a r e1 Hw Hp) as (a1 & (Heng & Hsym & Hw1) & Hcall & _). simpl in Heng.
  destruct (IH a1 rs' Hw1) as (a' & Hrun' & Heng' & Hsym' & Hw'); [by rewrite Heng|].
  exists a'. rewrite Hcall. split; [|split_and!; simpl in *; congruence].
  destruct r; by rewrite Hrun'.
Qed.
End adapter.

(** ** The figures follow the book *)

(** The best levels after each command the adapter takes a snapshot for. *)
Fixpoint tops (cmds : list EngineCommand) (e : MatchingEngine) : list OFISnapshot :=
  match cmds with
  | [] => []
  | cmd :: rest =>
      let '(r, e1) := engine_call cmd e in
      (match r with
       | Ok v => if adapted cmd && commits v then [snapshot_of (order_book_ e1)] else []
       | _ => []
       end) ++ tops rest e1
  end.

(** A book that shows only the orders of the engine can be observed. *)
Lemma owned_snapshot_valid pmax n e :
  owned_engine pmax n e → snapshot_valid (snapshot_of (order_book_ e)) = true.
Proof.
  intros (_ & q & Hinv & _ & Hs). pose proof (inv_ok _ _ Hinv) as Hok.
  pose proof (ok_rep _ _ Hok) as Hrep. destruct Hs as [Hbw Hd].
  assert (Hbest : ∀ s l, head (side_levels s (order_book_ e)) = Some l →
    0 < level_quantity l ∧ ∃ o, o ∈ queue s q ∧ price_ticks o = level_price l ∧ 0 < price_ticks o).
  { intros s l Hl.
    pose proof (synced_best _ _ s (conj Hbw Hd) (rep_queue _ _ Hrep s) (ok_queue _ _ s Hok)) as H0.
    rewrite Hl in H0. pose proof (ok_queue _ _ s Hok) as Hq.
    destruct (queue s q) as [|o r]; simplify_eq/=. apply Forall_cons in Hq as [(_ & ? & _) _].
    split; [|exists o; split_and!; [by left|done|lia]].
    destruct (Hbw s) as [_ Hlv]. rewrite Forall_forall in Hlv. apply Hlv.
    destruct (side_levels s (order_book_ e)); simplify_eq/=. by left. }
  unfold snapshot_valid, snapshot_of, crossed_or_locked, copy_book, best_bid, best_ask. simpl.
  pose proof (Hbest Buy) as HB. pose proof (Hbest Sell) as HS. simpl in HB, HS.
  destruct (head (bids_ (order_book_ e))) as [b|], (head (asks_ (order_book_ e))) as [a|]; simpl;
    rewrite ?andb_true_iff, ?negb_true_iff, ?Z.ltb_lt.
  - destruct (HB b) as (? & ob & Hob & ? & ?), (HS a) as (? & oa & Hoa & ? & ?); [done..|].
    pose proof (inv_uncrossed _ _ Hinv ob oa Hob Hoa). split_and!; try lia.
  - destruct (HB b) as (? & ob & Hob & ? & ?); [done|]. split_and!; try lia.
  - destruct (HS a) as (? & oa & Hoa & ? & ?); [done|]. split_and!; try lia.
  - done.
Qed.

Section figures.
Context {B : Type} (before_capture : option (B → option exn * B)) (w : nat) (qlev : Z).
Hypothesis Hw : (0 < w)%nat.
Hypothesis Hqlev : 0 ≤ qlev.
Hypothesis Hfit : 2 * qlev * Z.of_nat w < 2 ^ LDBL_MANT_DIG.
Implicit Types a : OFIMatchingEngineAdapter B.

(** A snapshot is taken when the callback returns and the snapshot is valid. *)
Definition captured (b : B) (s : OFISnapshot) : bool :=
  (match fst (call_back before_capture b) with Ok _ => true | _ => false end) && snapshot_valid s.

(** What becomes of the snapshots that are offered one after the other: those that
    are taken, whether it was all of them, and the state of the callback. *)
Fixpoint captures (b : B) (snaps : list OFISnapshot) : list OFISnapshot * bool * B :=
  match snaps with
  | [] => ([], true, b)
  | s :: rest =>
      let '(taken, all, b') := captures (snd (call_back before_capture b)) rest in
      (if captured b s then s :: taken else taken, captured b s && all, b')
  end.

Lemma captures_app b l1 l2 :
  captures b (l1 ++ l2) =
  let '(taken1, all1, b1) := captures b l1 in
  let '(taken2, all2, b2) := captures b1 l2 in (taken1 ++ taken2, all1 && all2, b2).
Proof.
  revert b. induction l1 as [|s l1 IH]; intros b; simpl; [by destruct (captures b l2) as [[??]?]|].
  rewrite IH. destruct (captures _ l1) as [[t1 a1] b1]. destruct (captures b1 l2) as [[t2 a2] b2].
  rewrite andb_assoc. by destruct (captured b s).
Qed.

(** The adapter after a snapshot was offered. *)
Record offered (hist : string → list OFISnapshot) (s : OFISnapshot) a a' : Prop := {
  of_engine : ofi_engine_ a' = ofi_engine_ a;
  of_symbol : ofi_symbol_ a' = ofi_symbol_ a;
  of_state : capture_state_ (ofi_handler_ a') = snd (call_back before_capture (capture_state_ (ofi_handler_ a)));
  of_tracks : ofi_tracks w qlev
    (if captured (capture_state_ (ofi_handler_ a)) s then extend (ofi_symbol_ a) s hist else hist)
    (handler_ofi_ (ofi_handler_ a'))
}.

Lemma wp_ofi_capture hist a :
  ofi_symbol_ a ≠ "" → ofi_tracks w qlev hist (handler_ofi_ (ofi_handler_ a)) →
  let s := snapshot_of (order_book_ (ofi_engine_ a)) in
  snapshot_within qlev s →
  wp (ofi_capture before_capture)
    (λ _ a', captured (capture_state_ (ofi_handler_ a)) s = true ∧ offered hist s a a' ∧
             ofi_analytics_healthy_ a' = ofi_analytics_healthy_ a)
    (λ _ a', captured (capture_state_ (ofi_handler_ a)) s = false ∧ offered hist s a a' ∧
             ofi_analytics_healthy_ a' = ofi_analytics_healthy_ a) a.
Proof.
  intros Hsym Ht s Hs. unfold ofi_capture, capture, id. do 3 wp_step. rewrite decide_False by done.
  wp_step. wp_step. set (b := capture_state_ (ofi_handler_ a)) in *.
  assert (Hcb : wp (call_back before_capture)
    (λ r b', captured b s = snapshot_valid s ∧ b' = snd (call_back before_capture b))
    (λ _ b', captured b s = false ∧ b' = snd (call_back before_capture b)) b).
  { unfold wp, captured, call_back. destruct before_capture as [f|]; simpl; [|done].
    by destruct (f b) as [[] ?]. }
  eapply wp_mono; [exact Hcb| |].
  - intros [] b' [Hc ->]. wp_step. simpl.
    eapply wp_mono; [apply (wp_ofi_update w qlev hist); [done|done|done|exact Ht|exact Hs]| |].
    + intros [] o' (_ & Hv & Ho'). fold s in Hv, Ho'. rewrite Hc. split; [done|]. split; [|done].
      split; try done. fold b. by rewrite Hc, Hv.
    + intros ex o' [[?|Hv] ->]; [done|]. fold s in Hv. rewrite Hc. split; [done|]. split; [|done].
      split; try done. fold b. by rewrite Hc, Hv.
  - intros ex b' [Hc ->]. split; [done|]. split; [|done]. split; try done. fold b. by rewrite Hc.
Qed.

(** After a commit a snapshot that is not taken costs the health flag and
    nothing else. *)
Lemma wp_capture_commit hist a :
  ofi_symbol_ a ≠ "" → ofi_tracks w qlev hist (handler_ofi_ (ofi_handler_ a)) →
  let s := snapshot_of (order_book_ (ofi_engine_ a)) in
  snapshot_within qlev s →
  wp (capture_after_commit before_capture)
    (λ _ a', offered hist s a a' ∧
       ofi_analytics_healthy_ a' = ofi_analytics_healthy_ a && captured (capture_state_ (ofi_handler_ a)) s) nothrow a.
Proof.
  intros Hsym Ht s Hs. unfold capture_after_commit. wp_step.
  eapply wp_mono; [by apply (wp_ofi_capture hist)| |]; fold s; intros ? a' (Hc & [H1 H2 H3 H4] & Hh); [|wp_step];
    (split; [by split|]); simpl; by rewrite Hc, ?Hh, ?andb_true_r, ?andb_false_r.
Qed.

Lemma adapter_run_figures cmds a rs e' hist :
  ofi_symbol_ a ≠ "" → ofi_tracks w qlev hist (handler_ofi_ (ofi_handler_ a)) →
  Forall (snapshot_within qlev) (tops cmds (ofi_engine_ a)) →
  run_commands cmds (ofi_engine_ a) = Some (rs, e') →
  let '(taken, all, b') := captures (capture_state_ (ofi_handler_ a)) (tops cmds (ofi_engine_ a)) in
  ∃ a' hist', adapter_run before_capture cmds a = Some (rs, a') ∧ ofi_engine_ a' = e' ∧
    ofi_symbol_ a' = ofi_symbol_ a ∧ ofi_analytics_healthy_ a' = ofi_analytics_healthy_ a && all ∧
    capture_state_ (ofi_handler_ a') = b' ∧ ofi_tracks w qlev hist' (handler_ofi_ (ofi_handler_ a')) ∧
    hist' (ofi_symbol_ a) = hist (ofi_symbol_ a) ++ taken.
Proof.
  revert a rs hist. induction cmds as [|cmd cmds IH]; intros a rs hist Hsym Ht Hs Hrun; simpl in *.
  { simplify_eq. exists a, hist. by rewrite app_nil_r, andb_true_r. }
  destruct (process_command cmd (ofi_engine_ a)) as [[r| | |] e1] eqn:Hp; try done.
  destruct (run_commands cmds e1) as [[rs' e2]|] eqn:Hrest; simplify_eq.
  assert (Hwin : ofi_has_window (ofi_handler_ a)) by (unfold ofi_has_window; by rewrite (proj1 Ht)).
  destruct (adapter_call_step before_capture cmd a r e1 Hwin Hp) as (a1 & (Heng & Hsym1 & _) & Hcall & Hcap). simpl in *.
  set (snap := match r with HasValue v => adapted cmd && commits v | HasException _ => false end) in *.
  assert (Htops : engine_call cmd (ofi_engine_ a) =
    (match r with HasValue v => Ok v | HasException ex => Throw ex end, e1)).
  { rewrite process_command_call in Hp. destruct (engine_call cmd (ofi_engine_ a)) as [[] ?]; by simplify_eq/=. }
  rewrite Htops in Hs |- *.
  set (now := match match r with HasValue v => Ok v | HasException ex => Throw ex end with
    | Ok v => if adapted cmd && commits v then [snapshot_of (order_book_ e1)] else [] | _ => [] end) in *.
  assert (Hnow : now = if snap then [snapshot_of (order_book_ e1)] else []) by (unfold now, snap; by destruct r).
  apply Forall_app in Hs as [Hs1 Hs]. rewrite captures_app.
  destruct (captures (capture_state_ (ofi_handler_ a)) now) as [[taken1 all1] b1] eqn:Hc1.
  assert (Hstep : ∃ hist1, ofi_tracks w qlev hist1 (handler_ofi_ (ofi_handler_ a1)) ∧
    ofi_analytics_healthy_ a1 = ofi_analytics_healthy_ a && all1 ∧ capture_state_ (ofi_handler_ a1) = b1 ∧
    hist1 (ofi_symbol_ a) = hist (ofi_symbol_ a) ++ taken1).
  { rewrite Hnow in Hs1, Hc1. destruct snap; simpl in Hc1.
    - apply Forall_cons in Hs1 as [Hs1 _].
      destruct (wp_run _ _ _ (wp_capture_commit hist (set_ofi_engine e1 a) Hsym Ht Hs1)) as ([] & a2 & Hrun2 & Ho & Hh2).
      rewrite Hcap in Hrun2. injection Hrun2 as <-. injection Hc1 as <- <- <-. simpl in *.
      destruct Ho as [_ _ H3 H4]. simpl in *. eexists. split_and!; [exact H4|by rewrite Hh2, andb_true_r|done|].
      destruct (captured _ _); [unfold extend; by rewrite decide_True|by rewrite app_nil_r].
    - subst a1. injection Hc1 as <- <- <-. exists hist. by rewrite app_nil_r, andb_true_r. }
  destruct Hstep as (hist1 & Ht1 & Hh1 & Hb1 & Hl1).
  specialize (IH a1 rs' hist1 ltac:(by rewrite Hsym1) Ht1). rewrite Heng, Hb1 in IH. specialize (IH Hs Hrest).
  destruct (captures b1 _) as [[taken2 all2] b2].
  destruct IH as (a' & hist' & Hrun' & Heng' & Hsym' & Hh' & Hb' & Ht' & Hl').
  exists a', hist'. rewrite Hcall. split_and!; [destruct r; by rewrite Hrun'|done|congruence| |done|done|].
  - by rewrite Hh', Hh1, andb_assoc.
  - rewrite Hsym1 in Hl'. by rewrite Hl', Hl1, app_assoc.
Qed.
End figures.

(** Without a callback every valid snapshot is taken. *)
Lemma captures_valid {B} (b : B) snaps :
  Forall (λ s, snapshot_valid s = true) snaps → captures None b snaps = (snaps, true, b).
Proof. induction 1 as [|s l Hs _ IH]; [done|]. simpl. rewrite IH. unfold captured. simpl. by rewrite Hs. Qed.

(** Over a book of its own an engine shows only valid snapshots. *)
Lemma owned_tops_valid pmax qmax n cmds e :
  0 ≤ pmax → pmax * qmax < 2 ^ (LDBL_MANT_DIG - 1) → pmax * qmax ≤ INT64_MAX →
  owned_engine pmax n e → n + Z.of_nat (length cmds) ≤ UINT64_MAX → Forall (command_within pmax qmax) cmds →
  Forall (λ s, snapshot_valid s = true) (tops cmds e).
Proof.
  intros Hp H1 H2 Ho Hn Hc. revert n e Ho Hn. induction Hc as [|cmd cmds Hc1 Hc IH]; intros n e Ho Hn; simpl; [done|].
  simpl in Hn. destruct (process_command_total (owned:=true) pmax qmax Hp H1 H2 n e cmd Ho ltac:(lia) Hc1)
    as (r & e1 & Hr & Ho1).
  rewrite process_command_call in Hr. destruct (engine_call cmd e) as [[v|ex| |] e2]; simplify_eq/=.
  - apply Forall_app. split; [|by eapply (IH (n + 1)); [done|lia]].
    destruct (_ && _); [|done]. constructor; [by eapply owned_snapshot_valid|done].
  - by eapply (IH (n + 1)); [done|lia].
Qed.
End spec.
