(* ===== verification/ConcurrentAdapterSpec.v ===== *)
(** * The concurrent adapter

    Its steps are steps of the concurrent engine, so the engine behind it is
    linearisable as ever; and as long as nobody bypasses it, it goes through the
    states of the sequential adapter on the commands of its members. *)
From S2P Require Import Prelude LongDouble Windows Orders OrderBook OrderManager MatchingEngine.
From S2P Require Import BlockingQueue ConcurrentEngine ConcurrentSpec OrderFlow OrderFlowSpec.
From S2P Require Import OrderFlowAdapters AdapterSpec.

Local Open Scope Z_scope.

Section concurrent.
Context `{LongDoubleFormat} {B : Type} (before_capture : option (B → option exn * B)).
Implicit Types a : OFIConcurrentMatchingAdapter B.

(** ** Projection to the engine *)

(** The steps of the engine in a step of the adapter. *)
Definition engine_labels (l : oc_label) : list label :=
  match l with
  | EngineStep l => [l]
  | MemberStarts n cmd => [Submitted n cmd]
  | MemberRefused cmd => [Refused cmd]
  | MemberReturns _ _ => []
  end.

Lemma wp_oc_capture_after_commit a :
  ofi_has_window (oc_handler_ a) →
  wp (oc_capture_after_commit before_capture) (λ _ a', oc_engine_ a' = oc_engine_ a ∧
    oc_symbol_ a' = oc_symbol_ a ∧ waiting_ a' = waiting_ a ∧ ofi_has_window (oc_handler_ a')) nothrow a.
Proof.
  intros Hw. unfold oc_capture_after_commit, oc_capture, id. do 4 wp_step.
  eapply wp_mono; [by apply wp_capture_total| |].
  - by intros [] h Hh.
  - intros ex h Hh. by apply wp_modify.
Qed.

(** What a member returns is what its promise holds. *)
Lemma oc_finish_run p a r a' :
  ofi_has_window (oc_handler_ a) → oc_finish before_capture p a = (r, a') →
  r = match p with HasValue v => Ok v | HasException e => Throw e end ∧
  oc_engine_ a' = oc_engine_ a ∧ waiting_ a' = None ∧ ofi_has_window (oc_handler_ a').
Proof.
  intros Hw Hf. unfold oc_finish, bind, modify in Hf. destruct p as [v|ex]; [|unfold throw in Hf; by simplify_eq].
  unfold when in Hf. destruct (commits v); [|unfold ret in Hf; by simplify_eq].
  destruct (wp_run _ _ _ (wp_oc_capture_after_commit (set_waiting None a) Hw)) as ([] & a1 & Hrun & He & _ & Hwt & Hw1).
  rewrite Hrun in Hf. unfold ret in Hf. by simplify_eq.
Qed.

Lemma oc_submit_run cmd a :
  oc_submit cmd a =
  match submit cmd (oc_engine_ a) with
  | (Ok n, c) => (Ok n, set_waiting (Some (n, cmd)) (set_oc_engine c a))
  | (Throw e, c) => (Throw e, set_oc_engine c a)
  | (Undefined, c) => (Undefined, set_oc_engine c a)
  | (Diverges, c) => (Diverges, set_oc_engine c a)
  end.
Proof. unfold oc_submit, bind, zoom. by destruct (submit cmd (oc_engine_ a)) as [[] ?]. Qed.

Lemma oc_step_window a l a' :
  ofi_has_window (oc_handler_ a) → oc_step before_capture a l a' → ofi_has_window (oc_handler_ a').
Proof.
  intros Hw Hs. destruct Hs as [a l c' _|a cmd n a' _ _ Hs|a cmd e a' _ _ Hs|a n cmd p r a' _ _ Hf]; [done| | |].
  - rewrite oc_submit_run in Hs. destruct (submit cmd (oc_engine_ a)) as [[] ?]; by simplify_eq.
  - rewrite oc_submit_run in Hs. destruct (submit cmd (oc_engine_ a)) as [[] ?]; by simplify_eq.
  - by destruct (oc_finish_run p a r a' Hw Hf) as (_ & _ & _ & ?).
Qed.

Lemma oc_step_engine a l a' :
  ofi_has_window (oc_handler_ a) → oc_step before_capture a l a' →
  csteps (oc_engine_ a) (engine_labels l) (oc_engine_ a').
Proof.
  intros Hw Hs.
  destruct Hs as [a l c' Hs|a cmd n a' _ _ Hs|a cmd e a' _ _ Hs|a n cmd p r a' _ _ Hf]; simpl.
  - by apply csteps_one.
  - apply csteps_one. rewrite oc_submit_run in Hs.
    destruct (submit cmd (oc_engine_ a)) as [[] ?] eqn:He; simplify_eq. by constructor.
  - apply csteps_one. rewrite oc_submit_run in Hs.
    destruct (submit cmd (oc_engine_ a)) as [[] ?] eqn:He; simplify_eq. by econstructor.
  - destruct (oc_finish_run p a r a' Hw Hf) as (_ & -> & _). constructor.
Qed.

(** A run of the adapter is a run of the engine. *)
Lemma oc_steps_engine a tr a' :
  ofi_has_window (oc_handler_ a) → oc_steps before_capture a tr a' →
  csteps (oc_engine_ a) (concat (map engine_labels tr)) (oc_engine_ a') ∧ ofi_has_window (oc_handler_ a').
Proof.
  intros Hw Hs. induction Hs as [a|a tr a1 l a2 _ IH Hstep]; [split; [constructor|done]|].
  destruct (IH Hw) as [H1 Hw1]. split; [|by eapply oc_step_window].
  rewrite map_app, concat_app. simpl. rewrite app_nil_r.
  eapply csteps_app; [done|]. by apply oc_step_engine.
Qed.

(** ** Simulation by the sequential adapter *)

(** Steps of traces in which only the adapter submits commands and nobody shuts
    the engine down. *)
Definition exclusive (l : oc_label) : bool :=
  match l with
  | EngineStep WorkerPop | EngineStep WorkerExecute | MemberStarts _ _ | MemberReturns _ _ => true
  | _ => false
  end.

(** The members that returned, with what they answered. *)
Definition returned (tr : list oc_label) : list (EngineCommand * outcome CommandValue) :=
  omap (λ l, match l with MemberReturns cmd r => Some (cmd, r) | _ => None end) tr.

Definition answer_of (p : PromiseState) : outcome CommandValue :=
  match p with HasValue v => Ok v | HasException e => Throw e end.

(** Where the engine is while a member waits: its command is queued, in
    execution, or executed. *)
Inductive progress (e : MatchingEngine) (c : ConcurrentMatchingEngine) : option (nat * EngineCommand) → Prop :=
| idle : engine_ c = e → queue_ (command_queue_ c) = [] → worker_ c = Popping → progress e c None
| queued n cmd : engine_ c = e → queue_ (command_queue_ c) = [(n, cmd)] → worker_ c = Popping →
    promises c !! n = None → progress e c (Some (n, cmd))
| running n cmd : engine_ c = e → queue_ (command_queue_ c) = [] → worker_ c = Executing n cmd →
    promises c !! n = None → progress e c (Some (n, cmd))
| done_with n cmd p : process_command cmd e = (Ok p, engine_ c) → queue_ (command_queue_ c) = [] →
    worker_ c = Popping → promises c !! n = Some p → progress e c (Some (n, cmd)).

Record simulates (s : OFIMatchingEngineAdapter B) a : Prop := mk_simulates {
  sim_handler : oc_handler_ a = ofi_handler_ s;
  sim_symbol : oc_symbol_ a = ofi_symbol_ s;
  sim_healthy : oc_analytics_healthy_ a = ofi_analytics_healthy_ s;
  sim_open : closed_ (command_queue_ (oc_engine_ a)) = false;
  sim_fresh m : (next_promise (oc_engine_ a) ≤ m)%nat → promises (oc_engine_ a) !! m = None;
  sim_adapted n cmd : waiting_ a = Some (n, cmd) → adapted cmd = true ∧ (n < next_promise (oc_engine_ a))%nat;
  sim_progress : progress (ofi_engine_ s) (oc_engine_ a) (waiting_ a)
}.

Lemma adapter_run_snoc cmds cmd s rs s1 p s2 :
  adapter_run before_capture cmds s = Some (rs, s1) → adapter_call before_capture cmd s1 = (answer_of p, s2) →
  adapter_run before_capture (cmds ++ [cmd]) s = Some (rs ++ [p], s2).
Proof.
  revert s rs. induction cmds as [|c cmds IH]; intros s rs Hrun Hc; simpl in *.
  - simplify_eq. rewrite Hc. by destruct p.
  - destruct (adapter_call before_capture c s) as [[v|ex| |] s'];
      [destruct (adapter_run before_capture cmds s') as [[rs' s'']|] eqn:Hr; simplify_eq;
       by rewrite (IH _ _ Hr Hc)..|done|done].
Qed.

(** Both adapters take the same snapshot. *)
Lemma capture_agrees s a :
  oc_handler_ a = ofi_handler_ s → oc_symbol_ a = ofi_symbol_ s →
  oc_analytics_healthy_ a = ofi_analytics_healthy_ s → engine_ (oc_engine_ a) = ofi_engine_ s →
  let a' := snd (oc_capture_after_commit before_capture a) in
  let s' := snd (capture_after_commit before_capture s) in
  oc_handler_ a' = ofi_handler_ s' ∧ oc_symbol_ a' = ofi_symbol_ s' ∧
  oc_analytics_healthy_ a' = ofi_analytics_healthy_ s'.
Proof.
  intros Hh Hs Hf He. unfold oc_capture_after_commit, capture_after_commit, oc_capture, ofi_capture,
    try_catch, bind, gets, zoom, modify, id. rewrite Hh, Hs, He.
  by destruct (capture before_capture _ _ _) as [[] ?].
Qed.

Lemma sim_return s a n cmd p r a' :
  ofi_has_window (oc_handler_ a) → simulates s a → waiting_ a = Some (n, cmd) →
  promises (oc_engine_ a) !! n = Some p → oc_finish before_capture p a = (r, a') →
  ∃ s', adapter_call before_capture cmd s = (answer_of p, s') ∧ r = answer_of p ∧ simulates s' a'.
Proof.
  intros Hw [Hh Hs Hf Ho Hfr Had Hpr] Hwait Hp Hfin. destruct (Had _ _ Hwait) as [Hadapt _].
  rewrite Hwait in Hpr. inversion Hpr as [| | |? ? p' Hproc Hq Hwk Hp']; simplify_eq; [congruence..|].
  destruct (oc_finish_run p a r a' Hw Hfin) as (-> & He & Hw0 & _).
  destruct (adapter_call_step before_capture cmd s p (engine_ (oc_engine_ a))) as (s' & (Hes & Hss & _) & Hcall & Hcap);
    [by rewrite <- Hh|done|].
  exists s'. split; [by destruct p|]. split; [by destruct p|].
  assert (Hend : oc_handler_ a' = ofi_handler_ s' ∧ oc_symbol_ a' = ofi_symbol_ s' ∧
    oc_analytics_healthy_ a' = ofi_analytics_healthy_ s').
  { unfold oc_finish, bind, modify in Hfin. destruct p as [v|ex]; [|unfold throw in Hfin; simplify_eq; by subst].
    rewrite Hadapt in Hcap. simpl in Hcap. unfold when in Hfin. destruct (commits v); [|unfold ret in Hfin; simplify_eq; by subst].
    pose proof (capture_agrees (set_ofi_engine (engine_ (oc_engine_ a)) s) (set_waiting None a)) as Hag.
    rewrite Hcap in Hag. simpl in Hag. specialize (Hag Hh Hs Hf eq_refl).
    destruct (oc_capture_after_commit before_capture (set_waiting None a)) as [[[]| | |] a1];
      unfold ret in Hfin; simplify_eq; done. }
  destruct Hend as (? & ? & ?). split; rewrite ?He, ?Hw0; try done.
  simpl in Hes. by constructor.
Qed.

Lemma sim_step s a l a' :
  ofi_has_window (oc_handler_ a) → simulates s a → exclusive l = true → oc_step before_capture a l a' →
  match l with
  | MemberReturns cmd r => ∃ s' p, adapter_call before_capture cmd s = (answer_of p, s') ∧
      r = answer_of p ∧ simulates s' a'
  | _ => simulates s a'
  end.
Proof.
  intros Hw Hsim Hex Hstep.
  destruct Hstep as [a l c' Hc|a cmd n a' Hwt Had Hs|a cmd e a' _ _ Hs|a n cmd p r a' Hwt Hp Hf]; [| |done|].
  - destruct Hsim as [Hh Hsy Hf Ho Hfr Had Hpr]. destruct Hc as [| | |c c' Hpop|c c' Hexe|]; try done.
    + unfold worker_pop, pop, can_pop, take_front in Hpop. rewrite Ho in Hpop.
      inversion Hpr as [He Hq Hwk Hw0|n cmd He Hq Hwk Hn Hw0|n cmd He Hq Hwk Hn Hw0|n cmd p Hproc Hq Hwk Hn Hw0];
        rewrite Hwk in Hpop; try done; rewrite Hq in Hpop; [done| |done].
      unfold bind, gets, modify, id in Hpop. simpl in Hpop. rewrite Hq in Hpop. simplify_eq/=.
      rewrite <- Hw0 in Had. split; simpl; rewrite <- ?Hw0; try done. by apply running.
    + unfold worker_execute in Hexe.
      inversion Hpr as [He Hq Hwk Hw0|n cmd He Hq Hwk Hn Hw0|n cmd He Hq Hwk Hn Hw0|n cmd p Hproc Hq Hwk Hn Hw0];
        rewrite Hwk in Hexe; try done. rewrite He in Hexe.
      destruct (process_command cmd (ofi_engine_ s)) as [[p| | |] e'] eqn:Hproc; simplify_eq.
      destruct (Had n cmd ltac:(done)) as [? Hlt]. rewrite <- Hw0 in Had.
      split; simpl; rewrite <- ?Hw0; try done.
      * intros m Hm. rewrite lookup_insert_ne by lia. by apply Hfr.
      * eapply (done_with _ _ n cmd p); simpl; [done|done|done|by rewrite lookup_insert_eq].
  - destruct Hsim as [Hh Hsy Hf Ho Hfr _ Hpr]. rewrite Hwt in Hpr. inversion Hpr as [He Hq Hwk| | |].
    rewrite oc_submit_run in Hs. destruct (submit_cases cmd (oc_engine_ a)) as [[Hc Hsub]|[Hc _]]; [|congruence].
    rewrite Hsub in Hs. simplify_eq. split; simpl; try done.
    + intros m Hm. apply Hfr. lia.
    + intros n' cmd' [= <- <-]. split; [done|lia].
    + apply queued; simpl; [done|by rewrite Hq|done|by apply Hfr].
  - destruct (sim_return s a n cmd p r a' Hw Hsim Hwt Hp Hf) as (s' & ? & ? & ?). by exists s', p.
Qed.

(** Every exclusive run is a run of the sequential adapter. *)
Lemma oc_steps_sim s0 a0 tr a :
  ofi_has_window (oc_handler_ a0) → simulates s0 a0 → oc_steps before_capture a0 tr a →
  forallb exclusive tr = true →
  ∃ rs s, adapter_run before_capture (map fst (returned tr)) s0 = Some (rs, s) ∧
    map snd (returned tr) = map answer_of rs ∧ simulates s a.
Proof.
  intros Hw Hsim Hrun. induction Hrun as [a0|a0 tr a1 l a2 Hrun IH Hstep]; intros Hex.
  { by exists [], s0. }
  rewrite forallb_app in Hex. simpl in Hex. apply andb_true_iff in Hex as [Hex Hl].
  rewrite andb_true_r in Hl. destruct (IH Hw Hsim Hex) as (rs & s & Hr & Ha & Hs).
  destruct (oc_steps_engine _ _ _ Hw Hrun) as [_ Hw1].
  pose proof (sim_step s a1 l a2 Hw1 Hs Hl Hstep) as Hnext.
  unfold returned. rewrite omap_app. fold (returned tr).
  destruct l as [l|n cmd|cmd|cmd r]; simpl; rewrite ?app_nil_r; [by exists rs, s|by exists rs, s|done|].
  destruct Hnext as (s' & p & Hcall & -> & Hs'). exists (rs ++ [p]), s'.
  rewrite !map_app. simpl. split_and!; [by eapply adapter_run_snoc|by rewrite Ha|done].
Qed.
End concurrent.
