(* ===== verification/Positions.v ===== *)
(** * Positions

    [include/position.hpp], [include/position_manager.hpp] and
    [include/position_execution_handler.hpp]: the signed quantity of a symbol
    with its average entry price and realised profit, the map of positions, and
    the handler that applies the trades of an execution. *)
From S2P Require Import Prelude Orders TradeStore.

Local Open Scope Z_scope.

(** ** Wide arithmetic *)

Definition INT128_MAX : Z := 2 ^ 127 - 1.
Definition INT128_MIN : Z := - 2 ^ 127.

(** [__int128] arithmetic: overflow is undefined. *)
Definition checked128 {S} (x : Z) : M S Z :=
  if (INT128_MIN <=? x) && (x <=? INT128_MAX) then ret x else undefined.

(** [static_cast<std::int64_t>] of an integer: modulo 2^64. *)
Definition narrow64 (x : Z) : Z :=
  (x + 9223372036854775808) mod 18446744073709551616 - 9223372036854775808.

(** ** Position *)

Record Position : Type := mkPosition {
  symbol_ : string;
  quantity_ : Z;
  average_entry_price_ticks_ : Z;
  realized_pnl_ticks_ : Z
}.

(** The two constructors. *)
Definition new_position (symbol : string) : Position := mkPosition symbol 0 0 0.
Definition make_position (symbol : string) (quantity average : Z) : Position :=
  mkPosition symbol quantity average 0.

Definition is_flat (x : Position) : bool := quantity_ x =? 0.
Definition is_long (x : Position) : bool := quantity_ x >? 0.
Definition is_short (x : Position) : bool := quantity_ x <? 0.

Definition set_position (q a r : Z) (x : Position) : Position := mkPosition (symbol_ x) q a r.

Definition absolute_quantity {S} (quantity : Z) : M S Z :=
  if quantity <? 0 then neg64 quantity else ret quantity.

Definition unrealized_pnl_ticks (market_price : Z) : M Position Z :=
  if market_price <=? 0 then throw (invalid_argument "Market price must be positive")
  else
    let* x := gets id in
    if quantity_ x =? 0 then ret 0
    else
      let* d := sub64 market_price (average_entry_price_ticks_ x) in
      let* pnl := checked128 (d * quantity_ x) in
      ret (narrow64 pnl).

(** The branch of [apply_trade] that adds to the position. *)
Definition add_to_position (quantity price : Z) : M Position unit :=
  let* x := gets id in
  let* old_absolute_quantity := absolute_quantity (quantity_ x) in
  let* trade_absolute_quantity := absolute_quantity quantity in
  let* new_absolute_quantity := add64 old_absolute_quantity trade_absolute_quantity in
  let* old_total := checked128 (average_entry_price_ticks_ x * old_absolute_quantity) in
  let* trade_total := checked128 (price * trade_absolute_quantity) in
  let* weighted_price_total := checked128 (old_total + trade_total) in
  let average := narrow64 (Z.quot weighted_price_total new_absolute_quantity) in
  let* sum := add64 (quantity_ x) quantity in
  modify (set_position sum average (realized_pnl_ticks_ x)).

(** The rest of [apply_trade]: the trade closes some or all of the position, or
    turns it round. *)
Definition close_position (quantity price : Z) : M Position unit :=
  let* x := gets id in
  let current_is_long := quantity_ x >? 0 in
  let* old_absolute_quantity := absolute_quantity (quantity_ x) in
  let* trade_absolute_quantity := absolute_quantity quantity in
  let closing_quantity :=
    if trade_absolute_quantity <? old_absolute_quantity
    then trade_absolute_quantity else old_absolute_quantity in
  let* price_difference := checked128
    (if current_is_long then price - average_entry_price_ticks_ x
     else average_entry_price_ticks_ x - price) in
  let* realized_change := checked128 (price_difference * closing_quantity) in
  let* realized := add64 (realized_pnl_ticks_ x) (narrow64 realized_change) in
  modify (λ x, set_position (quantity_ x) (average_entry_price_ticks_ x) realized x) ;;;
  if trade_absolute_quantity <? old_absolute_quantity then
    let* sum := add64 (quantity_ x) quantity in
    modify (λ x, set_position sum (average_entry_price_ticks_ x) (realized_pnl_ticks_ x) x)
  else if trade_absolute_quantity =? old_absolute_quantity then
    modify (λ x, set_position 0 0 (realized_pnl_ticks_ x) x)
  else
    let* sum := add64 (quantity_ x) quantity in
    modify (λ x, set_position sum price (realized_pnl_ticks_ x) x).

Definition apply_trade (quantity price : Z) : M Position unit :=
  if quantity =? 0 then throw (invalid_argument "Trade quantity must not be zero")
  else if price <=? 0 then throw (invalid_argument "Trade price must be positive")
  else
    let* x := gets id in
    if quantity_ x =? 0 then
      modify (set_position quantity price (realized_pnl_ticks_ x))
    else
      let current_is_long := quantity_ x >? 0 in
      let trade_is_buy := quantity >? 0 in
      if Bool.eqb current_is_long trade_is_buy then add_to_position quantity price
      else close_position quantity price.

(** ** PositionManager *)

Record PositionManager : Type := mkPositionManager { positions_ : gmap string Position }.

Definition empty_positions : PositionManager := mkPositionManager ∅.

Definition set_positions (m : gmap string Position) (pm : PositionManager) : PositionManager :=
  mkPositionManager m.

(** A member call through the iterator of an entry that exists. *)
Definition in_position {A} (symbol : string) (m : M Position A) : M PositionManager A := λ pm,
  match positions_ pm !! symbol with
  | None => (Undefined, pm)
  | Some x => let '(r, x') := m x in (r, set_positions (<[symbol := x']> (positions_ pm)) pm)
  end.

(** [try_emplace]: whether the entry is new. *)
Definition try_emplace (symbol : string) : M PositionManager bool :=
  let* pm := gets id in
  match positions_ pm !! symbol with
  | Some _ => ret false
  | None => modify (set_positions (<[symbol := new_position symbol]> (positions_ pm))) ;;; ret true
  end.

Definition manager_apply_trade (symbol : string) (quantity price : Z) : M PositionManager unit :=
  if decide (symbol = "") then throw (invalid_argument "Position symbol must not be empty")
  else
    let* inserted := try_emplace symbol in
    try_catch (in_position symbol (apply_trade quantity price)) (λ e,
      when inserted (modify (λ pm, set_positions (delete symbol (positions_ pm)) pm)) ;;;
      throw e).

Definition has_position (symbol : string) (pm : PositionManager) : bool :=
  match positions_ pm !! symbol with Some _ => true | None => false end.

Definition position {S} (symbol : string) (pm : PositionManager) : M S Position :=
  match positions_ pm !! symbol with
  | None => throw (out_of_range ("Position not found for symbol: " +:+ symbol))
  | Some x => ret x
  end.

Definition manager_size (pm : PositionManager) : nat := size (positions_ pm).

(** ** PositionExecutionHandler *)

Definition apply_execution (symbol : string) (result : ExecutionResult) : M PositionManager unit :=
  if decide (symbol = "") then throw (invalid_argument "Execution symbol must not be empty")
  else
    for_each (result_trades result) (λ trade,
      let* signed_quantity :=
        if is_buy (result_side result) then ret (trade_quantity trade)
        else neg64 (trade_quantity trade) in
      manager_apply_trade symbol signed_quantity (trade_price_ticks trade)).

(** ** What a trade does to a position *)

(** A position as trades leave it: flat without a price, or with a positive
    one. *)
Definition position_ok (x : Position) : Prop :=
  Z.abs (quantity_ x) ≤ INT64_MAX ∧ int64 (realized_pnl_ticks_ x) ∧
  (quantity_ x = 0 ∧ average_entry_price_ticks_ x = 0 ∨
   quantity_ x ≠ 0 ∧ 0 < average_entry_price_ticks_ x ≤ INT64_MAX).

(** What was received less what was paid, as the position accounts for it. *)
Definition book_cash (x : Position) : Z :=
  realized_pnl_ticks_ x - average_entry_price_ticks_ x * quantity_ x.

(** The quantity of the old position a trade closes, and its profit. *)
Definition closed_quantity (x : Position) (q : Z) : Z :=
  if Z.sgn q =? - Z.sgn (quantity_ x) then Z.min (Z.abs q) (Z.abs (quantity_ x)) else 0.

Definition closed_profit (x : Position) (q price : Z) : Z :=
  Z.sgn (quantity_ x) * (price - average_entry_price_ticks_ x) * closed_quantity x q.

Lemma narrow64_id x : int64 x → narrow64 x = x.
Proof. unfold int64, narrow64, INT64_MIN, INT64_MAX. intros. rewrite Z.mod_small; lia. Qed.

Lemma wp_checked128 {S} x (Q : Z → S → Prop) E s :
  INT128_MIN ≤ x ≤ INT128_MAX → Q x s → wp (checked128 x) Q E s.
Proof.
  intros Hx HQ. unfold checked128. rewrite (proj2 (Z.leb_le _ _) (proj1 Hx)), (proj2 (Z.leb_le _ _) (proj2 Hx)).
  by apply wp_ret.
Qed.

Lemma wp_absolute {S} q (Q : Z → S → Prop) E s :
  Z.abs q ≤ INT64_MAX → Q (Z.abs q) s → wp (absolute_quantity q) Q E s.
Proof.
  intros Hq HQ. unfold absolute_quantity. destruct (q <? 0) eqn:Hs; zb.
  - rewrite Z.abs_neq in HQ by lia. wp_steps; [mlia|done].
  - rewrite Z.abs_eq in HQ by lia. by apply wp_ret.
Qed.

(** Products of 64-bit numbers fit. *)
Lemma product_fits a b : Z.abs a ≤ 2 ^ 64 → Z.abs b ≤ INT64_MAX → INT128_MIN ≤ a * b ≤ INT128_MAX.
Proof.
  unfold INT128_MIN, INT128_MAX, INT64_MAX. intros Ha Hb.
  assert (Z.abs (a * b) ≤ 2 ^ 64 * 9223372036854775807) by (rewrite Z.abs_mul; nia).
  change (2 ^ 127) with (2 ^ 64 * 9223372036854775808). lia.
Qed.

(** The position after a trade. *)
Record traded (x : Position) (q price : Z) (x' : Position) : Prop := mk_traded {
  tr_symbol : symbol_ x' = symbol_ x;
  tr_quantity : quantity_ x' = quantity_ x + q;
  tr_realized : realized_pnl_ticks_ x' = realized_pnl_ticks_ x + closed_profit x q price;
  tr_ok : position_ok x';
  tr_cash : Z.abs (book_cash x' - (book_cash x - q * price)) < Z.max 1 (Z.abs (quantity_ x'));
  tr_exact : Z.sgn q ≠ Z.sgn (quantity_ x) → book_cash x' = book_cash x - q * price;
  tr_average : quantity_ x ≠ 0 → quantity_ x' ≠ 0 →
    Z.min (average_entry_price_ticks_ x) price ≤ average_entry_price_ticks_ x' ≤
    Z.max (average_entry_price_ticks_ x) price
}.

(** When the arithmetic of a trade stays in range. *)
Definition trade_fits (x : Position) (q price : Z) : Prop :=
  Z.abs q ≤ INT64_MAX ∧ Z.abs (quantity_ x + q) ≤ INT64_MAX ∧ price ≤ INT64_MAX ∧
  int64 (closed_profit x q price) ∧ int64 (realized_pnl_ticks_ x + closed_profit x q price).

Lemma quot_average a A p B :
  0 < A → 0 < B → 0 < a ≤ INT64_MAX → 0 < p ≤ INT64_MAX →
  let v := Z.quot (a * A + p * B) (A + B) in
  Z.min a p ≤ v ≤ Z.max a p ∧ 0 ≤ a * A + p * B - v * (A + B) < A + B.
Proof.
  intros HA HB Ha Hp v. unfold v. rewrite Z.quot_div_nonneg by nia.
  pose proof (Z.div_mod (a * A + p * B) (A + B) ltac:(lia)) as Hdm.
  pose proof (Z.mod_pos_bound (a * A + p * B) (A + B) ltac:(lia)) as Hm.
  split; [split|].
  - apply Z.div_le_lower_bound; [lia|]. nia.
  - apply Z.div_le_upper_bound; [lia|]. nia.
  - lia.
Qed.

Lemma wp_add_to_position x q price Q E :
  position_ok x → q ≠ 0 → 0 < price → Z.sgn q = Z.sgn (quantity_ x) → trade_fits x q price →
  (∀ x', traded x q price x' → Q tt x') → wp (add_to_position q price) Q E x.
Proof.
  intros (Hq & Hr & Ha) Hq0 Hp Hsg (Hqa & Hsum & Hpm & Hc & Hrc) HQ.
  assert (Hx0 : quantity_ x ≠ 0) by (intros H0; rewrite H0 in Hsg; simpl in Hsg; lia).
  destruct Ha as [[? _]|[_ Ha]]; [done|].
  assert (Habs : Z.abs (quantity_ x + q) = Z.abs (quantity_ x) + Z.abs q) by lia.
  destruct (quot_average (average_entry_price_ticks_ x) (Z.abs (quantity_ x)) price (Z.abs q))
    as [Hav Hrem]; [lia..|].
  unfold add_to_position, id. wp_steps. apply wp_absolute; [done|]. wp_steps. apply wp_absolute; [done|].
  wp_steps; [mlia|]. apply wp_checked128; [apply product_fits; mlia|]. wp_steps.
  apply wp_checked128; [apply product_fits; mlia|]. wp_steps.
  apply wp_checked128.
  { unfold INT128_MIN, INT128_MAX. unfold INT64_MAX in *.
    change (2 ^ 127) with (18446744073709551616 * 9223372036854775808). nia. }
  rewrite narrow64_id by mlia. wp_steps; [mlia|]. apply HQ.
  set (v := Z.quot _ _) in *.
  assert (Hcl : closed_quantity x q = 0) by (unfold closed_quantity; case_match; zb; lia).
  assert (Hcp : closed_profit x q price = 0) by (unfold closed_profit; rewrite Hcl; lia).
  split; simpl; [done|done|lia| | |by rewrite Hsg|done].
  - split_and!; simpl; [lia|done|]. right. split; [lia|]. lia.
  - unfold book_cash. simpl.
    destruct (Z.lt_ge_cases 0 q); [rewrite !Z.abs_eq in * by lia|rewrite (Z.abs_neq q), (Z.abs_neq (quantity_ x)) in * by lia]; lia.
Qed.

(** The three ways a trade against the position ends. *)
Lemma closing_traded x q price :
  position_ok x → q ≠ 0 → 0 < price → quantity_ x ≠ 0 → Z.sgn q = - Z.sgn (quantity_ x) →
  trade_fits x q price →
  traded x q price (set_position (quantity_ x + q)
    (if Z.abs q <? Z.abs (quantity_ x) then average_entry_price_ticks_ x
     else if Z.abs q =? Z.abs (quantity_ x) then 0 else price)
    (realized_pnl_ticks_ x + closed_profit x q price) x).
Proof.
  intros (Hq & Hr & Ha) Hq0 Hp Hx0 Hsg (Hqa & Hsum & Hpm & Hc & Hrc).
  destruct Ha as [[? _]|[_ Ha]]; [done|].
  assert (Hcl : closed_quantity x q = Z.min (Z.abs q) (Z.abs (quantity_ x)))
    by (unfold closed_quantity; case_match; zb; lia).
  set (A' := if Z.abs q <? Z.abs (quantity_ x) then _ else _).
  assert (Hcash : realized_pnl_ticks_ x + closed_profit x q price - A' * (quantity_ x + q) =
    book_cash x - q * price).
  { unfold book_cash, closed_profit. rewrite Hcl.
    assert (Z.sgn (quantity_ x) * Z.abs (quantity_ x) = quantity_ x) as Hm by lia.
    assert (Z.sgn (quantity_ x) * Z.abs q = - q) as Hn by lia.
    unfold A'. destruct (Z.abs q <? Z.abs (quantity_ x)) eqn:Hlt; zb; [rewrite Z.min_l by lia; nia|].
    rewrite Z.min_r by lia. destruct (Z.abs q =? Z.abs (quantity_ x)) eqn:He; zb; [|nia].
    assert (q = - quantity_ x) as -> by lia. nia. }
  split; simpl; [done|done|done| | | |].
  - split_and!; simpl; [done|done|]. unfold A'.
    destruct (Z.abs q <? Z.abs (quantity_ x)) eqn:?; zb; [right; lia|].
    destruct (Z.abs q =? Z.abs (quantity_ x)) eqn:?; zb; [left; lia|right; lia].
  - unfold book_cash at 1. simpl. rewrite Hcash, Z.sub_diag. simpl. lia.
  - intros _. exact Hcash.
  - intros _ Hne. unfold A'.
    destruct (Z.abs q <? Z.abs (quantity_ x)) eqn:?; zb; [lia|].
    destruct (Z.abs q =? Z.abs (quantity_ x)) eqn:?; zb; lia.
Qed.

Lemma wp_close_position x q price Q E :
  position_ok x → q ≠ 0 → 0 < price → quantity_ x ≠ 0 → Z.sgn q = - Z.sgn (quantity_ x) →
  trade_fits x q price →
  (∀ x', traded x q price x' → Q tt x') → wp (close_position q price) Q E x.
Proof.
  intros Hok Hq0 Hp Hx0 Hsg Hfit HQ. pose proof (closing_traded x q price Hok Hq0 Hp Hx0 Hsg Hfit) as Htr.
  apply HQ in Htr. destruct Hok as (Hq & Hr & Ha), Hfit as (Hqa & Hsum & Hpm & Hc & Hrc).
  destruct Ha as [[? _]|[_ Ha]]; [done|].
  assert (Hmin : (if Z.abs q <? Z.abs (quantity_ x) then Z.abs q else Z.abs (quantity_ x)) =
    closed_quantity x q) by (unfold closed_quantity; repeat case_match; zb; lia).
  assert (Hprofit : (if quantity_ x >? 0 then price - average_entry_price_ticks_ x
    else average_entry_price_ticks_ x - price) * closed_quantity x q = closed_profit x q price).
  { unfold closed_profit. destruct (quantity_ x >? 0) eqn:Hl; zb.
    - rewrite Z.sgn_pos by lia. ring.
    - rewrite Z.sgn_neg by lia. ring. }
  unfold close_position, id. wp_steps. apply wp_absolute; [done|]. wp_step. apply wp_absolute; [done|].
  rewrite Hmin. wp_step.
  apply wp_checked128; [unfold INT128_MIN, INT128_MAX; case_match; mlia|]. wp_step.
  rewrite Hprofit. apply wp_checked128; [unfold INT128_MIN, INT128_MAX; mlia|].
  rewrite narrow64_id by done. do 2 wp_step; [done|]. do 2 wp_step.
  destruct (Z.abs q <? Z.abs (quantity_ x)) eqn:?; zb; [wp_steps; [mlia|done]|].
  destruct (Z.abs q =? Z.abs (quantity_ x)) eqn:?; zb; wp_steps; [|mlia|done].
  by replace (quantity_ x + q) with 0 in Htr by lia.
Qed.

(** A trade is accounted for, or refused because it is empty or has no price. *)
Lemma wp_apply_trade x q price Q E :
  position_ok x →
  (q ≠ 0 → 0 < price → trade_fits x q price) →
  (q ≠ 0 → 0 < price → ∀ x', traded x q price x' → Q tt x') →
  (q = 0 ∨ price ≤ 0 → ∀ w, E (invalid_argument w) x) →
  wp (apply_trade q price) Q E x.
Proof.
  intros Hok Hfit HQ HE. unfold apply_trade.
  wp_step; zb; [apply wp_throw; auto|]. wp_step; zb; [apply wp_throw; auto|].
  specialize (Hfit ltac:(done) ltac:(lia)). specialize (HQ ltac:(done) ltac:(lia)).
  do 2 wp_step. unfold id. wp_step; zb.
  - apply wp_modify, HQ. destruct Hok as (Hq & Hr & Ha), Hfit as (Hqa & Hsum & Hpm & Hc & Hrc).
    destruct Ha as [[H0 Ha0]|[? _]]; [|done].
    assert (Hcp : closed_profit x q price = 0) by (unfold closed_profit; rewrite H0; done).
    split; simpl; [done|lia|lia| | | |lia].
    + split_and!; simpl; [done|done|right; lia].
    + unfold book_cash. simpl. rewrite H0, Ha0. lia.
    + intros _. unfold book_cash. simpl. rewrite H0, Ha0. lia.
  - destruct (quantity_ x >? 0) eqn:H1, (q >? 0) eqn:H2; simpl; zb;
      first [apply wp_add_to_position; [done|done|lia| |done|done]; lia
            |apply wp_close_position; [done|done|lia|done| |done|done]; lia].
Qed.

(** ** The map of positions *)

(** The position of a symbol, flat when there is none. *)
Definition held (symbol : string) (pm : PositionManager) : Position :=
  default (new_position symbol) (positions_ pm !! symbol).

Lemma wp_manager_apply_trade symbol q price pm Q E :
  symbol ≠ "" → position_ok (held symbol pm) →
  (q ≠ 0 → 0 < price → trade_fits (held symbol pm) q price) →
  (q ≠ 0 → 0 < price → ∀ x', traded (held symbol pm) q price x' →
     Q tt (mkPositionManager (<[symbol := x']> (positions_ pm)))) →
  (q = 0 ∨ price ≤ 0 → ∀ w, E (invalid_argument w) pm) →
  wp (manager_apply_trade symbol q price) Q E pm.
Proof.
  intros Hsym Hok Hfit HQ HE. unfold manager_apply_trade. rewrite decide_False by done.
  unfold held in *. unfold try_emplace, id. destruct pm as [m]. simpl in *.
  assert (Hin : ∀ m' x (inserted : bool), m' !! symbol = Some x → x = default (new_position symbol) (m !! symbol) →
    (∀ x', <[symbol := x']> m' = <[symbol := x']> m) → (if inserted then delete symbol m' else m') = m →
    wp (try_catch (in_position symbol (apply_trade q price)) (λ e,
      when inserted (modify (λ pm, set_positions (delete symbol (positions_ pm)) pm)) ;;; throw e))
      Q E (mkPositionManager m')).
  { intros m' x inserted Hx -> Hins Hback. apply wp_try_catch.
    assert (Hwp : wp (apply_trade q price) (λ a x', Q a (mkPositionManager (<[symbol := x']> m)))
      (λ ex x', x' = default (new_position symbol) (m !! symbol) ∧ (q = 0 ∨ price ≤ 0) ∧ ∃ w, ex = invalid_argument w)
      (default (new_position symbol) (m !! symbol))) by (apply wp_apply_trade; eauto).
    unfold wp in Hwp. unfold wp at 1. unfold in_position. simpl. rewrite Hx.
    destruct (apply_trade q price (default (new_position symbol) (m !! symbol))) as [[[]|ex| |] x']; [| |done..].
    - unfold set_positions. by rewrite Hins.
    - destruct Hwp as (-> & Hbad & w & ->). unfold set_positions.
      rewrite insert_id by done. wp_step. apply wp_when.
      + intros ->. wp_steps. simpl. rewrite Hback. by apply HE.
      + intros ->. wp_steps. rewrite Hback. by apply HE. }
  do 3 wp_step. simpl. destruct (m !! symbol) as [x|] eqn:Hm.
  - wp_step. by apply (Hin m x false).
  - do 3 wp_step. simpl. apply (Hin _ (new_position symbol) true); [by rewrite lookup_insert_eq|done| |].
    + intros x'. by rewrite insert_insert_eq.
    + by rewrite delete_insert_id.
Qed.

Lemma held_insert symbol x pm :
  held symbol (mkPositionManager (<[symbol := x]> (positions_ pm))) = x.
Proof. unfold held. simpl. by rewrite lookup_insert_eq. Qed.

(** ** The trades of an execution *)

Definition signed (s : OrderSide) (z : Z) : Z := if is_buy s then z else - z.

Lemma closed_profit_bound x q price pmax :
  position_ok x → average_entry_price_ticks_ x ≤ pmax → 0 < price ≤ pmax →
  Z.abs (closed_profit x q price) ≤ pmax * Z.abs q.
Proof.
  intros (_ & _ & Ha) Hav Hp. unfold closed_profit.
  assert (Hc : 0 ≤ closed_quantity x q ≤ Z.abs q) by (unfold closed_quantity; case_match; lia).
  assert (Hd : Z.abs (Z.sgn (quantity_ x) * (price - average_entry_price_ticks_ x)) ≤ pmax) by lia.
  rewrite Z.abs_mul, (Z.abs_eq (closed_quantity x q)) by lia. nia.
Qed.

Lemma traded_average x q price x' pmax :
  position_ok x → 0 < price ≤ pmax → average_entry_price_ticks_ x ≤ pmax → traded x q price x' →
  average_entry_price_ticks_ x' ≤ pmax ∨ quantity_ x = 0.
Proof.
  intros _ Hp Ha [_ _ _ Hok _ _ Hav]. destruct Hok as (_ & _ & Hok).
  destruct (decide (quantity_ x = 0)) as [|H0]; [by right|left].
  destruct (decide (quantity_ x' = 0)) as [|H0']; [lia|]. specialize (Hav H0 H0'). lia.
Qed.

(** A position of at most [limit] units entered at prices up to [pmax]. *)
Definition position_within (limit pmax : Z) (x : Position) : Prop :=
  position_ok x ∧ average_entry_price_ticks_ x ≤ pmax ∧ Z.abs (quantity_ x) ≤ limit.

(** A position after trades: each is accounted for at its own price, in order. *)
Inductive booked (s : OrderSide) : Position → list Trade → Position → Prop :=
| booked_nil x : booked s x [] x
| booked_cons x t x1 ts x2 :
    traded x (signed s (trade_quantity t)) (trade_price_ticks t) x1 → booked s x1 ts x2 →
    booked s x (t :: ts) x2.

Lemma booked_app s x ts1 x1 ts2 x2 : booked s x ts1 x1 → booked s x1 ts2 x2 → booked s x (ts1 ++ ts2) x2.
Proof. induction 1; [done|]. intros. econstructor; [done|auto]. Qed.

(** The map after some trades of one symbol. *)
Record executed (symbol : string) (s : OrderSide) (ts : list Trade) (limit pmax : Z)
    (pm pm' : PositionManager) : Prop := mk_executed {
  ex_others symbol' : symbol' ≠ symbol → positions_ pm' !! symbol' = positions_ pm !! symbol';
  ex_booked : booked s (held symbol pm) ts (held symbol pm');
  ex_within : position_within limit pmax (held symbol pm');
  ex_quantity :
    quantity_ (held symbol pm') = quantity_ (held symbol pm) + signed s (traded_total ts);
  ex_realized : Z.abs (realized_pnl_ticks_ (held symbol pm')) ≤
    Z.abs (realized_pnl_ticks_ (held symbol pm)) + pmax * traded_total ts
}.

Lemma traded_total_nonneg ts : Forall (λ t, 0 < trade_quantity t) ts → 0 ≤ traded_total ts.
Proof. induction 1; simpl; lia. Qed.

Section execution.
Context (symbol : string) (s : OrderSide) (limit pmax : Z).
Hypothesis (Hsym : symbol ≠ "") (Hlimit : limit ≤ INT64_MAX) (Hpmax : 0 ≤ pmax ≤ INT64_MAX).

Lemma wp_apply_one t pm Q E :
  0 < trade_quantity t → 0 < trade_price_ticks t ≤ pmax →
  position_within limit pmax (held symbol pm) →
  Z.abs (quantity_ (held symbol pm) + signed s (trade_quantity t)) ≤ limit →
  trade_quantity t ≤ INT64_MAX →
  Z.abs (realized_pnl_ticks_ (held symbol pm)) + pmax * trade_quantity t ≤ INT64_MAX →
  (∀ pm', executed symbol s [t] limit pmax pm pm' → Q tt pm') →
  wp (let* signed_quantity := if is_buy s then ret (trade_quantity t) else neg64 (trade_quantity t) in
      manager_apply_trade symbol signed_quantity (trade_price_ticks t)) Q E pm.
Proof.
  intros Hq Hp (Hok & Hav & Hlim) Hsum Hq64 Hreal HQ. wp_step.
  set (x := held symbol pm) in *. set (z := signed s (trade_quantity t)) in *.
  assert (Hz : z ≠ 0 ∧ Z.abs z = trade_quantity t) by (unfold z, signed; destruct (is_buy s); lia).
  pose proof (closed_profit_bound x z (trade_price_ticks t) pmax Hok Hav Hp) as Hcp.
  assert (Hgo : wp (manager_apply_trade symbol z (trade_price_ticks t)) Q E pm).
  { destruct Hz as [Hz0 Hza]. rewrite Hza in Hcp.
    apply wp_manager_apply_trade; [done|done| | |lia].
    - intros _ _. fold x. split_and!; [lia|lia|lia|mlia|mlia].
    - intros _ _ x' Htr. fold x in Htr. apply HQ. pose proof Htr as [_ Hquant Hre Hok' _ _ _].
      split; rewrite ?held_insert; fold x.
      + intros symbol' Hne. simpl. by rewrite lookup_insert_ne.
      + by eapply booked_cons; [|constructor].
      + split_and!; [done| |by rewrite Hquant].
        destruct (traded_average x z _ x' pmax Hok Hp Hav Htr) as [?|H0]; [done|].
        destruct Hok' as (_ & _ & Hcase).
        assert (Hc0 : book_cash x' = book_cash x - z * trade_price_ticks t)
          by (apply (tr_exact _ _ _ _ Htr); rewrite H0; simpl; lia).
        assert (Hprof : closed_profit x z (trade_price_ticks t) = 0)
          by (unfold closed_profit; rewrite H0; done).
        unfold book_cash in Hc0. rewrite Hre, Hprof, Hquant, H0 in Hc0. nia.
      + rewrite Hquant. simpl. unfold z. by rewrite Z.add_0_r.
      + rewrite Hre. simpl. lia. }
  unfold z, signed in Hgo. destruct (is_buy s); wp_steps; [done|mlia|done].
Qed.

Lemma executed_trans ts1 ts2 pm1 pm2 pm3 :
  executed symbol s ts1 limit pmax pm1 pm2 → executed symbol s ts2 limit pmax pm2 pm3 →
  executed symbol s (ts1 ++ ts2) limit pmax pm1 pm3.
Proof.
  intros [Ho1 Hb1 _ Hq1 Hr1] [Ho2 Hb2 Hw2 Hq2 Hr2].
  assert (Htot : traded_total (ts1 ++ ts2) = traded_total ts1 + traded_total ts2).
  { clear. induction ts1 as [|t ts1 IH]; simpl; [done|]. rewrite IH. lia. }
  split; [|by eapply booked_app|done| |rewrite Htot; lia].
  - intros symbol' Hne. by rewrite Ho2, Ho1.
  - rewrite Hq2, Hq1, Htot. unfold signed. destruct (is_buy s); lia.
Qed.

(** The trades of an execution add up. *)
Lemma wp_apply_execution r pm Q E :
  result_side r = s →
  Forall (λ t, 0 < trade_quantity t ∧ 0 < trade_price_ticks t ≤ pmax) (result_trades r) →
  traded_total (result_trades r) ≤ INT64_MAX →
  position_within limit pmax (held symbol pm) →
  Z.abs (quantity_ (held symbol pm) + signed s (traded_total (result_trades r))) ≤ limit →
  Z.abs (realized_pnl_ticks_ (held symbol pm)) + pmax * traded_total (result_trades r) ≤ INT64_MAX →
  (∀ pm', executed symbol s (result_trades r) limit pmax pm pm' → Q tt pm') →
  wp (apply_execution symbol r) Q E pm.
Proof.
  intros Hs Hts Hle Hw Hsum Hreal HQ. unfold apply_execution. rewrite decide_False by done. rewrite Hs.
  revert Hts Hle Hsum Hreal HQ. generalize (result_trades r) as ts. clear r Hs. intros ts Hts.
  revert pm Hw Q. induction Hts as [|t ts [Hq Hp] Hts IH]; intros pm Hw Q Hle Hsum Hreal HQ; simpl in *.
  { apply wp_ret, HQ. split; [done|constructor|done|simpl; unfold signed; destruct (is_buy s); lia|simpl; lia]. }
  assert (H0 : 0 ≤ traded_total ts)
    by (apply traded_total_nonneg; eapply Forall_impl; [exact Hts|]; by intros ? []).
  assert (Hs1 : Z.abs (quantity_ (held symbol pm) + signed s (trade_quantity t)) ≤ limit).
  { destruct Hw as (_ & _ & Hl). unfold signed in *. destruct (is_buy s); lia. }
  apply wp_bind. apply wp_apply_one; [done|done|done|done|lia|nia|]. intros pm1 Hex.
  pose proof Hex as [_ _ Hw1 Hq1 Hr1]. simpl in Hq1, Hr1.
  apply IH; [done|lia| |lia|].
  - rewrite Hq1. unfold signed in *. destruct (is_buy s); lia.
  - intros pm' Hex'. apply HQ. by apply (executed_trans [t] ts pm pm1 pm').
Qed.
End execution.
