(* ===== verification/Risk.v ===== *)
(** * Risk limits

    [include/risk_limits.hpp], [include/risk_validator.hpp] and
    [include/risk_managed_execution.hpp]: market orders that are sent to the
    engine only when the position they may lead to is within a limit, and whose
    trades are then booked as positions.

    The trades of an execution also go to the analytics handler, whose callback
    belongs to the owner; what the handler throws is only noted. *)
From S2P Require Import Prelude LongDouble Orders TradeStore OrderBook MatchingEngine.
From S2P Require Import EngineSpec EngineMarket ConcurrentEngine Totality Positions.
From S2P Require Import Windows TradeAnalytics TradeAnalyticsSpec.

Local Open Scope Z_scope.

(** ** RiskLimits *)

Record RiskLimits : Type := mkRiskLimits { max_absolute_position_ : Z }.

Definition make_risk_limits {S} (max_absolute_position : Z) : M S RiskLimits :=
  if max_absolute_position <=? 0
  then throw (invalid_argument "Maximum absolute position must be positive")
  else ret (mkRiskLimits max_absolute_position).

Definition is_position_allowed (position : Z) (l : RiskLimits) : bool :=
  if position =? INT64_MIN then false
  else (if position <? 0 then - position else position) <=? max_absolute_position_ l.

(** The sum of two 64-bit integers is an [__int128], so it is exact. *)
Definition limits_is_trade_allowed (current_position trade_quantity : Z) (l : RiskLimits) : bool :=
  let resulting_position := current_position + trade_quantity in
  (resulting_position <=? max_absolute_position_ l) &&
  (resulting_position >=? - max_absolute_position_ l).

(** ** RiskValidator *)

Definition validator_is_trade_allowed {S} (symbol : string) (trade_quantity : Z)
    (pm : PositionManager) (l : RiskLimits) : M S bool :=
  if decide (symbol = "") then throw (invalid_argument "Risk validation symbol must not be empty")
  else if trade_quantity =? 0 then
    throw (invalid_argument "Risk validation trade quantity must not be zero")
  else
    let* current_position :=
      if has_position symbol pm then
        let* x := position symbol pm in
        ret (quantity_ x)
      else ret 0 in
    ret (limits_is_trade_allowed current_position trade_quantity l).

(** ** RiskManagedExecution *)

Section managed.
Context `{LongDoubleFormat} {B : Type} (before_apply : option (B → option exn * B)).

(** The objects it refers to, and its own flag.  [analytics_handler_] is whether
    the pointer is set; the handler works on [trade_analytics_]. *)
Record RiskManagedExecution : Type := mkRiskManagedExecution {
  matching_engine_ : MatchingEngine;
  position_manager_ : PositionManager;
  risk_limits_ : RiskLimits;
  analytics_handler_ : bool;
  trade_analytics_ : TradeAnalytics B;
  analytics_healthy_ : bool
}.

Definition set_engine (e : MatchingEngine) (x : RiskManagedExecution) : RiskManagedExecution :=
  mkRiskManagedExecution e (position_manager_ x) (risk_limits_ x) (analytics_handler_ x)
    (trade_analytics_ x) (analytics_healthy_ x).
Definition set_manager (pm : PositionManager) (x : RiskManagedExecution) : RiskManagedExecution :=
  mkRiskManagedExecution (matching_engine_ x) pm (risk_limits_ x) (analytics_handler_ x)
    (trade_analytics_ x) (analytics_healthy_ x).
Definition set_analytics (a : TradeAnalytics B) (x : RiskManagedExecution) : RiskManagedExecution :=
  mkRiskManagedExecution (matching_engine_ x) (position_manager_ x) (risk_limits_ x)
    (analytics_handler_ x) a (analytics_healthy_ x).
Definition set_healthy (h : bool) (x : RiskManagedExecution) : RiskManagedExecution :=
  mkRiskManagedExecution (matching_engine_ x) (position_manager_ x) (risk_limits_ x)
    (analytics_handler_ x) (trade_analytics_ x) h.

Definition validate_quantity (quantity : Z) : M RiskManagedExecution unit :=
  if quantity <=? 0 then throw (invalid_argument "Market order quantity must be positive")
  else ret tt.

Definition apply_analytics (symbol : string) (result : ExecutionResult)
    : M RiskManagedExecution unit :=
  let* x := gets id in
  if negb (analytics_handler_ x) || (executed_quantity result =? 0) then ret tt
  else
    try_catch
      (zoom trade_analytics_ set_analytics (analytics_apply_execution before_apply symbol result))
      (λ _, modify (set_healthy false)).

Definition managed_market_buy (symbol : string) (quantity : Z)
    : M RiskManagedExecution ExecutionResult :=
  validate_quantity quantity ;;;
  let* x := gets id in
  let* allowed := validator_is_trade_allowed symbol quantity (position_manager_ x) (risk_limits_ x) in
  if negb allowed then throw (runtime_error "Market buy rejected by risk limits")
  else
    let* result := zoom matching_engine_ set_engine (execute_market_buy quantity) in
    zoom position_manager_ set_manager (apply_execution symbol result) ;;;
    apply_analytics symbol result ;;;
    ret result.

Definition managed_market_sell (symbol : string) (quantity : Z)
    : M RiskManagedExecution ExecutionResult :=
  validate_quantity quantity ;;;
  let* x := gets id in
  let* negated := neg64 quantity in
  let* allowed := validator_is_trade_allowed symbol negated (position_manager_ x) (risk_limits_ x) in
  if negb allowed then throw (runtime_error "Market sell rejected by risk limits")
  else
    let* result := zoom matching_engine_ set_engine (execute_market_sell quantity) in
    zoom position_manager_ set_manager (apply_execution symbol result) ;;;
    apply_analytics symbol result ;;;
    ret result.

Definition managed_market (s : OrderSide) : string → Z → M RiskManagedExecution ExecutionResult :=
  match s with Buy => managed_market_buy | Sell => managed_market_sell end.
End managed.

Arguments RiskManagedExecution : clear implicits.

(** ** What a managed market order does *)

Lemma is_trade_allowed_spec q z l :
  limits_is_trade_allowed q z l = true ↔ Z.abs (q + z) ≤ max_absolute_position_ l.
Proof.
  unfold limits_is_trade_allowed. rewrite andb_true_iff, Z.leb_le, Z.geb_leb, Z.leb_le. lia.
Qed.

(** The check of a trade is the check of the position it leads to. *)
Lemma is_trade_allowed_position q z l :
  max_absolute_position_ l ≤ INT64_MAX →
  limits_is_trade_allowed q z l = is_position_allowed (q + z) l.
Proof.
  intros Hl. apply eq_true_iff_eq. rewrite is_trade_allowed_spec. unfold is_position_allowed.
  destruct (q + z =? INT64_MIN) eqn:?; zb; [split; [mlia|done]|].
  destruct (q + z <? 0) eqn:?; zb; rewrite Z.leb_le; lia.
Qed.

Lemma wp_validator {S} symbol z pm l (Q : bool → S → Prop) E st :
  symbol ≠ "" → z ≠ 0 → Q (limits_is_trade_allowed (quantity_ (held symbol pm)) z l) st →
  wp (validator_is_trade_allowed symbol z pm l) Q E st.
Proof.
  intros Hs Hz HQ. unfold validator_is_trade_allowed. rewrite decide_False by done.
  rewrite (proj2 (Z.eqb_neq _ _) Hz). unfold has_position, position, held in *.
  destruct (positions_ pm !! symbol); wp_steps; done.
Qed.

Section managed_spec.
Context `{LongDoubleFormat} {B : Type} (before_apply : option (B → option exn * B)).
Implicit Types x : RiskManagedExecution B.

(** What the analytics make of an execution: their new state, and the flag. *)
Definition analytics_after (symbol : string) (r : ExecutionResult) x (a : TradeAnalytics B) (h : bool)
    : Prop :=
  if negb (analytics_handler_ x) || (executed_quantity r =? 0)
  then a = trade_analytics_ x ∧ h = analytics_healthy_ x
  else match analytics_apply_execution before_apply symbol r (trade_analytics_ x) with
    | (Ok _, a') => a = a' ∧ h = analytics_healthy_ x
    | (Throw _, a') => a = a' ∧ h = false
    | _ => False
    end.

(** The analytics change nothing else and never stop the order. *)
Lemma wp_apply_analytics symbol r x (Q : unit → RiskManagedExecution B → Prop) E :
  has_window (trade_analytics_ x) →
  (∀ a h, has_window a → analytics_after symbol r x a h → Q tt (set_healthy h (set_analytics a x))) →
  wp (apply_analytics before_apply symbol r) Q E x.
Proof.
  intros Hw HQ. unfold apply_analytics, analytics_after, id in *. do 2 wp_step.
  destruct x as [e pm l p a h]; simpl in *. destruct (negb p || _).
  { apply wp_ret. by apply (HQ a h). }
  pose proof (wp_analytics_total before_apply symbol r a Hw) as Htot.
  wp_step. wp_step. unfold wp in *. simpl.
  destruct (analytics_apply_execution before_apply symbol r a) as [[[]|ex| |] a']; [| |done..].
  - by apply (HQ a' h).
  - by apply (HQ a' false).
Qed.

Definition rejection (s : OrderSide) : exn :=
  runtime_error (match s with
    | Buy => "Market buy rejected by risk limits"
    | Sell => "Market sell rejected by risk limits"
    end).

(** Whether the position the whole order leads to is within the limit. *)
Definition allowed (s : OrderSide) (symbol : string) (quantity : Z) x : Prop :=
  Z.abs (quantity_ (held symbol (position_manager_ x)) + signed s quantity) ≤
  max_absolute_position_ (risk_limits_ x).

(** The ways an order is turned down: by the checks, or by the engine. *)
Inductive refused (s : OrderSide) (symbol : string) (quantity : Z) x : exn → Prop :=
| refused_quantity : quantity ≤ 0 →
    refused s symbol quantity x (invalid_argument "Market order quantity must be positive")
| refused_symbol : symbol = "" →
    refused s symbol quantity x (invalid_argument "Risk validation symbol must not be empty")
| refused_limit : ¬ allowed s symbol quantity x → refused s symbol quantity x (rejection s)
| refused_engine ex : allowed s symbol quantity x →
    execute_market_order s quantity (matching_engine_ x) = (Throw ex, matching_engine_ x) →
    refused s symbol quantity x ex.

(** What an order that goes through does: the engine executes it, the trades
    are booked, nothing else moves but the analytics. *)
Record managed (pmax : Z) (s : OrderSide) (symbol : string) (quantity : Z) x
    (r : ExecutionResult) (x' : RiskManagedExecution B) : Prop := mk_managed {
  md_symbol : symbol ≠ "";
  md_allowed : allowed s symbol quantity x;
  md_engine : execute_market_order s quantity (matching_engine_ x) = (Ok r, matching_engine_ x');
  md_report : market_report pmax s quantity r;
  md_positions : executed symbol s (result_trades r) (max_absolute_position_ (risk_limits_ x)) pmax
    (position_manager_ x) (position_manager_ x');
  md_limits : risk_limits_ x' = risk_limits_ x;
  md_handler : analytics_handler_ x' = analytics_handler_ x;
  md_analytics : analytics_after symbol r x (trade_analytics_ x') (analytics_healthy_ x');
  md_window : has_window (trade_analytics_ x')
}.

(** Buying and selling in one form. *)
Definition managed_body (s : OrderSide) (symbol : string) (quantity : Z)
    : M (RiskManagedExecution B) ExecutionResult :=
  let* result := zoom matching_engine_ set_engine (execute_market_order s quantity) in
  zoom position_manager_ set_manager (apply_execution symbol result) ;;;
  apply_analytics before_apply symbol result ;;;
  ret result.

Lemma wp_managed_checks s symbol quantity x (Q : ExecutionResult → RiskManagedExecution B → Prop) E :
  int64 quantity →
  (∀ ex, refused s symbol quantity x ex → E ex x) →
  (0 < quantity → symbol ≠ "" → allowed s symbol quantity x → wp (managed_body s symbol quantity) Q E x) →
  wp (managed_market before_apply s symbol quantity) Q E x.
Proof.
  intros H64 HE HQ.
  assert (Hcheck : ∀ k : M (RiskManagedExecution B) ExecutionResult, 
    (0 < quantity → wp k Q E x) → wp (validate_quantity quantity ;;; k) Q E x).
  { intros k Hk. unfold validate_quantity. wp_step. wp_step; zb.
    - apply wp_throw, HE. by apply refused_quantity.
    - apply wp_ret. auto with lia. }
  assert (Hgate : 0 < quantity → wp (
    let* allowed := validator_is_trade_allowed symbol (signed s quantity) (position_manager_ x)
      (risk_limits_ x) in
    if negb allowed then throw (rejection s) else managed_body s symbol quantity) Q E x).
  { intros Hpos. destruct (decide (symbol = "")) as [Hsym|Hsym].
    - wp_step. unfold validator_is_trade_allowed. rewrite decide_True by done.
      apply wp_throw, HE. by apply refused_symbol.
    - wp_step. apply wp_validator; [done|unfold signed; destruct (is_buy s); lia|].
      destruct (limits_is_trade_allowed _ _ _) eqn:Hal; simpl.
      + apply is_trade_allowed_spec in Hal. by apply HQ.
      + apply wp_throw, HE, refused_limit. unfold allowed. by rewrite <- is_trade_allowed_spec, Hal. }
  destruct s; unfold managed_market.
  - apply Hcheck. intros Hpos. do 2 wp_step. by apply Hgate.
  - apply Hcheck. intros Hpos. do 4 wp_step; [mlia|]. by apply Hgate.
Qed.

Context (pmax qmax : Z).
Hypothesis Hpmax : 0 ≤ pmax.
Hypothesis Hmantissa : pmax * qmax < 2 ^ (LDBL_MANT_DIG - 1).
Hypothesis Hint64 : pmax * qmax ≤ INT64_MAX.

Lemma wp_managed_market owned n x s symbol quantity :
  bounded_state pmax owned n (matching_engine_ x) → has_window (trade_analytics_ x) →
  max_absolute_position_ (risk_limits_ x) ≤ INT64_MAX → pmax ≤ INT64_MAX →
  position_within (max_absolute_position_ (risk_limits_ x)) pmax (held symbol (position_manager_ x)) →
  Z.abs (realized_pnl_ticks_ (held symbol (position_manager_ x))) + pmax * quantity ≤ INT64_MAX →
  int64 quantity → quantity ≤ qmax →
  wp (managed_market before_apply s symbol quantity)
    (λ r x', managed pmax s symbol quantity x r x' ∧ bounded_state pmax owned n (matching_engine_ x'))
    (λ ex x', x' = x ∧ refused s symbol quantity x ex) x.
Proof.
  intros Hb Hwin Hlim Hp64 Hw Hreal H64 Hle. apply wp_managed_checks; [done|by auto|].
  intros Hpos Hsym Hal. unfold managed_body. do 2 wp_step.
  eapply wp_mono; [apply wp_eq, (bounded_market (owned:=owned) pmax qmax Hpmax Hmantissa Hint64 n); [done..|mlia|done]| |].
  - intros r e' (Hrun & Hb' & _ & Hrep). pose proof Hrep as [Hs Hts Htot Hex].
    do 2 wp_step. eapply (wp_apply_execution symbol s (max_absolute_position_ (risk_limits_ x)) pmax);
      [done|done|lia|done|done|mlia|done| |simpl; nia|].
    + rewrite Htot. simpl. unfold allowed in Hal. destruct Hw as (_ & _ & Hl).
      unfold signed in *. destruct (is_buy s); lia.
    + intros pm' Hpm. wp_step. apply wp_apply_analytics; [done|]. intros a h Ha Haft. apply wp_ret. by split.
  - intros ex e' [Hrun ->]. destruct x as [e pm l a h]. split; [done|]. by apply refused_engine.
Qed.

(** ** Clients

    An owner sends managed orders, and commands to the engine directly. *)
Inductive client_step : Type :=
| ManagedOrder (s : OrderSide) (symbol : string) (quantity : Z)
| DirectCommand (cmd : EngineCommand).

(** The state a step leaves; [None] if it does not return. *)
Definition run_step (step : client_step) x : option (RiskManagedExecution B) :=
  match step with
  | ManagedOrder s symbol quantity =>
      match managed_market before_apply s symbol quantity x with
      | (Ok _, x') | (Throw _, x') => Some x'
      | _ => None
      end
  | DirectCommand cmd =>
      match zoom matching_engine_ set_engine (process_command cmd) x with
      | (Ok _, x') => Some x'
      | _ => None
      end
  end.

Fixpoint run_steps (steps : list client_step) x : option (RiskManagedExecution B) :=
  match steps with
  | [] => Some x
  | step :: rest => match run_step step x with Some x' => run_steps rest x' | None => None end
  end.

Definition step_within (step : client_step) : Prop :=
  match step with
  | ManagedOrder _ _ quantity => int64 quantity ∧ quantity ≤ qmax
  | DirectCommand cmd => command_within pmax qmax cmd
  end.

(** The limit holds for every symbol; [budget] bounds the realised profits. *)
Record risk_inv (n budget : Z) x : Prop := mk_risk_inv {
  ri_engine : bounded_engine pmax n (matching_engine_ x);
  ri_window : has_window (trade_analytics_ x);
  ri_held symbol :
    position_within (max_absolute_position_ (risk_limits_ x)) pmax (held symbol (position_manager_ x));
  ri_realized symbol : Z.abs (realized_pnl_ticks_ (held symbol (position_manager_ x))) ≤ budget
}.

Lemma risk_inv_managed n budget s symbol quantity x r x' :
  risk_inv n budget x → managed pmax s symbol quantity x r x' → quantity ≤ qmax →
  bounded_engine pmax n (matching_engine_ x') → risk_inv (n + 1) (budget + pmax * qmax) x'.
Proof.
  intros [_ _ Hh Hr] [_ _ _ [_ _ Htot Hex _ _] [Ho Hw Hq Hre] Hlim _ _ Hwin] Hle Hb.
  split; rewrite ?Hlim; [by apply bounded_self|done| |].
  - intros symbol'. destruct (decide (symbol' = symbol)) as [->|Hne]; [done|].
    unfold held. rewrite Ho by done. apply Hh.
  - intros symbol'. destruct (decide (symbol' = symbol)) as [->|Hne].
    + specialize (Hr symbol). nia.
    + unfold held. rewrite Ho by done. specialize (Hr symbol'). unfold held in Hr. nia.
Qed.

Lemma run_step_inv n budget step x :
  0 ≤ qmax → risk_inv n budget x → n < UINT64_MAX → budget + pmax * qmax ≤ INT64_MAX →
  max_absolute_position_ (risk_limits_ x) ≤ INT64_MAX → pmax ≤ INT64_MAX → step_within step →
  ∃ x', run_step step x = Some x' ∧ risk_limits_ x' = risk_limits_ x ∧
    risk_inv (n + 1) (budget + pmax * qmax) x'.
Proof.
  intros Hqmax Hinv Hn Hbud Hlim Hp64 Hw. pose proof Hinv as [Hb Hwin Hh Hr].
  destruct step as [s symbol quantity|cmd]; simpl in *.
  - destruct Hw as [H64 Hle]. specialize (Hr symbol) as Hrs.
    destruct (wp_outcome _ _ _ _ (wp_managed_market false n x s symbol quantity Hb Hwin Hlim Hp64 (Hh symbol)
      ltac:(nia) H64 Hle)) as (o & x' & Hrun & Ho).
    rewrite Hrun. destruct o as [r|ex| |]; [| |done..].
    + destruct Ho as [Hm Hb']. exists x'. split_and!; [done|apply Hm|by eapply risk_inv_managed].
    + destruct Ho as [-> _]. exists x. split_and!; [done..|]. split; [by apply bounded_self|done|done|].
      intros symbol'. specialize (Hr symbol'). nia.
  - destruct (process_command_total pmax qmax Hpmax Hmantissa Hint64 n _ cmd Hb Hn Hw)
      as (r & e' & Hrun & Hb').
    unfold zoom. rewrite Hrun. eexists. split_and!; [done..|]. split; [done|done|done|].
    intros symbol. specialize (Hr symbol). simpl. nia.
Qed.

Lemma run_steps_inv n budget steps x :
  0 ≤ qmax → risk_inv n budget x → Forall step_within steps →
  n + Z.of_nat (length steps) ≤ UINT64_MAX →
  budget + pmax * qmax * Z.of_nat (length steps) ≤ INT64_MAX →
  max_absolute_position_ (risk_limits_ x) ≤ INT64_MAX → pmax ≤ INT64_MAX →
  ∃ x', run_steps steps x = Some x' ∧ risk_limits_ x' = risk_limits_ x ∧
    risk_inv (n + Z.of_nat (length steps)) (budget + pmax * qmax * Z.of_nat (length steps)) x'.
Proof.
  intros Hqmax Hinv Hw. revert n budget x Hinv. induction Hw as [|step steps Hs Hw IH];
    intros n budget x Hinv Hn Hbud Hlim Hp64.
  { exists x. split_and!; [done..|]. simpl. by rewrite Z.mul_0_r, !Z.add_0_r. }
  assert (Hlen : Z.of_nat (length (step :: steps)) = 1 + Z.of_nat (length steps)) by (simpl; lia).
  rewrite Hlen in *. simpl run_steps.
  destruct (run_step_inv n budget step x) as (x1 & -> & Hl1 & Hinv1); [done|done|lia|nia|done..|].
  destruct (IH (n + 1) (budget + pmax * qmax) x1) as (x' & Hrun & Hl & Hinv'); [done|lia|nia|by rewrite Hl1|done|].
  exists x'. split_and!; [done|congruence|].
  replace (n + (1 + Z.of_nat (length steps))) with (n + 1 + Z.of_nat (length steps)) by lia.
  by replace (budget + pmax * qmax * (1 + Z.of_nat (length steps)))
    with (budget + pmax * qmax + pmax * qmax * Z.of_nat (length steps)) by ring.
Qed.

(** A fresh ledger over a bounded engine. *)
Lemma risk_inv_start n e l p a h :
  bounded_engine pmax n e → has_window a → 0 < max_absolute_position_ l →
  risk_inv n 0 (mkRiskManagedExecution e empty_positions l p a h).
Proof.
  intros Hb Hwin Hl. split; [done|done| |].
  - intros symbol. unfold held. simpl. rewrite lookup_empty. simpl.
    split_and!; [|done|simpl; lia]. split_and!; [done|done|by left].
  - intros symbol. unfold held. simpl. by rewrite lookup_empty.
Qed.
End managed_spec.
