(* ===== verification/AnalyticsEngine.v ===== *)
(** * AnalyticsEngine and the execution adapters

    [include/analytics_engine.hpp], [include/market_impact_execution_adapter.hpp]
    and [include/analytics_engine_execution_adapter.hpp]: all figures of a symbol
    behind one object, and the two adapters that send a managed market order and
    record what it did to the book.

    The adapters share the book with the engine they execute on: it is the
    [order_book_] of that engine.  The handler that [AnalyticsEngine] supplies to
    [RiskManagedExecution] works on the figures of the analytics engine, so these
    are the [trade_analytics_] of the execution; it has no callback. *)
From S2P Require Import Prelude LongDouble Orders OrderBook MatchingEngine.
From S2P Require Import TradeAnalytics OrderFlow DepthFigures MarketImpact Risk.

Local Open Scope Z_scope.

(** ** AnalyticsEngine *)

Record AnalyticsEngine : Type := mkAnalyticsEngine {
  ae_trade_analytics_ : TradeAnalytics unit;
  ae_ofi_ : OrderFlowImbalance;
  ae_depth_levels_ : nat;
  depth_by_symbol_ : gmap string DepthSummary;
  impact_by_symbol_ : gmap string MarketImpactSummary
}.

Record AnalyticsSnapshot : Type := mkAnalyticsSnapshot {
  as_rolling_vwap : option binary;
  as_trade_statistics : option TradeStatisticsSnapshot;
  as_latest_ofi : option binary;
  as_rolling_ofi : option binary;
  as_depth : option DepthSummary;
  as_market_impact : option MarketImpactSummary
}.

Definition set_ae_trade_analytics (a : TradeAnalytics unit) (x : AnalyticsEngine) : AnalyticsEngine :=
  mkAnalyticsEngine a (ae_ofi_ x) (ae_depth_levels_ x) (depth_by_symbol_ x) (impact_by_symbol_ x).
Definition set_ae_ofi (o : OrderFlowImbalance) (x : AnalyticsEngine) : AnalyticsEngine :=
  mkAnalyticsEngine (ae_trade_analytics_ x) o (ae_depth_levels_ x) (depth_by_symbol_ x) (impact_by_symbol_ x).
Definition set_depths (m : gmap string DepthSummary) (x : AnalyticsEngine) : AnalyticsEngine :=
  mkAnalyticsEngine (ae_trade_analytics_ x) (ae_ofi_ x) (ae_depth_levels_ x) m (impact_by_symbol_ x).
Definition set_impacts (m : gmap string MarketImpactSummary) (x : AnalyticsEngine) : AnalyticsEngine :=
  mkAnalyticsEngine (ae_trade_analytics_ x) (ae_ofi_ x) (ae_depth_levels_ x) (depth_by_symbol_ x) m.

Definition make_analytics_engine {S} (rolling_vwap : RollingVWAP) (trade_statistics : TradeStatistics)
    (order_flow_imbalance : OrderFlowImbalance) (depth_levels : nat) : M S AnalyticsEngine :=
  if (depth_levels =? 0)%nat then throw (invalid_argument "Analytics depth levels must be positive")
  else ret (mkAnalyticsEngine (mkTradeAnalytics rolling_vwap trade_statistics tt) order_flow_imbalance
    depth_levels ∅ ∅).

Definition validate_symbol {S} (symbol : string) : M S unit :=
  if decide (symbol = "") then throw (invalid_argument "Analytics symbol must not be empty") else ret tt.

(** What [depth_by_symbol_[symbol]] creates: a value-initialised summary. *)
Definition zero_summary : DepthSummary :=
  mkDepthSummary 0 0 0 binary_zero binary_zero binary_zero None [] [].

Section engine.
Context `{LongDoubleFormat}.

Definition record_execution (symbol : string) (execution : ExecutionResult) : M AnalyticsEngine unit :=
  validate_symbol symbol ;;;
  zoom ae_trade_analytics_ set_ae_trade_analytics (analytics_apply_execution None symbol execution).

Definition on_order_book_update (symbol : string) (order_book : OrderBook) : M AnalyticsEngine unit :=
  validate_symbol symbol ;;;
  let snapshot := copy_book order_book in
  let* x := gets id in
  let* depth := depth_analyze snapshot (ae_depth_levels_ x) in
  let ofi_snapshot := mkOFISnapshot (ofi_level <$> best_bid snapshot) (ofi_level <$> best_ask snapshot) in
  at_entry depth_by_symbol_ set_depths zero_summary symbol (ret tt) ;;;
  zoom ae_ofi_ set_ae_ofi (ofi_update symbol ofi_snapshot) ;;;
  modify (λ x, set_depths (<[symbol := depth]> (depth_by_symbol_ x)) x).

Definition record_market_impact (symbol : string) (execution : ExecutionResult)
    (before after : MarketQuote) : M AnalyticsEngine unit :=
  validate_symbol symbol ;;;
  if executed_quantity execution =? 0 then ret tt
  else
    let* impact := impact_analyze execution before after in
    modify (λ x, set_impacts (<[symbol := impact]> (impact_by_symbol_ x)) x).

Definition latest_depth (symbol : string) (x : AnalyticsEngine) : option DepthSummary :=
  depth_by_symbol_ x !! symbol.

Definition latest_impact (symbol : string) (x : AnalyticsEngine) : option MarketImpactSummary :=
  impact_by_symbol_ x !! symbol.

Definition analytics_snapshot (symbol : string) : M AnalyticsEngine AnalyticsSnapshot :=
  validate_symbol symbol ;;;
  gets (λ x, mkAnalyticsSnapshot
    (get_vwap symbol (rolling_vwap_ (ae_trade_analytics_ x)))
    (get_statistics symbol (trade_statistics_ (ae_trade_analytics_ x)))
    (latest_ofi symbol (ae_ofi_ x)) (rolling_ofi symbol (ae_ofi_ x))
    (latest_depth symbol x) (latest_impact symbol x)).
End engine.

(** ** MarketImpactExecutionAdapter *)

Section impact_adapter.
Context `{LongDoubleFormat} {B : Type} (before_apply : option (B → option exn * B)).

Record MarketImpactExecutionAdapter : Type := mkImpactAdapter {
  ia_execution_ : RiskManagedExecution B;
  ia_impacts_ : gmap string MarketImpactSummary;
  ia_analytics_healthy_ : bool
}.

Definition set_ia_execution (e : RiskManagedExecution B) (x : MarketImpactExecutionAdapter) :=
  mkImpactAdapter e (ia_impacts_ x) (ia_analytics_healthy_ x).
Definition set_ia_impacts (m : gmap string MarketImpactSummary) (x : MarketImpactExecutionAdapter) :=
  mkImpactAdapter (ia_execution_ x) m (ia_analytics_healthy_ x).
Definition set_ia_healthy (h : bool) (x : MarketImpactExecutionAdapter) :=
  mkImpactAdapter (ia_execution_ x) (ia_impacts_ x) h.

(** The shared book. *)
Definition ia_order_book (x : MarketImpactExecutionAdapter) : OrderBook :=
  order_book_ (matching_engine_ (ia_execution_ x)).

Definition ia_execute (symbol : string) (quantity : Z) (side : OrderSide)
    : M MarketImpactExecutionAdapter ExecutionResult :=
  let* before :=
    try_catch (let* x := gets id in let* q := capture_quote (ia_order_book x) in ret (Some q))
      (λ _, modify (set_ia_healthy false) ;;; ret None) in
  let* result := zoom ia_execution_ set_ia_execution (managed_market before_apply side symbol quantity) in
  if executed_quantity result =? 0 then ret result
  else
    try_catch
      (let* x := gets id in
       let* after := capture_quote (ia_order_book x) in
       match before with
       | Some before =>
           let* summary := impact_analyze result before after in
           modify (λ x, set_ia_impacts (<[symbol := summary]> (ia_impacts_ x)) x)
       | None => ret tt
       end)
      (λ _, modify (set_ia_healthy false)) ;;;
    ret result.

Definition ia_execute_market_buy (symbol : string) (quantity : Z) := ia_execute symbol quantity Buy.
Definition ia_execute_market_sell (symbol : string) (quantity : Z) := ia_execute symbol quantity Sell.

Definition ia_latest_impact (symbol : string) (x : MarketImpactExecutionAdapter)
    : option MarketImpactSummary := ia_impacts_ x !! symbol.
End impact_adapter.

Arguments MarketImpactExecutionAdapter : clear implicits.

(** ** AnalyticsEngineExecutionAdapter *)

(** The execution, with the figures it shares with the analytics engine, and
    what the analytics engine has of its own. *)
Record AnalyticsEngineExecutionAdapter : Type := mkEngineAdapter {
  ea_execution_ : RiskManagedExecution unit;
  ea_ofi_ : OrderFlowImbalance;
  ea_depth_levels_ : nat;
  ea_depths_ : gmap string DepthSummary;
  ea_impacts_ : gmap string MarketImpactSummary;
  ea_analytics_healthy_ : bool
}.

Definition set_ea_execution (e : RiskManagedExecution unit) (x : AnalyticsEngineExecutionAdapter) :=
  mkEngineAdapter e (ea_ofi_ x) (ea_depth_levels_ x) (ea_depths_ x) (ea_impacts_ x) (ea_analytics_healthy_ x).
Definition set_ea_healthy (h : bool) (x : AnalyticsEngineExecutionAdapter) :=
  mkEngineAdapter (ea_execution_ x) (ea_ofi_ x) (ea_depth_levels_ x) (ea_depths_ x) (ea_impacts_ x) h.

(** The analytics engine inside the adapter. *)
Definition ea_analytics (x : AnalyticsEngineExecutionAdapter) : AnalyticsEngine :=
  mkAnalyticsEngine (trade_analytics_ (ea_execution_ x)) (ea_ofi_ x) (ea_depth_levels_ x)
    (ea_depths_ x) (ea_impacts_ x).
Definition set_ea_analytics (a : AnalyticsEngine) (x : AnalyticsEngineExecutionAdapter) :=
  mkEngineAdapter (set_analytics (ae_trade_analytics_ a) (ea_execution_ x)) (ae_ofi_ a)
    (ae_depth_levels_ a) (depth_by_symbol_ a) (impact_by_symbol_ a) (ea_analytics_healthy_ x).

Definition ea_order_book (x : AnalyticsEngineExecutionAdapter) : OrderBook :=
  order_book_ (matching_engine_ (ea_execution_ x)).

Section engine_adapter.
Context `{LongDoubleFormat}.

Definition in_analytics {A} (m : M AnalyticsEngine A) : M AnalyticsEngineExecutionAdapter A :=
  zoom ea_analytics set_ea_analytics m.

Definition ea_on_order_book_update (symbol : string) : M AnalyticsEngineExecutionAdapter unit :=
  try_catch
    (let* x := gets id in in_analytics (on_order_book_update symbol (ea_order_book x)))
    (λ _, modify (set_ea_healthy false)).

Definition ea_snapshot (symbol : string) : M AnalyticsEngineExecutionAdapter AnalyticsSnapshot :=
  in_analytics (analytics_snapshot symbol).

(** [try { quote = capture_quote(order_book_); } catch (...) { ... }]. *)
Definition ea_quote : M AnalyticsEngineExecutionAdapter (option MarketQuote) :=
  try_catch (let* x := gets id in let* q := capture_quote (ea_order_book x) in ret (Some q))
    (λ _, modify (set_ea_healthy false) ;;; ret None).

Definition ea_execute (symbol : string) (quantity : Z) (side : OrderSide)
    : M AnalyticsEngineExecutionAdapter ExecutionResult :=
  let* before := ea_quote in
  let* result := zoom ea_execution_ set_ea_execution (managed_market None side symbol quantity) in
  if executed_quantity result =? 0 then ret result
  else
    let* after := ea_quote in
    ea_on_order_book_update symbol ;;;
    match before, after with
    | Some before, Some after =>
        try_catch (in_analytics (record_market_impact symbol result before after))
          (λ _, modify (set_ea_healthy false))
    | _, _ => ret tt
    end ;;;
    ret result.

Definition ea_execute_market_buy (symbol : string) (quantity : Z) := ea_execute symbol quantity Buy.
Definition ea_execute_market_sell (symbol : string) (quantity : Z) := ea_execute symbol quantity Sell.
End engine_adapter.
