(* ===== verification/AnalyticsEngineSpec.v ===== *)
(** * The execution adapters record and do not interfere

    Through [MarketImpactExecutionAdapter] and [AnalyticsEngineExecutionAdapter]
    a managed order has the answer and the effect it has on the execution alone;
    an order that trades leaves the figures of the books before and after it, and
    a book that the order flow refuses costs the health flag. *)
From S2P Require Import Prelude LongDouble Orders OrderBook Levels ManagerSpec MatchingEngine EngineSpec.
From S2P Require Import EngineMarket Totality BookTheorems DepthFigures DepthSpec FairExecution.
From S2P Require Import MarketImpact ImpactSpec TradeAnalytics TradeAnalyticsSpec Positions Risk.
From S2P Require Import Windows OrderFlow OrderFlowSpec OrderFlowAdapters AdapterSpec AnalyticsEngine.

Local Open Scope Z_scope.

Section spec.
Context `{LongDoubleFormat} (pmax qmax : Z).
Hypothesis Hpmax : 0 ≤ pmax.
Hypothesis Hmantissa : pmax * qmax < 2 ^ (LDBL_MANT_DIG - 1).
Hypothesis Hint64 : pmax * qmax ≤ INT64_MAX.
Hypothesis Hqmax : qmax < 2 ^ LDBL_MANT_DIG.

(** What the adapters rely on in the shared book. *)
Lemma bounded_book n e :
  bounded_engine pmax n e → book_wf (order_book_ e) ∧ book_within pmax (order_book_ e).
Proof. intros (_ & q & Hinv & Hqw & Hs). split; [apply (inv_ok _ _ Hinv)|exact Hs]. Qed.

(** The summary of an order that traded. *)
Lemma wp_analyze_managed {S B} (before_apply : option (B → option exn * B)) n s symbol quantity x r x'
    (Q : MarketImpactSummary → S → Prop) E st :
  bounded_engine pmax n (matching_engine_ x) → bounded_engine pmax n (matching_engine_ x') →
  managed before_apply pmax s symbol quantity x r x' → int64 quantity → quantity ≤ qmax →
  0 < executed_quantity r →
  (∀ m, impact_shown s (order_book_ (matching_engine_ x)) r m → Q m st) →
  wp (impact_analyze r (quote_of (order_book_ (matching_engine_ x)))
    (quote_of (order_book_ (matching_engine_ x')))) Q E st.
Proof.
  intros Ho Ho' Hm H64 Hle Hpos HQ. destruct (bounded_book _ _ Ho) as (Hwf & Hw).
  destruct (bounded_book _ _ Ho') as (Hwf' & Hw').
  pose proof (market_fair pmax qmax Hpmax Hmantissa Hint64 n _ s quantity r _ Ho H64 Hle (md_engine _ _ _ _ _ _ _ _ Hm)) as Hfair.
  pose proof (md_report _ _ _ _ _ _ _ _ Hm) as Hrep. pose proof (mr_executed _ _ _ _ Hrep) as Hex.
  assert (HP : 2 ^ LDBL_MANT_DIG = 2 * 2 ^ (LDBL_MANT_DIG - 1)).
  { rewrite <- Z.pow_succ_r; [f_equal; lia|]. pose proof LDBL_MANT_DIG_min. lia. }
  assert (Hp2 : 2 * pmax < 2 ^ LDBL_MANT_DIG) by nia.
  apply (wp_impact_analyze pmax s quantity); [done|mlia|done|nia|lia|lia|].
  intros nb Hnb. apply HQ. eapply impact_figures; eauto; [lia|mlia].
Qed.

(** ** MarketImpactExecutionAdapter *)

Section impact_adapter.
Context {B : Type} (before_apply : option (B → option exn * B)).

Lemma wp_ia_execute n x s symbol quantity :
  let e := ia_execution_ x in
  bounded_engine pmax n (matching_engine_ e) → has_window (trade_analytics_ e) →
  max_absolute_position_ (risk_limits_ e) ≤ INT64_MAX → pmax ≤ INT64_MAX →
  position_within (max_absolute_position_ (risk_limits_ e)) pmax (held symbol (position_manager_ e)) →
  Z.abs (realized_pnl_ticks_ (held symbol (position_manager_ e))) + pmax * quantity ≤ INT64_MAX →
  int64 quantity → quantity ≤ qmax →
  wp (ia_execute before_apply symbol quantity s)
    (λ r x', let e' := ia_execution_ x' in
       managed_market before_apply s symbol quantity e = (Ok r, e') ∧
       managed before_apply pmax s symbol quantity e r e' ∧ bounded_engine pmax n (matching_engine_ e') ∧
       ia_analytics_healthy_ x' = ia_analytics_healthy_ x ∧
       if executed_quantity r =? 0 then ia_impacts_ x' = ia_impacts_ x
       else ∃ m, ia_impacts_ x' = <[symbol := m]> (ia_impacts_ x) ∧ impact_shown s (ia_order_book x) r m)
    (λ ex x', x' = x ∧ managed_market before_apply s symbol quantity e = (Throw ex, e)) x.
Proof.
  intros e Ho Hwin Hlim Hp64 Hpos Hreal H64 Hle. destruct (bounded_book _ _ Ho) as (Hwf & _).
  unfold ia_execute, id. do 5 wp_step. apply wp_capture_quote; [exact Hwf|]. apply wp_ret. do 2 wp_step.
  eapply wp_mono; [apply wp_eq, (wp_managed_market before_apply pmax qmax Hpmax Hmantissa Hint64 false n); done| |].
  - intros r e' (Hrun & Hm & Ho'). simpl.
    destruct (executed_quantity r =? 0) eqn:Hz; zb.
    { apply wp_ret. by rewrite Hz. }
    destruct (bounded_book _ _ Ho') as (Hwf' & _).
    pose proof (mr_executed _ _ _ _ (md_report _ _ _ _ _ _ _ _ Hm)).
    do 5 wp_step. apply wp_capture_quote; [exact Hwf'|]. wp_step.
    eapply (wp_analyze_managed before_apply n s symbol quantity e r e'); [done..|lia|].
    intros m Hshown. apply wp_modify, wp_ret. simpl. rewrite (proj2 (Z.eqb_neq _ 0)) by done.
    split_and!; [done..|]. by exists m.
  - intros ex e' (Hrun & -> & _). split; [by destruct x|done].
Qed.
End impact_adapter.

(** ** AnalyticsEngine *)

Section engine.
Context (w : nat) (qlev : Z).
Hypothesis Hw : (0 < w)%nat.
Hypothesis Hqlev : 0 ≤ qlev.
Hypothesis Hfit : 2 * qlev * Z.of_nat w < 2 ^ LDBL_MANT_DIG.

(** A book with at most [qlev] in all. *)
Definition volume_within (b : OrderBook) : Prop := side_volume (bids b) + side_volume (asks b) ≤ qlev.

Lemma take_volume_le l n : Forall level_ok l → 0 ≤ side_volume (take n l) ≤ side_volume l.
Proof.
  intros Hl. pose proof (take_drop n l) as Htd. rewrite <- Htd at 3. rewrite side_volume_app.
  pose proof (side_volume_nonneg _ (Forall_take _ n _ Hl)).
  pose proof (side_volume_nonneg _ (Forall_drop _ n _ Hl)). lia.
Qed.

Lemma volume_depth_fits b n : book_wf b → volume_within b → depth_fits b n.
Proof.
  intros Hwf Hv. destruct (Hwf Buy) as [_ Hb], (Hwf Sell) as [_ Ha]. simpl in Hb, Ha.
  unfold depth_fits, volume_within, bids, asks in *.
  pose proof (take_volume_le _ n Hb). pose proof (take_volume_le _ n Ha). nia.
Qed.

Lemma volume_snapshot_within b : book_wf b → volume_within b → snapshot_within qlev (snapshot_of b).
Proof.
  intros Hwf Hv. destruct (Hwf Buy) as [_ Hb], (Hwf Sell) as [_ Ha]. simpl in Hb, Ha.
  unfold volume_within, bids, asks in Hv.
  pose proof (side_volume_nonneg _ Hb). pose proof (side_volume_nonneg _ Ha).
  assert (Hlev : ∀ l, Forall level_ok l → side_volume l ≤ qlev → level_within qlev (ofi_level <$> head l)).
  { intros l Hl Hle. destruct l as [|x l]; [done|]. simpl.
    pose proof (level_quantity_bound _ Hl) as [Hq _]%Forall_cons. apply Forall_cons in Hl as [[Hp _] _]. lia. }
  split; (apply Hlev; [done|simpl; lia]).
Qed.

(** A book update of the analytics engine: the depth is computed, and the order
    flow takes the best levels or refuses them; then the symbol has an entry all
    the same. *)
Lemma wp_on_order_book_update hist symbol b a (Q : unit → AnalyticsEngine → Prop) E :
  symbol ≠ "" → book_wf b → volume_within b →
  (0 < ae_depth_levels_ a)%nat → ofi_tracks w qlev hist (ae_ofi_ a) →
  (∀ d o, snapshot_valid (snapshot_of b) = true → depth_shown b (ae_depth_levels_ a) d →
     ofi_tracks w qlev (extend symbol (snapshot_of b) hist) o →
     Q tt (set_depths (<[symbol := d]> (depth_by_symbol_ a)) (set_ae_ofi o a))) →
  (∀ ex, snapshot_valid (snapshot_of b) = false →
     E ex (set_depths (<[symbol := default zero_summary (depth_by_symbol_ a !! symbol)]> (depth_by_symbol_ a)) a)) →
  wp (on_order_book_update symbol b) Q E a.
Proof.
  intros Hsym Hwf Hv Hd Ht HQ HE. unfold on_order_book_update, validate_symbol, id.
  rewrite decide_False by done. do 5 wp_step.
  assert (Hcopy : copy_book b = b) by by destruct b. rewrite Hcopy.
  apply wp_depth_analyze; [done|done|by apply volume_depth_fits|]. intros d Hshown.
  wp_step. apply wp_at_entry. apply wp_ret. do 2 wp_step. simpl.
  eapply wp_mono; [apply (wp_ofi_update w qlev hist); [done|done|done|exact Ht|by apply volume_snapshot_within]| |].
  - intros [] o (_ & Hval & Ho). apply wp_modify. simpl. unfold snapshot_of in HQ. rewrite Hcopy in HQ.
    specialize (HQ d o Hval Hshown Ho). unfold set_depths, set_ae_ofi in *. simpl in *. by rewrite insert_insert_eq.
  - intros ex o [[?|Hbad] ->]; [done|]. unfold snapshot_of in HE. rewrite Hcopy in HE. specialize (HE ex Hbad).
    by destruct a.
Qed.

(** ** AnalyticsEngineExecutionAdapter *)

(** What an order that traded leaves in the analytics engine: its impact; and,
    when the best levels of the book after it are valid and neither crossed nor
    locked, the depth of that book and one snapshot more in the order flow,
    otherwise an unhealthy adapter and no figure but an entry of zeros for a
    symbol that had no depth. *)
Record recorded (hist : string → list OFISnapshot) (s : OrderSide) (symbol : string)
    (x : AnalyticsEngineExecutionAdapter) (r : ExecutionResult) (x' : AnalyticsEngineExecutionAdapter)
    : Prop := mk_recorded {
  rc_impact : ∃ m, ea_impacts_ x' = <[symbol := m]> (ea_impacts_ x) ∧ impact_shown s (ea_order_book x) r m;
  rc_book :
    if snapshot_valid (snapshot_of (ea_order_book x'))
    then (∃ d, ea_depths_ x' = <[symbol := d]> (ea_depths_ x) ∧
            depth_shown (ea_order_book x') (ea_depth_levels_ x) d) ∧
         ofi_tracks w qlev (extend symbol (snapshot_of (ea_order_book x')) hist) (ea_ofi_ x') ∧
         ea_analytics_healthy_ x' = ea_analytics_healthy_ x
    else ea_depths_ x' = <[symbol := default zero_summary (ea_depths_ x !! symbol)]> (ea_depths_ x) ∧
         ea_ofi_ x' = ea_ofi_ x ∧ ea_analytics_healthy_ x' = false;
  rc_levels : ea_depth_levels_ x' = ea_depth_levels_ x
}.

Lemma wp_ea_execute n hist x s symbol quantity :
  let e := ea_execution_ x in
  bounded_engine pmax n (matching_engine_ e) → has_window (trade_analytics_ e) →
  max_absolute_position_ (risk_limits_ e) ≤ INT64_MAX → pmax ≤ INT64_MAX →
  position_within (max_absolute_position_ (risk_limits_ e)) pmax (held symbol (position_manager_ e)) →
  Z.abs (realized_pnl_ticks_ (held symbol (position_manager_ e))) + pmax * quantity ≤ INT64_MAX →
  int64 quantity → quantity ≤ qmax →
  (0 < ea_depth_levels_ x)%nat → volume_within (ea_order_book x) → ofi_tracks w qlev hist (ea_ofi_ x) →
  wp (ea_execute symbol quantity s)
    (λ r x', let e' := ea_execution_ x' in
       managed_market None s symbol quantity e = (Ok r, e') ∧
       managed None pmax s symbol quantity e r e' ∧ bounded_engine pmax n (matching_engine_ e') ∧
       if executed_quantity r =? 0 then x' = set_ea_execution e' x else recorded hist s symbol x r x')
    (λ ex x', x' = x ∧ managed_market None s symbol quantity e = (Throw ex, e)) x.
Proof.
  intros e Ho Hwin Hlim Hp64 Hpos Hreal H64 Hle Hlev Hvol Ht. destruct (bounded_book _ _ Ho) as (Hwf & _).
  unfold ea_execute, ea_quote, id. do 5 wp_step. apply wp_capture_quote; [exact Hwf|]. apply wp_ret. do 2 wp_step.
  eapply wp_mono; [apply wp_eq, (wp_managed_market None pmax qmax Hpmax Hmantissa Hint64 false n); done| |].
  2: { intros ex e' (Hrun & -> & _). split; [by destruct x|done]. }
  intros r e' (Hrun & Hm & Ho'). simpl. destruct (executed_quantity r =? 0) eqn:Hz; zb.
  { apply wp_ret. by rewrite Hz. }
  destruct (bounded_book _ _ Ho') as (Hwf' & _).
  pose proof (mr_executed _ _ _ _ (md_report _ _ _ _ _ _ _ _ Hm)).
  pose proof (market_fair pmax qmax Hpmax Hmantissa Hint64 n _ s quantity r _ Ho H64 Hle
    (md_engine _ _ _ _ _ _ _ _ Hm)) as [_ _ _ _ Hshrink].
  assert (Hvol' : volume_within (order_book_ (matching_engine_ e'))).
  { unfold volume_within, bids, asks in *. pose proof (Hshrink Buy). pose proof (Hshrink Sell).
    unfold ea_order_book in Hvol. fold e in Hvol. simpl in *. lia. }
  do 5 wp_step. apply wp_capture_quote; [exact Hwf'|]. apply wp_ret.
  unfold ea_on_order_book_update, in_analytics, id. do 5 wp_step.
  assert (He' : set_analytics (trade_analytics_ e') e' = e') by by destruct e'.
  apply (wp_on_order_book_update hist symbol); [by apply Hm|exact Hwf'|exact Hvol'|exact Hlev|exact Ht| |].
  - intros d o Hval Hdepth Hflow. do 3 wp_step. unfold record_market_impact, validate_symbol.
    rewrite decide_False by apply Hm. do 2 wp_step. rewrite (proj2 (Z.eqb_neq _ 0)) by done. wp_step.
    eapply (wp_analyze_managed None n s symbol quantity e r e'); [done..|lia|].
    intros m Hshown. apply wp_modify, wp_ret. simpl. rewrite (proj2 (Z.eqb_neq _ 0)) by done.
    rewrite ?He'. split_and!; [done..|]. split; simpl; [by exists m| |done].
    unfold ea_order_book in *. simpl in *. rewrite ?He', Hval. split_and!; [by exists d|done|done].
  - intros ex Hval. wp_step. do 3 wp_step. unfold record_market_impact, validate_symbol.
    rewrite decide_False by apply Hm. do 2 wp_step. rewrite (proj2 (Z.eqb_neq _ 0)) by done. wp_step.
    eapply (wp_analyze_managed None n s symbol quantity e r e'); [done..|lia|].
    intros m Hshown. apply wp_modify, wp_ret. simpl. rewrite (proj2 (Z.eqb_neq _ 0)) by done.
    rewrite ?He'. split_and!; [done..|]. split; simpl; [by exists m| |done].
    unfold ea_order_book in *. simpl in *. rewrite ?He', Hval. by split_and!.
Qed.
End engine.
End spec.
