(* ===== verification/RiskTheorems.v ===== *)
(** * Theorems on positions and risk limits

    Trades are accounted for exactly, up to the rounding of the average price;
    executions add up; managed orders keep every position within the limit. *)
From S2P Require Import Prelude LongDouble Orders TradeStore OrderBook Levels OrderManager MatchingEngine.
From S2P Require Import EngineSpec ConcurrentEngine Totality Positions TradeAnalytics.
From S2P Require Import TradeAnalyticsSpec Risk.

Local Open Scope Z_scope.

(** Checking concrete positions by evaluation. *)
Definition position_okb (x : Position) : bool :=
  (Z.abs (quantity_ x) <=? INT64_MAX) && int64b (realized_pnl_ticks_ x) &&
  (if quantity_ x =? 0 then average_entry_price_ticks_ x =? 0
   else (0 <? average_entry_price_ticks_ x) && (average_entry_price_ticks_ x <=? INT64_MAX)).

Definition trade_fitsb (x : Position) (q price : Z) : bool :=
  (Z.abs q <=? INT64_MAX) && (Z.abs (quantity_ x + q) <=? INT64_MAX) && (price <=? INT64_MAX) &&
  int64b (closed_profit x q price) && int64b (realized_pnl_ticks_ x + closed_profit x q price).

Lemma int64b_int64 z : int64b z = true → int64 z.
Proof. unfold int64b, int64. intros. zb. by split. Qed.

Lemma position_okb_ok x : position_okb x = true → position_ok x.
Proof.
  unfold position_okb, position_ok. intros Hb. zb. split_and!; [done|by apply int64b_int64|].
  destruct (quantity_ x =? 0) eqn:?; zb; [by left|by right].
Qed.

Lemma trade_fitsb_fits x q price : trade_fitsb x q price = true → trade_fits x q price.
Proof. unfold trade_fitsb, trade_fits. intros Hb. zb. split_and!; [done..| |]; by apply int64b_int64. Qed.

(** C21: a trade of [q] units at a price moves the position by [q], realises the
    difference between that price and the average entry price for the units it
    closes, keeps the position well formed, and keeps the cash value of the
    position (realised profit less cost of what is held) in step with the money
    that changed hands: exactly, unless the trade adds to the position, and then
    up to less than one tick per unit held, which is the rounding of the average.
    The new average lies between the old one and the price.  A trade without
    quantity or price is refused and changes nothing.  The arithmetic is assumed
    to fit: the quantities, and the realised profit. *)
Theorem apply_trade_accounts x q price :
  position_ok x → (q ≠ 0 → 0 < price → trade_fits x q price) →
  match apply_trade q price x with
  | (Ok _, x') => q ≠ 0 ∧ 0 < price ∧ traded x q price x'
  | (Throw ex, x') => (q = 0 ∨ price ≤ 0) ∧ x' = x
  | _ => False
  end.
Proof.
  intros Hok Hfit.
  apply (wp_apply_trade x q price (λ _ x', q ≠ 0 ∧ 0 < price ∧ traded x q price x')
    (λ _ x', (q = 0 ∨ price ≤ 0) ∧ x' = x)); [done|done|by auto|by auto].
Qed.

Lemma apply_trade_accounts_witness :
  let x := mkPosition "BTC" 3 100 7 in
  apply_trade (-5) 110 x = (Ok tt, mkPosition "BTC" (-2) 110 37) ∧
  traded x (-5) 110 (mkPosition "BTC" (-2) 110 37).
Proof.
  intros x. assert (Hrun : apply_trade (-5) 110 x = (Ok tt, mkPosition "BTC" (-2) 110 37)) by reflexivity.
  pose proof (apply_trade_accounts x (-5) 110 (position_okb_ok x eq_refl)
    (λ _ _, trade_fitsb_fits x (-5) 110 eq_refl)) as Hacc.
  rewrite Hrun in Hacc. split; [done|]. apply Hacc.
Defined.

(** The trade of a symbol changes the position of that symbol, as
    [apply_trade] does, created flat if there was none; when it is refused the
    map is what it was, with no empty position left behind. *)
Theorem manager_apply_trade_updates symbol q price pm :
  symbol ≠ "" → position_ok (held symbol pm) →
  (q ≠ 0 → 0 < price → trade_fits (held symbol pm) q price) →
  match manager_apply_trade symbol q price pm with
  | (Ok _, pm') => ∃ x', traded (held symbol pm) q price x' ∧
      positions_ pm' = <[symbol := x']> (positions_ pm)
  | (Throw ex, pm') => (q = 0 ∨ price ≤ 0) ∧ pm' = pm
  | _ => False
  end.
Proof.
  intros Hsym Hok Hfit.
  apply (wp_manager_apply_trade symbol q price pm
    (λ _ pm', ∃ x', traded (held symbol pm) q price x' ∧ positions_ pm' = <[symbol := x']> (positions_ pm))
    (λ _ pm', (q = 0 ∨ price ≤ 0) ∧ pm' = pm)); [done|done|done| |by auto].
  intros _ _ x' Htr. by exists x'.
Qed.

Definition demo_positions : PositionManager :=
  mkPositionManager {[ "BTC" := mkPosition "BTC" 3 100 7; "ETH" := mkPosition "ETH" (-4) 50 0 ]}.

Definition demo_positions' : PositionManager :=
  mkPositionManager {[ "BTC" := mkPosition "BTC" 5 104 7; "ETH" := mkPosition "ETH" (-4) 50 0 ]}.

Lemma manager_apply_trade_updates_witness :
  manager_apply_trade "BTC" 2 111 demo_positions = (Ok tt, demo_positions') ∧
  ∃ x', traded (held "BTC" demo_positions) 2 111 x' ∧
    positions_ demo_positions' = <["BTC" := x']> (positions_ demo_positions).
Proof.
  assert (Hrun : manager_apply_trade "BTC" 2 111 demo_positions = (Ok tt, demo_positions'))
    by (vm_compute; reflexivity).
  pose proof (manager_apply_trade_updates "BTC" 2 111 demo_positions ltac:(discriminate)
    (position_okb_ok (held "BTC" demo_positions) eq_refl)
    (λ _ _, trade_fitsb_fits (held "BTC" demo_positions) 2 111 eq_refl)) as Hacc.
  rewrite Hrun in Hacc. by split.
Defined.

(** Applying the trades of an execution to a position moves it by the whole
    executed quantity, up on the buy side and down on the sell side, touches no
    other symbol, changes the realised profit by no more than the value traded,
    and leaves a well-formed position with an average of at most [pmax]: no trade
    of it fails half way.  [pmax] bounds the prices, and [limit] the position
    before and after. *)
Theorem apply_execution_adds_up symbol s limit pmax r pm :
  symbol ≠ "" → limit ≤ INT64_MAX → 0 ≤ pmax ≤ INT64_MAX → result_side r = s →
  Forall (λ t, 0 < trade_quantity t ∧ 0 < trade_price_ticks t ≤ pmax) (result_trades r) →
  traded_total (result_trades r) ≤ INT64_MAX →
  position_within limit pmax (held symbol pm) →
  Z.abs (quantity_ (held symbol pm) + signed s (traded_total (result_trades r))) ≤ limit →
  Z.abs (realized_pnl_ticks_ (held symbol pm)) + pmax * traded_total (result_trades r) ≤ INT64_MAX →
  ∃ pm', apply_execution symbol r pm = (Ok tt, pm') ∧
    executed symbol s (result_trades r) limit pmax pm pm'.
Proof.
  intros Hsym Hlim Hp Hs Hts Htot Hw Hsum Hre.
  destruct (wp_run (apply_execution symbol r)
    (λ _ pm', executed symbol s (result_trades r) limit pmax pm pm') pm) as ([] & pm' & Hrun & Hex).
  - by apply (wp_apply_execution symbol s limit pmax).
  - by exists pm'.
Qed.

Definition demo_execution : ExecutionResult :=
  mkExecutionResult Sell 6 5 1 (Some 104)
    [mkTrade Sell 105 4 1 (Some 4) None 1; mkTrade Sell 103 1 2 (Some 5) None 2].

Lemma apply_execution_adds_up_witness :
  ∃ pm', apply_execution "BTC" demo_execution demo_positions = (Ok tt, pm') ∧
    executed "BTC" Sell (result_trades demo_execution) 10 105 demo_positions pm'.
Proof.
  apply (apply_execution_adds_up "BTC" Sell 10 105 demo_execution demo_positions);
    [discriminate|vm_compute; discriminate|vm_compute; split; discriminate|reflexivity| | | | |].
  - repeat constructor; vm_compute; discriminate.
  - vm_compute. discriminate.
  - split; [by apply position_okb_ok|]. vm_compute. split; discriminate.
  - vm_compute. discriminate.
  - vm_compute. discriminate.
Defined.

Section managed_orders.
Context `{LongDoubleFormat} {B : Type} (before_apply : option (B → option exn * B)).
Context (pmax qmax : Z).

(** C22: a managed market order either goes through or is turned down.  It goes
    through only if the position that the whole order leads to is within the
    limit; then the engine executed it, the trades of its report were booked on
    the position of the symbol, one after the other, each at its own quantity and
    price ([booked], [traded]), and on no other position, the positions stay
    within the limit, and the analytics have seen the
    same trades: whatever they or their callback throw changes nothing but their
    own state and the health flag.  It is turned down, with engine, positions,
    analytics and health flag untouched, if the quantity is not positive, the
    symbol is empty, the limit would be passed, or the engine refused it. *)
Theorem managed_market_sound n x s symbol quantity :
  0 ≤ pmax ≤ INT64_MAX → pmax * qmax < 2 ^ (LDBL_MANT_DIG - 1) → pmax * qmax ≤ INT64_MAX →
  bounded_engine pmax n (matching_engine_ x) → has_window (trade_analytics_ x) →
  max_absolute_position_ (risk_limits_ x) ≤ INT64_MAX →
  position_within (max_absolute_position_ (risk_limits_ x)) pmax (held symbol (position_manager_ x)) →
  Z.abs (realized_pnl_ticks_ (held symbol (position_manager_ x))) + pmax * quantity ≤ INT64_MAX →
  int64 quantity → quantity ≤ qmax →
  match managed_market before_apply s symbol quantity x with
  | (Ok r, x') => managed before_apply pmax s symbol quantity x r x' ∧ bounded_engine pmax n (matching_engine_ x')
  | (Throw ex, x') => x' = x ∧ refused s symbol quantity x ex
  | _ => False
  end.
Proof.
  intros [Hp0 Hp] Hm H64 Hb Hwin Hl Hw Hr Hq Hle.
  exact (wp_managed_market before_apply pmax qmax Hp0 Hm H64 false n x s symbol quantity Hb Hwin Hl Hp Hw Hr Hq Hle).
Qed.

(** C23: from a fresh ledger over a fresh engine, any sequence of managed orders
    and direct engine commands, refused ones included, runs to its end, and
    then every position is within the limit, well formed, and entered at prices
    of at most [pmax].  [pmax] bounds the prices of the book and of the limit
    orders, [qmax] the quantities of the market orders; the last hypothesis keeps
    the realised profit within 64 bits. *)
Theorem clients_keep_limits b limit steps handler a healthy :
  has_window a → book_wf b → book_within pmax b → 0 ≤ pmax ≤ INT64_MAX → 0 ≤ qmax →
  pmax * qmax < 2 ^ (LDBL_MANT_DIG - 1) → 0 < limit ≤ INT64_MAX →
  Forall (step_within pmax qmax) steps → Z.of_nat (length steps) < UINT64_MAX →
  pmax * qmax ≤ INT64_MAX → pmax * qmax * Z.of_nat (length steps) ≤ INT64_MAX →
  ∃ x', run_steps before_apply steps
      (mkRiskManagedExecution (make_engine b) empty_positions (mkRiskLimits limit) handler a healthy) = Some x' ∧
    risk_limits_ x' = mkRiskLimits limit ∧
    (∃ q, engine_inv (matching_engine_ x') q) ∧
    ∀ symbol pos, positions_ (position_manager_ x') !! symbol = Some pos →
      Z.abs (quantity_ pos) ≤ limit ∧ average_entry_price_ticks_ pos ≤ pmax ∧ position_ok pos.
Proof.
  intros Hwin Hb Hbw [Hp0 Hp] Hq0 Hm Hl Hs Hlen H64 Hbud.
  destruct (run_steps_inv before_apply pmax qmax Hp0 Hm H64 1 0 steps
    (mkRiskManagedExecution (make_engine b) empty_positions (mkRiskLimits limit) handler a healthy))
    as (x' & Hrun & Hlim & [(_ & q & Hinv & _) _ Hh _]); [done| |done|lia|lia|simpl; lia|done|].
  { apply risk_inv_start; [done|by apply bounded_start|done|simpl; lia]. }
  exists x'. split_and!; [done|done|by exists q|]. intros symbol pos Hpos.
  destruct (Hh symbol) as (Hok & Hav & Hqu). unfold held in *. rewrite Hpos in *. rewrite Hlim in Hqu.
  by split_and!.
Qed.
End managed_orders.

Definition demo_steps : list client_step :=
  [DirectCommand (PlaceLimitSellCommand 100 3); DirectCommand (PlaceLimitBuyCommand 99 9);
   ManagedOrder Buy "BTC" 2; ManagedOrder Buy "BTC" 2; ManagedOrder Sell "BTC" 4;
   ManagedOrder Sell "ETH" 3; ManagedOrder Buy "" 1].

(** A callback that counts its calls and fails at the second. *)
Definition demo_callback (calls : nat) : option exn * nat :=
  (if (calls =? 1)%nat then Some (logic_error "analytics") else None, S calls).

Definition demo_analytics : TradeAnalytics nat := mkTradeAnalytics (mkVWAP 2 ∅) (mkStatistics ∅) 0%nat.

Definition demo_fresh : RiskManagedExecution nat :=
  mkRiskManagedExecution (make_engine empty_book) empty_positions (mkRiskLimits 3) true demo_analytics true.

Definition demo_managed : RiskManagedExecution nat :=
  default demo_fresh (run_steps (H:=x87_extended) (Some demo_callback) demo_steps demo_fresh).

Lemma demo_steps_within : Forall (step_within 100 10) demo_steps.
Proof. repeat constructor; vm_compute; intuition congruence. Qed.

Lemma clients_keep_limits_witness :
  ∃ x', run_steps (H:=x87_extended) (Some demo_callback) demo_steps demo_fresh = Some x' ∧
    risk_limits_ x' = mkRiskLimits 3 ∧
    (∃ q, engine_inv (matching_engine_ x') q) ∧
    ∀ symbol pos, positions_ (position_manager_ x') !! symbol = Some pos →
      Z.abs (quantity_ pos) ≤ 3 ∧ average_entry_price_ticks_ pos ≤ 100 ∧ position_ok pos.
Proof.
  apply (clients_keep_limits (H:=x87_extended) (Some demo_callback) 100 10 empty_book 3 demo_steps true
    demo_analytics true); [unfold has_window; simpl; lia|apply book_wf_empty|by intros [] ? ?%elem_of_nil|vm_compute; split; discriminate|lia|vm_compute; reflexivity
    |vm_compute; split; [reflexivity|discriminate]|apply demo_steps_within|vm_compute; reflexivity
    |vm_compute; discriminate|vm_compute; discriminate].
Defined.

(** What that run did: bought two at 100, refused two more, sold four of them
    short at 99; the second execution is missing in the analytics, which is
    flagged and nothing more. *)
Lemma demo_managed_positions :
  positions_ (position_manager_ demo_managed) !! "BTC" = Some (mkPosition "BTC" (-2) 99 (-2)) ∧
  positions_ (position_manager_ demo_managed) !! "ETH" = Some (mkPosition "ETH" (-3) 99 0) ∧
  positions_ (position_manager_ demo_managed) !! "" = None ∧
  analytics_healthy_ demo_managed = false ∧ apply_state_ (trade_analytics_ demo_managed) = 3%nat ∧
  statistics_trade_count "BTC" (trade_statistics_ (trade_analytics_ demo_managed)) = 1 ∧
  statistics_trade_count "ETH" (trade_statistics_ (trade_analytics_ demo_managed)) = 1.
Proof. vm_compute. repeat split. Qed.

(** A ledger over a book with two asks. *)
Definition demo_asks : OrderBook := mkBook [] [mkLevel 50 1; mkLevel 52 4].

Definition demo_ledger : RiskManagedExecution nat :=
  mkRiskManagedExecution (make_engine demo_asks) demo_positions (mkRiskLimits 6) true demo_analytics true.

Definition demo_report : ExecutionResult :=
  mkExecutionResult Buy 3 3 0 (Some 51)
    [mkTrade Buy 50 1 1 None None 1; mkTrade Buy 52 2 2 None None 2].

Definition demo_booked : RiskManagedExecution nat :=
  snd (managed_market (H:=x87_extended) (Some demo_callback) Buy "BTC" 3 demo_ledger).

Lemma demo_asks_bounded : bounded_engine 100 1 (make_engine demo_asks).
Proof.
  apply (bounded_start (H:=x87_extended)).
  - intros []; [apply levels_wf_nil|]. split; repeat constructor; vm_compute; intuition congruence.
  - intros [] x Hx; [by apply elem_of_nil in Hx|].
    repeat (apply elem_of_cons in Hx as [->|Hx]; [vm_compute; discriminate|]). by apply elem_of_nil in Hx.
Qed.

Lemma managed_market_sound_witness :
  managed_market (H:=x87_extended) (Some demo_callback) Buy "BTC" 3 demo_ledger = (Ok demo_report, demo_booked) ∧
  managed (H:=x87_extended) (Some demo_callback) 100 Buy "BTC" 3 demo_ledger demo_report demo_booked ∧
  positions_ (position_manager_ demo_booked) !! "BTC" = Some (mkPosition "BTC" 6 75 7).
Proof.
  assert (Hrun : managed_market (H:=x87_extended) (Some demo_callback) Buy "BTC" 3 demo_ledger =
    (Ok demo_report, demo_booked)) by (vm_compute; reflexivity).
  assert (Hw : position_within 6 100 (held "BTC" demo_positions)).
  { split; [by apply position_okb_ok|]. vm_compute. split; discriminate. }
  pose proof (managed_market_sound (H:=x87_extended) (Some demo_callback) 100 10 1 demo_ledger Buy "BTC" 3
    ltac:(vm_compute; split; discriminate) ltac:(vm_compute; reflexivity) ltac:(vm_compute; discriminate)
    demo_asks_bounded ltac:(unfold has_window; simpl; lia) ltac:(vm_compute; discriminate) Hw ltac:(vm_compute; discriminate)
    ltac:(vm_compute; split; discriminate) ltac:(lia)) as Hsound.
  rewrite Hrun in Hsound. split; [done|]. split; [apply Hsound|]. vm_compute. reflexivity.
Defined.

(** ** Where the accounting falls short

    The profit of a trade is computed in 128 bits and cast to 64: a profit of
    2^63 + 4 ticks is booked as the loss it wraps to, without an exception. *)
Lemma realized_profit_wraps :
  let x := mkPosition "BTC" 4 1 0 in
  closed_profit x (-4) 2305843009213693954 = 2 ^ 63 + 4 ∧
  apply_trade (-4) 2305843009213693954 x = (Ok tt, mkPosition "BTC" 0 0 (- 2 ^ 63 + 4)).
Proof. vm_compute. split; reflexivity. Qed.
