(* ===== verification/FixedPoint.v ===== *)
(** * Fixed-point numbers

    The decimal strings of [src/order_book.cpp]: [parse_fixed_nonnegative] with
    its two callers, and [format_price].  A number carries six decimal places.
    A string is the list of its characters and a position in it the rest of the
    list from there. *)
From S2P Require Import Prelude.
From Stdlib Require Import Ascii.
From Stdlib Require String.

Local Open Scope Z_scope.

Definition ticks_per_unit : Z := 1000000.

(** ** Characters *)

(** [std::isdigit], which only accepts the ten decimal digits. *)
Definition isdigit (c : ascii) : bool :=
  (48 <=? Z.of_nat (nat_of_ascii c)) && (Z.of_nat (nat_of_ascii c) <=? 57).

(** [c - '0']. *)
Definition digit (c : ascii) : Z := Z.of_nat (nat_of_ascii c) - 48.

Definition mul64 {S} (x y : Z) : M S Z := checked64 (x * y).

(** ** Parsing *)

Section parse.
Context {S : Type} (field_name : string).

(** The loop over the digits before the point. *)
Fixpoint parse_whole (whole_part : Z) (has_whole_digits : bool) (s : list ascii)
    : M S (Z * bool * list ascii) :=
  match s with
  | c :: r =>
      if isdigit c then
        let* room := sub64 INT64_MAX (digit c) in
        if whole_part >? Z.quot room 10
        then throw (overflow_error (field_name +:+ " is too large."))
        else
          let* t := mul64 whole_part 10 in
          let* w := add64 t (digit c) in
          parse_whole w true r
      else ret (whole_part, has_whole_digits, s)
  | [] => ret (whole_part, has_whole_digits, s)
  end.

(** The loop over the digits after the point. *)
Fixpoint parse_fraction (fractional_part : Z) (fractional_digits : nat) (s : list ascii)
    : M S (Z * nat * list ascii) :=
  match s with
  | c :: r =>
      if isdigit c then
        if (6 <=? fractional_digits)%nat
        then throw (invalid_argument (field_name +:+ " supports at most 6 decimal places."))
        else
          let* t := mul64 fractional_part 10 in
          let* f := add64 t (digit c) in
          parse_fraction f (fractional_digits + 1) r
      else ret (fractional_part, fractional_digits, s)
  | [] => ret (fractional_part, fractional_digits, s)
  end.

(** [while (fractional_digits < 6)], [n] rounds of which are left. *)
Fixpoint scale_fraction (n : nat) (fractional_part : Z) : M S Z :=
  match n with
  | O => ret fractional_part
  | Datatypes.S n =>
      let* f := mul64 fractional_part 10 in scale_fraction n f
  end.

(** From the point on: the fraction, the checks, the assembly. *)
Definition parse_rest (whole_part : Z) (has_whole_digits : bool) (s : list ascii) : M S Z :=
  let* fraction :=
    match s with
    | "."%char :: r => parse_fraction 0 0 r
    | _ => ret (0, O, s)
    end in
  let '(fractional_part, fractional_digits, s) := fraction in
  if negb has_whole_digits && (fractional_digits =? 0)%nat
  then throw (invalid_argument ("Invalid " +:+ field_name +:+ "."))
  else
    match s with
    | _ :: _ => throw (invalid_argument (field_name +:+ " contains invalid characters."))
    | [] =>
        let* fractional_part := scale_fraction (6 - fractional_digits) fractional_part in
        let* room := sub64 INT64_MAX fractional_part in
        if whole_part >? Z.quot room ticks_per_unit
        then throw (overflow_error (field_name +:+ " is too large."))
        else
          let* t := mul64 whole_part ticks_per_unit in
          add64 t fractional_part
    end.

Definition parse_unsigned (s : list ascii) : M S Z :=
  match s with
  | [] => throw (invalid_argument ("Invalid " +:+ field_name +:+ "."))
  | _ =>
      let* whole := parse_whole 0 false s in
      let '(whole_part, has_whole_digits, s) := whole in
      parse_rest whole_part has_whole_digits s
  end.

Definition parse_fixed_nonnegative (value : list ascii) : M S Z :=
  match value with
  | [] => throw (invalid_argument (field_name +:+ " cannot be empty."))
  | "+"%char :: s => parse_unsigned s
  | "-"%char :: _ => throw (invalid_argument (field_name +:+ " cannot be negative."))
  | s => parse_unsigned s
  end.
End parse.

Definition price_to_ticks {S} (price : string) : M S Z :=
  parse_fixed_nonnegative "Price" (String.list_ascii_of_string price).

Definition quantity_to_fixed {S} (quantity : string) : M S Z :=
  parse_fixed_nonnegative "Quantity" (String.list_ascii_of_string quantity).

(** ** Formatting *)

Definition digit_char (d : Z) : ascii := ascii_of_nat (Z.to_nat (48 + d)).

(** [output << n] for a non-negative [n], least significant digit last; an
    [int64_t] has at most nineteen digits. *)
Fixpoint print_digits (fuel : nat) (n : Z) (acc : list ascii) : list ascii :=
  match fuel with
  | O => acc
  | S fuel =>
      let acc := digit_char (n mod 10) :: acc in
      if n / 10 =? 0 then acc else print_digits fuel (n / 10) acc
  end.

Definition print_int64 (n : Z) : list ascii := print_digits 19 n [].

(** [std::setw(w) << std::setfill('0')]. *)
Definition pad_zero (w : nat) (l : list ascii) : list ascii :=
  replicate (w - length l) "0"%char ++ l.

(** The lambda that is written three times. *)
Fixpoint power_of_ten {S} (places : nat) (value : Z) : M S Z :=
  match places with
  | O => ret value
  | Datatypes.S n => let* v := mul64 value 10 in power_of_ten n v
  end.

Definition format_price {S} (price : Z) (decimal_places : nat) : M S string :=
  if price <? 0 then throw (invalid_argument "Price cannot be negative.")
  else if (6 <? decimal_places)%nat then throw (invalid_argument "Decimal places cannot exceed 6.")
  else
    let* divisor := power_of_ten (6 - decimal_places) 1 in
    let scaled := Z.quot price divisor in
    let* unit_ := power_of_ten decimal_places 1 in
    let whole := Z.quot scaled unit_ in
    let fractional := Z.rem scaled unit_ in
    ret (String.string_of_list_ascii (print_int64 whole ++
      (if (0 <? decimal_places)%nat
       then "."%char :: pad_zero decimal_places (print_int64 fractional)
       else []))).

(** ** What a digit string denotes *)

Definition digits (l : list ascii) : Prop := Forall (λ c, isdigit c = true) l.

Definition decimal_from (acc : Z) (l : list ascii) : Z := foldl (λ a c, a * 10 + digit c) acc l.
Definition decimal (l : list ascii) : Z := decimal_from 0 l.

Lemma digit_bounds c : isdigit c = true → 0 ≤ digit c ≤ 9.
Proof. unfold isdigit, digit. intros. zb. lia. Qed.

Lemma decimal_from_ge acc l : 0 ≤ acc → digits l → acc ≤ decimal_from acc l.
Proof.
  intros Ha Hl. revert acc Ha. induction Hl as [|c l Hc _ IH]; intros acc Ha; simpl; [lia|].
  pose proof (digit_bounds c Hc). specialize (IH (acc * 10 + digit c)).
  unfold decimal_from in *. simpl. lia.
Qed.

Lemma decimal_from_lt acc l k :
  0 ≤ acc < 10 ^ k → 0 ≤ k → digits l →
  0 ≤ decimal_from acc l < 10 ^ (k + Z.of_nat (length l)).
Proof.
  intros Ha Hk Hl. revert acc k Ha Hk.
  induction Hl as [|c l Hc _ IH]; intros acc k Ha Hk; simpl.
  { by rewrite Z.add_0_r. }
  pose proof (digit_bounds c Hc).
  assert (Hp : 10 ^ (k + 1) = 10 ^ k * 10) by (rewrite Z.pow_add_r; lia).
  specialize (IH (acc * 10 + digit c) (k + 1)).
  replace (k + Z.of_nat (S (length l))) with (k + 1 + Z.of_nat (length l)) by lia.
  apply IH; lia.
Qed.

(** The value of [whole.fraction] in ticks. *)
Definition fixed_value (ws fs : list ascii) : Z :=
  decimal ws * ticks_per_unit + decimal fs * 10 ^ (6 - Z.of_nat (length fs)).

(** A text that no digit starts. *)
Definition stops (s : list ascii) : Prop := ∀ c, head s = Some c → isdigit c = false.

Section parse_spec.
Context {S : Type} (field_name : string).
Implicit Types σ : S.

Lemma wp_parse_whole acc has ws s Q E σ :
  0 ≤ acc ≤ INT64_MAX → digits ws → stops s →
  (decimal_from acc ws ≤ INT64_MAX →
   Q (decimal_from acc ws, has || negb (match ws with [] => true | _ => false end), s) σ) →
  (INT64_MAX < decimal_from acc ws → E (overflow_error (field_name +:+ " is too large.")) σ) →
  wp (parse_whole field_name acc has (ws ++ s)) Q E σ.
Proof.
  intros Ha Hws Hs. revert acc has Ha. induction Hws as [|c ws Hc Hws IH]; intros acc has Ha HQ HE.
  - simpl in *. rewrite orb_false_r in HQ. destruct s as [|c s]; [apply wp_ret, HQ; lia|].
    simpl. rewrite (Hs c eq_refl). apply wp_ret, HQ. lia.
  - simpl. rewrite Hc. pose proof (digit_bounds c Hc) as Hd.
    pose proof (decimal_from_ge (acc * 10 + digit c) ws ltac:(lia) Hws) as Hge.
    do 2 wp_step; [mlia|]. rewrite Z.quot_div_nonneg by mlia.
    pose proof (Z.div_mod (INT64_MAX - digit c) 10 ltac:(lia)) as Hdm.
    pose proof (Z.mod_pos_bound (INT64_MAX - digit c) 10 ltac:(lia)) as Hmb.
    unfold decimal_from in *. simpl in *. wp_step; zb.
    + apply wp_throw, HE. lia.
    + unfold mul64. wp_steps; [mlia|mlia|]. apply IH; [lia| |done].
      intros Hmax. specialize (HQ Hmax). by rewrite orb_true_r in HQ.
Qed.

Lemma wp_parse_fraction acc n fs u Q E σ :
  0 ≤ acc < 10 ^ Z.of_nat n → (n ≤ 6)%nat → digits fs → stops u →
  ((n + length fs ≤ 6)%nat → Q (decimal_from acc fs, (n + length fs)%nat, u) σ) →
  ((6 < n + length fs)%nat → ∀ w, E (invalid_argument w) σ) →
  wp (parse_fraction field_name acc n (fs ++ u)) Q E σ.
Proof.
  intros Ha Hn Hfs Hu. revert acc n Ha Hn.
  induction Hfs as [|c fs Hc Hfs IH]; intros acc n Ha Hn HQ HE.
  { simpl in *. rewrite Nat.add_0_r in HQ. specialize (HQ ltac:(lia)).
    destruct u as [|c u]; [by apply wp_ret|]. simpl. rewrite (Hu c eq_refl). by apply wp_ret. }
  cbn [app parse_fraction]. simpl in HQ, HE.
  rewrite Hc. pose proof (digit_bounds c Hc) as Hd.
  destruct (6 <=? n)%nat eqn:H6; [apply Nat.leb_le in H6; apply wp_throw, HE; lia|].
  apply Nat.leb_gt in H6.
  assert (10 ^ Z.of_nat n ≤ 10 ^ 5) by (apply Z.pow_le_mono_r; lia).
  unfold mul64. wp_steps; [mlia|mlia|]. rewrite Nat.add_succ_r in HQ, HE.
  apply IH; rewrite ?Nat.add_1_r; [|lia|done|done].
  rewrite Nat2Z.inj_succ, Z.pow_succ_r by lia. lia.
Qed.

Lemma wp_scale_fraction n f Q E σ :
  0 ≤ f → f * 10 ^ Z.of_nat n ≤ INT64_MAX → Q (f * 10 ^ Z.of_nat n) σ →
  wp (scale_fraction n f) Q E σ.
Proof.
  revert f. induction n as [|n IH]; intros f Hf Hb HQ; simpl.
  { rewrite Z.mul_1_r in HQ. by apply wp_ret. }
  assert (Hp : f * 10 ^ Z.of_nat (Datatypes.S n) = f * 10 * 10 ^ Z.of_nat n).
  { rewrite Nat2Z.inj_succ, Z.pow_succ_r by lia. ring. }
  pose proof (Z.pow_pos_nonneg 10 (Z.of_nat n)). rewrite Hp in *.
  unfold mul64. wp_steps; [unfold int64, INT64_MIN; nia|]. apply IH; [lia|done|done].
Qed.

(** A number with up to six decimal places is read exactly, or refused because
    it does not fit. *)
Lemma wp_parse_unsigned ws fs (point : bool) Q E σ :
  digits ws → digits fs → (length fs ≤ 6)%nat → (length ws + length fs ≠ 0)%nat →
  (point = false → fs = []) →
  (fixed_value ws fs ≤ INT64_MAX → Q (fixed_value ws fs) σ) →
  (INT64_MAX < fixed_value ws fs → E (overflow_error (field_name +:+ " is too large.")) σ) →
  wp (parse_unsigned field_name (ws ++ if point then "."%char :: fs else [])) Q E σ.
Proof.
  intros Hws Hfs Hlen Hne Hpt HQ HE. unfold parse_unsigned.
  pose proof (decimal_from_ge 0 ws ltac:(lia) Hws) as Hw0.
  pose proof (decimal_from_lt 0 fs 0 ltac:(simpl; lia) ltac:(lia) Hfs) as Hf. rewrite Z.add_0_l in Hf.
  set (k := 6 - Z.of_nat (length fs)) in *.
  assert (H6 : 10 ^ Z.of_nat (length fs) * 10 ^ k = 1000000).
  { rewrite <- Z.pow_add_r by lia. by replace (Z.of_nat (length fs) + k) with 6 by lia. }
  pose proof (Z.pow_pos_nonneg 10 k ltac:(lia) ltac:(lia)) as Hk.
  assert (Hfr : 0 ≤ decimal fs * 10 ^ k < 1000000) by (unfold decimal; nia).
  unfold fixed_value, ticks_per_unit in HQ, HE. fold k in HQ, HE. unfold decimal in *.
  set (F := decimal_from 0 fs * 10 ^ k) in *. set (W := decimal_from 0 ws) in *.
  assert (Hnil : ws ++ (if point then "."%char :: fs else []) ≠ []).
  { intros [-> Hp]%app_eq_nil. destruct point; [done|]. rewrite Hpt in Hne by done. by simpl in Hne. }
  destruct (ws ++ _) eqn:Hs; [done|]. rewrite <- Hs. clear Hs Hnil.
  wp_step. apply wp_parse_whole; [mlia|done|destruct point; by intros ? [= <-]| |].
  2: { intros Hover. apply HE. fold W in Hover. lia. }
  fold W. intros HW. simpl.
  assert (Hfrac : ∀ Q' E', Q' (decimal_from 0 fs, length fs, []) σ →
    wp (match (if point then "."%char :: fs else []) with
        | "."%char :: r => parse_fraction field_name 0 0 r
        | _ => ret (0, O, if point then "."%char :: fs else [])
        end) Q' E' σ).
  { intros Q' E' HQ'. destruct point.
    - rewrite <- (app_nil_r fs). apply wp_parse_fraction; rewrite ?app_nil_r;
        [simpl; lia|lia|done|done|done|lia].
    - rewrite Hpt in * by done. by apply wp_ret. }
  unfold parse_rest. wp_step. apply Hfrac.
  assert (Hhas : negb (negb (match ws with [] => true | _ => false end)) && (length fs =? 0)%nat = false).
  { destruct ws; [|done]. simpl in *. by apply Nat.eqb_neq. }
  rewrite Hhas. wp_step.
  assert (Hk' : Z.of_nat (6 - length fs) = k) by lia.
  apply wp_scale_fraction; [lia|rewrite Hk'; fold F; mlia|]. rewrite Hk'. fold F.
  wp_step. wp_step; [mlia|]. rewrite Z.quot_div_nonneg by (unfold ticks_per_unit; mlia).
  unfold ticks_per_unit.
  pose proof (Z.div_mod (INT64_MAX - F) 1000000 ltac:(lia)) as Hdm.
  pose proof (Z.mod_pos_bound (INT64_MAX - F) 1000000 ltac:(lia)) as Hmb.
  wp_step; zb; [apply wp_throw, HE; lia|]. unfold mul64. wp_steps; [mlia|mlia|]. apply HQ. lia.
Qed.

(** A text that is [whole.fraction] with at most six decimal places. *)
Definition numeral (ws fs s : list ascii) : Prop :=
  digits ws ∧ digits fs ∧ (length fs ≤ 6)%nat ∧ (length ws + length fs ≠ 0)%nat ∧
  ∃ point : bool, s = ws ++ (if point then "."%char :: fs else []) ∧ (point = false → fs = []).

Lemma digits_span s : ∃ ws r, s = ws ++ r ∧ digits ws ∧ stops r.
Proof.
  induction s as [|c s (ws & r & -> & Hws & Hr)].
  { exists [], []. split_and!; [done|constructor|done]. }
  destruct (isdigit c) eqn:Hc.
  - exists (c :: ws), r. split_and!; [done|by constructor|done].
  - exists [], (c :: ws ++ r). split_and!; [done|constructor|]. by intros ? [= <-].
Qed.

(** After the whole digits, anything but the end of a numeral is refused. *)
Lemma parse_rest_cases ws r :
  digits ws → stops r →
  (∃ fs, numeral ws fs (ws ++ r)) ∨
  ∀ w E σ, (∀ m, E (invalid_argument m) σ) →
    wp (parse_rest field_name w (negb (match ws with [] => true | _ => false end)) r)
      (λ _ _, False) E σ.
Proof.
  intros Hws Hr.
  assert (Hplain : ∀ c r', r = c :: r' → c ≠ "."%char → ∀ w E σ, (∀ m, E (invalid_argument m) σ) →
    wp (parse_rest field_name w (negb (match ws with [] => true | _ => false end)) r) (λ _ _, False) E σ).
  { intros c r' -> Hc w E σ HE. unfold parse_rest.
    replace (match c :: r' with "."%char :: r0 => parse_fraction field_name 0 0 r0
             | _ => ret (0, O, c :: r') end) with (ret (S:=S) (0, O, c :: r'))
      by (destruct c as [[] [] [] [] [] [] [] []]; done).
    do 2 wp_step. destruct (_ && _); apply wp_throw; auto. }
  destruct r as [|c r].
  { destruct ws as [|c ws].
    - right. intros w E σ HE. unfold parse_rest. do 2 wp_step. simpl. apply wp_throw. auto.
    - left. exists []. split_and!; [done|constructor|simpl; lia|simpl; lia|]. by exists false. }
  destruct (decide (c = "."%char)) as [->|Hc]; [|right; eauto].
  destruct (digits_span r) as (fs & u & -> & Hfs & Hu).
  destruct (decide ((length fs ≤ 6)%nat ∧ (length ws + length fs ≠ 0)%nat ∧ u = [])) as [(H6 & Hne & ->)|Hbad].
  { left. exists fs. split_and!; [done..|]. exists true. by rewrite app_nil_r. }
  right. intros w E σ HE. unfold parse_rest. wp_step.
  apply wp_parse_fraction; [simpl; lia|lia|done|done| |auto]. simpl. intros H6.
  destruct (negb _ && _) eqn:Hempty; [apply wp_throw; auto|].
  destruct u as [|c u]; [|apply wp_throw; auto]. destruct Hbad. split_and!; [done| |done].
  intros H0. destruct ws; [|done]. simpl in *. by rewrite H0 in Hempty.
Qed.

Lemma wp_parse_numeral ws fs s Q E σ :
  numeral ws fs s →
  (fixed_value ws fs ≤ INT64_MAX → Q (fixed_value ws fs) σ) →
  (INT64_MAX < fixed_value ws fs → E (overflow_error (field_name +:+ " is too large.")) σ) →
  wp (parse_unsigned field_name s) Q E σ.
Proof. intros (Hws & Hfs & H6 & Hne & point & -> & Hpt) HQ HE. by apply wp_parse_unsigned. Qed.

(** Reading an arbitrary text: a numeral whose value fits, or an exception. *)
Lemma wp_parse_any s σ :
  wp (parse_unsigned field_name s)
    (λ v σ', σ' = σ ∧ ∃ ws fs, numeral ws fs s ∧ v = fixed_value ws fs ∧ v ≤ INT64_MAX)
    (λ ex σ', σ' = σ ∧ ((∃ w, ex = invalid_argument w) ∨ ∃ w, ex = overflow_error w)) σ.
Proof.
  destruct (digits_span s) as (ws & r & Heq & Hws & Hr).
  destruct (parse_rest_cases ws r Hws Hr) as [[fs Hn]|Hbad].
  { rewrite <- Heq in Hn. apply (wp_parse_numeral ws fs); [done| |]; eauto 8. }
  unfold parse_unsigned. destruct s as [|c s']; [apply wp_throw; eauto|].
  rewrite Heq at 1. wp_step. apply wp_parse_whole; [mlia|done|done| |eauto].
  intros _. simpl. eapply wp_mono; [apply (Hbad _ (λ ex σ', σ' = σ ∧ ∃ w, ex = invalid_argument w))| |].
  - eauto.
  - done.
  - intros ex σ' [-> [w ->]]. eauto.
Qed.
End parse_spec.

(** ** Printing *)

Lemma digit_char_spec d : 0 ≤ d ≤ 9 → isdigit (digit_char d) = true ∧ digit (digit_char d) = d.
Proof.
  intros Hd. unfold isdigit, digit, digit_char. rewrite nat_ascii_embedding by lia.
  rewrite Z2Nat.id by lia. split; [|lia].
  apply andb_true_iff. split; apply Z.leb_le; lia.
Qed.

Lemma decimal_from_app a l1 l2 : decimal_from a (l1 ++ l2) = decimal_from (decimal_from a l1) l2.
Proof. apply foldl_app. Qed.

(** Printing a number gives digits that denote it, no more than needed. *)
Lemma print_digits_spec fuel n acc :
  0 ≤ n < 10 ^ Z.of_nat fuel → (0 < fuel)%nat →
  ∃ l, print_digits fuel n acc = l ++ acc ∧ digits l ∧ l ≠ [] ∧
    (∀ a, decimal_from a l = a * 10 ^ Z.of_nat (length l) + n) ∧
    (∀ k, (1 ≤ k)%nat → n < 10 ^ Z.of_nat k → (length l ≤ k)%nat).
Proof.
  revert n acc. induction fuel as [|fuel IH]; intros n acc Hn Hf; [lia|]. simpl.
  pose proof (Z.mod_pos_bound n 10 ltac:(lia)) as Hm. pose proof (Z.div_mod n 10 ltac:(lia)) as Hdm.
  destruct (digit_char_spec (n mod 10)) as [Hdig Hval]; [lia|].
  destruct (n / 10 =? 0) eqn:Hz; zb.
  - exists [digit_char (n mod 10)]. split_and!; [done|by repeat constructor|done| |].
    + intros a. unfold decimal_from. simpl. rewrite Hval. lia.
    + simpl. lia.
  - assert (Hd0 : 0 ≤ n / 10) by (apply Z.div_pos; lia).
    rewrite Nat2Z.inj_succ, Z.pow_succ_r in Hn by lia.
    destruct (IH (n / 10) (digit_char (n mod 10) :: acc)) as (l & -> & Hl & Hne & Hdec & Hlen); [lia| |].
    { destruct fuel; [|lia]. simpl in Hn. lia. }
    exists (l ++ [digit_char (n mod 10)]). split_and!.
    + by rewrite <- app_assoc.
    + apply Forall_app. split; [done|by repeat constructor].
    + by destruct l.
    + intros a. rewrite decimal_from_app, Hdec, length_app. unfold decimal_from. simpl. rewrite Hval.
      rewrite Nat2Z.inj_add, Z.pow_add_r by lia. simpl. lia.
    + intros k Hk Hnk. rewrite length_app. simpl. destruct k as [|[|k]]; [lia|simpl in Hnk; lia|].
      rewrite Nat2Z.inj_succ, Z.pow_succ_r in Hnk by lia.
      specialize (Hlen (S k) ltac:(lia) ltac:(lia)). lia.
Qed.

Lemma print_int64_spec n :
  0 ≤ n ≤ INT64_MAX →
  digits (print_int64 n) ∧ print_int64 n ≠ [] ∧ decimal (print_int64 n) = n ∧
  (∀ k, (1 ≤ k)%nat → n < 10 ^ Z.of_nat k → (length (print_int64 n) ≤ k)%nat).
Proof.
  intros Hn. destruct (print_digits_spec 19 n []) as (l & Hl & Hd & Hne & Hdec & Hlen); [|lia|].
  { unfold INT64_MAX in Hn. simpl. lia. }
  unfold print_int64. rewrite Hl, app_nil_r. split_and!; [done|done| |done].
  unfold decimal. by rewrite Hdec.
Qed.

Lemma pad_zero_spec w l :
  digits l → (length l ≤ w)%nat →
  digits (pad_zero w l) ∧ length (pad_zero w l) = w ∧ decimal (pad_zero w l) = decimal l.
Proof.
  intros Hl Hlen. unfold pad_zero. split_and!.
  - apply Forall_app. split; [|done]. by apply Forall_replicate.
  - rewrite length_app, length_replicate. lia.
  - unfold decimal. rewrite decimal_from_app. f_equal.
    induction (w - length l)%nat as [|k IH]; [done|]. exact IH.
Qed.

Lemma wp_power_of_ten {S} n v Q E (σ : S) :
  0 ≤ v → v * 10 ^ Z.of_nat n ≤ INT64_MAX → Q (v * 10 ^ Z.of_nat n) σ → wp (power_of_ten n v) Q E σ.
Proof.
  revert v. induction n as [|n IH]; intros v Hv Hb HQ; simpl.
  { rewrite Z.mul_1_r in HQ. by apply wp_ret. }
  assert (Hp : v * 10 ^ Z.of_nat (Datatypes.S n) = v * 10 * 10 ^ Z.of_nat n).
  { rewrite Nat2Z.inj_succ, Z.pow_succ_r by lia. ring. }
  pose proof (Z.pow_pos_nonneg 10 (Z.of_nat n)). rewrite Hp in *.
  unfold mul64. wp_steps; [unfold int64, INT64_MIN; nia|]. apply IH; [lia|done|done].
Qed.

Lemma power_of_ten_state {S} n v (σ : S) : (power_of_ten n v σ).2 = σ.
Proof.
  revert v. induction n as [|n IH]; intros v; simpl; [done|].
  unfold bind, mul64, checked64. destruct (int64b _); [apply IH|done].
Qed.

Lemma format_price_state {S} t d (σ : S) : (format_price t d σ).2 = σ.
Proof.
  unfold format_price. destruct (t <? 0), (6 <? d)%nat; try done. unfold bind.
  pose proof (power_of_ten_state (6 - d) 1 σ) as H1. destruct (power_of_ten (6 - d) 1 σ) as [[] ?]; try done.
  simpl in H1. subst. pose proof (power_of_ten_state d 1 σ) as H2. by destruct (power_of_ten d 1 σ) as [[] ?].
Qed.

(** A string that starts with a digit has no sign. *)
Lemma parse_signless {S} f c s :
  isdigit c = true →
  parse_fixed_nonnegative (S:=S) f (c :: s) = parse_unsigned f (c :: s).
Proof. by destruct c as [[] [] [] [] [] [] [] []]. Qed.

#[local] Opaque print_int64 pad_zero.

(** Formatting with [d] places and reading back drops the places beyond. *)
Lemma wp_format_parse {S} t d Q E (σ : S) :
  0 ≤ t ≤ INT64_MAX → (d ≤ 6)%nat →
  Q (t / 10 ^ (6 - Z.of_nat d) * 10 ^ (6 - Z.of_nat d)) σ →
  wp (let* s := format_price t d in price_to_ticks s) Q E σ.
Proof.
  intros Ht Hd HQ. set (k := 6 - Z.of_nat d) in *. set (v := 10 ^ k) in *.
  set (u := 10 ^ Z.of_nat d).
  assert (Hv : 0 < v) by (apply Z.pow_pos_nonneg; lia).
  assert (Hu : 0 < u) by (apply Z.pow_pos_nonneg; lia).
  assert (Huv : u * v = 1000000).
  { unfold u, v. rewrite <- Z.pow_add_r by lia. by replace (Z.of_nat d + k) with 6 by lia. }
  wp_step. unfold format_price. rewrite (proj2 (Z.ltb_ge t 0)), (proj2 (Nat.ltb_ge 6 d)) by lia.
  assert (Hk6 : Z.of_nat (6 - d) = k) by lia. assert (Hvb : v ≤ 1000000 ∧ u ≤ 1000000) by nia.
  wp_step. apply wp_power_of_ten; [lia| |]; rewrite Hk6, Z.mul_1_l; fold v; [mlia|].
  wp_step. apply wp_power_of_ten; [lia| |]; rewrite Z.mul_1_l; fold u; [mlia|].
  rewrite (Z.quot_div_nonneg t v) by lia.
  pose proof (div_le_self t v ltac:(lia) Hv) as Hs.
  rewrite Z.quot_div_nonneg, Z.rem_mod_nonneg by lia.
  set (sc := t / v) in *.
  pose proof (Z.div_mod sc u ltac:(lia)) as Hdm. pose proof (Z.mod_pos_bound sc u Hu) as Hmb.
  pose proof (div_le_self sc u ltac:(lia) Hu) as Hw.
  destruct (print_int64_spec (sc / u)) as (Hwd & Hwn & Hwv & _); [lia|].
  destruct (print_int64_spec (sc mod u)) as (Hfd & Hfn & Hfv & Hfl); [lia|].
  set (fs := if (0 <? d)%nat then pad_zero d (print_int64 (sc mod u)) else []).
  assert (Hfs : digits fs ∧ length fs = d ∧ decimal fs = sc mod u).
  { unfold fs. destruct (0 <? d)%nat eqn:Hd0.
    - apply Nat.ltb_lt in Hd0. rewrite <- Hfv at 4.
      apply pad_zero_spec; [done|]. apply Hfl; [lia|]. fold u. lia.
    - apply Nat.ltb_ge in Hd0. assert (d = 0%nat) as -> by lia. split_and!; [constructor|done|].
      unfold u in *. simpl in *. unfold decimal, decimal_from. simpl. lia. }
  destruct Hfs as (Hfs1 & Hfs2 & Hfs3).
  wp_step. unfold price_to_ticks. rewrite String.list_ascii_of_string_of_list_ascii.
  replace (if (0 <? d)%nat then "."%char :: pad_zero d (print_int64 (sc mod u)) else [])
    with (if (0 <? d)%nat then "."%char :: fs else []) by (unfold fs; by destruct (0 <? d)%nat).
  destruct (print_int64 (sc / u)) as [|c ws] eqn:Hpr.
  { by destruct Hwn. }
  cbn [app].
  rewrite parse_signless by by inversion Hwd. rewrite app_comm_cons, <- Hpr in *.
  assert (Hval : fixed_value (print_int64 (sc / u)) fs = sc * v).
  { unfold fixed_value, ticks_per_unit. rewrite Hwv, Hfs2, Hfs3. fold k v. nia. }
  assert (Hle : sc * v ≤ INT64_MAX) by (pose proof (Z.mul_div_le t v Hv); unfold sc; lia).
  apply wp_parse_unsigned; rewrite ?Hval; [exact Hwd|exact Hfs1|lia| | |intros _; exact HQ|lia].
  - rewrite Hpr. simpl. lia.
  - intros Hd0. unfold fs. by rewrite Hd0.
Qed.

#[local] Transparent print_int64 pad_zero.
