(* ===== verification/FixedPointTheorems.v ===== *)
(** * Theorems about fixed-point numbers

    Which texts [price_to_ticks] and [quantity_to_fixed] accept and what they
    read, and that [format_price] prints what they read back. *)
From S2P Require Import Prelude FixedPoint.
From Stdlib Require Import Ascii.

Local Open Scope Z_scope.

(** The text after an optional plus sign. *)
Definition unsign (s : list ascii) : list ascii :=
  match s with "+"%char :: r => r | _ => s end.

Lemma numeral_not_minus ws fs r : ¬ numeral ws fs ("-"%char :: r).
Proof.
  intros (Hws & _ & _ & Hne & point & Heq & Hpt). destruct ws as [|c ws].
  - by destruct point.
  - injection Heq as <- _. apply Forall_cons in Hws as [Hc _]. done.
Qed.

(** The sign is all that [parse_fixed_nonnegative] adds. *)
Lemma parse_sign_cases {S} f (s : list ascii) :
  (∀ ws fs, ¬ numeral ws fs (unsign s)) ∧
    (∃ w, parse_fixed_nonnegative (S:=S) f s = throw (invalid_argument w)) ∨
  parse_fixed_nonnegative (S:=S) f s = parse_unsigned f (unsign s).
Proof.
  destruct s as [|c r].
  { left. split; [|by eexists]. intros ws fs (_ & _ & _ & Hne & point & Heq & Hpt). simpl in Heq.
    symmetry in Heq. apply app_eq_nil in Heq as [-> Heq]. destruct point; [done|]. by rewrite Hpt in Hne. }
  destruct (decide (c = "-"%char)) as [->|Hm].
  { left. split; [|by eexists]. intros ws fs. apply numeral_not_minus. }
  right. by destruct c as [[] [] [] [] [] [] [] []].
Qed.

Lemma fixed_value_nonneg ws fs : digits ws → digits fs → 0 ≤ fixed_value ws fs.
Proof.
  intros Hws Hfs. unfold fixed_value, decimal, ticks_per_unit.
  pose proof (decimal_from_ge 0 ws ltac:(lia) Hws). pose proof (decimal_from_ge 0 fs ltac:(lia) Hfs).
  pose proof (Z.pow_nonneg 10 (6 - Z.of_nat (length fs)) ltac:(lia)). nia.
Qed.

(** C19: the accepted texts are exactly the numerals with an optional plus sign
    and at most six decimal places whose value fits; the value read is exact.
    On every text at all the parser answers with a value in [0, INT64_MAX] or
    with one of its two exceptions: no digit string overflows its arithmetic. *)
Theorem parse_accepts_numerals {S} f (s : list ascii) (σ : S) :
  (∀ v, parse_fixed_nonnegative f s σ = (Ok v, σ) ↔
     ∃ ws fs, numeral ws fs (unsign s) ∧ v = fixed_value ws fs ∧ v ≤ INT64_MAX) ∧
  ∃ r, parse_fixed_nonnegative f s σ = (r, σ) ∧
    match r with
    | Ok v => 0 ≤ v ≤ INT64_MAX
    | Throw (invalid_argument _) | Throw (overflow_error _) => True
    | _ => False
    end.
Proof.
  destruct (parse_sign_cases (S:=S) f s) as [[Hno [w ->]]| ->].
  { split; [|by eexists]. intros v. split; [done|]. intros (ws & fs & Hn & _). by destruct (Hno ws fs). }
  destruct (wp_outcome _ _ _ _ (wp_parse_any (S:=S) f (unsign s) σ)) as (r & σ' & Hrun & Hr).
  assert (Hst : σ' = σ) by (destruct r; [apply Hr|apply Hr|done..]). subst σ'. split.
  - intros v. split.
    + intros Hok. rewrite Hrun in Hok. injection Hok as ->. by destruct Hr.
    + intros (ws & fs & Hn & -> & Hv). apply wp_exact.
      apply (wp_parse_numeral f ws fs); [done|done|lia].
  - exists r. split; [done|]. destruct r as [v|ex| |]; [|by destruct Hr as (_ & [[w ->]|[w ->]])|done..].
    destruct Hr as (_ & ws & fs & (Hws & Hfs & _) & -> & Hv). split; [by apply fixed_value_nonneg|done].
Qed.

(** C20: reading a printed price gives it back, less the decimal places that
    were not printed; with six places nothing is lost. *)
Theorem format_parse_round_trip {S} t d (σ : S) :
  0 ≤ t ≤ INT64_MAX → (d ≤ 6)%nat →
  ∃ s, format_price t d σ = (Ok s, σ) ∧
    price_to_ticks s σ = (Ok (t / 10 ^ (6 - Z.of_nat d) * 10 ^ (6 - Z.of_nat d)), σ) ∧
    (d = 6%nat → price_to_ticks s σ = (Ok t, σ)).
Proof.
  intros Ht Hd. set (v := t / 10 ^ (6 - Z.of_nat d) * 10 ^ (6 - Z.of_nat d)).
  assert (Hrun : bind (format_price t d) price_to_ticks σ = (Ok v, σ))
    by (apply wp_exact, wp_format_parse; done).
  assert (Hst : (format_price t d σ).2 = σ) by apply format_price_state.
  unfold bind in Hrun. destruct (format_price t d σ) as [[s|ex| |] σ']; try done.
  simpl in Hst. subst σ'. exists s. split_and!; [done|done|]. intros ->.
  rewrite Hrun. unfold v. simpl. by rewrite Z.mul_1_r, Z.div_1_r.
Qed.

Lemma format_parse_round_trip_witness :
  ∃ s, format_price 1234567 3 tt = (Ok s, tt) ∧
    price_to_ticks s tt = (Ok (1234567 / 10 ^ (6 - 3) * 10 ^ (6 - 3)), tt) ∧
    (3%nat = 6%nat → price_to_ticks s tt = (Ok 1234567, tt)).
Proof. apply (format_parse_round_trip 1234567 3 tt); unfold INT64_MAX; lia. Defined.
