(* ===== verification/EngineTheorems.v ===== *)
(** * Theorems about the matching engine

    The contract of [matching_engine.cpp] stated on runs of the program, each
    with an instance on a small concrete engine. *)
From S2P Require Import Prelude LongDouble Orders TradeStore OrderBook Levels OrderManager.
From S2P Require Import ManagerSpec MatchingEngine EngineSpec PlaceSpec Journal MatchLoop.
From S2P Require Import EngineLimit EngineModify EngineMarket MarketRollback BlockingQueue ConcurrentEngine.
From S2P Require Import ConcurrentSpec Totality.

Local Open Scope Z_scope.

(** ** Trades and fills *)

(** Every fill is acceptable, and an order ahead of a filled one is used up. *)
Lemma greedy_fills acceptable quantity l :
  0 ≤ quantity → Forall order_ok l →
  Forall (λ f, fst f ∈ l ∧ acceptable (fst f) = true ∧ 0 < snd f ≤ remaining_quantity (fst f))
    (fills (match_queue acceptable quantity l)) ∧
  ∀ l1 a l2 b x, l = l1 ++ a :: l2 → b ∈ l2 →
    (b, x) ∈ fills (match_queue acceptable quantity l) → NoDup l →
    (a, remaining_quantity a) ∈ fills (match_queue acceptable quantity l).
Proof.
  intros Hq Hl. split.
  - destruct (match_queue_greedy acceptable quantity l Hq Hl)
      as [l1 l2 -> Ha -> _ _|l1 o r x -> Ha Ho Hx -> _ _]; apply Forall_forall; intros [y z].
    + intros (w & [= -> ->] & Hw)%list_elem_of_fmap. simpl. rewrite Forall_forall in Ha, Hl.
      destruct (Hl w ltac:(by apply elem_of_app; left)) as (_ & _ & ? & _).
      split_and!; [by apply elem_of_app; left|by apply Ha|lia..].
    + rewrite elem_of_app, list_elem_of_singleton. intros [(w & [= -> ->] & Hw)%list_elem_of_fmap|[= -> ->]];
        simpl; rewrite Forall_forall in Ha, Hl.
      * destruct (Hl w ltac:(by apply elem_of_app; left)) as (_ & _ & ? & _).
        split_and!; [by apply elem_of_app; left|by apply Ha|lia..].
      * split_and!; [apply elem_of_app; right; by left|done|lia..].
  - intros l1 a l2 b x Hsplit Hb Hfill Hnd.
    assert (Hahead : ∀ k1 k2, l = k1 ++ k2 → b ∈ k1 → a ∈ k1).
    { intros k1 k2 Hk Hbk. rewrite Hsplit in Hk, Hnd.
      apply NoDup_app in Hnd as (_ & Hd & _).
      apply app_eq_inv in Hk as [(m & -> & Hm)|(m & -> & Hm)].
      - exfalso. apply (Hd b); [apply elem_of_app; by left|by right].
      - destruct m as [|c m]; simplify_eq/=; [|apply elem_of_app; right; by left].
        rewrite app_nil_r in Hbk. exfalso. by apply (Hd b); [|right]. }
    destruct (match_queue_greedy acceptable quantity l Hq Hl)
      as [k1 k2 Hk _ Hf _ _|k1 o r y Hk _ _ _ Hf _ _]; rewrite Hf in Hfill |- *.
    + apply list_elem_of_fmap in Hfill as (w & [= -> ->] & Hw).
      apply list_elem_of_fmap. exists a. split; [done|]. by eapply Hahead.
    + apply elem_of_app. left. apply list_elem_of_fmap. exists a. split; [done|].
      rewrite elem_of_app, list_elem_of_singleton in Hfill.
      destruct Hfill as [(w & [= -> ->] & Hw)%list_elem_of_fmap|[= -> ->]]; [by eapply Hahead|].
      assert (Ha : a ∈ k1 ++ [o]).
      { apply (Hahead (k1 ++ [o]) r); [by rewrite <- app_assoc|]. apply elem_of_app. right. by left. }
      apply elem_of_app in Ha as [Ha|Ha%list_elem_of_singleton]; [done|].
      exfalso. subst a. rewrite Hsplit in Hnd. apply NoDup_app in Hnd as (_ & _ & [Hn _]%NoDup_cons).
      done.
Qed.

Lemma inv_queue_nodup e q s : engine_inv e q → NoDup (queue s q).
Proof.
  intros Hinv. pose proof (rep_queue _ _ (ok_rep _ _ (inv_ok _ _ Hinv)) s) as [_ Hs].
  by apply (NoDup_fmap_1 make_priority_key), (set_sorted_nodup (side_compare s)).
Qed.

(** A placement that can be shown in the book, as an equation on the run. *)
Lemma place_run e q s p quantity :
  engine_inv e q → 0 < p ≤ INT64_MAX → 0 < quantity ≤ INT64_MAX →
  next_sequence_number_ e < UINT64_MAX →
  queue_depth p (queue s q) +
    unmatched (match_queue (limit_accepts s p) quantity (queue (other_side s) q)) ≤ INT64_MAX →
  let o := incoming_order s p quantity e in
  ∃ e', place_limit_order s p quantity e = (Ok (order_id o), e') ∧
    engine_inv e' (place_spec o q) ∧
    trade_store_ e' = record_fills s (Some (order_id o)) (place_fills o q) (trade_store_ e).
Proof.
  intros Hinv Hp Hq Hlt Hfit o.
  destruct (wp_run (place_limit_order s p quantity) (λ a e', a = order_id o ∧
    placed (started e) q o e') e) as (a & e' & Hrun & -> & Hpl).
  { apply (wp_place_limit_order e q); [apply Hinv|mlia|mlia| |].
    - intros e' _ _ Hpl. split; [done|]. by apply Hpl, started_synced.
    - intros ex Hrej. apply (place_rejected_inv e q s p quantity Hinv) in Hrej; [lia..|done]. }
  exists e'. split_and!; [done|by eapply placed_inv|].
  rewrite (placed_trades _ _ _ _ Hpl). by rewrite started_trades.
Qed.

(** What a placement that returned did. *)
Lemma place_returned e q s p quantity id_ e' :
  engine_inv e q → int64 p → int64 quantity →
  place_limit_order s p quantity e = (Ok id_, e') →
  id_ = next_order_id_ (order_id_generator_ e) ∧ 0 < p ∧ 0 < quantity ∧
  placed (started e) q (incoming_order s p quantity e) e'.
Proof.
  intros Hinv Hp Hq Hrun.
  assert (Hwp : wp (place_limit_order s p quantity) (λ a e1, a = next_order_id_ (order_id_generator_ e) ∧
    0 < p ∧ 0 < quantity ∧ placed (started e) q (incoming_order s p quantity e) e1) (λ _ _, True) e).
  { apply (wp_place_limit_order e q); [apply Hinv|done..| |done].
    intros e1 Hp0 Hq0 Hpl. split_and!; [done..|]. by apply Hpl, started_synced. }
  unfold wp in Hwp. by rewrite Hrun in Hwp.
Qed.

(** ** A concrete engine

    Two resting sells, three units at 100 and five at 101. *)

Definition demo0 : MatchingEngine := make_engine empty_book.
Definition demo_queues0 : Queues := mkQueues [] [].
Definition demo1 : MatchingEngine := snd (place_limit_sell 100 3 demo0).
Definition demo_queues1 : Queues := place_spec (incoming_order Sell 100 3 demo0) demo_queues0.
Definition demo2 : MatchingEngine := snd (place_limit_sell 101 5 demo1).
Definition demo_queues2 : Queues := place_spec (incoming_order Sell 101 5 demo1) demo_queues1.

Definition demo_a : LimitOrder := mkLimitOrder 1 Sell 100 3 3 1.
Definition demo_b : LimitOrder := mkLimitOrder 2 Sell 101 5 5 2.

Lemma demo_step e q s p quantity :
  engine_inv e q → 0 < p ≤ INT64_MAX → 0 < quantity ≤ INT64_MAX →
  next_sequence_number_ e < UINT64_MAX →
  queue_depth p (queue s q) +
    unmatched (match_queue (limit_accepts s p) quantity (queue (other_side s) q)) ≤ INT64_MAX →
  engine_inv (snd (place_limit_order s p quantity e)) (place_spec (incoming_order s p quantity e) q).
Proof.
  intros H1 H2 H3 H4 H5. by destruct (place_run e q s p quantity H1 H2 H3 H4 H5) as (e' & -> & ? & _).
Qed.

(** Facts about concrete numbers. *)
Ltac concrete := vm_compute; intuition congruence.

Lemma demo0_inv : engine_inv demo0 demo_queues0.
Proof. apply engine_inv_start, book_wf_empty. Qed.

Lemma demo1_inv : engine_inv demo1 demo_queues1.
Proof. apply (demo_step demo0 demo_queues0 Sell 100 3); [apply demo0_inv|concrete..]. Qed.

Lemma demo2_inv : engine_inv demo2 demo_queues2.
Proof. apply (demo_step demo1 demo_queues1 Sell 101 5); [apply demo1_inv|concrete..]. Qed.

(** ** Placement *)

(** C1: a valid limit order is matched greedily against the opposite queue in
    price-time order and its rest is queued; the call returns the new id, the
    trade history grows by exactly the fills, and the book again shows the
    queues. *)
Theorem place_limit_order_refines e q s p quantity :
  engine_inv e q → 0 < p ≤ INT64_MAX → 0 < quantity ≤ INT64_MAX →
  next_sequence_number_ e < UINT64_MAX →
  queue_depth p (queue s q) +
    unmatched (match_queue (limit_accepts s p) quantity (queue (other_side s) q)) ≤ INT64_MAX →
  let o := incoming_order s p quantity e in
  ∃ e', place_limit_order s p quantity e = (Ok (order_id o), e') ∧
    engine_inv e' (place_spec o q) ∧
    trade_store_ e' = record_fills s (Some (order_id o)) (place_fills o q) (trade_store_ e).
Proof. apply place_run. Qed.

(** Buying six at 101 takes the three at 100 and three of the five at 101. *)
Lemma place_limit_order_refines_witness :
  fst (place_limit_buy 101 6 demo2) = Ok 3 ∧
  map (λ t, (trade_price_ticks t, trade_quantity t)) (trade_history (snd (place_limit_buy 101 6 demo2)))
    = [(100, 3); (101, 3)] ∧
  engine_inv (snd (place_limit_buy 101 6 demo2))
    (place_spec (incoming_order Buy 101 6 demo2) demo_queues2).
Proof.
  split; [vm_compute; reflexivity|]. split; [vm_compute; reflexivity|].
  destruct (place_limit_order_refines demo2 demo_queues2 Buy 101 6 demo2_inv)
    as (e' & Hrun & Hinv & _); [concrete..|].
  unfold place_limit_buy. rewrite Hrun. exact Hinv.
Defined.

(** C2: a limit order never trades at a price worse than its limit, never more
    than its quantity, and what it does not trade rests in its own queue. *)
Theorem place_limit_order_respects_limit e q s p quantity id_ e' :
  engine_inv e q → int64 p → int64 quantity →
  place_limit_order s p quantity e = (Ok id_, e') →
  ∃ new rest,
    trade_history e' = trade_history e ++ new ∧
    Forall (λ t, aggressor_side t = s ∧ 0 < trade_quantity t ∧
      if is_buy s then trade_price_ticks t ≤ p else p ≤ trade_price_ticks t) new ∧
    traded_total new + rest = quantity ∧ 0 ≤ rest ∧
    (0 < rest → ∃ o, o ∈ active_limit_orders e' ∧ order_id o = id_ ∧ side o = s ∧
       price_ticks o = p ∧ remaining_quantity o = rest).
Proof.
  intros Hinv Hp Hq Hrun.
  destruct (place_returned e q s p quantity id_ e' Hinv Hp Hq Hrun)
    as (-> & Hp0 & Hq0 & [Hrep Htr _ _ _]).
  set (m := match_queue (limit_accepts s p) quantity (queue (other_side s) q)).
  pose proof (ok_queue e q (other_side s) (inv_ok _ _ Hinv)) as Hok.
  destruct (match_queue_total (limit_accepts s p) quantity _ ltac:(lia) Hok) as [Hsum Hun].
  destruct (greedy_fills (limit_accepts s p) quantity _ ltac:(lia) Hok) as [Hgood _].
  fold m in Hsum, Hun, Hgood. rewrite started_trades in Htr.
  destruct (record_fills_trades s (Some (next_order_id_ (order_id_generator_ e))) (fills m)
    (trade_store_ e)) as (new & Hnew & Hf2).
  exists new, (unmatched m). split_and!; [|  |by rewrite (traded_total_fills _ _ _ _ Hf2)|lia|].
  - unfold trade_history. by rewrite Htr.
  - apply Forall_forall. intros t Ht. apply list_elem_of_lookup in Ht as [i Hi].
    destruct (Forall2_lookup_r _ _ _ _ _ Hf2 Hi) as (f & Hf & Ha & Hpr & Hqy & _).
    rewrite Forall_forall in Hgood.
    destruct (Hgood f ltac:(by eapply list_elem_of_lookup_2)) as (_ & Hacc & Hb).
    split_and!; [done|lia|]. rewrite Hpr. unfold limit_accepts in Hacc. by case_match; zb.
  - intros Hrest. exists (set_remaining (unmatched m) (incoming_order s p quantity e)).
    split_and!; [|done..]. apply (rep_in_queue _ _ Hrep s).
    unfold place_spec. simpl. fold m. rewrite (proj2 (Z.eqb_neq _ 0)) by lia.
    rewrite queue_set_queue, elem_of_queue_insert. by left.
Qed.

Lemma place_limit_order_respects_limit_witness :
  ∃ new rest, trade_history (snd (place_limit_buy 100 4 demo2)) = trade_history demo2 ++ new ∧
    traded_total new + rest = 4.
Proof.
  destruct (place_limit_order_respects_limit demo2 demo_queues2 Buy 100 4 3
    (snd (place_limit_buy 100 4 demo2)) demo2_inv) as (new & rest & H1 & _ & H2 & _);
    [concrete|concrete|vm_compute; reflexivity|].
  exists new, rest. split; [exact H1|exact H2].
Defined.

(** C3: price-time priority.  If a placement trades with an order [b], every
    order [a] of the opposite queue that is to be served before it (better price,
    or same price and smaller sequence number) is traded for all it had. *)
Theorem place_limit_order_priority e q s p quantity id_ e' a b :
  engine_inv e q → int64 p → int64 quantity →
  place_limit_order s p quantity e = (Ok id_, e') →
  a ∈ queue (other_side s) q → b ∈ queue (other_side s) q →
  served_before (other_side s) a b →
  ∃ new, trade_history e' = trade_history e ++ new ∧
    ((∃ t, t ∈ new ∧ (if is_buy s then sell_order_id t else buy_order_id t) = Some (order_id b)) →
     ∃ t, t ∈ new ∧ (if is_buy s then sell_order_id t else buy_order_id t) = Some (order_id a) ∧
       trade_price_ticks t = price_ticks a ∧ trade_quantity t = remaining_quantity a).
Proof.
  intros Hinv Hp Hq Hrun Ha Hb Hab%side_compare_served.
  destruct (place_returned e q s p quantity id_ e' Hinv Hp Hq Hrun)
    as (-> & Hp0 & Hq0 & [Hrep Htr _ _ _]).
  set (m := match_queue (limit_accepts s p) quantity (queue (other_side s) q)).
  pose proof (ok_queue e q (other_side s) (inv_ok _ _ Hinv)) as Hok.
  destruct (greedy_fills (limit_accepts s p) quantity _ ltac:(lia) Hok) as [Hgood Hahead].
  fold m in Hgood, Hahead. rewrite started_trades in Htr.
  destruct (record_fills_trades s (Some (next_order_id_ (order_id_generator_ e))) (fills m)
    (trade_store_ e)) as (new & Hnew & Hf2).
  exists new. split; [unfold trade_history; by rewrite Htr|].
  intros (t & Ht & Hid). apply list_elem_of_lookup in Ht as [i Hi].
  destruct (Forall2_lookup_r _ _ _ _ _ Hf2 Hi) as ([b' x] & Hf & Htf). simpl in *.
  rewrite Forall_forall in Hgood.
  destruct (Hgood (b', x) ltac:(by eapply list_elem_of_lookup_2)) as (Hb' & _ & _). simpl in Hb'.
  assert (b' = b) as ->.
  { pose proof (ok_rep _ _ (inv_ok _ _ Hinv)) as Hrep0.
    apply (rep_unique_id _ _ Hrep0); [by eapply rep_in_queue..|].
    destruct Htf as (_ & _ & _ & Hbuy & Hsell). simpl in *. destruct (is_buy s); congruence. }
  assert (Hsplit : ∃ l1 l2, queue (other_side s) q = l1 ++ a :: l2 ∧ b ∈ l2).
  { apply list_elem_of_split in Ha as (l1 & l2 & Hl). exists l1, l2. split; [done|].
    rewrite Hl in Hb. apply elem_of_app in Hb as [Hb|[->|Hb]%elem_of_cons]; [| |done].
    - pose proof (rep_queue _ _ (ok_rep _ _ (inv_ok _ _ Hinv)) (other_side s)) as [_ Hs].
      rewrite Hl, map_app in Hs. simpl in Hs. apply set_sorted_split in Hs as (H1 & _ & _).
      rewrite Forall_map, Forall_forall in H1. specialize (H1 b Hb). simpl in H1.
      apply (st_asym (side_compare (other_side s))) in H1. congruence.
    - by rewrite st_irrefl in Hab. }
  destruct Hsplit as (l1 & l2 & Hl & Hbl).
  pose proof (Hahead l1 a l2 b x Hl Hbl ltac:(by eapply list_elem_of_lookup_2)
    (inv_queue_nodup e q _ Hinv)) as Hfa.
  apply list_elem_of_lookup in Hfa as [j Hj].
  destruct (Forall2_lookup_l _ _ _ _ _ Hf2 Hj) as (ta & Hta & _ & Hpr & Hqy & Hbuy & Hsell).
  exists ta. split; [by eapply list_elem_of_lookup_2|]. simpl in *. by destruct (is_buy s).
Qed.

Lemma place_limit_order_priority_witness :
  ∃ new, trade_history (snd (place_limit_buy 101 6 demo2)) = trade_history demo2 ++ new ∧
    ((∃ t, t ∈ new ∧ sell_order_id t = Some 2) →
     ∃ t, t ∈ new ∧ sell_order_id t = Some 1 ∧ trade_price_ticks t = 100 ∧ trade_quantity t = 3).
Proof.
  apply (place_limit_order_priority demo2 demo_queues2 Buy 101 6 3
    (snd (place_limit_buy 101 6 demo2)) demo_a demo_b demo2_inv);
    [concrete|concrete|vm_compute; reflexivity|left|right; left|left; simpl; lia].
Defined.

(** C4: strong exception guarantee of placement.  Whatever the owner wrote to
    the shared book, placing an order returns or throws, and a throw leaves the
    book, the orders with all their indices, the trade history and both counters
    exactly as they were. *)
Theorem place_limit_order_strong_guarantee e q s p quantity :
  engine_ok e q → int64 p → int64 quantity →
  ∃ r e', place_limit_order s p quantity e = (r, e') ∧
    ((∃ id_, r = Ok id_) ∨ (∃ ex, r = Throw ex ∧ e' = e)).
Proof.
  intros Hok Hp Hq.
  assert (Hwp : wp (place_limit_order s p quantity) (λ _ _, True) (λ _ e', e' = e) e)
    by by apply (wp_place_limit_order e q).
  unfold wp in Hwp. destruct (place_limit_order s p quantity e) as [r e'].
  exists r, e'. split; [done|]. destruct r; [left; eauto|right; eauto|done..].
Qed.

(** The sells rest, but the owner took the level at 101 out of the book: the
    placement fills the first order, fails on the second, and gives all back. *)
Definition demo_detached : MatchingEngine :=
  set_book (mkBook [] [mkLevel 100 3]) demo2.

Lemma demo_detached_ok : engine_ok demo_detached demo_queues2.
Proof.
  destruct (inv_ok _ _ demo2_inv) as [H1 H2 _ H4 H5]. split; [done|done| |done|done].
  intros []; [apply levels_wf_nil|]. split; repeat constructor; concrete.
Qed.

Lemma place_limit_order_strong_guarantee_witness :
  fst (place_limit_buy 101 6 demo_detached) =
    Throw (negative_quantity "Ask") ∧
  snd (place_limit_buy 101 6 demo_detached) = demo_detached.
Proof.
  split; [vm_compute; reflexivity|].
  destruct (place_limit_order_strong_guarantee demo_detached demo_queues2 Buy 101 6
    demo_detached_ok) as (r & e' & Hrun & Hcases); [concrete|concrete|].
  unfold place_limit_buy. rewrite Hrun. destruct Hcases as [[id_ ->]|(ex & -> & ->)]; [|reflexivity].
  exfalso. assert (Hf : fst (place_limit_order Buy 101 6 demo_detached) = Ok id_) by by rewrite Hrun.
  vm_compute in Hf. discriminate.
Defined.

(** ** Cancellation *)

(** C5: cancelling an active order takes exactly that order out of its queue and
    its remaining quantity out of the book, and returns [true]; an unknown id
    returns [false] and changes nothing. *)
Theorem cancel_order_refines e q i :
  engine_inv e q →
  (∃ o l1 l2 e', order_id o = i ∧ queue (side o) q = l1 ++ o :: l2 ∧
     MatchingEngine.cancel_order i e = (Ok true, e') ∧
     engine_inv e' (set_queue (side o) (l1 ++ l2) q) ∧
     trade_store_ e' = trade_store_ e ∧
     book_depth (side o) (price_ticks o) (order_book_ e') =
       book_depth (side o) (price_ticks o) (order_book_ e) - remaining_quantity o) ∨
  ((∀ o, o ∈ active_limit_orders e → order_id o ≠ i) ∧
   MatchingEngine.cancel_order i e = (Ok false, e)).
Proof.
  intros Hinv. pose proof (inv_ok _ _ Hinv) as Hok. pose proof (ok_rep _ _ Hok) as Hrep.
  destruct (wp_run (MatchingEngine.cancel_order i) (λ b e', if b : bool then
      ∃ o l1 l2, order_id o = i ∧ queue (side o) q = l1 ++ o :: l2 ∧
        engine_inv e' (set_queue (side o) (l1 ++ l2) q) ∧ trade_store_ e' = trade_store_ e ∧
        book_depth (side o) (price_ticks o) (order_book_ e') =
          book_depth (side o) (price_ticks o) (order_book_ e) - remaining_quantity o
    else e' = e ∧ find_order i (order_manager_ e) = None) e) as (b & e' & Hrun & HQ).
  - apply (wp_cancel e q); [done|done| |].
    + intros o l1 l2 om' Hid Hq Hrep' Hd. exists o, l1, l2.
      split_and!; [done|done|by apply inv_without|done|]. simpl.
      by rewrite book_depth_set_depth, Z.eqb_refl by apply Hok.
    + intros o w om' _ Ho _ Hd. apply (rep_orders _ _ Hrep) in Ho.
      destruct (rep_queue_split _ _ Hrep o Ho) as (l1 & l2 & Hq).
      pose proof (synced_member e q o l1 l2 Hok Hq (member_synced e q o l1 l2 Hinv Hq)).
      unfold nothrow. lia.
  - destruct b.
    + destruct HQ as (o & l1 & l2 & Hid & Hq & Hinv' & Hts & Hd). left.
      exists o, l1, l2, e'. by split_and!.
    + destruct HQ as [-> Hf]. right. split; [|done]. intros o Ho.
      apply (rep_find_none _ _ Hrep _); [done|]. by apply (rep_orders _ _ Hrep).
Qed.

Lemma cancel_order_refines_witness :
  MatchingEngine.cancel_order 1 demo2 = (Ok true, snd (MatchingEngine.cancel_order 1 demo2)) ∧
  asks_ (order_book_ (snd (MatchingEngine.cancel_order 1 demo2))) = [mkLevel 101 5].
Proof.
  destruct (cancel_order_refines demo2 demo_queues2 1 demo2_inv)
    as [(o & l1 & l2 & e' & _ & _ & Hrun & _)|[Hno _]].
  - rewrite Hrun. split; [reflexivity|]. replace e' with (snd (MatchingEngine.cancel_order 1 demo2)).
    + vm_compute. reflexivity.
    + by rewrite Hrun.
  - exfalso. by apply (Hno demo_a); [left|].
Defined.

(** C6: a cancellation the book refuses (the owner changed the shared book)
    leaves the book, the trade history and both queues as they were; the order
    itself is active again. *)
Theorem cancel_order_failure e q i ex e' :
  engine_ok e q → MatchingEngine.cancel_order i e = (Throw ex, e') →
  engine_ok e' q ∧ order_book_ e' = order_book_ e ∧ trade_store_ e' = trade_store_ e ∧
  active_limit_orders e' ≡ₚ active_limit_orders e.
Proof.
  intros Hok Hrun.
  assert (Hwp : wp (MatchingEngine.cancel_order i) (λ _ _, True) (λ _ e', ∃ om',
    om_rep om' q ∧ e' = set_manager om' e) e).
  { apply (wp_cancel e q); [done..|]. intros o w om' _ _ Hrep _. eauto. }
  unfold wp in Hwp. rewrite Hrun in Hwp. destruct Hwp as (om' & Hrep & ->).
  split_and!; [|done|done|].
  - destruct Hok. by split.
  - unfold active_limit_orders, orders. simpl.
    by rewrite (rep_perm _ _ Hrep), (rep_perm _ _ (ok_rep _ _ Hok)).
Qed.

Lemma cancel_order_failure_witness :
  MatchingEngine.cancel_order 2 demo_detached =
    (Throw (negative_quantity "Ask"), snd (MatchingEngine.cancel_order 2 demo_detached)) ∧
  engine_ok (snd (MatchingEngine.cancel_order 2 demo_detached)) demo_queues2.
Proof.
  assert (Hrun : MatchingEngine.cancel_order 2 demo_detached =
    (Throw (negative_quantity "Ask"), snd (MatchingEngine.cancel_order 2 demo_detached)))
    by (vm_compute; reflexivity).
  split; [exact Hrun|]. apply (cancel_order_failure _ _ _ _ _ demo_detached_ok Hrun).
Defined.

(** ** Modification *)

(** C7: [modify_order] either finds no such order and changes nothing; or throws,
    changing nothing, because an argument is not positive or the new level would
    overflow; or rewrites the order: at the same price in place, behind its level
    when its quantity grows, and at a new price by placing it again under its id,
    trades included. *)
Theorem modify_order_refines e q i p quantity :
  engine_inv e q → int64 p → int64 quantity → next_sequence_number_ e < UINT64_MAX →
  ∃ r e', modify_order i p quantity e = (r, e') ∧
    ((r = Ok false ∧ e' = e ∧ ∀ o, o ∈ active_limit_orders e → order_id o ≠ i) ∨
     (∃ ex, r = Throw ex ∧ e' = e ∧
        (p ≤ 0 ∨ quantity ≤ 0 ∨ ∃ o l1 l2, order_id o = i ∧ queue (side o) q = l1 ++ o :: l2 ∧
           modify_overflows o p quantity l1 l2 q)) ∨
     (∃ o l1 l2, r = Ok true ∧ order_id o = i ∧ queue (side o) q = l1 ++ o :: l2 ∧
        engine_inv e' (modify_spec o p quantity (next_sequence_number_ e) l1 l2 q) ∧
        trade_store_ e' = record_fills (side o) (Some i)
          (modify_fills o p quantity (next_sequence_number_ e) l1 l2 q) (trade_store_ e))).
Proof.
  intros Hinv Hp Hq Hlt. pose proof (ok_rep _ _ (inv_ok _ _ Hinv)) as Hrep.
  assert (Hwp : wp (modify_order i p quantity)
    (λ b e', if b : bool then ∃ o l1 l2, order_id o = i ∧ queue (side o) q = l1 ++ o :: l2 ∧
        engine_inv e' (modify_spec o p quantity (next_sequence_number_ e) l1 l2 q) ∧
        trade_store_ e' = record_fills (side o) (Some i)
          (modify_fills o p quantity (next_sequence_number_ e) l1 l2 q) (trade_store_ e)
      else e' = e ∧ find_order i (order_manager_ e) = None)
    (λ _ e', e' = e ∧ (p ≤ 0 ∨ quantity ≤ 0 ∨ ∃ o l1 l2, order_id o = i ∧
       queue (side o) q = l1 ++ o :: l2 ∧ modify_overflows o p quantity l1 l2 q)) e).
  { apply (wp_modify_order e q); [done..| |].
    - intros o l1 l2 e' _ _ Hid Hs Hi _ Ht _. by exists o, l1, l2.
    - intros ex Hr. by split. }
  unfold wp in Hwp. destruct (modify_order i p quantity e) as [r e'].
  exists r, e'. split; [done|]. destruct r as [[]|ex| |]; [| | |done..].
  - destruct Hwp as (o & l1 & l2 & ?). right. right. exists o, l1, l2. tauto.
  - destruct Hwp as [-> Hf]. left. split_and!; [done..|]. intros o Ho.
    apply (rep_find_none _ _ Hrep _); [done|]. by apply (rep_orders _ _ Hrep).
  - right. left. exists ex. tauto.
Qed.

(** Raising the first sell to 102 puts it behind the other one. *)
Lemma modify_order_refines_witness :
  fst (modify_order 1 102 4 demo2) = Ok true ∧
  (∃ q', engine_inv (snd (modify_order 1 102 4 demo2)) q') ∧
  asks_ (order_book_ (snd (modify_order 1 102 4 demo2))) = [mkLevel 101 5; mkLevel 102 4].
Proof.
  split; [vm_compute; reflexivity|]. split; [|vm_compute; reflexivity].
  destruct (modify_order_refines demo2 demo_queues2 1 102 4 demo2_inv)
    as (r & e' & Hrun & Hcases); [concrete|concrete|concrete|].
  rewrite Hrun. destruct Hcases as [(_ & -> & _)|[(ex & _ & -> & _)|(o & l1 & l2 & _ & _ & _ & Hinv & _)]];
    [exists demo_queues2; exact demo2_inv..|eexists; exact Hinv].
Defined.

(** ** Market orders *)

Section market.
Context `{LongDoubleFormat}.

(** C8: with orders of its own, a market order never throws: it serves the
    opposite queue from its head, whatever the price, until it is filled or
    the queue is empty; the report adds up, and the average price is the whole
    part of notional over volume as long as the notional is below half the
    mantissa range of [long double]. *)
Theorem execute_market_order_refines e q s quantity :
  engine_inv e q → active_limit_orders e ≠ [] → 0 < quantity ≤ INT64_MAX →
  let m := match_queue any_price quantity (queue (other_side s) q) in
  let xs := fill_prices (fills m) in
  notional xs < 2 ^ (LDBL_MANT_DIG - 1) → notional xs ≤ INT64_MAX →
  ∃ r e' new, execute_market_order s quantity e = (Ok r, e') ∧
    engine_inv e' (set_queue (other_side s) (resting m) q) ∧
    trade_store_ e' = record_fills s None (fills m) (trade_store_ e) ∧
    trade_history e' = trade_history e ++ new ∧
    reports r s quantity (unmatched m) xs new ∧
    executed_quantity r + result_remaining_quantity r = quantity.
Proof.
  intros Hinv Hne Hq m xs Hn Hn64.
  destruct (wp_run (execute_market_order s quantity) (λ r e', ∃ new,
    engine_inv e' (set_queue (other_side s) (resting m) q) ∧
    trade_store_ e' = record_fills s None (fills m) (trade_store_ e) ∧
    trade_history e' = trade_history e ++ new ∧ reports r s quantity (unmatched m) xs new) e)
    as (r & e' & Hrun & new & H1 & H2 & H3 & H4).
  { apply (wp_execute_market_orders e q); [done..|].
    intros e' r new H1 _ H2 H3 _ _ H4. by exists new. }
  exists r, e', new. split_and!; [done..|]. destruct H4 as [_ _ He Hr _ _]. rewrite He, Hr.
  destruct (match_queue_total any_price quantity (queue (other_side s) q) ltac:(lia)
    (ok_queue _ _ _ (inv_ok _ _ Hinv))) as [Hsum _]. fold m in Hsum.
  assert (Hv : ∀ fs, volume (fill_prices fs) = filled_total fs)
    by (induction fs as [|f fs IH]; simpl; [done|by rewrite IH]).
  unfold xs. rewrite Hv. lia.
Qed.

End market.

Lemma execute_market_order_refines_witness :
  fst (execute_market_order (H:=x87_extended) Buy 7 demo2) =
    Ok (mkExecutionResult Buy 7 7 0 (Some 100)
      [mkTrade Buy 100 3 1 None (Some 1) 1; mkTrade Buy 101 4 2 None (Some 2) 2]) ∧
  ∃ q', engine_inv (snd (execute_market_order (H:=x87_extended) Buy 7 demo2)) q'.
Proof.
  split; [vm_compute; reflexivity|].
  destruct (execute_market_order_refines (H:=x87_extended) demo2 demo_queues2 Buy 7 demo2_inv)
    as (r & e' & new & Hrun & Hinv & _); [concrete..|].
  rewrite Hrun. eexists. exact Hinv.
Defined.




(** ** Where the rollback falls short

    The handlers of [execute_market_order] and [modify_order] add back a quantity
    that was never taken when it was the adjustment of the shared book that
    threw. *)

(** C10: a market order against active orders throws only if the shared book shows
    less at the price of some order than the orders have there, and then it leaves
    the book with more than it had: everything else is as before the call, but the
    level of an order it met is higher by the quantity it would have filled.  This
    is for quantities that can be added to a level without passing 64 bits. *)
Theorem market_rollback_inflates_book `{LongDoubleFormat} e q s quantity ex e' :
  engine_ok e q → active_limit_orders e ≠ [] → 0 < quantity ≤ INT64_MAX →
  (∀ p, book_depth (other_side s) p (order_book_ e) + quantity ≤ INT64_MAX) →
  execute_market_order s quantity e = (Throw ex, e') →
  ∃ p x, 0 < x ≤ quantity ∧
    book_depth (other_side s) p (order_book_ e) < queue_depth p (queue (other_side s) q) ∧
    e' = set_book (order_book_ e') e ∧
    book_depth (other_side s) p (order_book_ e') = book_depth (other_side s) p (order_book_ e) + x ∧
    (∀ s' p', s' ≠ other_side s ∨ p' ≠ p → book_depth s' p' (order_book_ e') = book_depth s' p' (order_book_ e)).
Proof.
  intros Hok Hne Hq Hb Hrun.
  destruct (market_order_throws e q s quantity ex e' Hok Hne Hq Hb Hrun) as (o & x & _ & Hx & Hxq & Hless & He & _ & Hr).
  exists (price_ticks o), x. split_and!; [lia|lia|done|done| |].
  - by rewrite Hr, decide_True.
  - intros s' p' Hd. rewrite Hr, decide_False by (intros [<- <-]; by destruct Hd). lia.
Qed.

(** The owner has lowered level 101 to two of five. *)
Definition demo_lowered : MatchingEngine :=
  set_book (mkBook [] [mkLevel 100 3; mkLevel 101 2]) demo2.

Lemma demo_lowered_ok : engine_ok demo_lowered demo_queues2.
Proof.
  destruct (inv_ok _ _ demo2_inv) as [H1 H2 _ H4 H5]. split; [done|done| |done|done].
  intros []; [apply levels_wf_nil|]. split; repeat constructor; concrete.
Qed.

Definition demo_inflated : MatchingEngine :=
  snd (execute_market_order (H:=x87_extended) Buy 8 demo_lowered).

(** There the level goes from 2 to 7. *)
Lemma market_rollback_inflates_book_witness :
  execute_market_order (H:=x87_extended) Buy 8 demo_lowered = (Throw (negative_quantity "Ask"), demo_inflated) ∧
  asks_ (order_book_ demo_inflated) = [mkLevel 100 3; mkLevel 101 7] ∧
  ∃ p x, 0 < x ≤ 8 ∧
    book_depth Sell p (order_book_ demo_lowered) < queue_depth p (queue Sell demo_queues2) ∧
    demo_inflated = set_book (order_book_ demo_inflated) demo_lowered ∧
    book_depth Sell p (order_book_ demo_inflated) = book_depth Sell p (order_book_ demo_lowered) + x ∧
    (∀ s' p', s' ≠ Sell ∨ p' ≠ p →
       book_depth s' p' (order_book_ demo_inflated) = book_depth s' p' (order_book_ demo_lowered)).
Proof.
  split; [vm_compute; reflexivity|]. split; [vm_compute; reflexivity|].
  apply (market_rollback_inflates_book (H:=x87_extended) demo_lowered demo_queues2 Buy 8 (negative_quantity "Ask")
    demo_inflated); [apply demo_lowered_ok|concrete|concrete| |vm_compute; reflexivity].
  intros p. unfold book_depth, INT64_MAX. simpl. repeat case_match; simpl; lia.
Defined.

Definition demo3 : MatchingEngine := snd (place_limit_buy 99 2 demo2).
Definition demo_queues3 : Queues := place_spec (incoming_order Buy 99 2 demo2) demo_queues2.
Definition demo_lowered3 : MatchingEngine :=
  set_book (mkBook [mkLevel 99 2] [mkLevel 100 3; mkLevel 101 2]) demo3.

(** So does a modification to a crossing price. *)
Theorem modify_rollback_inflates_book :
  engine_ok demo_lowered3 demo_queues3 ∧
  fst (modify_order 3 101 8 demo_lowered3) = Throw (negative_quantity "Ask") ∧
  asks_ (order_book_ (snd (modify_order 3 101 8 demo_lowered3))) = [mkLevel 100 3; mkLevel 101 7].
Proof.
  split_and!; [|vm_compute; reflexivity..].
  assert (Hinv : engine_inv demo3 demo_queues3)
    by (apply (demo_step demo2 demo_queues2 Buy 99 2); [apply demo2_inv|concrete..]).
  destruct (inv_ok _ _ Hinv) as [H1 H2 _ H4 H5]. split; [done|done| |done|done].
  intros []; split; repeat constructor; concrete.
Qed.

(** ** Every reachable engine *)

Lemma run_engine_unique `{LongDoubleFormat} cmds e rs rs' e1 e2 :
  run_commands cmds e = Some (rs, e1) → run_commands cmds e = Some (rs', e2) → e1 = e2.
Proof. congruence. Qed.

Section reachable.
Context `{LongDoubleFormat} (b : OrderBook) (pmax qmax : Z) (cmds : list EngineCommand).

(** C11: from a fresh engine over any well-formed book, every sequence of fewer
    than 2^64 - 1 commands is answered command by command, failing commands
    included, as long as the largest price times the largest market quantity fits
    the significand of [long double]: no step is undefined, no loop runs on.  The
    engine it ends in satisfies the invariant: the indices agree with the orders,
    the book shows exactly the queued quantities, no buy reaches a sell, ids and
    sequence numbers are fresh. *)
Theorem commands_keep_invariant :
  book_wf b → book_within pmax b → 0 ≤ pmax →
  pmax * qmax < 2 ^ (LDBL_MANT_DIG - 1) → pmax * qmax ≤ INT64_MAX →
  Forall (command_within pmax qmax) cmds → Z.of_nat (length cmds) < UINT64_MAX →
  ∃ rs e' q', run_commands cmds (make_engine b) = Some (rs, e') ∧
    length rs = length cmds ∧ engine_inv e' q'.
Proof.
  intros Hb Hw Hp H1 H2 Hc Hlen.
  destruct (run_commands_total (owned:=false) pmax qmax Hp H1 H2 1 (make_engine b) cmds) as (rs & e' & Hr & Hl & _ & q' & Hq & _);
    [by apply bounded_start|lia|done|].
  by exists rs, e', q'.
Qed.

(** The best level of a book that shows the queues is the price of an order. *)
Lemma synced_best_order e q s l :
  engine_ok e q → synced (order_book_ e) q → head (side_levels s (order_book_ e)) = Some l →
  ∃ o, o ∈ queue s q ∧ price_ticks o = level_price l.
Proof.
  intros Hok Hs Hl. pose proof (ok_rep _ _ Hok) as Hrep.
  pose proof (synced_best _ _ s Hs (rep_queue _ _ Hrep s) (ok_queue _ _ s Hok)) as H0.
  rewrite Hl in H0. destruct (queue s q) as [|o r]; simplify_eq/=. exists o. split; [by left|done].
Qed.

(** C12: after any such sequence, as long as the engine has an active order, or
    at any time if it was given an empty book, the best bid of the book is below
    its best ask, and both are prices of active orders.  (The levels of others
    that a shared book shows while there is no active order are theirs alone, and
    may be crossed.) *)
Theorem commands_keep_book_uncrossed :
  book_wf b → book_within pmax b → 0 ≤ pmax →
  pmax * qmax < 2 ^ (LDBL_MANT_DIG - 1) → pmax * qmax ≤ INT64_MAX →
  Forall (command_within pmax qmax) cmds → Z.of_nat (length cmds) < UINT64_MAX →
  ∃ rs e', run_commands cmds (make_engine b) = Some (rs, e') ∧
    ∀ bid ask, active_limit_orders e' ≠ [] ∨ b = empty_book →
      best_bid (order_book_ e') = Some bid → best_ask (order_book_ e') = Some ask →
      level_price bid < level_price ask ∧
      (∃ o, o ∈ active_limit_orders e' ∧ side o = Buy ∧ price_ticks o = level_price bid) ∧
      (∃ o, o ∈ active_limit_orders e' ∧ side o = Sell ∧ price_ticks o = level_price ask).
Proof.
  intros Hb Hw Hp H1 H2 Hc Hlen.
  destruct (run_commands_total (owned:=false) pmax qmax Hp H1 H2 1 (make_engine b) cmds) as (rs & e' & Hr & _ & _ & q0 & Hinv0 & _);
    [by apply bounded_start|lia|done|].
  exists rs, e'. split; [done|]. intros bid ask Hcase Hbid Hask.
  assert (Hs : ∃ q, engine_inv e' q ∧ synced (order_book_ e') q).
  { destruct Hcase as [Hne | ->]; [exists q0; split; [done|by apply inv_synced]|].
    destruct (run_commands_total (owned:=true) pmax qmax Hp H1 H2 1 _ cmds (owned_start pmax) ltac:(lia) Hc)
      as (rs1 & e1 & Hr1 & _ & _ & q & Hinv & _ & Hs).
    rewrite (run_engine_unique _ _ _ _ _ _ Hr Hr1). by exists q. }
  destruct Hs as (q & Hinv & Hs). pose proof (inv_ok _ _ Hinv) as Hok. pose proof (ok_rep _ _ Hok) as Hrep.
  destruct (synced_best_order _ _ Buy bid Hok Hs Hbid) as (ob & Hob & Hpb).
  destruct (synced_best_order _ _ Sell ask Hok Hs Hask) as (oa & Hoa & Hpa). split_and!.
  - rewrite <- Hpb, <- Hpa. by apply (inv_uncrossed _ _ Hinv).
  - exists ob. split_and!; [by apply (rep_in_queue _ _ Hrep Buy)|by apply (rep_side _ _ Hrep)|done].
  - exists oa. split_and!; [by apply (rep_in_queue _ _ Hrep Sell)|by apply (rep_side _ _ Hrep)|done].
Qed.
End reachable.

Definition demo_commands : list EngineCommand :=
  [PlaceLimitSellCommand 100 3; PlaceLimitBuyCommand 99 2; PlaceLimitBuyCommand 100 1;
   ModifyOrderCommand 2 98 4; CancelOrderCommand 7].

Definition demo_run : list PromiseState * MatchingEngine :=
  default ([], demo0) (run_commands (H:=x87_extended) demo_commands demo0).

Lemma demo_run_eq : run_commands (H:=x87_extended) demo_commands demo0 =
  Some (fst demo_run, snd demo_run).
Proof. vm_compute. reflexivity. Qed.

Lemma demo_commands_within : Forall (command_within 100 10) demo_commands.
Proof. repeat constructor; concrete. Qed.

Lemma demo_book_within : book_within 100 empty_book.
Proof. by intros [] ? ?%elem_of_nil. Qed.

Lemma commands_keep_invariant_witness :
  ∃ rs e' q', run_commands (H:=x87_extended) demo_commands demo0 = Some (rs, e') ∧
    length rs = 5%nat ∧ engine_inv e' q'.
Proof.
  apply (commands_keep_invariant (H:=x87_extended) empty_book 100 10 demo_commands);
    [apply book_wf_empty|apply demo_book_within|lia|concrete|concrete|apply demo_commands_within|concrete].
Defined.

Lemma commands_keep_book_uncrossed_witness :
  best_bid (order_book_ (snd demo_run)) = Some (mkLevel 98 4) ∧
  best_ask (order_book_ (snd demo_run)) = Some (mkLevel 100 2) ∧
  ∃ o, o ∈ active_limit_orders (snd demo_run) ∧ side o = Buy ∧ price_ticks o = 98.
Proof.
  split; [vm_compute; reflexivity|]. split; [vm_compute; reflexivity|].
  destruct (commands_keep_book_uncrossed (H:=x87_extended) empty_book 100 10 demo_commands)
    as (rs & e' & Hrun & Hbest);
    [apply book_wf_empty|apply demo_book_within|lia|concrete|concrete|apply demo_commands_within|concrete|].
  pose proof (run_engine_unique _ _ _ _ _ _ Hrun demo_run_eq) as He. rewrite He in Hbest.
  apply (Hbest (mkLevel 98 4) (mkLevel 100 2)); [by right|vm_compute; reflexivity|vm_compute; reflexivity].
Defined.
