(* ===== verification/ConcurrentTheorems.v ===== *)
(** * Theorems about the concurrent engine

    Stated on traces of the transition system of [ConcurrentEngine.v], whose
    labels say who moved. *)
From S2P Require Import Prelude LongDouble Orders TradeStore OrderBook Levels OrderManager.
From S2P Require Import ManagerSpec MatchingEngine EngineSpec PlaceSpec EngineLimit EngineModify.
From S2P Require Import EngineMarket BlockingQueue ConcurrentEngine ConcurrentSpec Totality.

Local Open Scope Z_scope.

Section concurrent.
Context `{LongDoubleFormat}.

(** C13: linearisation.  In every reachable state the commands that were
    accepted are those executed so far, the one in execution and those queued,
    in the order of acceptance; the engine is what executing the finished ones
    one after the other gives, and each promise holds its command's result. *)
Theorem concurrent_engine_linearises b tr c :
  csteps (make_concurrent b) tr c →
  ∃ finished rs,
    accepted tr = finished ++ in_execution (worker_ c) ++ queue_ (command_queue_ c) ∧
    run_commands (map snd finished) (make_engine b) = Some (rs, engine_ c) ∧
    (∀ i n cmd, finished !! i = Some (n, cmd) → promises c !! n = rs !! i) ∧
    (∀ n, n ∉ map fst finished → promises c !! n = None).
Proof.
  intros Hsteps. destruct (csteps_linear b tr c Hsteps) as (finished & rs & Hl).
  exists finished, rs. split_and!; apply Hl.
Qed.

(** C14: once [shutdown] has joined the worker, every command ever accepted was
    executed and its promise fulfilled. *)
Theorem shutdown_executes_every_command b tr c :
  csteps (make_concurrent b) tr c → joined c = true →
  ∃ rs, run_commands (map snd (accepted tr)) (make_engine b) = Some (rs, engine_ c) ∧
    ∀ i n cmd, accepted tr !! i = Some (n, cmd) →
      ∃ r, rs !! i = Some r ∧ promises c !! n = Some r.
Proof.
  intros Hsteps Hj. destruct (csteps_linear b tr c Hsteps) as (finished & rs & [Ha Hr Hp _ _ Hf Hjn]).
  specialize (Hjn Hj). destruct (Hf Hjn) as [_ Hq]. rewrite Hjn, Hq in Ha.
  simpl in Ha. rewrite app_nil_r in Ha. exists rs. rewrite Ha. split; [done|].
  intros i n cmd Hi. pose proof (run_commands_length _ _ _ _ Hr) as Hlen.
  rewrite length_fmap in Hlen. pose proof (lookup_lt_Some _ _ _ Hi) as Hlt.
  destruct (lookup_lt_is_Some_2 rs i) as [r Hri]; [lia|].
  exists r. split; [done|]. by rewrite (Hp i n cmd Hi).
Qed.

(** After [shutdown] closed the queue no command is accepted any more: each
    submission throws and reaches neither the queue nor the engine, and no step
    of any thread reopens the queue. *)
Theorem shutdown_refuses_commands c l c' cmd :
  is_shutdown c = true → cstep c l c' →
  is_shutdown c' = true ∧ (∀ n cmd', l ≠ Submitted n cmd') ∧
  ∃ c'', submit cmd c = (Throw (runtime_error "ConcurrentMatchingEngine is shut down."), c'') ∧
    engine_ c'' = engine_ c ∧ command_queue_ c'' = command_queue_ c ∧ promises c'' = promises c.
Proof.
  unfold is_shutdown, is_closed. intros Hc Hstep. split_and!.
  - destruct Hstep as [c cmd' n c' Hs|c cmd' ex c' Hs|c c' Hs|c c' Hs|c c' Hs|]; [| | | | |done].
    + destruct (submit_cases cmd' c) as [[? ?]|[_ Hs']]; congruence.
    + destruct (submit_cases cmd' c) as [[? ?]|[_ Hs']]; [congruence|]. rewrite Hs in Hs'. by simplify_eq.
    + unfold in_queue, zoom in Hs. rewrite close_closes in Hs. by simplify_eq.
    + unfold worker_pop, pop, can_pop in Hs. destruct (worker_ c); [|done..].
      rewrite Hc in Hs. simpl in Hs. unfold take_front, bind, gets, modify, id in Hs.
      destruct (queue_ (command_queue_ c)) as [|[n cmd'] r]; by simplify_eq/=.
    + unfold worker_execute in Hs. destruct (worker_ c); [done| |done].
      destruct (process_command _ _) as [[] ?]; by simplify_eq/=.
  - intros n cmd' ->. inversion Hstep as [? ? ? ? Hs| | | | |]; subst.
    destruct (submit_cases cmd' c) as [[? ?]|[_ Hs']]; congruence.
  - destruct (submit_cases cmd c) as [[? ?]|[_ ->]]; [congruence|]. by eexists.
Qed.

Definition worker_label (l : label) : Prop := l = WorkerPop ∨ l = WorkerExecute.

Lemma drain_queue c pending rs e' :
  worker_ c = Popping → closed_ (command_queue_ c) = true → queue_ (command_queue_ c) = pending →
  run_commands (map snd pending) (engine_ c) = Some (rs, e') →
  ∃ tr c', csteps c tr c' ∧ Forall worker_label tr ∧ worker_ c' = Finished ∧ engine_ c' = e'.
Proof.
  revert c rs. induction pending as [|[n cmd] pending IH]; intros c rs Hw Hc Hq Hrun; simpl in Hrun.
  - simplify_eq. eexists [WorkerPop], (set_worker Finished c). split_and!; [|by repeat constructor|done..].
    apply csteps_one, step_pop. unfold worker_pop, pop, can_pop. rewrite Hw, Hc. simpl.
    unfold take_front, bind, gets, id. rewrite Hq. by destruct c.
  - destruct (process_command cmd (engine_ c)) as [[r| | |] e1] eqn:Hp; try done.
    destruct (run_commands (map snd pending) e1) as [[rs' e2]|] eqn:Hr; simplify_eq.
    set (c1 := set_worker (Executing n cmd) (set_command_queue (mkBlockingQueue pending true) c)).
    set (c2 := mkConcurrent e1 (mkBlockingQueue pending true) Popping (joined c)
      (next_promise c) (<[n := r]> (promises c))).
    destruct (IH c2 rs') as (tr & c' & Hs & Hl & Hfin & He); [done..|].
    exists ([WorkerPop; WorkerExecute] ++ tr), c'. split_and!; [|by repeat constructor|done..].
    eapply csteps_app; [|done]. apply (csteps_snoc c [WorkerPop] c1 WorkerExecute).
    + apply csteps_one, step_pop. unfold worker_pop, pop, can_pop. rewrite Hw, Hc. simpl.
      unfold take_front, bind, gets, modify, id. rewrite Hq, Hc. done.
    + apply step_execute. unfold worker_execute. simpl. by rewrite Hp.
Qed.

Lemma drain c rs e' :
  is_shutdown c = true → worker_ c ≠ Finished →
  run_commands (map snd (in_execution (worker_ c) ++ queue_ (command_queue_ c))) (engine_ c)
    = Some (rs, e') →
  ∃ tr c', csteps c tr c' ∧ Forall worker_label tr ∧ worker_ c' = Finished ∧ engine_ c' = e'.
Proof.
  unfold is_shutdown, is_closed. intros Hc Hw Hrun. destruct (worker_ c) as [|n cmd|] eqn:Hwk; [| |done].
  - by eapply drain_queue.
  - simpl in Hrun. destruct (process_command cmd (engine_ c)) as [[r| | |] e1] eqn:Hp; try done.
    destruct (run_commands _ e1) as [[rs' e2]|] eqn:Hr; simplify_eq.
    set (c1 := mkConcurrent e1 (command_queue_ c) Popping (joined c) (next_promise c)
      (<[n := r]> (promises c))).
    destruct (drain_queue c1 (queue_ (command_queue_ c)) rs' e') as (tr & c' & Hs & Hl & Hfin & He);
      [done..|].
    exists ([WorkerExecute] ++ tr), c'. split_and!; [|by repeat constructor|done..].
    eapply csteps_app; [|done]. apply csteps_one, step_execute. unfold worker_execute.
    by rewrite Hwk, Hp.
Qed.

(** C15: shutting down terminates.  Once the queue is closed, worker steps alone
    lead from every reachable state to a finished worker, even if commands fail,
    and then the engine is what executing all accepted commands in their order
    gives.  The accepted commands are fewer than 2^64 - 1 and have prices of at
    most [pmax], as has the book, and market quantities of at most [qmax], where
    the product of the two fits 64 bits and the significand of [long double]. *)
Theorem shutdown_drains b pmax qmax tr c :
  csteps (make_concurrent b) tr c → is_shutdown c = true →
  book_wf b → book_within pmax b → 0 ≤ pmax →
  pmax * qmax < 2 ^ (LDBL_MANT_DIG - 1) → pmax * qmax ≤ INT64_MAX →
  Forall (λ x, command_within pmax qmax (snd x)) (accepted tr) →
  Z.of_nat (length (accepted tr)) < UINT64_MAX →
  ∃ tr' c' rs, csteps c tr' c' ∧ Forall worker_label tr' ∧ worker_ c' = Finished ∧
    run_commands (map snd (accepted tr)) (make_engine b) = Some (rs, engine_ c').
Proof.
  intros Hsteps Hc Hb Hw Hp H1 H2 Hin Hlen.
  destruct (csteps_linear b tr c Hsteps) as (finished & rs1 & [Ha Hr _ _ _ Hf _]).
  destruct (run_commands_total (owned:=false) pmax qmax Hp H1 H2 1 (make_engine b) (map snd (accepted tr)))
    as (rs & e' & Hrun & _); [by apply bounded_start|rewrite length_fmap; lia|by rewrite Forall_map|].
  pose proof Hrun as Hrest. rewrite Ha, map_app in Hrest.
  destruct (run_commands_app _ _ _ _ _ Hrest) as (rs1' & rs2 & e1 & Hr1 & Hr2 & ->).
  rewrite Hr in Hr1. injection Hr1 as -> <-.
  assert (worker_ c = Finished ∨ worker_ c ≠ Finished) as [Hfin|Hfin]
    by (destruct (worker_ c); [by right..|by left]).
  - exists [], c. rewrite Hfin in Hr2. destruct (Hf Hfin) as [_ Hq]. rewrite Hq in Hr2. simpl in Hr2.
    injection Hr2 as <- <-. eexists. split_and!; [constructor|constructor|done|exact Hrun].
  - destruct (drain c rs2 e' Hc Hfin Hr2) as (tr' & c' & Hs & Hl & Hfin' & <-).
    exists tr', c'. eexists. split_and!; [done|done|done|exact Hrun].
Qed.

(** In every interleaving of at most 2^64 - 2 accepted commands, the
    engine satisfies its invariant in every state. *)
Theorem concurrent_engine_keeps_invariant b tr c :
  book_wf b → csteps (make_concurrent b) tr c →
  Forall (λ x, command_fits (snd x)) (accepted tr) → Z.of_nat (length (accepted tr)) < UINT64_MAX →
  ∃ q, engine_inv (engine_ c) q.
Proof.
  intros Hb Hsteps Hfit Hlen. destruct (csteps_linear b tr c Hsteps) as (finished & rs & [Ha Hr _ _ _ _ _]).
  rewrite Ha in Hfit, Hlen. apply Forall_app in Hfit as [Hfit _]. rewrite length_app in Hlen.
  eapply (run_commands_inv (map snd finished) (make_engine b));
    [by apply engine_inv_start| |by rewrite Forall_map|done].
  rewrite length_fmap. simpl. lia.
Qed.
End concurrent.

(** ** A concrete interleaving *)


(** Two clients race with the worker; the second order arrives while the first
    is executed, a third after the queue is closed. *)
Definition demo_trace : list label :=
  [Submitted 0 (PlaceLimitSellCommand 100 3); WorkerPop; Submitted 1 (PlaceLimitBuyCommand 100 2);
   WorkerExecute; Submitted 2 TradeHistoryCommand; Closed; Refused ActiveOrdersCommand;
   WorkerPop; WorkerExecute; WorkerPop; WorkerExecute; WorkerPop; Joined].

Definition demo_start : ConcurrentMatchingEngine := make_concurrent empty_book.

Definition demo_at (k : nat) : ConcurrentMatchingEngine :=
  default demo_start (apply_labels (H:=x87_extended) (take k demo_trace) demo_start).

Lemma demo_steps (k : nat) :
  apply_labels (H:=x87_extended) (take k demo_trace) demo_start = Some (demo_at k) →
  csteps (H:=x87_extended) demo_start (take k demo_trace) (demo_at k).
Proof. apply apply_labels_csteps. Qed.

Lemma concurrent_engine_linearises_witness :
  promises (demo_at 9) !! 1%nat = Some (HasValue (OrderIdValue 2)) ∧
  ∃ finished rs, accepted (take 9 demo_trace) =
      finished ++ in_execution (worker_ (demo_at 9)) ++ queue_ (command_queue_ (demo_at 9)) ∧
    run_commands (H:=x87_extended) (map snd finished) (make_engine empty_book) =
      Some (rs, engine_ (demo_at 9)).
Proof.
  split; [vm_compute; reflexivity|].
  destruct (concurrent_engine_linearises (H:=x87_extended) empty_book (take 9 demo_trace) (demo_at 9))
    as (finished & rs & H1 & H2 & _).
  - apply demo_steps. vm_compute. reflexivity.
  - exists finished, rs. split; [exact H1|exact H2].
Defined.

Lemma shutdown_executes_every_command_witness :
  promises (demo_at 13) !! 2%nat = Some (HasValue (TradesValue [mkTrade Buy 100 2 1 (Some 2) (Some 1) 1])) ∧
  ∃ rs, run_commands (H:=x87_extended) (map snd (accepted (take 13 demo_trace)))
    (make_engine empty_book) = Some (rs, engine_ (demo_at 13)).
Proof.
  split; [vm_compute; reflexivity|].
  destruct (shutdown_executes_every_command (H:=x87_extended) empty_book (take 13 demo_trace) (demo_at 13))
    as (rs & Hr & _).
  - apply demo_steps. vm_compute. reflexivity.
  - vm_compute. reflexivity.
  - exists rs. exact Hr.
Defined.

Lemma shutdown_refuses_commands_witness :
  is_shutdown (demo_at 6) = true ∧ is_shutdown (demo_at 8) = true.
Proof.
  split; [vm_compute; reflexivity|].
  apply (shutdown_refuses_commands (H:=x87_extended) (demo_at 7) WorkerPop (demo_at 8) ActiveOrdersCommand).
  - vm_compute. reflexivity.
  - apply apply_label_step. vm_compute. reflexivity.
Defined.

Lemma shutdown_drains_witness :
  ∃ tr' c' rs, csteps (H:=x87_extended) (demo_at 7) tr' c' ∧ Forall worker_label tr' ∧
    worker_ c' = Finished ∧ run_commands (H:=x87_extended)
      (map snd (accepted (take 7 demo_trace))) (make_engine empty_book) = Some (rs, engine_ c').
Proof.
  apply (shutdown_drains (H:=x87_extended) empty_book 100 10 (take 7 demo_trace) (demo_at 7)).
  - apply demo_steps. vm_compute. reflexivity.
  - vm_compute. reflexivity.
  - apply book_wf_empty.
  - by intros [] ? ?%elem_of_nil.
  - lia.
  - vm_compute. reflexivity.
  - vm_compute. discriminate.
  - repeat constructor; vm_compute; intuition congruence.
  - vm_compute. reflexivity.
Defined.

Lemma concurrent_engine_keeps_invariant_witness : ∃ q, engine_inv (engine_ (demo_at 9)) q.
Proof.
  apply (concurrent_engine_keeps_invariant (H:=x87_extended) empty_book (take 9 demo_trace) (demo_at 9)).
  - apply book_wf_empty.
  - apply demo_steps. vm_compute. reflexivity.
  - repeat constructor; vm_compute; intuition congruence.
  - vm_compute. reflexivity.
Defined.
