(* ===== verification/OrderFlowTheorems.v ===== *)
(** * Theorems about order-flow imbalance

    The rolling figure is the sum of the last flows of a reference definition,
    and the adapters feed it with the books of the engine without changing what
    the engine answers. *)
From S2P Require Import Prelude LongDouble Windows Orders TradeStore OrderBook Levels OrderManager.
From S2P Require Import ManagerSpec MatchingEngine EngineSpec BlockingQueue ConcurrentEngine.
From S2P Require Import ConcurrentSpec Totality OrderFlow OrderFlowSpec OrderFlowAdapters.
From S2P Require Import AdapterSpec ConcurrentAdapterSpec.

Local Open Scope Z_scope.

(** The snapshots of [symbol] that are not refused, in the order they came. *)
Definition accepted_snapshots (symbol : string) (updates : list (string * OFISnapshot)) : list OFISnapshot :=
  omap (λ u, if decide (fst u = symbol ∧ symbol ≠ "") then
               if snapshot_valid (snd u) then Some (snd u) else None
             else None) updates.

Section flow.
Context `{LongDoubleFormat}.
Local Abbreviation P := LDBL_MANT_DIG.

(** The updates of a client that handles the exceptions. *)
Lemma updates_track w qmax updates hist o :
  (0 < w)%nat → 0 ≤ qmax → 2 * qmax * Z.of_nat w < 2 ^ P →
  Forall (λ u, snapshot_within qmax (snd u)) updates → ofi_tracks w qmax hist o →
  ∃ o' hist', settle_all (map (λ u, ofi_update (fst u) (snd u)) updates) o = Some o' ∧
    ofi_tracks w qmax hist' o' ∧ ∀ y, hist' y = hist y ++ accepted_snapshots y updates.
Proof.
  intros Hw Hq Hfit Hu. revert hist o. induction Hu as [|[symbol s] us Hs Hu IH]; intros hist o Ht; simpl.
  { exists o, hist. split_and!; [done..|]. intros y. by rewrite app_nil_r. }
  pose proof (wp_ofi_update w qmax hist o symbol s Hw Hq Hfit Ht Hs) as Hwp.
  unfold settle. unfold wp in Hwp. destruct (ofi_update symbol s o) as [[[]|ex| |] o1]; [| |done..].
  - destruct Hwp as (Hsym & Hv & Ht1). destruct (IH _ _ Ht1) as (o' & hist' & Hrun & Ht' & Hh).
    exists o', hist'. split_and!; [done..|]. intros y. rewrite Hh. unfold extend.
    destruct (decide (y = symbol)) as [->|Hne]; simpl.
    + rewrite decide_True, Hv by done. by rewrite <- app_assoc.
    + rewrite decide_False by (intros [? _]; congruence). done.
  - destruct Hwp as [Hbad ->]. destruct (IH _ _ Ht) as (o' & hist' & Hrun & Ht' & Hh).
    exists o', hist'. split_and!; [done..|]. intros y. rewrite Hh. f_equal.
    destruct (decide (symbol = y ∧ y ≠ "")) as [[-> ?]|]; [|done].
    destruct Hbad as [?|Hv]; [done|]. by rewrite Hv.
Qed.

(** C24: after any sequence of updates of any symbols, the refused ones
    included, the rolling imbalance of a symbol is the exact sum of the last
    [w] flows between its accepted snapshots, the latest event the last of them,
    and both are missing before the second accepted snapshot.  The reference
    [flow] compares best prices and quantities, with no case for a missing side;
    quantities are bounded so that the sums fit the significand. *)
Theorem rolling_ofi_reference w qmax updates symbol :
  (0 < w)%nat → 0 ≤ qmax → 2 * qmax * Z.of_nat w < 2 ^ P →
  Forall (λ u, snapshot_within qmax (snd u)) updates →
  ∃ o, settle_all (map (λ u, ofi_update (fst u) (snd u)) updates) (mkOFI w ∅) = Some o ∧
    let l := history_flows (accepted_snapshots symbol updates) in
    ofi_event_count symbol o = Nat.min w (length l) ∧
    shows (rolling_ofi symbol o) (rolling w l) ∧ shows (latest_ofi symbol o) (last l).
Proof.
  intros Hw Hq Hfit Hu.
  destruct (updates_track w qmax updates (λ _, []) (mkOFI w ∅) Hw Hq Hfit Hu (ofi_tracks_start w qmax))
    as (o & hist & Hrun & Ht & Hh).
  exists o. split; [done|]. pose proof (ofi_figures w qmax hist o symbol Hw Ht) as Hf. by rewrite Hh in Hf.
Qed.
End flow.

(** Three snapshots of a symbol, the third crossed and refused. *)
Definition demo_updates : list (string * OFISnapshot) :=
  [("A", mkOFISnapshot (Some (mkOFILevel 100 5)) (Some (mkOFILevel 102 7)));
   ("A", mkOFISnapshot (Some (mkOFILevel 101 4)) (Some (mkOFILevel 102 3)));
   ("A", mkOFISnapshot (Some (mkOFILevel 103 1)) (Some (mkOFILevel 102 3)));
   ("A", mkOFISnapshot None (Some (mkOFILevel 102 3)))].

Lemma rolling_ofi_reference_witness :
  history_flows (accepted_snapshots "A" demo_updates) = [8; -4] ∧
  ∃ o, settle_all (map (λ u, ofi_update (H:=x87_extended) (fst u) (snd u)) demo_updates) (mkOFI 5 ∅) = Some o ∧
    let l := history_flows (accepted_snapshots "A" demo_updates) in
    ofi_event_count "A" o = Nat.min 5 (length l) ∧
    shows (rolling_ofi "A" o) (rolling 5 l) ∧ shows (latest_ofi "A" o) (last l).
Proof.
  split; [vm_compute; reflexivity|].
  apply (rolling_ofi_reference (H:=x87_extended) 5 10 demo_updates "A"); [lia|lia|vm_compute; reflexivity|].
  repeat (constructor; [unfold snapshot_within, level_within, INT64_MAX; simpl; lia|]). constructor.
Defined.

(** ** The sequential adapter *)

Section adapter.
Context `{LongDoubleFormat}.
Local Abbreviation P := LDBL_MANT_DIG.

(** C25: through the adapter every sequence of bounded commands has the answers and
    the effect it has on the engine alone, whatever the callback does and whatever
    the shared book shows.  A snapshot is offered when the adapter is initialised
    and after each command that committed; it is taken when the callback returns
    and the best levels are valid and not crossed or locked.  One that is not
    taken makes the initialisation throw, or costs the health flag after a commit,
    and nothing else; the figures are those of the snapshots taken so far, [hist]
    being those of before.  Without a callback, over a book that only the engine
    writes to, all of them are taken.  [pmax] and [qmax] bound prices and market
    quantities, [qlev] the quantities of the best levels. *)
Theorem ofi_adapter_follows_book {B} (before_capture : option (B → option exn * B)) pmax qmax n w qlev hist cmds a :
  0 ≤ pmax → pmax * qmax < 2 ^ (P - 1) → pmax * qmax ≤ INT64_MAX →
  (0 < w)%nat → 0 ≤ qlev → 2 * qlev * Z.of_nat w < 2 ^ P →
  ofi_symbol_ a ≠ "" → ofi_tracks w qlev hist (handler_ofi_ (ofi_handler_ a)) →
  bounded_engine pmax n (ofi_engine_ a) → n + Z.of_nat (length cmds) ≤ UINT64_MAX →
  Forall (command_within pmax qmax) cmds →
  let first := snapshot_of (order_book_ (ofi_engine_ a)) in
  let later := tops cmds (ofi_engine_ a) in
  Forall (snapshot_within qlev) (first :: later) →
  let '(taken0, all0, b0) := captures before_capture (capture_state_ (ofi_handler_ a)) [first] in
  let '(taken, all, b) := captures before_capture b0 later in
  (∃ r a0 rs a', ofi_initialize before_capture a = (r, a0) ∧
    (if all0 then r = Ok tt else ∃ ex, r = Throw ex) ∧
    adapter_run before_capture cmds a0 = Some (rs, a') ∧
    run_commands cmds (ofi_engine_ a) = Some (rs, ofi_engine_ a') ∧
    ofi_analytics_healthy_ a' = ofi_analytics_healthy_ a && all ∧
    capture_state_ (ofi_handler_ a') = b ∧
    let o := handler_ofi_ (ofi_handler_ a') in
    let l := history_flows (hist (ofi_symbol_ a) ++ taken0 ++ taken) in
    shows (rolling_ofi (ofi_symbol_ a) o) (rolling w l) ∧ shows (latest_ofi (ofi_symbol_ a) o) (last l)) ∧
  (before_capture = None → owned_engine pmax n (ofi_engine_ a) →
   all0 = true ∧ all = true ∧ taken0 = [first] ∧ taken = later).
Proof.
  intros Hp H1 H2 Hw Hq Hfit Hsym Ht Hb Hlen Hc first later Hs. apply Forall_cons in Hs as [Hs0 Hs].
  destruct (captures _ _ [first]) as [[taken0 all0] b0] eqn:Hc0.
  destruct (captures _ b0 later) as [[taken all] b] eqn:Hc1.
  destruct (run_commands_total (owned:=false) pmax qmax Hp H1 H2 n _ cmds Hb Hlen Hc) as (rs & e' & Hrun & _ & _).
  split.
  - destruct (wp_outcome _ _ _ _ (wp_ofi_capture before_capture w qlev Hw Hq Hfit hist a Hsym Ht Hs0)) as (r & a0 & Hinit & Hr).
    assert (Ha0 : offered before_capture w qlev hist first a a0 ∧ ofi_analytics_healthy_ a0 = ofi_analytics_healthy_ a ∧
      if captured before_capture (capture_state_ (ofi_handler_ a)) first then r = Ok tt else ∃ ex, r = Throw ex).
    { fold first in Hr. destruct r as [[]|ex| |]; try done; destruct Hr as (-> & ? & ?); by eauto. }
    clear Hr. destruct Ha0 as ([He0 Hs1 Hb0 Ht0] & Hh0 & Hr). simpl in Hc0.
    rewrite andb_true_r in Hc0. injection Hc0 as <- <- <-.
    pose proof (adapter_run_figures before_capture w qlev Hw Hq Hfit cmds a0 rs e' _ ltac:(by rewrite Hs1) Ht0) as Hfig.
    rewrite He0, Hb0 in Hfig. specialize (Hfig Hs Hrun). fold later in Hfig. rewrite Hc1 in Hfig.
    destruct Hfig as (a' & hist' & Ha & Heng & Hsy & Hh & Hb' & Ht' & Hl).
    exists r, a0, rs, a'. split_and!; [done|done|done|by rewrite Heng|by rewrite Hh, Hh0|done|..].
    all: pose proof (ofi_figures w qlev hist' _ (ofi_symbol_ a) Hw Ht') as (_ & H3 & H4);
      rewrite Hs1 in Hl; rewrite Hl in H3, H4.
    all: destruct (captured _ _ _); unfold extend in H3, H4; rewrite ?decide_True, <- ?app_assoc in H3, H4 by done; done.
  - intros -> Ho. rewrite captures_valid in Hc0 by (constructor; [by eapply owned_snapshot_valid|done]).
    rewrite captures_valid in Hc1 by (eapply (owned_tops_valid pmax qmax n); done).
    by injection Hc0 as <- <- _; injection Hc1 as <- <- _.
Qed.
End adapter.

Definition flow_commands : list EngineCommand :=
  [PlaceLimitBuyCommand 100 5; PlaceLimitSellCommand 102 7; PlaceLimitBuyCommand 102 3;
   CancelOrderCommand 9; ExecuteMarketSellCommand 2].

Lemma flow_commands_within : Forall (command_within 1000 1000) flow_commands.
Proof.
  repeat (constructor; [unfold command_within, command_fits, int64, INT64_MIN, INT64_MAX, UINT64_MAX;
    repeat split; lia|]). constructor.
Qed.

(** A book with a level of somebody else at each side of the market. *)
Definition flow_book : OrderBook := mkBook [mkLevel 90 4] [mkLevel 110 6].

(** An adapter that has seen nothing, with a callback that counts its calls and
    fails at the third. *)
Definition flow_callback (calls : nat) : option exn * nat :=
  (if (calls =? 2)%nat then Some (logic_error "analytics") else None, S calls).

Definition flow_adapter : OFIMatchingEngineAdapter nat :=
  mkOFIAdapter (make_engine flow_book) (mkOFIHandler (mkOFI 3 ∅) O) "A" true.

Definition demo_tops : list OFISnapshot :=
  [mkOFISnapshot (Some (mkOFILevel 100 5)) None;
   mkOFISnapshot (Some (mkOFILevel 100 5)) (Some (mkOFILevel 102 7));
   mkOFISnapshot (Some (mkOFILevel 100 5)) (Some (mkOFILevel 102 4));
   mkOFISnapshot (Some (mkOFILevel 100 3)) (Some (mkOFILevel 102 4))].

(** The first command replaces the foreign levels by the orders of the engine. *)
Lemma demo_tops_eq : tops (H:=x87_extended) flow_commands (ofi_engine_ flow_adapter) = demo_tops.
Proof. vm_compute. reflexivity. Qed.

Definition demo_first : OFISnapshot := snapshot_of (order_book_ (ofi_engine_ flow_adapter)).

(** The callback loses the second of the four snapshots. *)
Definition demo_taken : list OFISnapshot := take 1 demo_tops ++ drop 2 demo_tops.

Lemma demo_captures :
  captures (Some flow_callback) O [demo_first] = ([demo_first], true, 1%nat) ∧
  captures (Some flow_callback) 1%nat demo_tops = (demo_taken, false, 5%nat) ∧
  history_flows (demo_first :: demo_taken) = [11; -4; -2].
Proof. split_and!; vm_compute; reflexivity. Qed.

Lemma flow_engine_bounded : bounded_engine 1000 1 (ofi_engine_ flow_adapter).
Proof.
  apply (bounded_start (H:=x87_extended)); [intros []; split; repeat constructor; vm_compute; intuition congruence|].
  intros [] x Hx; apply elem_of_cons in Hx as [->|Hx%elem_of_nil]; [vm_compute; discriminate|done|vm_compute; discriminate|done].
Qed.

Lemma flow_snapshots_within : Forall (snapshot_within 100) (demo_first :: demo_tops).
Proof. repeat (constructor; [unfold snapshot_within, level_within, INT64_MAX; simpl; lia|]). constructor. Qed.

Lemma ofi_adapter_follows_book_witness :
  ∃ r a0 rs a', ofi_initialize (H:=x87_extended) (Some flow_callback) flow_adapter = (r, a0) ∧ r = Ok tt ∧
    adapter_run (H:=x87_extended) (Some flow_callback) flow_commands a0 = Some (rs, a') ∧
    run_commands (H:=x87_extended) flow_commands (ofi_engine_ flow_adapter) = Some (rs, ofi_engine_ a') ∧
    ofi_analytics_healthy_ a' = false ∧ capture_state_ (ofi_handler_ a') = 5%nat ∧
    shows (rolling_ofi "A" (handler_ofi_ (ofi_handler_ a'))) (Some 5) ∧
    shows (latest_ofi "A" (handler_ofi_ (ofi_handler_ a'))) (Some (-2)).
Proof.
  pose proof (ofi_adapter_follows_book (H:=x87_extended) (Some flow_callback) 1000 1000 1 3 100 (λ _, []) flow_commands
    flow_adapter ltac:(lia) ltac:(vm_compute; reflexivity) ltac:(vm_compute; discriminate) ltac:(lia) ltac:(lia)
    ltac:(vm_compute; reflexivity) ltac:(done) (ofi_tracks_start 3 100) flow_engine_bounded
    ltac:(vm_compute; discriminate) flow_commands_within) as Hall.
  cbv zeta in Hall. rewrite demo_tops_eq in Hall. specialize (Hall flow_snapshots_within).
  change (capture_state_ (ofi_handler_ flow_adapter)) with O in Hall. fold demo_first in Hall.
  destruct demo_captures as (Hc0 & Hc1 & Hf). rewrite Hc0, Hc1 in Hall.
  destruct Hall as [(r & a0 & rs & a' & H1 & H2 & H3 & H4 & H5 & H6 & H7 & H8) _].
  exists r, a0, rs, a'. split_and!; [done|done|done|done|by rewrite H5, andb_false_r|done| |].
  - rewrite app_nil_l in H7. change ([demo_first] ++ demo_taken) with (demo_first :: demo_taken) in H7.
    rewrite Hf in H7. exact H7.
  - rewrite app_nil_l in H8. change ([demo_first] ++ demo_taken) with (demo_first :: demo_taken) in H8.
    rewrite Hf in H8. exact H8.
Defined.

(** ** The concurrent adapter *)

Section concurrent.
Context `{LongDoubleFormat} {B : Type} (before_capture : option (B → option exn * B)).

(** C26: whatever the interleaving of the members of the concurrent adapter
    with the worker, with clients that bypass it and with shutdown, the engine
    behind it only makes steps it makes without an adapter.  When nobody
    bypasses it or shuts the engine down, the members answer, and leave engine,
    figures and health flag, as the sequential adapter does for their commands
    one after the other. *)
Theorem ofi_concurrent_adapter_refines b handler symbol tr a :
  ofi_has_window handler →
  oc_steps before_capture (mkConcurrentAdapter (make_concurrent b) handler symbol true None) tr a →
  csteps (make_concurrent b) (concat (map engine_labels tr)) (oc_engine_ a) ∧
  (forallb exclusive tr = true → ∃ rs s,
     adapter_run before_capture (map fst (returned tr)) (mkOFIAdapter (make_engine b) handler symbol true) =
       Some (rs, s) ∧
     map snd (returned tr) = map answer_of rs ∧
     oc_handler_ a = ofi_handler_ s ∧ oc_analytics_healthy_ a = ofi_analytics_healthy_ s ∧
     (waiting_ a = None → engine_ (oc_engine_ a) = ofi_engine_ s)).
Proof.
  intros Hw Hrun. set (a0 := mkConcurrentAdapter (make_concurrent b) handler symbol true None) in *.
  split; [exact (proj1 (oc_steps_engine before_capture a0 tr a Hw Hrun))|]. intros Hex.
  destruct (oc_steps_sim before_capture (mkOFIAdapter (make_engine b) handler symbol true) a0 tr a Hw)
    as (rs & s & Hr & Ha & [Hh _ Hf _ _ _ Hp]); [|done|done|].
  - split; simpl; try done. by constructor.
  - exists rs, s. split_and!; [done..|]. intros Hn. rewrite Hn in Hp. by inversion Hp.
Qed.
End concurrent.

(** A placement through the concurrent adapter: the member submits, the worker
    takes the command and executes it, the member returns. *)
Definition demo_command : EngineCommand := PlaceLimitBuyCommand 100 5.

Definition demo_answer : outcome CommandValue := Ok (OrderIdValue 1).

Definition demo_adapter0 : OFIConcurrentMatchingAdapter unit :=
  mkConcurrentAdapter (make_concurrent empty_book) (mkOFIHandler (mkOFI 2 ∅) tt) "A" true None.
Definition demo_adapter1 := snd (oc_submit demo_command demo_adapter0).
Definition demo_adapter2 :=
  set_oc_engine (default (oc_engine_ demo_adapter1) (worker_pop (oc_engine_ demo_adapter1))) demo_adapter1.
Definition demo_adapter3 :=
  set_oc_engine (default (oc_engine_ demo_adapter2) (worker_execute (H:=x87_extended) (oc_engine_ demo_adapter2)))
    demo_adapter2.
Definition demo_adapter4 := snd (oc_finish (H:=x87_extended) None (HasValue (OrderIdValue 1)) demo_adapter3).

Definition demo_adapter_trace : list oc_label :=
  [MemberStarts 0 demo_command; EngineStep WorkerPop; EngineStep WorkerExecute;
   MemberReturns demo_command demo_answer].

Lemma demo_adapter_steps :
  oc_steps (H:=x87_extended) None demo_adapter0 demo_adapter_trace demo_adapter4.
Proof.
  apply (oc_steps_snoc _ _ [MemberStarts 0 demo_command; EngineStep WorkerPop; EngineStep WorkerExecute] demo_adapter3).
  - apply (oc_steps_snoc _ _ [MemberStarts 0 demo_command; EngineStep WorkerPop] demo_adapter2).
    + apply (oc_steps_snoc _ _ [MemberStarts 0 demo_command] demo_adapter1).
      * apply (oc_steps_snoc _ _ [] demo_adapter0); [constructor|]. apply oc_start; vm_compute; reflexivity.
      * apply oc_engine_step, step_pop. vm_compute. reflexivity.
    + apply oc_engine_step, step_execute. vm_compute. reflexivity.
  - eapply (oc_return _ _ 0 demo_command (HasValue (OrderIdValue 1))); vm_compute; reflexivity.
Qed.

Lemma ofi_concurrent_adapter_refines_witness :
  csteps (H:=x87_extended) (make_concurrent empty_book)
    [Submitted 0 demo_command; WorkerPop; WorkerExecute] (oc_engine_ demo_adapter4) ∧
  ∃ rs s, adapter_run (H:=x87_extended) None [demo_command]
      (mkOFIAdapter (make_engine empty_book) (mkOFIHandler (mkOFI 2 ∅) tt) "A" true) = Some (rs, s) ∧
    [demo_answer] = map answer_of rs ∧ oc_handler_ demo_adapter4 = ofi_handler_ s.
Proof.
  destruct (ofi_concurrent_adapter_refines (H:=x87_extended) None empty_book (mkOFIHandler (mkOFI 2 ∅) tt) "A"
    demo_adapter_trace demo_adapter4 (Nat.lt_0_2) demo_adapter_steps) as [Hc Hs].
  split; [exact Hc|]. destruct (Hs eq_refl) as (rs & s & Hr & Ha & Hh & _). by exists rs, s.
Defined.
