(* ===== verification/AnalyticsTheorems.v ===== *)
(** * Theorems about the analytics

    Trade figures, figures over the levels of a book, and the adapters that
    record the impact of managed orders. *)
From S2P Require Import Prelude LongDouble Rounding RelativeError Windows Orders TradeStore OrderBook Levels.
From S2P Require Import ManagerSpec MatchingEngine EngineSpec EngineMarket Totality BookTheorems.
From S2P Require Import ConcurrentEngine ConcurrentSpec DepthFigures DepthSpec FairExecution MarketImpact ImpactSpec.
From S2P Require Import TradeAnalytics TradeAnalyticsSpec Positions Risk OrderFlow OrderFlowSpec.
From S2P Require Import OrderFlowAdapters AdapterSpec AnalyticsEngine AnalyticsEngineSpec.
From Stdlib Require Import QArith Qpower.

Local Open Scope Z_scope.

(** ** Trades *)

(** The trades of [symbol] in the executions that name a symbol. *)
Definition executed_ticks (symbol : string) (execs : list (string * ExecutionResult)) : list tick :=
  if decide (symbol = "") then []
  else concat (map (λ x, if decide (fst x = symbol) then map tick_of (result_trades (snd x)) else []) execs).

Definition fresh_analytics (w : nat) : TradeAnalytics unit :=
  mkTradeAnalytics (mkVWAP w ∅) (mkStatistics ∅) tt.

Section trades.
Context `{LongDoubleFormat}.

Lemma fresh_tracks w : analytics_tracks w (λ _, []) (fresh_analytics w).
Proof.
  split; [done| |]; intros symbol; simpl; rewrite lookup_empty; simpl.
  - unfold vwap_tracks, last_n. simpl. by split_and!.
  - apply statistics_tracks_start.
Qed.

Lemma executions_track w pmax qmax n execs hist (a : TradeAnalytics unit) :
  exact_bounds w pmax qmax n → ticks_within pmax qmax hist → analytics_tracks w hist a →
  Forall (λ x, Forall (tick_within pmax qmax) (map tick_of (result_trades (snd x)))) execs →
  (∀ y, Z.of_nat (length (hist y) + length (executed_ticks y execs)) ≤ n) →
  ∃ (a' : TradeAnalytics unit) hist', settle_all (map (λ x, analytics_apply_execution None (fst x) (snd x)) execs) a = Some a' ∧
    analytics_tracks w hist' a' ∧ ticks_within pmax qmax hist' ∧
    ∀ y, hist' y = hist y ++ executed_ticks y execs.
Proof.
  intros Hb Hh Ha Hx. revert hist a Hh Ha. induction Hx as [|[symbol r] execs Hr Hx IH]; intros hist a Hh Ha Hn; simpl.
  { exists a, hist. split_and!; [done..|]. intros y. unfold executed_ticks. case_match; by rewrite app_nil_r. }
  simpl in Hr. destruct (decide (symbol = "")) as [->|Hsym].
  - unfold settle, analytics_apply_execution. rewrite decide_True by done. simpl.
    assert (Heq : ∀ y, executed_ticks y (("", r) :: execs) = executed_ticks y execs).
    { intros y. unfold executed_ticks. destruct (decide (y = "")) as [|Hy]; [done|]. simpl.
      by rewrite decide_False by congruence. }
    destruct (IH hist a Hh Ha) as (a' & hist' & Hrun & Ht & Hh' & Hy); [intros y; rewrite <- Heq; apply Hn|].
    exists a', hist'. split_and!; [done..|]. intros y. by rewrite Heq, Hy.
  - assert (Heq : ∀ y, executed_ticks y ((symbol, r) :: execs) =
      (if decide (y = symbol) then map tick_of (result_trades r) else []) ++ executed_ticks y execs).
    { intros y. unfold executed_ticks. destruct (decide (y = "")) as [->|Hy]; [by rewrite decide_False by congruence|].
      simpl. by destruct (decide (symbol = y)), (decide (y = symbol)); try congruence. }
    assert (Hlen : Z.of_nat (length (hist symbol) + length (result_trades r)) ≤ n).
    { specialize (Hn symbol). rewrite Heq, decide_True in Hn by done. rewrite length_app, length_fmap in Hn. lia. }
    destruct (wp_run _ _ _ (wp_analytics_exact None w pmax qmax n Hb symbol r hist a nothrow Hsym Ha Hh Hr Hlen
      ltac:(done))) as ([] & a1 & Hrun & Ha1).
    unfold settle. rewrite Hrun.
    destruct (IH (extend_ticks symbol (map tick_of (result_trades r)) hist) a1) as (a' & hist' & Hrun' & Ht & Hh' & Hy).
    + intros y. unfold extend_ticks. destruct (decide (y = symbol)); [|apply Hh]. apply Forall_app. split; [apply Hh|done].
    + done.
    + intros y. specialize (Hn y). rewrite Heq in Hn. unfold extend_ticks. destruct (decide (y = symbol)); [|done].
      rewrite length_app in *. lia.
    + exists a', hist'. split_and!; [done..|]. intros y. rewrite Hy, Heq. unfold extend_ticks.
      destruct (decide (y = symbol)); [by rewrite app_assoc|done].
Qed.

(** Without trades there is no figure. *)
Lemma no_figures w hist (a : TradeAnalytics unit) symbol :
  analytics_tracks w hist a → hist symbol = [] →
  get_vwap symbol (rolling_vwap_ a) = None ∧ get_statistics symbol (trade_statistics_ a) = None.
Proof.
  intros [_ Hv Hs] Hn. specialize (Hv symbol). specialize (Hs symbol). rewrite Hn in Hv, Hs.
  unfold get_vwap, get_statistics. split.
  - destruct (vwap_symbols_ _ !! symbol) as [x|]; [|done]. simpl in Hv. destruct Hv as (Hf & _).
    apply Forall2_length in Hf. unfold last_n in Hf. simpl in Hf. by destruct (vwap_trades x).
  - destruct (stat_symbols_ _ !! symbol) as [x|]; [|done]. pose proof (tr_count _ _ Hs) as Hc. simpl in *.
    by rewrite Hc.
Qed.

(** C27: after any sequence of executions with bounded prices and quantities,
    the window price of a symbol is the quotient of the exact notional and
    volume of its last [w] trades and lies between their lowest and highest
    prices; count, volumes by aggressor, lowest, highest and average price are
    those of all its trades; a symbol without trades has neither. *)
Theorem trade_analytics_exact w pmax qmax n execs symbol :
  exact_bounds w pmax qmax n →
  Forall (λ x, Forall (tick_within pmax qmax) (map tick_of (result_trades (snd x)))) execs →
  (∀ y, Z.of_nat (length (executed_ticks y execs)) ≤ n) →
  ∃ a, settle_all (map (λ x, analytics_apply_execution None (fst x) (snd x)) execs) (fresh_analytics w) = Some a ∧
    let h := executed_ticks symbol execs in
    if decide (h = []) then
      get_vwap symbol (rolling_vwap_ a) = None ∧ get_statistics symbol (trade_statistics_ a) = None
    else
      (∃ v, get_vwap symbol (rolling_vwap_ a) = Some v ∧ vwap_shown (last_n w h) v) ∧
      (∃ s, get_statistics symbol (trade_statistics_ a) = Some s ∧ statistics_shown h s).
Proof.
  intros Hb Hx Hn.
  destruct (executions_track w pmax qmax n execs (λ _, []) (fresh_analytics w) Hb) as (a & hist & Hrun & Ht & Hh & Hy);
    [by intros y; constructor|apply fresh_tracks|done|done|].
  exists a. split; [done|]. simpl. specialize (Hy symbol). simpl in Hy. case_decide as Hc.
  - eapply no_figures; [done|]. by rewrite Hy.
  - rewrite <- Hy. eapply analytics_figures; [done|done|done|by rewrite Hy|by rewrite Hy].
Qed.
End trades.

(** The running totals of the window lose what a large trade displaced:
    with two trades of price 1 left in a window of two, the figure is one half,
    below every price in the window. *)
Theorem vwap_loses_small_trades :
  let trade p q := mkTrade Buy p q 0 None None 0 in
  let result t := mkExecutionResult Buy 1 1 0 None [t] in
  ∃ a v, settle_all (S:=TradeAnalytics unit)
      (map (λ t, analytics_apply_execution (H:=x87_extended) None "A" (result t))
        [trade (2 ^ 40) (2 ^ 40); trade 1 1; trade 1 1]) (fresh_analytics 2) = Some a ∧
    last_n 2 (map tick_of [trade (2 ^ 40) (2 ^ 40); trade 1 1; trade 1 1]) =
      [mkTick 1 1 AggressorBuy; mkTick 1 1 AggressorBuy] ∧
    get_vwap (H:=x87_extended) "A" (rolling_vwap_ a) = Some v ∧ binary_compare v (mkBinary 1 (-1)) = Eq.
Proof.
  eexists _, _. split; [vm_compute; reflexivity|]. split; [vm_compute; reflexivity|].
  split; [vm_compute; reflexivity|]. vm_compute. reflexivity.
Qed.

(** Executions of two symbols. *)
Definition demo_execution (p q : Z) : ExecutionResult :=
  mkExecutionResult Sell q q 0 (Some p) [mkTrade Sell p q 1 None None 1].

Definition demo_executions : list (string * ExecutionResult) :=
  [("A", demo_execution 100 5); ("B", demo_execution 7 1); ("A", demo_execution 103 2); ("", demo_execution 9 9)].

Lemma trade_analytics_exact_witness :
  executed_ticks "A" demo_executions = [mkTick 100 5 AggressorSell; mkTick 103 2 AggressorSell] ∧
  ∃ a v, settle_all (map (λ x, analytics_apply_execution (H:=x87_extended) None (fst x) (snd x)) demo_executions)
      (fresh_analytics 3) = Some a ∧ get_vwap (H:=x87_extended) "A" (rolling_vwap_ a) = Some v ∧
    vwap_shown (H:=x87_extended) (last_n 3 (executed_ticks "A" demo_executions)) v.
Proof.
  assert (He : executed_ticks "A" demo_executions = [mkTick 100 5 AggressorSell; mkTick 103 2 AggressorSell])
    by (vm_compute; reflexivity).
  split; [exact He|].
  destruct (trade_analytics_exact (H:=x87_extended) 3 1000 1000 1000 demo_executions "A") as (a & Hrun & Hf).
  - split; vm_compute; (reflexivity || discriminate || lia).
  - repeat (constructor; [constructor; [split; simpl; lia|constructor]|]). constructor.
  - intros y. unfold executed_ticks. destruct (decide (y = "")); [simpl; lia|]. simpl.
    repeat case_decide; simpl; lia.
  - rewrite He in *. destruct (proj1 Hf) as (v & Hv & Hs). exists a, v. split; [exact Hrun|]. split; [exact Hv|exact Hs].
Defined.

(** ** Levels *)

Section levels.
Context `{LongDoubleFormat} {S : Type}.

(** The summary of the best [n] levels lists them with their running
    totals, and counts, depths and total are exact while the quantities fit the
    significand; the imbalance is missing exactly for an empty book and
    otherwise lies in [-1, 1] with the sign of the difference of the depths.
    Asking for no levels is refused. *)
Theorem depth_summary_exact b n (s : S) :
  book_wf b → depth_fits b n →
  if (n =? 0)%nat
  then depth_analyze b n s = (Throw (invalid_argument "Depth level count must be positive"), s)
  else ∃ d, depth_analyze b n s = (Ok d, s) ∧ depth_shown b n d.
Proof.
  intros Hwf Hfit. destruct (n =? 0)%nat eqn:Hn.
  - unfold depth_analyze. by rewrite Hn.
  - apply Nat.eqb_neq in Hn. destruct (wp_run (depth_analyze b n) (λ d s', depth_shown b n d ∧ s' = s) s)
      as (d & s' & Hrun & Hd & ->); [|by exists d].
    apply wp_depth_analyze; [done|lia|done|auto].
Qed.

(** The relative error of a figure of a side, or its absence. *)
Definition side_figure (l : list PriceLevel) (k : nat) (x : option binary) (q : Q) : Prop :=
  match x with None => l = [] | Some y => l ≠ [] ∧ close (length l + k) y q end.

(** The weighted price of the best [n] levels of a side is their exact
    notional over their exact volume up to one rounding per level and three
    more, whatever the width of [long double] and however large the notional;
    the mid of the two sides takes two roundings more than the longer one.  A
    side without levels has no price. *)
Theorem weighted_price_error b n (s : S) :
  book_wf b → (0 < n)%nat → depth_fits b n →
  let bs := take n (bids b) in
  let ys := take n (asks b) in
  let price l := (inject_Z (side_notional l) / inject_Z (side_volume l))%Q in
  ∃ w, weighted_analyze b n s = (Ok w, s) ∧
    side_figure bs 3 (weighted_bid_price_ticks w) (price bs) ∧
    side_figure ys 3 (weighted_ask_price_ticks w) (price ys) ∧
    match weighted_mid_price_ticks w with
    | None => bs = [] ∨ ys = []
    | Some m => close (Nat.max (length bs) (length ys) + 5) m ((price bs + price ys) / 2)
    end.
Proof.
  intros Hwf Hn Hfit bs ys price. destruct (Hwf Buy) as [_ Hb], (Hwf Sell) as [_ Ha]. simpl in Hb, Ha.
  assert (Hbs : Forall level_ok bs) by by apply Forall_take.
  assert (Hys : Forall level_ok ys) by by apply Forall_take.
  pose proof (side_volume_nonneg _ Hbs). pose proof (side_volume_nonneg _ Hys). unfold depth_fits in Hfit.
  destruct (wp_run (depth_analyze b n) (λ d s', depth_shown b n d ∧ s' = s) s) as (d & s' & Hrun & Hd & ->);
    [apply wp_depth_analyze; [done|lia|done|auto]|].
  destruct Hd as [_ _ _ Hcb Hca Hdb Hda _ _]. unfold weighted_analyze, bind, ret. rewrite Hrun.
  eexists. split; [done|]. simpl. fold bs in Hcb, Hdb, Hfit. fold ys in Hca, Hda, Hfit.
  assert (Hside : ∀ l ds D, cumulates l ds → Forall level_ok l → denotes D (side_volume l) →
    side_volume l < 2 ^ LDBL_MANT_DIG → side_figure l 3 (calculate_weighted_price ds D) (price l)).
  { intros l ds D Hc Hl HD Hlt. destruct (decide (l = [])) as [Hnil|Hne].
    - unfold calculate_weighted_price. rewrite (no_depth_cumulates l) by done. by rewrite bool_decide_true.
    - destruct (weighted_price_close l ds D Hc Hl HD Hlt Hne) as (x & -> & Hx). by split. }
  pose proof (Hside bs _ _ Hcb Hbs Hdb ltac:(lia)) as Hpb. pose proof (Hside ys _ _ Hca Hys Hda ltac:(lia)) as Hpa.
  split_and!; [exact Hpb|exact Hpa|].
  destruct (calculate_weighted_price (ds_bids d) (ds_bid_depth d)) as [x|]; [|by left].
  destruct (calculate_weighted_price (ds_asks d) (ds_ask_depth d)) as [y|]; [|by right].
  destruct Hpb as [_ Hpb], Hpa as [_ Hpa].
  replace (Nat.max (length bs) (length ys) + 5)%nat with (Datatypes.S (Datatypes.S (Nat.max (length bs) (length ys) + 3))) by lia.
  change 2%Q with (inject_Z 2). apply close_div; [|apply denotes_two|done].
  apply close_add; (eapply close_mono; [|done]; lia).
Qed.

(** The figures of a side. *)
Definition concentration_of (s : OrderSide) (c : LiquidityConcentrationSummary) : option binary * option binary :=
  match s with
  | Buy => (bid_best_level_share c, bid_hhi c)
  | Sell => (ask_best_level_share c, ask_hhi c)
  end.

(** The share of the best level is within one rounding of the exact one
    and between -1 and 1; the Herfindahl index of a side is the sum of the
    squared quantities over the square of their sum, up to one rounding per
    level and three more; both are missing for a side without levels. *)
Theorem concentration_error b n (s : S) :
  book_wf b → (0 < n)%nat → depth_fits b n →
  ∃ c, concentration_analyze b n s = (Ok c, s) ∧
    ∀ side, let l := take n (side_levels side b) in
      side_figure l 3 (snd (concentration_of side c))
        (inject_Z (side_squares l) / inject_Z (side_volume l * side_volume l)) ∧
      match l with
      | [] => fst (concentration_of side c) = None
      | x :: _ => ∃ y, fst (concentration_of side c) = Some y ∧ unit_interval y ∧
          close 1 y (inject_Z (level_quantity x) / inject_Z (side_volume l))
      end.
Proof.
  intros Hwf Hn Hfit. destruct (Hwf Buy) as [_ Hb], (Hwf Sell) as [_ Ha]. simpl in Hb, Ha.
  assert (Hbs : Forall level_ok (take n (bids b))) by by apply Forall_take.
  assert (Hys : Forall level_ok (take n (asks b))) by by apply Forall_take.
  pose proof (side_volume_nonneg _ Hbs). pose proof (side_volume_nonneg _ Hys). unfold depth_fits in Hfit.
  destruct (wp_run (depth_analyze b n) (λ d s', depth_shown b n d ∧ s' = s) s) as (d & s' & Hrun & Hd & ->);
    [apply wp_depth_analyze; [done|lia|done|auto]|].
  destruct Hd as [_ _ _ Hcb Hca Hdb Hda _ _]. unfold concentration_analyze, bind, ret. rewrite Hrun.
  eexists. split; [done|]. simpl.
  assert (Hside : ∀ l ds D, cumulates l ds → Forall level_ok l → denotes D (side_volume l) →
    side_volume l < 2 ^ LDBL_MANT_DIG →
    side_figure l 3 (calculate_hhi ds D) (inject_Z (side_squares l) / inject_Z (side_volume l * side_volume l))).
  { intros l ds D Hc Hl HD Hlt. destruct (decide (l = [])) as [Hnil|Hne].
    - unfold calculate_hhi. rewrite (no_depth_cumulates l) by done. by rewrite bool_decide_true.
    - destruct (hhi_close l ds D Hc Hl HD Hlt Hne) as (x & -> & Hx). by split. }
  unfold bids, asks in *. intros []; simpl; (split; [apply Hside|apply best_share_close]; (done || lia)).
Qed.
End levels.

Lemma depth_summary_exact_witness :
  ∃ d, depth_analyze (H:=x87_extended) sample_book 2 tt = (Ok d, tt) ∧ depth_shown sample_book 2 d.
Proof.
  apply (depth_summary_exact (H:=x87_extended) sample_book 2 tt sample_book_wf). vm_compute. reflexivity.
Defined.

Lemma weighted_price_error_witness :
  ∃ w x, weighted_analyze (H:=x87_extended) sample_book 2 tt = (Ok w, tt) ∧
    weighted_bid_price_ticks w = Some x ∧ close (H:=x87_extended) 5 x (inject_Z 904 / inject_Z 9).
Proof.
  destruct (weighted_price_error (H:=x87_extended) sample_book 2 tt sample_book_wf) as (w & Hw & Hb & _);
    [lia|vm_compute; reflexivity|].
  exists w. destruct (weighted_bid_price_ticks w) as [x|]; [|discriminate Hb].
  exists x. split; [exact Hw|]. split; [reflexivity|]. exact (proj2 Hb).
Defined.

Lemma concentration_error_witness :
  ∃ c x, concentration_analyze (H:=x87_extended) sample_book 2 tt = (Ok c, tt) ∧
    bid_hhi c = Some x ∧ close (H:=x87_extended) 5 x (inject_Z 41 / inject_Z 81).
Proof.
  destruct (concentration_error (H:=x87_extended) sample_book 2 tt sample_book_wf) as (c & Hc & Hs);
    [lia|vm_compute; reflexivity|].
  destruct (Hs Buy) as [Hb _]. cbn [concentration_of snd] in Hb. exists c. destruct (bid_hhi c) as [x|]; [|discriminate Hb].
  exists x. split; [exact Hc|]. split; [reflexivity|]. exact (proj2 Hb).
Defined.

(** ** Execution adapters *)

Section adapters.
Context `{LongDoubleFormat}.
Local Abbreviation P := LDBL_MANT_DIG.

(** An execution that can take an order of [quantity] for [symbol]: [pmax] bounds
    the prices of the shared book, of the orders and of the entry of the position,
    [qmax] the quantity, and the products fit.  The book may show levels of
    others, crossed or not. *)
Record managed_ready {B} (pmax qmax n : Z) (symbol : string) (quantity : Z) (e : RiskManagedExecution B)
    : Prop := mk_managed_ready {
  rd_engine : bounded_engine pmax n (matching_engine_ e);
  rd_window : has_window (trade_analytics_ e);
  rd_limit : max_absolute_position_ (risk_limits_ e) ≤ INT64_MAX;
  rd_price : 0 ≤ pmax ≤ INT64_MAX;
  rd_held : position_within (max_absolute_position_ (risk_limits_ e)) pmax (held symbol (position_manager_ e));
  rd_realized : Z.abs (realized_pnl_ticks_ (held symbol (position_manager_ e))) + pmax * quantity ≤ INT64_MAX;
  rd_quantity : int64 quantity ∧ quantity ≤ qmax;
  rd_product : pmax * qmax < 2 ^ (P - 1) ∧ pmax * qmax ≤ INT64_MAX ∧ qmax < 2 ^ P
}.

(** C28: through the market-impact adapter a managed order has the outcome and
    leaves the execution it has without the adapter, whatever levels of others the
    shared book shows; the adapter stays healthy, and an order that trades records
    a summary in which the average price is the exact one up to a rounding,
    slippage and the move of the mid price are never in favour of the order, the
    effective spread is not either unless the book was crossed or locked before
    the order, and the share of the liquidity taken is at most one.  A refused
    order changes nothing.  Prices, quantities and the position are within the
    bounds of [managed_ready]. *)
Theorem impact_adapter_records {B} (before_apply : option (B → option exn * B)) pmax qmax n x s symbol quantity :
  managed_ready pmax qmax n symbol quantity (ia_execution_ x) →
  ∃ o x', ia_execute before_apply symbol quantity s x = (o, x') ∧
    managed_market before_apply s symbol quantity (ia_execution_ x) = (o, ia_execution_ x') ∧
    match o with
    | Ok r => ia_analytics_healthy_ x' = ia_analytics_healthy_ x ∧
        if executed_quantity r =? 0 then ia_impacts_ x' = ia_impacts_ x
        else ∃ m, ia_impacts_ x' = <[symbol := m]> (ia_impacts_ x) ∧ impact_shown s (ia_order_book x) r m
    | Throw _ => x' = x
    | _ => False
    end.
Proof.
  intros [Ho Hw Hl [Hp0 Hp] Hh Hr [Hq64 Hq] (H1 & H2 & H3)].
  destruct (wp_outcome _ _ _ _ (wp_ia_execute pmax qmax Hp0 H1 H2 H3 before_apply n x s symbol quantity
    Ho Hw Hl Hp Hh Hr Hq64 Hq)) as (o & x' & Hrun & Hpost).
  exists o, x'. split; [done|]. destruct o as [r|ex| |]; [| |done..].
  - destruct Hpost as (Hm & _ & _ & Hhealth & Himp). by split_and!.
  - destruct Hpost as [-> Hm]. by split.
Qed.

(** C29: the analytics-engine adapter does not change what a managed order does
    either.  An order that trades leaves the summary of its impact.  When the best
    levels of the book after it are valid and neither crossed nor locked, which
    they always are over a book that only the engine writes to, it also leaves the
    depth summary of that book and one snapshot more in the order flow of the
    symbol; otherwise the update is refused, which makes the adapter unhealthy,
    leaves the order flow alone and creates an entry of zeros for a symbol without
    a depth.  An order that does not trade, and a refused one, leave the analytics
    alone.  Besides the bounds of [managed_ready], the volume of the book and the
    window of the order flow are bounded. *)
Theorem analytics_adapter_records pmax qmax n w qlev hist x s symbol quantity :
  managed_ready pmax qmax n symbol quantity (ea_execution_ x) →
  (0 < w)%nat → 0 ≤ qlev → 2 * qlev * Z.of_nat w < 2 ^ P →
  (0 < ea_depth_levels_ x)%nat → volume_within qlev (ea_order_book x) → ofi_tracks w qlev hist (ea_ofi_ x) →
  ∃ o x', ea_execute symbol quantity s x = (o, x') ∧
    managed_market None s symbol quantity (ea_execution_ x) = (o, ea_execution_ x') ∧
    match o with
    | Ok r => if executed_quantity r =? 0 then x' = set_ea_execution (ea_execution_ x') x
              else recorded w qlev hist s symbol x r x' ∧
                   (owned_engine pmax n (matching_engine_ (ea_execution_ x)) →
                    snapshot_valid (snapshot_of (ea_order_book x')) = true)
    | Throw _ => x' = x
    | _ => False
    end.
Proof.
  intros [Ho Hw Hl [Hp0 Hp] Hh Hr [Hq64 Hq] (H1 & H2 & H3)] Hw0 Hq0 Hfit Hlev Hvol Ht.
  destruct (wp_outcome _ _ _ _ (wp_ea_execute pmax qmax Hp0 H1 H2 H3 w qlev Hw0 Hq0 Hfit n hist x s symbol quantity
    Ho Hw Hl Hp Hh Hr Hq64 Hq Hlev Hvol Ht)) as (o & x' & Hrun & Hpost).
  exists o, x'. split; [done|]. destruct o as [r|ex| |]; [| |done..].
  - destruct Hpost as (Hm & _ & _ & Hrec). split; [done|]. destruct (executed_quantity r =? 0); [done|].
    split; [done|]. intros Hown.
    pose proof (wp_managed_market None pmax qmax Hp0 H1 H2 true n _ s symbol quantity Hown Hw Hl Hp Hh Hr Hq64 Hq) as Hwp.
    unfold wp in Hwp. rewrite Hm in Hwp. destruct Hwp as [_ Hown']. by eapply owned_snapshot_valid.
  - destruct Hpost as [-> Hm]. by split.
Qed.
End adapters.

(** A crossed book of somebody else, with no order of the engine. *)
Definition crossed_book : OrderBook := mkBook [mkLevel 103 2] [mkLevel 102 5; mkLevel 104 4].

Definition demo_managed : RiskManagedExecution unit :=
  mkRiskManagedExecution (make_engine crossed_book) empty_positions (mkRiskLimits 50) true (fresh_analytics 3) true.

Lemma demo_managed_ready : managed_ready (H:=x87_extended) 1000 1000 1 "A" 3 demo_managed.
Proof.
  split; [|unfold has_window; simpl; lia|vm_compute; discriminate|mlia| |
    vm_compute; discriminate|split; [mlia|lia]|split_and!; vm_compute; (reflexivity || discriminate)].
  - apply (bounded_start (H:=x87_extended)); [intros []; split; repeat constructor; vm_compute; intuition congruence|].
    intros [] x Hx; repeat (apply elem_of_cons in Hx as [->|Hx]; [vm_compute; discriminate|]); by apply elem_of_nil in Hx.
  - unfold held. simpl. rewrite lookup_empty. simpl. split_and!; [|done|simpl; lia]. split_and!; [done|done|by left].
Qed.

(** The order buys at 102, below the mid price: the effective spread is -1. *)
Lemma impact_adapter_records_witness :
  ∃ x' r m, ia_execute (H:=x87_extended) None "A" 3 Buy (mkImpactAdapter demo_managed ∅ true) = (Ok r, x') ∧
    ia_impacts_ x' = <["A" := m]> ∅ ∧ impact_shown (H:=x87_extended) Buy crossed_book r m.
Proof.
  pose proof (impact_adapter_records (H:=x87_extended) (B:=unit) None 1000 1000 1
    (mkImpactAdapter demo_managed ∅ true) Buy "A" 3 demo_managed_ready) as (o & x' & Hrun & _ & Hm).
  assert (Hex : ∃ r, o = Ok r ∧ executed_quantity r = 3).
  { assert (Hfst : fst (ia_execute (H:=x87_extended) None "A" 3 Buy (mkImpactAdapter demo_managed ∅ true)) = o)
      by (rewrite Hrun; reflexivity).
    vm_compute in Hfst. rewrite <- Hfst. eexists. split; reflexivity. }
  destruct Hex as (r & -> & He). destruct Hm as (_ & Himp). rewrite He in Himp.
  destruct Himp as (m & Hm & Hs). exists x', r, m. split; [exact Hrun|]. split; [exact Hm|exact Hs].
Defined.

Definition demo_engine_adapter : AnalyticsEngineExecutionAdapter :=
  mkEngineAdapter demo_managed (mkOFI 4 ∅) 3 ∅ ∅ true.

(** The book is still crossed afterwards, and the adapter unhealthy. *)
Lemma analytics_adapter_records_witness :
  ∃ x' r, ea_execute (H:=x87_extended) "A" 3 Buy demo_engine_adapter = (Ok r, x') ∧
    recorded (H:=x87_extended) 4 100 (λ _, []) Buy "A" demo_engine_adapter r x'.
Proof.
  pose proof (analytics_adapter_records (H:=x87_extended) 1000 1000 1 4 100 (λ _, []) demo_engine_adapter Buy "A" 3
    demo_managed_ready ltac:(lia) ltac:(lia) ltac:(vm_compute; reflexivity) ltac:(simpl; lia)
    ltac:(vm_compute; discriminate) (ofi_tracks_start 4 100)) as (o & x' & Hrun & _ & Hm).
  assert (Hex : ∃ r, o = Ok r ∧ executed_quantity r = 3).
  { assert (Hfst : fst (ea_execute (H:=x87_extended) "A" 3 Buy demo_engine_adapter) = o)
      by (rewrite Hrun; reflexivity).
    vm_compute in Hfst. rewrite <- Hfst. eexists. split; reflexivity. }
  destruct Hex as (r & -> & He). rewrite He in Hm. exists x', r. split; [exact Hrun|apply Hm].
Defined.

Lemma crossed_book_outcome :
  let x' := snd (ea_execute (H:=x87_extended) "A" 3 Buy demo_engine_adapter) in
  ea_analytics_healthy_ x' = false ∧ snapshot_valid (snapshot_of (ea_order_book x')) = false.
Proof. vm_compute. split; reflexivity. Qed.

(** A book update that is refused, here for a crossed book, leaves a summary of
    zeros for a symbol that had none. *)
Lemma refused_update_shows_zero_depth :
  let crossed := mkBook [mkLevel 103 1] [mkLevel 102 1] in
  ∃ what x, on_order_book_update (H:=x87_extended) "A" crossed
      (mkAnalyticsEngine (fresh_analytics 3) (mkOFI 4 ∅) 5 ∅ ∅) = (Throw what, x) ∧
    latest_depth "A" x = Some zero_summary.
Proof. eexists _, _. split; [vm_compute; reflexivity|]. vm_compute. reflexivity. Qed.
