(* ===== verification/Json.v ===== *)
(** * JSON values

    What the sources use of [nlohmann::json], which is not part of the
    repository: a class of operations with the documented facts about them that
    the code relies on.  A call that can throw a [json::exception] answers with
    its value or with the text of the exception.  [json_table] is an instance
    that evaluates: values are trees, and the texts that can be read are given
    by a table. *)
From S2P Require Import Prelude.

Class Json := {
  json : Type;
  json_null : json;
  json_string : string → json;
  json_array : list json → json;
  json_object : list (string * json) → json;
  is_object : json → bool;
  is_array : json → bool;
  is_string : json → bool;
  contains : json → string → bool;
  json_member : json → string → json + string;
  elements_of : json → list json;
  string_of : json → string + string;
  json_parse : string → json + string;
  json_dump : json → string + string;
  (** [at] finds the members that [contains] reports. *)
  contains_member j k : contains j k = true → ∃ v, json_member j k = inl v;
  (** [get<std::string>] reads the values that [is_string] reports. *)
  is_string_of j : is_string j = true → ∃ t, string_of j = inl t
}.

Section json.
Context `{Json} {S : Type}.

Definition from_json {A} (r : A + string) : M S A :=
  match r with inl a => ret a | inr w => throw (json_exception w) end.

(** [j.at(key)], [j.get<std::string>()], [j.dump()]. *)
Definition json_at (j : json) (key : string) : M S json := from_json (json_member j key).
Definition get_string (j : json) : M S string := from_json (string_of j).
Definition dump (j : json) : M S string := from_json (json_dump j).

(** [j.at(key).get<std::string>()]. *)
Definition get_member (j : json) (key : string) : M S string :=
  let* v := json_at j key in get_string v.

(** [j.contains(k1) && j.contains(k2) && ...]. *)
Definition has_members (j : json) (keys : list string) : bool := forallb (contains j) keys.

(** [j.at(key).is_string()]. *)
Definition member_is_string (j : json) (key : string) : M S bool :=
  let* v := json_at j key in ret (is_string v).

(** [j.at(k1).is_string() && j.at(k2).is_string() && ...], evaluated from the left
    until one is not. *)
Fixpoint members_are_strings (j : json) (keys : list string) : M S bool :=
  match keys with
  | [] => ret true
  | key :: rest =>
      let* b := member_is_string j key in
      if b then members_are_strings j rest else ret false
  end.

(** The text of a member that is a string. *)
Definition text_member (j : json) (key : string) : option string :=
  if contains j key then
    match json_member j key with
    | inl v => if is_string v then match string_of v with inl t => Some t | inr _ => None end else None
    | inr _ => None
    end
  else None.

Lemma wp_json_at j key Q E s :
  contains j key = true → (∀ v, json_member j key = inl v → Q v s) → wp (json_at j key) Q E s.
Proof.
  intros Hc HQ. destruct (contains_member j key Hc) as [v Hv].
  unfold json_at. rewrite Hv. by apply wp_ret, HQ.
Qed.

(** A guarded read of a text member, when it is one and when it is not. *)
Lemma wp_member_is_string j key Q E s :
  contains j key = true →
  (∀ t, text_member j key = Some t → Q true s) → (text_member j key = None → Q false s) →
  wp (member_is_string j key) Q E s.
Proof.
  intros Hc HQ HN. unfold member_is_string. wp_step. apply wp_json_at; [done|].
  intros v Hv. wp_step. unfold text_member in *. rewrite Hc, Hv in *.
  destruct (is_string v) eqn:Hs; [|auto]. destruct (is_string_of v Hs) as [t Ht]. rewrite Ht in *. eauto.
Qed.

(** The guards in front of the reads of several text members. *)
Lemma wp_members_are_strings j keys Q E s :
  has_members j keys = true →
  (Forall (λ k, ∃ t, text_member j k = Some t) keys → Q true s) →
  (Exists (λ k, text_member j k = None) keys → Q false s) →
  wp (members_are_strings j keys) Q E s.
Proof.
  unfold has_members. induction keys as [|k keys IH]; simpl; intros Hc HQ HN; [by apply wp_ret, HQ|].
  apply andb_true_iff in Hc as [Hk Hr]. wp_step. apply wp_member_is_string; [done| |].
  - intros t Ht. apply IH; [done| |]; intros Hall; [apply HQ|apply HN]; eauto.
  - intros Ht. apply wp_ret, HN. by left.
Qed.

Lemma wp_get_member j key t Q E s :
  text_member j key = Some t → Q t s → wp (get_member j key) Q E s.
Proof.
  unfold text_member, get_member, json_at, get_string. intros Ht HQ.
  destruct (contains j key); [|done]. destruct (json_member j key) as [v|]; [|done]. simpl. do 2 wp_step.
  destruct (is_string v); [|done]. destruct (string_of v); [|done]. injection Ht as ->. by apply wp_ret.
Qed.
End json.

Lemma text_member_contains `{Json} j key t : text_member j key = Some t → contains j key = true.
Proof. unfold text_member. by destruct (contains j key). Qed.

Lemma text_member_absent `{Json} j key : contains j key = false → text_member j key = None.
Proof. unfold text_member. by intros ->. Qed.

Lemma has_members_false `{Json} j keys :
  has_members j keys = false → Exists (λ k, text_member j k = None) keys.
Proof.
  unfold has_members. induction keys as [|k keys IH]; [done|]. simpl.
  intros [Hk|Hr]%andb_false_iff; [left; by apply text_member_absent|right; auto].
Qed.

(** ** An instance that evaluates *)

#[local] Set Warnings "-register-all".

Inductive tree : Type :=
| TNull
| TString (t : string)
| TArray (l : list tree)
| TObject (l : list (string * tree)).

Fixpoint tree_member (l : list (string * tree)) (key : string) : option tree :=
  match l with
  | [] => None
  | (k, v) :: r => if bool_decide (k = key) then Some v else tree_member r key
  end.

Definition tree_at (j : tree) (key : string) : option tree :=
  match j with TObject l => tree_member l key | _ => None end.

Definition read_table (table : list (string * tree)) (text : string) : tree + string :=
  match tree_member table text with Some v => inl v | None => inr "parse error" end.

(** The tree instance writes a value as the text the table reads it from. *)
#[local, refine] Instance json_table (table : list (string * tree)) (write : tree → string) : Json := {|
  json := tree;
  json_null := TNull;
  json_string := TString;
  json_array := TArray;
  json_object := TObject;
  is_object j := match j with TObject _ => true | _ => false end;
  is_array j := match j with TArray _ => true | _ => false end;
  is_string j := match j with TString _ => true | _ => false end;
  contains j k := match tree_at j k with Some _ => true | None => false end;
  json_member j k := match tree_at j k with Some v => inl v | None => inr "key not found" end;
  elements_of j := match j with TArray l => l | _ => [] end;
  string_of j := match j with TString t => inl t | _ => inr "type must be string" end;
  json_parse := read_table table;
  json_dump j := inl (write j)
|}.
Proof.
  - intros j k. destruct (tree_at j k); [by eexists|done].
  - intros []; [done|by eexists|done..].
Defined.
