(* ===== verification/MarketFeed.v ===== *)
(** * The market feed

    What happens to a message of the market channel, without the socket:
    [include/websocket_subscription.hpp], [include/websocket_message_parser.hpp],
    [include/websocket_payload_dispatcher.hpp],
    [include/websocket_market_state.hpp] and the functions of
    [src/websocket_client.cpp] above the class.  The console is state: what was
    written to [std::cout] and to [std::cerr], in the order in which the operands
    of [<<] are evaluated, adjacent literals as one entry. *)
From S2P Require Import Prelude OrderBook FixedPoint Json.
From Stdlib Require Import Ascii.
From Stdlib Require String.

Local Open Scope Z_scope.

(** ** The console *)

Record Console : Type := mkConsole { out_ : list string; err_ : list string }.

Definition cout (t : string) : M Console unit := modify (λ c, mkConsole (out_ c ++ [t]) (err_ c)).
Definition cerr (t : string) : M Console unit := modify (λ c, mkConsole (out_ c) (err_ c ++ [t])).

(** The line feed of the messages. *)
Definition newline : string := String.String (ascii_of_nat 10) "".

(** [output << n] of a signed number, and of a [std::size_t], which has at most
    twenty digits. *)
Definition print_signed (n : Z) : list ascii :=
  if n <? 0 then "-"%char :: print_int64 (- n) else print_int64 n.

Definition print_size (n : nat) : string :=
  String.string_of_list_ascii (print_digits 20 (Z.of_nat n) []).

(** [std::left << std::setw(w)] with the fill character of a fresh stream. *)
Definition pad_right (w : nat) (t : string) : string :=
  t +:+ String.string_of_list_ascii (replicate (w - String.length t) " "%char).

(** ** WebSocketSubscription *)

Section subscription.
Context `{Json} {S : Type}.

(** The loop over the ids: [seen] is the set of the ids that were inserted. *)
Fixpoint unique_ids (token_ids : list string) (seen : gset string) (unique_token_ids : list string)
    : M S (list string) :=
  match token_ids with
  | [] => ret unique_token_ids
  | token_id :: rest =>
      if bool_decide (token_id = "") then throw (invalid_argument "Token ID must not be empty.")
      else if bool_decide (token_id ∈ seen) then unique_ids rest seen unique_token_ids
      else unique_ids rest ({[token_id]} ∪ seen) (unique_token_ids ++ [token_id])
  end.

Definition subscription (unique_token_ids : list string) : json :=
  json_object [("assets_ids", json_array (json_string <$> unique_token_ids)); ("type", json_string "market")].

Definition build_market (token_ids : list string) : M S string :=
  match token_ids with
  | [] => throw (invalid_argument "At least one token ID is required.")
  | _ =>
      let* unique_token_ids := unique_ids token_ids ∅ [] in
      dump (subscription unique_token_ids)
  end.
End subscription.

(** ** WebSocketMessageParser *)

Inductive WebSocketMessageKind : Type := pong | market_payload | invalid.

Definition whitespace : list ascii :=
  [" "%char; ascii_of_nat 9; ascii_of_nat 13; ascii_of_nat 10].

(** [find_first_not_of] and [find_last_not_of]; [npos] is [None]. *)
Fixpoint find_first_not_of (set message : list ascii) : option nat :=
  match message with
  | [] => None
  | c :: r => if bool_decide (c ∈ set) then Datatypes.S <$> find_first_not_of set r else Some O
  end.

Fixpoint find_last_not_of (set message : list ascii) : option nat :=
  match message with
  | [] => None
  | c :: r =>
      match find_last_not_of set r with
      | Some i => Some (Datatypes.S i)
      | None => if bool_decide (c ∈ set) then None else Some O
      end
  end.

Definition substr (message : list ascii) (position count : nat) : list ascii :=
  take count (drop position message).

(** Where there is a first such character there is a last one, at or behind it,
    so that [last - first + 1] does not wrap. *)
Section parser.
Context `{Json}.

Record WebSocketParseResult : Type := mkParseResult {
  kind : WebSocketMessageKind;
  payload : json;
  error_message : string
}.

Definition invalid_result (message : string) : WebSocketParseResult :=
  mkParseResult invalid json_null message.

Definition parse (message : list ascii) : WebSocketParseResult :=
  match find_first_not_of whitespace message with
  | None => invalid_result "WebSocket message is empty."
  | Some first =>
      let last := default O (find_last_not_of whitespace message) in
      let trimmed := substr message first (last - first + 1) in
      if bool_decide (ascii_of_nat 0 ∈ trimmed)
      then invalid_result "WebSocket message contains an embedded NUL byte."
      else if bool_decide (trimmed = String.list_ascii_of_string "PONG")
      then mkParseResult pong json_null ""
      else
        match json_parse (String.string_of_list_ascii trimmed) with
        | inr _ => invalid_result "WebSocket message contains invalid JSON."
        | inl payload =>
            if negb (is_object payload) && negb (is_array payload)
            then invalid_result "WebSocket JSON payload must be an object or array."
            else mkParseResult market_payload payload ""
        end
  end.
End parser.

(** ** WebSocketPayloadDispatcher *)

Record WebSocketDispatchResult : Type := mkDispatchResult { processed : nat; rejected : nat }.

Section dispatcher.
Context `{Json} {S : Type} (message_handler : json → M S unit) (error_handler : exn → M S unit).

Definition dispatch_one (message : json) : M (S * WebSocketDispatchResult) unit :=
  try_catch
    (outer (message_handler message) ;;;
     modify (λ x, (fst x, mkDispatchResult (processed (snd x) + 1) (rejected (snd x)))))
    (λ error,
     modify (λ x, (fst x, mkDispatchResult (processed (snd x)) (rejected (snd x) + 1))) ;;;
     outer (error_handler error)).

Definition dispatch (payload : json) : M S WebSocketDispatchResult :=
  scoped (mkDispatchResult 0 0) (
    if is_array payload then
      for_each (elements_of payload) dispatch_one ;;;
      gets snd
    else if is_object payload then
      dispatch_one payload ;;;
      gets snd
    else throw (invalid_argument "WebSocket payload must be an object or array.")).
End dispatcher.

(** ** WebSocketMarketState *)

Record WebSocketTokenState : Type := mkToken { book : OrderBook; snapshot_received : bool }.

Definition set_book (b : OrderBook) (t : WebSocketTokenState) : WebSocketTokenState :=
  mkToken b (snapshot_received t).

Notation WebSocketMarketState := (gmap string WebSocketTokenState).

Definition try_emplace (token_id : string) (states : WebSocketMarketState) : WebSocketMarketState :=
  match states !! token_id with
  | Some _ => states
  | None => <[token_id := mkToken empty_book false]> states
  end.

(** The constructor: the map under construction is lost when it throws. *)
Definition new_market_state {S} (token_ids : list string) : M S WebSocketMarketState :=
  match token_ids with
  | [] => throw (invalid_argument "At least one token ID is required.")
  | _ =>
      run_local (∅ : WebSocketMarketState) (
        for_each token_ids (λ token_id,
          if bool_decide (token_id = "") then throw (invalid_argument "Token ID must not be empty.")
          else modify (try_emplace token_id)) ;;;
        gets id)
  end.

Definition ms_contains (states : WebSocketMarketState) (token_id : string) : bool :=
  bool_decide (is_Some (states !! token_id)).

Definition ms_size (states : WebSocketMarketState) : nat := size states.

Definition ms_at (token_id : string) : M WebSocketMarketState WebSocketTokenState := λ states,
  match states !! token_id with
  | Some token_state => (Ok token_state, states)
  | None =>
      (Throw (invalid_argument ("Received event for unsubscribed token ID: " +:+ token_id)), states)
  end.

(** A member called through the reference that [at] gave. *)
Definition through {A} (token_id : string) (m : M WebSocketTokenState A) : M WebSocketMarketState A :=
  λ states,
  match states !! token_id with
  | Some token_state => let '(r, t) := m token_state in (r, <[token_id := t]> states)
  | None => (Undefined, states)
  end.
