(* ===== verification/FeedClient.v ===== *)
(** * Processing market events

    The functions of [src/websocket_client.cpp] that turn a payload into changes
    of the books and print the result.  They work on the market state of the
    connection and on the console. *)
From S2P Require Import Prelude OrderBook FixedPoint Json MarketFeed.
From Stdlib Require Import Ascii.
From Stdlib Require String.

Local Open Scope Z_scope.

(** ** Levels of a snapshot *)

Section levels.
Context `{Json} {S : Type}.

Definition quoted (t : string) : string := "'" +:+ t +:+ "'".

(** The body of the loop over the levels. *)
Definition parse_level (level : json) : M S PriceLevel :=
  if negb (is_object level)
  then throw (runtime_error "Each WebSocket order-book level must be an object.")
  else if negb (has_members level ["price"; "size"])
  then throw (runtime_error "WebSocket order-book level is missing price or size.")
  else
    let* strings := members_are_strings level ["price"; "size"] in
    if negb strings
    then throw (runtime_error "WebSocket price and size must be strings.")
    else
      let* price := get_member level "price" in
      let* price_ticks := price_to_ticks price in
      let* size := get_member level "size" in
      let* quantity := quantity_to_fixed size in
      ret (mkLevel price_ticks quantity).

(** A loop that pushes what its body gives for each element. *)
Fixpoint collect {A B} (f : A → M S B) (l : list A) : M S (list B) :=
  match l with
  | [] => ret []
  | x :: r => let* y := f x in let* ys := collect f r in ret (y :: ys)
  end.

Definition parse_levels (message : json) (side_name : string) : M S (list PriceLevel) :=
  if negb (contains message side_name)
  then throw (runtime_error ("WebSocket book event is missing " +:+ quoted side_name +:+ "."))
  else
    let* levels := json_at message side_name in
    if negb (is_array levels)
    then throw (runtime_error (quoted side_name +:+ " must be a JSON array."))
    else collect parse_level (elements_of levels).
End levels.

(** ** Printing a book *)

Definition top_level_count : nat := 10.

(** [while (!value.empty() && value.back() == '0') value.pop_back();] on the
    reversed text. *)
Fixpoint drop_zeros (reversed : list ascii) : list ascii :=
  match reversed with
  | "0"%char :: r => drop_zeros r
  | l => l
  end.

Definition format_quantity (quantity : Z) : string :=
  let whole := Z.quot quantity ticks_per_unit in
  let fractional := Z.rem quantity ticks_per_unit in
  String.string_of_list_ascii (
    if negb (fractional =? 0)
    then rev (drop_zeros (rev (print_signed whole ++ "."%char :: pad_zero 6 (print_signed fractional))))
    else print_signed whole).

Definition print_level (level : PriceLevel) : M Console unit :=
  cout "  " ;;;
  let* price := format_price (level_price level) 3 in
  cout (pad_right 10 price) ;;;
  cout (format_quantity (level_quantity level)) ;;;
  cout newline.

Definition print_levels (levels : list PriceLevel) (maximum_levels : nat) : M Console unit :=
  let level_count := Nat.min maximum_levels (length levels) in
  if (level_count =? 0)%nat then cout ("  No levels" +:+ newline)
  else
    cout "  " ;;;
    cout (pad_right 10 "Price") ;;;
    cout ("Quantity" +:+ newline) ;;;
    for_each (take level_count levels) print_level.

(** One line with a price or [N/A]. *)
Definition print_price_line (label : string) (price : option Z) : M Console unit :=
  match price with
  | Some ticks =>
      cout label ;;;
      let* t := format_price ticks 3 in
      cout t ;;;
      cout newline
  | None => cout (label +:+ "N/A" +:+ newline)
  end.

Definition rule : string := "----------------------------------" +:+ newline.

Definition print_live_book (book : OrderBook) : M Console unit :=
  cout ("=========== ORDER BOOK ===========" +:+ newline +:+ "ASKS (best first)" +:+ newline) ;;;
  print_levels (asks book) top_level_count ;;;
  cout (rule +:+ "BIDS (best first)" +:+ newline) ;;;
  print_levels (bids book) top_level_count ;;;
  cout rule ;;;
  print_price_line "Best bid:  " (level_price <$> best_bid book) ;;;
  print_price_line "Best ask:  " (level_price <$> best_ask book) ;;;
  let* spread := run_local book spread_ticks in
  print_price_line "Spread:    " spread ;;;
  let* mid_price := run_local book mid_price_ticks in
  print_price_line "Mid:       " mid_price ;;;
  cout "Bid depth: " ;;;
  let* bid := run_local book bid_depth in
  cout (format_quantity bid) ;;;
  cout newline ;;;
  cout "Ask depth: " ;;;
  let* ask := run_local book ask_depth in
  cout (format_quantity ask) ;;;
  cout newline ;;;
  cout "Bid levels: " ;;;
  cout (print_size (length (bids book))) ;;;
  cout newline ;;;
  cout "Ask levels: " ;;;
  cout (print_size (length (asks book))) ;;;
  cout newline ;;;
  cout ("==================================" +:+ newline).

(** ** Events *)

Record Feed : Type := mkFeed { states_ : WebSocketMarketState; console_ : Console }.

Definition in_market {A} (m : M WebSocketMarketState A) : M Feed A :=
  zoom states_ (λ x f, mkFeed x (console_ f)) m.
Definition in_console {A} (m : M Console A) : M Feed A :=
  zoom console_ (λ c f, mkFeed (states_ f) c) m.
Definition say (t : string) : M Feed unit := in_console (cout t).

(** A member of the book of a token, through the reference to its state. *)
Definition in_book {A} (token_id : string) (m : M OrderBook A) : M Feed A :=
  in_market (through token_id (zoom book set_book m)).

Section events.
Context `{Json}.

Definition change_fields : list string := ["asset_id"; "price"; "size"; "side"].

Definition apply_price_change (change : json) : M Feed string :=
  if negb (is_object change) then throw (runtime_error "Each price change must be an object.")
  else if negb (has_members change change_fields)
  then throw (runtime_error "Price change is missing asset_id, price, size, or side.")
  else
    let* strings := members_are_strings change change_fields in
    if negb strings then throw (runtime_error "Price change fields must be strings.")
    else
      let* asset_id := get_member change "asset_id" in
      let* states := gets states_ in
      if negb (ms_contains states asset_id) then
        say "Ignored price change for unsubscribed " ;;; say "token: " ;;; say asset_id ;;; say newline ;;;
        ret ""
      else
        let* token_state := in_market (ms_at asset_id) in
        if negb (snapshot_received token_state) then
          say "Ignored price_change before initial " ;;; say "book snapshot for token " ;;;
          say asset_id ;;; say ("." +:+ newline) ;;;
          ret ""
        else
          let* price := get_member change "price" in
          let* price_ticks := price_to_ticks price in
          let* size := get_member change "size" in
          let* quantity := quantity_to_fixed size in
          let* side := get_member change "side" in
          (if bool_decide (side = "BUY") then in_book asset_id (update_bid price_ticks quantity)
           else if bool_decide (side = "SELL") then in_book asset_id (update_ask price_ticks quantity)
           else throw (runtime_error ("Unsupported price-change side: " +:+ side))) ;;;
          say "Applied " ;;; say side ;;; say " update for token " ;;; say asset_id ;;; say " at " ;;;
          let* t := format_price price_ticks 3 in
          say t ;;; say " with size " ;;;
          let* size := get_member change "size" in
          say size ;;; say newline ;;;
          ret asset_id.

(** The loop over the changes, with the ids it has updated. *)
Fixpoint apply_price_changes (changes : list json) (updated_token_ids : list string)
    : M Feed (list string) :=
  match changes with
  | [] => ret updated_token_ids
  | change :: rest =>
      let* updated_token_id := apply_price_change change in
      if negb (bool_decide (updated_token_id = "")) &&
         negb (bool_decide (updated_token_id ∈ updated_token_ids))
      then apply_price_changes rest (updated_token_ids ++ [updated_token_id])
      else apply_price_changes rest updated_token_ids
  end.

Definition token_banner (token_id : string) : M Feed unit :=
  say ("========================" +:+ newline) ;;; say "Token: " ;;; say token_id ;;; say newline.

Definition print_token (token_id : string) : M Feed unit :=
  token_banner token_id ;;;
  let* token_state := in_market (ms_at token_id) in
  in_console (print_live_book (book token_state)).

Definition process_price_change (message : json) : M Feed unit :=
  if negb (contains message "price_changes")
  then throw (runtime_error "price_change event is missing price_changes.")
  else
    let* changes := json_at message "price_changes" in
    if negb (is_array changes) then throw (runtime_error "price_changes must be an array.")
    else
      let* updated_token_ids := apply_price_changes (elements_of changes) [] in
      for_each updated_token_ids print_token.

(** [!j.contains(key) || !j.at(key).is_string()], negated. *)
Definition has_string {S} (j : json) (key : string) : M S bool :=
  if contains j key then member_is_string j key else ret false.

Definition process_book (message : json) : M Feed unit :=
  let* valid := has_string message "asset_id" in
  if negb valid then throw (runtime_error "book event is missing a valid asset_id.")
  else
    let* asset_id := get_member message "asset_id" in
    let* states := gets states_ in
    if negb (ms_contains states asset_id) then
      say "Ignored book event for unsubscribed " ;;; say "token: " ;;; say asset_id ;;; say newline
    else
      let* bids := parse_levels message "bids" in
      let* asks := parse_levels message "asks" in
      in_market (ms_at asset_id) ;;;
      in_book asset_id (replace_snapshot bids asks) ;;;
      in_market (through asset_id (modify (λ t, mkToken (book t) true))) ;;;
      print_token asset_id.

Definition process_message (message : json) : M Feed unit :=
  if negb (is_object message) then say ("Ignored non-object WebSocket message" +:+ newline)
  else
    let* valid := has_string message "event_type" in
    if negb valid then say ("Received message without event_type" +:+ newline)
    else
      let* event_type := get_member message "event_type" in
      say (newline +:+ "Received event: ") ;;; say event_type ;;; say newline ;;;
      if bool_decide (event_type = "book") then process_book message
      else if bool_decide (event_type = "price_change") then process_price_change message
      else ret tt.

Definition report_event (error : exn) : M Feed unit :=
  in_console (cerr "Ignored invalid market event: " ;;; cerr (what error) ;;; cerr newline).

Definition process_payload (payload : json) : M Feed unit :=
  dispatch process_message report_event payload ;;; ret tt.
End events.
