(* ===== verification/FeedSpec.v ===== *)
(** * What a market event means

    A view gives each subscribed token its depths, or nothing before its first
    snapshot.  Here an event is a function from views to views, written without
    books, exceptions or printing ([spec_message], [spec_payload]); the lemmas
    connect the functions of [FeedClient] to it. *)
From S2P Require Import Prelude Orders OrderBook Levels EngineSpec BookTheorems FixedPoint FixedPointTheorems.
From S2P Require Import Json MarketFeed FeedClient.
From Stdlib Require Import Ascii.
From Stdlib Require String.

Local Open Scope Z_scope.

(** ** Numbers *)

Definition read_fixed (field_name text : string) : option Z :=
  match parse_fixed_nonnegative (S:=unit) field_name (String.list_ascii_of_string text) tt with
  | (Ok v, _) => Some v
  | _ => None
  end.

Definition read_price : string → option Z := read_fixed "Price".
Definition read_quantity : string → option Z := read_fixed "Quantity".

(** What is read does not depend on the state it is read in. *)
Lemma parse_fixed_run {S} f s (σ : S) :
  ∃ r, parse_fixed_nonnegative f s σ = (r, σ) ∧
    match r with
    | Ok v => 0 ≤ v ≤ INT64_MAX ∧ ∃ ws fs, numeral ws fs (unsign s) ∧ v = fixed_value ws fs
    | Throw _ => True
    | _ => False
    end.
Proof.
  destruct (parse_sign_cases (S:=S) f s) as [[_ [w ->]]| ->]; [by eexists|].
  destruct (wp_outcome _ _ _ _ (wp_parse_any (S:=S) f (unsign s) σ)) as (r & σ' & Hrun & Hr).
  destruct r as [v|ex| |]; [|destruct Hr as [-> _]; by eexists|done..].
  destruct Hr as (-> & ws & fs & Hn & Hv & Hm). eexists. split; [done|].
  split; [|eauto]. destruct Hn as (Hws & Hfs & _). rewrite Hv in *. split; [by apply fixed_value_nonneg|done].
Qed.

Lemma parse_fixed_numeral {S} f s ws fs (σ : S) :
  numeral ws fs (unsign s) → fixed_value ws fs ≤ INT64_MAX →
  parse_fixed_nonnegative f s σ = (Ok (fixed_value ws fs), σ).
Proof.
  intros Hn Hm. destruct (parse_sign_cases (S:=S) f s) as [[Hno _]| ->]; [by destruct (Hno ws fs)|].
  apply wp_exact. by apply (wp_parse_numeral f ws fs); [done| |lia].
Qed.

Lemma wp_read_fixed {S} f text Q E (σ : S) :
  (∀ v, read_fixed f text = Some v → 0 ≤ v ≤ INT64_MAX → Q v σ) →
  (read_fixed f text = None → ∀ ex, E ex σ) →
  wp (parse_fixed_nonnegative f (String.list_ascii_of_string text)) Q E σ.
Proof.
  set (s := String.list_ascii_of_string text). unfold read_fixed, wp. fold s. intros HQ HE.
  destruct (parse_fixed_run f s tt) as ([v|ex| |] & Hu & Hr); [| |done..]; rewrite Hu in HQ, HE.
  - destruct Hr as (Hv & ws & fs & Hn & ->). rewrite (parse_fixed_numeral f s ws fs σ) by (done || lia). auto.
  - destruct (parse_fixed_run f s σ) as ([v|ex'| |] & -> & Hr'); [|auto|done..].
    destruct Hr' as (Hv & ws & fs & Hn & ->). by rewrite (parse_fixed_numeral f s ws fs tt) in Hu by (done || lia).
Qed.

Lemma wp_price_to_ticks {S} text Q E (σ : S) :
  (∀ v, read_price text = Some v → 0 ≤ v ≤ INT64_MAX → Q v σ) →
  (read_price text = None → ∀ ex, E ex σ) → wp (price_to_ticks text) Q E σ.
Proof. apply wp_read_fixed. Qed.

Lemma wp_quantity_to_fixed {S} text Q E (σ : S) :
  (∀ v, read_quantity text = Some v → 0 ≤ v ≤ INT64_MAX → Q v σ) →
  (read_quantity text = None → ∀ ex, E ex σ) → wp (quantity_to_fixed text) Q E σ.
Proof. apply wp_read_fixed. Qed.

(** ** Views *)

Definition Depths : Type := OrderSide → Z → Z.
Notation View := (gmap string (option Depths)).

Definition set_depths (s : OrderSide) (p q : Z) (d : Depths) : Depths :=
  λ s' p', if decide (s = s' ∧ p = p') then q else d s' p'.

(** No price sums to more than a quantity can hold. *)
Definition sums_fit (l : list PriceLevel) : bool :=
  forallb (λ x, total_at (level_price x) l <=? INT64_MAX) l.

Section spec.
Context `{Json}.

Definition spec_level (level : json) : option PriceLevel :=
  if is_object level then
    price ← text_member level "price"; size ← text_member level "size";
    p ← read_price price; q ← read_quantity size;
    Some (mkLevel p q)
  else None.

Definition spec_levels (message : json) (side_name : string) : option (list PriceLevel) :=
  if contains message side_name then
    match json_member message side_name with
    | inl levels => if is_array levels then mapM spec_level (elements_of levels) else None
    | inr _ => None
    end
  else None.

(** The token and the levels of a snapshot that is accepted. *)
Definition spec_snapshot (φ : View) (message : json) : option (string * list PriceLevel * list PriceLevel) :=
  id ← text_member message "asset_id"; _ ← φ !! id;
  bids ← spec_levels message "bids"; asks ← spec_levels message "asks";
  if sums_fit bids && sums_fit asks then Some (id, bids, asks) else None.

Definition snapshot_depths (bids asks : list PriceLevel) : Depths :=
  λ s p, total_at p (match s with Buy => bids | Sell => asks end).

Definition spec_book (φ : View) (message : json) : View :=
  match spec_snapshot φ message with
  | Some (id, bids, asks) => <[id := Some (snapshot_depths bids asks)]> φ
  | None => φ
  end.

Definition read_side (side : string) : option OrderSide :=
  if bool_decide (side = "BUY") then Some Buy
  else if bool_decide (side = "SELL") then Some Sell else None.

(** A change of a token that has no snapshot is skipped, whatever it says;
    [None] is a change that is invalid. *)
Definition spec_change (φ : View) (change : json) : option View :=
  if is_object change then
    id ← text_member change "asset_id"; price ← text_member change "price";
    size ← text_member change "size"; side ← text_member change "side";
    match φ !! id with
    | Some (Some d) =>
        p ← read_price price; q ← read_quantity size; s ← read_side side;
        Some (<[id := Some (set_depths s p q d)]> φ)
    | _ => Some φ
    end
  else None.

(** The changes are applied up to the first invalid one. *)
Fixpoint spec_changes (φ : View) (changes : list json) : View :=
  match changes with
  | [] => φ
  | change :: rest =>
      match spec_change φ change with Some φ' => spec_changes φ' rest | None => φ end
  end.

Definition spec_price_change (φ : View) (message : json) : View :=
  if contains message "price_changes" then
    match json_member message "price_changes" with
    | inl changes => if is_array changes then spec_changes φ (elements_of changes) else φ
    | inr _ => φ
    end
  else φ.

Definition spec_message (φ : View) (message : json) : View :=
  if is_object message then
    match text_member message "event_type" with
    | Some event_type =>
        if bool_decide (event_type = "book") then spec_book φ message
        else if bool_decide (event_type = "price_change") then spec_price_change φ message
        else φ
    | None => φ
    end
  else φ.

Definition messages_of (payload : json) : list json :=
  if is_array payload then elements_of payload else [payload].

Definition spec_payload (φ : View) (payload : json) : View := foldl spec_message φ (messages_of payload).
End spec.

(** ** What the state shows *)

Definition token_shows (t : WebSocketTokenState) (d : option Depths) : Prop :=
  book_wf (book t) ∧
  match d with
  | Some f => snapshot_received t = true ∧ ∀ s p, book_depth s p (book t) = f s p
  | None => snapshot_received t = false
  end.

Definition shows (states : WebSocketMarketState) (φ : View) : Prop :=
  ∀ id, option_Forall2 token_shows (states !! id) (φ !! id).

Lemma shows_insert states φ id t d :
  shows states φ → token_shows t d → shows (<[id := t]> states) (<[id := d]> φ).
Proof.
  intros Hs Ht id'. destruct (decide (id = id')) as [->|Hne].
  - rewrite !lookup_insert_eq. by constructor.
  - by rewrite !lookup_insert_ne.
Qed.

Lemma shows_contains states φ id :
  shows states φ → ms_contains states id = bool_decide (is_Some (φ !! id)).
Proof.
  intros Hs. unfold ms_contains. apply bool_decide_ext. destruct (Hs id); split; intros [? ?]; eauto; done.
Qed.

Lemma sums_fit_bound l p : sums_fit l = true → total_at p l ≤ INT64_MAX.
Proof.
  intros Hf. destruct (decide (Exists (λ x, level_price x = p) l)) as [Hx|Hx].
  - apply Exists_exists in Hx as (x & Hx & <-). unfold sums_fit in Hf. rewrite forallb_forall in Hf.
    apply Z.leb_le, Hf. by apply list_elem_of_In.
  - assert (H0 : total_at p l = 0); [|rewrite H0; mlia]. clear Hf. induction l as [|x l IH]; [done|].
    simpl. rewrite IH; [|intros H; apply Hx; by right]. destruct (level_price x =? p) eqn:E; zb; [|done].
    destruct Hx. by left.
Qed.

Lemma sums_fit_iff l : sums_fit l = true ↔ ∀ p, total_at p l ≤ INT64_MAX.
Proof.
  split; [intros Hf p; by apply sums_fit_bound|]. intros Hp. unfold sums_fit. apply forallb_forall.
  intros x _. by apply Z.leb_le.
Qed.

(** With no negative figure, only a sum that does not fit is refused. *)
Lemma snapshot_bad_sums l : Forall level_nonneg l → snapshot_bad l → sums_fit l = false.
Proof.
  intros Hl [Hb|[p Hp]]; [done|]. destruct (sums_fit l) eqn:Hf; [|done].
  apply (sums_fit_bound _ p) in Hf. lia.
Qed.

(** ** Reading levels *)

Section reading.
Context `{Json} {S : Type}.
Implicit Types σ : S.

(** The guards in front of a level, and its two numbers. *)
Lemma wp_level_guards e1 e2 e3 level (k : M S PriceLevel) Q E σ :
  (is_object level = true → ∀ price size,
     text_member level "price" = Some price → text_member level "size" = Some size → wp k Q E σ) →
  (spec_level level = None → ∀ ex, E ex σ) →
  wp (if negb (is_object level) then throw e1
      else if negb (has_members level ["price"; "size"]) then throw e2
      else
        let* strings := members_are_strings level ["price"; "size"] in
        if negb strings then throw e3 else k) Q E σ.
Proof.
  unfold spec_level. intros Hk HE. destruct (is_object level); cbn [negb]; [|apply wp_throw; auto].
  assert (HN : Exists (λ k, text_member level k = None) ["price"; "size"] → ∀ ex, E ex σ).
  { intros Hx. apply HE.
    apply Exists_cons in Hx as [->|Hx]; [done|]. apply Exists_cons in Hx as [Hx|Hx%Exists_nil]; [|done].
    destruct (text_member level "price"); [simpl; by rewrite Hx|done]. }
  destruct (has_members level ["price"; "size"]) eqn:Hm; cbn [negb]; [|by apply wp_throw, HN, has_members_false].
  wp_step. apply wp_members_are_strings; [done| |intros; apply wp_throw; auto].
  intros [[price Ht1] [[size Ht2] _]%Forall_cons]%Forall_cons. eauto.
Qed.

Lemma spec_level_read level price size :
  is_object level = true → text_member level "price" = Some price → text_member level "size" = Some size →
  spec_level level = p ← read_price price; q ← read_quantity size; Some (mkLevel p q).
Proof. unfold spec_level. by intros -> -> ->. Qed.

Lemma level_read_ok p q : 0 ≤ p ≤ INT64_MAX → 0 ≤ q ≤ INT64_MAX →
  level_typed (mkLevel p q) ∧ level_nonneg (mkLevel p q).
Proof. unfold level_typed, level_nonneg. simpl. lia. Qed.

Lemma wp_parse_level level Q E σ :
  (∀ x, spec_level level = Some x → level_typed x ∧ level_nonneg x → Q x σ) →
  (spec_level level = None → ∀ ex, E ex σ) →
  wp (parse_level level) Q E σ.
Proof.
  intros HQ HE. apply wp_level_guards; [|done]. intros Ho price size Ht1 Ht2.
  rewrite (spec_level_read _ price size) in HQ, HE by done.
  wp_step. apply (wp_get_member _ _ price); [done|]. wp_step.
  apply wp_price_to_ticks; [|intros Hr; by rewrite Hr in HE; apply HE].
  intros p Hr1 Hp. rewrite Hr1 in *. simpl in HQ, HE. wp_step. apply (wp_get_member _ _ size); [done|]. wp_step.
  apply wp_quantity_to_fixed; [|intros Hr; by rewrite Hr in HE; apply HE].
  intros q Hr2 Hq. rewrite Hr2 in *. wp_step. apply HQ; [done|by apply level_read_ok].
Qed.

(** A loop that collects, against the same loop on the reference. *)
Lemma wp_collect {A B} (f : A → M S B) (g : A → option B) (P : B → Prop) l Q E σ :
  (∀ x Q E, (∀ y, g x = Some y → P y → Q y σ) → (g x = None → ∀ ex, E ex σ) → wp (f x) Q E σ) →
  (∀ ys, mapM g l = Some ys → Forall P ys → Q ys σ) → (mapM g l = None → ∀ ex, E ex σ) →
  wp (collect f l) Q E σ.
Proof.
  intros Hf. revert Q. induction l as [|x l IH]; simpl; intros Q HQ HE; [by apply wp_ret, HQ|].
  wp_step. apply Hf; [|intros Hg ex; rewrite Hg in HE; by apply HE].
  intros y Hy HP. rewrite Hy in *. simpl in *. wp_step. apply IH.
  - intros ys Hys HF. rewrite Hys in *. wp_step. apply HQ; [done|by constructor].
  - intros Hn ex. rewrite Hn in HE. by apply HE.
Qed.

Lemma wp_parse_levels message side_name Q E σ :
  (∀ l, spec_levels message side_name = Some l → Forall (λ x, level_typed x ∧ level_nonneg x) l → Q l σ) →
  (spec_levels message side_name = None → ∀ ex, E ex σ) →
  wp (parse_levels message side_name) Q E σ.
Proof.
  unfold spec_levels, parse_levels. intros HQ HE.
  destruct (contains message side_name) eqn:Hc; simpl; [|apply wp_throw; auto].
  wp_step. apply wp_json_at; [done|]. intros v Hv. rewrite Hv in *.
  destruct (is_array v); simpl; [|apply wp_throw; auto].
  apply (wp_collect _ spec_level (λ x, level_typed x ∧ level_nonneg x)); [|done|done].
  intros x Q' E' HQ' HE'. by apply wp_parse_level.
Qed.

Lemma wp_has_string j key Q E σ :
  (∀ t, text_member j key = Some t → Q true σ) → (text_member j key = None → Q false σ) →
  wp (has_string j key) Q E σ.
Proof.
  intros HQ HN. unfold has_string. destruct (contains j key) eqn:Hc; [by apply wp_member_is_string|].
  by apply wp_ret, HN, text_member_absent.
Qed.
End reading.

(** ** Printing

    Printing changes what was written to [std::cout]; it fails only on a spread
    below zero. *)

Definition crossed (b : OrderBook) : bool :=
  match best_bid b, best_ask b with
  | Some x, Some y => level_price y <? level_price x
  | _, _ => false
  end.

Definition negative_price : exn := invalid_argument "Price cannot be negative.".

Lemma wp_format_price {S} t d Q E (σ : S) :
  t ≤ INT64_MAX → (d ≤ 6)%nat → (0 ≤ t → ∀ s, Q s σ) → (t < 0 → E negative_price σ) →
  wp (format_price t d) Q E σ.
Proof.
  intros Ht Hd HQ HE. unfold format_price. wp_step; zb; [apply wp_throw; auto|].
  rewrite (proj2 (Nat.ltb_ge 6 d)) by lia.
  assert (Hpow : ∀ n : nat, (n ≤ 6)%nat → 1 * 10 ^ Z.of_nat n ≤ INT64_MAX).
  { intros n Hn. rewrite Z.mul_1_l. transitivity (10 ^ 6); [apply Z.pow_le_mono_r; lia|by vm_compute]. }
  wp_step. apply wp_power_of_ten; [lia|apply Hpow; lia|]. wp_step.
  apply wp_power_of_ten; [lia|apply Hpow; lia|]. wp_step. auto.
Qed.

Section printing.
Implicit Types c : Console.

Lemma wp_cout t Q E c : (∀ c', err_ c' = err_ c → Q tt c') → wp (cout t) Q E c.
Proof. intros HQ. apply wp_modify. by apply HQ. Qed.
End printing.

Ltac couts :=
  repeat (first [apply wp_bind; apply wp_cout | apply wp_cout];
          let c := fresh "c" in let H := fresh "Hc" in intros c H).

Lemma wp_print_price_line label price Q E c :
  (∀ t, price = Some t → t ≤ INT64_MAX) →
  ((∀ t, price = Some t → 0 ≤ t) → ∀ c', err_ c' = err_ c → Q tt c') →
  (∀ t, price = Some t → t < 0 → ∀ c', err_ c' = err_ c → E negative_price c') →
  wp (print_price_line label price) Q E c.
Proof.
  intros Hb HQ HE. destruct price as [t|]; unfold print_price_line; couts; [|apply HQ; [done|congruence]].
  wp_step. apply wp_format_price; [by apply Hb|lia| |].
  - intros Ht s. couts. apply HQ; [by intros ? [= <-]|congruence].
  - intros Ht. by apply (HE t).
Qed.

Lemma wp_print_levels levels n Q E c :
  Forall level_ok levels → (∀ c', err_ c' = err_ c → Q tt c') → wp (print_levels levels n) Q E c.
Proof.
  intros Hl HQ. unfold print_levels. destruct (_ =? 0)%nat; couts; [by apply HQ|].
  assert (Hk : Forall level_ok (take (n `min` length levels) levels)) by by apply Forall_take.
  assert (Hc' : err_ c2 = err_ c) by congruence. clear Hc Hc0 Hc1. revert c2 Hc'.
  induction Hk as [|x r [Hx _] _ IH]; intros c3 Hc3; [by apply wp_ret, HQ|]. simpl. wp_step.
  unfold print_level. couts. wp_step. apply wp_format_price; [lia|lia| |lia].
  intros _ t. couts. apply IH. congruence.
Qed.

(** The prices a well formed book prints. *)
Lemma best_price_ok s b t :
  book_wf b → level_price <$> head (side_levels s b) = Some t → 0 ≤ t ≤ INT64_MAX.
Proof.
  intros Hwf. destruct (Hwf s) as [_ Hl]. destruct (side_levels s b) as [|x l]; [done|].
  apply Forall_cons in Hl as [[Hx _] _]. intros [= <-]. done.
Qed.

Lemma wp_spread {S} b Q E (σ : S) :
  book_wf b →
  (∀ o, (∀ t, o = Some t → t ≤ INT64_MAX ∧ crossed b = (t <? 0)) → (o = None → crossed b = false) → Q o σ) →
  wp (run_local b spread_ticks) Q E σ.
Proof.
  intros Hwf HQ. pose proof (best_price_ok Buy b) as Hb. pose proof (best_price_ok Sell b) as Ha.
  unfold crossed, best_bid, best_ask, spread_ticks in *. wp_steps. unfold id.
  simpl in Hb, Ha. destruct (bids_ b) as [|x bs], (asks_ b) as [|y ys]; simpl in *; try (by wp_step; apply HQ).
  specialize (Hb _ Hwf eq_refl). specialize (Ha _ Hwf eq_refl). wp_steps; [mlia|]. apply HQ; [|done].
  intros t [= <-]. split; [lia|].
  destruct (level_price y <? _) eqn:E1, (_ - _ <? 0) eqn:E2; zb; done || lia.
Qed.

Lemma wp_mid {S} b Q E (σ : S) :
  book_wf b → (∀ o, (∀ t, o = Some t → 0 ≤ t ≤ INT64_MAX) → Q o σ) →
  wp (run_local b mid_price_ticks) Q E σ.
Proof.
  intros Hwf HQ. pose proof (best_price_ok Buy b) as Hb. pose proof (best_price_ok Sell b) as Ha.
  unfold mid_price_ticks. wp_steps. unfold id.
  simpl in Hb, Ha. destruct (bids_ b) as [|x bs], (asks_ b) as [|y ys]; simpl in *; try (by wp_step; apply HQ).
  specialize (Hb _ Hwf eq_refl). specialize (Ha _ Hwf eq_refl).
  pose proof (Z.quot_rem (level_price y - level_price x) 2 ltac:(lia)) as Hq.
  pose proof (Z.rem_bound_abs (level_price y - level_price x) 2 ltac:(lia)) as Hr.
  pose proof (Z.rem_sign_mul (level_price y - level_price x) 2 ltac:(lia)) as Hs.
  wp_steps; [mlia|mlia|]. apply HQ. intros t [= <-]. lia.
Qed.

Lemma wp_depth {S} s b Q E (σ : S) :
  book_wf b → (∀ d, 0 ≤ d ≤ INT64_MAX → Q d σ) →
  wp (run_local b (match s with Buy => bid_depth | Sell => ask_depth end)) Q E σ.
Proof.
  intros Hwf HQ. destruct (Hwf s) as [_ Hl]. wp_step.
  pose proof (side_volume_nonneg _ Hl).
  destruct s; unfold bid_depth, ask_depth; do 2 wp_step; apply wp_depth_or_max; try done;
    apply HQ; simpl in *; unfold id; mlia.
Qed.

Lemma wp_print_live_book b Q E c :
  book_wf b →
  (crossed b = false → ∀ c', err_ c' = err_ c → Q tt c') →
  (crossed b = true → ∀ c', err_ c' = err_ c → E negative_price c') →
  wp (print_live_book b) Q E c.
Proof.
  intros Hwf HQ HE. destruct (Hwf Buy) as [_ Hb], (Hwf Sell) as [_ Ha]. simpl in Hb, Ha.
  assert (HB : ∀ t, level_price <$> best_bid b = Some t → 0 ≤ t ≤ INT64_MAX) by (intros t; by apply (best_price_ok Buy)).
  assert (HA : ∀ t, level_price <$> best_ask b = Some t → 0 ≤ t ≤ INT64_MAX) by (intros t; by apply (best_price_ok Sell)).
  unfold print_live_book. couts. wp_step. apply wp_print_levels; [done|]. intros c1 Hc1. couts.
  wp_step. apply wp_print_levels; [done|]. intros c3 Hc3. couts. wp_step.
  apply wp_print_price_line; [intros t Ht%HB; lia| |intros t Ht%HB; lia].
  intros _ c5 Hc5. wp_step.
  apply wp_print_price_line; [intros t Ht%HA; lia| |intros t Ht%HA; lia].
  intros _ c6 Hc6. wp_step. apply wp_spread; [done|]. intros o Ho Hn. wp_step.
  apply wp_print_price_line; [by intros t Ht; apply Ho| |].
  2: { intros t Ht Hneg c7 Hc7. apply HE; [|congruence]. destruct (Ho t Ht) as [_ ->]. by apply Z.ltb_lt. }
  intros Hpos c7 Hc7.
  assert (Hun : crossed b = false).
  { destruct o as [t|]; [|auto]. destruct (Ho t eq_refl) as [_ ->]. apply Z.ltb_ge. auto. }
  wp_step. apply wp_mid; [done|]. intros m Hm. wp_step.
  apply wp_print_price_line; [intros t Ht; apply Hm in Ht; lia| |intros t Ht; apply Hm in Ht; lia].
  intros _ c8 Hc8. couts. wp_step. apply (wp_depth Buy); [done|]. intros d _. couts.
  wp_step. apply (wp_depth Sell); [done|]. intros d' _. couts. apply HQ; [done|congruence].
Qed.
