(* ===== verification/FeedEvents.v ===== *)
(** * Events on the market state

    The functions of [FeedClient] on a state that shows a view: each leaves a
    state that shows what the event means ([FeedSpec]), also when it throws, and
    the error stream is written only by the dispatcher's handler. *)
From S2P Require Import Prelude Orders OrderBook Levels EngineSpec BookTheorems FixedPoint.
From S2P Require Import Json MarketFeed FeedClient FeedSpec.

Local Open Scope Z_scope.

Section console.
Context (st : WebSocketMarketState) (c : Console).

Lemma wp_say t Q E : (∀ c', err_ c' = err_ c → Q tt (mkFeed st c')) → wp (say t) Q E (mkFeed st c).
Proof. intros HQ. unfold say, in_console. wp_step. by apply wp_cout. Qed.

Lemma wp_ms_at id t Q E :
  st !! id = Some t → Q t (mkFeed st c) → wp (in_market (ms_at id)) Q E (mkFeed st c).
Proof. intros Ht HQ. unfold in_market. wp_step. simpl. unfold wp, ms_at. by rewrite Ht. Qed.

Lemma wp_through {A} id t (m : M WebSocketTokenState A) Q E :
  st !! id = Some t →
  wp m (λ a t', Q a (mkFeed (<[id := t']> st) c)) (λ e t', E e (mkFeed (<[id := t']> st) c)) t →
  wp (in_market (through id m)) Q E (mkFeed st c).
Proof.
  intros Ht Hm. unfold in_market. wp_step. simpl. unfold wp, through in *. rewrite Ht.
  by destruct (m t) as [[] ?].
Qed.

Lemma wp_in_book {A} id t (m : M OrderBook A) Q E :
  st !! id = Some t →
  wp m (λ a b, Q a (mkFeed (<[id := set_book b t]> st) c))
       (λ e b, E e (mkFeed (<[id := set_book b t]> st) c)) (book t) →
  wp (in_book id m) Q E (mkFeed st c).
Proof. intros Ht Hm. unfold in_book. apply (wp_through id t); [done|]. by wp_step. Qed.
End console.

Ltac says :=
  repeat (first [apply wp_bind; apply wp_say | apply wp_say];
          let c := fresh "c" in let H := fresh "Hc" in intros c H).

(** The token a change or a message names. *)
Lemma shows_some st φ id d :
  shows st φ → φ !! id = Some d → ∃ t, st !! id = Some t ∧ token_shows t d.
Proof. intros Hs Hd. specialize (Hs id). rewrite Hd in Hs. inversion Hs; subst. eauto. Qed.

Section events.
Context `{Json}.

(** An update of a book that shows some depths. *)
Lemma wp_update_shown s p q t d st c id Q E :
  st !! id = Some t → token_shows t (Some d) → 0 ≤ p ≤ INT64_MAX → 0 ≤ q ≤ INT64_MAX →
  (∀ t', token_shows t' (Some (set_depths s p q d)) → Q tt (mkFeed (<[id := t']> st) c)) →
  wp (in_book id (update_side s p q)) Q E (mkFeed st c).
Proof.
  intros Ht (Hwf & Hr & Hd) Hp Hq HQ. apply (wp_in_book _ _ _ t); [done|].
  apply wp_update_side; [done| |lia]. intros _ _. apply HQ. split; [by apply book_wf_set_depth|].
  split; [done|]. intros s' p'. simpl. rewrite book_depth_set_depth_at by done. unfold set_depths.
  by case_decide.
Qed.

Lemma wp_change_side side p q t d st c id Q E :
  st !! id = Some t → token_shows t (Some d) → 0 ≤ p ≤ INT64_MAX → 0 ≤ q ≤ INT64_MAX →
  (∀ s t', read_side side = Some s → token_shows t' (Some (set_depths s p q d)) →
     Q tt (mkFeed (<[id := t']> st) c)) →
  (read_side side = None → ∀ ex, E ex (mkFeed st c)) →
  wp (if bool_decide (side = "BUY") then in_book id (update_bid p q)
      else if bool_decide (side = "SELL") then in_book id (update_ask p q)
      else throw (runtime_error ("Unsupported price-change side: " +:+ side))) Q E (mkFeed st c).
Proof.
  intros Ht Hd Hp Hq HQ HE. unfold read_side in *.
  destruct (bool_decide (side = "BUY")); [apply (wp_update_shown Buy p q t d); eauto|].
  destruct (bool_decide (side = "SELL")); [apply (wp_update_shown Sell p q t d); eauto|]. apply wp_throw. auto.
Qed.

Lemma wp_apply_price_change φ change st c Q E :
  shows st φ →
  (∀ φ' st' c' id, spec_change φ change = Some φ' → shows st' φ' → err_ c' = err_ c →
     (id ≠ "" → is_Some (φ' !! id)) → Q id (mkFeed st' c')) →
  (spec_change φ change = None → ∀ ex c', err_ c' = err_ c → E ex (mkFeed st c')) →
  wp (apply_price_change change) Q E (mkFeed st c).
Proof.
  intros Hs HQ HE. unfold apply_price_change, spec_change in *.
  destruct (is_object change); cbn [negb]; [|by apply wp_throw, HE].
  assert (HN : Exists (λ k, text_member change k = None) change_fields → ∀ ex, E ex (mkFeed st c)).
  { intros Hx ex. apply HE; [|done].
    do 4 (apply Exists_cons in Hx as [Hx|Hx]; [repeat (rewrite Hx || destruct (text_member _ _)); done|]).
    by apply Exists_nil in Hx. }
  destruct (has_members change change_fields) eqn:Hm; cbn [negb].
  2: { by apply wp_throw, HN, has_members_false. }
  wp_step. apply wp_members_are_strings; [done| |intros; by apply wp_throw, HN].
  intros [[id T1] [[price T2] [[size T3] [[side T4] _]%Forall_cons]%Forall_cons]%Forall_cons]%Forall_cons.
  clear HN. rewrite T1 in *. cbn in HQ, HE. rewrite T2 in *. cbn in HQ, HE. rewrite T3 in *. cbn in HQ, HE.
  rewrite T4 in *. cbn in HQ, HE. cbn [negb].
  wp_step. apply (wp_get_member _ _ id); [done|]. do 2 wp_step. simpl. rewrite (shows_contains _ φ) by done.
  destruct (φ !! id) as [d|] eqn:Hd; cbn.
  2: { says. wp_step. by apply (HQ φ); [..|congruence|]. }
  destruct (shows_some _ _ _ _ Hs Hd) as (t & Ht & Hsh). wp_step. apply (wp_ms_at _ _ _ t); [done|].
  destruct d as [d|]; pose proof Hsh as [Hwf Hr].
  2: { rewrite Hr. cbn [negb]. says. wp_step. by apply (HQ φ); [..|congruence|]. }
  destruct Hr as [-> _]. cbn [negb].
  wp_step. apply (wp_get_member _ _ price); [done|]. wp_step.
  apply wp_price_to_ticks; [|intros Hr ex; rewrite Hr in HE; by apply HE].
  intros p Hp1 Hp. rewrite Hp1 in *. cbn in HQ, HE. wp_step. apply (wp_get_member _ _ size); [done|]. wp_step.
  apply wp_quantity_to_fixed; [|intros Hr ex; rewrite Hr in HE; by apply HE].
  intros q Hq1 Hq. rewrite Hq1 in *. cbn in HQ, HE. wp_step. apply (wp_get_member _ _ side); [done|]. wp_step.
  apply (wp_change_side _ _ _ t d); [done..| |intros Hr ex; rewrite Hr in HE; by apply HE].
  intros s t' Hside Hsh'. rewrite Hside in *. cbn in HQ. says.
  wp_step. apply wp_format_price; [lia|lia| |lia]. intros _ text. says.
  wp_step. apply (wp_get_member _ _ size); [done|]. says. wp_step.
  eapply HQ; [done|by apply shows_insert|congruence|]. intros _. rewrite lookup_insert_eq. eauto.
Qed.
Lemma spec_change_dom φ change φ' id :
  spec_change φ change = Some φ' → is_Some (φ !! id) → is_Some (φ' !! id).
Proof.
  unfold spec_change. intros Hc Hi. destruct (is_object change); [|done].
  destruct (text_member change "asset_id") as [id'|]; [|done]. cbn in Hc.
  destruct (text_member change "price") as [price|]; [|done]. cbn in Hc.
  destruct (text_member change "size") as [size|]; [|done]. cbn in Hc.
  destruct (text_member change "side") as [side|]; [|done]. cbn in Hc.
  destruct (φ !! id') as [[d|]|]; [|by injection Hc as <-..].
  destruct (read_price price); [|done]. cbn in Hc. destruct (read_quantity size); [|done]. cbn in Hc.
  destruct (read_side side); [|done]. injection Hc as <-. by apply lookup_insert_is_Some'; right.
Qed.

(** The loop applies the changes up to the first invalid one. *)
Lemma wp_apply_price_changes φ changes ids st c Q E :
  shows st φ → Forall (λ id, is_Some (φ !! id)) ids →
  (∀ st' c' ids', shows st' (spec_changes φ changes) → err_ c' = err_ c →
     Forall (λ id, is_Some (spec_changes φ changes !! id)) ids' → Q ids' (mkFeed st' c')) →
  (∀ ex st' c', shows st' (spec_changes φ changes) → err_ c' = err_ c → E ex (mkFeed st' c')) →
  wp (apply_price_changes changes ids) Q E (mkFeed st c).
Proof.
  revert φ ids st c. induction changes as [|change rest IH]; simpl; intros φ ids st c Hs Hids HQ HE.
  { by apply wp_ret, HQ. }
  wp_step. apply (wp_apply_price_change φ); [done| |].
  - intros φ' st' c' id Hc Hs' He Hid. rewrite Hc in HQ, HE.
    assert (Hids' : Forall (λ id, is_Some (φ' !! id)) ids).
    { eapply Forall_impl; [done|]. intros x. by apply (spec_change_dom φ change). }
    destruct (negb _ && negb _) eqn:Hb; (apply (IH φ'); [done| | |]; try (intros; (apply HQ || apply HE); first [done|congruence])).
    + apply Forall_app. split; [done|]. repeat constructor. apply Hid.
      apply andb_true_iff in Hb as [Hb%negb_true_iff%bool_decide_eq_false _]. done.
    + done.
  - intros Hc ex c' He. rewrite Hc in HE. by apply HE.
Qed.

Lemma wp_print_token st c φ id t Q E :
  shows st φ → st !! id = Some t →
  (crossed (book t) = false → ∀ c', err_ c' = err_ c → Q tt (mkFeed st c')) →
  (crossed (book t) = true → ∀ c', err_ c' = err_ c → E negative_price (mkFeed st c')) →
  wp (print_token id) Q E (mkFeed st c).
Proof.
  intros Hs Ht HQ HE. unfold print_token, token_banner. wp_step. says. wp_step. apply (wp_ms_at _ _ _ t); [done|].
  unfold in_console. wp_step. simpl.
  assert (Hwf : book_wf (book t)).
  { specialize (Hs id). rewrite Ht in Hs. inversion Hs as [?? [Hwf _]|]; done. }
  apply wp_print_live_book; [done|intros Hx c' Hc'; apply HQ; [done|congruence]
                                 |intros Hx c' Hc'; apply HE; [done|congruence]].
Qed.

Lemma wp_process_price_change φ message st c Q E :
  shows st φ →
  (∀ st' c', shows st' (spec_price_change φ message) → err_ c' = err_ c → Q tt (mkFeed st' c')) →
  (∀ ex st' c', shows st' (spec_price_change φ message) → err_ c' = err_ c → E ex (mkFeed st' c')) →
  wp (process_price_change message) Q E (mkFeed st c).
Proof.
  unfold process_price_change, spec_price_change. intros Hs HQ HE.
  destruct (contains message "price_changes") eqn:Hc; cbn [negb]; [|by apply wp_throw, HE].
  wp_step. apply wp_json_at; [done|]. intros v Hv. rewrite Hv in *.
  destruct (is_array v); cbn [negb]; [|by apply wp_throw, HE].
  wp_step. apply (wp_apply_price_changes φ); [done|constructor| |done].
  intros st' c' ids Hs' Hc' Hids.
  assert (HQ' : ∀ c'', err_ c'' = err_ c → Q tt (mkFeed st' c'')) by auto.
  assert (HE' : ∀ ex c'', err_ c'' = err_ c → E ex (mkFeed st' c'')) by auto. clear HQ HE.
  revert c' Hc'. induction Hids as [|id ids [d Hd] _ IH]; intros c' Hc'; simpl; [by apply wp_ret, HQ'|].
  destruct (shows_some _ _ _ _ Hs' Hd) as (t & Ht & _). wp_step.
  apply (wp_print_token _ _ (spec_changes φ (elements_of v)) _ t); [done|done| |].
  - intros _ c'' He. apply IH. congruence.
  - intros _ c'' He. apply HE'. congruence.
Qed.

(** A snapshot that is accepted is shown; printing it fails when it is crossed. *)
Lemma wp_process_book φ message st c Q E :
  shows st φ →
  (∀ st' c', shows st' (spec_book φ message) → err_ c' = err_ c →
     (∀ id bs ys, spec_snapshot φ message = Some (id, bs, ys) →
        ∃ t, st' !! id = Some t ∧ crossed (book t) = false) → Q tt (mkFeed st' c')) →
  (∀ ex st' c', shows st' (spec_book φ message) → err_ c' = err_ c →
     (∀ id bs ys, spec_snapshot φ message = Some (id, bs, ys) →
        ex = negative_price ∧ ∃ t, st' !! id = Some t ∧ crossed (book t) = true) → E ex (mkFeed st' c')) →
  wp (process_book message) Q E (mkFeed st c).
Proof.
  unfold process_book, spec_book. intros Hs HQ HE.
  assert (HN : spec_snapshot φ message = None → ∀ ex c', err_ c' = err_ c → E ex (mkFeed st c')).
  { intros Hn. rewrite Hn in HE. intros. by apply HE. }
  unfold spec_snapshot in *. wp_step. apply wp_has_string; [|intros Hn; rewrite Hn in HN; cbn [negb]; by apply wp_throw, HN].
  intros id Hid. rewrite Hid in *. cbn in HQ, HE, HN. cbn [negb].
  wp_step. apply (wp_get_member _ _ id); [done|]. do 2 wp_step. simpl. rewrite (shows_contains _ φ) by done.
  destruct (φ !! id) as [d|] eqn:Hd; cbn in *.
  2: { says. by apply HQ; [|congruence|]. }
  wp_step. apply wp_parse_levels; [|intros Hn ex; rewrite Hn in HN; by apply HN]. intros bs Hbs Fb. rewrite Hbs in *. cbn in *.
  wp_step. apply wp_parse_levels; [|intros Hn ex; rewrite Hn in HN; by apply HN]. intros ys Hys Fy. rewrite Hys in *. cbn in *.
  destruct (shows_some _ _ _ _ Hs Hd) as (t & Ht & Hsh). wp_step. apply (wp_ms_at _ _ _ t); [done|]. cbn beta.
  apply Forall_and in Fb as [Tb Nb], Fy as [Ty Ny].
  wp_step. apply (wp_in_book _ _ _ t); [done|]. apply wp_replace_snapshot; [done..| |].
  - intros b' Hwf Db Da _ _.
    assert (Hf : sums_fit bs = true ∧ sums_fit ys = true).
    { split; apply sums_fit_iff; intros p; rewrite <- ?Db, <- ?Da; by apply book_depth_bounds. }
    destruct Hf as [F1 F2]. rewrite F1, F2 in *. cbn in HQ, HE.
    wp_step. apply (wp_through _ _ _ (set_book b' t)); [by rewrite lookup_insert_eq|]. wp_step.
    rewrite insert_insert_eq. simpl. set (t' := mkToken b' true).
    assert (Hs' : shows (<[id := t']> st) (<[id := Some (snapshot_depths bs ys)]> φ)).
    { apply shows_insert; [done|]. split; [done|]. split; [done|]. by intros []. }
    apply (wp_print_token _ _ _ _ t' _ _ Hs'); [by rewrite lookup_insert_eq| |].
    + intros Hx c' Hc'. apply HQ; [done|done|]. intros ??? [= <- <- <-]. exists t'. by rewrite lookup_insert_eq.
    + intros Hx c' Hc'. apply HE; [done|done|]. intros ??? [= <- <- <-]. split; [done|].
      exists t'. by rewrite lookup_insert_eq.
  - intros ex Hbad. assert (Hid' : <[id := set_book (book t) t]> st = st) by (apply insert_id; by destruct t).
    rewrite Hid'. apply HN; [|done].
    destruct Hbad as [Hb|Hb]; apply snapshot_bad_sums in Hb; rewrite ?Hb, ?andb_false_r; done.
Qed.

(** What a message means holds of the state also when it throws. *)
Lemma wp_process_message φ message st c Q E :
  shows st φ →
  (∀ st' c', shows st' (spec_message φ message) → err_ c' = err_ c → Q tt (mkFeed st' c')) →
  (∀ ex st' c', shows st' (spec_message φ message) → err_ c' = err_ c → E ex (mkFeed st' c')) →
  wp (process_message message) Q E (mkFeed st c).
Proof.
  unfold process_message, spec_message. intros Hs HQ HE.
  destruct (is_object message); cbn [negb]; [|says; by apply HQ].
  wp_step. apply wp_has_string; [|intros Hn; rewrite Hn in *; cbn [negb]; says; by apply HQ].
  intros event Hev. rewrite Hev in *. cbn [negb]. wp_step. apply (wp_get_member _ _ event); [done|]. says.
  destruct (bool_decide (event = "book")).
  { apply (wp_process_book φ); [done| |]; intros; [apply HQ|apply HE]; first [done|congruence]. }
  destruct (bool_decide (event = "price_change")).
  { apply (wp_process_price_change φ); [done| |]; intros; [apply HQ|apply HE]; first [done|congruence]. }
  wp_step. by apply HQ; [|congruence].
Qed.
End events.
