(* ===== verification/FeedTheorems.v ===== *)
(** * Theorems about the market feed

    From a text on the socket to the books: which texts are taken for what, that
    one bad event does not disturb the others, that the books are what the
    accepted events say, and what is printed of them. *)
From S2P Require Import Prelude Orders OrderBook Levels EngineSpec BookTheorems FixedPoint FixedPointTheorems.
From S2P Require Import Json MarketFeed FeedClient FeedSpec FeedEvents.
From Stdlib Require Import Ascii.
From Stdlib Require String.

Local Open Scope Z_scope.

(** ** The dispatcher *)

Section dispatch_spec.
Context `{Json} {S : Type} (handler : json → M S unit) (error_handler : exn → M S unit).

(** The messages one after the other, each with its handler: the state, the
    number of those that were processed and of those that were rejected. *)
Fixpoint run_isolated (messages : list json) (s : S) : S * nat * nat :=
  match messages with
  | [] => (s, O, O)
  | m :: rest =>
      match handler m s with
      | (Throw e, s') => let '(t, p, r) := run_isolated rest (error_handler e s').2 in (t, p, Datatypes.S r)
      | (_, s') => let '(t, p, r) := run_isolated rest s' in (t, Datatypes.S p, r)
      end
  end.

Variable I : S → Prop.
Hypothesis handler_ends : ∀ m s, I s → wp (handler m) (λ _, I) (λ _, I) s.
Hypothesis reports : ∀ e s, I s → wp (error_handler e) (λ _, I) nothrow s.

Lemma dispatch_each messages s a b :
  I s →
  for_each messages (dispatch_one handler error_handler) (s, mkDispatchResult a b) =
    let '(t, p, r) := run_isolated messages s in (Ok tt, (t, mkDispatchResult (a + p) (b + r))).
Proof.
  revert s a b. induction messages as [|m rest IH]; intros s a b HI; simpl.
  { by rewrite !Nat.add_0_r. }
  pose proof (handler_ends m s HI) as Hm.
  unfold dispatch_one at 1, bind, try_catch, outer, zoom, modify. unfold wp in Hm. simpl.
  destruct (handler m s) as [[[]|e| |] s'] eqn:Hrun; simpl; try done.
  - rewrite IH by done. destruct (run_isolated rest s') as [[t p] r]. do 3 f_equal. lia.
  - pose proof (reports e s' Hm) as (u & s'' & He & HI')%wp_run. rewrite He. simpl.
    rewrite IH by done. destruct (run_isolated rest s'') as [[t p] r]. do 3 f_equal. lia.
Qed.

Lemma run_isolated_counts messages s t p r :
  run_isolated messages s = (t, p, r) → (p + r = length messages)%nat.
Proof.
  revert s t p r. induction messages as [|m rest IH]; intros s t p r; simpl; [by intros [= <- <- <-]|].
  destruct (handler m s) as [[] s'];
    (destruct (run_isolated rest _) as [[? p'] r'] eqn:Hr; intros [= <- <- <-]; apply IH in Hr; lia).
Qed.

Lemma dispatch_run payload s :
  I s → is_array payload || is_object payload = true →
  ∃ t p r, run_isolated (messages_of payload) s = (t, p, r) ∧
    dispatch handler error_handler payload s = (Ok (mkDispatchResult p r), t).
Proof.
  intros HI Hk. pose proof (dispatch_each (messages_of payload) s 0 0 HI) as Hrun.
  destruct (run_isolated _ s) as [[t p] r] eqn:Hi. exists t, p, r. split; [done|].
  unfold dispatch, messages_of, scoped in *. destruct (is_array payload).
  - unfold bind. by rewrite Hrun.
  - simpl in Hk. rewrite Hk. simpl in Hrun. unfold bind in *.
    destruct (dispatch_one _ _ payload _) as [[] ?]; try done. injection Hrun as ->. done.
Qed.
End dispatch_spec.

(** The dispatcher processes the elements of an array, or the object, in
    order; an element whose handler throws is reported and does not keep the
    following ones from being processed.  Every element is counted once, as
    processed or as rejected, and no exception leaves the call; a payload of
    another kind is refused. *)
Theorem dispatch_isolates_failures `{Json} {S} (handler : json → M S unit) error_handler
    (I : S → Prop) payload s :
  (∀ m s, I s → wp (handler m) (λ _, I) (λ _, I) s) →
  (∀ e s, I s → wp (error_handler e) (λ _, I) nothrow s) → I s →
  if is_array payload || is_object payload then
    ∃ t p r, run_isolated handler error_handler (messages_of payload) s = (t, p, r) ∧
      dispatch handler error_handler payload s = (Ok (mkDispatchResult p r), t) ∧
      (p + r)%nat = length (messages_of payload)
  else dispatch handler error_handler payload s =
    (Throw (invalid_argument "WebSocket payload must be an object or array."), s).
Proof.
  intros Hh Hr HI. destruct (is_array payload || is_object payload) eqn:Hk.
  - destruct (dispatch_run handler error_handler I Hh Hr payload s HI Hk) as (t & p & r & H1 & H2).
    exists t, p, r. split_and!; [done..|]. by eapply run_isolated_counts.
  - apply orb_false_iff in Hk as [H1 H2]. unfold dispatch, scoped. by rewrite H1, H2.
Qed.

(** Three messages, the second of which the handler refuses. *)
Definition count_texts (J := json_table [] (λ _, "")) (m : @json J) : M (list string) unit :=
  let* t := get_string (H:=J) m in modify (cons t).

Lemma dispatch_isolates_failures_witness :
  let J := json_table [] (λ _, "") in
  let payload := TArray [TString "a"; TNull; TString "b"] in
  let report := λ e : exn, modify (cons (what e)) in
  ∃ t p r, run_isolated (H:=J) count_texts report (messages_of (H:=J) payload) [] = (t, p, r) ∧
    dispatch (H:=J) count_texts report payload [] = (Ok (mkDispatchResult p r), t) ∧
    (p + r)%nat = length (messages_of (H:=J) payload).
Proof.
  intros J payload report.
  apply (dispatch_isolates_failures (H:=J) count_texts report (λ _, True) payload []); [| |done].
  - intros [] s _; done.
  - intros e s _. done.
Defined.

(** ** The books follow the events *)

(** Before the first snapshot every subscribed token shows nothing. *)
Definition subscribed (token_ids : list string) : View := gset_to_gmap None (list_to_set token_ids).

Lemma try_emplace_shows id st φ :
  shows st φ → (∀ d, φ !! id = Some d → d = None) → shows (try_emplace id st) (<[id := None]> φ).
Proof.
  intros Hs Hd. unfold try_emplace. pose proof (Hs id) as Hid.
  destruct (st !! id) as [t|] eqn:Ht; inversion Hid as [? d Hsh Heq Hφ|Heq Hφ].
  - rewrite insert_id; [done|]. rewrite <- Hφ. f_equal. by apply Hd.
  - apply shows_insert; [done|]. split; [apply book_wf_empty|done].
Qed.

Lemma wp_emplace_all {ids} st φ Q E :
  shows st φ → (∀ id d, φ !! id = Some d → d = None) → Forall (λ id, id ≠ "") ids →
  (∀ st', shows st' (foldl (λ m id, <[id := None]> m) φ ids) → Q tt st') →
  wp (for_each ids (λ id, if bool_decide (id = "") then throw (invalid_argument "Token ID must not be empty.")
                          else modify (try_emplace id))) Q E st.
Proof.
  intros Hs Hd Hids. revert st φ Hs Hd. induction Hids as [|id ids Hid _ IH]; intros st φ Hs Hd HQ; simpl.
  { by apply wp_ret, HQ. }
  wp_step. rewrite bool_decide_eq_false_2 by done. wp_step. apply (IH _ (<[id := None]> φ)).
  - apply try_emplace_shows; [done|apply Hd].
  - intros id' d. destruct (decide (id = id')) as [->|Hne].
    + rewrite lookup_insert_eq. by intros [= <-].
    + rewrite lookup_insert_ne by done. apply Hd.
  - done.
Qed.

Lemma subscribed_fold ids φ :
  foldl (λ m id, <[id := None]> m) φ ids = subscribed ids ∪ φ.
Proof.
  unfold subscribed. revert φ. induction ids as [|id ids IH]; intros φ; simpl.
  { by rewrite gset_to_gmap_empty, (left_id_L ∅ (∪)). }
  rewrite IH, gset_to_gmap_union_singleton. apply map_eq. intros k.
  rewrite !lookup_union, lookup_gset_to_gmap, !lookup_insert.
  destruct (decide (id = k)) as [->|Hne]; [|by rewrite lookup_gset_to_gmap].
  by destruct (guard _), (φ !! k).
Qed.

Lemma new_market_state_shows {S} ids (σ : S) :
  ids ≠ [] → "" ∉ ids → ∃ st, new_market_state ids σ = (Ok st, σ) ∧ shows st (subscribed ids).
Proof.
  intros Hne Hids. cut (wp (new_market_state ids) (λ st σ', σ' = σ ∧ shows st (subscribed ids)) nothrow σ).
  { intros (st & ? & Hrun & -> & Hs)%wp_run. eauto. }
  unfold new_market_state. destruct ids as [|id ids]; [done|]. wp_step. wp_step.
  apply (wp_emplace_all _ ∅); [by intros ?; rewrite !lookup_empty; constructor|by intros ??; rewrite lookup_empty| |].
  - apply Forall_forall. intros x Hx ->. done.
  - intros st' Hs. wp_step. split; [done|]. by rewrite subscribed_fold, (right_id_L ∅ (∪)) in Hs.
Qed.

Section feed.
Context `{Json}.

Definition reporting (f : Feed) : Prop := ∃ φ, shows (states_ f) φ.

Lemma run_isolated_feed φ messages f :
  shows (states_ f) φ →
  shows (states_ (run_isolated process_message report_event messages f).1.1) (foldl spec_message φ messages).
Proof.
  revert φ f. induction messages as [|m rest IH]; intros φ [st c] Hs; [done|]. simpl.
  pose proof (wp_process_message φ m st c (λ _ f', shows (states_ f') (spec_message φ m))
    (λ _ f', shows (states_ f') (spec_message φ m)) Hs) as Hm.
  unfold wp in Hm. destruct (process_message m _) as [[u|e| |] f'].
  - specialize (IH _ _ (Hm ltac:(done) ltac:(done))). by destruct (run_isolated _ _ rest f') as [[] ].
  - specialize (Hm ltac:(done) ltac:(done)). specialize (IH (spec_message φ m) (report_event e f').2 Hm).
    by destruct (run_isolated _ _ rest _) as [[] ].
  - by destruct Hm.
  - by destruct Hm.
Qed.

Lemma process_payload_shows φ payload f :
  shows (states_ f) φ → is_array payload || is_object payload = true →
  ∃ f', process_payload payload f = (Ok tt, f') ∧ shows (states_ f') (spec_payload φ payload).
Proof.
  intros Hs Hk. destruct (dispatch_run process_message report_event reporting) with (payload := payload) (s := f)
    as (t & p & r & Hi & Hrun); [| |by exists φ|done|].
  - intros m [st c] [φ' Hφ]. apply (wp_process_message φ'); [done|by eexists..].
  - intros e [st c] [φ' Hφ]. unfold report_event, in_console. repeat wp_step. by eexists.
  - exists t. unfold process_payload, bind. rewrite Hrun. split; [done|].
    pose proof (run_isolated_feed φ (messages_of payload) f Hs) as Hf. by rewrite Hi in Hf.
Qed.

(** C30: a connection starts with an empty book for every subscribed token; then,
    whatever payloads arrive, no exception leaves their processing, and the books
    are at every moment what the accepted events make of them: a snapshot that is
    well formed and fits replaces the depths of its token, a change sets one price
    of a token that has its snapshot, the changes of one event are applied up to
    the first invalid one, and everything else is skipped. *)
Theorem market_feed_refines ids payloads (c : Console) :
  ids ≠ [] → "" ∉ ids → Forall (λ p, is_array p || is_object p = true) payloads →
  ∃ st f', new_market_state ids c = (Ok st, c) ∧
    for_each payloads process_payload (mkFeed st c) = (Ok tt, f') ∧
    shows (states_ f') (foldl spec_payload (subscribed ids) payloads).
Proof.
  intros Hne Hids Hp. destruct (new_market_state_shows ids c Hne Hids) as (st & Hst & Hs).
  exists st. cut (∃ f', for_each payloads process_payload (mkFeed st c) = (Ok tt, f') ∧
    shows (states_ f') (foldl spec_payload (subscribed ids) payloads)).
  { intros (f' & ? & ?). eauto. }
  clear Hst. change st with (states_ (mkFeed st c)) in Hs. revert Hs.
  generalize (mkFeed st c). generalize (subscribed ids). induction Hp as [|p ps Hk _ IH]; intros φ f Hs; simpl.
  { by exists f. }
  destruct (process_payload_shows φ p f Hs Hk) as (f1 & Hrun & Hs1). unfold bind. rewrite Hrun.
  by apply IH.
Qed.
End feed.

(** ** A connection on concrete messages *)

Definition level_text (price size : string) : tree :=
  TObject [("price", TString price); ("size", TString size)].

Definition book_text (asset_id : string) (bids asks : list tree) : tree :=
  TObject [("event_type", TString "book"); ("asset_id", TString asset_id);
           ("bids", TArray bids); ("asks", TArray asks)].

Definition change_text (asset_id price size side : string) : tree :=
  TObject [("asset_id", TString asset_id); ("price", TString price);
           ("size", TString size); ("side", TString side)].

Definition changes_text (changes : list tree) : tree :=
  TObject [("event_type", TString "price_change"); ("price_changes", TArray changes)].

Definition sample_json : Json := json_table [] (λ _, "").

(** A snapshot, then two changes the second of which has a bad price, together
    with an event of another token. *)
Definition sample_payloads : list (@json sample_json) :=
  [book_text "A" [level_text "0.45" "10"; level_text "0.4" "7.5"] [level_text "0.5" "3"];
   TArray [changes_text [change_text "A" "0.46" "2" "BUY"; change_text "A" "x" "1" "SELL";
                         change_text "A" "0.4" "0" "BUY"];
           book_text "B" [] []]].

Lemma market_feed_refines_witness :
  let c := mkConsole [] [] in
  ∃ st f', new_market_state ["A"; "A"] c = (Ok st, c) ∧
    for_each sample_payloads (process_payload (H:=sample_json)) (mkFeed st c) = (Ok tt, f') ∧
    shows (states_ f') (foldl (spec_payload (H:=sample_json)) (subscribed ["A"; "A"]) sample_payloads).
Proof.
  intros c. apply (market_feed_refines (H:=sample_json) ["A"; "A"] sample_payloads c).
  - done.
  - apply (bool_decide_eq_true_1 ("" ∉ ["A"; "A"])). reflexivity.
  - by repeat constructor.
Defined.

(** The books of that connection: the change before the bad one was applied, the
    one behind it was not. *)
Lemma sample_feed_book :
  let c := mkConsole [] [] in
  match new_market_state ["A"] c with
  | (Ok st, _) =>
      match for_each sample_payloads (process_payload (H:=sample_json)) (mkFeed st c) with
      | (Ok _, f) => book <$> states_ f !! "A" =
          Some (mkBook [mkLevel 460000 2000000; mkLevel 450000 10000000; mkLevel 400000 7500000]
                       [mkLevel 500000 3000000])
      | _ => False
      end
  | _ => False
  end.
Proof. vm_compute. reflexivity. Qed.

(** ** A crossed snapshot *)

Lemma crossed_depths b p q :
  book_wf b → 0 < book_depth Buy p b → 0 < book_depth Sell q b → q < p → crossed b = true.
Proof.
  intros Hwf Hb Ha Hpq. destruct (Hwf Buy) as [Sb Fb], (Hwf Sell) as [Sa Fa].
  unfold crossed, best_bid, best_ask, book_depth in *. simpl in *.
  destruct (bids_ b) as [|x bs]; [done|]. destruct (asks_ b) as [|y ys]; [done|]. cbn [head].
  assert (Hx : p ≤ level_price x).
  { destruct (decide (p ≤ level_price x)) as [|Hn]; [done|].
    rewrite (map_value_before_head Z.gtb) in Hb; [lia|by split|]. rewrite Z.gtb_ltb. apply Z.ltb_lt. lia. }
  assert (Hy : level_price y ≤ q).
  { destruct (decide (level_price y ≤ q)) as [|Hn]; [done|].
    rewrite (map_value_before_head Z.ltb) in Ha; [lia|by split|]. apply Z.ltb_lt. lia. }
  apply Z.ltb_lt. lia.
Qed.

(** C37: a snapshot whose best bid is above its best ask is applied, and then
    reported as an event that was ignored: printing the negative spread throws
    after the book has been replaced. *)
Theorem crossed_snapshot_reported_ignored `{Json} φ message st c id bs ys p q :
  shows st φ → is_array message = false → is_object message = true →
  text_member message "event_type" = Some "book" →
  spec_snapshot φ message = Some (id, bs, ys) →
  0 < total_at p bs → 0 < total_at q ys → q < p →
  ∃ f', process_payload message (mkFeed st c) = (Ok tt, f') ∧
    shows (states_ f') (<[id := Some (snapshot_depths bs ys)]> φ) ∧
    err_ (console_ f') = err_ c ++ ["Ignored invalid market event: "; "Price cannot be negative."; newline].
Proof.
  intros Hs Ha Ho Hev Hsn Hp Hq Hpq.
  assert (Hm : wp (process_message message) (λ _ _, False)
    (λ e f, e = negative_price ∧ shows (states_ f) (spec_book φ message) ∧ err_ (console_ f) = err_ c) (mkFeed st c)).
  { unfold process_message. rewrite Ho. cbn [negb]. wp_step. apply wp_has_string; [|congruence].
    intros t Ht. cbn [negb]. wp_step. apply (wp_get_member _ _ "book"); [done|]. says. cbn.
    apply (wp_process_book φ); [done| |].
    - intros st' c' Hs' _ Hx. destruct (Hx _ _ _ Hsn) as (tk & Htk & Hcr).
      unfold spec_book in Hs'. rewrite Hsn in Hs'.
      destruct (shows_some _ _ _ _ Hs' (lookup_insert_eq _ _ _)) as (tk' & Htk' & Hwf & _ & Hd).
      rewrite Htk in Htk'. injection Htk' as <-.
      rewrite (crossed_depths _ p q) in Hcr; [done|done|by rewrite Hd..|done].
    - intros ex st' c' Hs' He Hx. destruct (Hx _ _ _ Hsn) as [-> _].
      split_and!; [done|done|]. simpl. congruence. }
  destruct (wp_outcome _ _ _ _ Hm) as (r & f1 & Hrun & Hr). destruct r as [|e| |]; try done.
  destruct Hr as (-> & Hs1 & He). unfold spec_book in Hs1. rewrite Hsn in Hs1.
  exists (report_event negative_price f1).2. split_and!; [|done|].
  - unfold process_payload, dispatch, scoped, dispatch_one, try_catch, bind, outer, zoom. rewrite Ha, Ho. simpl.
    by rewrite Hrun.
  - simpl. by rewrite He, <- !app_assoc.
Qed.

Lemma crossed_snapshot_reported_ignored_witness :
  let J := sample_json in
  let message := book_text "A" [level_text "0.45" "10"] [level_text "0.4" "3"] in
  let c := mkConsole [] [] in
  let st := {["A" := mkToken empty_book false]} in
  ∃ f', process_payload (H:=J) message (mkFeed st c) = (Ok tt, f') ∧
    shows (states_ f') (<["A" := Some (snapshot_depths [mkLevel 450000 10000000] [mkLevel 400000 3000000])]>
                          (subscribed ["A"])) ∧
    err_ (console_ f') = ["Ignored invalid market event: "; "Price cannot be negative."; newline].
Proof.
  intros J message c st.
  apply (crossed_snapshot_reported_ignored (H:=J) (subscribed ["A"]) message st c "A"
    [mkLevel 450000 10000000] [mkLevel 400000 3000000] 450000 400000); [|reflexivity|reflexivity|reflexivity|vm_compute; reflexivity..].
  intros id. unfold st, subscribed. rewrite lookup_gset_to_gmap. destruct (decide (id = "A")) as [->|Hne].
  - rewrite lookup_singleton_eq, option_guard_True by set_solver. constructor. split; [apply book_wf_empty|done].
  - rewrite lookup_singleton_ne by done. rewrite option_guard_False by (intros Hin; by apply elem_of_list_to_set, list_elem_of_singleton in Hin). constructor.
Defined.

(** ** Message texts *)

Definition blank (l : list ascii) : Prop := Forall (λ c, c ∈ whitespace) l.

(** A text that neither starts nor ends with white space. *)
Definition trimmed_text (t : list ascii) : Prop :=
  (∃ c, head t = Some c ∧ c ∉ whitespace) ∧ ∃ c, last t = Some c ∧ c ∉ whitespace.

Section texts.
Context `{Json}.

(** What a text without the surrounding white space is taken for. *)
Definition classify (t : list ascii) : WebSocketParseResult :=
  if bool_decide (ascii_of_nat 0 ∈ t) then invalid_result "WebSocket message contains an embedded NUL byte."
  else if bool_decide (t = String.list_ascii_of_string "PONG") then mkParseResult pong json_null ""
  else
    match json_parse (String.string_of_list_ascii t) with
    | inl v =>
        if is_object v || is_array v then mkParseResult market_payload v ""
        else invalid_result "WebSocket JSON payload must be an object or array."
    | inr _ => invalid_result "WebSocket message contains invalid JSON."
    end.

Lemma find_first_blank w r : blank w → find_first_not_of whitespace (w ++ r) =
  (λ i, (length w + i)%nat) <$> find_first_not_of whitespace r.
Proof.
  induction 1 as [|c w Hc _ IH]; simpl; [by destruct (find_first_not_of whitespace r)|].
  rewrite bool_decide_eq_true_2, IH by done. by destruct (find_first_not_of whitespace r).
Qed.

Lemma find_last_app l c w :
  c ∉ whitespace → blank w → find_last_not_of whitespace (l ++ c :: w) = Some (length l).
Proof.
  intros Hc Hw. assert (Hn : find_last_not_of whitespace w = None).
  { induction Hw as [|x w Hx _ IH]; simpl; [done|]. by rewrite IH, bool_decide_eq_true_2. }
  induction l as [|x l IH]; simpl; [by rewrite Hn, bool_decide_eq_false_2|by rewrite IH].
Qed.

(** Every text is blank or has a trimmed part. *)
Lemma trim_cases m : blank m ∨ ∃ w1 t w2, m = w1 ++ t ++ w2 ∧ blank w1 ∧ blank w2 ∧ trimmed_text t.
Proof.
  induction m as [|c m [Hb|(w1 & t & w2 & -> & H1 & H2 & Ht)]]; [left; constructor| |].
  - destruct (decide (c ∈ whitespace)) as [Hc|Hc]; [left; by constructor|].
    right. exists [], [c], m. split_and!; [done|constructor|done|]. split; by exists c.
  - right. destruct (decide (c ∈ whitespace)) as [Hc|Hc].
    + exists (c :: w1), t, w2. split_and!; [done|by constructor|done|done].
    + exists [], (c :: w1 ++ t), w2. split_and!; [by simpl; rewrite <- app_assoc|constructor|done|].
      split; [by exists c|]. destruct Ht as [_ (d & Hd & Hdw)]. exists d. split; [|done].
      rewrite app_comm_cons, last_app, Hd. done.
Qed.

Lemma parse_trimmed w1 t w2 :
  blank w1 → blank w2 → trimmed_text t → parse (w1 ++ t ++ w2) = classify t.
Proof.
  intros H1 H2 [(c & Hc & Hcw) (d & Hd & Hdw)].
  assert (Hf : find_first_not_of whitespace (w1 ++ t ++ w2) = Some (length w1)).
  { rewrite find_first_blank by done. destruct t; [done|]. injection Hc as ->. simpl.
    rewrite bool_decide_eq_false_2 by done. simpl. by rewrite Nat.add_0_r. }
  apply last_Some in Hd as [t' ->].
  assert (Hl : find_last_not_of whitespace (w1 ++ (t' ++ [d]) ++ w2) = Some (length (w1 ++ t'))).
  { rewrite <- app_assoc, app_assoc. simpl. by apply find_last_app. }
  unfold parse. rewrite Hf, Hl. simpl.
  assert (Hsub : substr (w1 ++ (t' ++ [d]) ++ w2) (length w1) (length (w1 ++ t') - length w1 + 1) = t' ++ [d]).
  { unfold substr. rewrite drop_app_length, length_app.
    rewrite take_app_length'; [done|]. rewrite length_app. simpl. lia. }
  rewrite Hsub. unfold classify. simpl. destruct (bool_decide _); [done|]. destruct (bool_decide _); [done|].
  destruct (json_parse _) as [v|]; [|done]. by destruct (is_object v), (is_array v).
Qed.

(** C36: the classification of a message ignores white space around it and nothing
    else: every message is blank, and then invalid, or has a trimmed part that
    alone decides whether it is a PONG, a payload or invalid. *)
Theorem parse_classifies_trimmed m :
  (blank m ∧ parse m = invalid_result "WebSocket message is empty.") ∨
  ∃ w1 t w2, m = w1 ++ t ++ w2 ∧ blank w1 ∧ blank w2 ∧ trimmed_text t ∧ parse m = classify t.
Proof.
  destruct (trim_cases m) as [Hb|(w1 & t & w2 & -> & H1 & H2 & Ht)].
  - left. split; [done|]. unfold parse. rewrite <- (app_nil_r m). by rewrite find_first_blank.
  - right. exists w1, t, w2. split_and!; [done..|]. by apply parse_trimmed.
Qed.
End texts.

(** ** Subscriptions *)

(** The first occurrences, in their order. *)
Definition first_occurrences (l : list string) : list string := reverse (remove_dups (reverse l)).

Lemma first_occurrences_snoc l x :
  first_occurrences (l ++ [x]) = if decide (x ∈ l) then first_occurrences l else first_occurrences l ++ [x].
Proof.
  unfold first_occurrences. rewrite reverse_snoc. simpl. unfold decide_rel.
  destruct (list_elem_of_dec x (reverse l)) as [Hx|Hx], (decide (x ∈ l)) as [Hl|Hl];
    rewrite elem_of_reverse in Hx; try done. by rewrite reverse_cons.
Qed.

Lemma wp_unique_ids {S} pre l Q E (σ : S) :
  ("" ∉ l → Q (first_occurrences (pre ++ l)) σ) →
  ("" ∈ l → E (invalid_argument "Token ID must not be empty.") σ) →
  wp (unique_ids l (list_to_set pre) (first_occurrences pre)) Q E σ.
Proof.
  revert pre. induction l as [|x l IH]; intros pre HQ HE; simpl.
  { rewrite app_nil_r in HQ. apply wp_ret, HQ, not_elem_of_nil. }
  case_bool_decide; [subst; apply wp_throw, HE; by left|].
  assert (Hset : list_to_set (C:=gset string) (pre ++ [x]) = {[x]} ∪ list_to_set pre) 
    by (rewrite list_to_set_app_L; simpl; by rewrite (right_id_L ∅ (∪)), (comm_L (∪))).
  rewrite cons_middle, app_assoc in HQ.
  specialize (IH (pre ++ [x])). rewrite Hset, first_occurrences_snoc in IH.
  case_bool_decide as Hx; rewrite elem_of_list_to_set in Hx.
  - rewrite decide_True in IH by done. rewrite (subseteq_union_1_L {[x]}) in IH
      by by apply singleton_subseteq_l, elem_of_list_to_set.
    apply IH; intros; [apply HQ; by rewrite not_elem_of_cons|apply HE; by right].
  - rewrite decide_False in IH by done. apply IH; intros; [apply HQ; by rewrite not_elem_of_cons|apply HE; by right].
Qed.

(** The subscription lists every requested token once, in the order of the
    first occurrences; without a token, or with an empty one, it is refused. *)
Theorem build_market_lists_tokens_once `{Json} {S} ids (σ : S) :
  if decide (ids = [] ∨ "" ∈ ids) then ∃ w, build_market ids σ = (Throw (invalid_argument w), σ)
  else
    build_market ids σ = dump (subscription (first_occurrences ids)) σ ∧
    NoDup (first_occurrences ids) ∧ (∀ id, id ∈ first_occurrences ids ↔ id ∈ ids).
Proof.
  unfold build_market. case_decide as Hd.
  - destruct ids as [|x l]; [by eexists|]. exists "Token ID must not be empty.".
    destruct Hd as [|Hd]; [done|]. unfold bind.
    pose proof (wp_unique_ids (S:=S) [] (x :: l) (λ _ _, False)
      (λ e s, e = invalid_argument "Token ID must not be empty." ∧ s = σ) σ) as Hw. unfold wp in Hw.
    change (unique_ids (x :: l) ∅ [] σ) with (unique_ids (x :: l) (list_to_set []) (first_occurrences []) σ).
    destruct (unique_ids _ _ _ σ) as [[]]; [by destruct Hw|by destruct Hw as [-> ->]|by destruct Hw..].
  - assert (Hne : ids ≠ []) by auto. assert (Hids : "" ∉ ids) by auto. split_and!.
    + destruct ids as [|x l]; [done|]. unfold bind.
      rewrite (wp_exact _ σ (first_occurrences (x :: l)) σ); [done|].
      apply (wp_unique_ids []); [done|by intros].
    + unfold first_occurrences. rewrite reverse_Permutation. apply NoDup_remove_dups.
    + intros id. unfold first_occurrences. by rewrite elem_of_reverse, elem_of_remove_dups, elem_of_reverse.
Qed.

(** ** Printed quantities *)

Lemma drop_zeros_point a b : drop_zeros (a ++ "."%char :: b) = drop_zeros a ++ "."%char :: b.
Proof.
  induction a as [|c a IH]; [done|].
  destruct (decide (c = "0"%char)) as [->|Hc]; [exact IH|]. by destruct c as [[] [] [] [] [] [] [] []].
Qed.

Lemma drop_zeros_spec l : ∃ k, l = replicate k "0"%char ++ drop_zeros l.
Proof.
  induction l as [|c l [k IH]]; [by exists O|].
  destruct (decide (c = "0"%char)) as [->|Hc].
  - exists (S k). simpl. by rewrite <- IH.
  - exists O. by destruct c as [[] [] [] [] [] [] [] []].
Qed.

(** Dropping the zeros at the end of a fraction divides it by a power of ten. *)
Lemma strip_fraction P :
  digits P → ∃ k P', P = P' ++ replicate k "0"%char ∧ digits P' ∧
    rev (drop_zeros (rev P)) = P' ∧ decimal P = decimal P' * 10 ^ Z.of_nat k.
Proof.
  intros HP. destruct (drop_zeros_spec (rev P)) as [k Hk]. exists k, (rev (drop_zeros (rev P))).
  assert (Heq : P = rev (drop_zeros (rev P)) ++ replicate k "0"%char).
  { rewrite <- (rev_involutive P) at 1. rewrite Hk at 1. rewrite rev_app_distr. f_equal.
    rewrite rev_alt. apply reverse_replicate. }
  set (P' := rev (drop_zeros (rev P))) in *. split_and!; [done| |done|].
  - rewrite Heq in HP. by apply Forall_app in HP as [? _].
  - rewrite Heq at 1. unfold decimal. rewrite decimal_from_app. generalize (decimal_from 0 P'). clear.
    induction k as [|k IH]; intros a; [unfold decimal_from; simpl; lia|].
    rewrite replicate_S, Nat2Z.inj_succ, Z.pow_succ_r by lia.
    change (decimal_from a ("0"%char :: replicate k "0"%char)) with (decimal_from (a * 10 + 0) (replicate k "0"%char)).
    rewrite IH. ring.
Qed.

#[local] Opaque print_int64 pad_zero.

(** A printed quantity is a numeral that denotes it. *)
Lemma format_quantity_numeral q :
  0 ≤ q ≤ INT64_MAX →
  ∃ ws fs, numeral ws fs (String.list_ascii_of_string (format_quantity q)) ∧ ws ≠ [] ∧ fixed_value ws fs = q.
Proof.
  intros Hq. pose proof (Z.div_mod q 1000000 ltac:(lia)) as Hdm.
  pose proof (Z.mod_pos_bound q 1000000 ltac:(lia)) as Hmod. pose proof (div_le_self q 1000000 ltac:(lia) ltac:(lia)) as Hdiv.
  unfold format_quantity, ticks_per_unit, print_signed.
  rewrite Z.quot_div_nonneg, Z.rem_mod_nonneg, String.list_ascii_of_string_of_list_ascii by lia.
  rewrite !(proj2 (Z.ltb_ge _ 0)) by lia.
  destruct (print_int64_spec (q / 1000000)) as (Hw & Hwne & Hwv & _); [mlia|].
  destruct (q mod 1000000 =? 0) eqn:H0; zb; cbn [negb].
  - exists (print_int64 (q / 1000000)), []. split_and!; [|done|].
    + split_and!; [done|constructor|simpl; lia| |exists false; by rewrite app_nil_r].
      destruct (print_int64 _); [done|simpl; lia].
    + unfold fixed_value. rewrite Hwv. unfold ticks_per_unit, decimal, decimal_from. simpl. lia.
  - destruct (print_int64_spec (q mod 1000000)) as (Hf & _ & Hfv & Hfl); [mlia|].
    destruct (pad_zero_spec 6 (print_int64 (q mod 1000000)) Hf) as (Hp & Hpl & Hpv); [apply Hfl; lia|].
    destruct (strip_fraction _ Hp) as (k & P' & HP & HP' & Hrev & Hdec).
    assert (Hlen : (length P' + k = 6)%nat) by (rewrite HP, length_app, length_replicate in Hpl; lia).
    exists (print_int64 (q / 1000000)), P'. split_and!; [|done|].
    + split_and!; [done|done|lia| |exists true; split; [|done]].
      * destruct (print_int64 (q / 1000000)); [done|simpl; lia].
      * rewrite rev_app_distr. simpl. rewrite <- app_assoc. simpl. rewrite drop_zeros_point, rev_app_distr. simpl.
        by rewrite rev_involutive, <- app_assoc, Hrev.
    + unfold fixed_value, ticks_per_unit. rewrite Hwv. replace (6 - Z.of_nat (length P')) with (Z.of_nat k) by lia.
      rewrite <- Hdec, Hpv, Hfv. lia.
Qed.

(** A printed quantity reads back as itself, with no digit lost, for every
    quantity a book can hold. *)
Theorem format_quantity_round_trip {S} q (σ : S) :
  0 ≤ q ≤ INT64_MAX → quantity_to_fixed (format_quantity q) σ = (Ok q, σ).
Proof.
  intros Hq. destruct (format_quantity_numeral q Hq) as (ws & fs & Hn & Hne & Hv).
  unfold quantity_to_fixed. rewrite <- Hv at 2. apply parse_fixed_numeral; [|lia].
  destruct Hn as (Hws & Hr). destruct ws as [|c ws]; [done|].
  assert (Hu : unsign (String.list_ascii_of_string (format_quantity q)) = String.list_ascii_of_string (format_quantity q)).
  { destruct Hr as (_ & _ & _ & point & -> & _). apply Forall_cons in Hws as [Hc _]. simpl.
    destruct c as [[] [] [] [] [] [] [] []]; done. }
  rewrite Hu. by split.
Qed.

Lemma format_quantity_round_trip_witness :
  quantity_to_fixed (format_quantity 7500000) tt = (Ok 7500000, tt).
Proof. apply (format_quantity_round_trip 7500000 tt). unfold INT64_MAX. lia. Defined.
