(* ===== verification/Heartbeat.v ===== *)
(** * Heartbeat and backoff

    [include/heartbeat_state.hpp] and [include/reconnect_backoff.hpp].  A time
    point of the steady clock is its count of nanoseconds, a signed 64-bit
    number. *)
From S2P Require Import Prelude.

Local Open Scope Z_scope.

(** ** HeartbeatState *)

Definition seconds (n : Z) : Z := n * 1000000000.

Definition heartbeat_interval : Z := seconds 10.
Definition pong_timeout : Z := seconds 20.

Record HeartbeatState : Type := mkHeartbeat {
  next_ping_at_ : Z;
  ping_sent_at_ : Z;
  awaiting_pong_ : bool
}.

Definition new_heartbeat {S} (now : Z) : M S HeartbeatState :=
  let* next := add64 now heartbeat_interval in ret (mkHeartbeat next 0 false).

Definition should_send_ping (now : Z) (h : HeartbeatState) : bool := now >=? next_ping_at_ h.

Definition on_ping_sent (now : Z) : M HeartbeatState unit :=
  let* h := gets id in
  when (negb (awaiting_pong_ h)) (modify (λ h, mkHeartbeat (next_ping_at_ h) now true)) ;;;
  let* next := add64 now heartbeat_interval in
  modify (λ h, mkHeartbeat next (ping_sent_at_ h) (awaiting_pong_ h)).

Definition on_pong_received : M HeartbeatState unit :=
  modify (λ h, mkHeartbeat (next_ping_at_ h) (ping_sent_at_ h) false).

Definition pong_timed_out (now : Z) : M HeartbeatState bool :=
  let* h := gets id in
  if awaiting_pong_ h then
    let* elapsed := sub64 now (ping_sent_at_ h) in ret (elapsed >=? pong_timeout)
  else ret false.

Definition reset_heartbeat (now : Z) : M HeartbeatState unit :=
  modify (λ h, mkHeartbeat (next_ping_at_ h) now false) ;;;
  let* next := add64 now heartbeat_interval in
  modify (λ h, mkHeartbeat next (ping_sent_at_ h) (awaiting_pong_ h)).

(** ** ReconnectBackoff *)

Definition initial_delay_seconds : Z := 1.
Definition maximum_delay_seconds : Z := 30.

(** Arithmetic on [int]. *)
Definition checked32 {S} (x : Z) : M S Z :=
  if (-2147483648 <=? x) && (x <=? 2147483647) then ret x else undefined.

Definition advance : M Z unit := λ current_delay_seconds,
  (let* doubled := checked32 (current_delay_seconds * 2) in
   modify (λ _, Z.min doubled maximum_delay_seconds)) current_delay_seconds.

Definition reset_backoff : M Z unit := modify (λ _, initial_delay_seconds).

(** ** The history of a heartbeat *)

Inductive heartbeat_event : Type :=
| PingSent (now : Z)
| PongReceived
| HeartbeatReset (now : Z).

Definition heartbeat_step (ev : heartbeat_event) : M HeartbeatState unit :=
  match ev with
  | PingSent now => on_ping_sent now
  | PongReceived => on_pong_received
  | HeartbeatReset now => reset_heartbeat now
  end.

Definition is_ping (ev : heartbeat_event) : Prop := match ev with PingSent _ => True | _ => False end.

(** The time of an event that has one. *)
Definition event_time (ev : heartbeat_event) : option Z :=
  match ev with PingSent t | HeartbeatReset t => Some t | PongReceived => None end.

(** Times at which ten seconds can be added. *)
Definition clock_range (t : Z) : Prop := 0 ≤ t ≤ INT64_MAX - heartbeat_interval.

Definition timed (ev : heartbeat_event) : Prop := ∀ t, event_time ev = Some t → clock_range t.

(** Some ping since the last answer was sent at [t]. *)
Definition unanswered (t : Z) (tr : list heartbeat_event) : Prop :=
  ∃ pre post, tr = pre ++ PingSent t :: post ∧ Forall is_ping post.

(** The state remembers the oldest unanswered ping. *)
Definition heartbeat_inv (tr : list heartbeat_event) (h : HeartbeatState) : Prop :=
  (awaiting_pong_ h = true → unanswered (ping_sent_at_ h) tr ∧ clock_range (ping_sent_at_ h)) ∧
  (∀ t, unanswered t tr → awaiting_pong_ h = true ∧ ping_sent_at_ h ≤ t).

Lemma unanswered_snoc t tr ev :
  unanswered t (tr ++ [ev]) ↔ ev = PingSent t ∨ (is_ping ev ∧ unanswered t tr).
Proof.
  split.
  - intros (pre & post & Heq & Hp). destruct post as [|x post' _] using rev_ind.
    + apply app_inj_tail in Heq as [_ ->]. by left.
    + rewrite app_comm_cons, app_assoc in Heq. apply app_inj_tail in Heq as [-> ->].
      apply Forall_app in Hp as [Hp [Hx _]%Forall_cons]. right. split; [done|]. by exists pre, post'.
  - intros [->|[Hp (pre & post & -> & Hpost)]].
    + by exists tr, [].
    + exists pre, (post ++ [ev]). split; [by rewrite app_comm_cons, app_assoc|].
      apply Forall_app. split; [done|by repeat constructor].
Qed.

Definition times (tr : list heartbeat_event) : list Z := omap event_time tr.

(** The clock does not go back. *)
Definition chronological (tr : list heartbeat_event) : Prop :=
  StronglySorted Z.le (times tr) ∧ Forall timed tr.

Lemma unanswered_time t tr : unanswered t tr → t ∈ times tr.
Proof. intros (pre & post & -> & _). unfold times. rewrite omap_app. set_solver. Qed.

Lemma chronological_snoc tr ev :
  chronological (tr ++ [ev]) →
  chronological tr ∧ timed ev ∧ ∀ t u, event_time ev = Some t → unanswered u tr → u ≤ t.
Proof.
  intros [Hs [Ht [Hev _]%Forall_cons]%Forall_app]. unfold chronological, times in *. rewrite omap_app in Hs.
  split_and!; [by eapply StronglySorted_app_1_l|done|done|].
  intros t u Hu Hun%unanswered_time. simpl in Hs. rewrite Hu in Hs.
  by eapply (StronglySorted_app_1_elem_of Z.le); [exact Hs|done|left].
Qed.

Lemma heartbeat_inv_step tr ev h :
  heartbeat_inv tr h → timed ev → (∀ t u, event_time ev = Some t → unanswered u tr → u ≤ t) →
  wp (heartbeat_step ev) (λ _, heartbeat_inv (tr ++ [ev])) nothrow h.
Proof.
  intros [H1 H2] Ht Hle. destruct ev as [now| |now]; simpl.
  - assert (Hr : clock_range now) by by apply Ht. unfold clock_range in Hr.
    unfold on_ping_sent. do 3 wp_step. unfold id.
    assert (Hi : int64 (now + heartbeat_interval)) by (unfold heartbeat_interval, seconds in *; mlia).
    apply wp_when; intros Ha; [wp_step|]; (wp_step; wp_step; [done|]; wp_step);
      unfold heartbeat_inv; setoid_rewrite unanswered_snoc; simpl.
    + apply negb_true_iff in Ha. split; [by auto|]. intros t [[= <-]|[_ Hu]]; [done|].
      destruct (H2 t Hu) as [Ha' _]. congruence.
    + apply negb_false_iff in Ha. split.
      * intros _. destruct (H1 Ha). auto.
      * intros t [[= <-]|[_ Hu]]; [|auto]. split; [done|]. destruct (H1 Ha) as [Hu _]. by apply (Hle now).
  - unfold on_pong_received. wp_step. unfold heartbeat_inv. setoid_rewrite unanswered_snoc. simpl. split; [done|]. by intros t [|[[] _]].
  - assert (Hr : clock_range now) by by apply Ht. unfold clock_range in Hr.
    unfold reset_heartbeat. wp_steps; [unfold heartbeat_interval, seconds in *; mlia|].
    unfold heartbeat_inv. setoid_rewrite unanswered_snoc. simpl. split; [done|]. by intros t [|[[] _]].
Qed.

Lemma heartbeat_run tr h :
  awaiting_pong_ h = false → chronological tr →
  ∃ h', for_each tr heartbeat_step h = (Ok tt, h') ∧ heartbeat_inv tr h'.
Proof.
  intros Ha. induction tr as [|ev tr IH] using rev_ind; intros Hc.
  { exists h. split; [done|]. split; [congruence|]. intros t (pre & post & Heq & _). by destruct pre. }
  apply chronological_snoc in Hc as (Hc & Ht & Hle). destruct (IH Hc) as (h1 & Hrun & Hinv).
  destruct (wp_run _ _ _ (heartbeat_inv_step tr ev h1 Hinv Ht Hle)) as ([] & h2 & Hst & Hinv').
  exists h2. split; [|done]. rewrite for_each_app. unfold bind at 1. rewrite Hrun. simpl. unfold bind. by rewrite Hst.
Qed.

(** C35: the heartbeat reports a timeout exactly when some ping since the last
    PONG, or since the start, was sent twenty seconds ago or earlier: neither
    later pings nor answers to older ones postpone it, and nothing overflows
    within the range of the clock. *)
Theorem heartbeat_timeout_iff tr t0 now :
  clock_range t0 → clock_range now → chronological tr →
  ∃ h0 h b, new_heartbeat t0 tt = (Ok h0, tt) ∧ for_each tr heartbeat_step h0 = (Ok tt, h) ∧
    pong_timed_out now h = (Ok b, h) ∧
    (b = true ↔ ∃ t, unanswered t tr ∧ pong_timeout ≤ now - t).
Proof.
  intros H0 Hn Hc. exists (mkHeartbeat (t0 + heartbeat_interval) 0 false).
  destruct (heartbeat_run tr (mkHeartbeat (t0 + heartbeat_interval) 0 false) eq_refl Hc) as (h & Hrun & H1 & H2).
  exists h.
  cut (wp (pong_timed_out now) (λ b h', h' = h ∧ (b = true ↔ ∃ t, unanswered t tr ∧ pong_timeout ≤ now - t)) nothrow h).
  { intros (b & h' & Hb & -> & Hiff)%wp_run. exists b. split_and!; [|done..].
    apply wp_exact. unfold new_heartbeat. wp_steps; [|done].
    unfold clock_range, heartbeat_interval, seconds in *. mlia. }
  unfold pong_timed_out. do 2 wp_step. unfold id. destruct (awaiting_pong_ h) eqn:Ha.
  - destruct (H1 eq_refl) as [Hu Hr]. unfold clock_range, heartbeat_interval, seconds in *.
    wp_steps; [mlia|]. split; [done|]. rewrite Z.geb_leb, Z.leb_le. split; [eauto|].
    intros (t & Ht & Hle). destruct (H2 t Ht) as [_ ?]. lia.
  - wp_step. split; [done|]. split; [done|]. intros (t & Ht & _). destruct (H2 t Ht). congruence.
Qed.

Lemma heartbeat_timeout_iff_witness :
  let tr := [PingSent (seconds 10); PongReceived; PingSent (seconds 20); PingSent (seconds 30)] in
  ∃ h0 h b, new_heartbeat 0 tt = (Ok h0, tt) ∧ for_each tr heartbeat_step h0 = (Ok tt, h) ∧
    pong_timed_out (seconds 40) h = (Ok b, h) ∧
    (b = true ↔ ∃ t, unanswered t tr ∧ pong_timeout ≤ seconds 40 - t).
Proof.
  intros tr. apply (heartbeat_timeout_iff tr 0 (seconds 40)).
  - by unfold clock_range, heartbeat_interval, seconds, INT64_MAX.
  - by unfold clock_range, heartbeat_interval, seconds, INT64_MAX.
  - split; [repeat constructor; by unfold seconds|].
    unfold tr. rewrite !Forall_cons, Forall_nil.
    split_and!; try done; intros t [= <-]; by unfold clock_range, heartbeat_interval, seconds, INT64_MAX.
Defined.

(** After [n] failed attempts in a row the delay is [2^n] seconds, capped at
    thirty, and a message from the server brings it back to one second. *)
Theorem backoff_doubles_to_thirty n :
  for_each (replicate n tt) (λ _, advance) initial_delay_seconds =
    (Ok tt, Z.min (2 ^ Z.of_nat n) maximum_delay_seconds) ∧
  (let* _ := for_each (replicate n tt) (λ _, advance) in reset_backoff) initial_delay_seconds =
    (Ok tt, initial_delay_seconds).
Proof.
  cut (for_each (replicate n tt) (λ _, advance) initial_delay_seconds =
    (Ok tt, Z.min (2 ^ Z.of_nat n) maximum_delay_seconds)).
  { intros Hr. split; [done|]. unfold bind. by rewrite Hr. }
  unfold maximum_delay_seconds.
  induction n as [|n IH]; [done|]. rewrite replicate_S_end, for_each_app. unfold bind at 1. rewrite IH.
  rewrite Nat2Z.inj_succ, Z.pow_succ_r by lia. pose proof (Z.pow_pos_nonneg 2 (Z.of_nat n)).
  set (d := Z.min (2 ^ Z.of_nat n) 30). simpl. unfold bind, advance, checked32.
  rewrite (proj2 (Z.leb_le (-2147483648) (d * 2))), (proj2 (Z.leb_le (d * 2) 2147483647)) by lia.
  cbn. f_equal. unfold maximum_delay_seconds, d. lia.
Qed.
