(* ===== verification/Connection.v ===== *)
(** * A connection of the market stream

    The handlers that [WebSocketClient::stream_market] runs on its [io_context].
    The asynchronous operations that were started and
    have not completed are counted in the state.  What Asio and Beast do with
    them is the choice of an event: a completion needs an operation that is
    outstanding, and a wait reports [operation_aborted] only when it was
    cancelled.  Handlers run one at a time, on the thread that called [run]. *)
From S2P Require Import Prelude Json MarketFeed FeedClient Heartbeat.
From Stdlib Require Import Ascii.
From Stdlib Require String.

Local Open Scope Z_scope.

Inductive error_code : Type := closed | operation_aborted | other_error.

Record io_error : Type := mkError { code : error_code; message : string }.

(** The socket under the connection: in use, with its operations cancelled, or
    closed. *)
Inductive socket_state : Type := socket_active | socket_cancelled | socket_closed.

Record Connection : Type := mkConnection {
  feed_ : Feed;
  heartbeat : HeartbeatState;
  reconnect_backoff : Z;
  shutdown_requested : bool;
  connection_stopped : bool;
  force_close : bool;
  heartbeat_write_in_progress : bool;
  reads : nat;
  writes : nat;
  waits : nat;
  timer_cancelled : bool;
  socket : socket_state
}.

Definition set_feed f c := mkConnection f (heartbeat c) (reconnect_backoff c) (shutdown_requested c)
  (connection_stopped c) (force_close c) (heartbeat_write_in_progress c) (reads c) (writes c) (waits c) (timer_cancelled c) (socket c).
Definition set_heartbeat h c := mkConnection (feed_ c) h (reconnect_backoff c) (shutdown_requested c)
  (connection_stopped c) (force_close c) (heartbeat_write_in_progress c) (reads c) (writes c) (waits c) (timer_cancelled c) (socket c).
Definition set_backoff d c := mkConnection (feed_ c) (heartbeat c) d (shutdown_requested c)
  (connection_stopped c) (force_close c) (heartbeat_write_in_progress c) (reads c) (writes c) (waits c) (timer_cancelled c) (socket c).
Definition set_shutdown c := mkConnection (feed_ c) (heartbeat c) (reconnect_backoff c) true
  (connection_stopped c) (force_close c) (heartbeat_write_in_progress c) (reads c) (writes c) (waits c) (timer_cancelled c) (socket c).
Definition set_stopped c := mkConnection (feed_ c) (heartbeat c) (reconnect_backoff c) (shutdown_requested c)
  true (force_close c) (heartbeat_write_in_progress c) (reads c) (writes c) (waits c) (timer_cancelled c) (socket c).
Definition set_force_close c := mkConnection (feed_ c) (heartbeat c) (reconnect_backoff c) (shutdown_requested c)
  (connection_stopped c) true (heartbeat_write_in_progress c) (reads c) (writes c) (waits c) (timer_cancelled c) (socket c).
Definition set_writing b c := mkConnection (feed_ c) (heartbeat c) (reconnect_backoff c) (shutdown_requested c)
  (connection_stopped c) (force_close c) b (reads c) (writes c) (waits c) (timer_cancelled c) (socket c).
Definition set_reads n c := mkConnection (feed_ c) (heartbeat c) (reconnect_backoff c) (shutdown_requested c)
  (connection_stopped c) (force_close c) (heartbeat_write_in_progress c) n (writes c) (waits c) (timer_cancelled c) (socket c).
Definition set_writes n c := mkConnection (feed_ c) (heartbeat c) (reconnect_backoff c) (shutdown_requested c)
  (connection_stopped c) (force_close c) (heartbeat_write_in_progress c) (reads c) n (waits c) (timer_cancelled c) (socket c).
Definition set_waits n c := mkConnection (feed_ c) (heartbeat c) (reconnect_backoff c) (shutdown_requested c)
  (connection_stopped c) (force_close c) (heartbeat_write_in_progress c) (reads c) (writes c) n (timer_cancelled c) (socket c).
Definition set_cancelled b c := mkConnection (feed_ c) (heartbeat c) (reconnect_backoff c) (shutdown_requested c)
  (connection_stopped c) (force_close c) (heartbeat_write_in_progress c) (reads c) (writes c) (waits c) b (socket c).
Definition set_socket k c := mkConnection (feed_ c) (heartbeat c) (reconnect_backoff c) (shutdown_requested c)
  (connection_stopped c) (force_close c) (heartbeat_write_in_progress c) (reads c) (writes c) (waits c) (timer_cancelled c) k.

Definition in_feed {A} (m : M Feed A) : M Connection A := zoom feed_ set_feed m.
Definition in_heartbeat {A} (m : M HeartbeatState A) : M Connection A := zoom heartbeat set_heartbeat m.
Definition in_backoff {A} (m : M Z A) : M Connection A := zoom reconnect_backoff set_backoff m.

Definition tell (t : string) : M Connection unit := in_feed (in_console (cout t)).
Definition warn (t : string) : M Connection unit := in_feed (in_console (cerr t)).

(** What the client uses of its timer and of its socket: a cancelled wait
    completes as aborted, and so does a wait whose expiry is set anew; the reads
    and writes of a cancelled socket complete as aborted too. *)
Definition async_read : M Connection unit := modify (λ c, set_reads (reads c + 1) c).
Definition async_write : M Connection unit := modify (λ c, set_writes (writes c + 1) c).
Definition async_wait : M Connection unit := modify (λ c, set_waits (waits c + 1) c).
Definition cancel_timer : M Connection unit := modify (set_cancelled true).
Definition cancel_socket : M Connection unit := modify (set_socket socket_cancelled).
Definition expires_after : M Connection unit :=
  modify (λ c, if (0 <? waits c)%nat then set_cancelled true c else c).

(** ** The handlers *)

Definition stop_connection : M Connection unit :=
  let* stopped := gets connection_stopped in
  if stopped then ret tt
  else modify set_stopped ;;; cancel_timer ;;; cancel_socket.

Definition drop_connection : M Connection unit := modify set_force_close ;;; stop_connection.

Definition start_read : M Connection unit :=
  let* c := gets id in
  if connection_stopped c || shutdown_requested c then ret tt else async_read.

Section handlers.
Context `{Json}.

(** The handlers around [process_payload]. *)
Definition handle_payload (payload : json) : M Connection unit :=
  try_catch (in_feed (process_payload payload)) (λ error,
    match error with
    | json_exception _ => warn "Ignored malformed market payload: " ;;; warn (what error) ;;; warn newline
    | _ => warn "Ignored invalid market event: " ;;; warn (what error) ;;; warn newline
    end).

Definition on_read (result : list ascii + io_error) : M Connection unit :=
  let* c := gets id in
  if connection_stopped c then ret tt
  else if shutdown_requested c then stop_connection
  else
    match result with
    | inr error =>
        match code error with
        | closed => warn "WebSocket connection closed by server." ;;; warn newline
        | _ => warn "WebSocket read error: " ;;; warn (message error) ;;; warn newline
        end ;;;
        drop_connection
    | inl response =>
        in_backoff reset_backoff ;;;
        let parse_result := parse response in
        match kind parse_result with
        | pong =>
            in_heartbeat on_pong_received ;;;
            tell ("Heartbeat PONG received" +:+ newline) ;;;
            start_read
        | invalid =>
            warn "Ignored invalid WebSocket message: " ;;; warn (error_message parse_result) ;;; warn newline ;;;
            start_read
        | market_payload =>
            handle_payload (payload parse_result) ;;;
            start_read
        end
    end.

Definition schedule_heartbeat : M Connection unit :=
  let* stopped := gets connection_stopped in
  if stopped then ret tt else expires_after ;;; async_wait.

Definition is_aborted (error : option io_error) : bool :=
  match error with Some e => match code e with operation_aborted => true | _ => false end | None => false end.

Definition on_wait (error : option io_error) (now : Z) : M Connection unit :=
  let* c := gets id in
  if connection_stopped c then ret tt
  else if is_aborted error then ret tt
  else
    match error with
    | Some e =>
        warn "Heartbeat timer error: " ;;; warn (message e) ;;; warn newline ;;;
        drop_connection
    | None =>
        if shutdown_requested c then stop_connection
        else
          let* timed_out := in_heartbeat (pong_timed_out now) in
          if timed_out then
            warn "WebSocket heartbeat timeout: no PONG received within 20 seconds." ;;; warn newline ;;;
            drop_connection
          else
            when (should_send_ping now (heartbeat c) && negb (heartbeat_write_in_progress c)) (
              modify (set_writing true) ;;;
              in_heartbeat (on_ping_sent now) ;;;
              async_write) ;;;
            schedule_heartbeat
    end.

Definition on_write (error : option io_error) : M Connection unit :=
  modify (set_writing false) ;;;
  let* stopped := gets connection_stopped in
  if stopped then ret tt
  else
    match error with
    | Some e =>
        warn "WebSocket heartbeat write error: " ;;; warn (message e) ;;; warn newline ;;;
        drop_connection
    | None => tell ("Heartbeat PING sent" +:+ newline)
    end.

(** A fresh connection, up to the call of [run]. *)
Definition open_connection (token_ids : list string) (backoff now : Z) (console : Console)
    : M Connection unit :=
  let* market_state := new_market_state token_ids in
  let* h := new_heartbeat now in
  modify (λ c, mkConnection (mkFeed market_state console) h backoff (shutdown_requested c)
                 false false false 0 0 0 false socket_active) ;;;
  start_read ;;;
  schedule_heartbeat.

(** ** Events of the loop *)

Inductive io_event : Type :=
| ReadDone (result : list ascii + io_error)
| WaitDone (error : option io_error) (now : Z)
| WriteDone (error : option io_error)
| SignalReceived.

(** A completion takes the operation off the list and calls its handler. *)
Definition run_event (ev : io_event) : M Connection unit :=
  match ev with
  | ReadDone result => modify (λ c, set_reads (reads c - 1) c) ;;; on_read result
  | WaitDone error now => modify (λ c, set_waits (waits c - 1) c) ;;; on_wait error now
  | WriteDone error => modify (λ c, set_writes (writes c - 1) c) ;;; on_write error
  | SignalReceived => modify set_shutdown
  end.

Definition enabled (c : Connection) (ev : io_event) : Prop :=
  match ev with
  | ReadDone _ => (0 < reads c)%nat
  | WaitDone error now =>
      (0 < waits c)%nat ∧ (is_aborted error = true → timer_cancelled c = true) ∧ clock_range now
  | WriteDone _ => (0 < writes c)%nat
  | SignalReceived => True
  end.

(** The operations that [io_context.run] waits for. *)
Definition outstanding (c : Connection) : nat := (reads c + writes c + waits c)%nat.

(** The completions that Asio owes the client: a wait ends when it expires or is
    cancelled; a read or a write depends on the peer until the socket under it is
    cancelled, which completes it. *)
Definition due (c : Connection) (ev : io_event) : Prop :=
  enabled c ev ∧
  match ev with
  | WaitDone _ _ => True
  | ReadDone _ | WriteDone _ => socket c = socket_cancelled
  | SignalReceived => False
  end.

(** The text of an event that the handler looks at. *)
Definition text_of (c : Connection) (ev : io_event) : list (list ascii) :=
  match ev with
  | ReadDone (inl text) => if connection_stopped c || shutdown_requested c then [] else [text]
  | _ => []
  end.

(** A run of the loop: its events, and the texts that were looked at. *)
Inductive connection_runs : Connection → list io_event → list (list ascii) → Connection → Prop :=
| runs_nil c : connection_runs c [] [] c
| runs_snoc c tr texts c1 ev c2 :
    connection_runs c tr texts c1 → enabled c1 ev → run_event ev c1 = (Ok tt, c2) →
    connection_runs c (tr ++ [ev]) (texts ++ text_of c1 ev) c2.
End handlers.
