(* ===== verification/ConnectionTheorems.v ===== *)
(** * Theorems about a connection

    The invariant of the handlers, by induction on the runs of the loop: one
    operation of each kind at most, none that is forgotten, and books that are
    what the texts read so far make of them. *)
From S2P Require Import Prelude Orders OrderBook EngineSpec Json MarketFeed FeedClient FeedSpec FeedEvents.
From S2P Require Import FeedTheorems Heartbeat Connection.
From Stdlib Require Import Ascii.
From Stdlib Require String.

Local Open Scope Z_scope.

Section invariant.
Context `{Json}.

(** What a text does to the view. *)
Definition spec_text (φ : View) (text : list ascii) : View :=
  match kind (parse text) with
  | market_payload => spec_payload φ (payload (parse text))
  | _ => φ
  end.

(** The completions that end a connection. *)
Definition fails (ev : io_event) : bool :=
  match ev with ReadDone (inr _) | WaitDone (Some _) _ | WriteDone (Some _) => true | _ => false end.

Record connection_inv (φ : View) (c : Connection) : Prop := {
  inv_reads : (reads c ≤ 1)%nat;
  inv_waits : (waits c ≤ 1)%nat;
  inv_writes : writes c = if heartbeat_write_in_progress c then 1%nat else O;
  inv_shows : shows (states_ (feed_ c)) φ;
  inv_clock : awaiting_pong_ (heartbeat c) = true → clock_range (ping_sent_at_ (heartbeat c));
  inv_alive : connection_stopped c = false →
    waits c = 1%nat ∧ timer_cancelled c = false ∧ (reads c = 1%nat ∨ shutdown_requested c = true);
  inv_cancelled : connection_stopped c = true → timer_cancelled c = true ∧ socket c = socket_cancelled
}.

(** The outcome of a handler: the invariant, no new operation once the
    connection is to end, an unanswered ping stays unanswered without a PONG, and
    a timeout that is noticed ends the connection. *)
Record handled (φ : View) (ev : io_event) (c c' : Connection) : Prop := {
  handled_inv : connection_inv (foldl spec_text φ (text_of c ev)) c';
  handled_drains : connection_stopped c || shutdown_requested c = true → (outstanding c' < outstanding c)%nat;
  handled_stays : (connection_stopped c = true → connection_stopped c' = true) ∧
                  shutdown_requested c' = shutdown_requested c;
  handled_backoff : reconnect_backoff c' = reconnect_backoff c ∨ reconnect_backoff c' = initial_delay_seconds;
  handled_fails : fails ev = true → connection_stopped c' || shutdown_requested c = true;
  handled_waiting : Forall (λ x, kind (parse x) ≠ pong) (text_of c ev) → awaiting_pong_ (heartbeat c) = true →
    awaiting_pong_ (heartbeat c') = true ∧ ping_sent_at_ (heartbeat c') = ping_sent_at_ (heartbeat c);
  handled_timeout : ∀ now, ev = WaitDone None now → awaiting_pong_ (heartbeat c) = true →
    pong_timeout ≤ now - ping_sent_at_ (heartbeat c) → connection_stopped c' = true
}.

(** What the parser accepts can be dispatched. *)
Lemma parse_kind text :
  kind (parse text) = market_payload → is_array (payload (parse text)) || is_object (payload (parse text)) = true.
Proof.
  unfold parse. destruct (find_first_not_of _ _); [|done]. destruct (bool_decide _); [done|].
  destruct (bool_decide _); [done|]. destruct (json_parse _) as [v|]; [|done].
  destruct (is_object v) eqn:Ho, (is_array v) eqn:Ha; simpl; rewrite ?Ho, ?Ha; done.
Qed.

(** Console output leaves everything else alone. *)
Lemma wp_tell t c Q E :
  (∀ k, Q tt (set_feed (mkFeed (states_ (feed_ c)) k) c)) → wp (tell t) Q E c.
Proof. intros HQ. unfold tell, in_feed, in_console, cout. repeat wp_step. apply HQ. Qed.

Lemma wp_warn t c Q E :
  (∀ k, Q tt (set_feed (mkFeed (states_ (feed_ c)) k) c)) → wp (warn t) Q E c.
Proof. intros HQ. unfold warn, in_feed, in_console, cerr. repeat wp_step. apply HQ. Qed.

Lemma wp_stop_connection c (Q : unit → Connection → Prop) E :
  connection_stopped c = false → Q tt (set_socket socket_cancelled (set_cancelled true (set_stopped c))) → wp stop_connection Q E c.
Proof. intros Hs HQ. unfold stop_connection. do 2 wp_step. rewrite Hs. by repeat wp_step. Qed.

Lemma wp_drop_connection c (Q : unit → Connection → Prop) E :
  connection_stopped c = false → Q tt (set_socket socket_cancelled (set_cancelled true (set_stopped (set_force_close c)))) →
  wp drop_connection Q E c.
Proof. intros Hs HQ. unfold drop_connection. do 2 wp_step. by apply wp_stop_connection. Qed.

Lemma wp_handle_payload φ p c Q E :
  shows (states_ (feed_ c)) φ → is_array p || is_object p = true →
  (∀ f, shows (states_ f) (spec_payload φ p) → Q tt (set_feed f c)) → wp (handle_payload p) Q E c.
Proof.
  intros Hs Hk HQ. unfold handle_payload. wp_step. unfold in_feed. wp_step.
  destruct (process_payload_shows φ p (feed_ c) Hs Hk) as (f & Hrun & Hf).
  eapply run_wp; [done|]. by apply HQ.
Qed.
End invariant.

Ltac warns := repeat (first [apply wp_bind; first [apply wp_warn | apply wp_tell] | apply wp_warn | apply wp_tell];
  let k := fresh "k" in intros k).

(** Closing the invariant of a state whose fields are known. *)
Ltac handled :=
  split; [split| | | | | |intros ? [=]; subst]; unfold outstanding, spec_text; simpl in *;
  try (intros [? _]%Forall_cons);
  try match goal with E : kind (parse _) = _ |- shows _ _ => rewrite E end;
  intuition (done || lia || congruence).

Section handlers.
Context `{Json}.

Lemma wp_read_done φ c r :
  connection_inv φ c → (0 < reads c)%nat →
  wp (run_event (ReadDone r)) (λ _ c', handled φ (ReadDone r) c c') nothrow c.
Proof.
  intros [Hr Hw Hwr Hs Hc Ha Hcan] Hp. destruct c as [f h b sd st fc wr rd wt wa tc so]. simpl in *.
  do 2 wp_step. unfold on_read. do 2 wp_step. simpl.
  destruct st; [destruct r; wp_step; handled|]. destruct (Ha eq_refl) as (Hwa & -> & Hrd). subst wa.
  destruct sd; [apply wp_stop_connection; [done|]; destruct r; handled|]. destruct r as [text|e]; simpl.
  - wp_step. unfold in_backoff, reset_backoff. wp_step. wp_step. simpl.
    pose proof (parse_kind text) as Hk. destruct (kind (parse text)) eqn:Hkind.
    + wp_step. unfold in_heartbeat, on_pong_received. wp_step. wp_step. simpl. warns.
      unfold start_read, async_read. do 2 wp_step. simpl. wp_step. handled.
    + wp_step. apply (wp_handle_payload φ); [done|auto|]. intros f' Hf'. unfold start_read, async_read. do 2 wp_step.
      simpl. wp_step. handled.
    + warns. unfold start_read, async_read. do 2 wp_step. simpl. wp_step. handled.
  - wp_step. destruct (code e); warns; (apply wp_drop_connection; [done|handled]).
Qed.

Lemma wp_write_done φ c e :
  connection_inv φ c → (0 < writes c)%nat →
  wp (run_event (WriteDone e)) (λ _ c', handled φ (WriteDone e) c c') nothrow c.
Proof.
  intros [Hr Hw Hwr Hs Hc Ha Hcan] Hp. destruct c as [f h b sd st fc wr rd wt wa tc so]. simpl in *.
  destruct wr; subst wt; [|lia]. do 2 wp_step. unfold on_write. do 4 wp_step. simpl.
  destruct st; [wp_step; handled|]. destruct (Ha eq_refl) as (-> & -> & Hrd).
  destruct e as [e|]; warns; [apply wp_drop_connection; [done|]|]; handled.
Qed.

Lemma wp_wait_done φ c e now :
  connection_inv φ c → (0 < waits c)%nat → (is_aborted e = true → timer_cancelled c = true) → clock_range now →
  wp (run_event (WaitDone e now)) (λ _ c', handled φ (WaitDone e now) c c') nothrow c.
Proof.
  intros [Hr Hw Hwr Hs Hc Ha Hcan] Hp Hab Hn. destruct c as [f h b sd st fc wr rd wt wa tc so]. simpl in *.
  do 2 wp_step. unfold on_wait. do 2 wp_step. simpl.
  destruct st; [wp_step; handled|]. destruct (Ha eq_refl) as (-> & -> & Hrd).
  destruct (is_aborted e) eqn:He; [by specialize (Hab eq_refl)|].
  destruct e as [e|]; [warns; apply wp_drop_connection; [done|handled]|].
  destruct sd; [apply wp_stop_connection; [done|handled]|]. wp_step. unfold in_heartbeat. wp_step. simpl.
  unfold pong_timed_out. do 2 wp_step. unfold id.
  assert (Hrest : (awaiting_pong_ h = true → now - ping_sent_at_ h < pong_timeout) → wp (when (should_send_ping now h && negb wr) (
      modify (set_writing true) ;;; in_heartbeat (on_ping_sent now) ;;; async_write) ;;; schedule_heartbeat)
    (λ _ c', handled φ (WaitDone None now) (mkConnection f h b false false fc wr rd wt 1 false so) c') nothrow
    (mkConnection f h b false false fc wr rd wt 0 false so)).
  { intros Hnt. wp_step. apply wp_when.
    - intros [_ ->%negb_true_iff]%andb_true_iff. simpl in Hwr. subst wt. do 2 wp_step. wp_step.
      unfold in_heartbeat. wp_step. simpl.
      assert (Hi : int64 (now + heartbeat_interval)).
      { unfold clock_range, heartbeat_interval, seconds in *. mlia. }
      unfold on_ping_sent. do 3 wp_step. unfold id.
      apply wp_when; intros Haw; zb; [wp_step|]; (do 2 wp_step; [done|]; wp_step;
        unfold async_write, schedule_heartbeat, expires_after, async_wait; wp_step;
        do 2 wp_step; simpl; repeat wp_step; simpl; handled).
    - intros _. unfold schedule_heartbeat, expires_after, async_wait. do 2 wp_step. simpl. repeat wp_step. simpl. handled. }
  destruct (awaiting_pong_ h) eqn:Haw; [|by wp_step; apply Hrest].
  specialize (Hc eq_refl). unfold clock_range, heartbeat_interval, seconds in Hc, Hn.
  wp_step. wp_step; [mlia|]. wp_step. destruct (_ >=? _) eqn:Ht; zb; [|by apply Hrest].
  warns. apply wp_drop_connection; [done|handled].
Qed.

(** Every event that can happen is handled without an exception. *)
Lemma event_handled φ c ev :
  connection_inv φ c → enabled c ev → ev ≠ SignalReceived →
  ∃ c', run_event ev c = (Ok tt, c') ∧ handled φ ev c c'.
Proof.
  intros Hi He Hne. cut (wp (run_event ev) (λ _ c', handled φ ev c c') nothrow c).
  { intros ([] & c' & Hrun & Hh)%wp_run. eauto. }
  destruct ev as [r|e now|e|]; [by apply wp_read_done| |by apply wp_write_done|done].
  destruct He as (Hp & Hab & Hn). by apply wp_wait_done.
Qed.

Lemma connection_inv_step φ c ev c' :
  connection_inv φ c → enabled c ev → run_event ev c = (Ok tt, c') →
  connection_inv (foldl spec_text φ (text_of c ev)) c'.
Proof.
  intros Hi He Hrun. assert (Hd : ev = SignalReceived ∨ ev ≠ SignalReceived) by (by destruct ev; auto).
  destruct Hd as [->|Hne].
  - injection Hrun as <-. destruct c, Hi. split; simpl in *; intuition.
  - destruct (event_handled φ c ev Hi He Hne) as (c1 & Hrun' & [Hinv _ _ _ _ _ _]). congruence.
Qed.

Lemma connection_inv_runs φ c tr texts c' :
  connection_inv φ c → connection_runs c tr texts c' → connection_inv (foldl spec_text φ texts) c'.
Proof.
  intros Hi. induction 1 as [|c tr texts c1 ev c2 _ IH He Hrun]; [done|].
  rewrite foldl_app. by eapply connection_inv_step; [apply IH|..].
Qed.

(** A connection as it is when [run] is called. *)
Lemma open_connection_inv ids b now k c :
  ids ≠ [] → "" ∉ ids → clock_range now →
  ∃ c', open_connection ids b now k c = (Ok tt, c') ∧ connection_inv (subscribed ids) c' ∧
    connection_stopped c' = false ∧ reconnect_backoff c' = b ∧ shutdown_requested c' = shutdown_requested c.
Proof.
  intros Hne Hids Hn.
  cut (wp (open_connection ids b now k)
    (λ _ c', connection_inv (subscribed ids) c' ∧ connection_stopped c' = false ∧ reconnect_backoff c' = b ∧
       shutdown_requested c' = shutdown_requested c) nothrow c).
  { intros ([] & c' & Hrun & Hc)%wp_run. eauto. }
  unfold open_connection. wp_step. destruct (new_market_state_shows ids c Hne Hids) as (st & Hst & Hs).
  eapply run_wp; [done|]. wp_step. unfold new_heartbeat.
  wp_step. wp_step; [unfold clock_range, heartbeat_interval, seconds in *; mlia|]. do 3 wp_step. simpl.
  wp_step. unfold start_read, async_read, schedule_heartbeat, expires_after, async_wait. do 2 wp_step. simpl.
  destruct (shutdown_requested c) eqn:Hsd; repeat wp_step; simpl; (split; [split; simpl|by rewrite ?Hsd]);
    rewrite ?Hsd; intuition (done || lia).
Qed.
End handlers.

Section theorems.
Context `{Json}.

(** The states of a connection after it was opened, with the texts read so far. *)
Definition reachable (ids : list string) (texts : list (list ascii)) (c : Connection) : Prop :=
  ids ≠ [] ∧ "" ∉ ids ∧ ∃ backoff now console c0 c1 tr,
    clock_range now ∧ open_connection ids backoff now console c0 = (Ok tt, c1) ∧
    connection_runs c1 tr texts c.

Lemma reachable_inv ids texts c :
  reachable ids texts c → connection_inv (foldl spec_text (subscribed ids) texts) c.
Proof.
  intros (Hne & Hids & b & now & k & c0 & c1 & tr & Hn & Hopen & Hruns).
  destruct (open_connection_inv ids b now k c0 Hne Hids Hn) as (c1' & Hopen' & Hi & _).
  rewrite Hopen in Hopen'. injection Hopen' as <-. by eapply connection_inv_runs.
Qed.

Lemma reachable_step ids texts c ev c' :
  reachable ids texts c → enabled c ev → run_event ev c = (Ok tt, c') →
  reachable ids (texts ++ text_of c ev) c'.
Proof.
  intros (Hne & Hids & b & now & k & c0 & c1 & tr & Hn & Hopen & Hruns) He Hrun.
  split; [done|]. split; [done|]. exists b, now, k, c0, c1, (tr ++ [ev]). split_and!; [done..|].
  by eapply runs_snoc.
Qed.

(** The events that complete an operation. *)
Definition is_completion (ev : io_event) : bool := match ev with SignalReceived => false | _ => true end.

Definition completions (tr : list io_event) : nat := length (List.filter is_completion tr).

Definition ending (c : Connection) : bool := connection_stopped c || shutdown_requested c.

Lemma ending_step φ c ev c' :
  connection_inv φ c → enabled c ev → run_event ev c = (Ok tt, c') → ending c = true →
  ending c' = true ∧ ((if is_completion ev then 1 else 0) + outstanding c' ≤ outstanding c)%nat ∧ text_of c ev = [].
Proof.
  intros Hi He Hrun Hend. assert (Ht : text_of c ev = []).
  { unfold text_of, ending in *. destruct ev as [[text|e]| | |]; try done. by rewrite Hend. }
  destruct ev as [r|e now|e|]; simpl; cycle 3.
  { injection Hrun as <-. unfold ending in *. destruct c. simpl in *. by rewrite orb_true_r. }
  all: destruct (event_handled φ c _ Hi He ltac:(done)) as (c1 & Hrun' & [_ Hd [Hst Hsd] _ _ _ _]);
    rewrite Hrun in Hrun'; injection Hrun' as <-; split_and!; [|specialize (Hd Hend); lia|done];
    unfold ending in *; rewrite Hsd; apply orb_true_iff in Hend as [Hs|Hs];
    [by rewrite Hst|by rewrite Hs, orb_true_r].
Qed.

Lemma ending_runs φ c tr more c' :
  connection_inv φ c → ending c = true → connection_runs c tr more c' →
  ending c' = true ∧ (completions tr + outstanding c' ≤ outstanding c)%nat ∧ more = [].
Proof.
  intros Hi Hend Hruns. induction Hruns as [|c tr more c1 ev c2 Hruns IH He Hrun]; [done|].
  destruct (IH Hi Hend) as (Hend1 & Hle & ->).
  destruct (ending_step _ _ _ _ (connection_inv_runs _ _ _ _ _ Hi Hruns) He Hrun Hend1) as (? & Hle' & ->).
  split_and!; [done| |done]. unfold completions in *. rewrite List.filter_app, length_app. simpl.
  destruct (is_completion ev); simpl in *; lia.
Qed.

(** C32: a connection never has two reads, two writes or two waits under way at
    once; while it is not stopped its timer is running and a read is under way,
    unless a shutdown was requested; a write is under way exactly when the flag
    says so; and no completion makes a handler throw. *)
Theorem connection_operations_exclusive ids texts c :
  reachable ids texts c →
  (reads c ≤ 1 ∧ writes c ≤ 1 ∧ waits c ≤ 1)%nat ∧
  (heartbeat_write_in_progress c = true ↔ writes c = 1%nat) ∧
  (connection_stopped c = false → waits c = 1%nat ∧ (reads c = 1%nat ∨ shutdown_requested c = true)) ∧
  ∀ ev, enabled c ev → ∃ c', run_event ev c = (Ok tt, c').
Proof.
  intros Hr%reachable_inv. pose proof Hr as [H1 H2 H3 _ _ H4 _]. split_and!; [done| |done| | | ].
  - rewrite H3. destruct (heartbeat_write_in_progress c); lia.
  - rewrite H3. by destruct (heartbeat_write_in_progress c).
  - intros Hs. destruct (H4 Hs) as (? & _ & ?). done.
  - intros ev He. destruct ev; try (destruct (event_handled _ c _ Hr He) as (c' & ? & _); [done|by eauto]).
    by eexists.
Qed.

(** C31: the books of a connection are what the texts read so far make of a fresh
    subscription: blank, unreadable and unknown texts change nothing, payloads do
    what their events mean, in the order of the reads. *)
Theorem connection_books_follow_texts ids texts c :
  reachable ids texts c → shows (states_ (feed_ c)) (foldl spec_text (subscribed ids) texts).
Proof. intros Hr%reachable_inv. apply Hr. Qed.

(** While something is under way in a connection that is to end, Asio owes a
    completion: the timer runs until the connection is stopped, and what is
    left then was cancelled. *)
Lemma ending_due φ c : connection_inv φ c → ending c = true → outstanding c ≠ O → ∃ ev, due c ev.
Proof.
  intros [_ _ _ _ _ Ha Hcan] Hend Ho. unfold due, outstanding in *.
  destruct (connection_stopped c) eqn:Hst.
  - destruct (Hcan eq_refl) as [_ Hso]. destruct (reads c) eqn:Hr; [destruct (writes c) eqn:Hw|].
    + exists (WaitDone None 0). simpl. split; [|done]. split; [lia|]. split; [done|].
      unfold clock_range, heartbeat_interval, seconds. mlia.
    + exists (WriteDone None). simpl. split; [lia|done].
    + exists (ReadDone (inl [])). simpl. split; [lia|done].
  - destruct (Ha eq_refl) as (Hw & _ & _). exists (WaitDone None 0). simpl. split; [|done].
    split; [lia|]. split; [done|]. unfold clock_range, heartbeat_interval, seconds. mlia.
Qed.

(** C33: [run] returns once a connection is to end, that is stopped or with a
    shutdown requested.  However it goes on, at most three completions are left
    and no text is looked at any more; a stopped connection has cancelled its
    timer and its socket; as long as an operation is under way Asio owes a
    completion, without help of the peer; and every completion that is owed is
    handled and leaves fewer operations under way. *)
Theorem connection_drains ids texts c tr more c' :
  reachable ids texts c → ending c = true → connection_runs c tr more c' →
  ((completions tr + outstanding c' ≤ outstanding c)%nat ∧ (outstanding c ≤ 3)%nat ∧ more = []) ∧
  (connection_stopped c' = true → timer_cancelled c' = true ∧ socket c' = socket_cancelled) ∧
  (outstanding c' ≠ O → ∃ ev, due c' ev) ∧
  (∀ ev, due c' ev → ∃ c'', run_event ev c' = (Ok tt, c'') ∧ (outstanding c'' < outstanding c')%nat).
Proof.
  intros Hr%reachable_inv Hend Hruns. destruct (ending_runs _ _ _ _ _ Hr Hend Hruns) as (Hend' & Hle & ->).
  pose proof (connection_inv_runs _ _ _ _ _ Hr Hruns) as Hr'. split_and!; [done| |done| | |].
  - destruct Hr as [H1 H2 H3 _ _ _ _]. unfold outstanding. rewrite H3.
    destruct (heartbeat_write_in_progress c); lia.
  - apply Hr'.
  - by eapply ending_due.
  - intros ev [He Hev]. destruct (event_handled _ c' ev Hr' He) as (c'' & Hrun & Hh); [by intros ->|].
    exists c''. split; [done|]. by apply Hh.
Qed.

(** C34: a peer that leaves a ping unanswered is dropped: with no PONG among the
    texts read since, the first time the timer fires twenty seconds after the
    ping the connection is stopped. *)
Theorem silent_peer_is_dropped ids texts c tr more c1 now :
  reachable ids texts c → awaiting_pong_ (heartbeat c) = true →
  connection_runs c tr more c1 → Forall (λ x, kind (parse x) ≠ pong) more →
  enabled c1 (WaitDone None now) → pong_timeout ≤ now - ping_sent_at_ (heartbeat c) →
  ∃ c2, run_event (WaitDone None now) c1 = (Ok tt, c2) ∧ connection_stopped c2 = true.
Proof.
  intros Hr%reachable_inv Haw Hruns Hmore Hen Hto.
  assert (Hkeep : awaiting_pong_ (heartbeat c1) = true ∧
                  ping_sent_at_ (heartbeat c1) = ping_sent_at_ (heartbeat c)).
  { clear Hen. induction Hruns as [|c tr more c1 ev c2 Hruns IH He Hrun]; [done|].
    apply Forall_app in Hmore as [Hm1 Hm2]. destruct (IH Hr Haw Hm1 Hto) as [Ha Hp]. rewrite <- Hp.
    destruct ev as [r|e t|e|]; cycle 3; [by injection Hrun as <-|..].
    all: destruct (event_handled _ c1 _ (connection_inv_runs _ _ _ _ _ Hr Hruns) He ltac:(done))
      as (c3 & Hrun' & Hh); rewrite Hrun in Hrun'; injection Hrun' as <-; by apply Hh. }
  destruct Hkeep as [Ha Hp].
  destruct (event_handled _ c1 _ (connection_inv_runs _ _ _ _ _ Hr Hruns) Hen ltac:(done)) as (c2 & Hrun & Hh).
  exists c2. split; [done|]. eapply (handled_timeout _ _ _ _ Hh); [done|done|]. by rewrite Hp.
Qed.
End theorems.

(** ** A run of a connection *)

Definition snapshot_of_a : tree :=
  book_text "A" [level_text "0.45" "10"] [level_text "0.5" "3"].

(** The texts this instance of the library reads. *)
Definition stream_json : Json := json_table [("{snapshot}", snapshot_of_a)] (λ _, "").

Definition no_console : Console := mkConsole [] [].

Definition any_connection : Connection :=
  mkConnection (mkFeed ∅ no_console) (mkHeartbeat 0 0 false) 1 false false false false 0 0 0 false socket_active.

Definition chars (t : string) : list ascii := String.list_ascii_of_string t.

(** A snapshot, the first ping after ten seconds, and its write. *)
Definition sample_events : list io_event :=
  [ReadDone (inl (chars "{snapshot}")); WaitDone None (seconds 10); WriteDone None].

Definition state_after (evs : list io_event) : Connection :=
  ((let* _ := open_connection ["A"] 4 0 no_console in
    for_each evs (run_event (H:=stream_json))) any_connection).2.

Lemma seconds_in_range n : 0 ≤ n ≤ 1000 → clock_range (seconds n).
Proof. unfold clock_range, heartbeat_interval, seconds, INT64_MAX. lia. Qed.

Definition first_text : list ascii := chars "{snapshot}".

Lemma enabled_wait c n :
  (0 < waits c)%nat → 0 ≤ n ≤ 1000 → enabled c (WaitDone None (seconds n)).
Proof. intros Hw Hn. split; [done|]. split; [done|by apply seconds_in_range]. Qed.

Lemma fresh_reachable : reachable (H:=stream_json) ["A"] [] (state_after []).
Proof.
  split; [done|]. split; [by apply (bool_decide_eq_true_1 ("" ∉ ["A"]))|].
  exists 4, 0, no_console, any_connection, (state_after []), [].
  split; [by apply (seconds_in_range 0)|]. split; [vm_compute; reflexivity|constructor].
Qed.

Lemma sample_reachable : reachable (H:=stream_json) ["A"] [first_text] (state_after sample_events).
Proof.
  apply (reachable_step (H:=stream_json) _ [first_text] (state_after (take 2 sample_events)) (WriteDone None));
    [|vm_compute; lia|vm_compute; reflexivity].
  apply (reachable_step (H:=stream_json) _ [first_text] (state_after (take 1 sample_events)) (WaitDone None (seconds 10)));
    [|apply enabled_wait; [vm_compute; lia|lia]|vm_compute; reflexivity].
  apply (reachable_step (H:=stream_json) _ [] (state_after []) (ReadDone (inl first_text)));
    [apply fresh_reachable|vm_compute; lia|vm_compute; reflexivity].
Qed.

(** A signal while the timer and the read are under way. *)
Lemma signalled_reachable :
  reachable (H:=stream_json) ["A"] [first_text] (state_after (sample_events ++ [SignalReceived])).
Proof.
  apply (reachable_step (H:=stream_json) _ [first_text] (state_after sample_events) SignalReceived);
    [apply sample_reachable|done|vm_compute; reflexivity].
Qed.

Lemma connection_operations_exclusive_witness :
  let c := state_after sample_events in
  (reads c ≤ 1 ∧ writes c ≤ 1 ∧ waits c ≤ 1)%nat ∧
  (heartbeat_write_in_progress c = true ↔ writes c = 1%nat) ∧
  (connection_stopped c = false → waits c = 1%nat ∧ (reads c = 1%nat ∨ shutdown_requested c = true)) ∧
  ∀ ev, enabled c ev → ∃ c', run_event (H:=stream_json) ev c = (Ok tt, c').
Proof.
  intros c. apply (connection_operations_exclusive (H:=stream_json) ["A"] [first_text] c), sample_reachable.
Defined.

Lemma connection_books_follow_texts_witness :
  shows (states_ (feed_ (state_after sample_events)))
    (foldl (spec_text (H:=stream_json)) (subscribed ["A"]) [first_text]).
Proof.
  apply (connection_books_follow_texts (H:=stream_json) ["A"] [first_text] (state_after sample_events)), sample_reachable.
Defined.

(** The timer sees the signal, stops the connection and leaves the cancelled read. *)
Lemma connection_drains_witness :
  let c := state_after (sample_events ++ [SignalReceived]) in
  let c' := state_after (sample_events ++ [SignalReceived; WaitDone None (seconds 11)]) in
  ((completions [WaitDone None (seconds 11)] + outstanding c' ≤ outstanding c)%nat ∧ (outstanding c ≤ 3)%nat ∧
   @nil (list ascii) = []) ∧
  (connection_stopped c' = true → timer_cancelled c' = true ∧ socket c' = socket_cancelled) ∧
  (outstanding c' ≠ O → ∃ ev, due c' ev) ∧
  (∀ ev, due c' ev → ∃ c'', run_event (H:=stream_json) ev c' = (Ok tt, c'') ∧ (outstanding c'' < outstanding c')%nat).
Proof.
  intros c c'. apply (connection_drains (H:=stream_json) ["A"] [first_text] c [WaitDone None (seconds 11)] [] c').
  - apply signalled_reachable.
  - vm_compute. reflexivity.
  - apply (runs_snoc (H:=stream_json) c [] [] c (WaitDone None (seconds 11)) c').
    + constructor.
    + apply enabled_wait; [vm_compute; lia|lia].
    + vm_compute. reflexivity.
Defined.

(** The read of that state is still under way, and it is owed. *)
Lemma drained_state :
  let c' := state_after (sample_events ++ [SignalReceived; WaitDone None (seconds 11)]) in
  connection_stopped c' = true ∧ outstanding c' = 1%nat ∧ due c' (ReadDone (inr (mkError operation_aborted "aborted"))).
Proof. split_and!; [reflexivity|reflexivity|]. split; [apply Nat.lt_0_1|reflexivity]. Qed.

Lemma silent_peer_is_dropped_witness :
  ∃ c2, run_event (H:=stream_json) (WaitDone None (seconds 30)) (state_after sample_events) = (Ok tt, c2) ∧
    connection_stopped c2 = true.
Proof.
  apply (silent_peer_is_dropped (H:=stream_json) ["A"] [first_text] (state_after sample_events) [] []
    (state_after sample_events) (seconds 30)).
  - apply sample_reachable.
  - vm_compute. reflexivity.
  - constructor.
  - constructor.
  - apply enabled_wait; [vm_compute; lia|lia].
  - vm_compute. discriminate.
Defined.
