(* ===== verification/Stream.v ===== *)
(** * The streaming loop

    [WebSocketClient::stream_market] of [src/websocket_client.cpp] around its
    connections: the signal handlers, the loop that reconnects and the waits in
    between.  A connection, and a second of sleep during which a signal may
    arrive, are computations the functions are given; [Session] translates the
    body of the [try] and the sleep, and gives them to [stream_market]. *)
From S2P Require Import Prelude FixedPoint Json MarketFeed Heartbeat.
From Stdlib Require String.

Local Open Scope Z_scope.

(** What a signal is set to. *)
Inductive signal_handler : Type := handle_shutdown_signal | caller_handler (n : nat).

#[export] Instance signal_handler_eq_dec : EqDecision signal_handler.
Proof. solve_decision. Defined.

Record Stream : Type := mkStream {
  sigint : signal_handler;
  sigterm : signal_handler;
  stop_requested : bool;
  backoff : Z;
  stream_console : Console
}.

Definition set_handlers (a b : signal_handler) (s : Stream) : Stream :=
  mkStream a b (stop_requested s) (backoff s) (stream_console s).
Definition set_stop (b : bool) (s : Stream) : Stream :=
  mkStream (sigint s) (sigterm s) b (backoff s) (stream_console s).

Definition with_backoff {A} (m : M Z A) : M Stream A :=
  zoom backoff (λ d s, mkStream (sigint s) (sigterm s) (stop_requested s) d (stream_console s)) m.
Definition with_console {A} (m : M Console A) : M Stream A :=
  zoom stream_console (λ k s, mkStream (sigint s) (sigterm s) (stop_requested s) (backoff s) k) m.

Section stream.
Context `{Json} (connect : string → nat → M Stream unit) (sleep_second : M Stream unit).

(** The loop of the wait: [n] is the number of seconds left. *)
Fixpoint wait_seconds (n : nat) : M Stream unit :=
  match n with
  | O => ret tt
  | S n =>
      let* stop := gets stop_requested in
      if stop then ret tt else sleep_second ;;; wait_seconds n
  end.

(** One turn of the loop; the answer says whether to go on. *)
Definition stream_round (subscription_message : string) (attempt : nat) : M Stream bool :=
  let* stop := gets stop_requested in
  if stop then ret false
  else
    try_catch (connect subscription_message attempt) (λ error,
      let* stop := gets stop_requested in
      when (negb stop) (with_console (cerr "WebSocket connection error: " ;;; cerr (what error) ;;; cerr newline))) ;;;
    let* stop := gets stop_requested in
    if stop then ret false
    else
      let* reconnect_delay_seconds := gets backoff in
      with_console (cout "Reconnecting in " ;;;
        cout (String.string_of_list_ascii (print_int64 reconnect_delay_seconds)) ;;;
        cout (" seconds..." +:+ newline)) ;;;
      wait_seconds (Z.to_nat reconnect_delay_seconds) ;;;
      with_backoff advance ;;;
      ret true.

Fixpoint stream_loop (fuel : nat) (subscription_message : string) (attempt : nat) : M Stream unit :=
  match fuel with
  | O => diverge
  | S fuel =>
      let* again := stream_round subscription_message attempt in
      if again then stream_loop fuel subscription_message (attempt + 1) else ret tt
  end.

Definition stream_market (fuel : nat) (token_ids : list string) : M Stream unit :=
  modify (λ s, mkStream (sigint s) (sigterm s) false initial_delay_seconds (stream_console s)) ;;;
  let* previous := gets (λ s, (sigint s, sigterm s)) in
  modify (set_handlers handle_shutdown_signal handle_shutdown_signal) ;;;
  let* subscription_message := build_market token_ids in
  with_console (cout ("Press Ctrl+C to stop streaming." +:+ newline)) ;;;
  stream_loop fuel subscription_message 0 ;;;
  modify (set_handlers (fst previous) (snd previous)) ;;;
  with_console (cout ("WebSocket stream stopped cleanly." +:+ newline)).
End stream.
