(* ===== verification/StreamTheorems.v ===== *)
(** * Theorems about the streaming loop

    The loop ends when a signal has arrived, however the connections before it
    ended, and puts the signal handlers of the caller back; when it refuses its
    tokens it does not. *)
From S2P Require Import Prelude Json MarketFeed FeedSpec FeedTheorems Heartbeat Stream.
From Stdlib Require String.

Local Open Scope Z_scope.

Definition delay_range (d : Z) : Prop := 1 ≤ d ≤ maximum_delay_seconds.

(** Where the loop is: its own handlers are installed and the delay is in range. *)
Definition streaming (s : Stream) : Prop :=
  sigint s = handle_shutdown_signal ∧ sigterm s = handle_shutdown_signal ∧ delay_range (backoff s).

Section loop.
Context `{Json} (connect : string → nat → M Stream unit) (sleep_second : M Stream unit).
(** The last attempt. *)
Context (last : nat).

(** A connection or a second of sleep leaves the handlers alone and keeps the
    delay in range. *)
Hypothesis connect_keeps : ∀ msg k s, (k ≤ last)%nat → streaming s →
  wp (connect msg k) (λ _, streaming) (λ _, streaming) s.
Hypothesis sleep_keeps : ∀ s, streaming s → wp sleep_second (λ _, streaming) nothrow s.

Lemma wp_wait_seconds n s Q E :
  streaming s → (∀ s', streaming s' → Q tt s') → wp (wait_seconds sleep_second n) Q E s.
Proof.
  revert s. induction n as [|n IH]; intros s Hs HQ; simpl; [by apply wp_ret, HQ|].
  do 2 wp_step. destruct (stop_requested s); [by apply wp_ret, HQ|]. wp_step.
  eapply wp_mono; [by apply sleep_keeps| |by intros ??[]]. intros [] s1 Hs1. by apply IH.
Qed.

Lemma advance_range d : delay_range d → wp advance (λ _, delay_range) nothrow d.
Proof.
  unfold delay_range, maximum_delay_seconds. intros Hd. unfold wp, advance, checked32, bind.
  rewrite (proj2 (Z.leb_le (-2147483648) (d * 2))), (proj2 (Z.leb_le (d * 2) 2147483647)) by lia.
  cbn. unfold maximum_delay_seconds. lia.
Qed.

(** A turn goes on with the next attempt, or ends because of a signal; it ends
    when the connection left one. *)
Lemma wp_stream_round msg k s Q E :
  streaming s → (k ≤ last)%nat →
  (∀ s', streaming s' → stop_requested s' = true → Q false s') →
  ((∀ s, streaming s → wp (connect msg k) (λ _ s', stop_requested s' = true) (λ _ s', stop_requested s' = true) s) ∨
   ∀ s', streaming s' → Q true s') →
  wp (stream_round connect sleep_second msg k) Q E s.
Proof.
  intros Hs Hk HF HT. unfold stream_round. do 2 wp_step.
  destruct (stop_requested s) eqn:Hstop; [by apply wp_ret, HF|]. wp_step.
  set (R := λ s', streaming s' ∧ (stop_requested s' = true ∨ ∀ s', streaming s' → Q true s')).
  assert (Hrest : ∀ s', R s' → wp (let* stop := gets stop_requested in
    if stop then ret false
    else
      let* reconnect_delay_seconds := gets backoff in
      with_console (cout "Reconnecting in " ;;;
        cout (String.string_of_list_ascii (FixedPoint.print_int64 reconnect_delay_seconds)) ;;;
        cout (" seconds..." +:+ newline)) ;;;
      wait_seconds sleep_second (Z.to_nat reconnect_delay_seconds) ;;;
      with_backoff advance ;;;
      ret true) Q E s').
  { intros s' [Hs' Hor]. do 2 wp_step. destruct (stop_requested s') eqn:Hst; [by apply wp_ret, HF|].
    destruct Hor as [|Hor]; [done|]. do 3 wp_step. unfold with_console, cout. repeat wp_step.
    apply wp_wait_seconds; [done|]. intros s2 (H1 & H2 & H3). wp_step. unfold with_backoff. wp_step.
    eapply wp_mono; [by apply advance_range| |by intros ??[]]. intros [] d Hd. wp_step. by apply Hor. }
  wp_step.
  assert (Hc : wp (connect msg k) (λ _, R) (λ _, R) s).
  { pose proof (connect_keeps msg k s Hk Hs) as Hkeep. destruct HT as [HT|HT].
    - specialize (HT s Hs). unfold wp, R in *. destruct (connect msg k s) as [[] ?]; try done; auto.
    - unfold wp, R in *. destruct (connect msg k s) as [[] ?]; try done; auto. }
  eapply wp_mono; [exact Hc| |].
  - intros [] s'. apply Hrest.
  - intros ex s' HR. do 2 wp_step. apply wp_when; intros _; [|by apply Hrest].
    unfold with_console, cerr. do 6 wp_step. apply Hrest. destruct HR as [(H1 & H2 & H3) Hor]. by split.
Qed.

Lemma wp_stream_loop n fuel msg k s Q E :
  streaming s → (n < fuel)%nat → (k + n ≤ last)%nat →
  (∀ s, streaming s → wp (connect msg (k + n)) (λ _ s', stop_requested s' = true) (λ _ s', stop_requested s' = true) s) →
  (∀ s', streaming s' → stop_requested s' = true → Q tt s') →
  wp (stream_loop connect sleep_second fuel msg k) Q E s.
Proof.
  revert n k s. induction fuel as [|fuel IH]; intros n k s Hs Hn Hl Hstop HQ; [lia|]. simpl. wp_step.
  apply wp_stream_round; [done|lia|by intros; apply wp_ret, HQ|]. destruct n as [|n].
  - left. by rewrite Nat.add_0_r in Hstop.
  - right. intros s' Hs'. apply (IH n); [done|lia|lia| |done]. by replace (k + 1 + n)%nat with (k + S n)%nat by lia.
Qed.
End loop.

(** The whole call: it returns once attempt [n] leaves a signal, and throws only
    when the tokens are refused. *)
Lemma wp_stream_market `{Json} connect sleep_second n fuel ids s :
  (∀ msg k s, ids ≠ [] → "" ∉ ids → (k ≤ n)%nat → streaming s →
     wp (connect msg k) (λ _, streaming) (λ _, streaming) s) →
  (∀ s, streaming s → wp sleep_second (λ _, streaming) nothrow s) →
  (∀ msg s, ids ≠ [] → "" ∉ ids → streaming s →
     wp (connect msg n) (λ _ s', stop_requested s' = true) (λ _ s', stop_requested s' = true) s) →
  (n < fuel)%nat →
  wp (stream_market connect sleep_second fuel ids)
    (λ _ s', (ids ≠ [] ∧ "" ∉ ids ∧ sigint s' = sigint s ∧ sigterm s' = sigterm s ∧ stop_requested s' = true) ∧
             ∃ t, json_dump (subscription (first_occurrences ids)) = inl t)
    (λ _ s', sigint s' = handle_shutdown_signal ∧ sigterm s' = handle_shutdown_signal ∧
        (ids = [] ∨ "" ∈ ids ∨ ∃ w, json_dump (subscription (first_occurrences ids)) = inr w)) s.
Proof.
  intros Hk Hsl Hst Hn. unfold stream_market. do 4 wp_step. wp_step. wp_step. wp_step. unfold build_market.
  destruct ids as [|id ids]; [apply wp_throw; auto|]. wp_step.
  apply (wp_unique_ids []); [|intros; simpl; auto]. intros Hids. unfold dump, from_json.
  destruct (json_dump _) as [msg|w] eqn:Hd; [|apply wp_throw; simpl; eauto 8].
  wp_step. wp_step. unfold with_console, cout. do 3 wp_step.
  apply (wp_stream_loop connect sleep_second n) with (n:=n);
    [by intros; apply Hk|done| |done|lia|by intros; apply Hst|].
  - split_and!; [done..|]. unfold delay_range, initial_delay_seconds, maximum_delay_seconds. simpl.
    unfold initial_delay_seconds. lia.
  - intros s' _ Hstop. do 3 wp_step. simpl. split; [split_and!; done|eauto].
Qed.

(** C40: once a connection is ended by a signal the loop returns, whatever the
    connections before it did, and the signal handlers of the caller are back in
    place; tokens that cannot be subscribed are refused, but then the handlers
    of the stream stay installed. *)
Theorem stream_market_handlers `{Json} connect sleep_second n fuel ids s :
  (∀ msg k s, streaming s → wp (connect msg k) (λ _, streaming) (λ _, streaming) s) →
  (∀ s, streaming s → wp sleep_second (λ _, streaming) nothrow s) →
  (∀ msg s, streaming s → wp (connect msg n) (λ _ s', stop_requested s' = true)
                                              (λ _ s', stop_requested s' = true) s) →
  (n < fuel)%nat →
  ∃ r s', stream_market connect sleep_second fuel ids s = (r, s') ∧
    match r with
    | Ok _ => ids ≠ [] ∧ "" ∉ ids ∧ sigint s' = sigint s ∧ sigterm s' = sigterm s ∧ stop_requested s' = true
    | Throw e =>
        sigint s' = handle_shutdown_signal ∧ sigterm s' = handle_shutdown_signal ∧
        (ids = [] ∨ "" ∈ ids ∨ ∃ w, json_dump (subscription (first_occurrences ids)) = inr w)
    | _ => False
    end.
Proof.
  intros Hk Hsl Hst Hn.
  destruct (wp_outcome _ _ _ _ (wp_stream_market connect sleep_second n fuel ids s
    ltac:(auto) Hsl ltac:(auto) Hn)) as (r & s' & Hrun & Hr).
  exists r, s'. split; [done|]. destruct r; try done. apply Hr.
Qed.

(** The first connection fails and the second is ended by a signal. *)
Definition sample_connect (msg : string) (attempt : nat) : M Stream unit :=
  match attempt with
  | O => throw (runtime_error "Failed to set TLS hostname.")
  | _ => modify (set_stop true)
  end.

Lemma stream_market_handlers_witness :
  let s := mkStream (caller_handler 1) (caller_handler 2) false 0 (mkConsole [] []) in
  ∃ r s', stream_market (H:=sample_json) sample_connect (ret tt) 2 ["A"] s = (r, s') ∧
    match r with
    | Ok _ => ["A"] ≠ [] ∧ "" ∉ ["A"] ∧ sigint s' = sigint s ∧ sigterm s' = sigterm s ∧ stop_requested s' = true
    | Throw e =>
        sigint s' = handle_shutdown_signal ∧ sigterm s' = handle_shutdown_signal ∧
        (["A"] = [] ∨ "" ∈ ["A"] ∨
         ∃ w, json_dump (Json:=sample_json) (subscription (H:=sample_json) (first_occurrences ["A"])) = inr w)
    | _ => False
    end.
Proof.
  intros s. apply (stream_market_handlers (H:=sample_json) sample_connect (ret tt) 1 2 ["A"] s).
  - intros msg [|k] s' Hs'; exact Hs'.
  - intros s' Hs'. exact Hs'.
  - intros msg s' _. reflexivity.
  - lia.
Defined.
