(* ===== verification/Session.v ===== *)
(** * One connection attempt

    The body of the [try] in [WebSocketClient::stream_market]
    ([src/websocket_client.cpp]): the connection is set up with blocking calls,
    its handlers run until nothing is under way, and it is closed.  What Asio,
    Beast and OpenSSL answer to the calls of one attempt is a record the
    functions are given, with the completions they deliver and the moments at
    which a signal arrives. *)
From S2P Require Import Prelude Json MarketFeed FeedClient Heartbeat Connection Stream.
From Stdlib Require String.

Local Open Scope Z_scope.

Definition ws_host : string := "ws-subscriptions-clob.polymarket.com".
Definition ws_port : string := "443".
Definition ws_target : string := "/ws/market".

(** The answers to the calls, an exception where they throw.  [ws_interrupted]
    says that a signal arrives while the connection is set up, [ws_signals] that
    one arrives before a completion of the loop, [ws_closing_signal] that one
    arrives while the connection is closed. *)
Record ws_session : Type := mkWs {
  ws_verify_paths : option exn;
  ws_tlsext_host_name : string → bool;
  ws_resolve : string → string → list string + exn;
  ws_connect : list string → option exn;
  ws_tls_handshake : option exn;
  ws_handshake : string → string → option exn;
  ws_write : string → option exn;
  ws_clock : Z;
  ws_interrupted : bool;
  ws_signals : nat → bool;
  ws_completes : nat → Connection → io_event;
  ws_is_open : bool;
  ws_close : option io_error;
  ws_closing_signal : bool
}.

(** Up to the subscription.  The flag of the signals is not looked at before the
    connection is up or has failed, so it does not matter when in between one
    arrives. *)
Definition set_up (net : ws_session) (subscription_message : string) : M Stream unit :=
  when (ws_interrupted net) (modify (set_stop true)) ;;;
  done_or_throw (ws_verify_paths net) ;;;
  if negb (ws_tlsext_host_name net ws_host) then throw (runtime_error "Failed to set TLS hostname.")
  else
    let* endpoints := or_throw (ws_resolve net ws_host ws_port) in
    done_or_throw (ws_connect net endpoints) ;;;
    done_or_throw (ws_tls_handshake net) ;;;
    done_or_throw (ws_handshake net ws_host ws_target) ;;;
    with_console (cout "Connected to " ;;; cout ws_host ;;; cout newline) ;;;
    done_or_throw (ws_write net subscription_message) ;;;
    with_console (cout ("Subscription sent" +:+ newline)).

(** The connection has the variables of the stream, and leaves them to it. *)
Definition connection_of (s : Stream) : Connection :=
  mkConnection (mkFeed ∅ (stream_console s)) (mkHeartbeat 0 0 false) (backoff s) (stop_requested s)
    false false false 0 0 0 false socket_active.

Definition after_connection (c : Connection) (s : Stream) : Stream :=
  mkStream (sigint s) (sigterm s) (shutdown_requested c) (reconnect_backoff c) (console_ (feed_ c)).

Definition in_connection {A} (m : M Connection A) : M Stream A := zoom connection_of after_connection m.

Section attempt.
Context `{Json}.

(** [io_context.run]: one completion after the other, as long as an operation is
    under way. *)
Definition turn (net : ws_session) (n : nat) : M Connection unit :=
  when (ws_signals net n) (run_event SignalReceived) ;;;
  let* c := gets id in
  run_event (ws_completes net n c).

Fixpoint io_run (net : ws_session) (fuel n : nat) : M Connection unit :=
  match fuel with
  | O => diverge
  | S fuel =>
      let* c := gets id in
      if (outstanding c =? 0)%nat then ret tt else turn net n ;;; io_run net fuel (n + 1)
  end.

Definition close_connection (net : ws_session) : M Connection unit :=
  let* c := gets id in
  when (shutdown_requested c) (
    tell (newline +:+ "Shutdown requested. " +:+ "Closing WebSocket..." +:+ newline)) ;;;
  (if force_close c then modify (set_socket socket_closed)
  else
    when (ws_is_open net) (
      modify (set_socket socket_closed) ;;;
      match ws_close net with
      | None => ret tt
      | Some close_error =>
          match code close_error with
          | closed => ret tt
          | _ => warn "WebSocket close warning: " ;;; warn (message close_error) ;;; warn newline
          end
      end)) ;;;
  when (ws_closing_signal net) (modify set_shutdown).

Definition attempt (network : nat → ws_session) (fuel : nat) (token_ids : list string)
    (subscription_message : string) (k : nat) : M Stream unit :=
  let net := network k in
  set_up net subscription_message ;;;
  let* s := gets id in
  in_connection (
    open_connection token_ids (backoff s) (ws_clock net) (stream_console s) ;;;
    io_run net fuel 0 ;;;
    close_connection net).

(** A second of sleep, during which a signal may arrive. *)
Definition sleep_for_second (signalled : Stream → bool) : M Stream unit :=
  modify (λ s, if signalled s then set_stop true s else s).

(** [WebSocketClient::stream_market] with its connections. *)
Definition stream_tokens (network : nat → ws_session) (signalled : Stream → bool) (fuel : nat)
    (token_ids : list string) : M Stream unit :=
  stream_market (attempt network fuel token_ids) (sleep_for_second signalled) fuel token_ids.
End attempt.
