(* ===== verification/SessionTheorems.v ===== *)
(** * Theorems about connection attempts

    An attempt returns or throws, its loop is a run of the handlers of
    [Connection] from a fresh connection until nothing is under way, and a signal
    that arrives while it lasts is still known when it is over. *)
From S2P Require Import Prelude Orders Json MarketFeed FeedClient FeedSpec FeedTheorems Heartbeat.
From S2P Require Import Connection ConnectionTheorems Stream StreamTheorems Session.
From Stdlib Require Import Ascii.
From Stdlib Require String.

Local Open Scope Z_scope.

(** Every call of the set-up succeeds. *)
Definition connects (net : ws_session) (msg : string) : Prop :=
  ws_verify_paths net = None ∧ ws_tlsext_host_name net ws_host = true ∧
  (∃ endpoints, ws_resolve net ws_host ws_port = inl endpoints ∧ ws_connect net endpoints = None) ∧
  ws_tls_handshake net = None ∧ ws_handshake net ws_host ws_target = None ∧ ws_write net msg = None.

(** What is taken for granted of the libraries and of the world during one
    attempt: what completes is under way, an aborted wait was cancelled and the
    clock is in range ([enabled]); and at turn [N] at the latest a signal arrives
    or an operation fails, so that the connection does not last for ever. *)
Record well_behaved (net : ws_session) (N : nat) : Prop := {
  wb_clock : clock_range (ws_clock net);
  wb_enabled : ∀ n c, outstanding c ≠ O → enabled c (ws_completes net n c) ∧ is_completion (ws_completes net n c) = true;
  wb_ends : ∀ c, outstanding c ≠ O → ending c = false → ws_signals net N = true ∨ fails (ws_completes net N c) = true
}.

Section runs.
Context `{Json}.

Lemma runs_trans c tr texts c1 tr' texts' c2 :
  connection_runs c tr texts c1 → connection_runs c1 tr' texts' c2 →
  connection_runs c (tr ++ tr') (texts ++ texts') c2.
Proof.
  intros Hr1 Hr2. induction Hr2 as [|c1 tr' texts' c2 ev c3 _ IH He Hrun].
  - by rewrite !app_nil_r.
  - rewrite !app_assoc. eapply runs_snoc; [by apply IH|done..].
Qed.

Lemma runs_one c ev c' :
  enabled c ev → run_event ev c = (Ok tt, c') → connection_runs c [ev] (text_of c ev) c'.
Proof. intros He Hrun. apply (runs_snoc c [] [] c ev c'); [constructor|done..]. Qed.

(** The delay stays in range, and a signal is not forgotten. *)
Lemma runs_keep φ c tr texts c' :
  connection_inv φ c → connection_runs c tr texts c' →
  (delay_range (reconnect_backoff c) → delay_range (reconnect_backoff c')) ∧
  (shutdown_requested c = true → shutdown_requested c' = true) ∧ (ending c = true → ending c' = true).
Proof.
  intros Hi Hruns. split_and!.
  3: { intros He. by apply (ending_runs φ c tr texts c'). }
  all: induction Hruns as [|c tr texts c1 ev c2 Hruns IH He Hrun]; [done|]; intros Hc; specialize (IH Hi Hc).
  all: destruct ev as [r|e now|e|]; cycle 3; [by injection Hrun as <-|..].
  all: destruct (event_handled _ c1 _ (connection_inv_runs _ _ _ _ _ Hi Hruns) He ltac:(done))
      as (c3 & Hrun' & Hh); rewrite Hrun in Hrun'; injection Hrun' as <-.
  all: try (rewrite (proj2 (handled_stays _ _ _ _ Hh)); exact IH).
  all: destruct (handled_backoff _ _ _ _ Hh) as [-> | ->]; [done|unfold delay_range, initial_delay_seconds, maximum_delay_seconds; lia].
Qed.
End runs.

Section loop.
Context `{Json} (net : ws_session) (N : nat) (Hwb : well_behaved net N).

(** What a turn does. *)
Record turned (n : nat) (c c' : Connection) : Prop := {
  turned_runs : ∃ tr texts, connection_runs c tr texts c';
  turned_signal : ws_signals net n = true → shutdown_requested c' = true;
  turned_ends : n = N → ending c' = true;
  turned_drains : ending c = true → (outstanding c' < outstanding c)%nat
}.

Lemma wp_turn φ n c :
  connection_inv φ c → outstanding c ≠ O → wp (turn net n) (λ _ c', turned n c c') nothrow c.
Proof.
  intros Hi Ho. unfold turn. wp_step.
  set (c1 := if ws_signals net n then set_shutdown c else c).
  assert (Hr1 : ∃ tr texts, connection_runs c tr texts c1).
  { unfold c1. destruct (ws_signals net n); [|by exists [], []; constructor].
    exists [SignalReceived], []. by apply runs_one. }
  assert (Hc1 : outstanding c1 = outstanding c ∧ (ending c = true → ending c1 = true) ∧
    (ws_signals net n = true → shutdown_requested c1 = true)).
  { unfold c1, ending. destruct (ws_signals net n); [|by split_and!]. split_and!; [done|simpl; by rewrite orb_true_r|done]. }
  enough (Hgo : wp (let* c0 := gets id in run_event (ws_completes net n c0)) (λ _ c', turned n c c') nothrow c1).
  { unfold c1 in Hgo. destruct (ws_signals net n); [by apply wp_modify|by apply wp_ret]. }
  clearbody c1. destruct Hr1 as (tr & texts & Hr1), Hc1 as (Ho1 & He1 & Hs1).
  do 2 wp_step. destruct (wb_enabled net N Hwb n c1 ltac:(lia)) as [Hen Hcomp]. unfold id.
  pose proof (connection_inv_runs _ _ _ _ _ Hi Hr1) as Hi1.
  destruct (event_handled _ c1 _ Hi1 Hen) as (c2 & Hrun & Hh); [by intros Heq; rewrite Heq in Hcomp|].
  eapply run_wp; [exact Hrun|]. pose proof (runs_one _ _ _ Hen Hrun) as Hr2.
  destruct Hh as [_ Hd [Hst Hsd] _ Hf _ _]. split.
  - eexists _, _. by eapply runs_trans.
  - rewrite Hsd. apply Hs1.
  - intros ->. destruct (ending c1) eqn:Hend.
    + by apply (runs_keep _ _ _ _ _ Hi1 Hr2).
    + unfold ending. rewrite Hsd. destruct (wb_ends net N Hwb c1 ltac:(lia) Hend) as [Hs|Hs]; [|by apply Hf].
      rewrite (Hs1 Hs). apply orb_true_r.
  - intros He. specialize (Hd (He1 He)). lia.
Qed.

(** Enough turns for the loop to end. *)
Definition enough (fuel n : nat) (c : Connection) : Prop :=
  (n ≤ N ∧ N - n + 5 ≤ fuel)%nat ∨ (ending c = true ∧ outstanding c < fuel)%nat.

Lemma turned_enough φ fuel n c c' :
  connection_inv φ c → turned n c c' → outstanding c ≠ O → enough (S fuel) n c → enough fuel (n + 1) c'.
Proof.
  intros Hi0 Ht Ho Hf. pose proof (turned_ends _ _ _ Ht) as He. pose proof (turned_drains _ _ _ Ht) as Hd.
  destruct (turned_runs _ _ _ Ht) as (tr & texts & Hruns). unfold enough in *.
  pose proof (connection_inv_runs _ _ _ _ _ Hi0 Hruns) as Hi. destruct (runs_keep _ _ _ _ _ Hi0 Hruns) as (_ & _ & Hk).
  assert (Ho3 : (outstanding c' ≤ 3)%nat).
  { destruct Hi as [H1 H2 H3 _ _ _ _]. unfold outstanding. rewrite H3. destruct (heartbeat_write_in_progress c'); lia. }
  destruct Hf as [Hf|[Hend Hf]].
  - destruct (decide (n = N)) as [->|]; [|left; lia]. right. split; [by apply He|lia].
  - right. specialize (Hd Hend). split; [|lia]. by apply Hk.
Qed.

(** The loop is still running when turn [n + k] comes. *)
Fixpoint lasts (k n : nat) (c : Connection) : Prop :=
  outstanding c ≠ O ∧
  match k with O => True | S k => ∀ c', turn net n c = (Ok tt, c') → lasts k (n + 1) c' end.

Lemma wp_io_run φ fuel n c :
  connection_inv φ c → enough fuel n c →
  wp (io_run net fuel n) (λ _ c', (∃ tr texts, connection_runs c tr texts c') ∧ outstanding c' = O ∧
    ∀ k, lasts k n c → ws_signals net (n + k) = true → shutdown_requested c' = true) nothrow c.
Proof.
  revert φ n c. induction fuel as [|fuel IH]; intros φ n c Hi Hf; [exfalso; unfold enough in Hf; lia|].
  simpl. do 2 wp_step. unfold id. destruct (outstanding c =? 0)%nat eqn:Ho.
  { apply Nat.eqb_eq in Ho. wp_step. split_and!; [by exists [], []; constructor|done|].
    intros k Hl _. destruct k, Hl; done. }
  apply Nat.eqb_neq in Ho. wp_step. eapply wp_mono; [apply wp_eq; by eapply wp_turn| |by intros ?? []].
  intros [] c1 [Hrun Ht]. destruct (turned_runs _ _ _ Ht) as (tr1 & texts1 & Hr1).
  eapply wp_mono; [apply (IH (foldl spec_text φ texts1))| |done].
  - by eapply connection_inv_runs.
  - by eapply turned_enough.
  - intros [] c2 ((tr2 & texts2 & Hr2) & Ho2 & Hs2). split_and!; [|done|].
    + eexists _, _. by eapply runs_trans.
    + intros [|k] Hl Hs.
      * rewrite Nat.add_0_r in Hs. eapply runs_keep; [|exact Hr2|by apply Ht].
        by eapply connection_inv_runs.
      * apply (Hs2 k); [by apply Hl|]. by replace (n + 1 + k)%nat with (n + S k)%nat by lia.
Qed.
End loop.

(** ** Attempts *)

(** What set-up leaves of the stream, for some text on the console. *)
Definition set_up_state (net : ws_session) (k : Console) (s : Stream) : Stream :=
  mkStream (sigint s) (sigterm s) (stop_requested s || ws_interrupted net) (backoff s) k.

Lemma wp_set_up net msg s Q E :
  (∀ k, connects net msg → Q tt (set_up_state net k s)) →
  (∀ ex k, ¬ connects net msg → E ex (set_up_state net k s)) →
  wp (set_up net msg) Q E s.
Proof.
  unfold connects, set_up, set_up_state. intros HQ HE. wp_step.
  set (s1 := mkStream (sigint s) (sigterm s) (stop_requested s || ws_interrupted net) (backoff s) (stream_console s)).
  enough (Hgo : wp (done_or_throw (ws_verify_paths net) ;;;
    if negb (ws_tlsext_host_name net ws_host) then throw (runtime_error "Failed to set TLS hostname.")
    else
      let* endpoints := or_throw (ws_resolve net ws_host ws_port) in
      done_or_throw (ws_connect net endpoints) ;;;
      done_or_throw (ws_tls_handshake net) ;;;
      done_or_throw (ws_handshake net ws_host ws_target) ;;;
      with_console (cout "Connected to " ;;; cout ws_host ;;; cout newline) ;;;
      done_or_throw (ws_write net msg) ;;;
      with_console (cout ("Subscription sent" +:+ newline))) Q E s1).
  { destruct s as [a b st d k], (ws_interrupted net); [apply wp_modify|apply wp_ret]; unfold s1 in Hgo; simpl in *;
      rewrite ?orb_true_r, ?orb_false_r in Hgo; exact Hgo. }
  unfold done_or_throw, or_throw, with_console, cout. wp_step.
  destruct (ws_verify_paths net); [apply wp_throw, HE; by intros (? & _)|]. wp_step.
  destruct (ws_tlsext_host_name net ws_host); cbn [negb]; [|apply wp_throw, HE; by intros (_ & ? & _)]. wp_step.
  destruct (ws_resolve net ws_host ws_port) as [endpoints|e].
  2: { apply wp_throw, HE. by intros (_ & _ & (? & ? & _) & _). }
  wp_step. wp_step. destruct (ws_connect net endpoints) eqn:Hc.
  { apply wp_throw, HE. intros (_ & _ & (? & Heq & ?) & _). congruence. }
  wp_step. wp_step. destruct (ws_tls_handshake net); [apply wp_throw, HE; by intros (_ & _ & _ & ? & _)|].
  wp_step. wp_step. destruct (ws_handshake net _ _); [apply wp_throw, HE; by intros (_ & _ & _ & _ & ? & _)|].
  repeat wp_step. destruct (ws_write net msg); [apply wp_throw, HE; by intros (_ & _ & _ & _ & _ & ?)|].
  repeat wp_step. apply HQ. split_and!; eauto.
Qed.

Section attempt.
Context `{Json}.

(** Closing writes to the console, and a signal may arrive. *)
Lemma wp_close_connection net c Q E :
  (∀ c', reconnect_backoff c' = reconnect_backoff c → socket c' = socket c ∨ socket c' = socket_closed →
     (force_close c || ws_is_open net = true → socket c' = socket_closed) →
     shutdown_requested c' = shutdown_requested c || ws_closing_signal net → Q tt c') →
  wp (close_connection net) Q E c.
Proof.
  intros HQ. unfold close_connection. do 3 wp_step. unfold id.
  set (R := λ c', reconnect_backoff c' = reconnect_backoff c ∧ (socket c' = socket c ∨ socket c' = socket_closed) ∧
     (force_close c || ws_is_open net = true → socket c' = socket_closed) ∧
     shutdown_requested c' = shutdown_requested c).
  assert (Hend : ∀ c', R c' → wp (when (ws_closing_signal net) (modify set_shutdown)) Q E c').
  { intros c' (H1 & H2 & H3 & H4). destruct (ws_closing_signal net) eqn:Hs; [apply wp_modify|apply wp_ret];
      (apply HQ; [done..|]); simpl; rewrite ?H4, ?orb_true_r, ?orb_false_r; done. }
  assert (Hrest : ∀ c', reconnect_backoff c' = reconnect_backoff c → socket c' = socket c →
    shutdown_requested c' = shutdown_requested c →
    wp ((if force_close c then modify (set_socket socket_closed)
    else when (ws_is_open net) (modify (set_socket socket_closed) ;;;
      match ws_close net with
      | None => ret tt
      | Some close_error =>
          match code close_error with
          | closed => ret tt
          | _ => warn "WebSocket close warning: " ;;; warn (message close_error) ;;; warn newline
          end
      end)) ;;; when (ws_closing_signal net) (modify set_shutdown)) Q E c').
  { intros c' H1 H2 H3. wp_step. destruct (force_close c); [wp_step; apply Hend; split_and!; simpl; auto|].
    apply wp_when; intros Ho; [|by apply Hend; split_and!; [done|by left|by rewrite Ho|done]].
    do 2 wp_step. destruct (ws_close net) as [e|]; [destruct (code e)|];
      warns; try wp_step; apply Hend; split_and!; simpl; auto. }
  apply wp_when; intros _; [|by apply Hrest]. apply wp_tell. intros k. by apply Hrest.
Qed.

(** The states in which the loop of an attempt may start, while no signal has
    arrived. *)
Definition opened (net : ws_session) (ids : list string) (c : Connection) : Prop :=
  shutdown_requested c = false ∧ ∃ b k c0, open_connection ids b (ws_clock net) k c0 = (Ok tt, c).

(** A signal arrives during the attempt: while the connection is set up, at a
    turn that its loop reaches, or while it is closed. *)
Definition signalled_during (net : ws_session) (ids : list string) (msg : string) : Prop :=
  ws_interrupted net = true ∨
  connects net msg ∧
    (ws_closing_signal net = true ∨
     ∃ k, ws_signals net k = true ∧ ∀ c, opened net ids c → lasts net k 0 c).

(** The run of an attempt that connects: the loop starts from a fresh connection
    and ends with nothing under way, the connection having been stopped. *)
Definition attempt_ran (net : ws_session) (ids : list string) (s s' : Stream) : Prop :=
  ∃ console c0 c1 tr texts c2,
    shutdown_requested c0 = stop_requested s || ws_interrupted net ∧
    open_connection ids (backoff s) (ws_clock net) console c0 = (Ok tt, c1) ∧
    connection_runs c1 tr texts c2 ∧ outstanding c2 = O ∧ connection_stopped c2 = true ∧
    backoff s' = reconnect_backoff c2 ∧ stop_requested s' = shutdown_requested c2 || ws_closing_signal net.
End attempt.

Section attempts.
Context `{Json}.

Lemma wp_attempt network N fuel ids msg k s :
  well_behaved (network k) N → (N + 5 ≤ fuel)%nat → ids ≠ [] → "" ∉ ids → delay_range (backoff s) →
  wp (attempt network fuel ids msg k)
    (λ _ s', connects (network k) msg ∧ attempt_ran (network k) ids s s' ∧ sigint s' = sigint s ∧ sigterm s' = sigterm s ∧
       delay_range (backoff s') ∧ (signalled_during (network k) ids msg → stop_requested s' = true))
    (λ _ s', ¬ connects (network k) msg ∧ ∃ console, s' = set_up_state (network k) console s) s.
Proof.
  intros Hwb Hf Hne Hids Hd. unfold attempt. set (net := network k) in *. wp_step. apply wp_set_up; [|by eauto].
  intros console Hcon. do 2 wp_step. unfold id, in_connection. wp_step. set (c0 := connection_of _). wp_step.
  destruct (open_connection_inv ids (backoff s) (ws_clock net) console c0 Hne Hids (wb_clock _ _ Hwb))
    as (c1 & Hopen & Hi & Hst & Hb1 & Hsd1).
  eapply run_wp; [exact Hopen|]. wp_step. eapply wp_mono; [apply (wp_io_run net N Hwb _ _ _ _ Hi); left; lia| |by intros ?? []].
  intros [] c2 ((tr & texts & Hruns) & Ho & Hsig). apply wp_close_connection. intros c3 Hb _ _ Hsd.
  pose proof (connection_inv_runs _ _ _ _ _ Hi Hruns) as Hi2.
  destruct (runs_keep _ _ _ _ _ Hi Hruns) as (Hk1 & Hk2 & _).
  assert (Hstop : connection_stopped c2 = true).
  { destruct (connection_stopped c2) eqn:Hs; [done|]. destruct (inv_alive _ _ Hi2 Hs) as (Hw & _).
    unfold outstanding in Ho. lia. }
  split_and!; [done| |done|done|simpl; rewrite Hb; apply Hk1; by rewrite Hb1|].
  - exists console, c0, c1, tr, texts, c2. split_and!; done.
  - simpl. rewrite Hsd. intros [Hint|(_ & [-> |(j & Hj & Hl)])]; [|apply orb_true_r|].
    + rewrite Hk2; [done|]. rewrite Hsd1. unfold c0. simpl. by rewrite Hint, orb_true_r.
    + destruct (shutdown_requested c1) eqn:Hs1; [by rewrite Hk2|].
      rewrite (Hsig j); [done| |done]. apply Hl. split; [done|]. by exists (backoff s), console, c0.
Qed.
End attempts.

(** A signal ends the stream: the attempts before and that of the signal are well
    behaved, for as many turns as there is fuel, and the signal arrives during
    attempt [n]. *)
Record ends_by_signal `{Json} (network : nat → ws_session) (fuel : nat) (ids : list string) (n : nat) : Prop := {
  es_attempts : (n < fuel)%nat;
  es_well_behaved : ∀ k, (k ≤ n)%nat → ∃ N, (N + 5 ≤ fuel)%nat ∧ well_behaved (network k) N;
  es_signal : ∀ msg, signalled_during (network n) ids msg
}.

Section stream.
Context `{Json}.

Lemma wp_stream_tokens network signalled fuel ids n s :
  ends_by_signal network fuel ids n →
  wp (stream_tokens network signalled fuel ids)
    (λ _ s', (ids ≠ [] ∧ "" ∉ ids ∧ sigint s' = sigint s ∧ sigterm s' = sigterm s ∧ stop_requested s' = true) ∧
             ∃ t, json_dump (subscription (first_occurrences ids)) = inl t)
    (λ _ s', sigint s' = handle_shutdown_signal ∧ sigterm s' = handle_shutdown_signal ∧
        (ids = [] ∨ "" ∈ ids ∨ ∃ w, json_dump (subscription (first_occurrences ids)) = inr w)) s.
Proof.
  intros [Hn Hwb Hsig]. unfold stream_tokens. apply (wp_stream_market _ _ n); [| | |done].
  - intros msg k s1 Hne Hids Hk (Hi & Ht & Hd). destruct (Hwb k Hk) as (N & Hf & HN).
    eapply wp_mono; [by apply (wp_attempt _ N)| |].
    + intros [] s2 (_ & _ & H1 & H2 & H3 & _). unfold streaming. by rewrite H1, H2.
    + intros ex s2 (_ & console & ->). by split_and!.
  - intros s1 Hs1. unfold sleep_for_second. wp_step. by destruct (signalled s1).
  - intros msg s1 Hne Hids (Hi & Ht & Hd). destruct (Hwb n ltac:(lia)) as (N & Hf & HN).
    eapply wp_mono; [by apply (wp_attempt _ N)| |].
    + intros [] s2 (_ & _ & _ & _ & _ & Hs). apply Hs, Hsig.
    + intros ex s2 (Hnc & console & ->). simpl.
      destruct (Hsig msg) as [-> |(Hc & _)]; [apply orb_true_r|done].
Qed.

(** C38: one connection attempt of the stream ends.  When a call of the set-up
    fails it throws and leaves the delay as it was; otherwise it returns, its
    loop was a run of the handlers from a freshly opened connection up to a state
    with nothing under way, in which the connection was stopped, and the stream
    takes over its delay and its flag; and a signal that arrived during the
    attempt is known afterwards.  Neither touches the signal handlers.  This is
    for sessions whose completions are of operations under way and in which, at
    some turn that the fuel covers, a signal arrives or an operation fails. *)
Theorem connection_attempt_ends network N fuel ids msg k s :
  well_behaved (network k) N → (N + 5 ≤ fuel)%nat → ids ≠ [] → "" ∉ ids → delay_range (backoff s) →
  ∃ r s', attempt network fuel ids msg k s = (r, s') ∧ sigint s' = sigint s ∧ sigterm s' = sigterm s ∧
    match r with
    | Ok _ => connects (network k) msg ∧ attempt_ran (network k) ids s s' ∧ delay_range (backoff s')
    | Throw _ => ¬ connects (network k) msg ∧ backoff s' = backoff s ∧
                 stop_requested s' = stop_requested s || ws_interrupted (network k)
    | _ => False
    end ∧
    (signalled_during (network k) ids msg → stop_requested s' = true).
Proof.
  intros Hwb Hf Hne Hids Hd.
  destruct (wp_outcome _ _ _ _ (wp_attempt network N fuel ids msg k s Hwb Hf Hne Hids Hd)) as (r & s' & Hrun & Hr).
  exists r, s'. split; [done|]. destruct r as [[]|ex| |]; try done.
  - destruct Hr as (H1 & H2 & H3 & H4 & H5 & H6). by split_and!.
  - destruct Hr as (Hnc & console & ->). split_and!; [done..|]. simpl.
    intros [-> |(Hc & _)]; [apply orb_true_r|done].
Qed.
End stream.

(** ** Two attempts *)

(** The completion a state without failures would see next: the timer fires. *)
Definition timer_fires (n : nat) (c : Connection) : io_event :=
  if (0 <? waits c)%nat then WaitDone None 0
  else if (0 <? reads c)%nat then ReadDone (inr (mkError operation_aborted "aborted"))
  else WriteDone None.

(** A session in which every call succeeds and the user interrupts at turn 1. *)
Definition sample_ws : ws_session :=
  mkWs None (λ _, true) (λ _ _, inl ["192.0.2.1"]) (λ _, None) None (λ _ _, None) (λ _, None)
    0 false (λ n, (n =? 1)%nat) timer_fires true None false.

(** A session that cannot resolve its host. *)
Definition failing_ws : ws_session :=
  mkWs None (λ _, true) (λ _ _, inr (runtime_error "Host not found")) (λ _, None) None (λ _ _, None) (λ _, None)
    0 false (λ n, (n =? 1)%nat) timer_fires true None false.

Definition sample_network (k : nat) : ws_session := match k with O => failing_ws | _ => sample_ws end.

Lemma sample_behaves k : well_behaved (sample_network k) 1.
Proof.
  assert (Hc : ∀ n, ws_completes (sample_network k) n = timer_fires n) by (intros n; by destruct k).
  split.
  - replace (ws_clock (sample_network k)) with 0 by (by destruct k). by apply (seconds_in_range 0).
  - intros n c Ho. rewrite Hc. unfold timer_fires, outstanding in *.
    destruct (waits c) eqn:?; simpl; [destruct (reads c) eqn:?; simpl|]; (split; [|done]); [lia|lia|].
    split; [lia|]. split; [done|]. by apply (seconds_in_range 0).
  - intros c _ _. left. by destruct k.
Qed.

Definition idle_stream : Stream := mkStream (caller_handler 1) (caller_handler 2) false 1 (mkConsole [] []).

Lemma sample_signalled `{Json} ids msg : signalled_during (sample_network 1) ids msg.
Proof.
  right. split; [unfold connects; simpl; split_and!; eauto|]. right. exists 1%nat. split; [done|].
  intros c (Hsd & b & k & c0 & Hopen). unfold open_connection, bind at 1 in Hopen.
  destruct (new_market_state ids c0) as [[st| | |] c1]; try done.
  destruct c1 as [f h d sd stopped fc wr rd wt wa tc so].
  destruct sd; vm_compute in Hopen; injection Hopen as <-; [done|].
  split; [done|]. intros c' Hturn. vm_compute in Hturn. injection Hturn as <-. by split.
Qed.

Lemma connection_attempt_ends_witness :
  ∃ r s', attempt (H:=stream_json) sample_network 6 ["A"] "{}" 1 idle_stream = (r, s') ∧
    sigint s' = sigint idle_stream ∧ sigterm s' = sigterm idle_stream ∧
    match r with
    | Ok _ => connects (sample_network 1) "{}" ∧ attempt_ran (H:=stream_json) (sample_network 1) ["A"] idle_stream s' ∧
              delay_range (backoff s')
    | Throw _ => ¬ connects (sample_network 1) "{}" ∧ backoff s' = backoff idle_stream ∧
                 stop_requested s' = stop_requested idle_stream || ws_interrupted (sample_network 1)
    | _ => False
    end ∧
    (signalled_during (H:=stream_json) (sample_network 1) ["A"] "{}" → stop_requested s' = true).
Proof.
  apply (connection_attempt_ends (H:=stream_json) sample_network 1 6 ["A"] "{}" 1 idle_stream).
  - apply sample_behaves.
  - lia.
  - done.
  - by apply (bool_decide_eq_true_1 ("" ∉ ["A"])).
  - unfold delay_range, maximum_delay_seconds. simpl. lia.
Defined.
