(* ===== verification/CommandLine.v ===== *)
(** * The command line

    [src/main.cpp] and the client it downloads snapshots with,
    [src/http_client.cpp].  What the network libraries answer to the calls of
    one request is a record the client is given, and what they answer to each
    connection of the stream another ([Session]); the process has the state of
    [Stream], whose console it writes to. *)
From S2P Require Import Prelude OrderBook FixedPoint Json MarketFeed FeedClient Stream Session.
From Stdlib Require Import Ascii.
From Stdlib Require String.

Local Open Scope Z_scope.

(** ** HttpClient *)

Record http_request : Type := mkRequest {
  verb : string;
  target : string;
  version : Z;
  fields : list (string * string)
}.

(** How the shutdown of the TLS stream ended. *)
Inductive shutdown_status : Type :=
| shutdown_done
| shutdown_eof
| shutdown_truncated
| shutdown_failed (text : string).

(** What the calls of Asio, Beast and OpenSSL answer, for the arguments they get:
    an exception where they throw. *)
Record http_session : Type := mkSession {
  set_default_verify_paths : option exn;
  set_tlsext_host_name : string → bool;
  resolve : string → string → list string + exn;
  connect_to : list string → option exn;
  tls_handshake : option exn;
  write_request : http_request → option exn;
  read_response : http_request → (Z * string) + exn;
  tls_shutdown : shutdown_status
}.

Section http.
Context {S : Type}.

Definition http_get (net : http_session) (host target port : string) : M S string :=
  done_or_throw (set_default_verify_paths net) ;;;
  if negb (set_tlsext_host_name net host) then throw (runtime_error "Failed to set TLS hostname.")
  else
    let* endpoints := or_throw (resolve net host port) in
    done_or_throw (connect_to net endpoints) ;;;
    done_or_throw (tls_handshake net) ;;;
    let request := mkRequest "GET" target 11
      [("Host", host); ("User-Agent", "cmarket/0.1.0"); ("Accept", "application/json")] in
    done_or_throw (write_request net request) ;;;
    let* response := or_throw (read_response net request) in
    let '(result_int, body) := response in
    if (result_int <? 200) || (result_int >=? 300)
    then throw (runtime_error ("HTTP request failed with status " +:+
                               String.string_of_list_ascii (print_int64 result_int)))
    else
      match tls_shutdown net with
      | shutdown_failed text => throw (runtime_error text)
      | _ => ret body
      end.
End http.

(** ** Snapshots *)

Section commands.
Context `{Json}.

Definition cl_parse_level {S} (level : json) : M S PriceLevel :=
  if negb (is_object level) then throw (runtime_error "Each order-book level must be an object.")
  else if negb (has_members level ["price"; "size"])
  then throw (runtime_error "Order-book level is missing price or size.")
  else
    let* strings := members_are_strings level ["price"; "size"] in
    if negb strings then throw (runtime_error "Order-book price and size must be strings.")
    else
      let* price := get_member level "price" in
      let* size := get_member level "size" in
      let* price_ticks := price_to_ticks price in
      let* quantity := quantity_to_fixed size in
      ret (mkLevel price_ticks quantity).

Definition cl_parse_levels {S} (snapshot : json) (side_name : string) : M S (list PriceLevel) :=
  if negb (contains snapshot side_name)
  then throw (runtime_error ("Order-book response is missing " +:+ quoted side_name +:+ "."))
  else
    let* levels := json_at snapshot side_name in
    if negb (is_array levels) then throw (runtime_error (quoted side_name +:+ " must be a JSON array."))
    else collect cl_parse_level (elements_of levels).

Definition print_optional_price (label : string) (price : option Z) : M Console unit :=
  cout label ;;;
  match price with
  | Some ticks => let* t := format_price ticks 3 in cout t
  | None => cout "N/A"
  end ;;;
  cout newline.

Definition print_order_book (book : OrderBook) : M Console unit :=
  cout newline ;;;
  print_optional_price "Best bid: " (level_price <$> best_bid book) ;;;
  print_optional_price "Best ask: " (level_price <$> best_ask book) ;;;
  let* spread := run_local book spread_ticks in
  print_optional_price "Spread:   " spread ;;;
  let* mid := run_local book mid_price_ticks in
  print_optional_price "Mid:      " mid ;;;
  cout newline ;;;
  cout "Bid levels: " ;;; cout (print_size (length (bids book))) ;;; cout newline ;;;
  cout "Ask levels: " ;;; cout (print_size (length (asks book))) ;;; cout newline ;;;
  cout "Bid depth:  " ;;;
  let* bid := run_local book bid_depth in
  let* bid_text := format_price bid 6 in
  cout bid_text ;;; cout newline ;;;
  cout "Ask depth:  " ;;;
  let* ask := run_local book ask_depth in
  let* ask_text := format_price ask 6 in
  cout ask_text ;;; cout newline.

(** ** Commands *)

Definition run_book_command (net : http_session) (token_id : string) : M Console unit :=
  if bool_decide (token_id = "") then throw (invalid_argument "Token ID cannot be empty.")
  else
    cout ("Downloading order-book snapshot..." +:+ newline) ;;;
    let* response := http_get net "clob.polymarket.com" ("/book?token_id=" +:+ token_id) "443" in
    let* snapshot := from_json (json_parse response) in
    if negb (is_object snapshot) then throw (runtime_error "Expected an order-book JSON object.")
    else
      let* bids := cl_parse_levels snapshot "bids" in
      let* asks := cl_parse_levels snapshot "asks" in
      let* book := run_local empty_book (replace_snapshot bids asks ;;; gets id) in
      print_order_book book.

Definition run_stream_command (network : nat → ws_session) (signalled : Stream → bool) (fuel : nat)
    (token_ids : list string) : M Stream unit :=
  match token_ids with
  | [] => throw (invalid_argument "At least one token ID is required.")
  | _ =>
      for_each token_ids (λ token_id,
        if bool_decide (token_id = "") then throw (invalid_argument "Token ID cannot be empty.") else ret tt) ;;;
      stream_tokens network signalled fuel token_ids
  end.

Definition print_usage (program_name : string) : M Console unit :=
  cerr ("Usage:" +:+ newline) ;;;
  cerr "  " ;;; cerr program_name ;;; cerr (" book <token-id>" +:+ newline) ;;;
  cerr "  " ;;; cerr program_name ;;; cerr (" stream <token-id> [token-id ...]" +:+ newline).

(** [argv[i]]; there is none at or past [argc]. *)
Definition argument (argv : list string) (i : nat) : M Stream string := at_index argv i.

Definition main_body (net : http_session) (network : nat → ws_session) (signalled : Stream → bool) (fuel : nat)
    (argv : list string) : M Stream Z :=
  let argc := length argv in
  let usage := let* program := argument argv 0 in with_console (print_usage program) ;;; ret 1 in
  if (argc <? 3)%nat then usage
  else
    let* command := argument argv 1 in
    if bool_decide (command = "book") then
      if negb (argc =? 3)%nat then usage
      else
        let* token_id := argument argv 2 in
        with_console (run_book_command net token_id) ;;; ret 0
    else if bool_decide (command = "stream") then
      run_stream_command network signalled fuel (drop 2 argv) ;;; ret 0
    else
      with_console (cerr "Unknown command: " ;;; cerr command ;;; cerr newline) ;;;
      usage.

Definition main (net : http_session) (network : nat → ws_session) (signalled : Stream → bool) (fuel : nat)
    (argv : list string) : M Stream Z :=
  try_catch (main_body net network signalled fuel argv) (λ error,
    with_console (
      cerr match error with json_exception _ => "JSON error: " | _ => "Error: " end ;;;
      cerr (what error) ;;; cerr newline) ;;;
    ret 1).
End commands.
