(* ===== verification/CommandLineTheorems.v ===== *)
(** * Theorems about the command line

    Which answers of the network give a body, and when the program ends with
    which exit code. *)
From S2P Require Import Prelude Orders OrderBook Levels EngineSpec BookTheorems FixedPoint.
From S2P Require Import Json MarketFeed FeedClient FeedSpec FeedTheorems Heartbeat Connection ConnectionTheorems Stream Session SessionTheorems CommandLine.
From Stdlib Require String.

Local Open Scope Z_scope.

(** ** Requests *)

Definition get_request (host target : string) : http_request :=
  mkRequest "GET" target 11 [("Host", host); ("User-Agent", "cmarket/0.1.0"); ("Accept", "application/json")].

(** The network answers the request with a body: every call succeeds, the status
    is one of success, and the stream is shut down, perhaps without ceremony. *)
Definition answers (net : http_session) (host target port body : string) : Prop :=
  set_default_verify_paths net = None ∧ set_tlsext_host_name net host = true ∧
  (∃ endpoints, resolve net host port = inl endpoints ∧ connect_to net endpoints = None) ∧
  tls_handshake net = None ∧ write_request net (get_request host target) = None ∧
  (∃ status, read_response net (get_request host target) = inl (status, body) ∧ 200 ≤ status < 300) ∧
  (∀ text, tls_shutdown net ≠ shutdown_failed text).

Lemma wp_http_get {S} net host target port Q E (σ : S) :
  (∀ body, answers net host target port body → Q body σ) →
  ((∀ body, ¬ answers net host target port body) → ∀ ex, E ex σ) →
  wp (http_get net host target port) Q E σ.
Proof.
  unfold answers, http_get, or_throw, done_or_throw. fold (get_request host target). intros HQ HE.
  wp_step. destruct (set_default_verify_paths net); [apply wp_throw, HE; by intros ? (? & _)|]. wp_step.
  destruct (set_tlsext_host_name net host); cbn [negb]; [|apply wp_throw, HE; by intros ? (_ & ? & _)].
  wp_step. destruct (resolve net host port) as [endpoints|e].
  2: { apply wp_throw, HE. by intros ? (_ & _ & (? & ? & _) & _). }
  do 2 wp_step. destruct (connect_to net endpoints) eqn:Hc.
  { apply wp_throw, HE. intros ? (_ & _ & (? & Heq & ?) & _). congruence. }
  do 2 wp_step. destruct (tls_handshake net); [apply wp_throw, HE; by intros ? (_ & _ & _ & ? & _)|].
  do 2 wp_step. destruct (write_request net _); [apply wp_throw, HE; by intros ? (_ & _ & _ & _ & ? & _)|].
  do 2 wp_step. destruct (read_response net _) as [[status body]|e].
  2: { apply wp_throw, HE. by intros ? (_ & _ & _ & _ & _ & (? & ? & _) & _). }
  wp_step. destruct ((status <? 200) || (status >=? 300)) eqn:Hst.
  { apply wp_throw, HE. intros b (_ & _ & _ & _ & _ & (? & [= <- <-] & Hr) & _).
    apply orb_true_iff in Hst as [Hst|Hst]; zb; lia. }
  zb. destruct (tls_shutdown net) eqn:Hs;
    [apply wp_ret, HQ..|apply wp_throw, HE; intros ? (_ & _ & _ & _ & _ & _ & Hn); by destruct (Hn text)].
  all: split_and!; eauto 10 with lia.
Qed.

(** ** Snapshots *)

Section snapshots.
Context `{Json}.

Lemma wp_cl_parse_level {S} level Q E (σ : S) :
  (∀ x, spec_level level = Some x → level_typed x ∧ level_nonneg x → Q x σ) →
  (spec_level level = None → ∀ ex, E ex σ) → wp (cl_parse_level level) Q E σ.
Proof.
  intros HQ HE. apply wp_level_guards; [|done]. intros Ho price size Ht1 Ht2.
  rewrite (spec_level_read _ price size) in HQ, HE by done.
  wp_step. apply (wp_get_member _ _ price); [done|]. wp_step. apply (wp_get_member _ _ size); [done|]. wp_step.
  apply wp_price_to_ticks; [|intros Hr; by rewrite Hr in HE; apply HE].
  intros p Hr1 Hp. rewrite Hr1 in *. simpl in HQ, HE. wp_step.
  apply wp_quantity_to_fixed; [|intros Hr; by rewrite Hr in HE; apply HE].
  intros q Hr2 Hq. rewrite Hr2 in *. wp_step. apply HQ; [done|by apply level_read_ok].
Qed.

Lemma wp_cl_parse_levels {S} message side_name Q E (σ : S) :
  (∀ l, spec_levels message side_name = Some l → Forall (λ x, level_typed x ∧ level_nonneg x) l → Q l σ) →
  (spec_levels message side_name = None → ∀ ex, E ex σ) →
  wp (cl_parse_levels message side_name) Q E σ.
Proof.
  unfold spec_levels, cl_parse_levels. intros HQ HE.
  destruct (contains message side_name) eqn:Hc; simpl; [|apply wp_throw; auto].
  wp_step. apply wp_json_at; [done|]. intros v Hv. rewrite Hv in *.
  destruct (is_array v); simpl; [|apply wp_throw; auto].
  apply (wp_collect _ spec_level (λ x, level_typed x ∧ level_nonneg x)); [|done|done].
  intros x Q' E' HQ' HE'. by apply wp_cl_parse_level.
Qed.
End snapshots.

(** No bid is above an ask. *)
Definition uncrossed (bs ys : list PriceLevel) : Prop :=
  ∀ p q, 0 < total_at p bs → 0 < total_at q ys → p ≤ q.

Lemma uncrossed_iff b bs ys :
  book_wf b → (∀ p, book_depth Buy p b = total_at p bs) → (∀ p, book_depth Sell p b = total_at p ys) →
  crossed b = false ↔ uncrossed bs ys.
Proof.
  intros Hwf Hb Ha. split.
  - intros Hc p q Hp Hq. rewrite <- Hb in Hp. rewrite <- Ha in Hq.
    destruct (decide (p ≤ q)) as [|Hn]; [done|]. rewrite (crossed_depths b p q) in Hc; [done..|lia].
  - intros Hu. destruct (crossed b) eqn:Hc; [|done]. unfold crossed, best_bid, best_ask in Hc.
    destruct (Hwf Buy) as [_ Fb], (Hwf Sell) as [_ Fa]. unfold book_depth in Hb, Ha. simpl in *.
    destruct (bids_ b) as [|x l]; [done|]. destruct (asks_ b) as [|y r]; [done|]. simpl in Hc. zb.
    specialize (Hu (level_price x) (level_price y)). rewrite <- Hb, <- Ha in Hu. simpl in Hu.
    rewrite !Z.eqb_refl in Hu. apply Forall_cons in Fb as [[_ Fx] _], Fa as [[_ Fy] _]. lia.
Qed.

Lemma wp_print_optional_price label price Q E c :
  (∀ t, price = Some t → t ≤ INT64_MAX) →
  ((∀ t, price = Some t → 0 ≤ t) → ∀ c', Q tt c') →
  (∀ t, price = Some t → t < 0 → ∀ c', E negative_price c') →
  wp (print_optional_price label price) Q E c.
Proof.
  intros Hb HQ HE. unfold print_optional_price. couts. wp_step. destruct price as [t|].
  - wp_step. apply wp_format_price; [by apply Hb|lia| |intros Ht; by apply (HE t)].
    intros Ht s. couts. apply HQ. by intros ? [= <-].
  - couts. by apply HQ.
Qed.

Lemma wp_print_order_book b Q E c :
  book_wf b → (crossed b = false → ∀ c', Q tt c') → (crossed b = true → ∀ c', E negative_price c') →
  wp (print_order_book b) Q E c.
Proof.
  intros Hwf HQ HE. unfold print_order_book.
  assert (HB : ∀ t, level_price <$> best_bid b = Some t → 0 ≤ t ≤ INT64_MAX) by (intros t; by apply (best_price_ok Buy)).
  assert (HA : ∀ t, level_price <$> best_ask b = Some t → 0 ≤ t ≤ INT64_MAX) by (intros t; by apply (best_price_ok Sell)).
  couts. wp_step. apply wp_print_optional_price; [intros t Ht%HB; lia| |intros t Ht%HB; lia]. intros _ c1. wp_step.
  apply wp_print_optional_price; [intros t Ht%HA; lia| |intros t Ht%HA; lia]. intros _ c2. wp_step.
  apply wp_spread; [done|]. intros o Ho Hn. wp_step. apply wp_print_optional_price; [by intros t Ht; apply Ho| |].
  2: { intros t Ht Hneg c3. apply HE. destruct (Ho t Ht) as [_ ->]. by apply Z.ltb_lt. }
  intros Hpos c3. assert (Hun : crossed b = false).
  { destruct o as [t|]; [|auto]. destruct (Ho t eq_refl) as [_ ->]. apply Z.ltb_ge. auto. }
  wp_step. apply wp_mid; [done|]. intros m Hm. wp_step.
  apply wp_print_optional_price; [intros t Ht%Hm; lia| |intros t Ht%Hm; lia]. intros _ c4. couts.
  wp_step. apply (wp_depth Buy); [done|]. intros d Hd. wp_step. apply wp_format_price; [lia|lia| |lia]. intros _ s.
  couts. wp_step. apply (wp_depth Sell); [done|]. intros d' Hd'. wp_step. apply wp_format_price; [lia|lia| |lia].
  intros _ s'. couts. by apply HQ.
Qed.

(** ** The program *)

#[local] Arguments run_stream_command : simpl never.

Section program.
Context `{Json}.

(** The answer to a request for a token is a snapshot that can be shown. *)
Definition served (net : http_session) (token_id : string) : Prop :=
  token_id ≠ "" ∧ ∃ body v bs ys,
    answers net "clob.polymarket.com" ("/book?token_id=" +:+ token_id) "443" body ∧
    json_parse body = inl v ∧ is_object v = true ∧
    spec_levels v "bids" = Some bs ∧ spec_levels v "asks" = Some ys ∧
    sums_fit bs = true ∧ sums_fit ys = true ∧ uncrossed bs ys.

Lemma answers_unique net host target port b1 b2 :
  answers net host target port b1 → answers net host target port b2 → b1 = b2.
Proof. intros (_ & _ & _ & _ & _ & (? & H1 & _) & _) (_ & _ & _ & _ & _ & (? & H2 & _) & _). congruence. Qed.

(** The snapshot that replaces an empty book. *)
Lemma wp_fresh_book {S} bs ys Q E (σ : S) :
  Forall (λ x, level_typed x ∧ level_nonneg x) bs → Forall (λ x, level_typed x ∧ level_nonneg x) ys →
  (sums_fit bs = true → sums_fit ys = true → ∀ b, book_wf b → (crossed b = false ↔ uncrossed bs ys) → Q b σ) →
  (sums_fit bs && sums_fit ys = false → ∀ ex, E ex σ) →
  wp (run_local empty_book (replace_snapshot bs ys ;;; gets id)) Q E σ.
Proof.
  intros [Tb Nb]%Forall_and [Ty Ny]%Forall_and HQ HE. do 2 wp_step. apply wp_replace_snapshot; [done..| |].
  - intros b Hwf Db Da _ _. wp_step. apply HQ; [| |done|by apply uncrossed_iff].
    + apply sums_fit_iff. intros p. rewrite <- Db. by apply book_depth_bounds.
    + apply sums_fit_iff. intros p. rewrite <- Da. by apply book_depth_bounds.
  - intros ex [Hb|Hb]; apply HE; apply snapshot_bad_sums in Hb; rewrite ?Hb, ?andb_false_r; done.
Qed.

Lemma wp_run_book_command net token Q E c :
  (served net token → ∀ c', Q tt c') → (¬ served net token → ∀ ex c', E ex c') →
  wp (run_book_command net token) Q E c.
Proof.
  intros HQ HE. unfold run_book_command, served in *.
  case_bool_decide as Ht; [apply wp_throw, HE; by intros [? _]|]. couts. wp_step. apply wp_http_get.
  2: { intros Hn ex. apply HE. intros (_ & body & v & bs & ys & Ha & _). by destruct (Hn body). }
  intros body Ha.
  assert (Hs : ∀ P : json → list PriceLevel → list PriceLevel → Prop,
    (∃ body v bs ys, answers net "clob.polymarket.com" ("/book?token_id=" +:+ token) "443" body ∧
       json_parse body = inl v ∧ P v bs ys) ↔ ∃ v bs ys, json_parse body = inl v ∧ P v bs ys).
  { intros P. split.
    - intros (body' & v & bs & ys & Ha' & Hv & HP). rewrite (answers_unique _ _ _ _ _ _ Ha Ha'). eauto.
    - intros (v & bs & ys & Hv & HP). eauto 10. }
  rewrite Hs in HQ, HE. clear Hs. wp_step. unfold from_json.
  destruct (json_parse body) as [v|w]; [|apply wp_throw, HE; by intros (_ & ? & ? & ? & ? & _)].
  assert (HN : (∀ bs ys, ¬ (is_object v = true ∧ spec_levels v "bids" = Some bs ∧ spec_levels v "asks" = Some ys ∧
    sums_fit bs = true ∧ sums_fit ys = true ∧ uncrossed bs ys)) → ∀ ex c', E ex c').
  { intros Hno. apply HE. intros (_ & v' & bs & ys & [= <-] & HP). by apply (Hno bs ys). }
  clear HE. wp_step. destruct (is_object v) eqn:Ho; cbn [negb]; [|apply wp_throw, HN; by intros ?? (? & _)].
  wp_step. apply wp_cl_parse_levels; [|intros Hb ex; apply HN; intros ?? (_ & ? & _); congruence].
  intros bs Hbs Fb. wp_step. apply wp_cl_parse_levels; [|intros Hb ex; apply HN; intros ?? (_ & _ & ? & _); congruence].
  intros ys Hys Fy. wp_step. apply wp_fresh_book; [done|done| |].
  - intros Sb Sy b Hwf Hcr. apply wp_print_order_book; [done| |].
    + intros Hun%Hcr c'. apply HQ. split; [done|]. exists v, bs, ys. split_and!; done.
    + intros Hx c'. apply HN. intros ?? (_ & ? & ? & _ & _ & Hu). simplify_eq.
      apply Hcr in Hu. congruence.
  - intros Hs ex. apply HN. intros ?? (_ & ? & ? & S1 & S2 & _). simplify_eq. by rewrite S1, S2 in Hs.
Qed.

Lemma wp_usage argv s Q E :
  argv ≠ [] → (∀ s', Q 1 s') →
  wp (let* program := argument argv 0 in with_console (print_usage program) ;;; ret 1) Q E s.
Proof.
  intros Hne HQ. destruct argv as [|p argv]; [done|]. wp_step. apply (wp_at_index _ _ p); [done|].
  unfold with_console, print_usage, cerr. repeat wp_step. apply HQ.
Qed.

(** The tokens can be subscribed. *)
Definition subscribable (ids : list string) : Prop :=
  ids ≠ [] ∧ "" ∉ ids ∧ ∃ t, json_dump (subscription (first_occurrences ids)) = inl t.

Lemma wp_run_stream_command network signalled fuel ids n s (Q : unit → Stream → Prop) E :
  ends_by_signal network fuel ids n →
  (∀ s', subscribable ids → sigint s' = sigint s ∧ sigterm s' = sigterm s → Q tt s') →
  (∀ ex s', ¬ subscribable ids → E ex s') → wp (run_stream_command network signalled fuel ids) Q E s.
Proof.
  intros Hes HQ HE. unfold run_stream_command. destruct ids as [|id ids]; [apply wp_throw, HE; by intros [? _]|].
  wp_step. set (ts := id :: ids) in *.
  assert (Hgo : wp (stream_tokens network signalled fuel ts) Q E s).
  { eapply wp_mono; [by apply (wp_stream_tokens _ _ _ _ n)| |].
    - intros [] s' [(H1 & H2 & H3 & H4 & _) [t Ht]]. apply HQ; [|done]. split_and!; eauto.
    - intros ex s' (_ & _ & Hbad). apply HE. intros (H1 & H2 & t & Ht).
      destruct Hbad as [?|[?|[w Hw]]]; [done..|congruence]. }
  assert (Hl : ∀ l, (∀ x, x ∈ l → x ∈ ts) →
    wp (for_each l (λ token_id, if bool_decide (token_id = "")
      then throw (invalid_argument "Token ID cannot be empty.") else ret tt))
      (λ _ s', wp (stream_tokens network signalled fuel ts) Q E s') E s).
  { induction l as [|x l IH]; intros Hsub; simpl; [by wp_step|]. wp_step. case_bool_decide as Hx.
    - apply wp_throw, HE. intros (_ & Hn & _). apply Hn. subst x. apply Hsub. by left.
    - wp_step. apply IH. intros y Hy. apply Hsub. by right. }
  by apply Hl.
Qed.

(** C39: started with a program name, the program ends with exit code 0 or 1 and
    lets no exception out.  For [book] with a token the code is 0 exactly when the
    server answers the request with a snapshot that is well formed, fits the
    integers of the book and is not crossed, whatever else the network answers.
    For [stream] the connections have to be well behaved and one of them has to be
    ended by a signal, as a stream lasts until then; the code is 0 exactly when
    the tokens can be subscribed, and the signal handlers the program had are
    then back in place. *)
Theorem main_exit_code net network signalled fuel n program args s :
  (∀ ids, args = "stream" :: ids → ends_by_signal network fuel ids n) →
  ∃ code s', main net network signalled fuel (program :: args) s = (Ok code, s') ∧ (code = 0 ∨ code = 1) ∧
    (∀ token, args = ["book"; token] → (code = 0 ↔ served net token)) ∧
    (∀ ids, args = "stream" :: ids →
       (code = 0 ↔ subscribable ids) ∧ (code = 0 → sigint s' = sigint s ∧ sigterm s' = sigterm s)).
Proof.
  intros Hes. set (good := λ (code : Z) (s' : Stream), (code = 0 ∨ code = 1) ∧
    (∀ token, args = ["book"; token] → (code = 0 ↔ served net token)) ∧
    (∀ ids, args = "stream" :: ids →
       (code = 0 ↔ subscribable ids) ∧ (code = 0 → sigint s' = sigint s ∧ sigterm s' = sigterm s))).
  cut (wp (main net network signalled fuel (program :: args)) good nothrow s).
  { intros (code & s' & Hrun & Hc)%wp_run. eauto. }
  assert (Hone : (∀ token, args = ["book"; token] → ¬ served net token) →
    (∀ ids, args = "stream" :: ids → ¬ subscribable ids) → ∀ s', good 1 s').
  { intros Hno Hno' s'. split; [by right|]. split; [intros token Ha|intros ids Ha; split]; [|split|]; try done.
    - split; [done|]. by intros ?%Hno.
    - by intros ?%Hno'. }
  unfold main. wp_step. unfold main_body.
  assert (Herr : (∀ token, args = ["book"; token] → ¬ served net token) →
    (∀ ids, args = "stream" :: ids → ¬ subscribable ids) →
    ∀ ex s', wp (with_console (cerr match ex with json_exception _ => "JSON error: " | _ => "Error: " end ;;;
      cerr (what ex) ;;; cerr newline) ;;; ret 1) good nothrow s').
  { intros Hno Hno' ex s'. unfold with_console, cerr. repeat wp_step. by apply Hone. }
  destruct args as [|command [|token rest]]; simpl.
  1-2: apply wp_usage; [done|]; apply Hone; [done|]; by intros ids [= _ <-] [? _].
  wp_step. apply (wp_at_index _ _ command); [done|]. case_bool_decide as Hbook; [subst|].
  - destruct rest as [|x rest]; simpl; [|by apply wp_usage; [done|]; apply Hone].
    wp_step. apply (wp_at_index _ _ token); [done|]. wp_step. unfold with_console at 1. wp_step.
    apply wp_run_book_command.
    + intros Hs c'. wp_step. split; [by left|]. split; [by intros ? [= <-]|done].
    + intros Hn ex c'. apply Herr; [by intros ? [= <-]|done].
  - assert (Hno : ∀ t, command :: token :: rest = ["book"; t] → ¬ served net t) by by intros t [= ? _ _].
    case_bool_decide as Hstream; [subst|].
    + wp_step. apply (wp_run_stream_command _ _ _ _ n); [by apply Hes| |].
      * intros s' Hsub Hsig. wp_step. split; [by left|]. split; [by intros ? [=]|]. by intros ids [= <-].
      * intros ex s' Hn. apply Herr; [done|]. by intros ids [= <-].
    + wp_step. unfold with_console, cerr. do 6 wp_step. apply wp_usage; [done|]. apply Hone; [done|].
      by intros ids [= ? _].
Qed.
End program.

(** A server that answers every request with a snapshot. *)
Definition sample_json_text : Json :=
  json_table [("{snapshot}", book_text "A" [level_text "0.45" "10"] [level_text "0.5" "3"])] (λ _, "").

Definition sample_session : http_session :=
  mkSession None (λ _, true) (λ _ _, inl ["192.0.2.1"]) (λ _, None) None (λ _, None)
    (λ _, inl (200, "{snapshot}")) shutdown_eof.

(** The stream is left by the user during the second attempt. *)
Lemma sample_ends ids : ends_by_signal (H:=sample_json_text) sample_network 6 ids 1.
Proof.
  split; [lia| |intros msg; apply sample_signalled].
  intros k _. exists 1%nat. split; [lia|apply sample_behaves].
Qed.

Lemma main_exit_code_witness :
  ∃ code s', main (H:=sample_json_text) sample_session sample_network (λ _, false) 6 ["cmarket"; "stream"; "A"] idle_stream
               = (Ok code, s') ∧ (code = 0 ∨ code = 1) ∧
    (∀ token, ["stream"; "A"] = ["book"; token] → (code = 0 ↔ served (H:=sample_json_text) sample_session token)) ∧
    (∀ ids, ["stream"; "A"] = "stream" :: ids →
       (code = 0 ↔ subscribable (H:=sample_json_text) ids) ∧
       (code = 0 → sigint s' = sigint idle_stream ∧ sigterm s' = sigterm idle_stream)).
Proof.
  apply (main_exit_code (H:=sample_json_text) sample_session sample_network (λ _, false) 6 1 "cmarket" ["stream"; "A"]
    idle_stream).
  intros ids _. apply sample_ends.
Defined.

(** Both commands end with 0 there, and [book] with a crossed snapshot would not. *)
Lemma sample_exit_codes :
  (main (H:=sample_json_text) sample_session sample_network (λ _, false) 6 ["cmarket"; "stream"; "A"] idle_stream).1 = Ok 0 ∧
  (main (H:=sample_json_text) sample_session sample_network (λ _, false) 6 ["cmarket"; "book"; "A"] idle_stream).1 = Ok 0 ∧
  (main (H:=json_table [("{snapshot}", book_text "A" [level_text "0.6" "1"] [level_text "0.5" "3"])] (λ _, ""))
     sample_session sample_network (λ _, false) 6 ["cmarket"; "book"; "A"] idle_stream).1 = Ok 1.
Proof. split_and!; vm_compute; reflexivity. Qed.
